(* ===== verification/_CoqProject ===== *)
-Q . S2P
Prelude.v
Progress.v
Raii.v
Guards.v
Errors.v
FramePool.v
Cancellation.v
WhenAll.v
SyncObject.v
Mutex.v
Semaphore.v
RWLock.v
Event.v
Latch.v
Channel.v
Race.v
TaskGroup.v
Http.v
Executor.v
PollingExecutor.v
ThreadPool.v
Libuv.v
Retry.v
Spawn.v
SpawnedTask.v
Detached.v
Generator.v
Task.v
SyncWait.v
IoUring.v
Kernel.v
Trace.v
SyncTcp.v
UringTcp.v
UringFile.v
Tcp.v
StreamClient.v
Threads.v
Execution.v
EventLoop.v
Executors.v
HttpServer.v
EchoServer.v
Examples.v
