(* ===== verification/Prelude.v ===== *)
(** * hotcoco in Rocq

    hotcoco is a C++20 coroutine library: lazy tasks and their combinators,
    synchronisation objects for coroutines, executors (event loops and a thread
    pool), sockets and files, and an HTTP server.  This development models its
    own logic as executable definitions and proves what makes each part correct.

    ** How the program is modelled

    A coroutine is its handle, a number ([handle]); [h.resume()] is an entry in
    the list of handles an operation returns.  An object is a record with the
    fields of the class; a method is a function from the record to the new record
    and what it resumes, closes or calls.  Concurrent parts are labelled
    transition systems with an executable step ([Prelude.run], [reachable]): one
    label is one atomic action of one thread or coroutine (a critical section, an
    atomic operation, a callback of an event loop), so that a schedule is a list
    of labels and a witness is a run.  Machine integers are [Z] with their wrap
    written out ([to_size], [IoUring.to_unsigned], [Tcp.to_int]).  Errors are
    values of [Errors.Result], of [option] (a C++ precondition or an exhausted
    fuel), or negative results, as in the code.

    ** The files and the code

    - Prelude: automation, the transition systems, lemmas on maps and lists.
      Progress: what happens inevitably, or within a number of steps of a kind,
      whatever the schedule, with the measures that prove it.
    - Raii, Guards: move-only owners as an interface with laws ([UniqueOwner],
      [OwnerLaws]) and its instances: the lock guards of sync/mutex.hpp,
      semaphore.hpp, rwlock.hpp, and core/defer.hpp.
    - Errors: core/error.hpp, core/result.hpp.
    - FramePool: core/frame_pool.hpp with the heap and any number of threads.
    - Cancellation: core/cancellation.hpp.
    - WhenAll, Race, TaskGroup: core/when_all.hpp; core/when_any.hpp and
      core/timeout.hpp; core/task_group.hpp.
    - SyncObject, Mutex, Semaphore, RWLock, Event, Latch: the objects of sync/.
      SyncObject is the interface of a synchronisation object (ready, suspend,
      resume, other operations) and the machine of any number of coroutines that
      use one; the five files are its instances, each with its invariant.
    - Channel: core/channel.hpp, with the coroutine frames that hold the values.
    - Task: core/task.hpp (Task<T> and Task<void>, awaiting each other),
      core/combinators.hpp, core/invoke.hpp; SyncWait:
      sync/sync_wait.hpp; Spawn, SpawnedTask: core/spawn.hpp, the shared state
      and the frames; Detached: core/detached_task.hpp; Generator: core/generator.hpp; Retry:
      core/retry.hpp, with the delays in binary64.
    - Executor: the abstract class of io/executor.hpp as a typeclass with laws,
      the thread-local current executor, io/timer.hpp, core/schedule_on.hpp,
      io/periodic_timer.hpp.  PollingExecutor, ThreadPool, Libuv, IoUring: the
      executors of io/, each an instance of the class.  EventLoop: an executor
      with its threads, kernel and other callers as a machine with laws
      ([EventLoop], [EventLoopLaws]), and coroutines that live on several of
      them; Executors: the four executors discharge both interfaces.
    - Kernel: the operating system as a parameter (below); Trace: a system with
      the record of the calls made on it, so that an error can be traced to the
      call it comes from.  SyncTcp, UringTcp, UringFile: io/sync_tcp.hpp,
      io/iouring_tcp.hpp, io/iouring_file.hpp.
    - Tcp: io/tcp.hpp over libuv.  Http: http/http.hpp over llhttp, with
      HandleConnection as a function of what it reads.  StreamClient: the
      interface of a coroutine that reads, writes and closes a stream
      ([StreamProgram], [StreamLaws]) and the system it makes with the stream of
      Tcp.  HttpServer: HandleConnection as such a coroutine, Run over its
      listener, and the server with all its connections.
    - Threads: io/thread_utils.hpp, core/check.hpp.
    - Execution: the four headers of execution/.
    - EchoServer, Examples: the programs of examples/, as clients of the library:
      04 and 06 over StreamClient and UringTcp; the tasks of 01, the generators
      of 02, the request handler of 05, the coroutines of 07.

    ** What is proved

    - Mutual exclusion and no lost waiter: [Mutex.mutex_exclusion],
      [mutex_queue_served], [mutex_bounded_wait]; [RWLock.rwlock_exclusion],
      [rwlock_no_stranded_waiter], [rwlock_everybody_served];
      [Semaphore.semaphore_conservation], [semaphore_bounded_wait].
    - Values are delivered once and in order: [Channel.channel_fifo],
      [channel_exactly_once].
    - Joins and races: [WhenAll.when_all_join], [when_all_completes];
      [Race.when_any_winner], [with_timeout_race];
      [TaskGroup.task_group_cooperative]; [Spawn.spawn_callbacks], whose machine
      completes a state once, which [SpawnedTask.spawned_tasks_once] proves of
      the frames that Spawn makes;
      [Cancellation.cancellation_exactly_once].
    - The coroutine machinery refines direct calls: [Task.task_refines],
      [then_laws]; [Generator.generator_yields]; [SyncWait.sync_wait_value];
      frames and resources are released once: [Task.task_frames_destroyed_once],
      [Detached.detached_frames_once], [Guards.guards_release_once],
      [FramePool.frame_pool_safe].
    - Executors run everything once and forget no wake-up:
      [PollingExecutor.polling_exactly_once], [ThreadPool.pool_exactly_once],
      [pool_completes], [Libuv.libuv_no_lost_wakeup],
      [IoUring.iouring_exactly_once], [iouring_no_lost_wakeup]; the awaitables
      schedule their coroutine once on any of them
      ([Executor.awaitables_schedule_once]); coroutines that sleep, yield, move
      and do I/O on executors of all four kinds are never resumed twice or lost
      ([Executors.coroutines_resumed_once]).  The thread pool's timer thread has
      an undefined read ([ThreadPool.pool_timer_dangling]); the theorems on the
      pool, and the last one, are about the executions without it, of which the
      flag [dangling] keeps account.
    - Bytes arrive complete and in order, errors are those of the call that
      failed, descriptors and handles are released:
      [SyncTcp.send_recv_roundtrip], [sync_tcp_no_leak],
      [UringTcp.uring_write_reports], [UringFile.file_transfers_complete],
      [write_read_roundtrip], [Tcp.tcp_read_in_order], [tcp_handle_safe]; every
      message is echoed whole unless a send fails
      ([EchoServer.uring_client_echoes]).
    - HTTP: the limits of the parser, independence of how the input is split; a
      connection is a sequence of exchanges, each a message that a fresh parser
      reads before its deadline and the one response to it
      ([Http.http_connection]); the coroutine over a real
      stream refines that function and keeps the stream's rules
      ([HttpServer.http_connection_refines]); every connection gets one handler,
      which serves it so ([server_handles_each]).
    - [Retry.retry_bounded]: the number of attempts and the delays.

    Examples named after a fault (such as [ThreadPool.pool_stop_missed] or
    [UringTcp.uring_eof_leaks_fd]) are runs in which the code does not do what it
    means to; the theorems next to them say under which conditions it does.

    ** Parameters

    Third-party code and the system are parameters: llhttp is an argument of
    [Http.Parse]; libuv's and io_uring's callbacks are labels, enabled as they
    are documented; the system calls are the classes [Kernel.Kernel] and
    [Kernel.Ring], with laws ([KernelLaws], [RingLaws]) that state the manual
    pages in terms of a few observations (the descriptors opened and closed, the
    bytes accepted and handed out on each, a file's contents and whether the
    descriptor appends); [SyncTcp.loopback] is a system that satisfies them, on
    which the witnesses run, and so is any such system with the record of its
    calls ([Trace.traced]).  A generator's or a task's body
    is an abstract program.

    ** Fuel

    SendAll, RecvExact, Write, ReadAll and WriteAll loop on fuel, one unit per
    byte to transfer, and their specifications say that a result is returned:
    every iteration transfers a byte or returns.  UintToStr's fuel is the room in
    its buffer.  All other loops are structural, or are steps of a machine.

    ** Not modelled

    The memory model (atomic operations are sequentially consistent) and
    exceptions; concepts.hpp and hotcoco.hpp, which have no run-time behaviour;
    in examples/, the main functions and what is printed, example 03, whose order
    of events is that of real time, and the pipelines of example 07, which compose
    the algorithms of stdexec, a third-party library; benchmarks/ and tests/.  The
    destruction of an executor while coroutines wait on it, and of a coroutine
    while an executor has its handle, are outside [EventLoop]'s worlds.
    Operations of one socket or file object do not overlap in UringTcp and
    UringFile. *)
From stdpp Require Export base tactics option list gmap sets strings.
From Stdlib Require Export ZArith Lia.

(** ** Automation *)

Create HintDb coco.

(** Case analysis on the scrutinees of a hypothesis or of the goal, cleaning up
    the equations the case split leaves behind. *)
Ltac split_match :=
  repeat (case_match; simplify_eq/=).

(** Invert a hypothesis [f x = Some y] whose left-hand side is a nest of
    matches and conditionals. *)
Ltac inv_step H :=
  repeat (case_match; simplify_eq/=; try discriminate H).

(** Destruct the conjunctions and existentials of the context. *)
Ltac crush := intros; simplify_eq/=; try done; try lia; eauto with coco.

(** ** Coroutine handles and machine integers *)

(** A [std::coroutine_handle<>]: the address of a coroutine frame.  The null
    handle is [None] where the code tests for it. *)
Definition handle := nat.

(** [size_t] and [uint64_t] arithmetic wraps modulo 2^64. *)
Definition size_mod : Z := (2 ^ 64)%Z.
Definition to_size (z : Z) : Z := (z mod size_mod)%Z.
Definition size_ok (z : Z) : Prop := (0 <= z < size_mod)%Z.

Lemma to_size_id z : size_ok z → to_size z = z.
Proof. intros. by apply Z.mod_small. Qed.

Lemma to_size_ok z : size_ok (to_size z).
Proof. by apply Z.mod_pos_bound. Qed.

#[export] Hint Resolve to_size_ok : coco.

(** ** Labelled transition systems with an executable step *)

(** Concurrent components are systems whose step function is deterministic once
    the label says which coroutine (or thread) moves: a schedule is a list of
    labels, and [None] says the label is not enabled. *)
Section Runs.
Context {St Lb : Type} (step : Lb → St → option St).

Fixpoint run (ls : list Lb) (s : St) : option St :=
  match ls with
  | [] => Some s
  | l :: ls' => step l s ≫= run ls'
  end.

Inductive reachable (s0 : St) : St → Prop :=
  | reach_refl : reachable s0 s0
  | reach_step l s s' : reachable s0 s → step l s = Some s' → reachable s0 s'.

Lemma run_app ls1 ls2 s : run (ls1 ++ ls2) s = run ls1 s ≫= run ls2.
Proof.
  revert s. induction ls1 as [|l ls1 IH]; intros s; simpl; [done|].
  destruct (step l s); simpl; auto.
Qed.

Lemma run_reachable ls s0 s s' :
  reachable s0 s → run ls s = Some s' → reachable s0 s'.
Proof.
  revert s. induction ls as [|l ls IH]; intros s Hr Hrun; simplify_eq/=; [done|].
  destruct (step l s) as [s1|] eqn:Hs; simplify_eq/=.
  eapply IH; [|done]. by eapply reach_step.
Qed.

Lemma reachable_run s0 s : reachable s0 s ↔ ∃ ls, run ls s0 = Some s.
Proof.
  split.
  - induction 1 as [|l s s' _ [ls IH] Hs]; [by exists []|].
    exists (ls ++ [l]). rewrite run_app, IH. simpl. by rewrite Hs.
  - intros [ls Hls]. eapply run_reachable; [constructor|done].
Qed.

(** Rule induction packaged for invariants. *)
Lemma reachable_inv (I : St → Prop) s0 s :
  I s0 →
  (∀ l s s', I s → step l s = Some s' → I s') →
  reachable s0 s → I s.
Proof. intros H0 Hstep. induction 1; eauto. Qed.

Lemma run_inv (I : St → Prop) ls s s' :
  (∀ l s s', I s → step l s = Some s' → I s') →
  I s → run ls s = Some s' → I s'.
Proof.
  intros Hstep H0 Hrun. eapply reachable_inv; [exact H0|done|].
  apply reachable_run. by exists ls.
Qed.
Lemma reachable_trans s0 s1 s2 : reachable s0 s1 → reachable s1 s2 → reachable s0 s2.
Proof. intros H1. induction 1; [done|]. by eapply reach_step. Qed.
End Runs.

(** ** Phase maps: what every coroutine is doing *)

Section Phases.
Context {P : Type} (idle : P).
Implicit Types (m : gmap handle P) (f : P → bool).

Definition phase_of m (h : handle) : P := default idle (m !! h).

(** Number of coroutines whose phase satisfies [f]. *)
Definition count f m : nat := map_fold (λ _ p n, Nat.b2n (f p) + n) 0 m.

Lemma phase_of_empty h : phase_of ∅ h = idle.
Proof. unfold phase_of. by rewrite lookup_empty. Qed.

Lemma phase_of_set_eq m h p : phase_of (<[h:=p]> m) h = p.
Proof. unfold phase_of. by rewrite lookup_insert_eq. Qed.

Lemma phase_of_set_ne m h h' p : h ≠ h' → phase_of (<[h:=p]> m) h' = phase_of m h'.
Proof. intros. unfold phase_of. by rewrite lookup_insert_ne. Qed.

Lemma phase_of_set m h h' p :
  phase_of (<[h:=p]> m) h' = if decide (h = h') then p else phase_of m h'.
Proof.
  case_decide; subst; [apply phase_of_set_eq|by apply phase_of_set_ne].
Qed.

Lemma count_insert_fresh f m h p :
  m !! h = None → count f (<[h:=p]> m) = Nat.b2n (f p) + count f m.
Proof.
  intros Hm. unfold count. rewrite map_fold_insert_L; [done| |done]. lia.
Qed.

(** Moving one coroutine from a phase to another moves the count with it. *)
Lemma count_set f m h p :
  f idle = false →
  count f (<[h:=p]> m) + Nat.b2n (f (phase_of m h)) = count f m + Nat.b2n (f p).
Proof.
  intros Hidle. unfold phase_of. destruct (m !! h) as [q|] eqn:Hm; simpl.
  - rewrite <-(insert_delete_id m h q Hm) at 2.
    rewrite <-insert_delete_eq.
    rewrite !count_insert_fresh by apply lookup_delete_eq. lia.
  - rewrite count_insert_fresh by done. rewrite Hidle. simpl. lia.
Qed.

Lemma count_empty f : count f ∅ = 0.
Proof. done. Qed.

Lemma count_pos f m h : f idle = false → f (phase_of m h) = true → 0 < count f m.
Proof.
  intros Hidle Hf. unfold phase_of in *. destruct (m !! h) as [q|] eqn:Hm; simpl in *.
  - rewrite <-(insert_delete_id m h q Hm).
    rewrite count_insert_fresh by apply lookup_delete_eq. rewrite Hf. simpl. lia.
  - congruence.
Qed.

(** Two different coroutines in [f] count for two. *)
Lemma count_two f m h h' :
  f idle = false → h ≠ h' →
  f (phase_of m h) = true → f (phase_of m h') = true → 2 ≤ count f m.
Proof.
  intros Hidle Hne Hf Hf'. pose proof (count_set f m h idle Hidle) as Hc.
  rewrite Hf, Hidle in Hc. simpl in Hc.
  assert (0 < count f (<[h:=idle]> m)); [|lia].
  apply (count_pos f _ h'); [done|]. by rewrite phase_of_set_ne.
Qed.

(** The count depends on the phases only, not on which idle coroutines are in
    the map. *)
Lemma count_filter f m : count f m = size (filter (λ kv, f kv.2 = true) m).
Proof.
  induction m as [|h p m Hm IH] using map_ind; [done|].
  rewrite count_insert_fresh by done. destruct (f p) eqn:Hp; simpl.
  - rewrite map_filter_insert_True by done. rewrite map_size_insert_None; [by rewrite IH|].
    by rewrite map_lookup_filter, Hm.
  - rewrite map_filter_insert_False by (simpl; congruence). by rewrite delete_id.
Qed.

Lemma count_ext f m m' : f idle = false → (∀ h, phase_of m h = phase_of m' h) → count f m = count f m'.
Proof.
  intros Hidle Heq. rewrite !count_filter. f_equal. apply map_eq. intros h.
  apply option_eq. intros p. rewrite !map_lookup_filter_Some. simpl. specialize (Heq h). unfold phase_of in Heq.
  destruct (m !! h) as [q|], (m' !! h) as [q'|]; simpl in Heq; split; intros [? ?]; simplify_eq; try done; congruence.
Qed.

Lemma count_le_size f m : count f m ≤ size m.
Proof.
  induction m as [|h p m Hm IH] using map_ind; [rewrite count_empty; lia|].
  rewrite count_insert_fresh, map_size_insert_None by done.
  destruct (f p); simpl; lia.
Qed.

Lemma size_insert_le m h p : size m ≤ size (<[h:=p]> m).
Proof. rewrite map_size_insert. destruct (m !! h); simpl; lia. Qed.

Lemma count_witness f m :
  0 < count f m → ∃ h p, m !! h = Some p ∧ f p = true.
Proof.
  induction m as [|h p m Hm IH] using map_ind; [rewrite count_empty; lia|].
  rewrite count_insert_fresh by done. destruct (f p) eqn:Hp; simpl.
  - intros _. exists h, p. split; [apply lookup_insert_eq|done].
  - intros (h' & p' & Hl & Hp')%IH. exists h', p'. split; [|done].
    rewrite lookup_insert_ne; [done|]. by intros ->; congruence.
Qed.
End Phases.

(** ** What the values of a map hold, as one list *)

Section Collect.
Context {K : Type} `{Countable K} {O A : Type} (f : O → list A).
Implicit Types (m : gmap K O).

Definition collect m : list A := map_fold (λ _ o l, f o ++ l) [] m.

Lemma collect_empty : collect ∅ = [].
Proof. unfold collect. by rewrite map_fold_empty. Qed.

Lemma collect_insert_fresh m x o :
  m !! x = None → collect (<[x:=o]> m) ≡ₚ f o ++ collect m.
Proof.
  intros Hx. unfold collect. rewrite (map_fold_insert (≡ₚ)); [done| | |done].
  - intros j o' l1 l2 ->. done.
  - intros j1 j2 o1 o2 l _ _ _. solve_Permutation.
Qed.

Lemma collect_delete m x o :
  m !! x = Some o → collect m ≡ₚ f o ++ collect (delete x m).
Proof.
  intros Hx. rewrite <-(insert_delete_id m x o Hx) at 1.
  apply collect_insert_fresh, lookup_delete_eq.
Qed.

(** Replacing the value at a key. *)
Lemma collect_update m x o o' :
  m !! x = Some o → f o ++ collect (<[x:=o']> m) ≡ₚ f o' ++ collect m.
Proof.
  intros Hx. rewrite <-insert_delete_eq.
  rewrite collect_insert_fresh by apply lookup_delete_eq.
  rewrite (collect_delete m x o Hx). solve_Permutation.
Qed.

Lemma collect_set idle m x o' :
  f idle = [] → f (default idle (m !! x)) ++ collect (<[x:=o']> m) ≡ₚ f o' ++ collect m.
Proof.
  intros Hi. destruct (m !! x) as [o|] eqn:Hx; simpl; [by apply collect_update|].
  rewrite Hi. by apply collect_insert_fresh.
Qed.
End Collect.

(** Replacing one element of a list of lists. *)
Lemma concat_insert {A} (ls : list (list A)) i l l' :
  ls !! i = Some l → l ++ concat (<[i:=l']> ls) ≡ₚ l' ++ concat ls.
Proof.
  revert i. induction ls as [|l0 ls IH]; intros [|i] Hi; simplify_eq/=; [solve_Permutation|].
  transitivity (l0 ++ (l ++ concat (<[i:=l']> ls))); [solve_Permutation|].
  rewrite (IH i Hi). solve_Permutation.
Qed.

(** The keys of a map, as a list. *)
Section Keys.
Context {K : Type} `{Countable K} {A : Type}.
Implicit Types (m : gmap K A).

Definition keys m : list K := (map_to_list m).*1.

Lemma keys_nodup m : NoDup (keys m).
Proof. apply NoDup_fst_map_to_list. Qed.

Lemma keys_lookup m k : k ∈ keys m ↔ is_Some (m !! k).
Proof.
  unfold keys. rewrite list_elem_of_fmap. split.
  - intros ([k' x] & -> & Hx). apply elem_of_map_to_list in Hx. by exists x.
  - intros [x Hx]. exists (k, x). by rewrite elem_of_map_to_list.
Qed.

Lemma keys_insert m k x : m !! k = None → keys (<[k:=x]> m) ≡ₚ k :: keys m.
Proof. intros Hk. unfold keys. by rewrite map_to_list_insert. Qed.

Lemma keys_delete m k : is_Some (m !! k) → k :: keys (delete k m) ≡ₚ keys m.
Proof.
  intros [x Hx]. unfold keys. by rewrite <-(map_to_list_delete m k x Hx).
Qed.
End Keys.

(** ** Sums over lists *)

Lemma sum_list_insert {A} (f : A → nat) l i x y :
  l !! i = Some x → sum_list (f <$> <[i:=y]> l) + f x = sum_list (f <$> l) + f y.
Proof.
  revert i. induction l as [|z l IH]; intros [|i] Hi; simplify_eq/=; [lia|].
  specialize (IH i Hi). simpl in *. lia.
Qed.

Lemma sum_list_elem {A} (f : A → nat) l i x :
  l !! i = Some x → f x ≤ sum_list (f <$> l).
Proof.
  revert i. induction l as [|z l IH]; intros [|i] Hi; simplify_eq/=; [lia|].
  specialize (IH i Hi). simpl in *. lia.
Qed.

Lemma sum_list_pos {A} (f : A → nat) l :
  0 < sum_list (f <$> l) → ∃ i x, l !! i = Some x ∧ 0 < f x.
Proof.
  induction l as [|z l IH]; simpl; [lia|]. intros Hp.
  destruct (decide (0 < f z)); [by exists 0, z|].
  destruct IH as (i & x & Hi & Hx); [unfold fmap; lia|]. by exists (S i), x.
Qed.

Lemma sum_list_replicate {A} (f : A → nat) n x :
  sum_list (f <$> replicate n x) = n * f x.
Proof. induction n as [|n IH]; simpl; [done|]. by rewrite <-IH. Qed.

Lemma sum_list_le {A} (f : A → nat) l k : (∀ x, f x ≤ k) → sum_list (f <$> l) ≤ k * length l.
Proof.
  intros Hf. induction l as [|z l IH]; simpl; [lia|].
  specialize (Hf z). rewrite Nat.mul_succ_r. unfold fmap in IH. lia.
Qed.

(** ** Threads in a list: what one of them holds, and the rest *)

Section Split.
Context {A B : Type}.
Implicit Types (l : list A).

Lemma concat_split (f : A → list B) l i x :
  l !! i = Some x →
  ∃ rest, concat (f <$> l) ≡ₚ f x ++ rest ∧ ∀ y, concat (f <$> <[i:=y]> l) ≡ₚ f y ++ rest.
Proof.
  revert i. induction l as [|z l IH]; intros [|i] Hi; simplify_eq/=.
  - by exists (concat (f <$> l)).
  - destruct (IH i Hi) as (rest & H1 & H2). exists (f z ++ rest).
    split; [|intros y]; [rewrite H1|rewrite H2]; solve_Permutation.
Qed.

Lemma sum_split (f : A → nat) l i x :
  l !! i = Some x →
  ∃ rest, sum_list (f <$> l) = f x + rest ∧ ∀ y, sum_list (f <$> <[i:=y]> l) = f y + rest.
Proof.
  intros Hi. exists (sum_list (f <$> l) - f x). pose proof (sum_list_elem f l i x Hi).
  split; [lia|]. intros y. pose proof (sum_list_insert f l i x y Hi). lia.
Qed.

Lemma concat_map_id (f : A → list B) (g : A → A) l :
  (∀ x, f (g x) = f x) → concat (f <$> (g <$> l)) = concat (f <$> l).
Proof.
  intros Hg. rewrite <-list_fmap_compose. f_equal. apply list_fmap_ext. intros. apply Hg.
Qed.

Lemma sum_map_id (f : A → nat) (g : A → A) l :
  (∀ x, f (g x) = f x) → sum_list (f <$> (g <$> l)) = sum_list (f <$> l).
Proof.
  intros Hg. rewrite <-list_fmap_compose. f_equal. apply list_fmap_ext. intros. apply Hg.
Qed.

Lemma concat_snoc (f : A → list B) l x : concat (f <$> (l ++ [x])) = concat (f <$> l) ++ f x.
Proof. rewrite fmap_app, concat_app. simpl. by rewrite app_nil_r. Qed.

Lemma sum_snoc (f : A → nat) l x : sum_list (f <$> (l ++ [x])) = sum_list (f <$> l) + f x.
Proof. unfold fmap. induction l as [|z l IH]; simpl in *; lia. Qed.
End Split.
