(* ===== verification/Progress.v ===== *)
(** * Liveness under any schedule

    A progress label is one that the program takes sooner or later (the owner
    of a lock releases it, a resumed coroutine runs); the other labels are what
    the rest of the program may do meanwhile, in any number.  A goal is
    inevitable when, until it holds, some progress step stays possible, and
    whichever ones are taken, there are finitely many before it holds;
    [within n] says that there are at most [n].  Both follow from a rank that
    other steps do not raise and progress steps lower. *)
From S2P Require Import Prelude.

Section Progress.
Context {St Lb : Type} (step : Lb → St → option St) (progress : Lb → bool) (goal : St → Prop).

(** What others do, for as long as the goal does not hold. *)
Inductive meanwhile (s : St) : St → Prop :=
  | mw_refl : meanwhile s s
  | mw_step l s1 s2 :
      meanwhile s s1 → ~ goal s1 → progress l = false → step l s1 = Some s2 → meanwhile s s2.

Definition enabled (s : St) : Prop := ∃ l s', progress l = true ∧ step l s = Some s'.
(** After the next progress step. *)
Definition next (s s2 : St) : Prop :=
  ∃ s1 l, meanwhile s s1 ∧ ~ goal s1 ∧ progress l = true ∧ step l s1 = Some s2.

Fixpoint within (n : nat) (s : St) : Prop :=
  match n with
  | O => goal s
  | S n => (∀ s1, meanwhile s s1 → goal s1 ∨ enabled s1) ∧ (∀ s2, next s s2 → within n s2)
  end.

Inductive inevitable (s : St) : Prop :=
  | inev : (∀ s1, meanwhile s s1 → goal s1 ∨ enabled s1) → (∀ s2, next s s2 → inevitable s2) → inevitable s.

Lemma meanwhile_now s s1 : goal s → meanwhile s s1 → s1 = s.
Proof. intros Hg. by induction 1 as [|l s1 s2 Hm -> Hng _ _]. Qed.

Lemma next_now s s2 : goal s → ~ next s s2.
Proof. intros Hg (s1 & l & Hm & Hng & _). by rewrite (meanwhile_now s s1 Hg Hm) in Hng. Qed.

Lemma within_now n s : goal s → within n s.
Proof.
  intros Hg. destruct n; [done|]. split; [|intros s2 Hn; by apply next_now in Hn].
  intros s1 Hm. left. by rewrite (meanwhile_now s s1 Hg Hm).
Qed.

Lemma inevitable_now s : goal s → inevitable s.
Proof.
  intros Hg. constructor; [|intros s2 Hn; by apply next_now in Hn].
  intros s1 Hm. left. by rewrite (meanwhile_now s s1 Hg Hm).
Qed.

Lemma within_inevitable n s : within n s → inevitable s.
Proof.
  revert s. induction n as [|n IH]; intros s; [by apply inevitable_now|].
  intros [He Hn]. constructor; [done|]. intros s2 H2. by apply IH, Hn.
Qed.

(** ** What it means for runs *)

Definition progress_steps (ls : list Lb) : nat := length (filter (λ l, progress l = true) ls).

Lemma meanwhile_trans s s1 s2 : meanwhile s s1 → meanwhile s1 s2 → meanwhile s s2.
Proof. intros H1. induction 1; [done|]. by eapply mw_step. Qed.

Lemma meanwhile_within n s s1 : meanwhile s s1 → (∀ s, Decision (goal s)) → within n s → within n s1.
Proof.
  intros Hm Hdec. destruct (decide (goal s)) as [Hg|Hng]; [by rewrite (meanwhile_now s s1 Hg Hm)|].
  destruct n as [|n]; [done|]. intros [He Hn]. split.
  - intros s2 H2. apply He. by eapply meanwhile_trans.
  - intros s2 (s' & l & H2 & H3). apply Hn. exists s', l. split; [by eapply meanwhile_trans|done].
Qed.

(** A run with [n] progress steps has passed the goal. *)
Lemma within_run (Hdec : ∀ s, Decision (goal s)) n ls s s' :
  within n s → run step ls s = Some s' → n ≤ progress_steps ls →
  ∃ ls1 ls2 s1, ls = ls1 ++ ls2 ∧ run step ls1 s = Some s1 ∧ goal s1.
Proof.
  revert n s. induction ls as [|l ls IH]; intros n s Hw Hrun Hn.
  { exists [], [], s. destruct n; [done|]. unfold progress_steps in Hn. simpl in Hn. lia. }
  destruct (decide (goal s)) as [Hg|Hng]; [by exists [], (l :: ls), s|].
  simpl in Hrun. destruct (step l s) as [s2|] eqn:Hst; [|done]. simpl in Hrun.
  assert (∃ n', within n' s2 ∧ n' ≤ progress_steps ls) as (n' & Hw' & Hn').
  { unfold progress_steps in *. rewrite filter_cons in Hn. destruct (progress l) eqn:Hl; simpl in Hn.
    - destruct n as [|n]; [done|]. exists n. split; [|lia]. apply Hw.
      exists s, l. split_and!; [constructor|done..].
    - exists n. split; [|done]. eapply meanwhile_within; [|done|exact Hw].
      eapply mw_step; [constructor|done..]. }
  destruct (IH n' s2 Hw' Hrun Hn') as (ls1 & ls2 & s1 & -> & Hr & Hg).
  exists (l :: ls1), ls2, s1. split_and!; [done| |done]. simpl. by rewrite Hst.
Qed.

(** ** Ranks *)

Section Rank.
Context {M : Type} (lt : M → M → Prop) (R : M → St → Prop).

Definition ranked : Prop := ∀ m s, R m s → goal s ∨
  (enabled s ∧ ∀ l s', step l s = Some s' →
     goal s' ∨ ∃ m', R m' s' ∧ (lt m' m ∨ (progress l = false ∧ m' = m))).

Lemma meanwhile_ranked m s s1 : transitive _ lt → ranked → R m s → meanwhile s s1 →
  goal s1 ∨ ∃ m', R m' s1 ∧ (m' = m ∨ lt m' m).
Proof.
  intros Htr Hrk HR. induction 1 as [|l s1 s2 Hm IH Hng Hl Hst]; [eauto|].
  destruct IH as [?|(m1 & HR1 & Hle)]; [done|].
  destruct (Hrk m1 s1 HR1) as [?|[_ Hall]]; [done|].
  destruct (Hall l s2 Hst) as [?|(m2 & HR2 & Hlt)]; [by left|]. right. exists m2. split; [done|].
  destruct Hlt as [Hlt|[_ ->]]; [|done]. right. destruct Hle as [->|Hle]; [done|]. by eapply Htr.
Qed.

Lemma enabled_ranked m s s1 : transitive _ lt → ranked → R m s → meanwhile s s1 → goal s1 ∨ enabled s1.
Proof.
  intros Htr Hrk HR Hm. destruct (meanwhile_ranked m s s1 Htr Hrk HR Hm) as [?|(m1 & HR1 & _)]; [by left|].
  destruct (Hrk m1 s1 HR1) as [?|[? _]]; auto.
Qed.

Lemma next_ranked m s s2 : transitive _ lt → ranked → R m s → next s s2 →
  goal s2 ∨ ∃ m', R m' s2 ∧ lt m' m.
Proof.
  intros Htr Hrk HR (s1 & l & Hm & Hng & Hl & Hst).
  destruct (meanwhile_ranked m s s1 Htr Hrk HR Hm) as [?|(m1 & HR1 & Hle)]; [done|].
  destruct (Hrk m1 s1 HR1) as [?|[_ Hall]]; [done|].
  destruct (Hall l s2 Hst) as [?|(m2 & HR2 & [Hlt|[Hf _]])]; [by left| |congruence].
  right. exists m2. split; [done|]. destruct Hle as [->|Hle]; [done|]. by eapply Htr.
Qed.

Lemma inevitable_ranked m s : transitive _ lt → well_founded lt → ranked → R m s → inevitable s.
Proof.
  intros Htr Hwf Hrk. revert s. induction (Hwf m) as [m _ IH]. intros s HR. constructor.
  - intros s1. by apply (enabled_ranked m).
  - intros s2 Hn. destruct (next_ranked m s s2 Htr Hrk HR Hn) as [?|(m' & HR' & Hlt)];
      [by apply inevitable_now|by eapply IH].
Qed.
End Rank.

Lemma within_ranked (R : nat → St → Prop) n m s : ranked Nat.lt R → R m s → m < n → within n s.
Proof.
  intros Hrk. assert (transitive _ Nat.lt) as Htr by (intros ???; unfold Nat.lt; lia).
  revert m s. induction n as [|n IH]; intros m s HR Hlt; [lia|]. split.
  - intros s1. by apply (enabled_ranked Nat.lt R m).
  - intros s2 Hn. destruct (next_ranked Nat.lt R m s s2 Htr Hrk HR Hn) as [?|(m' & HR' & Hlt')];
      [by apply within_now|]. apply (IH m'); [done|]. unfold Nat.lt in Hlt'. lia.
Qed.
End Progress.

(** ** Triples in lexicographic order *)

Definition lt3 (x y : nat * nat * nat) : Prop :=
  let '(a, b, c) := x in let '(a', b', c') := y in a < a' ∨ a = a' ∧ (b < b' ∨ b = b' ∧ c < c').

Lemma lt3_trans : transitive _ lt3.
Proof. intros [[a b] c] [[a' b'] c'] [[a'' b''] c'']. unfold lt3. lia. Qed.

Lemma lt3_wf : well_founded lt3.
Proof.
  intros [[a b] c]. revert b c. induction (Nat.lt_wf_0 a) as [a _ IHa].
  intros b. induction (Nat.lt_wf_0 b) as [b _ IHb].
  intros c. induction (Nat.lt_wf_0 c) as [c _ IHc].
  constructor. intros [[a' b'] c'] [?|[-> [?|[-> ?]]]]; auto.
Qed.
