(* ===== verification/Raii.v ===== *)
(** * Unique owners

    Lock guards, coroutine owners, socket and file objects and Defer are all
    move-only classes with one nullable resource: the destructor releases it, a
    move leaves the source empty, move assignment releases the old resource
    first and ignores self-assignment.  [UniqueOwner] is that interface,
    [OwnerLaws] its contract; the machine runs any sequence of constructions,
    moves, assignments and destructions.  Proved once against the interface:
    every resource is released exactly once, by the end of its last owner. *)
From S2P Require Import Prelude.

Class UniqueOwner (O R : Type) := {
  uo_make : R → O;                           (* the explicit constructor *)
  uo_held : O → option R;                    (* the resource it would release *)
  uo_dtor : O → list R;                      (* releases done by the destructor *)
  uo_move : O → O * O;                       (* new object, moved-from object *)
  uo_assign : bool → O → O → O * O * list R; (* this == &other, this, other *)
}.

Class OwnerLaws (O R : Type) `{UniqueOwner O R} := {
  uo_make_held r : uo_held (uo_make r) = Some r;
  uo_dtor_held o : uo_dtor o = option_list (uo_held o);
  uo_move_held o : uo_held (uo_move o).1 = uo_held o ∧ uo_held (uo_move o).2 = None;
  uo_assign_self o : uo_assign true o o = (o, o, []);
  uo_assign_held o1 o2 :
    uo_held (uo_assign false o1 o2).1.1 = uo_held o2 ∧
    uo_held (uo_assign false o1 o2).1.2 = None ∧
    (uo_assign false o1 o2).2 = option_list (uo_held o1);
}.

(** Objects are named by their addresses. *)
Inductive owner_op (R : Type) :=
  | OCreate (x : nat) (r : R)
  | OMove (x y : nat)      (* O y(std::move(x)) *)
  | OAssign (x y : nat)    (* x = std::move(y) *)
  | ODestroy (x : nat).
Arguments OCreate {R} x r.
Arguments OMove {R} x y.
Arguments OAssign {R} x y.
Arguments ODestroy {R} x.

Record ostate (O R : Type) := OState {
  live : gmap nat O;
  created : list R;
  released : list R;
}.
Arguments OState {O R}.
Arguments live {O R}.
Arguments created {O R}.
Arguments released {O R}.

Section Owners.
Context {O R : Type} `{UO : UniqueOwner O R}.
Implicit Types (s : ostate O R).

Definition owner_init : ostate O R := OState ∅ [] [].

Definition owner_step (l : owner_op R) s : option (ostate O R) :=
  match l with
  | OCreate x r =>
      match live s !! x with
      | None => Some (OState (<[x := uo_make r]> (live s)) (created s ++ [r]) (released s))
      | Some _ => None
      end
  | OMove x y =>
      match live s !! x, live s !! y with
      | Some o, None =>
          let '(o_new, o_old) := uo_move o in
          Some (OState (<[y := o_new]> (<[x := o_old]> (live s))) (created s) (released s))
      | _, _ => None
      end
  | OAssign x y =>
      match live s !! x, live s !! y with
      | Some o1, Some o2 =>
          let '(o1', o2', rel) := uo_assign (bool_decide (x = y)) o1 o2 in
          Some (OState (<[x := o1']> (<[y := o2']> (live s))) (created s) (released s ++ rel))
      | _, _ => None
      end
  | ODestroy x =>
      match live s !! x with
      | Some o => Some (OState (delete x (live s)) (created s) (released s ++ uo_dtor o))
      | None => None
      end
  end.

(** The resources some live object still holds. *)
Definition held_in (m : gmap nat O) : list R := collect (λ o, option_list (uo_held o)) m.
End Owners.

Section Theory.
Context {O R : Type} `{OL : OwnerLaws O R}.
Implicit Types (s : ostate O R) (m : gmap nat O).

Lemma held_insert_fresh m x o :
  m !! x = None → held_in (<[x:=o]> m) ≡ₚ option_list (uo_held o) ++ held_in m.
Proof. apply (collect_insert_fresh (λ o, option_list (uo_held o))). Qed.

Lemma held_delete m x o :
  m !! x = Some o → held_in m ≡ₚ option_list (uo_held o) ++ held_in (delete x m).
Proof. apply (collect_delete (λ o, option_list (uo_held o))). Qed.

Lemma held_update m x o o' :
  m !! x = Some o →
  option_list (uo_held o) ++ held_in (<[x:=o']> m) ≡ₚ option_list (uo_held o') ++ held_in m.
Proof. apply (collect_update (λ o, option_list (uo_held o))). Qed.

(** The balance [created = gone ++ released ++ held] is kept by every step;
    [gone] collects what an instance gives up by other operations. *)
Definition balance (gone : list R) s : Prop :=
  created s ≡ₚ gone ++ released s ++ held_in (live s).

Lemma owner_step_balance gone l s s' :
  balance gone s → owner_step l s = Some s' → balance gone s'.
Proof.
  unfold balance. intros Hinv Hst. destruct l as [x r|x y|x y|x]; simpl in Hst.
  - destruct (live s !! x) eqn:Hx; simplify_eq/=.
    rewrite held_insert_fresh by done. rewrite uo_make_held. simpl. rewrite Hinv.
    solve_Permutation.
  - destruct (live s !! x) as [o|] eqn:Hx; simplify_eq.
    destruct (live s !! y) eqn:Hy; simplify_eq.
    assert (x ≠ y) as Hne by congruence. destruct (uo_move_held o) as [Hn Ho].
    destruct (uo_move o) as [o_new o_old]; simplify_eq/=.
    rewrite held_insert_fresh by by rewrite lookup_insert_ne.
    rewrite Hinv, Hn. do 2 f_equiv. pose proof (held_update _ _ _ o_old Hx) as Hu.
    rewrite Ho in Hu. by rewrite Hu.
  - destruct (live s !! x) as [o1|] eqn:Hx; simplify_eq.
    destruct (live s !! y) as [o2|] eqn:Hy; simplify_eq.
    case_bool_decide as Hxy; subst.
    + simplify_eq. rewrite uo_assign_self in Hst. simplify_eq/=.
      by rewrite insert_insert_eq, (insert_id _ _ _ Hx), app_nil_r.
    + destruct (uo_assign_held o1 o2) as (H1 & H2 & H3).
      destruct (uo_assign false o1 o2) as [[o1' o2'] rel]; simplify_eq/=.
      assert (<[y:=o2']> (live s) !! x = Some o1) as Hx' by by rewrite lookup_insert_ne.
      pose proof (held_update _ _ _ o1' Hx') as Hu1. rewrite H1 in Hu1.
      pose proof (held_update _ _ _ o2' Hy) as Hu2. rewrite H2 in Hu2. simpl in Hu2.
      rewrite Hinv, <-app_assoc. do 2 f_equiv. by rewrite Hu1, Hu2.
  - destruct (live s !! x) as [o|] eqn:Hx; simplify_eq/=.
    by rewrite uo_dtor_held, <-(app_assoc (released s)), <-held_delete.
Qed.

Definition owner_inv s : Prop := balance [] s.

Lemma owner_inv_step l s s' : owner_inv s → owner_step l s = Some s' → owner_inv s'.
Proof. apply owner_step_balance. Qed.

Lemma owner_reachable_inv s : reachable owner_step owner_init s → owner_inv s.
Proof.
  apply reachable_inv; [|intros; by eapply owner_inv_step].
  unfold owner_inv, balance, held_in. simpl. by rewrite collect_empty.
Qed.

(** Released resources were created, and none is released more often than it
    was created. *)
Lemma owner_released_once s :
  reachable owner_step owner_init s → NoDup (created s) →
  NoDup (released s) ∧ (∀ r, r ∈ released s → r ∈ created s) ∧
  (live s = ∅ → released s ≡ₚ created s).
Proof.
  intros Hr Hnd. pose proof (owner_reachable_inv s Hr) as Hinv. unfold owner_inv, balance in Hinv. simpl in Hinv.
  rewrite Hinv in Hnd. split_and!.
  - by apply NoDup_app in Hnd as [? _].
  - intros r Hin. rewrite Hinv. set_solver.
  - intros Hl. rewrite Hinv, Hl. unfold held_in. by rewrite collect_empty, app_nil_r.
Qed.
End Theory.

(** The contract of every owner class: in any program of constructions,
    moves, (self-)assignments and destructions over distinct resources, a
    resource is released at most once, only if it was acquired, and exactly once
    when every owner is gone. *)
Definition releases_exactly_once (O R : Type) `{UniqueOwner O R} : Prop :=
  ∀ s : ostate O R, reachable owner_step owner_init s → NoDup (created s) →
    NoDup (released s) ∧ (∀ r, r ∈ released s → r ∈ created s) ∧
    (live s = ∅ → released s ≡ₚ created s).

Lemma owners_release_once (O R : Type) `{OwnerLaws O R} : releases_exactly_once O R.
Proof. intros s. apply owner_released_once. Qed.
