(* ===== verification/Guards.v ===== *)
(** * RAII guards ([sync/mutex.hpp], [sync/semaphore.hpp], [sync/rwlock.hpp],
      [core/defer.hpp])

    ScopedLock, Guard, ReadGuard and WriteGuard are move-only owners of one
    acquisition: the pointer they keep is null after a move.  Each class is an
    instance of the interface of [Raii]; the resource [r] names one acquisition
    of the lock, so a release of [r] is the call of Unlock (Release,
    ReadUnlock, WriteUnlock) that gives this acquisition back.  Defer adds two
    operations, Cancel and ExecuteNow, which are modelled as further steps. *)
From S2P Require Import Prelude Raii.

(** ** AsyncMutex::ScopedLock *)
Module ScopedLock.
Record ScopedLock (R : Type) := mk { mutex_ : option R }.
Arguments mk {R}.
Arguments mutex_ {R}.

Definition ctor {R} (mutex : R) : ScopedLock R := mk (Some mutex).

Definition dtor {R} (o : ScopedLock R) : list R :=
  match mutex_ o with Some m => [m] | None => [] end.

Definition move {R} (other : ScopedLock R) : ScopedLock R * ScopedLock R :=
  (mk (mutex_ other), mk None).

Definition assign {R} (self : bool) (this other : ScopedLock R)
    : ScopedLock R * ScopedLock R * list R :=
  if negb self then
    let unlocked := match mutex_ this with Some m => [m] | None => [] end in
    (mk (mutex_ other), mk None, unlocked)
  else (this, other, []).

#[global] Instance owner R : UniqueOwner (ScopedLock R) R :=
  { uo_make := ctor; uo_held := mutex_; uo_dtor := dtor; uo_move := move; uo_assign := assign }.
#[global] Instance laws R : OwnerLaws (ScopedLock R) R.
Proof. split; try done; by intros [[m|]]. Qed.
End ScopedLock.

(** ** AsyncSemaphore::Guard *)
Module Guard.
Record Guard (R : Type) := mk { sem_ : option R }.
Arguments mk {R}.
Arguments sem_ {R}.

Definition ctor {R} (sem : R) : Guard R := mk (Some sem).

Definition dtor {R} (o : Guard R) : list R :=
  match sem_ o with Some m => [m] | None => [] end.

Definition move {R} (other : Guard R) : Guard R * Guard R :=
  (mk (sem_ other), mk None).

Definition assign {R} (self : bool) (this other : Guard R) : Guard R * Guard R * list R :=
  if negb self then
    let released := match sem_ this with Some m => [m] | None => [] end in
    (mk (sem_ other), mk None, released)
  else (this, other, []).

#[global] Instance owner R : UniqueOwner (Guard R) R :=
  { uo_make := ctor; uo_held := sem_; uo_dtor := dtor; uo_move := move; uo_assign := assign }.
#[global] Instance laws R : OwnerLaws (Guard R) R.
Proof. split; try done; by intros [[m|]]. Qed.
End Guard.

(** ** AsyncRWLock::ReadGuard *)
Module ReadGuard.
Record ReadGuard (R : Type) := mk { lock_ : option R }.
Arguments mk {R}.
Arguments lock_ {R}.

Definition ctor {R} (lock : R) : ReadGuard R := mk (Some lock).

Definition dtor {R} (o : ReadGuard R) : list R :=
  match lock_ o with Some m => [m] | None => [] end.

Definition move {R} (other : ReadGuard R) : ReadGuard R * ReadGuard R :=
  (mk (lock_ other), mk None).

Definition assign {R} (self : bool) (this other : ReadGuard R)
    : ReadGuard R * ReadGuard R * list R :=
  if negb self then
    let unlocked := match lock_ this with Some m => [m] | None => [] end in
    (mk (lock_ other), mk None, unlocked)
  else (this, other, []).

#[global] Instance owner R : UniqueOwner (ReadGuard R) R :=
  { uo_make := ctor; uo_held := lock_; uo_dtor := dtor; uo_move := move; uo_assign := assign }.
#[global] Instance laws R : OwnerLaws (ReadGuard R) R.
Proof. split; try done; by intros [[m|]]. Qed.
End ReadGuard.

(** ** AsyncRWLock::WriteGuard *)
Module WriteGuard.
Record WriteGuard (R : Type) := mk { lock_ : option R }.
Arguments mk {R}.
Arguments lock_ {R}.

Definition ctor {R} (lock : R) : WriteGuard R := mk (Some lock).

Definition dtor {R} (o : WriteGuard R) : list R :=
  match lock_ o with Some m => [m] | None => [] end.

Definition move {R} (other : WriteGuard R) : WriteGuard R * WriteGuard R :=
  (mk (lock_ other), mk None).

Definition assign {R} (self : bool) (this other : WriteGuard R)
    : WriteGuard R * WriteGuard R * list R :=
  if negb self then
    let unlocked := match lock_ this with Some m => [m] | None => [] end in
    (mk (lock_ other), mk None, unlocked)
  else (this, other, []).

#[global] Instance owner R : UniqueOwner (WriteGuard R) R :=
  { uo_make := ctor; uo_held := lock_; uo_dtor := dtor; uo_move := move; uo_assign := assign }.
#[global] Instance laws R : OwnerLaws (WriteGuard R) R.
Proof. split; try done; by intros [[m|]]. Qed.
End WriteGuard.

(** Every acquisition handed to a ScopedLock, a semaphore Guard, a
    ReadGuard or a WriteGuard is given back exactly once, however the guards
    are moved around, self-moves included. *)
Theorem guards_release_once (R : Type) :
  releases_exactly_once (ScopedLock.ScopedLock R) R ∧
  releases_exactly_once (Guard.Guard R) R ∧
  releases_exactly_once (ReadGuard.ReadGuard R) R ∧
  releases_exactly_once (WriteGuard.WriteGuard R) R.
Proof. split_and!; apply owners_release_once, _. Qed.

(** Two locks; the first guard is moved into the second, which unlocks lock 8
    first; a self-assignment changes nothing. *)
Definition guards_demo : list (owner_op nat) :=
  [OCreate 0 7; OCreate 1 8; OAssign 1 0; OAssign 1 1; OMove 1 2;
   ODestroy 0; ODestroy 1; ODestroy 2].

Lemma guards_release_once_witness :
  ∃ s : ostate (ScopedLock.ScopedLock nat) nat,
    run owner_step guards_demo owner_init = Some s ∧ released s = [8; 7] ∧
    (NoDup (released s) ∧ (∀ r, r ∈ released s → r ∈ created s) ∧
     (live s = ∅ → released s ≡ₚ created s)).
Proof.
  eexists. split; [vm_compute; reflexivity|]. split; [reflexivity|].
  apply (proj1 (guards_release_once nat)); [|repeat constructor; set_solver].
  apply reachable_run. exists guards_demo. vm_compute. reflexivity.
Defined.

(** ** Defer *)

(** A cleanup action is named by [R]; an empty [std::function] is [None]. *)
Module Defer.
Record Defer (R : Type) := mk { cleanup_ : option R }.
Arguments mk {R}.
Arguments cleanup_ {R}.

Definition ctor {R} (func : R) : Defer R := mk (Some func).

Definition dtor {R} (o : Defer R) : list R :=
  match cleanup_ o with Some f => [f] | None => [] end.

Definition move {R} (other : Defer R) : Defer R * Defer R :=
  (mk (cleanup_ other), mk None).

Definition assign {R} (self : bool) (this other : Defer R) : Defer R * Defer R * list R :=
  if negb self then
    let ran := match cleanup_ this with Some f => [f] | None => [] end in
    (mk (cleanup_ other), mk None, ran)
  else (this, other, []).

Definition Cancel {R} (o : Defer R) : Defer R := mk None.

Definition ExecuteNow {R} (o : Defer R) : Defer R * list R :=
  match cleanup_ o with Some f => (mk None, [f]) | None => (o, []) end.

#[global] Instance owner R : UniqueOwner (Defer R) R :=
  { uo_make := ctor; uo_held := cleanup_; uo_dtor := dtor; uo_move := move; uo_assign := assign }.
#[global] Instance laws R : OwnerLaws (Defer R) R.
Proof. split; try done; by intros [[m|]]. Qed.

Inductive op (R : Type) :=
  | Owner (o : owner_op R)
  | DoCancel (x : nat)
  | DoExecuteNow (x : nat).
Arguments Owner {R}.
Arguments DoCancel {R}.
Arguments DoExecuteNow {R}.

Record state (R : Type) := mkState { objs : ostate (Defer R) R; cancelled : list R }.
Arguments mkState {R}.
Arguments objs {R}.
Arguments cancelled {R}.

Definition step {R} (l : op R) (s : state R) : option (state R) :=
  let o := objs s in
  match l with
  | Owner l => o' ← owner_step l o; Some (mkState o' (cancelled s))
  | DoCancel x =>
      d ← live o !! x;
      Some (mkState (OState (<[x := Cancel d]> (live o)) (created o) (released o))
              (cancelled s ++ option_list (cleanup_ d)))
  | DoExecuteNow x =>
      d ← live o !! x;
      let '(d', ran) := ExecuteNow d in
      Some (mkState (OState (<[x := d']> (live o)) (created o) (released o ++ ran))
              (cancelled s))
  end.

Definition init {R} : state R := mkState owner_init [].

Definition inv {R} (s : state R) : Prop :=
  created (objs s) ≡ₚ cancelled s ++ released (objs s) ++ held_in (live (objs s)).

Lemma inv_step {R} l (s s' : state R) : inv s → step l s = Some s' → inv s'.
Proof.
  unfold inv. intros Hi Hs. destruct l as [l|x|x]; simpl in Hs.
  - destruct (owner_step l (objs s)) as [o'|] eqn:Ho; simplify_eq/=.
    by apply (owner_step_balance (cancelled s) l (objs s)).
  - destruct (live (objs s) !! x) as [d|] eqn:Hx; simplify_eq/=.
    pose proof (held_update _ _ _ (Cancel d) Hx) as Hu. simpl in Hu.
    rewrite Hi, <-Hu. solve_Permutation.
  - destruct (live (objs s) !! x) as [[[f|]]|] eqn:Hx; simplify_eq/=;
      pose proof (held_update _ _ _ (mk None) Hx) as Hu; simpl in Hu;
      rewrite Hi, <-Hu; solve_Permutation.
Qed.
End Defer.

(** Deferred actions: in any program over Defer objects, every action is
    run or cancelled exactly once by the time the objects are gone, and never
    both, never twice before. *)
Theorem defer_runs_once (R : Type) (s : Defer.state R) :
  reachable Defer.step Defer.init s → NoDup (created (Defer.objs s)) →
  NoDup (Defer.cancelled s ++ released (Defer.objs s)) ∧
  (live (Defer.objs s) = ∅ →
     Defer.cancelled s ++ released (Defer.objs s) ≡ₚ created (Defer.objs s)).
Proof.
  intros Hr Hnd. assert (Defer.inv s) as Hi.
  { revert Hr. apply reachable_inv; [|intros; by eapply Defer.inv_step].
    unfold Defer.inv, held_in. simpl. by rewrite collect_empty. }
  unfold Defer.inv in Hi. split.
  - rewrite Hi, app_assoc in Hnd. by apply NoDup_app in Hnd as [? _].
  - intros Hl. rewrite Hi, Hl. unfold held_in. by rewrite collect_empty, !app_nil_r.
Qed.

(** Two actions, the first moved and run early, the second cancelled. *)
Definition defer_demo : list (Defer.op nat) :=
  [Defer.Owner (OCreate 0 7); Defer.Owner (OCreate 1 8); Defer.Owner (OMove 0 2);
   Defer.DoExecuteNow 2; Defer.DoCancel 1; Defer.Owner (OAssign 2 1);
   Defer.Owner (ODestroy 0); Defer.Owner (ODestroy 1); Defer.Owner (ODestroy 2)].

Lemma defer_runs_once_witness :
  ∃ s, run Defer.step defer_demo Defer.init = Some s ∧
  created (Defer.objs s) = [7; 8] ∧
  (NoDup (Defer.cancelled s ++ released (Defer.objs s)) ∧
   (live (Defer.objs s) = ∅ →
     Defer.cancelled s ++ released (Defer.objs s) ≡ₚ created (Defer.objs s))).
Proof.
  eexists. split; [vm_compute; reflexivity|]. split; [reflexivity|].
  apply defer_runs_once; [|repeat constructor; set_solver].
  apply reachable_run. exists defer_demo. vm_compute. reflexivity.
Defined.
