(* ===== verification/Errors.v ===== *)
(** * Error codes and results ([core/error.hpp], [core/error.cpp],
      [core/result.hpp])

    The enumeration with its numbering, the error category's message table, and
    [Result<T, E>] with its combinators.  [Value()] and [Error()] are
    [std::get] on the variant: the wrong alternative has no value, [None].  The
    combinators are written through these partial accessors, as in the code, so
    that their totality is a theorem. *)
From S2P Require Import Prelude.
Local Open Scope Z_scope.

(** ** Errc *)

Inductive Errc :=
  | NoExecutor | InvalidArgument | IoError | SocketCreateFailed | ConnectFailed
  | ResolveFailed | BindFailed | ListenFailed | AcceptFailed | SendFailed
  | RecvFailed | NotConnected | ListenerNotInitialized | RetryExhausted
  | InvalidAddress | EventfdFailed | TimerfdFailed | IoUringInitFailed.

#[export] Instance Errc_eq_dec : EqDecision Errc.
Proof. solve_decision. Defined.

(** [static_cast<int>(e)]: the enumerators are numbered from 1. *)
Definition errc_int (e : Errc) : Z :=
  match e with
  | NoExecutor => 1 | InvalidArgument => 2 | IoError => 3 | SocketCreateFailed => 4
  | ConnectFailed => 5 | ResolveFailed => 6 | BindFailed => 7 | ListenFailed => 8
  | AcceptFailed => 9 | SendFailed => 10 | RecvFailed => 11 | NotConnected => 12
  | ListenerNotInitialized => 13 | RetryExhausted => 14 | InvalidAddress => 15
  | EventfdFailed => 16 | TimerfdFailed => 17 | IoUringInitFailed => 18
  end.

Definition all_errc : list Errc :=
  [NoExecutor; InvalidArgument; IoError; SocketCreateFailed; ConnectFailed;
   ResolveFailed; BindFailed; ListenFailed; AcceptFailed; SendFailed;
   RecvFailed; NotConnected; ListenerNotInitialized; RetryExhausted;
   InvalidAddress; EventfdFailed; TimerfdFailed; IoUringInitFailed].

(** [static_cast<Errc>(ev)] followed by the switch: the enumerator [ev] names,
    if there is one. *)
Definition errc_of_int (ev : Z) : option Errc :=
  head (filter (λ e, errc_int e = ev) all_errc).

(** [HotcocoCategoryImpl::message]. *)
Definition message (ev : Z) : string :=
  match errc_of_int ev with
  | Some NoExecutor => "No current executor"
  | Some InvalidArgument => "Invalid argument"
  | Some IoError => "I/O error"
  | Some SocketCreateFailed => "Failed to create socket"
  | Some ConnectFailed => "Failed to connect"
  | Some ResolveFailed => "Failed to resolve host"
  | Some BindFailed => "Failed to bind"
  | Some ListenFailed => "Failed to listen"
  | Some AcceptFailed => "Failed to accept connection"
  | Some SendFailed => "Failed to send data"
  | Some RecvFailed => "Failed to receive data"
  | Some NotConnected => "Not connected"
  | Some ListenerNotInitialized => "Listener not initialized"
  | Some RetryExhausted => "All retry attempts exhausted"
  | Some InvalidAddress => "Invalid address"
  | Some EventfdFailed => "Failed to create eventfd"
  | Some TimerfdFailed => "Failed to create timerfd"
  | Some IoUringInitFailed => "Failed to initialize io_uring"
  | None => "Unknown hotcoco error"
  end%string.

(** An [std::error_code]: a value and the name of its category.  Its boolean
    conversion tests the value. *)
Record error_code := mkCode { ec_value : Z; ec_category : string }.
Definition category_name : string := "hotcoco".
Definition make_error_code (e : Errc) : error_code := mkCode (errc_int e) category_name.
Definition ec_bool (c : error_code) : bool := negb (ec_value c =? 0).

#[export] Instance error_code_eq_dec : EqDecision error_code.
Proof. solve_decision. Defined.

Lemma errc_of_int_id e : errc_of_int (errc_int e) = Some e.
Proof. by destruct e. Qed.

(** Every error code is truthy, converts back to the enumerator it was
    made from, and has a message of its own, different from every other's and
    from the message of values that name no enumerator. *)
Theorem error_code_roundtrip (e e' : Errc) :
  ec_bool (make_error_code e) = true ∧
  errc_of_int (ec_value (make_error_code e)) = Some e ∧
  (message (ec_value (make_error_code e)) = message (ec_value (make_error_code e')) → e = e') ∧
  (∀ ev, message ev = message (ec_value (make_error_code e)) → ev = errc_int e).
Proof.
  split_and!; [by destruct e|apply errc_of_int_id| |].
  - destruct e, e'; try done; intros Hm; vm_compute in Hm; discriminate Hm.
  - intros ev Hm. unfold message in Hm. simpl in Hm. rewrite errc_of_int_id in Hm.
    assert (errc_of_int ev = Some e) as He.
    { destruct (errc_of_int ev) as [e2|]; [destruct e2|]; destruct e; try done; discriminate Hm. }
    unfold errc_of_int in He. apply head_Some_elem_of in He.
    by apply list_elem_of_filter in He as [<- _].
Qed.

Lemma error_code_roundtrip_witness :
  message 12 = message (ec_value (make_error_code NotConnected)) ∧ 12 = errc_int NotConnected.
Proof.
  split; [reflexivity|].
  apply (error_code_roundtrip NotConnected NotConnected). reflexivity.
Defined.

(** ** Result<T, E> *)

Section Result.
Context {T E : Type}.

(** [std::variant<T, E> data_]. *)
Definition Result : Type := T + E.
Definition Ok (value : T) : Result := inl value.
Definition Err (error : E) : Result := inr error.

Definition index (r : Result) : Z := match r with inl _ => 0 | inr _ => 1 end.
Definition IsOk (r : Result) : bool := index r =? 0.
Definition IsErr (r : Result) : bool := index r =? 1.

Definition Value (r : Result) : option T := match r with inl v => Some v | inr _ => None end.
Definition Error (r : Result) : option E := match r with inl _ => None | inr e => Some e end.

(** The two overloads of [ValueOr]. *)
Definition ValueOr_opt (r : Result) : option T := if IsOk r then Value r else None.
Definition ValueOr (default_value : T) (r : Result) : option T :=
  if IsOk r then Value r else Some default_value.
End Result.
Arguments Result : clear implicits.

Section Combinators.
Context {T U E F : Type}.

(** [None] would be a [std::bad_variant_access]. *)
Definition Map (func : T → U) (r : Result T E) : option (Result U E) :=
  if IsOk r then v ← Value r; Some (Ok (func v))
  else e ← Error r; Some (Err e).

Definition MapErr (func : E → F) (r : Result T E) : option (Result T F) :=
  if IsErr r then e ← Error r; Some (Err (func e))
  else v ← Value r; Some (Ok v).

Definition AndThen (func : T → Result U E) (r : Result T E) : option (Result U E) :=
  if IsOk r then v ← Value r; Some (func v)
  else e ← Error r; Some (Err e).

Definition OrElse (func : E → Result T F) (r : Result T E) : option (Result T F) :=
  if IsErr r then e ← Error r; Some (func e)
  else v ← Value r; Some (Ok v).
End Combinators.

(** [operator==] and [operator!=]. *)
Section Equality.
Context {T E : Type} (eqT : T → T → bool) (eqE : E → E → bool).

Definition Result_eq (lhs rhs : Result T E) : option bool :=
  if negb (eqb (IsOk lhs) (IsOk rhs)) then Some false
  else if IsOk lhs then l ← Value lhs; r ← Value rhs; Some (eqT l r)
  else l ← Error lhs; r ← Error rhs; Some (eqE l r).

Definition Result_ne (lhs rhs : Result T E) : option bool := negb <$> Result_eq lhs rhs.
End Equality.

(** [Result<void, E>]: only the optional error is stored. *)
Definition VoidResult (E : Type) : Type := option E.
Definition VoidOk {E} : VoidResult E := None.
Definition VoidErr {E} (err : E) : VoidResult E := Some err.
Definition VoidIsOk {E} (r : VoidResult E) : bool := negb (bool_decide (is_Some r)).
Definition VoidIsErr {E} (r : VoidResult E) : bool := bool_decide (is_Some r).

(** The reference: an error monad with a catch. *)
Definition bind {T U E} (f : T → Result U E) (r : Result T E) : Result U E :=
  match r with inl v => f v | inr e => Err e end.
Definition catch {T E F} (f : E → Result T F) (r : Result T E) : Result T F :=
  match r with inl v => Ok v | inr e => f e end.

(** The combinators of [Result] never touch the alternative that is not
    there; they are the bind, the catch and the maps of an error monad, so
    chains of them compose: [Ok] is a unit of [AndThen], nested [AndThen]s
    associate, [Map] and [MapErr] act on different sides and commute. *)
Theorem result_combinator_laws {T U V E F : Type} (r : Result T E)
    (f : T → Result U E) (g : U → Result V E) (h : T → U) (k : E → F) (rec : E → Result T F) :
  AndThen f r = Some (bind f r) ∧ OrElse rec r = Some (catch rec r) ∧
  Map h r = Some (bind (λ v, Ok (h v)) r) ∧ MapErr k r = Some (catch (λ e, Err (k e)) r) ∧
  AndThen Ok r = Some r ∧ (∀ v, AndThen f (Ok v) = Some (f v)) ∧
  AndThen f r ≫= AndThen g = AndThen (λ v, bind g (f v)) r ∧
  Map h r ≫= MapErr k = MapErr k r ≫= Map h ∧
  (∀ d, ValueOr d r = Some (default d (ValueOr_opt r))).
Proof. destruct r as [v|e]; split_and!; try done. unfold AndThen; simpl. by destruct (f v). Qed.

(** [operator==] on results decides equality whenever the operators of the
    two element types do, and [operator!=] is its negation; neither touches the
    alternative that is not there. *)
Theorem result_equality {T E : Type} (eqT : T → T → bool) (eqE : E → E → bool)
    (HT : ∀ x y, eqT x y = true ↔ x = y) (HE : ∀ x y, eqE x y = true ↔ x = y)
    (r1 r2 : Result T E) :
  ∃ b, Result_eq eqT eqE r1 r2 = Some b ∧ (b = true ↔ r1 = r2) ∧
    Result_ne eqT eqE r1 r2 = Some (negb b).
Proof.
  unfold Result_ne. destruct r1 as [v1|e1], r2 as [v2|e2]; (eexists; split; [reflexivity|]);
    (split; [|done]); rewrite ?HT, ?HE; naive_solver.
Qed.

Lemma result_equality_witness :
  ∃ b, Result_eq Z.eqb Z.eqb (Ok 1) (Err 1) = Some b ∧ (b = true ↔ @Ok Z Z 1 = Err 1) ∧
    Result_ne Z.eqb Z.eqb (Ok 1) (Err 1) = Some (negb b).
Proof. apply result_equality; intros x y; apply Z.eqb_eq. Defined.
