(* ===== verification/FramePool.v ===== *)
(** * FramePool ([include/hotcoco/core/frame_pool.hpp])

    The thread-local, size-bucketed free lists behind every coroutine frame.
    [::operator new] and [::operator delete] are the language's heap: the
    system keeps the blocks it handed out with their sizes, and a label names
    the address a fresh block gets.  Frames may be freed on another thread than
    the one that allocated them.  The model is the build without the address
    sanitizer, where Allocate and Deallocate reach the pool. *)
From S2P Require Import Prelude.
Local Open Scope Z_scope.

Abbreviation ptr := nat (only parsing).          (* 0 is the null pointer *)

Definition kNumBuckets : nat := 6.
Definition kMaxPooledPerBucket : nat := 64.

Record Stats := mkStats {
  allocations : Z;
  deallocations : Z;
  pool_hits : Z;
  pool_misses : Z;
  oversized_allocations : Z;
}.

(** [buckets_]: the last element of a list is the [back()] of its vector. *)
Record FramePool := mkPool { buckets_ : list (list ptr); stats_ : Stats }.

Definition new_pool : FramePool := mkPool (replicate kNumBuckets []) (mkStats 0 0 0 0 0).

(** Map size to bucket index; [None] is the code's -1. *)
Definition GetBucket (size : Z) : option nat :=
  if size <=? 64 then Some 0%nat
  else if size <=? 128 then Some 1%nat
  else if size <=? 256 then Some 2%nat
  else if size <=? 512 then Some 3%nat
  else if size <=? 1024 then Some 4%nat
  else if size <=? 2048 then Some 5%nat
  else None.

Definition bucket_sizes : list Z := [64; 128; 256; 512; 1024; 2048].
Definition GetBucketSize (bucket : nat) : Z := nth bucket bucket_sizes 0.

Definition inc (z : Z) : Z := to_size (z + 1).
Definition count_alloc (s : Stats) : Stats :=
  mkStats (inc (allocations s)) (deallocations s) (pool_hits s) (pool_misses s)
    (oversized_allocations s).
Definition count_dealloc (s : Stats) : Stats :=
  mkStats (allocations s) (inc (deallocations s)) (pool_hits s) (pool_misses s)
    (oversized_allocations s).
Definition count_hit (s : Stats) : Stats :=
  mkStats (allocations s) (deallocations s) (inc (pool_hits s)) (pool_misses s)
    (oversized_allocations s).
Definition count_miss (s : Stats) : Stats :=
  mkStats (allocations s) (deallocations s) (pool_hits s) (inc (pool_misses s))
    (oversized_allocations s).
Definition count_oversized (s : Stats) : Stats :=
  mkStats (allocations s) (deallocations s) (pool_hits s) (pool_misses s)
    (inc (oversized_allocations s)).

(** What [DoAllocate] returns: a pooled frame, or a call of [::operator new]. *)
Inductive alloc_result := Pooled (p : ptr) | OperatorNew (size : Z).

Definition DoAllocate (size : Z) (f : FramePool) : alloc_result * FramePool :=
  let stats := count_alloc (stats_ f) in
  match GetBucket size with
  | None => (OperatorNew size, mkPool (buckets_ f) (count_oversized stats))
  | Some bucket =>
      let pool := default [] (buckets_ f !! bucket) in
      match last pool with
      | Some p => (Pooled p, mkPool (<[bucket := removelast pool]> (buckets_ f)) (count_hit stats))
      | None => (OperatorNew (GetBucketSize bucket), mkPool (buckets_ f) (count_miss stats))
      end
  end.

(** The list holds the blocks given to [::operator delete]. *)
Definition DoDeallocate (p : ptr) (size : Z) (f : FramePool) : FramePool * list ptr :=
  let stats := count_dealloc (stats_ f) in
  if (p =? 0)%nat then (mkPool (buckets_ f) stats, [])
  else
    match GetBucket size with
    | None => (mkPool (buckets_ f) stats, [p])
    | Some bucket =>
        let pool := default [] (buckets_ f !! bucket) in
        if (length pool <? kMaxPooledPerBucket)%nat
        then (mkPool (<[bucket := pool ++ [p]]> (buckets_ f)) stats, [])
        else (mkPool (buckets_ f) stats, [p])
    end.

Definition DoClear (f : FramePool) : FramePool * list ptr :=
  (mkPool ((λ _, []) <$> buckets_ f) (stats_ f), concat (buckets_ f)).

Definition ResetStats (f : FramePool) : FramePool := mkPool (buckets_ f) (mkStats 0 0 0 0 0).
Definition GetStats (f : FramePool) : Stats := stats_ f.

(** ** The heap, the threads and the coroutines *)

Record psys := PSys {
  heap : gmap ptr Z;           (* blocks obtained from operator new, with their size *)
  used : gmap ptr Z;           (* frames in use, with the size that was asked for *)
  pools : gmap nat FramePool;  (* one pool per thread *)
  bad : bool;                  (* double hand-out, or a delete of no block *)
}.

Definition pinit : psys := PSys ∅ ∅ ∅ false.

(** [Instance()] constructs the pool of a thread on its first call. *)
Definition pool_of (s : psys) (t : nat) : FramePool := default new_pool (pools s !! t).
Definition set_pool (t : nat) (f : FramePool) (s : psys) : psys :=
  PSys (heap s) (used s) (<[t := f]> (pools s)) (bad s).

Definition operator_delete (s : psys) (p : ptr) : psys :=
  match heap s !! p with
  | Some _ => PSys (delete p (heap s)) (used s) (pools s) (bad s)
  | None => PSys (heap s) (used s) (pools s) true
  end.

Definition hand_out (p : ptr) (size : Z) (s : psys) : psys :=
  PSys (heap s) (<[p := size]> (used s)) (pools s) (bad s || bool_decide (is_Some (used s !! p))).

Inductive pool_op :=
  | PAllocate (t : nat) (size : Z) (fresh : ptr)
  | PDeallocate (t : nat) (p : ptr)      (* a frame in use, with its own size *)
  | PDeallocateNull (t : nat) (size : Z)
  | PClear (t : nat)
  | PResetStats (t : nat)
  | PThreadExit (t : nat).               (* ~FramePool *)

(** [operator new] returns a non-null block disjoint from the live ones. *)
Definition pstep (l : pool_op) (s : psys) : option psys :=
  match l with
  | PAllocate t size fresh =>
      if bool_decide (size_ok size) then
        let '(r, f) := DoAllocate size (pool_of s t) in
        match r with
        | Pooled p => Some (hand_out p size (set_pool t f s))
        | OperatorNew sz =>
            if bool_decide (fresh ≠ 0%nat ∧ heap s !! fresh = None) then
              Some (hand_out fresh size
                (PSys (<[fresh := sz]> (heap s)) (used s) (<[t := f]> (pools s)) (bad s)))
            else None
        end
      else None
  | PDeallocate t p =>
      size ← used s !! p;
      let '(f, freed) := DoDeallocate p size (pool_of s t) in
      Some (foldl operator_delete
              (PSys (heap s) (delete p (used s)) (<[t := f]> (pools s)) (bad s)) freed)
  | PDeallocateNull t size =>
      let '(f, freed) := DoDeallocate 0%nat size (pool_of s t) in
      Some (foldl operator_delete (set_pool t f s) freed)
  | PClear t =>
      let '(f, freed) := DoClear (pool_of s t) in
      Some (foldl operator_delete (set_pool t f s) freed)
  | PResetStats t => Some (set_pool t (ResetStats (pool_of s t)) s)
  | PThreadExit t =>
      let '(_, freed) := DoClear (pool_of s t) in
      Some (foldl operator_delete (PSys (heap s) (used s) (delete t (pools s)) (bad s)) freed)
  end.

(** ** Invariant *)

Definition pooled (s : psys) : list ptr := collect (λ f, concat (buckets_ f)) (pools s).

(** The size of the block behind a request. *)
Definition block_size (size : Z) : Z :=
  match GetBucket size with Some b => GetBucketSize b | None => size end.

Definition stats_ok (s : Stats) : Prop :=
  (size_mod | pool_hits s + pool_misses s + oversized_allocations s - allocations s).

Record pool_ok (hp : gmap ptr Z) (f : FramePool) : Prop := {
  po_len : length (buckets_ f) = kNumBuckets;
  po_cap b l : buckets_ f !! b = Some l → (length l ≤ kMaxPooledPerBucket)%nat;
  po_blk b l p : buckets_ f !! b = Some l → p ∈ l → hp !! p = Some (GetBucketSize b);
  po_stats : stats_ok (stats_ f);
}.

(** [freed]: blocks already given up but not yet passed to operator delete. *)
Record pinv_with (freed : list ptr) (s : psys) : Prop := {
  pi_pools t f : pools s !! t = Some f → pool_ok (heap s) f;
  pi_used p size : used s !! p = Some size → heap s !! p = Some (block_size size);
  pi_null : heap s !! 0%nat = None;
  pi_heap : keys (heap s) ≡ₚ freed ++ pooled s ++ keys (used s);
  pi_bad : bad s = false;
}.
Abbreviation pinv := (pinv_with []).

(** ** Bucket arithmetic *)

Lemma GetBucket_lt size b : GetBucket size = Some b → (b < kNumBuckets)%nat.
Proof. unfold GetBucket, kNumBuckets. intros; repeat case_match; simplify_eq; lia. Qed.

Lemma block_size_ge size : size <= block_size size.
Proof.
  unfold block_size, GetBucket.
  repeat case_match; simplify_eq; unfold GetBucketSize; simpl;
    repeat match goal with H : (_ <=? _) = _ |- _ => apply Z.leb_le in H || apply Z.leb_gt in H end;
    lia.
Qed.

Lemma new_pool_ok hp : pool_ok hp new_pool.
Proof.
  split; [done|..].
  - intros b l [-> _]%lookup_replicate. unfold kMaxPooledPerBucket. simpl. lia.
  - intros b l p [-> _]%lookup_replicate Hp. by apply not_elem_of_nil in Hp.
  - by exists 0.
Qed.

Lemma pool_of_ok s t : pinv s → pool_ok (heap s) (pool_of s t).
Proof.
  intros Hs. unfold pool_of. destruct (pools s !! t) eqn:Ht; simpl;
    [by apply (pi_pools _ s Hs t)|apply new_pool_ok].
Qed.

Lemma bucket_defined hp f b :
  pool_ok hp f → (b < kNumBuckets)%nat → buckets_ f !! b = Some (default [] (buckets_ f !! b)).
Proof.
  intros Hf Hb. destruct (buckets_ f !! b) eqn:Hl; [done|].
  apply lookup_ge_None in Hl. rewrite (po_len _ _ Hf) in Hl. lia.
Qed.

(** A pool's frames, before and after the pool is replaced. *)
Lemma pooled_set s t f :
  concat (buckets_ (pool_of s t)) ++ collect (λ f, concat (buckets_ f)) (<[t:=f]> (pools s)) ≡ₚ
  concat (buckets_ f) ++ pooled s.
Proof.
  unfold pool_of, pooled. destruct (pools s !! t) as [g|] eqn:Ht; simpl.
  - by apply (collect_update (λ f, concat (buckets_ f))).
  - by apply (collect_insert_fresh (λ f, concat (buckets_ f))).
Qed.

Lemma pooled_elem s t f b l p :
  pools s !! t = Some f → buckets_ f !! b = Some l → p ∈ l → p ∈ pooled s.
Proof.
  intros Ht Hb Hp. unfold pooled.
  rewrite (collect_delete _ _ _ _ Ht), elem_of_app, list_elem_of_In, in_concat. left.
  exists l. rewrite <-!list_elem_of_In. split; [by eapply list_elem_of_lookup_2|done].
Qed.

Lemma pool_ok_set hp f b l st :
  pool_ok hp f → (b < kNumBuckets)%nat → (length l ≤ kMaxPooledPerBucket)%nat →
  (∀ p, p ∈ l → hp !! p = Some (GetBucketSize b)) → stats_ok st →
  pool_ok hp (mkPool (<[b:=l]> (buckets_ f)) st).
Proof.
  intros [Hlen Hcap Hblk _] Hb Hl Hp Hst. split; simpl; [|intros b' l'|intros b' l' p|done].
  - by rewrite length_insert.
  - intros [(-> & -> & _)|[_ Hb']]%list_lookup_insert_Some; eauto.
  - intros [(-> & -> & _)|[_ Hb']]%list_lookup_insert_Some; eauto.
Qed.

Lemma pool_ok_stats hp f st : pool_ok hp f → stats_ok st → pool_ok hp (mkPool (buckets_ f) st).
Proof. intros [? ? ? _] ?. by split. Qed.

Lemma pool_ok_heap hp hp' f :
  pool_ok hp f → (∀ b l p, buckets_ f !! b = Some l → p ∈ l → hp' !! p = hp !! p) → pool_ok hp' f.
Proof.
  intros [? ? Hblk ?] Heq. split; [done..| |done]. intros b l p Hb Hp.
  rewrite (Heq b l p Hb Hp). eauto.
Qed.

(** ** Freeing *)

Lemma operator_delete_all freed s rest :
  keys (heap s) ≡ₚ freed ++ rest →
  let s' := foldl operator_delete s freed in
  keys (heap s') ≡ₚ rest ∧ used s' = used s ∧ pools s' = pools s ∧ bad s' = bad s ∧
  (∀ q, q ∈ rest → heap s' !! q = heap s !! q) ∧ (∀ q, heap s !! q = None → heap s' !! q = None).
Proof.
  revert s. induction freed as [|p freed IH]; intros s Hk; simpl in *; [done|].
  pose proof (keys_nodup (heap s)) as Hnd. rewrite Hk in Hnd.
  apply NoDup_cons in Hnd as [Hp _].
  assert (is_Some (heap s !! p)) as Hin.
  { apply keys_lookup. rewrite Hk. set_solver. }
  unfold operator_delete at 2 3 5 7 8 9. destruct (heap s !! p) as [x|] eqn:Hx; [|by destruct Hin].
  destruct (IH (PSys (delete p (heap s)) (used s) (pools s) (bad s)))
    as (? & ? & ? & ? & Hq & Hn); simpl in *.
  { apply (Permutation_cons_inv (a:=p)). by rewrite keys_delete. }
  unfold operator_delete; rewrite Hx. split_and!; [done..| |].
  - intros q Hq'. rewrite Hq by done. apply lookup_delete_ne. set_solver.
  - intros q Hq'. apply Hn. by rewrite lookup_delete_None; right.
Qed.

Lemma pinv_free freed s : pinv_with freed s → pinv (foldl operator_delete s freed).
Proof.
  intros [Hpools Hused Hnull Hheap Hbad].
  destruct (operator_delete_all freed s _ Hheap) as (Hk & Hu & Hp & Hb & Hq & Hn).
  split; simpl.
  - intros t f. rewrite Hp. intros Ht. apply (pool_ok_heap (heap s)); [eauto|].
    intros b l p Hb' Hp'. apply Hq. apply elem_of_app; left. by eapply pooled_elem.
  - intros p size. rewrite Hu. intros Hl. rewrite Hq; [eauto|].
    apply elem_of_app; right. apply keys_lookup. by exists size.
  - by apply Hn.
  - unfold pooled in *. by rewrite Hk, Hu, Hp.
  - by rewrite Hb.
Qed.

(** ** The three pool operations *)

Lemma inc_spec z : ∃ k, inc z = z + 1 + k * size_mod.
Proof.
  exists (- ((z + 1) / size_mod)). unfold inc, to_size. rewrite Z.mod_eq by done. lia.
Qed.

Lemma stats_ok_count st :
  stats_ok st → stats_ok (count_hit (count_alloc st)) ∧ stats_ok (count_miss (count_alloc st)) ∧
  stats_ok (count_oversized (count_alloc st)) ∧ stats_ok (count_dealloc st).
Proof.
  unfold stats_ok. intros [k Hk]. simpl. split_and!; [| | |by exists k].
  - destruct (inc_spec (pool_hits st)) as [i ->], (inc_spec (allocations st)) as [j ->].
    exists (k + i - j). lia.
  - destruct (inc_spec (pool_misses st)) as [i ->], (inc_spec (allocations st)) as [j ->].
    exists (k + i - j). lia.
  - destruct (inc_spec (oversized_allocations st)) as [i ->], (inc_spec (allocations st)) as [j ->].
    exists (k + i - j). lia.
Qed.

Lemma DoAllocate_spec hp f size :
  pool_ok hp f →
  match DoAllocate size f with
  | (Pooled p, f') =>
      pool_ok hp f' ∧ hp !! p = Some (block_size size) ∧
      concat (buckets_ f) ≡ₚ p :: concat (buckets_ f')
  | (OperatorNew sz, f') => pool_ok hp f' ∧ sz = block_size size ∧ buckets_ f' = buckets_ f
  end.
Proof.
  intros Hf. destruct (stats_ok_count (stats_ f) (po_stats _ _ Hf)) as (H1 & H2 & H3 & _).
  unfold DoAllocate, block_size. destruct (GetBucket size) as [b|] eqn:Hb;
    [|split_and!; [by apply pool_ok_stats|done..]].
  apply GetBucket_lt in Hb. pose proof (bucket_defined _ _ _ Hf Hb) as Hl.
  set (l := default [] (buckets_ f !! b)) in *.
  destruct (last l) as [p|] eqn:Hp; [|split_and!; [by apply pool_ok_stats|done..]].
  apply last_Some in Hp as [l' Hl']. rewrite Hl' in *. rewrite removelast_last.
  pose proof (po_cap _ _ Hf _ _ Hl) as Hcap. rewrite length_app in Hcap.
  split_and!.
  - apply pool_ok_set; [done..|lia| |done]. intros q Hq.
    apply (po_blk _ _ Hf _ _ _ Hl). set_solver.
  - apply (po_blk _ _ Hf _ _ _ Hl). set_solver.
  - apply (Permutation_app_inv_l l').
    rewrite <-(concat_insert _ _ _ l' Hl). solve_Permutation.
Qed.

Lemma DoDeallocate_spec hp f p size :
  pool_ok hp f → hp !! p = Some (block_size size) → p ≠ 0%nat →
  pool_ok hp (DoDeallocate p size f).1 ∧
  p :: concat (buckets_ f) ≡ₚ
    (DoDeallocate p size f).2 ++ concat (buckets_ (DoDeallocate p size f).1).
Proof.
  intros Hf Hp Hnull. destruct (stats_ok_count (stats_ f) (po_stats _ _ Hf)) as (_ & _ & _ & H4).
  unfold DoDeallocate, block_size in *. rewrite (proj2 (Nat.eqb_neq p 0) Hnull).
  destruct (GetBucket size) as [b|] eqn:Hb; [|split; [by apply pool_ok_stats|done]].
  apply GetBucket_lt in Hb. pose proof (bucket_defined _ _ _ Hf Hb) as Hl.
  set (l := default [] (buckets_ f !! b)) in *.
  case_match eqn:Hlt; [|split; [by apply pool_ok_stats|done]].
  apply Nat.ltb_lt in Hlt. simpl. split.
  - apply pool_ok_set; [done..|rewrite length_app; simpl; lia| |done].
    intros q [Hq|Hq%list_elem_of_singleton]%elem_of_app; [|by subst].
    by apply (po_blk _ _ Hf _ _ _ Hl).
  - apply (Permutation_app_inv_l l). rewrite (concat_insert _ _ _ (l ++ [p]) Hl).
    solve_Permutation.
Qed.

Lemma DoClear_spec hp f :
  pool_ok hp f →
  pool_ok hp (DoClear f).1 ∧ concat (buckets_ (DoClear f).1) = [] ∧
  (DoClear f).2 = concat (buckets_ f).
Proof.
  intros [Hlen Hcap Hblk Hst]. unfold DoClear. simpl. split_and!; [split; simpl|..|done].
  - by rewrite length_fmap.
  - intros b l. rewrite list_lookup_fmap. destruct (_ !! b); intros; simplify_eq/=.
    unfold kMaxPooledPerBucket. lia.
  - intros b l p. rewrite list_lookup_fmap. destruct (_ !! b); intros; simplify_eq/=.
    by apply not_elem_of_nil in H0.
  - done.
  - clear. induction (buckets_ f) as [|l ls IH]; simpl; auto.
Qed.

(** ** Every step keeps the invariant *)

Lemma set_pool_ok hp (m : gmap nat FramePool) t f :
  (∀ t f, m !! t = Some f → pool_ok hp f) → pool_ok hp f →
  ∀ t' f', <[t:=f]> m !! t' = Some f' → pool_ok hp f'.
Proof. intros Hm Hf t' f' [[-> ->]|[_ Ht]]%lookup_insert_Some; eauto. Qed.

Lemma pinv_disjoint s p : pinv s → p ∈ pooled s → used s !! p = None.
Proof.
  intros Hs Hp. pose proof (keys_nodup (heap s)) as Hnd. rewrite (pi_heap _ _ Hs) in Hnd. simpl in Hnd.
  apply NoDup_app in Hnd as (_ & Hd & _). specialize (Hd p Hp).
  rewrite keys_lookup in Hd. by apply eq_None_not_Some.
Qed.

Lemma pinv_pooled_alloc s t size p f' :
  pinv s → DoAllocate size (pool_of s t) = (Pooled p, f') →
  used s !! p = None ∧ pinv (hand_out p size (set_pool t f' s)).
Proof.
  intros Hs Hda. pose proof (DoAllocate_spec _ _ size (pool_of_ok s t Hs)) as Hsp.
  rewrite Hda in Hsp. destruct Hsp as (Hok & Hblk & Hperm).
  assert (pooled s ≡ₚ p :: pooled (set_pool t f' s)) as Hpool.
  { apply (Permutation_app_inv_l (concat (buckets_ f'))).
    rewrite <-(pooled_set s t f'), Hperm. unfold pooled; simpl. solve_Permutation. }
  assert (used s !! p = None) as Hu by (apply pinv_disjoint; [done|rewrite Hpool; set_solver]).
  split; [done|]. destruct Hs as [Hpools Hused Hnull Hheap Hbad]. split; simpl.
  - by apply set_pool_ok.
  - intros q sz [[-> ->]|[_ Hq]]%lookup_insert_Some; auto.
  - done.
  - rewrite keys_insert by done. rewrite Hheap, Hpool. unfold pooled; simpl. solve_Permutation.
  - by rewrite Hu, Hbad.
Qed.

Lemma pinv_new_alloc s t size sz f' fresh :
  pinv s → DoAllocate size (pool_of s t) = (OperatorNew sz, f') →
  fresh ≠ 0%nat → heap s !! fresh = None →
  used s !! fresh = None ∧ sz = block_size size ∧
  pinv (hand_out fresh size (PSys (<[fresh := sz]> (heap s)) (used s) (<[t := f']> (pools s)) (bad s))).
Proof.
  intros Hs Hda Hnz Hfresh. pose proof (DoAllocate_spec _ _ size (pool_of_ok s t Hs)) as Hsp.
  rewrite Hda in Hsp. destruct Hsp as (Hok & -> & Hbk).
  assert (collect (λ f, concat (buckets_ f)) (<[t:=f']> (pools s)) ≡ₚ pooled s) as Hpool.
  { apply (Permutation_app_inv_l (concat (buckets_ f'))). rewrite <-(pooled_set s t f').
    by rewrite Hbk. }
  destruct Hs as [Hpools Hused Hnull Hheap Hbad].
  assert (used s !! fresh = None) as Hu.
  { apply eq_None_not_Some. intros [x Hx%Hused]. simplify_eq. }
  assert (∀ f, pool_ok (heap s) f → pool_ok (<[fresh:=block_size size]> (heap s)) f) as Hext.
  { intros f Hf. apply (pool_ok_heap (heap s)); [done|]. intros b l p Hb Hp.
    apply lookup_insert_ne. intros <-. pose proof (po_blk _ _ Hf _ _ _ Hb Hp). simplify_eq. }
  split_and!; [done..|]. split; simpl.
  - apply set_pool_ok; eauto.
  - intros q sz [[-> ->]|[Hne Hq]]%lookup_insert_Some;
      [by rewrite lookup_insert_eq|rewrite lookup_insert_ne by done; auto].
  - by rewrite lookup_insert_ne.
  - rewrite !keys_insert by done. unfold pooled in *; simpl. rewrite Hpool, Hheap.
    solve_Permutation.
  - by rewrite Hu, Hbad.
Qed.

Lemma pinv_dealloc s t p size :
  pinv s → used s !! p = Some size →
  pinv_with (DoDeallocate p size (pool_of s t)).2
    (PSys (heap s) (delete p (used s)) (<[t := (DoDeallocate p size (pool_of s t)).1]> (pools s)) (bad s)).
Proof.
  intros Hs Hu. pose proof (pi_used _ _ Hs _ _ Hu) as Hblk.
  assert (p ≠ 0%nat) as Hnz by (intros ->; pose proof (pi_null _ _ Hs); simplify_eq).
  destruct (DoDeallocate_spec _ _ _ _ (pool_of_ok s t Hs) Hblk Hnz) as [Hok Hperm].
  destruct (DoDeallocate p size (pool_of s t)) as [f' freed]; simpl in *.
  pose proof (pooled_set s t f') as Hset. destruct Hs as [Hpools Hused Hnull Hheap Hbad].
  split; simpl; [by apply set_pool_ok| |done| |done].
  - intros q sz [_ Hq]%lookup_delete_Some. auto.
  - rewrite Hheap. simpl. rewrite <-(keys_delete (used s) p) by eauto.
    apply (Permutation_app_inv_l (concat (buckets_ (pool_of s t)))).
    transitivity ((p :: concat (buckets_ (pool_of s t))) ++ pooled s ++ keys (delete p (used s)));
      [solve_Permutation|]. rewrite Hperm.
    transitivity (freed ++ (concat (buckets_ f') ++ pooled s) ++ keys (delete p (used s)));
      [solve_Permutation|]. rewrite <-Hset. unfold pooled; simpl. solve_Permutation.
Qed.

Lemma pinv_set_pool s t f freed :
  pinv s → pool_ok (heap s) f → concat (buckets_ (pool_of s t)) ≡ₚ freed ++ concat (buckets_ f) →
  pinv_with freed (set_pool t f s).
Proof.
  intros [Hpools Hused Hnull Hheap Hbad] Hf Hperm.
  split; simpl; [by apply set_pool_ok|done|done| |done].
  rewrite Hheap. unfold pooled; simpl. rewrite app_assoc. f_equiv.
  apply (Permutation_app_inv_l (concat (buckets_ f))). rewrite <-(pooled_set s t f), Hperm.
  solve_Permutation.
Qed.

Lemma pinv_exit s t :
  pinv s → pinv_with (DoClear (pool_of s t)).2 (PSys (heap s) (used s) (delete t (pools s)) (bad s)).
Proof.
  intros Hs. destruct (DoClear_spec _ _ (pool_of_ok s t Hs)) as (_ & _ & ->).
  destruct Hs as [Hpools Hused Hnull Hheap Hbad]. split; simpl; [|done|done| |done].
  - intros t' f [_ Ht']%lookup_delete_Some. eauto.
  - rewrite Hheap. unfold pooled, pool_of; simpl. destruct (pools s !! t) as [f|] eqn:Ht; simpl.
    + rewrite (collect_delete _ _ _ _ Ht). solve_Permutation.
    + by rewrite (delete_id _ _ Ht).
Qed.

Lemma pinv_step l s s' : pinv s → pstep l s = Some s' → pinv s'.
Proof.
  intros Hs Hst. destruct l as [t size fresh|t p|t size|t|t|t]; simpl in Hst.
  - case_bool_decide; [|done]. destruct (DoAllocate size (pool_of s t)) as [[p|sz] f] eqn:Hda;
      [simplify_eq; by apply pinv_pooled_alloc|].
    case_bool_decide as Hf; [|done]. destruct Hf. simplify_eq. by eapply pinv_new_alloc.
  - destruct (used s !! p) as [size|] eqn:Hu; simpl in Hst; [|done].
    pose proof (pinv_free _ _ (pinv_dealloc s t p size Hs Hu)) as Hfr.
    by destruct (DoDeallocate p size (pool_of s t)); simplify_eq/=.
  - simplify_eq. apply pinv_set_pool; [done| |done].
    apply pool_ok_stats; [by apply pool_of_ok|].
    apply stats_ok_count, (po_stats _ _ (pool_of_ok s t Hs)).
  - destruct (DoClear_spec _ _ (pool_of_ok s t Hs)) as (Hok & Hnil & Hfr).
    pose proof (pinv_free _ _ (pinv_set_pool s t _ (DoClear (pool_of s t)).2 Hs Hok
      ltac:(rewrite Hfr, Hnil, app_nil_r; done))) as Hgoal.
    by simplify_eq.
  - simplify_eq. apply pinv_set_pool; [done| |done].
    apply pool_ok_stats; [by apply pool_of_ok|]. by exists 0.
  - pose proof (pinv_free _ _ (pinv_exit s t Hs)) as Hgoal.
    by simplify_eq.
Qed.

Definition pool_reachable (s : psys) : Prop := reachable pstep pinit s.

Lemma pool_reachable_inv s : pool_reachable s → pinv s.
Proof. apply reachable_inv; [split; try done|]. intros; by eapply pinv_step. Qed.

(** ** What the pool promises *)

(** C29. Memory safety of the pooled frames, for any number of threads that
    allocate and free frames of any sizes, also across threads, clear their
    pools and exit: no frame is handed out twice, nothing but a live block is
    deleted, the block behind a frame is at least as large as asked for, and
    every block of the heap is either one frame in use or one pooled frame, so
    none leaks; no free list grows beyond its bound. *)
Theorem frame_pool_safe s :
  pool_reachable s →
  bad s = false ∧
  (∀ p size, used s !! p = Some size → ∃ blk, heap s !! p = Some blk ∧ size <= blk) ∧
  NoDup (pooled s ++ keys (used s)) ∧ keys (heap s) ≡ₚ pooled s ++ keys (used s) ∧
  (∀ t f b l, pools s !! t = Some f → buckets_ f !! b = Some l → (length l ≤ kMaxPooledPerBucket)%nat).
Proof.
  intros [Hpools Hused _ Hheap Hbad]%pool_reachable_inv. split_and!; [done| | |done|].
  - intros p size Hp. exists (block_size size). split; [auto|apply block_size_ge].
  - pose proof (keys_nodup (heap s)) as Hnd. rewrite Hheap in Hnd. exact Hnd.
  - intros t f b l Ht. apply (po_cap _ _ (Hpools t f Ht)).
Qed.

(** Two threads; a frame of 100 bytes made by the first is freed by the second
    and reused there for 120 bytes. *)
Definition pool_demo : list pool_op :=
  [PAllocate 0 100 5; PAllocate 0 5000 6; PDeallocate 1 5; PAllocate 1 120 0;
   PDeallocate 0 6; PThreadExit 0]%nat.

Lemma frame_pool_safe_witness :
  ∃ s, run pstep pool_demo pinit = Some s ∧ used s !! 5%nat = Some 120 ∧
  (bad s = false ∧
  (∀ p size, used s !! p = Some size → ∃ blk, heap s !! p = Some blk ∧ size <= blk) ∧
  NoDup (pooled s ++ keys (used s)) ∧ keys (heap s) ≡ₚ pooled s ++ keys (used s) ∧
  (∀ t f b l, pools s !! t = Some f → buckets_ f !! b = Some l → (length l ≤ kMaxPooledPerBucket)%nat)).
Proof.
  eexists. split; [vm_compute; reflexivity|]. split; [vm_compute; reflexivity|].
  apply frame_pool_safe, reachable_run. exists pool_demo. vm_compute. reflexivity.
Defined.

(** Reuse: freeing a frame on a thread whose free list for its size has
    room, and then asking that thread for any size of the same bucket, gives
    the same frame back without touching the heap, and leaves the free lists
    as they were. *)
Theorem frame_pool_reuse s t p size size' b fresh :
  pool_reachable s → used s !! p = Some size → size_ok size' →
  GetBucket size = Some b → GetBucket size' = Some b →
  (length (default [] (buckets_ (pool_of s t) !! b)) < kMaxPooledPerBucket)%nat →
  ∃ s', run pstep [PDeallocate t p; PAllocate t size' fresh] s = Some s' ∧
    used s' = <[p := size']> (used s) ∧ heap s' = heap s ∧
    buckets_ (pool_of s' t) = buckets_ (pool_of s t) ∧
    pool_hits (stats_ (pool_of s' t)) = inc (pool_hits (stats_ (pool_of s t))).
Proof.
  intros Hr Hu Hsz Hb Hb' Hlen. pose proof (pool_reachable_inv s Hr) as Hs.
  assert (p ≠ 0%nat) as Hnz.
  { intros ->. pose proof (pi_used _ _ Hs _ _ Hu). pose proof (pi_null _ _ Hs). simplify_eq. }
  pose proof (bucket_defined _ _ _ (pool_of_ok s t Hs) (GetBucket_lt _ _ Hb)) as Hl.
  set (l := default [] (buckets_ (pool_of s t) !! b)) in *.
  eexists. split.
  { simpl. rewrite Hu. simpl. unfold DoDeallocate.
    rewrite (proj2 (Nat.eqb_neq p 0) Hnz), Hb. fold l.
    rewrite (proj2 (Nat.ltb_lt _ _) Hlen). simpl.
    rewrite bool_decide_true by done. unfold pool_of at 1. simpl.
    rewrite lookup_insert_eq. simpl. unfold DoAllocate. rewrite Hb'. simpl.
    rewrite list_lookup_insert_eq by (by eapply lookup_lt_Some). simpl.
    rewrite last_snoc. reflexivity. }
  simpl. rewrite insert_delete_eq, removelast_last. split_and!; [done..| |];
    unfold pool_of; simpl; rewrite lookup_insert_eq; simpl; [|done].
  rewrite list_insert_insert_eq. by apply list_insert_id.
Qed.

Lemma frame_pool_reuse_witness :
  ∃ s, run pstep (take 4 pool_demo) pinit = Some s ∧
  ∃ s', run pstep [PDeallocate 1 5; PAllocate 1 65 0] s = Some s' ∧
    used s' = <[5%nat := 65]> (used s) ∧ heap s' = heap s ∧
    buckets_ (pool_of s' 1) = buckets_ (pool_of s 1) ∧
    pool_hits (stats_ (pool_of s' 1)) = inc (pool_hits (stats_ (pool_of s 1))).
Proof.
  eexists. split; [vm_compute; reflexivity|].
  apply (frame_pool_reuse _ _ _ 120 _ 1);
    [|vm_compute; reflexivity|done|reflexivity|reflexivity|vm_compute; lia].
  apply reachable_run. exists (take 4 pool_demo). vm_compute. reflexivity.
Defined.
