(* ===== verification/Cancellation.v ===== *)
(** * Cancellation ([include/hotcoco/core/cancellation.hpp])

    The state a source and its tokens share.  Cancel is three atomic actions,
    the exchange of the flag, the critical section that takes the callbacks,
    and one invocation per callback; RegisterCallback is one critical section
    and perhaps an invocation; UnregisterCallback is one critical section.
    Threads interleave between these actions.  An operation a callback itself
    performs is an action of another activity: no lock is held while callbacks
    run.  Callbacks are named by numbers. *)
From S2P Require Import Prelude.
Local Open Scope Z_scope.

Abbreviation callback := nat (only parsing).

Record CancellationState := mkCState {
  cancelled_ : bool;
  callbacks_ : list callback;
  callback_handles_ : list Z;
  next_handle_ : Z;
}.

Definition new_cstate : CancellationState := mkCState false [] [] 1.

Definition IsCancelled (c : CancellationState) : bool := cancelled_ c.

(** [Cancel]: the exchange; [true] when it was already cancelled. *)
Definition Cancel_exchange (c : CancellationState) : bool * CancellationState :=
  (cancelled_ c, mkCState true (callbacks_ c) (callback_handles_ c) (next_handle_ c)).

(** [Cancel]: the critical section. *)
Definition Cancel_take (c : CancellationState) : list callback * CancellationState :=
  (callbacks_ c, mkCState (cancelled_ c) [] [] (next_handle_ c)).

(** [RegisterCallback]: the critical section; [None] falls through to the
    invocation outside the lock and the handle 0. *)
Definition RegisterCallback (cb : callback) (c : CancellationState)
    : option Z * CancellationState :=
  if cancelled_ c then (None, c)
  else
    let handle := next_handle_ c in
    (Some handle,
     mkCState (cancelled_ c) (callbacks_ c ++ [cb]) (callback_handles_ c ++ [handle])
       (to_size (next_handle_ c + 1))).

(** [UnregisterCallback]: the position it erases, if any, and the state. *)
Definition find_handle (handle : Z) (c : CancellationState) : option nat :=
  if handle =? 0 then None
  else fst <$> list_find (λ h, h = handle) (callback_handles_ c).

Definition UnregisterCallback (handle : Z) (c : CancellationState) : CancellationState :=
  match find_handle handle c with
  | Some i => mkCState (cancelled_ c) (delete i (callbacks_ c)) (delete i (callback_handles_ c))
                (next_handle_ c)
  | None => c
  end.

(** ** Tokens and sources: a nullable reference to the state *)

Definition Token_IsCancelled (state_ : option CancellationState) : bool :=
  match state_ with Some c => IsCancelled c | None => false end.
Definition Token_bool (state_ : option CancellationState) : bool := negb (Token_IsCancelled state_).
Definition Token_OnCancel (cb : callback) (state_ : option CancellationState)
    : option Z * option CancellationState :=
  match state_ with
  | Some c => let '(h, c') := RegisterCallback cb c in (h, Some c')
  | None => (Some 0, None)
  end.
Definition Token_Unregister (handle : Z) (state_ : option CancellationState)
    : option CancellationState := UnregisterCallback handle <$> state_.

(** A default token ignores registrations and never reports cancellation. *)
Lemma token_none cb h :
  Token_IsCancelled None = false ∧ Token_OnCancel cb None = (Some 0, None) ∧
  Token_Unregister h None = None.
Proof. done. Qed.

(** A source: the same reference.  [Source_Cancel] also gives the callbacks to
    invoke, in order. *)
Definition Source_ctor : option CancellationState := Some new_cstate.
Definition Source_GetToken (state_ : option CancellationState) : option CancellationState := state_.
Definition Source_IsCancelled (state_ : option CancellationState) : bool :=
  match state_ with Some c => IsCancelled c | None => false end.
Definition Source_Cancel (state_ : option CancellationState) : list callback * option CancellationState :=
  match state_ with
  | Some c =>
      let '(already, c) := Cancel_exchange c in
      if already then ([], Some c) else let '(callbacks_to_call, c) := Cancel_take c in (callbacks_to_call, Some c)
  | None => ([], None)
  end.

(** CancellationCallbackGuard: the handle it keeps is 0 when the callback was
    invoked at once, or there is no state. *)
Definition CallbackGuard_ctor (cb : callback) (token_ : option CancellationState) : Z * option CancellationState :=
  let '(h, c) := Token_OnCancel cb token_ in (default 0 h, c).
Definition CallbackGuard_dtor (handle_ : Z) (token_ : option CancellationState) : option CancellationState :=
  Token_Unregister handle_ token_.

(** A scope with a guard, on one thread: cancelled inside it, the callback is
    called once, after those registered before; not cancelled, the state is as
    before, but for the handle that was used, and the callback is gone. *)
Lemma callback_guard_scope cb c : let h := next_handle_ c in
  cancelled_ c = false → h ≠ 0 → h ∉ callback_handles_ c → length (callbacks_ c) = length (callback_handles_ c) →
  let '(handle_, s) := CallbackGuard_ctor cb (Some c) in
  handle_ = h ∧
  (Source_Cancel s).1 = callbacks_ c ++ [cb] ∧ (Source_Cancel (Source_Cancel s).2).1 = [] ∧
  CallbackGuard_dtor handle_ (Source_Cancel s).2 = (Source_Cancel s).2 ∧
  CallbackGuard_dtor handle_ s = Some (mkCState false (callbacks_ c) (callback_handles_ c) (to_size (h + 1))).
Proof.
  intros h Hc Hh Hin Hl. unfold CallbackGuard_ctor, Token_OnCancel, RegisterCallback. rewrite Hc. simpl.
  split_and!; [done|done|done| |].
  - unfold Token_Unregister, UnregisterCallback, find_handle. simpl. by destruct (_ =? 0).
  - unfold Token_Unregister, UnregisterCallback, find_handle. simpl. fold h. rewrite (proj2 (Z.eqb_neq h 0)) by done.
    rewrite list_find_app_r.
    + simpl. rewrite decide_True by done. simpl.
      rewrite (delete_middle (callback_handles_ c) [] h), <- Hl, (delete_middle (callbacks_ c) [] cb). by rewrite !app_nil_r.
    + apply list_find_None, Forall_forall. by intros x Hx ->.
Qed.

(** Without a state there is nothing to cancel. *)
Lemma no_source cb : Source_Cancel None = ([], None) ∧ Source_IsCancelled None = false ∧
  CallbackGuard_ctor cb None = (0, None) ∧ CallbackGuard_dtor 0 None = None.
Proof. done. Qed.

(** ** Threads *)

Inductive activity :=
  | AIdle
  | ASwapping                        (* won the exchange, before the lock *)
  | AInvoking (cbs : list callback). (* outside the lock *)

Record casys := CaSys {
  cst : CancellationState;
  acts : gmap nat activity;
  registered : list callback;        (* every callback passed to RegisterCallback *)
  assigned : list (Z * callback);    (* the handles it returned *)
  invoked : list callback;
  unregistered : list callback;
}.

Definition ca_init : casys := CaSys new_cstate ∅ [] [] [] [].

Definition act_of (s : casys) (t : nat) : activity := phase_of AIdle (acts s) t.
Definition set_act (t : nat) (a : activity) (s : casys) : casys :=
  CaSys (cst s) (<[t := a]> (acts s)) (registered s) (assigned s) (invoked s) (unregistered s).
Definition set_cst (c : CancellationState) (s : casys) : casys :=
  CaSys c (acts s) (registered s) (assigned s) (invoked s) (unregistered s).

Inductive ca_label :=
  | CaExchange (t : nat)
  | CaSwap (t : nat)
  | CaInvoke (t : nat)
  | CaRegister (t : nat) (cb : callback)
  | CaUnregister (handle : Z).

Definition ca_step (l : ca_label) (s : casys) : option casys :=
  match l with
  | CaExchange t =>
      match act_of s t with
      | AIdle =>
          let '(already, c) := Cancel_exchange (cst s) in
          if already then Some (set_cst c s) else Some (set_act t ASwapping (set_cst c s))
      | _ => None
      end
  | CaSwap t =>
      match act_of s t with
      | ASwapping =>
          let '(callbacks_to_call, c) := Cancel_take (cst s) in
          Some (set_act t (AInvoking callbacks_to_call) (set_cst c s))
      | _ => None
      end
  | CaInvoke t =>
      match act_of s t with
      | AInvoking (cb :: rest) =>
          let s' := set_act t (AInvoking rest) s in
          Some (CaSys (cst s') (acts s') (registered s') (assigned s') (invoked s' ++ [cb])
                  (unregistered s'))
      | AInvoking [] => Some (set_act t AIdle s)
      | _ => None
      end
  | CaRegister t cb =>
      match act_of s t with
      | AIdle =>
          match RegisterCallback cb (cst s) with
          | (Some h, c) =>
              Some (CaSys c (acts s) (registered s ++ [cb]) (assigned s ++ [(h, cb)]) (invoked s)
                      (unregistered s))
          | (None, c) =>
              Some (CaSys c (<[t := AInvoking [cb]]> (acts s)) (registered s ++ [cb]) (assigned s)
                      (invoked s) (unregistered s))
          end
      | _ => None
      end
  | CaUnregister handle =>
      let gone := i ← find_handle handle (cst s); callbacks_ (cst s) !! i in
      Some (CaSys (UnregisterCallback handle (cst s)) (acts s) (registered s) (assigned s)
              (invoked s) (unregistered s ++ option_list gone))
  end.

Definition to_run (a : activity) : list callback :=
  match a with AInvoking cbs => cbs | _ => [] end.
Definition swapping (a : activity) : bool := match a with ASwapping => true | _ => false end.

(** Callbacks that some thread has taken and not yet invoked. *)
Definition pending (s : casys) : list callback := collect to_run (acts s).

(** Handles do not wrap around before 2^64 - 1 registrations. *)
Definition handles_fit (s : casys) : Prop := Z.of_nat (length (assigned s)) < size_mod - 1.

Record handles_ok (s : casys) : Prop := {
  ho_next : next_handle_ (cst s) = Z.of_nat (length (assigned s)) + 1;
  ho_nodup : NoDup (callback_handles_ (cst s));
  ho_bound h : h ∈ callback_handles_ (cst s) → 0 < h < next_handle_ (cst s);
  ho_pair h cb : (h, cb) ∈ assigned s → cancelled_ (cst s) = false →
    (∃ i, callback_handles_ (cst s) !! i = Some h ∧ callbacks_ (cst s) !! i = Some cb) ∨
    cb ∈ unregistered s;
  ho_assigned h cb : (h, cb) ∈ assigned s → 0 < h < next_handle_ (cst s);
  ho_zip i h cb : callback_handles_ (cst s) !! i = Some h → callbacks_ (cst s) !! i = Some cb →
    (h, cb) ∈ assigned s;
  ho_fun h cb cb' : (h, cb) ∈ assigned s → (h, cb') ∈ assigned s → cb = cb';
}.

Record ca_inv (s : casys) : Prop := {
  ci_len : length (callbacks_ (cst s)) = length (callback_handles_ (cst s));
  ci_balance : registered s ≡ₚ callbacks_ (cst s) ++ pending s ++ invoked s ++ unregistered s;
  ci_open : cancelled_ (cst s) = false →
    pending s = [] ∧ invoked s = [] ∧ ∀ t, swapping (act_of s t) = false;
  ci_closed : cancelled_ (cst s) = true →
    (∀ t, swapping (act_of s t) = false) → callbacks_ (cst s) = [];
  ci_one t t' : swapping (act_of s t) = true → swapping (act_of s t') = true → t = t';
  ci_handles : handles_fit s → handles_ok s;
}.

(** ** Invariant preservation *)

Lemma pending_set s t a :
  to_run (act_of s t) ++ collect to_run (<[t:=a]> (acts s)) ≡ₚ to_run a ++ pending s.
Proof. by apply (collect_set to_run AIdle). Qed.

Lemma pending_same s t a :
  to_run a = to_run (act_of s t) → collect to_run (<[t:=a]> (acts s)) ≡ₚ pending s.
Proof.
  intros Ha. apply (Permutation_app_inv_l (to_run a)). rewrite <-(pending_set s t a). by rewrite Ha.
Qed.

Lemma act_of_set s t a t' : act_of (set_act t a s) t' = if decide (t = t') then a else act_of s t'.
Proof. apply phase_of_set. Qed.

(** Threads that neither start nor end a swap do not disturb those clauses. *)
Lemma swapping_set s t a t' :
  swapping a = false → swapping (act_of (set_act t a s) t') = true →
  t ≠ t' ∧ swapping (act_of s t') = true.
Proof. rewrite act_of_set. case_decide; [congruence|done]. Qed.

Lemma swapping_set_false s t a :
  swapping a = false → swapping (act_of s t) = false →
  (∀ t', swapping (act_of (set_act t a s) t') = false) ↔ (∀ t', swapping (act_of s t') = false).
Proof.
  intros Ha Ht. split; intros Hall t'; specialize (Hall t'); rewrite act_of_set in *;
    case_decide; subst; congruence.
Qed.

Lemma find_handle_spec h c i :
  find_handle h c = Some i → h ≠ 0 ∧ callback_handles_ c !! i = Some h.
Proof.
  unfold find_handle. case_match eqn:Hz; [done|]. apply Z.eqb_neq in Hz.
  destruct (list_find _ _) as [[j x]|] eqn:Hf; intros; simplify_eq/=.
  apply list_find_Some in Hf as (? & -> & _). done.
Qed.

Lemma find_handle_nodup h c i :
  NoDup (callback_handles_ c) → h ≠ 0 → callback_handles_ c !! i = Some h →
  find_handle h c = Some i.
Proof.
  intros Hnd Hz Hi. unfold find_handle. rewrite (proj2 (Z.eqb_neq h 0) Hz).
  destruct (list_find _ _) as [[j x]|] eqn:Hf; simpl.
  - apply list_find_Some in Hf as (Hj & -> & _). f_equal. by eapply NoDup_lookup.
  - apply list_find_None, Forall_forall with (x := h) in Hf; [done|].
    by eapply list_elem_of_lookup_2.
Qed.

Lemma ca_inv_init : ca_inv ca_init.
Proof.
  pose proof (collect_empty (K:=nat) to_run : pending ca_init = []) as Hp.
  split; simpl; [done|by rewrite Hp| |done|..].
  - intros _. split_and!; [done|done|].
    intros t. reflexivity.
  - intros t t' Ht. discriminate Ht.
  - intros _. split; simpl; [done|constructor|..]; intros *; by rewrite elem_of_nil.
Qed.

(** An action of thread [t] that only moves callbacks between the thread and
    the log of invocations. *)
Lemma ca_inv_thread s t a l :
  ca_inv s → swapping (act_of s t) = false → swapping a = false →
  to_run (act_of s t) ≡ₚ to_run a ++ l → (l = [] ∨ cancelled_ (cst s) = true) →
  ca_inv (CaSys (cst s) (<[t:=a]> (acts s)) (registered s) (assigned s) (invoked s ++ l)
            (unregistered s)).
Proof.
  intros [Hlen Hbal Hopen Hclosed Hone Hh] Ht Ha Hrun Hl.
  assert (l ++ collect to_run (<[t:=a]> (acts s)) ≡ₚ pending s) as Hp.
  { apply (Permutation_app_inv_l (to_run a)). rewrite <-(pending_set s t a), Hrun. solve_Permutation. }
  split; simpl; [done| | | | |].
  - etransitivity; [exact Hbal|]. unfold pending in *; simpl. rewrite <-Hp. solve_Permutation.
  - intros Hc. destruct Hl as [->|]; [|congruence]. destruct (Hopen Hc) as (Hp0 & Hi & Hs).
    simpl in Hp. rewrite Hp0 in Hp. apply Permutation_nil_r in Hp. rewrite Hi.
    split_and!; [done|done|]. by apply (swapping_set_false s t a).
  - intros Hc Hs. apply Hclosed; [done|]. by apply (swapping_set_false s t a).
  - intros t1 t2 [_ H1]%(swapping_set s t a) [_ H2]%(swapping_set s t a); auto.
  - intros Hf. destruct (Hh Hf). by split.
Qed.

Lemma ca_inv_exchange s t :
  ca_inv s → cancelled_ (cst s) = false →
  ca_inv (set_act t ASwapping (set_cst (Cancel_exchange (cst s)).2 s)).
Proof.
  intros [Hlen Hbal Hopen Hclosed Hone Hh] Hc. destruct (Hopen Hc) as (Hp0 & Hi & Hs).
  assert (to_run (act_of s t) = []) as Hrt.
  { pose proof (pending_set s t AIdle) as Hp. rewrite Hp0 in Hp. simpl in Hp.
    apply Permutation_nil_r in Hp. by apply app_eq_nil in Hp as [? _]. }
  split; simpl; [done| |done| | |].
  - etransitivity; [exact Hbal|]. pose proof (pending_same s t ASwapping) as Hp.
    unfold pending in *; simpl. by rewrite Hp.
  - intros _ Hall. specialize (Hall t). rewrite act_of_set, decide_True in Hall; done.
  - intros t1 t2. rewrite !act_of_set. repeat case_decide; try congruence;
      simpl; rewrite ?(Hs t1), ?(Hs t2); unfold act_of in *; simpl; rewrite ?Hs; try done.
  - intros Hf. destruct (Hh Hf). by split.
Qed.

Lemma ca_inv_swap s t :
  ca_inv s → act_of s t = ASwapping →
  ca_inv (set_act t (AInvoking (Cancel_take (cst s)).1) (set_cst (Cancel_take (cst s)).2 s)).
Proof.
  intros [Hlen Hbal Hopen Hclosed Hone Hh] Ht.
  assert (cancelled_ (cst s) = true) as Hc.
  { apply not_false_iff_true. intros Hc. destruct (Hopen Hc) as (_ & _ & Hs).
    specialize (Hs t). by rewrite Ht in Hs. }
  pose proof (pending_set s t (AInvoking (callbacks_ (cst s)))) as Hp. rewrite Ht in Hp.
  simpl in Hp. split; simpl; [done| |congruence|done| |].
  - etransitivity; [exact Hbal|]. unfold pending in *; simpl. rewrite Hp. solve_Permutation.
  - intros t1 t2 [Hn1 H1]%(swapping_set s t) [Hn2 H2]%(swapping_set s t); auto.
  - intros Hf. destruct (Hh Hf). split; simpl; try done; [constructor| |];
      [set_solver|]. intros h cb Hin Hc'. congruence.
Qed.

Lemma ca_inv_register s cb :
  ca_inv s → cancelled_ (cst s) = false →
  ca_inv (CaSys (RegisterCallback cb (cst s)).2 (acts s) (registered s ++ [cb])
            (assigned s ++ [(next_handle_ (cst s), cb)]) (invoked s) (unregistered s)).
Proof.
  intros [Hlen Hbal Hopen Hclosed Hone Hh] Hc. unfold RegisterCallback. rewrite Hc.
  split; simpl; [by rewrite !length_app, Hlen| |by intros; apply Hopen|done|done|].
  - unfold pending in *; simpl. rewrite Hbal. solve_Permutation.
  - unfold handles_fit. simpl. rewrite length_app. simpl. intros Hf.
    destruct Hh as [Hnext Hnd Hb Hp Ha Hz Hfun]; [unfold handles_fit; lia|].
    assert (to_size (next_handle_ (cst s) + 1) = next_handle_ (cst s) + 1) as Hts.
    { apply to_size_id. unfold size_ok. lia. }
    split; simpl; rewrite ?Hts.
    + rewrite length_app. simpl. lia.
    + apply NoDup_app. split_and!; [done| |apply NoDup_singleton].
      intros h Hin%Hb. rewrite list_elem_of_singleton. lia.
    + intros h [Hin%Hb| ->%list_elem_of_singleton]%elem_of_app; lia.
    + intros h cb' [Hin|Heq%list_elem_of_singleton]%elem_of_app _.
      * destruct (Hp _ _ Hin Hc) as [(i & Hi & Hi')|]; [|by right].
        left. exists i. by rewrite !lookup_app_l by (by eapply lookup_lt_Some).
      * simplify_eq. left. exists (length (callback_handles_ (cst s))).
        rewrite <-Hlen at 2. by rewrite !lookup_app_r, !Nat.sub_diag by done.
    + intros h cb' [Hin%Ha|Heq%list_elem_of_singleton]%elem_of_app; [lia|].
      simplify_eq. lia.
    + intros i h cb' [Hi|[Hge Hi]]%lookup_app_Some [Hj|[Hge' Hj]]%lookup_app_Some;
        [by apply elem_of_app; left; eapply Hz| | |].
      * apply lookup_lt_Some in Hi. lia.
      * apply lookup_lt_Some in Hj. lia.
      * apply list_lookup_singleton_Some in Hi as [_ <-], Hj as [_ <-]. set_solver.
    + intros h c1 c2 [H1|H1%list_elem_of_singleton]%elem_of_app
        [H2|H2%list_elem_of_singleton]%elem_of_app; simplify_eq; eauto;
        [specialize (Ha _ _ H1)|specialize (Ha _ _ H2)]; lia.
Qed.

Lemma ca_inv_register_late s t cb :
  ca_inv s → act_of s t = AIdle → cancelled_ (cst s) = true →
  ca_inv (CaSys (cst s) (<[t := AInvoking [cb]]> (acts s)) (registered s ++ [cb]) (assigned s)
            (invoked s) (unregistered s)).
Proof.
  intros [Hlen Hbal Hopen Hclosed Hone Hh] Ht Hc.
  pose proof (pending_set s t (AInvoking [cb])) as Hp. rewrite Ht in Hp. simpl in Hp.
  split; simpl; [done| |congruence| | |].
  - unfold pending in *; simpl. rewrite Hbal, Hp. solve_Permutation.
  - intros _ Hs. apply Hclosed; [done|]. apply (swapping_set_false s t (AInvoking [cb])); [done| |done].
    by rewrite Ht.
  - intros t1 t2 [_ H1]%(swapping_set s t) [_ H2]%(swapping_set s t); auto.
  - intros Hf. destruct (Hh Hf). by split.
Qed.

(** A callback erased at position [i] of both vectors. *)
Lemma ca_inv_erase s h i cb :
  ca_inv s → callback_handles_ (cst s) !! i = Some h → callbacks_ (cst s) !! i = Some cb →
  ca_inv (CaSys (mkCState (cancelled_ (cst s)) (delete i (callbacks_ (cst s)))
                   (delete i (callback_handles_ (cst s))) (next_handle_ (cst s)))
            (acts s) (registered s) (assigned s) (invoked s) (unregistered s ++ [cb])).
Proof.
  intros [Hlen Hbal Hopen Hclosed Hone Hh] Hi Hcb.
  split; simpl; [| |done| |done|].
  - rewrite !length_delete by done. by rewrite Hlen.
  - unfold pending in *; simpl. rewrite Hbal.
    rewrite (delete_Permutation (callbacks_ (cst s)) i cb Hcb) at 1. solve_Permutation.
  - intros Hc Hs. by rewrite (Hclosed Hc Hs) in Hcb.
  - intros Hf. destruct (Hh Hf) as [Hnext Hnd Hb Hp Ha Hz Hfun].
    pose proof (delete_Permutation (callback_handles_ (cst s)) i h Hi) as Hperm.
    split; simpl; [done| | | |done| |done].
    + rewrite Hperm in Hnd. by apply NoDup_cons in Hnd as [_ ?].
    + intros h' Hin. apply Hb. rewrite Hperm. set_solver.
    + intros h' cb' Hin Hc.
      destruct (Hp h' cb' Hin Hc) as [(j & Hj & Hj')|]; [|right; set_solver].
      destruct (decide (i = j)) as [->|Hne]; [right; simplify_eq; set_solver|left].
      destruct (decide (j < i)%nat).
      * exists j. by rewrite !list_lookup_delete_lt by done.
      * exists (pred j). rewrite !list_lookup_delete_ge by lia.
        by replace (S (pred j)) with j by lia.
    + intros j h' cb'. destruct (decide (j < i)%nat).
      * rewrite !list_lookup_delete_lt by done. apply Hz.
      * rewrite !list_lookup_delete_ge by lia. apply Hz.
Qed.

Lemma ca_inv_step l s s' : ca_inv s → ca_step l s = Some s' → ca_inv s'.
Proof.
  intros Hs Hst. destruct l as [t|t|t|t cb|h]; simpl in Hst.
  - destruct (act_of s t) eqn:Ht; try done. destruct (cancelled_ (cst s)) eqn:Hc; simplify_eq.
    + replace (set_cst _ s) with s; [done|]. destruct s as [[] ? ? ? ? ?]; simpl in *. by subst.
    + by apply ca_inv_exchange.
  - destruct (act_of s t) eqn:Ht; simplify_eq. by apply ca_inv_swap.
  - destruct (act_of s t) as [| |[|cb rest]] eqn:Ht; simplify_eq.
    + pose proof (ca_inv_thread s t AIdle [] Hs) as Hn. rewrite Ht, !app_nil_r in Hn.
      apply Hn; auto.
    + apply (ca_inv_thread s t (AInvoking rest) [cb] Hs); rewrite ?Ht; simpl; [done..| |].
      * solve_Permutation.
      * right. apply not_false_iff_true. intros Hc. destruct (ci_open _ Hs Hc) as (Hp & _).
        pose proof (pending_set s t AIdle) as Hps. rewrite Ht, Hp in Hps.
        by apply Permutation_nil_r in Hps.
  - destruct (act_of s t) eqn:Ht; try done. unfold RegisterCallback in Hst.
    destruct (cancelled_ (cst s)) eqn:Hc; simplify_eq.
    + by apply ca_inv_register_late.
    + pose proof (ca_inv_register s cb Hs Hc) as Hn. unfold RegisterCallback in Hn.
      by rewrite Hc in Hn.
  - unfold UnregisterCallback in Hst. destruct (find_handle h (cst s)) as [i|] eqn:Hf; simplify_eq/=.
    + apply find_handle_spec in Hf as [_ Hi].
      destruct (lookup_lt_is_Some_2 (callbacks_ (cst s)) i) as [cb Hcb].
      { rewrite (ci_len _ Hs). by eapply lookup_lt_Some. }
      rewrite Hcb. by eapply ca_inv_erase.
    + rewrite app_nil_r. by destruct s.
Qed.

Definition ca_reachable (s : casys) : Prop := reachable ca_step ca_init s.

Lemma ca_reachable_inv s : ca_reachable s → ca_inv s.
Proof. apply reachable_inv; [apply ca_inv_init|]. intros; by eapply ca_inv_step. Qed.

Lemma unregistered_grows s s' cb :
  reachable ca_step s s' → cb ∈ unregistered s → cb ∈ unregistered s'.
Proof.
  intros Hr Hin. revert Hr. apply (reachable_inv ca_step (λ s, cb ∈ unregistered s)); [done|].
  intros l s1 s2 Hi Hst. destruct l; simpl in Hst; unfold RegisterCallback in Hst;
    repeat case_match; simplify_eq/=; set_solver.
Qed.

(** The step that unregisters a callback, under its own handle. *)
Lemma unregister_effect s h cb s' :
  ca_inv s → handles_ok s → (h, cb) ∈ assigned s → cancelled_ (cst s) = false →
  ca_step (CaUnregister h) s = Some s' →
  cb ∈ unregistered s' ∧ callbacks_ (cst s') ⊆ callbacks_ (cst s) ∧
  (∀ cb', cb' ∈ callbacks_ (cst s) → cb' = cb ∨ cb' ∈ callbacks_ (cst s')).
Proof.
  intros Hs [Hnext Hndh Hb Hp Ha Hz Hfun] Hin Hc Hst. simpl in Hst.
  unfold UnregisterCallback in Hst. destruct (find_handle h (cst s)) as [i|] eqn:Hfh.
  - apply find_handle_spec in Hfh as [_ Hi].
    destruct (lookup_lt_is_Some_2 (callbacks_ (cst s)) i) as [cb2 Hcb2].
    { rewrite (ci_len _ Hs). by eapply lookup_lt_Some. }
    rewrite (Hfun h cb2 cb (Hz _ _ _ Hi Hcb2) Hin) in Hcb2. simpl in Hst. rewrite Hcb2 in Hst.
    simplify_eq/=. pose proof (delete_Permutation _ _ _ Hcb2) as Hperm.
    split_and!; [set_solver| |]; intros cb' Hcb'.
    + rewrite Hperm. set_solver.
    + rewrite Hperm in Hcb'. set_solver.
  - simplify_eq/=. split_and!; [|done|auto]. rewrite app_nil_r.
    destruct (Hp _ _ Hin Hc) as [(i & Hi & _)|]; [|done].
    assert (h ≠ 0) as Hnz by (specialize (Ha _ _ Hin); lia).
    by rewrite (find_handle_nodup _ _ _ Hndh Hnz Hi) in Hfh.
Qed.

(** ** What cancellation promises *)

(** C16. Every callback is called at most once; it is called only after
    cancellation was requested; and once cancellation was requested and all
    threads are done, every callback ever registered was either called exactly
    once or unregistered, never both.  This holds for callbacks registered
    before, during and after the cancellation, from any number of threads. *)
Theorem cancellation_exactly_once s :
  ca_reachable s → NoDup (registered s) →
  NoDup (invoked s ++ unregistered s) ∧
  (∀ cb, cb ∈ invoked s → IsCancelled (cst s) = true ∧ cb ∈ registered s) ∧
  (IsCancelled (cst s) = true → (∀ t, act_of s t = AIdle) → pending s = [] →
     invoked s ++ unregistered s ≡ₚ registered s).
Proof.
  intros Hr%ca_reachable_inv Hnd. destruct Hr as [_ Hbal Hopen Hclosed _ _]. split_and!.
  - rewrite Hbal, app_assoc in Hnd. by apply NoDup_app in Hnd as (_ & _ & ?).
  - intros cb Hin. split.
    + apply not_false_iff_true. intros Hc. destruct (Hopen Hc) as (_ & Hi & _).
      rewrite Hi in Hin. by apply elem_of_nil in Hin.
    + rewrite Hbal. set_solver.
  - intros Hc Hidle Hp. rewrite Hbal, Hp, (Hclosed Hc); [done|]. intros t. by rewrite Hidle.
Qed.

(** Two callbacks are registered before and one after; the second is
    unregistered; two threads race to cancel. *)
Definition cancel_demo : list ca_label :=
  [CaRegister 0 10; CaRegister 0 11; CaUnregister 2; CaExchange 1; CaExchange 2;
   CaRegister 0 12; CaSwap 1; CaInvoke 0; CaInvoke 1; CaInvoke 1; CaInvoke 0].

Lemma cancellation_exactly_once_witness :
  ∃ s, run ca_step cancel_demo ca_init = Some s ∧ invoked s = [12; 10]%nat ∧
  (NoDup (invoked s ++ unregistered s) ∧
  (∀ cb, cb ∈ invoked s → IsCancelled (cst s) = true ∧ cb ∈ registered s) ∧
  (IsCancelled (cst s) = true → (∀ t, act_of s t = AIdle) → pending s = [] →
     invoked s ++ unregistered s ≡ₚ registered s)).
Proof.
  eexists. split; [vm_compute; reflexivity|]. split; [reflexivity|].
  apply cancellation_exactly_once; [|repeat constructor; set_solver].
  apply reachable_run. exists cancel_demo. vm_compute. reflexivity.
Defined.

(** Unregistering works while nobody has cancelled: after
    UnregisterCallback with the handle that a registration returned, its
    callback is never called, whatever happens later; and no other callback is
    unregistered by it. *)
Theorem cancellation_unregister s h cb s' s'' :
  ca_reachable s → handles_fit s → (h, cb) ∈ assigned s → IsCancelled (cst s) = false →
  ca_step (CaUnregister h) s = Some s' → reachable ca_step s' s'' → NoDup (registered s'') →
  (cb ∉ invoked s'') ∧ callbacks_ (cst s') ⊆ callbacks_ (cst s) ∧
  (∀ cb', cb' ∈ callbacks_ (cst s) → cb' = cb ∨ cb' ∈ callbacks_ (cst s')).
Proof.
  intros Hr Hf Hin Hc Hst Hr' Hnd. pose proof (ca_reachable_inv s Hr) as Hs.
  assert (cb ∈ unregistered s' ∧ callbacks_ (cst s') ⊆ callbacks_ (cst s) ∧
    (∀ cb', cb' ∈ callbacks_ (cst s) → cb' = cb ∨ cb' ∈ callbacks_ (cst s'))) as (Hu & Hsub & Hoth).
  { apply (unregister_effect s h cb s'); auto. by apply ci_handles. }
  split; [|done]. pose proof (unregistered_grows _ _ _ Hr' Hu) as Hu'.
  assert (ca_inv s'') as [_ Hbal _ _ _ _].
  { apply ca_reachable_inv. eapply reachable_trans; [|done]. by eapply reach_step. }
  intros Hi. rewrite Hbal, !app_assoc in Hnd. apply NoDup_app in Hnd as (_ & Hd & _).
  apply (Hd cb); set_solver.
Qed.

Lemma cancellation_unregister_witness :
  ∃ s s' s'', run ca_step (take 2 cancel_demo) ca_init = Some s ∧
  ca_step (CaUnregister 2) s = Some s' ∧ run ca_step (drop 3 cancel_demo) s' = Some s'' ∧
  ((11%nat ∉ invoked s'') ∧ callbacks_ (cst s') ⊆ callbacks_ (cst s) ∧
  (∀ cb', cb' ∈ callbacks_ (cst s) → cb' = 11%nat ∨ cb' ∈ callbacks_ (cst s'))).
Proof.
  do 3 eexists. split; [vm_compute; reflexivity|]. split; [vm_compute; reflexivity|].
  split; [vm_compute; reflexivity|]. eapply (cancellation_unregister _ 2).
  - apply reachable_run. exists (take 2 cancel_demo). vm_compute. reflexivity.
  - vm_compute. reflexivity.
  - simpl. set_solver.
  - reflexivity.
  - vm_compute. reflexivity.
  - apply reachable_run. exists (drop 3 cancel_demo). vm_compute. reflexivity.
  - simpl. repeat constructor; set_solver.
Defined.

(** Unregistering does not wait: a callback that Cancel has already taken runs
    after UnregisterCallback returned, so CancellationCallbackGuard's
    destructor does not end the lifetime of its callback. *)
Example unregister_does_not_wait :
  ∃ s s', run ca_step [CaRegister 0 10; CaExchange 1; CaSwap 1; CaUnregister 1]%nat ca_init = Some s ∧
    invoked s = [] ∧ ca_step (CaInvoke 1) s = Some s' ∧ invoked s' = [10%nat].
Proof. do 2 eexists. split_and!; vm_compute; reflexivity. Qed.
