(* ===== verification/WhenAll.v ===== *)
(** * WhenAll ([include/hotcoco/core/when_all.hpp])

    The fork/join latch, the wrapper coroutine of each child and the awaitable
    that starts the children and collects their results.  A child runs inside
    [Start] until it first suspends and may finish on any thread, so once
    started it may take its steps (return its value, then notify the latch in
    [final_suspend]) between any two steps of the parent.  [TryAwait] is two
    atomic accesses: it stores the handle, then decrements.  The tuple and the
    vector awaitable differ in the container only; one value type stands for
    the element types. *)
From S2P Require Import Prelude Raii.
Local Open Scope Z_scope.

(** ** WhenAllLatch *)

Record WhenAllLatch := mkLatch { count_ : Z; awaiting_ : option handle }.

Definition WhenAllLatch_ctor (count : Z) : WhenAllLatch := mkLatch (to_size (count + 1)) None.

(** [TryAwait], first half: [awaiting_ = awaiting]. *)
Definition TryAwait_store (awaiting : handle) (l : WhenAllLatch) : WhenAllLatch :=
  mkLatch (count_ l) (Some awaiting).

(** [TryAwait], second half: [fetch_sub(1) > 1]. *)
Definition TryAwait_sub (l : WhenAllLatch) : bool * WhenAllLatch :=
  (1 <? count_ l, mkLatch (to_size (count_ l - 1)) (awaiting_ l)).

(** [Notify]: the handle to resume when this was the last decrement;
    [Some None] would resume a null handle. *)
Definition Notify (l : WhenAllLatch) : option (option handle) * WhenAllLatch :=
  (if count_ l =? 1 then Some (awaiting_ l) else None,
   mkLatch (to_size (count_ l - 1)) (awaiting_ l)).

(** ** WhenAllTask: the owner of a child's frame *)

Record WhenAllTask := mkTask { handle_ : option handle }.
Definition WhenAllTask_ctor (h : handle) : WhenAllTask := mkTask (Some h).
Definition WhenAllTask_dtor (t : WhenAllTask) : list handle :=
  match handle_ t with Some h => [h] | None => [] end.
Definition WhenAllTask_move (other : WhenAllTask) : WhenAllTask * WhenAllTask :=
  (mkTask (handle_ other), mkTask None).
Definition WhenAllTask_assign (self : bool) (this other : WhenAllTask)
    : WhenAllTask * WhenAllTask * list handle :=
  if negb self then
    let destroyed := match handle_ this with Some h => [h] | None => [] end in
    (mkTask (handle_ other), mkTask None, destroyed)
  else (this, other, []).

#[export] Instance when_all_task_owner : UniqueOwner WhenAllTask handle :=
  { uo_make := WhenAllTask_ctor; uo_held := handle_; uo_dtor := WhenAllTask_dtor;
    uo_move := WhenAllTask_move; uo_assign := WhenAllTask_assign }.
#[export] Instance when_all_task_laws : OwnerLaws WhenAllTask handle.
Proof. split; try done; by intros [[m|]]. Qed.

(** ** The parent and its children *)

Section WhenAll.
Context {T : Type}.

(** A child coroutine: the [result_] of its promise is set by [return_value];
    [final_suspend] then notifies. *)
Inductive child :=
  | CNew
  | CRunning
  | CReturned (result_ : T)
  | CNotified (result_ : T).

Definition Result (c : child) : option T :=
  match c with CReturned v | CNotified v => Some v | _ => None end.

Inductive parent :=
  | PStarting (k : nat)               (* await_suspend: children below k are started *)
  | PStoring                          (* TryAwait, before the store *)
  | PSubbing                          (* TryAwait, before the decrement *)
  | PSuspended
  | PResumed (results : option (list T)).

Record wstate := WState {
  latch_ : WhenAllLatch;
  tasks_ : list child;
  par : parent;
  resumed : nat;                      (* how often the parent was resumed *)
  wub : bool;                         (* a resume of a null or running coroutine *)
}.

(** [await_resume]: the results in the order of the tasks; [None] if one has
    no result ([optional::value] on an empty optional). *)
Definition await_resume (tasks : list child) : option (list T) := mapM Result tasks.

(** [await_ready]: nothing to wait for. *)
Definition await_ready (tasks : list child) : bool := (length tasks =? 0)%nat.

Definition resume_parent (s : wstate) : wstate :=
  WState (latch_ s) (tasks_ s) (PResumed (await_resume (tasks_ s))) (S (resumed s)) (wub s).

(** The awaitable is constructed and [await_ready] is asked. *)
Definition winit (n : nat) : wstate :=
  let s := WState (WhenAllLatch_ctor (Z.of_nat n)) (replicate n CNew) (PStarting 0) 0 false in
  if await_ready (tasks_ s) then resume_parent s else s.

Inductive wlabel :=
  | WParent                    (* the parent's next step *)
  | WReturn (i : nat) (v : T)  (* child i returns v *)
  | WNotify (i : nat).         (* child i reaches final_suspend *)

Definition set_task (i : nat) (c : child) (s : wstate) : wstate :=
  WState (latch_ s) (<[i := c]> (tasks_ s)) (par s) (resumed s) (wub s).
Definition set_latch (l : WhenAllLatch) (s : wstate) : wstate :=
  WState l (tasks_ s) (par s) (resumed s) (wub s).
Definition set_par (p : parent) (s : wstate) : wstate :=
  WState (latch_ s) (tasks_ s) p (resumed s) (wub s).

Definition parent_handle : handle := 0%nat.

Definition parent_step (s : wstate) : option wstate :=
  match par s with
  | PStarting k =>
      (* for (auto& t : tasks_) t.Start(latch_); *)
      if (k <? length (tasks_ s))%nat then Some (set_par (PStarting (S k)) (set_task k CRunning s))
      else Some (set_par PStoring s)
  | PStoring => Some (set_par PSubbing (set_latch (TryAwait_store parent_handle (latch_ s)) s))
  | PSubbing =>
      let '(suspend, l) := TryAwait_sub (latch_ s) in
      let s' := set_latch l s in
      if suspend then Some (set_par PSuspended s') else Some (resume_parent s')
  | PSuspended | PResumed _ => None
  end.

Definition notify_step (i : nat) (v : T) (s : wstate) : wstate :=
  let '(res, l) := Notify (latch_ s) in
  let s' := set_latch l (set_task i (CNotified v) s) in
  match res with
  | None => s'
  | Some (Some h) =>
      match par s with
      | PSuspended => resume_parent s'
      | _ => WState (latch_ s') (tasks_ s') (par s') (resumed s') true
      end
  | Some None => WState (latch_ s') (tasks_ s') (par s') (resumed s') true
  end.

Definition wstep (l : wlabel) (s : wstate) : option wstate :=
  match l with
  | WParent => parent_step s
  | WReturn i v =>
      match tasks_ s !! i with
      | Some CRunning => Some (set_task i (CReturned v) s)
      | _ => None
      end
  | WNotify i =>
      match tasks_ s !! i with
      | Some (CReturned v) => Some (notify_step i v s)
      | _ => None
      end
  end.

(** ** Invariant *)

Definition unnotified (c : child) : nat := match c with CNotified _ => 0 | _ => 1 end.
Definition is_new (c : child) : bool := match c with CNew => true | _ => false end.
Definition sum_tasks (f : child → nat) (l : list child) : nat := sum_list (f <$> l).

(** The decrement the parent still owes. *)
Definition owed (p : parent) : nat :=
  match p with PStarting _ | PStoring | PSubbing => 1 | _ => 0 end.

Record winv (s : wstate) : Prop := {
  wi_count : (length (tasks_ s) > 0)%nat →
    count_ (latch_ s) = Z.of_nat (owed (par s) + sum_tasks unnotified (tasks_ s));
  wi_started i c : tasks_ s !! i = Some c →
    (is_new c = true ↔ match par s with PStarting k => k ≤ i | _ => False end%nat);
  wi_await : match par s with PStarting _ | PStoring => True | _ => (length (tasks_ s) > 0)%nat → awaiting_ (latch_ s) = Some parent_handle end;
  wi_suspended : par s = PSuspended → (sum_tasks unnotified (tasks_ s) > 0)%nat;
  wi_resumed : match par s with
    | PResumed r => resumed s = 1%nat ∧ sum_tasks unnotified (tasks_ s) = 0%nat ∧
        r = await_resume (tasks_ s) ∧ is_Some r
    | _ => resumed s = 0%nat
    end;
  wi_ub : wub s = false;
}.
End WhenAll.
Arguments child : clear implicits.
Arguments parent : clear implicits.
Arguments wstate : clear implicits.
Arguments wlabel : clear implicits.

Section Theory.
Context {T : Type}.
Implicit Types (s : wstate T) (l : list (child T)).

Lemma sum_tasks_insert f l i c c' :
  l !! i = Some c → (sum_tasks f (<[i:=c']> l) + f c = sum_tasks f l + f c')%nat.
Proof. apply sum_list_insert. Qed.

Lemma unnotified_le l : (sum_tasks unnotified l ≤ length l)%nat.
Proof.
  pose proof (sum_list_le unnotified l 1) as Hl. rewrite Nat.mul_1_l in Hl.
  apply Hl. intros []; simpl; lia.
Qed.

Lemma all_notified l i c :
  sum_tasks unnotified l = 0%nat → l !! i = Some c → ∃ v, c = CNotified v.
Proof.
  intros Hs Hi. pose proof (sum_list_elem unnotified l i c Hi) as Hle.
  unfold sum_tasks in Hs. rewrite Hs in Hle. destruct c; simpl in Hle; try lia. eauto.
Qed.

Lemma all_notified_results l :
  sum_tasks unnotified l = 0%nat → ∃ vs, await_resume l = Some vs.
Proof.
  intros Hs. apply mapM_is_Some, Forall_lookup. intros i c Hi.
  destruct (all_notified l i c Hs Hi) as [v ->]. simpl. eauto.
Qed.

Lemma wstep_length la s s' : wstep la s = Some s' → length (tasks_ s') = length (tasks_ s).
Proof.
  unfold wstep, parent_step, notify_step, Notify, resume_parent, TryAwait_sub. intros Hst.
  repeat (case_match; simplify_eq/=); by rewrite ?length_insert.
Qed.

Lemma winit_inv n : Z.of_nat n + 1 < size_mod → winv (T := T) (winit n).
Proof.
  intros Hn. unfold winit. destruct n as [|n].
  { split; simpl; try done; intros; lia. }
  split; simpl; try done.
  - intros _. unfold sum_tasks. change (CNew :: replicate n CNew) with (replicate (S n) (@CNew T)).
    rewrite sum_list_replicate, to_size_id; unfold size_ok; simpl; lia.
  - intros i c Hi. change (CNew :: replicate n CNew) with (replicate (S n) (@CNew T)) in Hi.
    apply lookup_replicate in Hi as [-> _]. simpl. split; [lia|done].
Qed.

Lemma winv_start s k :
  winv s → par s = PStarting k → (k < length (tasks_ s))%nat →
  winv (set_par (PStarting (S k)) (set_task k CRunning s)).
Proof.
  intros [Hc Hn Ha Hs Hr Hu] Hp Hk. rewrite Hp in *.
  destruct (lookup_lt_is_Some_2 _ _ Hk) as [c Hck].
  assert (c = CNew) as -> by (pose proof (proj2 (Hn k c Hck)); destruct c; naive_solver).
  pose proof (sum_tasks_insert unnotified _ _ _ CRunning Hck) as Hi. simpl in Hi.
  split; simpl; rewrite ?length_insert; try done.
  - intros Hl. rewrite (Hc Hl). simpl. lia.
  - intros i c' [(<- & <- & _)|[Hne Hi']]%list_lookup_insert_Some; [simpl; split; [done|lia]|].
    rewrite (Hn i c' Hi'). simpl. lia.
Qed.

(** Only one child changes, and stays started. *)
Lemma winv_child s i c c' cnt :
  winv s → tasks_ s !! i = Some c → is_new c = false → is_new c' = false →
  cnt + Z.of_nat (unnotified c) = count_ (latch_ s) + Z.of_nat (unnotified c') →
  unnotified c = 1%nat →
  (par s = PSuspended → (0 < sum_tasks unnotified (<[i:=c']> (tasks_ s)))%nat) →
  winv (set_latch (mkLatch cnt (awaiting_ (latch_ s))) (set_task i c' s)).
Proof.
  intros [Hc Hn Ha Hs Hr Hu] Hi Hold Hnew Hcnt Hone Hsusp.
  pose proof (sum_tasks_insert unnotified _ _ _ c' Hi) as Hsum.
  pose proof (lookup_lt_Some _ _ _ Hi) as Hlt.
  split; simpl; rewrite ?length_insert; try done.
  - intros Hl. specialize (Hc Hl). lia.
  - intros j c2 [(<- & <- & _)|[Hne Hj]]%list_lookup_insert_Some; [|by apply Hn].
    rewrite <-(Hn i c Hi). by rewrite Hold, Hnew.
  - destruct (par s); try done. destruct Hr as (_ & Hz & _).
    pose proof (sum_list_elem unnotified _ _ _ Hi). unfold sum_tasks in Hz. lia.
Qed.

Lemma winv_notify s i v :
  Z.of_nat (length (tasks_ s)) + 1 < size_mod →
  winv s → tasks_ s !! i = Some (CReturned v) → winv (notify_step i v s).
Proof.
  intros Hb Hs Hi. pose proof (sum_tasks_insert unnotified _ _ _ (CNotified v) Hi) as Hsum.
  simpl in Hsum. pose proof (lookup_lt_Some _ _ _ Hi) as Hlt.
  pose proof (wi_count _ Hs ltac:(lia)) as Hc. pose proof (unnotified_le (tasks_ s)) as Hle.
  pose proof (sum_list_elem unnotified _ _ _ Hi) as Hpos. change (sum_list _) with (sum_tasks unnotified (tasks_ s)) in Hpos.
  simpl in Hpos.
  assert (owed (par s) ≤ 1)%nat by (destruct (par s); simpl; lia).
  assert (to_size (count_ (latch_ s) - 1) = count_ (latch_ s) - 1) as Hts
    by (apply to_size_id; unfold size_ok; lia).
  unfold notify_step, Notify. rewrite Hts. destruct (count_ (latch_ s) =? 1) eqn:Hone.
  - apply Z.eqb_eq in Hone.
    assert (sum_tasks unnotified (<[i:=CNotified v]> (tasks_ s)) = 0%nat) as Hz by lia.
    assert (owed (par s) = 0%nat) as Hown by lia.
    pose proof (wi_await _ Hs) as Ha. pose proof (wi_resumed _ Hs) as Hr.
    destruct (par s) as [| | | |r] eqn:Hp; try discriminate Hown;
      [|destruct Hr as (_ & Hr & _); lia].
    rewrite (Ha ltac:(lia)). destruct (all_notified_results _ Hz) as [vs Hvs].
    unfold resume_parent. simpl. split; simpl; rewrite ?Hvs, ?length_insert; try done.
    + intros _. lia.
    + intros j c2 [(<- & <- & _)|[Hne Hj]]%list_lookup_insert_Some; [done|].
      rewrite (wi_started _ Hs j c2 Hj), Hp. done.
    + by rewrite Hr.
    + apply (wi_ub _ Hs).
  - apply Z.eqb_neq in Hone.
    apply (winv_child s i (CReturned v)); [done|done|done|done|simpl; lia|done|].
    intros Hp. rewrite Hp in *. simpl in *. lia.
Qed.

Lemma winv_parent s s' :
  Z.of_nat (length (tasks_ s)) + 1 < size_mod →
  winv s → ((length (tasks_ s) > 0)%nat ∨ ∃ r, par s = PResumed r) → parent_step s = Some s' → winv s'.
Proof.
  intros Hb Hs Hne Hst. pose proof Hs as [Hc Hn Ha Hsu Hr Hu]. unfold parent_step in Hst.
  destruct (par s) as [k| | | |r] eqn:Hp; simplify_eq.
  - destruct (k <? length (tasks_ s))%nat eqn:Hk; simplify_eq.
    { apply Nat.ltb_lt in Hk. by apply winv_start. }
    apply Nat.ltb_ge in Hk. split; simpl; try done.
    intros i c Hi. rewrite (Hn i c Hi). apply lookup_lt_Some in Hi. lia.
  - by split.
  - destruct Hne as [Hne|[? ?]]; [|done]. specialize (Hc Hne). specialize (Ha Hne). simpl in Hc.
    pose proof (unnotified_le (tasks_ s)).
    unfold TryAwait_sub in Hst. rewrite to_size_id in Hst by (unfold size_ok; lia).
    destruct (1 <? count_ (latch_ s)) eqn:Hlt; simplify_eq.
    + apply Z.ltb_lt in Hlt. split; simpl; try done; intros; lia.
    + apply Z.ltb_ge in Hlt.
      assert (sum_tasks unnotified (tasks_ s) = 0%nat) as Hz by lia.
      destruct (all_notified_results _ Hz) as [vs Hvs].
      unfold resume_parent. split; simpl; rewrite ?Hvs; try done; [lia|]. by rewrite Hr.
Qed.

(** The invariant with the number of children. *)
Definition winv_n (n : nat) s : Prop :=
  winv s ∧ length (tasks_ s) = n ∧ ((length (tasks_ s) > 0)%nat ∨ ∃ r, par s = PResumed r).

Lemma winv_n_step n la s s' :
  Z.of_nat n + 1 < size_mod → winv_n n s → wstep la s = Some s' → winv_n n s'.
Proof.
  intros Hb (Hs & Hlen & Hne) Hst. unfold winv_n.
  rewrite (wstep_length la s s' Hst). destruct la as [|i v|i]; simpl in Hst.
  - assert (winv s') by (eapply winv_parent; [by rewrite Hlen|done..]).
    split_and!; [done..|]. destruct Hne as [|[r Hr]]; [by left|].
    unfold parent_step in Hst. by rewrite Hr in Hst.
  - destruct (tasks_ s !! i) as [[| | |]|] eqn:Hi; simplify_eq.
    split_and!; [|done|left; by eapply lookup_lt_Some in Hi; lia].
    replace (set_task i (CReturned v) s) with
      (set_latch (mkLatch (count_ (latch_ s)) (awaiting_ (latch_ s))) (set_task i (CReturned v) s))
      by by destruct s as [[] ? ? ? ?].
    apply (winv_child s i CRunning); try done. intros Hp.
    pose proof (sum_tasks_insert unnotified _ _ _ (CReturned v) Hi). simpl in *.
    pose proof (wi_suspended _ Hs Hp). lia.
  - destruct (tasks_ s !! i) as [[| |v|]|] eqn:Hi; simplify_eq.
    split_and!; [|done|left; by eapply lookup_lt_Some in Hi; lia].
    by apply winv_notify.
Qed.

Definition when_all_reachable (n : nat) s : Prop := reachable wstep (winit n) s.

Lemma when_all_inv n s :
  Z.of_nat n + 1 < size_mod → when_all_reachable n s → winv_n n s.
Proof.
  intros Hb. apply reachable_inv; [|intros; by eapply winv_n_step].
  split_and!; [by apply winit_inv|..].
  - unfold winit. case_match; simpl; by rewrite length_replicate.
  - unfold winit. destruct n; simpl; [right; eauto|left; lia].
Qed.

(** ** Termination *)

Definition child_work (c : child T) : nat :=
  match c with CNew => 3 | CRunning => 2 | CReturned _ => 1 | CNotified _ => 0 end.
Definition parent_work (p : parent T) : nat :=
  match p with PStarting _ => 4 | PStoring => 3 | PSubbing => 2 | PSuspended => 1 | PResumed _ => 0 end.
Definition work s : nat := parent_work (par s) + sum_tasks child_work (tasks_ s).

Lemma work_step n la s s' : winv_n n s → wstep la s = Some s' → (work s' < work s)%nat.
Proof.
  intros (Hs & _ & _) Hst. unfold work. destruct la as [|i v|i]; simpl in Hst.
  - unfold parent_step in Hst. destruct (par s) as [k| | | |] eqn:Hp; simplify_eq.
    + case_match eqn:Hk; simplify_eq; simpl; [|lia]. apply Nat.ltb_lt in Hk.
      destruct (lookup_lt_is_Some_2 _ _ Hk) as [c Hck].
      pose proof (sum_tasks_insert child_work _ _ _ CRunning Hck) as Hi.
      pose proof (wi_started _ Hs k c Hck) as Hn. rewrite Hp in Hn.
      assert (is_new c = true) as Hnew by by apply Hn.
      destruct c; try discriminate Hnew. simpl in *. lia.
    + simpl. lia.
    + unfold TryAwait_sub in Hst. case_match; simplify_eq; simpl; lia.
  - destruct (tasks_ s !! i) as [[| | |]|] eqn:Hi; simplify_eq. simpl.
    pose proof (sum_tasks_insert child_work _ _ _ (CReturned v) Hi). simpl in *. lia.
  - destruct (tasks_ s !! i) as [[| |v|]|] eqn:Hi; simplify_eq.
    pose proof (sum_tasks_insert child_work _ _ _ (CNotified v) Hi). simpl in *.
    unfold notify_step, Notify. destruct (count_ (latch_ s) =? 1); simpl; [|lia].
    destruct (awaiting_ (latch_ s)); simpl; [|lia]. destruct (par s); simpl in *; lia.
Qed.

Lemma work_run n ls s s' :
  Z.of_nat n + 1 < size_mod → winv_n n s → run wstep ls s = Some s' →
  (length ls + work s' ≤ work s)%nat.
Proof.
  intros Hb. revert s. induction ls as [|l ls IH]; intros s Hs Hrun; simplify_eq/=; [lia|].
  destruct (wstep l s) as [s1|] eqn:Hst; simplify_eq/=.
  pose proof (work_step n l s s1 Hs Hst).
  specialize (IH s1 (winv_n_step n l s s1 Hb Hs Hst) Hrun). lia.
Qed.

Lemma work_init n : (work (winit n) ≤ 3 * n + 4)%nat.
Proof.
  unfold work, winit. destruct n as [|n]; [cbv; lia|]. simpl.
  change (CNew :: replicate n CNew) with (replicate (S n) (@CNew T)).
  unfold sum_tasks. rewrite sum_list_replicate. simpl. lia.
Qed.
End Theory.

(** ** What WhenAll promises *)

(** C10. Fork/join: however the children interleave with each other and with
    the parent, a null or running coroutine is never resumed, the parent goes
    on at most once, and when it does all children have run to completion, past
    their last access to the latch, and the results are exactly the values the
    children returned, in the order of the tasks. *)
Theorem when_all_join (T : Type) (n : nat) (s : wstate T) :
  Z.of_nat n + 1 < size_mod → when_all_reachable n s →
  wub s = false ∧ (resumed s ≤ 1)%nat ∧
  (∀ r, par s = PResumed r →
     resumed s = 1%nat ∧ ∃ vs, r = Some vs ∧ length vs = n ∧
       ∀ i, tasks_ s !! i = CNotified <$> vs !! i).
Proof.
  intros Hb (Hs & Hlen & _)%(when_all_inv n s Hb). split_and!.
  - apply (wi_ub _ Hs).
  - pose proof (wi_resumed _ Hs) as Hr. destruct (par s); lia.
  - intros r Hp. pose proof (wi_resumed _ Hs) as Hr. rewrite Hp in Hr.
    destruct Hr as (Hone & Hz & -> & [vs Hvs]). split; [done|]. exists vs.
    pose proof Hvs as Hall. apply mapM_Some in Hall.
    split_and!; [done|by rewrite <-(Forall2_length _ _ _ Hall)|].
    intros i. destruct (tasks_ s !! i) as [c|] eqn:Hi.
    + destruct (all_notified _ _ _ Hz Hi) as [v ->].
      destruct (Forall2_lookup_l _ _ _ _ _ Hall Hi) as (v' & -> & Hv). by simplify_eq/=.
    + destruct (vs !! i) as [v|] eqn:Hv; [|done].
      destruct (Forall2_lookup_r _ _ _ _ _ Hall Hv) as (c & Hc & _). congruence.
Qed.

(** Two children; the second finishes while the parent stores its handle, the
    first resumes the parent. *)
Definition when_all_demo : list (wlabel nat) :=
  [WParent; WParent; WReturn 1 22; WParent; WNotify 1; WParent; WParent; WReturn 0 11; WNotify 0]%nat.

Lemma when_all_join_witness :
  ∃ s, run wstep when_all_demo (winit 2) = Some s ∧ par s = PResumed (Some [11; 22]%nat) ∧
  (wub s = false ∧ (resumed s ≤ 1)%nat ∧
   (∀ r, par s = PResumed r →
     resumed s = 1%nat ∧ ∃ vs, r = Some vs ∧ length vs = 2%nat ∧
       ∀ i, tasks_ s !! i = CNotified <$> vs !! i)).
Proof.
  eexists. split; [vm_compute; reflexivity|]. split; [reflexivity|].
  apply when_all_join; [done|]. apply reachable_run. exists when_all_demo. vm_compute. reflexivity.
Defined.

(** C11. WhenAll completes: no execution takes more than [3 n + 4] steps, and
    an execution can stop only when the parent has been resumed or when a
    child is still running its own code. *)
Theorem when_all_completes (T : Type) (n : nat) (s : wstate T) :
  Z.of_nat n + 1 < size_mod → when_all_reachable n s →
  (∀ ls s', run (wstep (T:=T)) ls (winit n) = Some s' → (length ls ≤ 3 * n + 4)%nat) ∧
  ((∃ vs, par s = PResumed (Some vs)) ∨ (∃ i, tasks_ s !! i = Some CRunning) ∨
   (∃ l s', wstep l s = Some s')).
Proof.
  intros Hb Hr. pose proof (when_all_inv n s Hb Hr) as Hs. split.
  - intros ls s' Hrun. pose proof (work_init (T:=T) n).
    pose proof (work_run n ls (winit n) s' Hb (when_all_inv n _ Hb (reach_refl _ _)) Hrun). lia.
  - destruct Hs as (Hs & Hlen & _). destruct (par s) as [k| | | |r] eqn:Hp.
    1-3: right; right; exists WParent; simpl; unfold parent_step, TryAwait_sub; rewrite Hp;
      repeat case_match; eauto.
    + destruct (sum_list_pos _ _ (wi_suspended _ Hs Hp)) as (i & c & Hi & Hc).
      pose proof (wi_started _ Hs i c Hi) as Hn. rewrite Hp in Hn.
      destruct c as [| |v|]; simpl in Hc; try lia; [naive_solver|by right; left; exists i|].
      right; right. exists (WNotify i). simpl. rewrite Hi. eauto.
    + left. pose proof (wi_resumed _ Hs) as Hrs. rewrite Hp in Hrs.
      destruct Hrs as (_ & _ & _ & [vs ->]). eauto.
Qed.

Lemma when_all_completes_witness :
  ∃ s, run wstep (take 7 when_all_demo) (winit 2) = Some s ∧ par s = PSuspended ∧
  ((∀ ls s', run wstep ls (winit (T:=nat) 2) = Some s' → (length ls ≤ 3 * 2 + 4)%nat) ∧
  ((∃ vs, par s = PResumed (Some vs)) ∨ (∃ i, tasks_ s !! i = Some CRunning) ∨
   (∃ l s', wstep l s = Some s'))).
Proof.
  eexists. split; [vm_compute; reflexivity|]. split; [reflexivity|].
  apply when_all_completes; [done|]. apply reachable_run. exists (take 7 when_all_demo).
  vm_compute. reflexivity.
Defined.
