(* ===== verification/SyncObject.v ===== *)
(** * Awaitable synchronisation objects and their clients

    Every primitive of [include/hotcoco/sync/] follows one protocol: a
    coroutine awaits the object ([await_ready], then [await_suspend] when that
    returned false), and somebody else's release hands back coroutine handles
    that are resumed after the object's [std::mutex] is dropped.  This file
    states that protocol once.  [SyncObject] is the interface the primitives
    implement, [SyncLaws] what they promise about their waiter queues, and the
    machine below runs any number of coroutines against one object, at the
    granularity of the object's critical sections.  Theorems proved here
    against the interface hold for AsyncMutex, AsyncSemaphore, AsyncRWLock,
    AsyncEvent and AsyncLatch. *)
From S2P Require Import Prelude Progress.

(** ** The interface *)

(** [S] is the object's state, [K] the kinds of await it offers and [R] its
    release operations. *)
Class SyncObject (S K R : Type) := {
  so_ready : K → S → bool * S;             (* await_ready *)
  so_suspend : K → handle → S → bool * S;  (* await_suspend; true = suspended *)
  so_try : K → S → bool * S;               (* a non-suspending attempt *)
  so_release : R → S → S * list handle;    (* new state, handles to resume *)
  so_leave : K → option R;                 (* what the guard's destructor calls *)
  so_public : R → bool;                    (* callable without a guard *)
}.

Class SyncLaws (S K R : Type) `{SyncObject S K R, EqDecision K} := {
  so_queue : K → S → list handle;
  (* the kind of the waiters a release wakes *)
  so_wakes : R → S → K;
  so_ready_queue k k' s : so_queue k' (so_ready k s).2 = so_queue k' s;
  so_try_queue k k' s : so_queue k' (so_try k s).2 = so_queue k' s;
  so_suspend_queue k k' h s :
    so_queue k' (so_suspend k h s).2 =
    so_queue k' s ++ (if (so_suspend k h s).1 && bool_decide (k = k') then [h] else []);
  so_release_queue r k' s :
    so_queue k' s =
    (if bool_decide (so_wakes r s = k') then (so_release r s).2 else []) ++
    so_queue k' (so_release r s).1;
}.

(** ** Coroutines *)

(** Where a coroutine stands with respect to the object.  [Entering] is the
    gap between the two critical sections of one [co_await], in which other
    threads may run; [Granted] says a [resume()] of the coroutine has been
    decided under the lock but not executed yet. *)
Inductive phase (K : Type) :=
  | Idle
  | Entering (k : K)
  | Waiting (k : K)
  | Granted (k : K)
  | Holding (k : K).
Arguments Idle {K}.
Arguments Entering {K} k.
Arguments Waiting {K} k.
Arguments Granted {K} k.
Arguments Holding {K} k.

Inductive label (K R : Type) :=
  | LAwait (h : handle) (k : K)    (* co_await: await_ready *)
  | LSuspend (h : handle)          (* co_await: await_suspend *)
  | LTry (h : handle) (k : K)      (* TryLock *)
  | LResume (h : handle)           (* the pending resume() runs *)
  | LLeave (h : handle)            (* the guard goes out of scope *)
  | LExtern (r : R).               (* a public release operation *)
Arguments LAwait {K R} h k.
Arguments LSuspend {K R} h.
Arguments LTry {K R} h k.
Arguments LResume {K R} h.
Arguments LLeave {K R} h.
Arguments LExtern {K R} r.

#[export] Instance phase_eq_dec {K} `{EqDecision K} : EqDecision (phase K).
Proof. solve_decision. Defined.

(** The system: the object, the phase of every coroutine, and ghost history.
    [ub] records that a handle was resumed that was not suspended here: the
    undefined behaviour [coroutine_handle::resume] has in that case. *)
Record sys (S K R : Type) := Sys {
  obj : S;
  phases : gmap handle (phase K);
  ub : bool;
  waits : list (K * handle);     (* successful suspensions, in order *)
  grants : list (K * handle);    (* wake-ups, in order *)
  externs : list R;              (* public releases, latest first *)
}.
Arguments Sys {S K R}.
Arguments obj {S K R}.
Arguments phases {S K R}.
Arguments ub {S K R}.
Arguments waits {S K R}.
Arguments grants {S K R}.
Arguments externs {S K R}.

Section Machine.
Context {S K R : Type} `{SyncObject S K R}.
Abbreviation sys := (sys S K R).

Definition init (o : S) : sys := Sys o ∅ false [] [] [].

Definition phase_in (s : sys) (h : handle) : phase K := phase_of Idle (phases s) h.

Definition set_obj (o : S) (s : sys) : sys :=
  Sys o (phases s) (ub s) (waits s) (grants s) (externs s).
Definition set_phase (h : handle) (p : phase K) (s : sys) : sys :=
  Sys (obj s) (<[h:=p]> (phases s)) (ub s) (waits s) (grants s) (externs s).
Definition log_wait (k : K) (h : handle) (s : sys) : sys :=
  Sys (obj s) (phases s) (ub s) (waits s ++ [(k, h)]) (grants s) (externs s).
Definition log_extern (r : R) (s : sys) : sys :=
  Sys (obj s) (phases s) (ub s) (waits s) (grants s) (r :: externs s).

(** The wake-up of one handle a release returned. *)
Definition grant_one (s : sys) (h : handle) : sys :=
  match phase_in s h with
  | Waiting k =>
      Sys (obj s) (<[h:=Granted k]> (phases s)) (ub s) (waits s)
          (grants s ++ [(k, h)]) (externs s)
  | _ => Sys (obj s) (phases s) true (waits s) (grants s) (externs s)
  end.
Definition grant_all (w : list handle) (s : sys) : sys := foldl grant_one s w.

Definition do_release (r : R) (s : sys) : sys :=
  let '(o, w) := so_release r (obj s) in grant_all w (set_obj o s).

Definition step (l : label K R) (s : sys) : option sys :=
  match l with
  | LAwait h k =>
      match phase_in s h with
      | Idle =>
          let '(b, o) := so_ready k (obj s) in
          Some (set_phase h (if b then Holding k else Entering k) (set_obj o s))
      | _ => None
      end
  | LSuspend h =>
      match phase_in s h with
      | Entering k =>
          let '(b, o) := so_suspend k h (obj s) in
          Some (if b then log_wait k h (set_phase h (Waiting k) (set_obj o s))
                else set_phase h (Holding k) (set_obj o s))
      | _ => None
      end
  | LTry h k =>
      match phase_in s h with
      | Idle =>
          let '(b, o) := so_try k (obj s) in
          Some (set_phase h (if b then Holding k else Idle) (set_obj o s))
      | _ => None
      end
  | LResume h =>
      match phase_in s h with
      | Granted k => Some (set_phase h (Holding k) s)
      | _ => None
      end
  | LLeave h =>
      match phase_in s h with
      | Holding k =>
          match so_leave k with
          | Some r => Some (do_release r (set_phase h Idle s))
          | None => Some (set_phase h Idle s)
          end
      | _ => None
      end
  | LExtern r =>
      if so_public r then Some (do_release r (log_extern r s)) else None
  end.

(** What keeps an object in use: an owner leaves, a woken coroutine runs. *)
Definition handover (l : label K R) : bool :=
  match l with LLeave _ | LResume _ => true | _ => false end.

(** The coroutines that own the object in kind [k], or are about to. *)
Definition owns `{EqDecision K} (k : K) (p : phase K) : bool :=
  match p with
  | Granted k' | Holding k' => bool_decide (k = k')
  | _ => false
  end.
Definition owners `{EqDecision K} (k : K) (s : sys) : nat := count (owns k) (phases s).

Definition by_kind `{EqDecision K} (k : K) (l : list (K * handle)) : list handle :=
  (filter (λ kh, kh.1 = k) l).*2.
End Machine.

(** ** Theory of the machine *)

Section Theory.
Context {S K R : Type} `{SL : SyncLaws S K R}.
Abbreviation sys := (sys S K R).
Implicit Types (s : sys) (k : K) (h : handle) (w : list handle).

(** *** Phases, counts and logs under the elementary updates *)

Lemma phase_in_set_phase h h' p s :
  phase_in (set_phase h p s) h' = if decide (h = h') then p else phase_in s h'.
Proof. apply phase_of_set. Qed.

Lemma owners_set_phase k h p s :
  owners k (set_phase h p s) + Nat.b2n (owns k (phase_in s h)) =
  owners k s + Nat.b2n (owns k p).
Proof. by apply count_set. Qed.

Lemma by_kind_app k l1 l2 : by_kind k (l1 ++ l2) = by_kind k l1 ++ by_kind k l2.
Proof. unfold by_kind. by rewrite filter_app, fmap_app. Qed.

Lemma by_kind_tagged k k' w :
  by_kind k (pair k' <$> w) = if bool_decide (k' = k) then w else [].
Proof.
  unfold by_kind. induction w as [|h w IH]; simpl; [by case_bool_decide|].
  rewrite filter_cons. simpl. case_decide; case_bool_decide; simplify_eq/=; try done.
  f_equal. by rewrite IH.
Qed.

Lemma by_kind_all k l : (∀ k', k' = k) → by_kind k l = l.*2.
Proof.
  intros Hk. unfold by_kind. induction l as [|[k' h] l IH]; [done|].
  rewrite filter_cons, decide_True by apply Hk. simpl. by f_equal.
Qed.

(** Waking a set of handles that all wait in kind [k]. *)
Lemma grant_all_spec k w s :
  NoDup w → (∀ h, h ∈ w → phase_in s h = Waiting k) →
  obj (grant_all w s) = obj s ∧ ub (grant_all w s) = ub s ∧
  waits (grant_all w s) = waits s ∧ externs (grant_all w s) = externs s ∧
  grants (grant_all w s) = grants s ++ (pair k <$> w) ∧
  (∀ h, phase_in (grant_all w s) h =
        if decide (h ∈ w) then Granted k else phase_in s h) ∧
  (∀ k', owners k' (grant_all w s) =
         owners k' s + (if bool_decide (k = k') then length w else 0)).
Proof.
  unfold grant_all. revert s. induction w as [|h w IH]; intros s Hnd Hw.
  { simpl. rewrite app_nil_r. split_and!; try done.
    - intros k'. case_bool_decide; lia. }
  simpl foldl. apply NoDup_cons in Hnd as [Hh Hnd].
  assert (phase_in s h = Waiting k) as Hp by (apply Hw; set_solver).
  assert (grant_one s h = Sys (obj s) (<[h:=Granted k]> (phases s)) (ub s) (waits s)
            (grants s ++ [(k, h)]) (externs s)) as Hg.
  { unfold grant_one. by rewrite Hp. }
  assert (∀ h', phase_in (grant_one s h) h' =
            if decide (h = h') then Granted k else phase_in s h') as Hph.
  { intros h'. rewrite Hg. apply phase_of_set. }
  destruct (IH (grant_one s h) Hnd) as (-> & -> & -> & -> & -> & Hph' & Hown).
  { intros h' Hh'. rewrite Hph, decide_False; [apply Hw; set_solver|]. set_solver. }
  rewrite Hg. simpl. split_and!; try done.
  - by rewrite <-app_assoc.
  - intros h'. rewrite <-Hg, Hph', Hph.
    repeat case_decide; try done; set_solver.
  - intros k'. rewrite <-Hg, Hown.
    pose proof (count_set Idle (owns k') (phases s) h (Granted k) eq_refl) as Hc.
    unfold phase_in in Hp. rewrite Hp in Hc. unfold owners.
    rewrite Hg. simpl in *. rewrite (bool_decide_ext (k' = k) (k = k')) in Hc by done.
    case_bool_decide; simpl in *; lia.
Qed.

(** *** Well-formed systems *)

(** The waiter queues hold exactly the suspended coroutines, once each, no
    handle was resumed that was not suspended, and wake-ups happen in the
    order of the suspensions. *)
Record wf (s : sys) : Prop := {
  wf_ub : ub s = false;
  wf_nodup k : NoDup (so_queue k (obj s));
  wf_waiting k h : h ∈ so_queue k (obj s) ↔ phase_in s h = Waiting k;
  wf_fifo k : by_kind k (waits s) = by_kind k (grants s) ++ so_queue k (obj s);
}.

(** A step that leaves the queues and the waiting coroutines alone. *)
Lemma wf_quiet s s' :
  wf s → ub s' = ub s → waits s' = waits s → grants s' = grants s →
  (∀ k, so_queue k (obj s') = so_queue k (obj s)) →
  (∀ k h, phase_in s' h = Waiting k ↔ phase_in s h = Waiting k) →
  wf s'.
Proof.
  intros [Hub Hnd Hwait Hfifo] Hu Hw Hg Hq Hp. split.
  - congruence.
  - intros k. by rewrite Hq.
  - intros k h. by rewrite Hq, Hp.
  - intros k. by rewrite Hq, Hw, Hg.
Qed.

Lemma wf_set_phase s o h p :
  wf s → (∀ k, so_queue k o = so_queue k (obj s)) →
  (∀ k, phase_in s h ≠ Waiting k) → (∀ k, p ≠ Waiting k) →
  wf (set_phase h p (set_obj o s)).
Proof.
  intros Hwf Hq Hold Hnew. eapply wf_quiet; try done.
  intros k h'. rewrite phase_in_set_phase. case_decide; subst; [|done].
  change (phase_in (set_obj o s) h') with (phase_in s h'). naive_solver.
Qed.

Lemma wf_do_release r s : wf s → wf (do_release r s).
Proof.
  intros [Hub Hnd Hwait Hfifo]. unfold do_release.
  destruct (so_release r (obj s)) as [o w] eqn:Hrel.
  pose proof (λ k', so_release_queue r k' (obj s)) as Hq.
  rewrite Hrel in Hq. simpl in Hq. set (kw := so_wakes r (obj s)) in *.
  assert (NoDup w ∧ ∀ h, h ∈ w → phase_in (set_obj o s) h = Waiting kw) as [Hndw Hww].
  { specialize (Hq kw). rewrite bool_decide_eq_true_2 in Hq by done. split.
    - pose proof (Hnd kw) as Hn. rewrite Hq in Hn. by apply NoDup_app in Hn as [? _].
    - intros h Hh. apply Hwait. rewrite Hq. set_solver. }
  destruct (grant_all_spec kw w (set_obj o s) Hndw Hww)
    as (Ho & Hu & Hwt & _ & Hg & Hph & _). simpl in *.
  split.
  - by rewrite Hu.
  - intros k. rewrite Ho. pose proof (Hnd k) as Hn. rewrite Hq in Hn.
    by apply NoDup_app in Hn as (_ & _ & ?).
  - intros k h. rewrite Ho, Hph.
    change (phase_in (set_obj o s) h) with (phase_in s h) in *.
    pose proof (Hwait k h) as Hk. rewrite Hq in Hk.
    pose proof (Hnd k) as Hn. rewrite Hq in Hn.
    destruct (decide (h ∈ w)) as [Hin|Hin].
    + split; [|done]. intros Hin'. exfalso.
      assert (phase_in s h = Waiting k) as Hpk by (apply Hk; set_solver).
      assert (phase_in s h = Waiting kw) as Hpw by (by apply Hww).
      assert (kw = k) as -> by congruence.
      rewrite bool_decide_eq_true_2 in Hn by done.
      apply NoDup_app in Hn as (_ & Hd & _). by eapply Hd.
    + rewrite <-Hk. case_bool_decide; set_solver.
  - intros k. rewrite Ho, Hwt, Hg, by_kind_app, by_kind_tagged, <-app_assoc.
    simpl. rewrite Hfifo. f_equal. rewrite Hq. done.
Qed.

(** Every step of every coroutine keeps the system well formed. *)
Lemma wf_step l s s' : wf s → step l s = Some s' → wf s'.
Proof.
  intros Hwf. destruct l as [h k|h|h k|h|h|r]; simpl; intros Hst.
  - destruct (phase_in s h) eqn:Hp; simplify_eq.
    pose proof (so_ready_queue k) as Hq. specialize (λ k', Hq k' (obj s)).
    destruct (so_ready k (obj s)) as [b o]; simplify_eq/=.
    apply wf_set_phase; try done; [by rewrite Hp|by destruct b].
  - destruct (phase_in s h) eqn:Hp; simplify_eq.
    pose proof (λ k', so_suspend_queue k k' h (obj s)) as Hq.
    destruct (so_suspend k h (obj s)) as [b o]. simpl in Hq. destruct b; simplify_eq/=.
    + destruct Hwf as [Hub Hnd Hwait Hfifo]. split; simpl; [done| | |].
      * intros k'. rewrite Hq. apply NoDup_app. split_and!; [done| |].
        -- intros h' Hh'. case_bool_decide; [|set_solver]. intros ->%list_elem_of_singleton.
           apply Hwait in Hh'. congruence.
        -- case_bool_decide; [apply NoDup_singleton|constructor].
      * intros k' h'. rewrite Hq, elem_of_app, Hwait.
        change (phase_in (log_wait k h (set_phase h (Waiting k) (set_obj o s))) h')
          with (phase_in (set_phase h (Waiting k) s) h').
        rewrite phase_in_set_phase. case_decide; subst.
        -- rewrite Hp. case_bool_decide; set_solver.
        -- case_bool_decide; set_solver.
      * intros k'. rewrite Hq, by_kind_app, Hfifo, <-app_assoc. f_equal. f_equal.
        exact (by_kind_tagged k' k [h]).
    + apply wf_set_phase; try done; [|by rewrite Hp].
      intros k'. rewrite Hq. simpl. by rewrite app_nil_r.
  - destruct (phase_in s h) eqn:Hp; simplify_eq.
    pose proof (so_try_queue k) as Hq. specialize (λ k', Hq k' (obj s)).
    destruct (so_try k (obj s)) as [b o]; simplify_eq/=.
    apply wf_set_phase; try done; [by rewrite Hp|by destruct b].
  - destruct (phase_in s h) eqn:Hp; simplify_eq.
    apply (wf_set_phase s (obj s) h); try done. by rewrite Hp.
  - destruct (phase_in s h) eqn:Hp; simplify_eq.
    assert (wf (set_phase h Idle s)) as Hwf'.
    { apply (wf_set_phase s (obj s) h); try done. by rewrite Hp. }
    destruct (so_leave k) as [r|]; simplify_eq; [|done]. by apply wf_do_release.
  - destruct (so_public r); simplify_eq. apply wf_do_release.
    by eapply wf_quiet.
Qed.

Lemma wf_init o : (∀ k, so_queue k o = []) → wf (init o).
Proof.
  intros Hq. split; simpl; intros; rewrite ?Hq; try done; [constructor|].
  unfold phase_in, init. simpl. rewrite phase_of_empty. split; [set_solver|done].
Qed.

Lemma wf_reachable o s :
  (∀ k, so_queue k o = []) → reachable step (init o) s → wf s.
Proof.
  intros Hq. apply reachable_inv; [by apply wf_init|]. intros; by eapply wf_step.
Qed.
End Theory.

#[export] Hint Resolve wf_step wf_reachable wf_init : coco.

(** ** From the machine to the object

    What the coroutines do to an object is captured by how many of them own it:
    an invariant of the object and its owner counts, preserved by each of the
    object's operations, holds in every reachable system. *)

Definition bump {K} `{EqDecision K} (k : K) (b : bool) (d : nat) (k' : K) : nat :=
  if b && bool_decide (k = k') then d else 0.

Record object_inv {S K R : Type} `{SyncLaws S K R}
    (B : nat) (J : S → (K → nat) → list R → Prop) : Prop := {
  inv_ext o n n' e : J o n e → (∀ k', n' k' = n k') → J o n' e;
  inv_ready k o n n' e :
    J o n e → (∀ k', n' k' ≤ B) → (∀ k', n' k' = n k' + bump k (so_ready k o).1 1 k') →
    J (so_ready k o).2 n' e;
  inv_try k o n n' e :
    J o n e → (∀ k', n' k' ≤ B) → (∀ k', n' k' = n k' + bump k (so_try k o).1 1 k') →
    J (so_try k o).2 n' e;
  inv_suspend k h o n n' e :
    J o n e → (∀ k', n' k' ≤ B) →
    (∀ k', n' k' = n k' + bump k (negb (so_suspend k h o).1) 1 k') →
    J (so_suspend k h o).2 n' e;
  inv_leave k r o n n' e :
    so_leave k = Some r → J o n e → (∀ k', n' k' ≤ B) → 0 < n k →
    (∀ k', n' k' + bump k true 1 k' =
           n k' + bump (so_wakes r o) true (length (so_release r o).2) k') →
    J (so_release r o).1 n' e;
  inv_drop k o n n' e :
    so_leave k = None → J o n e → 0 < n k →
    (∀ k', n' k' + bump k true 1 k' = n k') → J o n' e;
  inv_extern r o n n' e :
    so_public r = true → J o n e → (∀ k', n' k' ≤ B) →
    (∀ k', n' k' = n k' + bump (so_wakes r o) true (length (so_release r o).2) k') →
    J (so_release r o).1 n' (r :: e);
}.

Section Abstraction.
Context {S K R : Type} `{SL : SyncLaws S K R}.
Implicit Types (s : sys S K R).

Lemma owners_do_release r s k' :
  wf s →
  obj (do_release r s) = (so_release r (obj s)).1 ∧
  externs (do_release r s) = externs s ∧
  owners k' (do_release r s) =
  owners k' s + bump (so_wakes r (obj s)) true (length (so_release r (obj s)).2) k'.
Proof.
  intros [_ Hnd Hwait _]. unfold do_release.
  pose proof (so_release_queue r (so_wakes r (obj s)) (obj s)) as Hq.
  destruct (so_release r (obj s)) as [o w]. simpl in *.
  rewrite bool_decide_eq_true_2 in Hq by done.
  destruct (grant_all_spec (so_wakes r (obj s)) w (set_obj o s))
    as (-> & _ & _ & -> & _ & _ & Hown).
  - pose proof (Hnd (so_wakes r (obj s))) as Hn. rewrite Hq in Hn.
    by apply NoDup_app in Hn as [? _].
  - intros h Hh. apply Hwait. rewrite Hq. set_solver.
  - rewrite Hown. done.
Qed.

Lemma owners_move h p p' s s' k' :
  phase_in s h = p → phases s' = <[h:=p']> (phases s) →
  owners k' s' + Nat.b2n (owns k' p) = owners k' s + Nat.b2n (owns k' p').
Proof.
  intros Hp Hs. unfold owners. rewrite Hs, <-Hp. by apply count_set.
Qed.

Lemma owns_bump (k k' : K) :
  Nat.b2n (owns k' (Holding k)) = bump k true 1 k' ∧
  Nat.b2n (owns k' (Granted k)) = bump k true 1 k'.
Proof.
  unfold owns, bump. simpl. rewrite (bool_decide_ext (k' = k) (k = k')) by done.
  by case_bool_decide.
Qed.

Lemma size_grant_all w s : size (phases s) ≤ size (phases (grant_all w s)).
Proof.
  unfold grant_all. revert s. induction w as [|h w IH]; intros s; simpl; [done|].
  etrans; [|apply IH]. unfold grant_one.
  destruct (phase_in s h); simpl; auto using size_insert_le.
Qed.

Lemma size_do_release r s : size (phases s) ≤ size (phases (do_release r s)).
Proof.
  unfold do_release. destruct (so_release r (obj s)) as [o w].
  by etrans; [|apply size_grant_all].
Qed.

(** The set of coroutines that touched the object only grows. *)
Lemma size_step l s s' : step l s = Some s' → size (phases s) ≤ size (phases s').
Proof.
  intros Hst. destruct l as [h k|h|h k|h|h|r]; simpl in Hst;
    repeat (case_match; simplify_eq/=);
    try apply (size_insert_le (phases s)); try apply (size_do_release r s).
  - etrans; [apply (size_insert_le (phases s) h Idle)|].
    apply (size_do_release r (set_phase h Idle s)).
  - apply (size_do_release r (log_extern r s)).
Qed.

Lemma owners_le k s : owners k s ≤ size (phases s).
Proof. apply count_le_size. Qed.

(** Close an owner-count equation after coroutine [h] moved to phase [p]. *)
Ltac owner_move s h p t Hp :=
  let Hm := fresh in
  match goal with
  | |- context [owners ?k' t] =>
      pose proof (owners_move h _ p s t k' Hp eq_refl) as Hm
  end;
  rewrite ?(proj1 (owns_bump _ _)), ?(proj2 (owns_bump _ _)) in Hm; unfold bump in *; simpl in *; lia.

Lemma object_invariant_step B J l s s' :
  object_inv B J → wf s → size (phases s') ≤ B → J (obj s) (λ k, owners k s) (externs s) →
  step l s = Some s' → J (obj s') (λ k, owners k s') (externs s').
Proof.
  intros HJ Hwf HB Hs.
  assert (∀ t : sys S K R, phases t = phases s' → ∀ k, owners k t ≤ B) as Hle.
  { intros t Ht k. etrans; [apply owners_le|by rewrite Ht]. }
  destruct l as [h k|h|h k|h|h|r]; simpl; intros Hst;
    try (destruct (phase_in s h) eqn:Hp; simplify_eq).
  - pose proof (inv_ready B J HJ k (obj s)) as HI.
    destruct (so_ready k (obj s)) as [b o]; simplify_eq/=.
    eapply HI; [done|by apply Hle|]. intros k'. destruct b.
    + owner_move s h (Holding k) (set_phase h (Holding k) (set_obj o s)) Hp.
    + owner_move s h (Entering k) (set_phase h (Entering k) (set_obj o s)) Hp.
  - pose proof (inv_suspend B J HJ k h (obj s)) as HI.
    destruct (so_suspend k h (obj s)) as [b o]. simpl in HI.
    destruct b; simplify_eq/=; (eapply HI; [done|by apply Hle|]; intros k').
    + owner_move s h (Waiting k)
        (log_wait k h (set_phase h (Waiting k) (set_obj o s))) Hp.
    + owner_move s h (Holding k) (set_phase h (Holding k) (set_obj o s)) Hp.
  - pose proof (inv_try B J HJ k (obj s)) as HI.
    destruct (so_try k (obj s)) as [b o]; simplify_eq/=.
    eapply HI; [done|by apply Hle|]. intros k'. destruct b.
    + owner_move s h (Holding k) (set_phase h (Holding k) (set_obj o s)) Hp.
    + owner_move s h (@Idle K) (set_phase h Idle (set_obj o s)) Hp.
  - eapply (inv_ext B J HJ); [exact Hs|]. intros k'.
    owner_move s h (Holding k) (set_phase h (Holding k) s) Hp.
  - assert (wf (set_phase h Idle s)) as Hwf'.
    { apply (wf_set_phase s (obj s) h); try done. by rewrite Hp. }
    assert (0 < owners k s) as Hpos.
    { apply (count_pos Idle _ _ h); [done|]. unfold phase_in in Hp. rewrite Hp.
      by apply bool_decide_eq_true_2. }
    assert (∀ k', owners k' (set_phase h Idle s) + bump k true 1 k' = owners k' s)
      as Hidle by (intros k'; owner_move s h (@Idle K) (set_phase h Idle s) Hp).
    destruct (so_leave k) as [r|] eqn:Hl; simplify_eq.
    + destruct (owners_do_release r (set_phase h Idle s) k Hwf') as (-> & -> & _).
      eapply (inv_leave B J HJ k r); [done|exact Hs|by apply Hle|done|]. intros k'.
      destruct (owners_do_release r (set_phase h Idle s) k' Hwf') as (_ & _ & ->).
      specialize (Hidle k'). simpl. lia.
    + by eapply (inv_drop B J HJ k).
  - destruct (so_public r) eqn:Hpub; simplify_eq.
    assert (wf (log_extern r s)) as Hwf' by (by eapply wf_quiet).
    destruct (owners_do_release r (log_extern r s) (so_wakes r (obj s)) Hwf')
      as (-> & -> & _).
    eapply (inv_extern B J HJ r); [done|exact Hs|by apply Hle|]. intros k'.
    by destruct (owners_do_release r (log_extern r s) k' Hwf') as (_ & _ & ->).
Qed.

(** An object invariant holds in every reachable system. *)
Lemma object_invariant B J o s :
  object_inv B J → (∀ k, so_queue k o = []) → J o (λ _, 0) [] →
  reachable step (init o) s → size (phases s) ≤ B →
  J (obj s) (λ k, owners k s) (externs s).
Proof.
  intros HJ Hq H0 Hr HB.
  enough (wf s ∧ (size (phases s) ≤ B →
    J (obj s) (λ k, owners k s) (externs s))) as [_ ?] by auto.
  clear HB. revert Hr. induction 1 as [|l s1 s2 Hr [Hwf IH] Hst];
    [split; [by apply wf_init|done]|].
  split; [by eapply wf_step|]. intros HB. eapply object_invariant_step; [done..| |done].
  apply IH. etrans; [|done]. by eapply size_step.
Qed.

(** Two coroutines inside at once need two owners. *)
Lemma holding_two k s h h' :
  h ≠ h' → phase_in s h = Holding k → phase_in s h' = Holding k → 2 ≤ owners k s.
Proof.
  intros Hne Hh Hh'. unfold phase_in in *.
  apply (count_two Idle _ _ h h'); [done..| |];
    rewrite ?Hh, ?Hh'; by apply bool_decide_eq_true_2.
Qed.

Lemma holding_owner k s h : phase_in s h = Holding k → 0 < owners k s.
Proof.
  intros Hh. apply (count_pos Idle _ _ h); [done|]. unfold phase_in in Hh.
  rewrite Hh. by apply bool_decide_eq_true_2.
Qed.

(** An owner is a coroutine that holds the object or is being resumed into it. *)
Lemma owner_exists k s :
  0 < owners k s → ∃ h, phase_in s h = Granted k ∨ phase_in s h = Holding k.
Proof.
  intros (h & p & Hl & Hp)%count_witness. exists h. unfold phase_in, phase_of.
  rewrite Hl. simpl. destruct p as [|?|?|k'|k']; try done;
    apply bool_decide_eq_true_1 in Hp as ->; auto.
Qed.

(** *** Hand-over: an owner leaves and a woken coroutine is resumed *)

Lemma resume_step s g k :
  phase_in s g = Granted k →
  step (LResume g) s = Some (set_phase g (Holding k) s).
Proof. intros Hg. simpl. by rewrite Hg. Qed.

Lemma do_release_granted r s g :
  wf s → g ∈ (so_release r (obj s)).2 →
  phase_in (do_release r s) g = Granted (so_wakes r (obj s)).
Proof.
  intros [_ Hnd Hwait _] Hg. unfold do_release.
  pose proof (so_release_queue r (so_wakes r (obj s)) (obj s)) as Hq.
  destruct (so_release r (obj s)) as [o w]. simpl in *.
  rewrite bool_decide_eq_true_2 in Hq by done.
  destruct (grant_all_spec (so_wakes r (obj s)) w (set_obj o s))
    as (_ & _ & _ & _ & _ & -> & _); [| |by rewrite decide_True].
  - pose proof (Hnd (so_wakes r (obj s))) as Hn. rewrite Hq in Hn.
    by apply NoDup_app in Hn as [? _].
  - intros h Hh. apply Hwait. rewrite Hq. set_solver.
Qed.

Lemma leave_step s h k r :
  phase_in s h = Holding k → so_leave k = Some r →
  step (LLeave h) s = Some (do_release r (set_phase h Idle s)).
Proof. intros Hh Hl. simpl. by rewrite Hh, Hl. Qed.

Lemma wf_leave s h k : wf s → phase_in s h = Holding k → wf (set_phase h Idle s).
Proof.
  intros Hwf Hh. apply (wf_set_phase s (obj s) h); try done. by rewrite Hh.
Qed.

Lemma leave_resume s h k r o w g :
  wf s → phase_in s h = Holding k → so_leave k = Some r →
  so_release r (obj s) = (o, w) → g ∈ w →
  ∃ s', run step [LLeave h; LResume g] s = Some s' ∧ obj s' = o ∧
    phase_in s' g = Holding (so_wakes r (obj s)).
Proof.
  intros Hwf Hh Hl Hrel Hg. set (kw := so_wakes r (obj s)).
  pose proof (wf_leave s h k Hwf Hh) as Hwf'.
  set (s1 := do_release r (set_phase h Idle s)).
  assert (phase_in s1 g = Granted kw) as Hg1.
  { apply (do_release_granted r _ g Hwf'). simpl. by rewrite Hrel. }
  exists (set_phase g (Holding kw) s1). split_and!.
  - cbn [run]. rewrite (leave_step s h k r Hh Hl). cbn [mbind option_bind].
    by rewrite (resume_step _ g kw).
  - destruct (owners_do_release r (set_phase h Idle s) kw Hwf') as (Ho & _ & _).
    unfold s1. simpl in *. by rewrite Ho, Hrel.
  - rewrite phase_in_set_phase, decide_True by done. done.
Qed.

(** *** What one step can do to the object *)

Inductive object_step s s' : Prop :=
  | os_none : obj s' = obj s → object_step s s'
  | os_ready k : obj s' = (so_ready k (obj s)).2 → object_step s s'
  | os_try k : obj s' = (so_try k (obj s)).2 → object_step s s'
  | os_suspend k h : obj s' = (so_suspend k h (obj s)).2 → object_step s s'
  | os_leave h k r :
      phase_in s h = Holding k → so_leave k = Some r →
      obj s' = (so_release r (obj s)).1 →
      (∀ g, g ∈ (so_release r (obj s)).2 →
            phase_in s' g = Granted (so_wakes r (obj s))) → object_step s s'
  | os_extern r :
      so_public r = true → obj s' = (so_release r (obj s)).1 →
      (∀ g, g ∈ (so_release r (obj s)).2 →
            phase_in s' g = Granted (so_wakes r (obj s))) → object_step s s'.

Lemma step_object l s s' : wf s → step l s = Some s' → object_step s s'.
Proof.
  intros Hwf Hst. destruct l as [h k|h|h k|h|h|r]; simpl in Hst;
    try (destruct (phase_in s h) eqn:Hp; simplify_eq).
  - apply (os_ready _ _ k). destruct (so_ready k (obj s)); by simplify_eq/=.
  - apply (os_suspend _ _ k h). destruct (so_suspend k h (obj s)) as [[] o]; by simplify_eq/=.
  - apply (os_try _ _ k). destruct (so_try k (obj s)); by simplify_eq/=.
  - by apply os_none.
  - destruct (so_leave k) as [r|] eqn:Hl; simplify_eq; [|by apply os_none].
    pose proof (wf_leave s h k Hwf Hp) as Hwf'.
    apply (os_leave _ _ h k r); [done|done| |].
    + by destruct (owners_do_release r _ k Hwf') as (-> & _).
    + intros g Hg. by apply (do_release_granted r _ g Hwf').
  - destruct (so_public r) eqn:Hpub; simplify_eq.
    assert (wf (log_extern r s)) as Hwf' by by eapply wf_quiet.
    apply (os_extern _ _ r); [done| |].
    + by destruct (owners_do_release r _ (so_wakes r (obj s)) Hwf') as (-> & _).
    + intros g Hg. by apply (do_release_granted r _ g Hwf').
Qed.

(** *** What one step does to the object and to every coroutine *)

Definition phase_after s (h : handle) (p : phase K) (h' : handle) : phase K :=
  if decide (h = h') then p else phase_in s h'.

Definition released_to s (r : R) (h' : handle) (p : phase K) : phase K :=
  if decide (h' ∈ (so_release r (obj s)).2) then Granted (so_wakes r (obj s)) else p.

Lemma phase_do_release r s h : wf s → phase_in (do_release r s) h = released_to s r h (phase_in s h).
Proof.
  intros [_ Hnd Hwait _]. unfold do_release, released_to.
  pose proof (so_release_queue r (so_wakes r (obj s)) (obj s)) as Hq.
  destruct (so_release r (obj s)) as [o w]. simpl in *.
  rewrite bool_decide_eq_true_2 in Hq by done.
  destruct (grant_all_spec (so_wakes r (obj s)) w (set_obj o s)) as (_ & _ & _ & _ & _ & -> & _); [| |done].
  - pose proof (Hnd (so_wakes r (obj s))) as Hn. rewrite Hq in Hn. by apply NoDup_app in Hn as [? _].
  - intros h' Hh. apply Hwait. rewrite Hq. set_solver.
Qed.

Lemma step_spec l s s' : wf s → step l s = Some s' →
  match l with
  | LAwait h k =>
      phase_in s h = Idle ∧ obj s' = (so_ready k (obj s)).2 ∧
      ∀ h', phase_in s' h' = phase_after s h (if (so_ready k (obj s)).1 then Holding k else Entering k) h'
  | LSuspend h => ∃ k,
      phase_in s h = Entering k ∧ obj s' = (so_suspend k h (obj s)).2 ∧
      ∀ h', phase_in s' h' = phase_after s h (if (so_suspend k h (obj s)).1 then Waiting k else Holding k) h'
  | LTry h k =>
      phase_in s h = Idle ∧ obj s' = (so_try k (obj s)).2 ∧
      ∀ h', phase_in s' h' = phase_after s h (if (so_try k (obj s)).1 then Holding k else Idle) h'
  | LResume h => ∃ k,
      phase_in s h = Granted k ∧ obj s' = obj s ∧ ∀ h', phase_in s' h' = phase_after s h (Holding k) h'
  | LLeave h => ∃ k, phase_in s h = Holding k ∧
      match so_leave k with
      | Some r => obj s' = (so_release r (obj s)).1 ∧
          ∀ h', phase_in s' h' = released_to s r h' (phase_after s h Idle h')
      | None => obj s' = obj s ∧ ∀ h', phase_in s' h' = phase_after s h Idle h'
      end
  | LExtern r => so_public r = true ∧ obj s' = (so_release r (obj s)).1 ∧
      ∀ h', phase_in s' h' = released_to s r h' (phase_in s h')
  end.
Proof.
  intros Hwf Hst. destruct l as [h k|h|h k|h|h|r]; simpl in Hst;
    try (destruct (phase_in s h) as [|k'|k'|k'|k'] eqn:Hp; simplify_eq).
  - destruct (so_ready k (obj s)) as [b o]. simplify_eq. split_and!; [done..|]. intros h'. apply phase_of_set.
  - exists k'. destruct (so_suspend k' h (obj s)) as [b o]. simplify_eq.
    split_and!; [done|by destruct b|]. intros h'. by destruct b; apply phase_of_set.
  - destruct (so_try k (obj s)) as [b o]. simplify_eq. split_and!; [done..|]. intros h'. apply phase_of_set.
  - exists k'. split_and!; [done..|]. intros h'. apply phase_of_set.
  - exists k'. split; [done|]. destruct (so_leave k') as [r|] eqn:Hl; simplify_eq; [|split; [done|intros h'; apply phase_of_set]].
    pose proof (wf_leave s h k' Hwf Hp) as Hwf'. split.
    + by destruct (owners_do_release r _ k' Hwf') as (-> & _).
    + intros h'. rewrite (phase_do_release r _ h' Hwf'). unfold released_to. simpl. by rewrite phase_in_set_phase.
  - destruct (so_public r) eqn:Hpub; simplify_eq. assert (wf (log_extern r s)) as Hwf' by by eapply wf_quiet.
    split_and!; [done| |].
    + by destruct (owners_do_release r _ (so_wakes r (obj s)) Hwf') as (-> & _).
    + intros h'. by rewrite (phase_do_release r _ h' Hwf').
Qed.

(** *** Handovers under way *)

(** The handovers that the present owners have still to do: one to leave, and
    one more for those that have not been resumed yet. *)
Definition granted (p : phase K) : bool := match p with Granted _ => true | _ => false end.
Definition owning (p : phase K) : bool := match p with Granted _ | Holding _ => true | _ => false end.
Definition busy s : nat := count owning (phases s) + count granted (phases s).

Lemma count_after f s s' h p : f Idle = false → (∀ h', phase_in s' h' = phase_after s h p h') →
  count f (phases s') + Nat.b2n (f (phase_in s h)) = count f (phases s) + Nat.b2n (f p).
Proof.
  intros Hf Hph. rewrite (count_ext Idle f (phases s') (<[h:=p]> (phases s)) Hf).
  - by apply (count_set Idle).
  - intros h'. fold (phase_in s' h'). rewrite Hph, phase_of_set. done.
Qed.

Lemma busy_after s s' h p : (∀ h', phase_in s' h' = phase_after s h p h') →
  busy s' + (Nat.b2n (owning (phase_in s h)) + Nat.b2n (granted (phase_in s h))) =
  busy s + (Nat.b2n (owning p) + Nat.b2n (granted p)).
Proof.
  intros Hph. unfold busy.
  pose proof (count_after owning s s' h p eq_refl Hph). pose proof (count_after granted s s' h p eq_refl Hph). lia.
Qed.

(** An owner can always be handed over. *)
Lemma owner_enabled s h : owning (phase_in s h) = true → enabled step handover s.
Proof.
  intros Ho. destruct (phase_in s h) as [| | |k|k] eqn:E; try done.
  - exists (LResume h), (set_phase h (Holding k) s). split; [done|]. by apply resume_step.
  - exists (LLeave h). simpl. rewrite E. destruct (so_leave k); eauto.
Qed.
End Abstraction.
