(* ===== verification/Mutex.v ===== *)
(** * AsyncMutex ([include/hotcoco/sync/mutex.hpp])

    The mutex as the code keeps it, a flag and a queue of suspended handles,
    its three critical sections, and what they guarantee to any number of
    coroutines: mutual exclusion, no lost wake-up, FIFO hand-over in a bounded
    number of steps. *)
From S2P Require Import Prelude Progress SyncObject.

Record AsyncMutex := mkMutex {
  locked_ : bool;
  waiters_ : list handle;
}.

Definition new_mutex : AsyncMutex := mkMutex false [].

(** [LockAwaitable::await_ready]: take the lock when it is free. *)
Definition Lock_await_ready (m : AsyncMutex) : bool * AsyncMutex :=
  if negb (locked_ m) then (true, mkMutex true (waiters_ m)) else (false, m).

(** [LockAwaitable::await_suspend]: the re-check under the lock; [true] means
    the coroutine stays suspended in the queue. *)
Definition Lock_await_suspend (h : handle) (m : AsyncMutex) : bool * AsyncMutex :=
  if negb (locked_ m) then (false, mkMutex true (waiters_ m))
  else (true, mkMutex (locked_ m) (waiters_ m ++ [h])).

(** [TryLockAwaitable]: always ready, [await_resume] does the attempt; [true]
    stands for an engaged [optional<ScopedLock>]. *)
Definition TryLock_await_resume (m : AsyncMutex) : bool * AsyncMutex :=
  if negb (locked_ m) then (true, mkMutex true (waiters_ m)) else (false, m).

(** [Unlock]: pass the lock to the first waiter, or free it.  The returned
    handles are resumed after the critical section. *)
Definition Unlock (m : AsyncMutex) : AsyncMutex * list handle :=
  match waiters_ m with
  | to_wake :: rest => (mkMutex (locked_ m) rest, [to_wake])
  | [] => (mkMutex false [], [])
  end.

#[export] Instance mutex_sync : SyncObject AsyncMutex unit unit := {
  so_ready _ := Lock_await_ready;
  so_suspend _ := Lock_await_suspend;
  so_try _ := TryLock_await_resume;
  so_release _ := Unlock;
  so_leave _ := Some tt;      (* ~ScopedLock calls Unlock *)
  so_public _ := false;       (* Unlock is private *)
}.

#[export] Instance mutex_laws : SyncLaws AsyncMutex unit unit.
Proof.
  refine {| so_queue _ m := waiters_ m; so_wakes _ _ := tt |}.
  - intros [] [] [[] w]; reflexivity.
  - intros [] [] [[] w]; reflexivity.
  - intros [] [] h [[] w]; simpl; [reflexivity|by rewrite app_nil_r].
  - intros [] [] [b [|h w]]; reflexivity.
Defined.

(** The systems that clients of one mutex can reach. *)
Abbreviation mutex_sys := (sys AsyncMutex unit unit).
Definition mutex_reachable (s : mutex_sys) : Prop :=
  reachable step (init new_mutex) s.

(** The flag counts the owner, and nobody waits for a free mutex. *)
Definition mutex_inv (m : AsyncMutex) (n : unit → nat) (_ : list unit) : Prop :=
  n tt = Nat.b2n (locked_ m) ∧ (locked_ m = false → waiters_ m = []).

Lemma mutex_inv_ok B : object_inv B mutex_inv.
Proof.
  split; unfold mutex_inv.
  - intros o n n' _ [? ?] Hn. by rewrite Hn.
  - intros [] [[] w] n n' _ [? ?] _ Hn; rewrite Hn; unfold bump; simpl in *; (split; [lia|naive_solver]).
  - intros [] [[] w] n n' _ [? ?] _ Hn; rewrite Hn; unfold bump; simpl in *; (split; [lia|naive_solver]).
  - intros [] h [[] w] n n' _ [? ?] _ Hn; rewrite Hn; unfold bump; simpl in *; (split; [lia|naive_solver]).
  - intros [] [] [b [|h w]] n n' _ _ [Hn Hw] _ Hpos Hn'; specialize (Hn' tt);
      destruct b; unfold bump in *; simpl in *; split; try done; lia.
  - done.
  - done.
Qed.

Lemma mutex_reachable_inv s :
  mutex_reachable s → mutex_inv (obj s) (λ k, owners k s) (externs s).
Proof.
  intros Hr. by apply (object_invariant (size (phases s)) _ new_mutex);
    [apply mutex_inv_ok|..].
Qed.

Lemma mutex_reachable_wf s : mutex_reachable s → wf s.
Proof. by apply wf_reachable. Qed.

#[export] Hint Resolve mutex_reachable_inv mutex_reachable_wf : coco.

Lemma mutex_waiting_locked s :
  mutex_reachable s → waiters_ (obj s) ≠ [] → owners tt s = 1.
Proof.
  intros [Hn Hw]%mutex_reachable_inv Hne. destruct (locked_ (obj s)); [done|].
  by specialize (Hw eq_refl).
Qed.

(** There is one owner, counting a coroutine about to be resumed as one. *)
Lemma mutex_one_owner s h h' :
  mutex_reachable s → owns tt (phase_in s h) = true → owns tt (phase_in s h') = true →
  h = h' ∧ locked_ (obj s) = true.
Proof.
  intros [Hn _]%mutex_reachable_inv Hh Hh'. unfold phase_in, owners in *.
  pose proof (count_pos Idle (owns tt) (phases s) h eq_refl Hh) as Hpos.
  split; [|destruct (locked_ (obj s)); [done|simpl in *; lia]].
  destruct (decide (h = h')) as [|Hne]; [done|].
  pose proof (count_two Idle (owns tt) (phases s) h h' eq_refl Hne Hh Hh').
  destruct (locked_ (obj s)); simpl in *; lia.
Qed.

(** How many handovers a coroutine still has to wait for. *)
Definition mutex_rank (h : handle) (m : nat) (s : mutex_sys) : Prop :=
  mutex_reachable s ∧
  ((phase_in s h = Granted tt ∧ m = 0) ∨
   ∃ j g, waiters_ (obj s) !! j = Some h ∧
     (phase_in s g = Holding tt ∧ m = 2 * j + 1 ∨ phase_in s g = Granted tt ∧ m = 2 * j + 2)).

Lemma mutex_rank_granted h s : mutex_reachable s → phase_in s h = Granted tt →
  enabled step handover s ∧ ∀ l s', step l s = Some s' →
    phase_in s' h = Holding tt ∨ (handover l = false ∧ phase_in s' h = Granted tt).
Proof.
  intros Hr Hh. pose proof (mutex_reachable_wf s Hr) as Hwf.
  assert (∀ g, owns tt (phase_in s g) = true → g = h) as Hone.
  { intros g Hg. by apply (mutex_one_owner s); [| |rewrite Hh]. }
  split; [by apply (owner_enabled s h); rewrite Hh|].
  intros l s' Hst. pose proof (step_spec l s s' Hwf Hst) as Hsp.
  destruct l as [g k|g|g k|g|g|r]; simpl in Hsp.
  - right. destruct Hsp as (Hp & _ & Hph). rewrite Hph. unfold phase_after. by rewrite decide_False by congruence.
  - right. destruct Hsp as (k & Hp & _ & Hph). rewrite Hph. unfold phase_after. by rewrite decide_False by congruence.
  - right. destruct Hsp as (Hp & _ & Hph). rewrite Hph. unfold phase_after. by rewrite decide_False by congruence.
  - left. destruct Hsp as ([] & Hp & _ & Hph). rewrite Hph, (Hone g) by by rewrite Hp.
    unfold phase_after. by rewrite decide_True.
  - destruct Hsp as ([] & Hp & _). rewrite (Hone g) in Hp by by rewrite Hp. congruence.
  - by destruct Hsp.
Qed.

Lemma mutex_rank_waiting h j g s : mutex_reachable s → waiters_ (obj s) !! j = Some h →
  owns tt (phase_in s g) = true →
  enabled step handover s ∧ ∀ l s', step l s = Some s' →
    (handover l = false ∧ waiters_ (obj s') !! j = Some h ∧ phase_in s' g = phase_in s g) ∨
    (handover l = true ∧ phase_in s g = Granted tt ∧ waiters_ (obj s') !! j = Some h ∧ phase_in s' g = Holding tt) ∨
    (handover l = true ∧ phase_in s g = Holding tt ∧
       match j with
       | O => phase_in s' h = Granted tt
       | S j => ∃ g', waiters_ (obj s') !! j = Some h ∧ phase_in s' g' = Granted tt
       end).
Proof.
  intros Hr Hj Hg. pose proof (mutex_reachable_wf s Hr) as Hwf.
  destruct (mutex_one_owner s g g Hr Hg Hg) as [_ Hl].
  assert (∀ g', owns tt (phase_in s g') = true → g' = g) as Hone.
  { intros g' Hg'. by apply (mutex_one_owner s). }
  split; [by apply (owner_enabled s g); destruct (phase_in s g)|].
  intros l s' Hst. pose proof (step_spec l s s' Hwf Hst) as Hsp.
  destruct l as [g' k|g'|g' k|g'|g'|r]; simpl in Hsp;
    unfold Lock_await_ready, Lock_await_suspend, TryLock_await_resume in Hsp; rewrite ?Hl in Hsp; simpl in Hsp.
  - left. destruct Hsp as (Hp & -> & Hph). split_and!; [done..|]. rewrite Hph. unfold phase_after.
    rewrite decide_False; [done|]. intros ->. by rewrite Hp in Hg.
  - left. destruct Hsp as (k & Hp & -> & Hph). split_and!; [done|by apply lookup_app_l_Some|]. rewrite Hph. unfold phase_after.
    rewrite decide_False; [done|]. intros ->. by rewrite Hp in Hg.
  - left. destruct Hsp as (Hp & -> & Hph). split_and!; [done..|]. rewrite Hph. unfold phase_after.
    rewrite decide_False; [done|]. intros ->. by rewrite Hp in Hg.
  - right; left. destruct Hsp as ([] & Hp & -> & Hph). assert (g' = g) as -> by (apply Hone; by rewrite Hp).
    split_and!; [done..|]. rewrite Hph. unfold phase_after. by rewrite decide_True.
  - right; right. destruct Hsp as ([] & Hp & -> & Hph). assert (g' = g) as -> by (apply Hone; by rewrite Hp).
    split_and!; [done..|]. unfold released_to in Hph. simpl in Hph. unfold Unlock in *.
    destruct (waiters_ (obj s)) as [|x rest]; [done|]. simpl in *. destruct j as [|j]; simpl in Hj.
    + injection Hj as ->. rewrite Hph, decide_True by set_solver. done.
    + exists x. split; [done|]. by rewrite Hph, decide_True by set_solver.
  - by destruct Hsp.
Qed.

Lemma mutex_ranked h : ranked step handover (λ s, phase_in s h = Holding tt) Nat.lt (mutex_rank h).
Proof.
  intros m s [Hr Hm]. right. assert (∀ l s', step l s = Some s' → mutex_reachable s') as Hr'.
  { intros l s' Hst. by eapply reach_step. }
  destruct Hm as [[Hh ->]|(j & g & Hj & Hg)].
  - destruct (mutex_rank_granted h s Hr Hh) as [He Hall]. split; [done|]. intros l s' Hst.
    destruct (Hall l s' Hst) as [?|[Hl Hh']]; [by left|]. right. exists 0. split; [|by right].
    split; [by eapply Hr'|by left].
  - destruct (mutex_rank_waiting h j g s Hr Hj) as [He Hall]; [by destruct Hg as [[-> _]|[-> _]]|].
    split; [done|]. intros l s' Hst. right.
    destruct (Hall l s' Hst) as [(Hl & Hj' & Hg')|[(Hl & Hg' & Hj' & Hh)|(Hl & Hg' & Hnext)]].
    + exists m. split; [|by right]. split; [by eapply Hr'|]. right. exists j, g. by rewrite Hg'.
    + exists (2 * j + 1). split; [|left; destruct Hg as [[Hg _]|[_ ->]]; [congruence|unfold Nat.lt; lia]].
      split; [by eapply Hr'|]. right. exists j, g. auto.
    + assert (m = 2 * j + 1) as -> by (destruct Hg as [[_ ->]|[Hg _]]; [done|congruence]).
      destruct j as [|j]; [exists 0|exists (2 * j + 2)]; (split; [split; [by eapply Hr'|]|left; unfold Nat.lt; lia]).
      * by left.
      * right. destruct Hnext as (g' & Hj' & Hg''). exists j, g'. auto.
Qed.

(** ** What AsyncMutex promises *)

(** C1. Mutual exclusion: whatever coroutines await, try, suspend and release
    the mutex in whatever order, no two of them are in the critical section
    together, and while one is, the mutex is marked locked. *)
Theorem mutex_exclusion s h h' :
  mutex_reachable s →
  phase_in s h = Holding tt → phase_in s h' = Holding tt →
  h = h' ∧ locked_ (obj s) = true.
Proof.
  intros [Hn _]%mutex_reachable_inv Hh Hh'.
  pose proof (holding_owner tt s h Hh) as Hpos.
  split; [|destruct (locked_ (obj s)); [done|simpl in *; lia]].
  destruct (decide (h = h')) as [|Hne]; [done|].
  pose proof (holding_two tt s h h' Hne Hh Hh').
  destruct (locked_ (obj s)); simpl in *; lia.
Qed.

(** Two coroutines contend, the second suspends and is handed the mutex. *)
Definition mutex_demo : list (label unit unit) :=
  [LAwait 1 tt; LAwait 2 tt; LSuspend 2; LLeave 1; LResume 2].

Lemma mutex_exclusion_witness :
  ∃ s, run step mutex_demo (init new_mutex) = Some s ∧
    phase_in s 2 = Holding tt ∧ (2 = 2 ∧ locked_ (obj s) = true).
Proof.
  eexists. split; [vm_compute; reflexivity|]. split; [vm_compute; reflexivity|].
  apply (mutex_exclusion _ 2 2); [|vm_compute; reflexivity..].
  apply reachable_run. exists mutex_demo. vm_compute. reflexivity.
Defined.

(** No lost wake-up and no wake-up out of turn: as long as the mutex has
    waiters there is exactly one coroutine that owns it or is about to be
    resumed into it, no handle is ever resumed that is not suspended in the
    queue, and the coroutines are woken in the order in which they suspended. *)
Theorem mutex_queue_served s :
  mutex_reachable s →
  ub s = false ∧
  (waiters_ (obj s) ≠ [] → ∃ h, ∀ h',
     phase_in s h' = Granted tt ∨ phase_in s h' = Holding tt ↔ h' = h) ∧
  (waits s).*2 = (grants s).*2 ++ waiters_ (obj s).
Proof.
  intros Hr. pose proof (mutex_reachable_wf s Hr) as Hwf. split_and!.
  - by apply wf_ub.
  - intros Hne. destruct (owner_exists tt s) as [h Hh].
    { rewrite (mutex_waiting_locked s Hr Hne); lia. }
    exists h. intros h'. split; [|by intros ->].
    intros Hh'. apply (mutex_one_owner s h' h Hr); [by destruct Hh' as [->| ->]|by destruct Hh as [->| ->]].
  - pose proof (wf_fifo s Hwf tt) as Hf. by rewrite !by_kind_all in Hf by by intros [].
Qed.

Lemma mutex_queue_served_witness :
  ∃ s, run step (take 3 mutex_demo) (init new_mutex) = Some s ∧
    waiters_ (obj s) = [2] ∧ (ub s = false ∧
  (waiters_ (obj s) ≠ [] → ∃ h, ∀ h',
     phase_in s h' = Granted tt ∨ phase_in s h' = Holding tt ↔ h' = h) ∧
  (waits s).*2 = (grants s).*2 ++ waiters_ (obj s)).
Proof.
  eexists. split; [vm_compute; reflexivity|]. split; [vm_compute; reflexivity|].
  apply mutex_queue_served. apply reachable_run. exists (take 3 mutex_demo).
  vm_compute. reflexivity.
Defined.

(** C2. Bounded waiting: a coroutine suspended at position [i] of the queue is
    in the critical section after at most [2 * i + 3] handovers (an owner
    releases, a woken coroutine resumes), whatever the schedule and whatever
    other coroutines lock, try and suspend in between; and until then the next
    handover is never blocked. *)
Theorem mutex_bounded_wait s i h :
  mutex_reachable s → waiters_ (obj s) !! i = Some h →
  within step handover (λ s', phase_in s' h = Holding tt) (2 * i + 3) s.
Proof.
  intros Hr Hi. destruct (owner_exists tt s) as (g & Hg).
  { rewrite (mutex_waiting_locked s Hr); [lia|]. intros E. by rewrite E in Hi. }
  destruct Hg as [Hg|Hg].
  - apply (within_ranked _ _ _ (mutex_rank h) _ (2 * i + 2)); [apply mutex_ranked| |lia].
    split; [done|]. right. exists i, g. auto.
  - apply (within_ranked _ _ _ (mutex_rank h) _ (2 * i + 1)); [apply mutex_ranked| |lia].
    split; [done|]. right. exists i, g. auto.
Qed.

Lemma mutex_bounded_wait_witness :
  ∃ s, run step (take 3 mutex_demo) (init new_mutex) = Some s ∧
    within step handover (λ s', phase_in s' 2 = Holding tt) (2 * 0 + 3) s.
Proof.
  eexists. split; [vm_compute; reflexivity|].
  apply mutex_bounded_wait; [|vm_compute; reflexivity].
  apply reachable_run. exists (take 3 mutex_demo). vm_compute. reflexivity.
Defined.
