(* ===== verification/Semaphore.v ===== *)
(** * AsyncSemaphore ([include/hotcoco/sync/semaphore.hpp])

    The counting semaphore: permits are conserved (held, in flight and available
    permits always add up), at most the initial number of coroutines is inside,
    a permit released while coroutines wait goes to the first of them, and so
    everybody who waits gets one, in a bounded number of handovers. *)
From S2P Require Import Prelude Progress SyncObject.

Record AsyncSemaphore := mkSem {
  count_ : Z;                  (* size_t *)
  waiters_ : list handle;
}.

Definition new_semaphore (initial_count : Z) : AsyncSemaphore := mkSem initial_count [].

(** [AcquireAwaitable::await_ready]. *)
Definition Acquire_await_ready (s : AsyncSemaphore) : bool * AsyncSemaphore :=
  if (0 <? count_ s)%Z then (true, mkSem (to_size (count_ s - 1)) (waiters_ s))
  else (false, s).

(** [AcquireAwaitable::await_suspend]; [true] means suspended. *)
Definition Acquire_await_suspend (h : handle) (s : AsyncSemaphore) : bool * AsyncSemaphore :=
  if (0 <? count_ s)%Z then (false, mkSem (to_size (count_ s - 1)) (waiters_ s))
  else (true, mkSem (count_ s) (waiters_ s ++ [h])).

(** [Release]: hand the permit to the first waiter, or return it. *)
Definition Release (s : AsyncSemaphore) : AsyncSemaphore * list handle :=
  match waiters_ s with
  | to_wake :: rest => (mkSem (count_ s) rest, [to_wake])
  | [] => (mkSem (to_size (count_ s + 1)) [], [])
  end.

(** [Available]. *)
Definition Available (s : AsyncSemaphore) : Z := count_ s.

#[export] Instance semaphore_sync : SyncObject AsyncSemaphore unit unit := {
  so_ready _ := Acquire_await_ready;
  so_suspend _ := Acquire_await_suspend;
  so_try _ s := (false, s);   (* no TryAcquire in the API *)
  so_release _ := Release;
  so_leave _ := Some tt;      (* ~Guard calls Release *)
  so_public _ := true;        (* Release is public *)
}.

#[export] Instance semaphore_laws : SyncLaws AsyncSemaphore unit unit.
Proof.
  refine {| so_queue _ s := waiters_ s; so_wakes _ _ := tt |}.
  - intros [] [] s. simpl. unfold Acquire_await_ready. by case_match.
  - done.
  - intros [] [] h s. simpl. unfold Acquire_await_suspend.
    case_match; simpl; by rewrite ?app_nil_r.
  - intros [] [] [c [|h w]]; reflexivity.
Defined.

Abbreviation sem_sys := (sys AsyncSemaphore unit unit).
Definition sem_reachable (n : Z) (s : sem_sys) : Prop :=
  reachable step (init (new_semaphore n)) s.

(** Permits never created out of thin air: the initial ones and those of the
    public [Release] calls.  The side condition excludes a count that would not
    fit in a [size_t]. *)
Definition permits (n : Z) (e : list unit) : Z := (n + Z.of_nat (length e))%Z.

Definition sem_inv (i : Z) (s : AsyncSemaphore) (n : unit → nat) (e : list unit) : Prop :=
  (permits i e < size_mod)%Z →
  (0 <= count_ s)%Z ∧ (Z.of_nat (n tt) + count_ s = permits i e)%Z ∧
  (waiters_ s ≠ [] → count_ s = 0%Z).

Lemma sem_inv_ok i B : object_inv B (sem_inv i).
Proof.
  split; unfold sem_inv, permits.
  - intros o n n' e HJ Hn Hb. specialize (HJ Hb). by rewrite Hn.
  - intros [] s n n' e HJ _ Hn Hb. specialize (HJ Hb) as (Hc & Hs & Hw). rewrite Hn.
    unfold bump. simpl. unfold Acquire_await_ready.
    destruct (0 <? count_ s)%Z eqn:Hlt; simpl; [|split_and!; auto; lia].
    apply Z.ltb_lt in Hlt. rewrite to_size_id by (unfold size_ok; lia).
    split_and!; [lia|lia|]. intros Hne. specialize (Hw Hne). lia.
  - intros [] s n n' e HJ _ Hn Hb. specialize (HJ Hb). by rewrite Hn, Nat.add_0_r.
  - intros [] h s n n' e HJ _ Hn Hb. specialize (HJ Hb) as (Hc & Hs & Hw). rewrite Hn.
    unfold bump. simpl. unfold Acquire_await_suspend.
    destruct (0 <? count_ s)%Z eqn:Hlt; simpl.
    + apply Z.ltb_lt in Hlt. rewrite to_size_id by (unfold size_ok; lia).
      split_and!; [lia|lia|]. intros Hne. specialize (Hw Hne). lia.
    + apply Z.ltb_ge in Hlt. split_and!; lia.
  - intros [] [] s n n' e _ HJ _ Hpos Hn Hb. specialize (HJ Hb) as (Hc & Hs & Hw).
    specialize (Hn tt). unfold bump in Hn. simpl in *. unfold Release in *.
    destruct (waiters_ s) as [|h w]; simpl in *.
    + rewrite to_size_id by (unfold size_ok; lia). split_and!; [lia|lia|done].
    + split_and!; [lia|lia|]. intros _. by apply Hw.
  - done.
  - intros [] s n n' e _ HJ _ Hn Hb. simpl length in *.
    destruct HJ as (Hc & Hs & Hw); [lia|].
    specialize (Hn tt). unfold bump in Hn. simpl in *. unfold Release in *.
    destruct (waiters_ s) as [|h w]; simpl in *.
    + rewrite to_size_id by (unfold size_ok; lia). split_and!; [lia|lia|done].
    + split_and!; [lia|lia|]. intros _. by apply Hw.
Qed.

Lemma sem_reachable_inv i s :
  (0 <= i)%Z → sem_reachable i s → sem_inv i (obj s) (λ k, owners k s) (externs s).
Proof.
  intros Hi Hr. apply (object_invariant (size (phases s)) _ (new_semaphore i));
    [apply sem_inv_ok|done| |done|done].
  unfold sem_inv, permits. simpl. intros. split_and!; try done; lia.
Qed.

Lemma sem_reachable_wf i s : sem_reachable i s → wf s.
Proof. by apply wf_reachable. Qed.

(** ** What AsyncSemaphore promises *)

(** C27. Permits are conserved: at every moment the coroutines inside (or being
    resumed into) the semaphore and the available permits add up to the initial
    count plus the public [Release] calls.  So no more coroutines are ever
    inside than there are permits, and [size_t] never wraps. *)
Theorem semaphore_conservation i s :
  (0 <= i)%Z → sem_reachable i s → (permits i (externs s) < size_mod)%Z →
  (Z.of_nat (owners tt s) + Available (obj s) = permits i (externs s))%Z ∧
  (Z.of_nat (owners tt s) <= permits i (externs s))%Z ∧ size_ok (Available (obj s)).
Proof.
  intros Hi Hr Hb. destruct (sem_reachable_inv i s Hi Hr Hb) as (Hc & Hs & _).
  unfold Available, size_ok. lia.
Qed.

(** Two permits, three coroutines, one extra public release. *)
Definition sem_demo : list (label unit unit) :=
  [LAwait 1 tt; LAwait 2 tt; LAwait 3 tt; LSuspend 3; LExtern tt; LResume 3; LLeave 1].

Lemma semaphore_conservation_witness :
  ∃ s, run step sem_demo (init (new_semaphore 2)) = Some s ∧ owners tt s = 2 ∧
  ((Z.of_nat (owners tt s) + Available (obj s) = permits 2 (externs s))%Z ∧
   (Z.of_nat (owners tt s) <= permits 2 (externs s))%Z ∧ size_ok (Available (obj s))).
Proof.
  eexists. split; [vm_compute; reflexivity|]. split; [vm_compute; reflexivity|].
  apply semaphore_conservation; [lia| |vm_compute; reflexivity].
  apply reachable_run. exists sem_demo. vm_compute. reflexivity.
Defined.

(** Permits are not hoarded: coroutines wait only while no permit is
    available, they are woken in FIFO order, once each, and a released permit
    goes to the first waiter without passing through the count, so no newcomer
    can overtake it. *)
Theorem semaphore_fifo_handoff i s :
  (0 <= i)%Z → sem_reachable i s → (permits i (externs s) < size_mod)%Z →
  (waiters_ (obj s) ≠ [] → Available (obj s) = 0%Z) ∧ ub s = false ∧
  (waits s).*2 = (grants s).*2 ++ waiters_ (obj s) ∧
  (∀ h rest, waiters_ (obj s) = h :: rest →
     Release (obj s) = (mkSem 0 rest, [h]) ∧
     Acquire_await_ready (fst (Release (obj s))) = (false, fst (Release (obj s)))).
Proof.
  intros Hi Hr Hb. destruct (sem_reachable_inv i s Hi Hr Hb) as (Hc & Hs & Hw).
  pose proof (sem_reachable_wf i s Hr) as Hwf. split_and!; [done|by apply wf_ub| |].
  - pose proof (wf_fifo s Hwf tt) as Hf. by rewrite !by_kind_all in Hf by by intros [].
  - intros h rest Hq. unfold Release. rewrite Hq. rewrite Hw by by rewrite Hq. done.
Qed.

Lemma semaphore_fifo_handoff_witness :
  ∃ s, run step (take 4 sem_demo) (init (new_semaphore 2)) = Some s ∧
    waiters_ (obj s) = [3] ∧ (
  (waiters_ (obj s) ≠ [] → Available (obj s) = 0%Z) ∧ ub s = false ∧
  (waits s).*2 = (grants s).*2 ++ waiters_ (obj s) ∧
  (∀ h rest, waiters_ (obj s) = h :: rest →
     Release (obj s) = (mkSem 0 rest, [h]) ∧
     Acquire_await_ready (fst (Release (obj s))) = (false, fst (Release (obj s))))).
Proof.
  eexists. split; [vm_compute; reflexivity|]. split; [vm_compute; reflexivity|].
  apply (semaphore_fifo_handoff 2); [lia| |vm_compute; reflexivity].
  apply reachable_run. exists (take 4 sem_demo). vm_compute. reflexivity.
Defined.

(** ** Everybody is served *)

(** While coroutines wait there is no permit to take, and each release serves
    the first of them; [g] of them are woken and not yet resumed. *)
Definition sem_rank (i : Z) (h : handle) (m : nat) (s : sem_sys) : Prop :=
  sem_reachable i s ∧ ∃ j, waiters_ (obj s) !! j = Some h ∧ m = 2 * j + count granted (phases s).

(** A waiter is woken: those that are woken are one more. *)
Lemma woken_one (s s' : sem_sys) x : phase_in s x = Waiting tt →
  (∀ h, phase_in s' h = if decide (h ∈ [x]) then Granted tt else phase_in s h) →
  count granted (phases s') = count granted (phases s) + 1.
Proof.
  intros Hx Hph. assert (∀ h, phase_in s' h = phase_after s x (Granted tt) h) as Hp.
  { intros h. rewrite Hph. unfold phase_after. destruct (decide (x = h)) as [->|Hne]; case_decide; set_solver. }
  pose proof (count_after granted s s' x _ eq_refl Hp) as E. rewrite Hx in E. simpl in E. lia.
Qed.

(** A release with waiters, [q] being the system without the releasing owner:
    the first waiter is woken, and the others move up. *)
Lemma sem_release_rank i h j (q s' : sem_sys) : sem_reachable i s' → wf q →
  waiters_ (obj q) !! j = Some h → obj s' = (Release (obj q)).1 →
  (∀ h', phase_in s' h' = released_to q tt h' (phase_in q h')) →
  phase_in s' h = Granted tt ∨ ∃ m, sem_rank i h m s' ∧ m + 1 = 2 * j + count granted (phases q).
Proof.
  intros Hr Hwf Hj Ho Hph. unfold released_to in Hph. simpl in Hph. unfold Release in Ho, Hph.
  destruct (waiters_ (obj q)) as [|x rest] eqn:Ew; [done|]. simpl in Ho, Hph.
  assert (phase_in q x = Waiting tt) as Hx by (apply (wf_waiting q Hwf tt); simpl; rewrite Ew; set_solver).
  pose proof (woken_one q s' x Hx Hph) as Hc. destruct j as [|j]; simpl in Hj.
  - left. injection Hj as ->. by rewrite Hph, decide_True by set_solver.
  - right. exists (2 * j + count granted (phases s')). split; [|lia]. split; [done|]. exists j. by rewrite Ho.
Qed.

Lemma sem_ranked i h : (0 < i)%Z →
  ranked step handover (λ s, phase_in s h = Granted tt ∨ (size_mod <= permits i (externs s))%Z) Nat.lt (sem_rank i h).
Proof.
  intros Hi m s [Hr (j & Hj & ->)]. destruct (Z.le_gt_cases size_mod (permits i (externs s))) as [|Hb]; [by left; right|].
  right. destruct (sem_reachable_inv i s ltac:(lia) Hr Hb) as (_ & Hown & Hw).
  pose proof (sem_reachable_wf i s Hr) as Hwf.
  assert (count_ (obj s) = 0%Z) as Hc by (apply Hw; intros E; by rewrite E in Hj). split.
  { destruct (owner_exists tt s) as [g Hg]; [unfold permits in Hown; lia|].
    apply (owner_enabled s g). by destruct Hg as [->| ->]. }
  intros l s' Hst. assert (sem_reachable i s') as Hr' by (by eapply reach_step).
  pose proof (step_spec l s s' Hwf Hst) as Hsp.
  destruct l as [g k|g|g k|g|g|[]]; simpl in Hsp; unfold Acquire_await_ready, Acquire_await_suspend in Hsp;
    rewrite ?Hc in Hsp; simpl in Hsp.
  - destruct Hsp as (Hp & Ho & Hph). pose proof (count_after granted s s' g _ eq_refl Hph) as E. rewrite Hp in E. simpl in E.
    right. eexists. split; [split; [done|]; exists j; by rewrite Ho|]. right. split; [done|lia].
  - destruct Hsp as (k & Hp & Ho & Hph). pose proof (count_after granted s s' g _ eq_refl Hph) as E. rewrite Hp in E. simpl in E.
    right. eexists. split; [split; [done|]; exists j; rewrite Ho; by split; [apply lookup_app_l_Some|]|]. right. split; [done|lia].
  - destruct Hsp as (Hp & Ho & Hph). pose proof (count_after granted s s' g _ eq_refl Hph) as E. rewrite Hp in E. simpl in E.
    right. eexists. split; [split; [done|]; exists j; by rewrite Ho|]. right. split; [done|lia].
  - destruct Hsp as (k & Hp & Ho & Hph). pose proof (count_after granted s s' g _ eq_refl Hph) as E. rewrite Hp in E. simpl in E.
    right. eexists. split; [split; [done|]; exists j; by rewrite Ho|]. left. unfold Nat.lt. lia.
  - destruct Hsp as ([] & Hp & Ho & Hph). set (q := set_phase g Idle s).
    assert (∀ h', phase_in q h' = phase_after s g Idle h') as Hq by (intros; apply phase_of_set).
    assert (wf q) as Hwq by (by eapply wf_leave).
    change (obj s) with (obj q) in Hj, Ho. change (released_to s) with (released_to q) in Hph. clearbody q.
    pose proof (count_after granted s q g _ eq_refl Hq) as E. rewrite Hp in E. simpl in E.
    destruct (sem_release_rank i h j q s' Hr' Hwq Hj Ho) as [?|(m & Hm & Em)]; [|by left; left|].
    { intros h'. rewrite Hph, Hq. done. }
    right. exists m. split; [done|]. left. unfold Nat.lt. lia.
  - destruct Hsp as (_ & Ho & Hph).
    destruct (sem_release_rank i h j s s' Hr' Hwf Hj Ho Hph) as [?|(m & Hm & Em)]; [by left; left|].
    right. exists m. split; [done|]. left. unfold Nat.lt. lia.
Qed.

(** C28. Bounded waiting: a coroutine suspended at position [j] of the queue of
    a semaphore with permits is woken with one after at most [2 * j + 1]
    handovers (an owner releases, a woken coroutine resumes), and one more for
    each coroutine that is woken already, whatever the schedule and whatever
    other coroutines acquire and release in between; and until then the next
    handover is never blocked.  (The public Release calls must not exceed what a
    [size_t] holds.) *)
Theorem semaphore_bounded_wait i s j h :
  (0 < i)%Z → sem_reachable i s → waiters_ (obj s) !! j = Some h →
  within step handover (λ s', phase_in s' h = Granted tt ∨ (size_mod <= permits i (externs s'))%Z)
    (2 * j + 1 + count granted (phases s)) s.
Proof.
  intros Hi Hr Hj. apply (within_ranked _ _ _ (sem_rank i h) _ (2 * j + count granted (phases s))); [by apply sem_ranked| |lia].
  split; [done|]. by exists j.
Qed.

Lemma semaphore_bounded_wait_witness :
  ∃ s, run step (take 4 sem_demo) (init (new_semaphore 2)) = Some s ∧ waiters_ (obj s) !! 0 = Some 3 ∧
    within step handover (λ s', phase_in s' 3 = Granted tt ∨ (size_mod <= permits 2 (externs s'))%Z)
      (2 * 0 + 1 + count granted (phases s)) s.
Proof.
  eexists. split; [vm_compute; reflexivity|]. split; [vm_compute; reflexivity|].
  apply (semaphore_bounded_wait 2); [lia| |vm_compute; reflexivity].
  apply reachable_run. exists (take 4 sem_demo). vm_compute. reflexivity.
Defined.
