(* ===== verification/RWLock.v ===== *)
(** * AsyncRWLock ([include/hotcoco/sync/rwlock.hpp])

    The reader-writer lock with its two queues and its alternation policy:
    arriving readers queue behind a waiting writer, a leaving writer admits all
    waiting readers at once.  Proved: writers exclude everybody, nobody waits
    for an unowned lock, and neither side can be starved by the other. *)
From S2P Require Import Prelude Progress SyncObject.

Record AsyncRWLock := mkRW {
  reader_count_ : Z;                 (* size_t *)
  write_locked_ : bool;
  read_waiters_ : list handle;
  write_waiters_ : list handle;
}.

Definition new_rwlock : AsyncRWLock := mkRW 0 false [] [].

Inductive rw_kind := Read | Write.
Inductive rw_release := ReadRelease | WriteRelease.

#[export] Instance rw_kind_eq_dec : EqDecision rw_kind.
Proof. solve_decision. Defined.

Definition is_empty {A} (l : list A) : bool := match l with [] => true | _ => false end.

(** The admission test of both [ReadLockAwaitable] critical sections. *)
Definition can_read (l : AsyncRWLock) : bool :=
  negb (write_locked_ l) && is_empty (write_waiters_ l).

Definition add_reader (l : AsyncRWLock) : AsyncRWLock :=
  mkRW (to_size (reader_count_ l + 1)) (write_locked_ l) (read_waiters_ l) (write_waiters_ l).

Definition ReadLock_await_ready (l : AsyncRWLock) : bool * AsyncRWLock :=
  if can_read l then (true, add_reader l) else (false, l).

Definition ReadLock_await_suspend (h : handle) (l : AsyncRWLock) : bool * AsyncRWLock :=
  if can_read l then (false, add_reader l)
  else (true, mkRW (reader_count_ l) (write_locked_ l) (read_waiters_ l ++ [h])
                   (write_waiters_ l)).

Definition can_write (l : AsyncRWLock) : bool :=
  negb (write_locked_ l) && (reader_count_ l =? 0)%Z.

Definition set_writer (l : AsyncRWLock) : AsyncRWLock :=
  mkRW (reader_count_ l) true (read_waiters_ l) (write_waiters_ l).

Definition WriteLock_await_ready (l : AsyncRWLock) : bool * AsyncRWLock :=
  if can_write l then (true, set_writer l) else (false, l).

Definition WriteLock_await_suspend (h : handle) (l : AsyncRWLock) : bool * AsyncRWLock :=
  if can_write l then (false, set_writer l)
  else (true, mkRW (reader_count_ l) (write_locked_ l) (read_waiters_ l)
                   (write_waiters_ l ++ [h])).

(** [ReadUnlock]: the last reader hands the lock to the first writer. *)
Definition ReadUnlock (l : AsyncRWLock) : AsyncRWLock * list handle :=
  let c := to_size (reader_count_ l - 1) in
  match write_waiters_ l with
  | w :: rest =>
      if (c =? 0)%Z then (mkRW c true (read_waiters_ l) rest, [w])
      else (mkRW c (write_locked_ l) (read_waiters_ l) (write_waiters_ l), [])
  | [] => (mkRW c (write_locked_ l) (read_waiters_ l) [], [])
  end.

(** [WriteUnlock]: all waiting readers first, otherwise the next writer. *)
Definition WriteUnlock (l : AsyncRWLock) : AsyncRWLock * list handle :=
  match read_waiters_ l, write_waiters_ l with
  | _ :: _, ww =>
      (mkRW (Z.of_nat (length (read_waiters_ l))) false [] ww, read_waiters_ l)
  | [], w :: rest => (mkRW (reader_count_ l) true [] rest, [w])
  | [], [] => (mkRW (reader_count_ l) false [] [], [])
  end.

#[export] Instance rw_sync : SyncObject AsyncRWLock rw_kind rw_release := {
  so_ready k := match k with Read => ReadLock_await_ready | Write => WriteLock_await_ready end;
  so_suspend k := match k with Read => ReadLock_await_suspend | Write => WriteLock_await_suspend end;
  so_try _ l := (false, l);      (* no TryLock in the API *)
  so_release r := match r with ReadRelease => ReadUnlock | WriteRelease => WriteUnlock end;
  so_leave k := Some (match k with Read => ReadRelease | Write => WriteRelease end);
  so_public _ := false;          (* both unlocks are private *)
}.

Definition rw_queue (k : rw_kind) (l : AsyncRWLock) : list handle :=
  match k with Read => read_waiters_ l | Write => write_waiters_ l end.

Definition rw_wakes (r : rw_release) (l : AsyncRWLock) : rw_kind :=
  match r with
  | ReadRelease => Write
  | WriteRelease => if is_empty (read_waiters_ l) then Write else Read
  end.

Lemma is_empty_spec {A} (l : list A) : is_empty l = true ↔ l = [].
Proof. by destruct l. Qed.

#[export] Instance rw_laws : SyncLaws AsyncRWLock rw_kind rw_release.
Proof.
  refine {| so_queue := rw_queue; so_wakes := rw_wakes |}.
  - intros [] [] l; simpl; unfold ReadLock_await_ready, WriteLock_await_ready; by case_match.
  - done.
  - intros [] [] h l; simpl; unfold ReadLock_await_suspend, WriteLock_await_suspend;
      case_match; simpl; by rewrite ?app_nil_r.
  - intros [] k [c b rw ww]; simpl; unfold ReadUnlock, WriteUnlock; simpl.
    + destruct ww; [by destruct k|]. by destruct (_ =? 0)%Z, k.
    + destruct rw, ww, k; simpl; by rewrite ?app_nil_r.
Defined.

Abbreviation rw_sys := (sys AsyncRWLock rw_kind rw_release).
Definition rw_reachable (s : rw_sys) : Prop := reachable step (init new_rwlock) s.

(** The fields count the owners; the lock is never both read and write locked;
    a free lock has no waiters; readers wait only behind a writer. *)
Record rw_inv (l : AsyncRWLock) (n : rw_kind → nat) (e : list rw_release) : Prop := {
  rwi_readers : reader_count_ l = Z.of_nat (n Read);
  rwi_writer : n Write = Nat.b2n (write_locked_ l);
  rwi_excl : write_locked_ l = true → n Read = 0;
  rwi_free : write_locked_ l = false → n Read = 0 →
             read_waiters_ l = [] ∧ write_waiters_ l = [];
  rwi_behind : write_locked_ l = false → write_waiters_ l = [] → read_waiters_ l = [];
}.

(** Owner counts after an acquisition or a release, kind by kind. *)
Ltac rw_counts Hn :=
  let Hr := fresh "Hr" in let Hw := fresh "Hw" in
  pose proof (Hn Read) as Hr; pose proof (Hn Write) as Hw;
  unfold bump in Hr, Hw; simpl in Hr, Hw.

Lemma can_write_spec l : can_write l = true ↔ write_locked_ l = false ∧ reader_count_ l = 0%Z.
Proof. unfold can_write. rewrite andb_true_iff, negb_true_iff, Z.eqb_eq. done. Qed.

Lemma can_read_spec l : can_read l = true ↔ write_locked_ l = false ∧ write_waiters_ l = [].
Proof. unfold can_read. by rewrite andb_true_iff, negb_true_iff, is_empty_spec. Qed.

Section Invariant.
Context (B : nat) (HB : (Z.of_nat B < size_mod)%Z).

Lemma rw_read_acquire l n n' e :
  rw_inv l n e → can_read l = true → n' Read ≤ B →
  n' Read = n Read + 1 → n' Write = n Write → rw_inv (add_reader l) n' e.
Proof using HB.
  intros [Hr Hw Hx Hf Hb] [Hl Hq]%can_read_spec HB' Hr' Hw'.
  assert (size_ok (reader_count_ l + 1)) by (unfold size_ok; lia).
  split; simpl; rewrite ?Hl, ?Hq, ?to_size_id by done; try done; try lia.
  - rewrite Hw', Hw. by rewrite Hl.
  - intros. by apply Hb.
Qed.

Lemma rw_write_acquire l n n' e :
  rw_inv l n e → can_write l = true →
  n' Read = n Read → n' Write = n Write + 1 → rw_inv (set_writer l) n' e.
Proof.
  intros [Hr Hw Hx Hf Hb] [Hl Hc]%can_write_spec Hr' Hw'. rewrite Hl in Hw.
  split; simpl in *; try done; lia.
Qed.

Lemma rw_read_wait h l n n' e :
  rw_inv l n e → can_read l = false → (∀ k, n' k = n k) →
  rw_inv (mkRW (reader_count_ l) (write_locked_ l) (read_waiters_ l ++ [h])
               (write_waiters_ l)) n' e.
Proof.
  intros [Hr Hw Hx Hf Hb] Hc Hn. split; simpl; rewrite ?Hn; try done.
  - intros Hl H0. destruct (Hf Hl H0) as [_ Hq].
    by rewrite (proj2 (can_read_spec l)) in Hc.
  - intros Hl Hq. by rewrite (proj2 (can_read_spec l)) in Hc.
Qed.

Lemma rw_write_wait h l n n' e :
  rw_inv l n e → can_write l = false → (∀ k, n' k = n k) →
  rw_inv (mkRW (reader_count_ l) (write_locked_ l) (read_waiters_ l)
               (write_waiters_ l ++ [h])) n' e.
Proof.
  intros [Hr Hw Hx Hf Hb] Hc Hn. split; simpl; rewrite ?Hn; try done.
  - intros Hl H0. rewrite (proj2 (can_write_spec l)) in Hc; [done|].
    rewrite Hr, H0. done.
  - intros _ Hq. by destruct (write_waiters_ l).
Qed.

Lemma rw_read_leave l n n' e :
  rw_inv l n e → 0 < n Read → n' Read = n Read - 1 →
  n' Write = n Write + length (ReadUnlock l).2 → n' Read ≤ B →
  rw_inv (ReadUnlock l).1 n' e.
Proof using HB.
  intros [Hr Hw Hx Hf Hb] Hpos Hr' Hw' HB'. unfold ReadUnlock in *.
  assert (to_size (reader_count_ l - 1) = Z.of_nat (n' Read)) as Hc.
  { rewrite to_size_id by (unfold size_ok; lia). lia. }
  assert (write_locked_ l = false) as Hl.
  { destruct (write_locked_ l); [|done]. specialize (Hx eq_refl). lia. }
  destruct (write_waiters_ l) as [|w rest] eqn:Hq; simpl in *.
  - split; simpl; rewrite ?Hl in *; try done; try lia. intros. by split; [apply Hb|].
  - destruct (Z.eqb_spec (to_size (reader_count_ l - 1)) 0) as [H0|H0]; simpl in *;
      (split; simpl; rewrite ?Hl in *; simpl in *; try done; try lia).
Qed.

Lemma rw_write_leave l n n' e :
  rw_inv l n e → 0 < n Write →
  n' Read = n Read + (if is_empty (read_waiters_ l) then 0 else length (WriteUnlock l).2) →
  n' Write + 1 = n Write + (if is_empty (read_waiters_ l) then length (WriteUnlock l).2 else 0) →
  rw_inv (WriteUnlock l).1 n' e.
Proof.
  intros [Hr Hw Hx Hf Hb] Hpos Hr' Hw'.
  destruct (write_locked_ l) eqn:Hl; [|simpl in Hw; lia].
  specialize (Hx eq_refl). unfold WriteUnlock in *.
  destruct (read_waiters_ l) as [|r rs]; destruct (write_waiters_ l) as [|w rest];
    simpl in *; (split; simpl in *; try done; try lia).
Qed.

Lemma rw_inv_ok : object_inv B rw_inv.
Proof using HB.
  split.
  - intros o n n' e [Hr Hw Hx Hf Hb] Hn. split; by rewrite ?Hn.
  - intros [] l n n' e HJ HB' Hn; simpl in *;
      unfold ReadLock_await_ready, WriteLock_await_ready in *;
      case_match eqn:Hc; rw_counts Hn; simpl.
    + eapply rw_read_acquire; eauto with lia.
    + destruct HJ; split; rewrite ?Hr, ?Hw, ?Nat.add_0_r; done.
    + eapply rw_write_acquire; eauto with lia.
    + destruct HJ; split; rewrite ?Hr, ?Hw, ?Nat.add_0_r; done.
  - intros k o n n' e HJ _ Hn. rw_counts Hn.
    destruct HJ; split; rewrite ?Hr, ?Hw, ?Nat.add_0_r; done.
  - intros [] h l n n' e HJ HB' Hn; simpl in *;
      unfold ReadLock_await_suspend, WriteLock_await_suspend in *;
      case_match eqn:Hc; rw_counts Hn; simpl.
    + eapply rw_read_acquire; eauto with lia.
    + eapply rw_read_wait; eauto. intros []; lia.
    + eapply rw_write_acquire; eauto with lia.
    + eapply rw_write_wait; eauto. intros []; lia.
  - intros [] r l n n' e Hl HJ HB' Hpos Hn; simpl in Hl; simplify_eq/=; rw_counts Hn.
    + eapply rw_read_leave; eauto with lia.
    + eapply rw_write_leave; eauto; destruct (is_empty _); simpl in *; lia.
  - done.
  - done.
Qed.
End Invariant.

Lemma rw_reachable_inv s :
  rw_reachable s → (Z.of_nat (size (phases s)) < size_mod)%Z →
  rw_inv (obj s) (λ k, owners k s) (externs s).
Proof.
  intros Hr HB. apply (object_invariant (size (phases s)) _ new_rwlock);
    [by apply rw_inv_ok|by intros []| |done|done].
  by split.
Qed.

Lemma rw_reachable_wf s : rw_reachable s → wf s.
Proof. by apply wf_reachable; intros []. Qed.

(** ** What AsyncRWLock promises *)

(** The number of coroutine frames fits in a 64-bit address space. *)
Definition frames_fit (s : rw_sys) : Prop := (Z.of_nat (size (phases s)) < size_mod)%Z.

(** C3. Readers and writers exclude each other: while a coroutine holds the
    write lock no other coroutine holds the lock in either mode, and
    [reader_count_] is exactly the number of coroutines that hold it, or are
    being resumed into it, for reading. *)
Theorem rwlock_exclusion s h k' h' :
  rw_reachable s → frames_fit s →
  phase_in s h = Holding Write → phase_in s h' = Holding k' →
  h = h' ∧ reader_count_ (obj s) = Z.of_nat (owners Read s) ∧ owners Read s = 0.
Proof.
  intros Hr HB Hh Hh'. destruct (rw_reachable_inv s Hr HB) as [Hrc Hwl Hx _ _].
  pose proof (holding_owner Write s h Hh) as Hpos.
  assert (write_locked_ (obj s) = true) as Hl.
  { destruct (write_locked_ (obj s)); [done|simpl in *; lia]. }
  specialize (Hx Hl). rewrite Hl in Hwl. simpl in Hwl. split_and!; [|done..].
  destruct (decide (h = h')) as [|Hne]; [done|]. destruct k'.
  - pose proof (holding_owner Read s h' Hh'). lia.
  - pose proof (holding_two Write s h h' Hne Hh Hh'). lia.
Qed.

(** A reader, a writer that queues, a reader that queues behind it, the writer
    admitted by the last reader, then the second reader by the writer. *)
Definition rw_demo : list (label rw_kind rw_release) :=
  [LAwait 1 Read; LAwait 2 Write; LSuspend 2; LAwait 3 Read; LSuspend 3;
   LLeave 1; LResume 2; LLeave 2; LResume 3].

Lemma rwlock_exclusion_witness :
  ∃ s, run step (take 7 rw_demo) (init new_rwlock) = Some s ∧
  (2 = 2 ∧ reader_count_ (obj s) = Z.of_nat (owners Read s) ∧ owners Read s = 0).
Proof.
  eexists. split; [vm_compute; reflexivity|].
  apply (rwlock_exclusion _ 2 Write 2); [|vm_compute; reflexivity..].
  apply reachable_run. exists (take 7 rw_demo). vm_compute. reflexivity.
Defined.

(** C4. No waiter is stranded: coroutines wait only while some coroutine owns
    the lock or is being resumed into it, readers wait only behind a writer, no
    handle is resumed that is not suspended, and within each kind the wake-ups
    follow the order of the suspensions. *)
Theorem rwlock_no_stranded_waiter s :
  rw_reachable s → frames_fit s →
  ub s = false ∧
  (read_waiters_ (obj s) ≠ [] ∨ write_waiters_ (obj s) ≠ [] →
     ∃ k h, phase_in s h = Granted k ∨ phase_in s h = Holding k) ∧
  (read_waiters_ (obj s) ≠ [] →
     write_locked_ (obj s) = true ∨ write_waiters_ (obj s) ≠ []) ∧
  (∀ k, by_kind k (waits s) = by_kind k (grants s) ++ rw_queue k (obj s)).
Proof.
  intros Hr HB. pose proof (rw_reachable_wf s Hr) as Hwf.
  destruct (rw_reachable_inv s Hr HB) as [Hrc Hwl Hx Hf Hb].
  split_and!; [by apply wf_ub| | |apply (wf_fifo s Hwf)].
  - intros Hw. destruct (write_locked_ (obj s)).
    + exists Write. apply owner_exists. simpl in *. lia.
    + exists Read. apply owner_exists. destruct (owners Read s); [|lia].
      destruct (Hf eq_refl eq_refl). naive_solver.
  - intros Hw. destruct (write_locked_ (obj s)); [by left|]. right. intros Hq. auto.
Qed.

Lemma rwlock_no_stranded_waiter_witness :
  ∃ s, run step (take 5 rw_demo) (init new_rwlock) = Some s ∧
    read_waiters_ (obj s) = [3] ∧ write_waiters_ (obj s) = [2] ∧ (
  ub s = false ∧
  (read_waiters_ (obj s) ≠ [] ∨ write_waiters_ (obj s) ≠ [] →
     ∃ k h, phase_in s h = Granted k ∨ phase_in s h = Holding k) ∧
  (read_waiters_ (obj s) ≠ [] →
     write_locked_ (obj s) = true ∨ write_waiters_ (obj s) ≠ []) ∧
  (∀ k, by_kind k (waits s) = by_kind k (grants s) ++ rw_queue k (obj s))).
Proof.
  eexists. split; [vm_compute; reflexivity|]. do 2 (split; [vm_compute; reflexivity|]).
  apply rwlock_no_stranded_waiter; [|vm_compute; reflexivity].
  apply reachable_run. exists (take 5 rw_demo). vm_compute. reflexivity.
Defined.

(** ** Everybody is served *)

(** While somebody waits nobody is admitted, and a step is one of these. *)
Inductive rw_waiting_step (l : label rw_kind rw_release) (s s' : rw_sys) : Prop :=
  | ws_arrive rs ws : handover l = false → busy s' = busy s →
      write_locked_ (obj s') = write_locked_ (obj s) →
      read_waiters_ (obj s') = read_waiters_ (obj s) ++ rs →
      write_waiters_ (obj s') = write_waiters_ (obj s) ++ ws → rw_waiting_step l s s'
  | ws_owner : handover l = true → busy s' < busy s →
      write_locked_ (obj s') = write_locked_ (obj s) →
      read_waiters_ (obj s') = read_waiters_ (obj s) →
      write_waiters_ (obj s') = write_waiters_ (obj s) → rw_waiting_step l s s'
  | ws_writer g rest : handover l = true →
      write_locked_ (obj s) = false ∨ read_waiters_ (obj s) = [] →
      write_waiters_ (obj s) = g :: rest → phase_in s' g = Granted Write →
      write_locked_ (obj s') = true → read_waiters_ (obj s') = read_waiters_ (obj s) →
      write_waiters_ (obj s') = rest → rw_waiting_step l s s'
  | ws_readers : handover l = true → write_locked_ (obj s) = true →
      write_locked_ (obj s') = false →
      (∀ h, h ∈ read_waiters_ (obj s) → phase_in s' h = Granted Read) →
      write_waiters_ (obj s') = write_waiters_ (obj s) → rw_waiting_step l s s'.

Lemma rw_nobody_enters s : rw_reachable s → frames_fit s →
  read_waiters_ (obj s) ≠ [] ∨ write_waiters_ (obj s) ≠ [] →
  can_read (obj s) = false ∧ can_write (obj s) = false.
Proof.
  intros Hr HB Hw. destruct (rw_reachable_inv s Hr HB) as [Hrc Hwl Hx Hf Hb].
  split; apply not_true_is_false; rewrite ?can_read_spec, ?can_write_spec; intros [Hl Hq].
  - destruct Hw as [Hw|Hw]; [apply Hw, Hb|]; done.
  - destruct (Hf Hl) as [? ?]; [lia|]. naive_solver.
Qed.

Lemma rw_leave_step s s' h k : rw_reachable s → frames_fit s →
  read_waiters_ (obj s) ≠ [] ∨ write_waiters_ (obj s) ≠ [] →
  phase_in s h = Holding k → step (LLeave h) s = Some s' → rw_waiting_step (LLeave h) s s'.
Proof.
  intros Hr HB Hw Hh Hst. destruct (rw_reachable_inv s Hr HB) as [Hrc Hwl Hx Hf Hb].
  pose proof (step_spec _ s s' (rw_reachable_wf s Hr) Hst) as (k' & Hh' & Ho & Hph). assert (k' = k) as -> by congruence.
  pose proof (holding_owner k s h Hh) as Hpos. unfold released_to in Hph. destruct k; simpl in Ho, Hph.
  - assert (write_locked_ (obj s) = false) as Hl by (destruct (write_locked_ (obj s)); [specialize (Hx eq_refl); lia|done]).
    assert (∃ g rest, write_waiters_ (obj s) = g :: rest) as (g & rest & Hq).
    { destruct (write_waiters_ (obj s)) eqn:E; [|eauto]. specialize (Hb Hl eq_refl). naive_solver. }
    unfold ReadUnlock in Ho, Hph. rewrite Hq in Ho, Hph. case_match; simpl in Ho, Hph.
    + apply (ws_writer _ _ _ g rest); rewrite ?Ho; auto. by rewrite Hph, decide_True by set_solver.
    + apply ws_owner; rewrite ?Ho; auto. pose proof (busy_after s s' h Idle Hph) as Hbz.
      rewrite Hh in Hbz. simpl in Hbz. lia.
  - assert (write_locked_ (obj s) = true) as Hl by (destruct (write_locked_ (obj s)); [done|simpl in *; lia]).
    unfold WriteUnlock in Ho, Hph. destruct (read_waiters_ (obj s)) as [|r rs] eqn:Hrq; simpl in Ho, Hph.
    + destruct (write_waiters_ (obj s)) as [|g rest] eqn:Hq; [naive_solver|]. simpl in Ho, Hph.
      apply (ws_writer _ _ _ g rest); rewrite ?Ho; auto.
      by rewrite Hph, decide_True by set_solver.
    + apply ws_readers; rewrite ?Ho; auto. intros h' Hin. rewrite Hrq in Hin.
      by rewrite Hph, decide_True.
Qed.

Lemma rw_waiting_step_ok l s s' : rw_reachable s → frames_fit s →
  read_waiters_ (obj s) ≠ [] ∨ write_waiters_ (obj s) ≠ [] → step l s = Some s' → rw_waiting_step l s s'.
Proof.
  intros Hr HB Hw Hst. destruct (rw_nobody_enters s Hr HB Hw) as [Hcr Hcw].
  pose proof (step_spec l s s' (rw_reachable_wf s Hr) Hst) as Hsp.
  destruct l as [h k|h|h k|h|h|r]; simpl in Hsp.
  - destruct Hsp as (Hp & Ho & Hph). pose proof (busy_after s s' h _ Hph) as Hbz. rewrite Hp in Hbz.
    assert ((so_ready k (obj s)) = (false, obj s)) as E by
      (destruct k; simpl; unfold ReadLock_await_ready, WriteLock_await_ready; by rewrite ?Hcr, ?Hcw).
    simpl in E. rewrite E in *. apply (ws_arrive _ _ _ [] []); rewrite ?Ho, ?app_nil_r; simpl in *; auto; lia.
  - destruct Hsp as (k & Hp & Ho & Hph). pose proof (busy_after s s' h _ Hph) as Hbz. rewrite Hp in Hbz.
    destruct k; simpl in *; unfold ReadLock_await_suspend, WriteLock_await_suspend in *; rewrite ?Hcr, ?Hcw in *; simpl in *.
    + apply (ws_arrive _ _ _ [h] []); rewrite ?Ho, ?app_nil_r; simpl; auto; lia.
    + apply (ws_arrive _ _ _ [] [h]); rewrite ?Ho, ?app_nil_r; simpl; auto; lia.
  - destruct Hsp as (Hp & Ho & Hph). pose proof (busy_after s s' h _ Hph) as Hbz. rewrite Hp in Hbz.
    apply (ws_arrive _ _ _ [] []); rewrite ?Ho, ?app_nil_r; simpl in *; auto; lia.
  - destruct Hsp as (k & Hp & Ho & Hph). pose proof (busy_after s s' h _ Hph) as Hbz. rewrite Hp in Hbz.
    apply ws_owner; rewrite ?Ho; simpl in *; auto; lia.
  - destruct Hsp as (k & Hp & _). by eapply rw_leave_step.
  - by destruct Hsp.
Qed.

(** What a waiting coroutine has before it: the writers ahead and the one
    inside, or the readers inside and one writer; then their handovers. *)
Definition rw_rank (k : rw_kind) (h : handle) (m : nat * nat * nat) (s : rw_sys) : Prop :=
  rw_reachable s ∧
  match k with
  | Read => h ∈ read_waiters_ (obj s) ∧ m = ((if write_locked_ (obj s) then 0 else 1), 0, busy s)
  | Write => ∃ i, write_waiters_ (obj s) !! i = Some h ∧ m = (i, Nat.b2n (write_locked_ (obj s)), busy s)
  end.

Lemma rw_rank_step k h m l s s' : frames_fit s → rw_rank k h m s → step l s = Some s' →
  phase_in s' h = Granted k ∨ ∃ m', rw_rank k h m' s' ∧ (lt3 m' m ∨ (handover l = false ∧ m' = m)).
Proof.
  intros HB [Hr Hm] Hst. assert (rw_reachable s') as Hr' by by eapply reach_step.
  assert (rw_waiting_step l s s') as Hws.
  { apply rw_waiting_step_ok; try done. destruct k; [left|right]; intros E; rewrite E in Hm;
      [destruct Hm; set_solver|by destruct Hm as (i & Hi & _)]. }
  destruct k.
  - destruct Hm as [Hin ->]. destruct Hws as [rs ws Hl Hb E1 E2 E3|Hl Hb E1 E2 E3|g rest Hl Hc Hq Hg E1 E2 E3|Hl Hc E1 Hg E3].
    + right. eexists. split; [split; [done|]; split; [rewrite E2; set_solver|done]|]. rewrite E1, Hb. by right.
    + right. eexists. split; [split; [done|]; split; [by rewrite E2|done]|]. rewrite E1. left. simpl. lia.
    + destruct Hc as [Hc|Hc]; [|rewrite Hc in Hin; set_solver].
      right. eexists. split; [split; [done|]; split; [by rewrite E2|done]|]. rewrite E1, Hc. left. simpl. lia.
    + left. auto.
  - destruct Hm as (i & Hi & ->). destruct Hws as [rs ws Hl Hb E1 E2 E3|Hl Hb E1 E2 E3|g rest Hl Hc Hq Hg E1 E2 E3|Hl Hc E1 Hg E3].
    + right. eexists. split; [split; [done|]; exists i; split; [rewrite E3; by apply lookup_app_l_Some|done]|].
      rewrite E1, Hb. by right.
    + right. eexists. split; [split; [done|]; exists i; split; [by rewrite E3|done]|]. rewrite E1. left. simpl. lia.
    + rewrite Hq in Hi. destruct i as [|i]; simpl in Hi; [injection Hi as ->; by left|].
      right. eexists. split; [split; [done|]; exists i; split; [by rewrite E3|done]|]. left. simpl. lia.
    + right. eexists. split; [split; [done|]; exists i; split; [by rewrite E3|done]|]. rewrite E1, Hc. left. simpl. lia.
Qed.

(** The goal allows for more coroutines than a 64-bit address space holds. *)
Lemma rw_ranked k h :
  ranked step handover (λ s, phase_in s h = Granted k ∨ ~ frames_fit s) lt3 (rw_rank k h).
Proof.
  intros m s Hm. destruct (decide (Z.of_nat (size (phases s)) < size_mod)%Z) as [HB|HB]; [|by left; right].
  right. split.
  - destruct Hm as [Hr Hm]. destruct (rw_reachable_inv s Hr HB) as [Hrc Hwl Hx Hf Hb].
    assert (0 < owners Write s ∨ 0 < owners Read s) as Ho.
    { destruct (write_locked_ (obj s)) eqn:Hl; [left; simpl in *; lia|]. right. destruct (owners Read s) eqn:E; [|lia].
      destruct (Hf eq_refl eq_refl) as [E1 E2]. destruct k; [|by destruct Hm as (i & Hi & _); rewrite E2 in Hi].
      destruct Hm as [Hin _]. rewrite E1 in Hin. set_solver. }
    destruct Ho as [(g & Hg)%owner_exists|(g & Hg)%owner_exists]; apply (owner_enabled s g); by destruct Hg as [->| ->].
  - intros l s' Hst. destruct (rw_rank_step k h m l s s' HB Hm Hst) as [?|?]; auto.
Qed.

(** C5. Nobody starves, on either side: a coroutine that waits to read or to
    write is woken with the lock after finitely many handovers, under any
    schedule of the others, whoever else arrives meanwhile; and until then the
    next handover is never blocked. *)
Theorem rwlock_everybody_served s k h :
  rw_reachable s → frames_fit s → phase_in s h = Waiting k →
  inevitable step handover (λ s', phase_in s' h = Granted k ∨ ~ frames_fit s') s.
Proof.
  intros Hr HB Hh. pose proof (rw_reachable_wf s Hr) as Hwf.
  pose proof (proj2 (wf_waiting s Hwf k h) Hh) as Hin.
  assert (∃ m, rw_rank k h m s) as [m Hm].
  { destruct k; simpl in Hin; [eexists; split; [done|]; by split|].
    apply list_elem_of_lookup_1 in Hin as [i Hi]. eexists. split; [done|]. by exists i. }
  eapply (inevitable_ranked _ _ _ lt3 (rw_rank k h) m); [apply lt3_trans|apply lt3_wf|apply rw_ranked|done].
Qed.

(** The reader that queues behind the writer. *)
Lemma rwlock_everybody_served_witness :
  ∃ s, run step (take 5 rw_demo) (init new_rwlock) = Some s ∧
    phase_in s 3 = Waiting Read ∧
    inevitable step handover (λ s', phase_in s' 3 = Granted Read ∨ ~ frames_fit s') s.
Proof.
  eexists. split; [vm_compute; reflexivity|]. split; [vm_compute; reflexivity|].
  apply rwlock_everybody_served; [|vm_compute; reflexivity..].
  apply reachable_run. exists (take 5 rw_demo). vm_compute. reflexivity.
Defined.

(** Neither side starves the other.  While a writer is first in the queue
    and readers are inside, no step admits another reader, and the writer stays
    first until the step that grants it the lock; and the step by which a
    writer leaves grants the lock to every waiting reader. *)
Theorem rwlock_no_starvation l s s' :
  rw_reachable s → frames_fit s' → step l s = Some s' →
  (∀ g rest, write_waiters_ (obj s) = g :: rest → write_locked_ (obj s) = false →
     owners Read s' ≤ owners Read s ∧
     (phase_in s' g = Granted Write ∨ ∃ rest', write_waiters_ (obj s') = g :: rest')) ∧
  (∀ w h, phase_in s w = Holding Write → l = LLeave w → h ∈ read_waiters_ (obj s) →
     phase_in s' h = Granted Read).
Proof.
  intros Hr HB' Hst. pose proof (rw_reachable_wf s Hr) as Hwf.
  assert (frames_fit s) as HB.
  { unfold frames_fit in *. pose proof (size_step l s s' Hst). lia. }
  destruct (rw_reachable_inv s Hr HB) as [Hrc Hwl Hx Hf Hb].
  assert (rw_reachable s') as Hr' by by eapply reach_step.
  destruct (rw_reachable_inv s' Hr' HB') as [Hrc' _ _ _ _]. split.
  - intros g rest Hq Hl. rewrite Hl in Hwl. simpl in Hwl.
    assert (0 < owners Read s) as Hpos.
    { destruct (owners Read s); [|lia]. destruct (Hf Hl eq_refl). congruence. }
    assert (can_read (obj s) = false) as Hnr.
    { unfold can_read. by rewrite Hl, Hq. }
    assert (can_write (obj s) = false) as Hnw.
    { apply not_true_is_false. rewrite can_write_spec. lia. }
    destruct (step_object l s s' Hwf Hst) as [Ho|[] Ho|k Ho|[] h Ho|h [] r Hh Hlv Ho Hg|? Hp _ _];
      simpl in *; unfold ReadLock_await_ready, WriteLock_await_ready,
        ReadLock_await_suspend, WriteLock_await_suspend in *;
      try rewrite ?Hnr, ?Hnw in Ho; simpl in *; simplify_eq; try done;
      try (rewrite Ho in *; simpl in *; rewrite ?Hq; simpl; split; [lia|eauto]; fail).
    + assert (to_size (reader_count_ (obj s) - 1) = (reader_count_ (obj s) - 1)%Z) as Hc.
      { apply to_size_id. unfold size_ok, frames_fit in *.
        pose proof (owners_le Read s). lia. }
      rewrite Ho in *. unfold ReadUnlock in *. rewrite Hq, Hc in *.
      destruct (Z.eqb_spec (reader_count_ (obj s) - 1) 0); simpl in *; split; eauto with lia.
      left. apply Hg. set_solver.
    + pose proof (holding_owner Write s h Hh). lia.
  - intros w h Hw -> Hh. pose proof (wf_leave s w Write Hwf Hw) as Hwf'.
    simpl in Hst. rewrite Hw in Hst. simplify_eq.
    rewrite (do_release_granted WriteRelease _ h Hwf'); simpl;
      unfold WriteUnlock, rw_wakes; by destruct (read_waiters_ (obj s)); [set_solver|].
Qed.

Lemma rwlock_no_starvation_witness :
  ∃ s s', run step (take 5 rw_demo) (init new_rwlock) = Some s ∧
    step (LLeave 1) s = Some s' ∧ owners Read s' ≤ owners Read s ∧
    (phase_in s' 2 = Granted Write ∨ ∃ rest', write_waiters_ (obj s') = 2 :: rest').
Proof.
  eexists. eexists. split; [vm_compute; reflexivity|]. split; [vm_compute; reflexivity|].
  refine (proj1 (rwlock_no_starvation (LLeave 1) _ _ _ _ _) 2 [] _ _).
  - apply reachable_run. exists (take 5 rw_demo). vm_compute. reflexivity.
  - vm_compute. reflexivity.
  - vm_compute. reflexivity.
  - reflexivity.
  - reflexivity.
Defined.
