(* ===== verification/Event.v ===== *)
(** * AsyncEvent ([include/hotcoco/sync/event.hpp])

    The manual-reset event that WhenAny, WithTimeout and TaskGroup are built on:
    [Set] wakes every coroutine suspended on it, nobody is suspended while the
    event is set, and [Reset] re-arms it. *)
From S2P Require Import Prelude SyncObject.

Record AsyncEvent := mkEvent {
  signaled_ : bool;
  waiters_ : list handle;
}.

Definition new_event : AsyncEvent := mkEvent false [].

(** [WaitAwaitable::await_ready]. *)
Definition Wait_await_ready (e : AsyncEvent) : bool * AsyncEvent := (signaled_ e, e).

(** [WaitAwaitable::await_suspend]; [true] means suspended. *)
Definition Wait_await_suspend (h : handle) (e : AsyncEvent) : bool * AsyncEvent :=
  if signaled_ e then (false, e)
  else (true, mkEvent (signaled_ e) (waiters_ e ++ [h])).

(** [Set]: no effect when already set, otherwise take all the waiters. *)
Definition Set_ (e : AsyncEvent) : AsyncEvent * list handle :=
  if signaled_ e then (e, []) else (mkEvent true [], waiters_ e).

Definition Reset_ (e : AsyncEvent) : AsyncEvent := mkEvent false (waiters_ e).

Definition IsSet (e : AsyncEvent) : bool := signaled_ e.

Inductive event_op := OpSet | OpReset.

#[export] Instance event_sync : SyncObject AsyncEvent unit event_op := {
  so_ready _ := Wait_await_ready;
  so_suspend _ := Wait_await_suspend;
  so_try _ e := (false, e);
  so_release r e := match r with OpSet => Set_ e | OpReset => (Reset_ e, []) end;
  so_leave _ := None;         (* nothing is owned after Wait *)
  so_public _ := true;
}.

#[export] Instance event_laws : SyncLaws AsyncEvent unit event_op.
Proof.
  refine {| so_queue _ e := waiters_ e; so_wakes _ _ := tt |}.
  - done.
  - done.
  - intros [] [] h [[] w]; simpl; [by rewrite app_nil_r|reflexivity].
  - intros [] [] [[] w]; simpl; by rewrite ?app_nil_r.
Defined.

Abbreviation event_sys := (sys AsyncEvent unit event_op).
Definition event_reachable (s : event_sys) : Prop := reachable step (init new_event) s.

Definition event_inv (e : AsyncEvent) (_ : unit → nat) (_ : list event_op) : Prop :=
  signaled_ e = true → waiters_ e = [].

Lemma event_inv_ok B : object_inv B event_inv.
Proof.
  split; unfold event_inv; try done.
  - intros [] h [[] w] n n' e HJ _ _; simpl in *; [done|]. by intros.
  - intros [] [[] w] n n' e _ HJ _ _; by simpl in *.
Qed.

Lemma event_reachable_inv s : event_reachable s → event_inv (obj s) (λ k, owners k s) (externs s).
Proof.
  intros Hr. by apply (object_invariant (size (phases s)) _ new_event);
    [apply event_inv_ok|..].
Qed.

Lemma event_reachable_wf s : event_reachable s → wf s.
Proof. by apply wf_reachable. Qed.

(** [Set] is a broadcast: it makes the event set, leaves no coroutine
    suspended on it, and hands every coroutine that was suspended, and no other,
    to be resumed once, in the order of their suspension.  While the event is
    set no coroutine is suspended on it. *)
Theorem event_set_broadcast s :
  event_reachable s →
  ∃ s', step (LExtern OpSet) s = Some s' ∧
    IsSet (obj s') = true ∧ waiters_ (obj s') = [] ∧ ub s' = false ∧
    (∀ h, phase_in s h = Waiting tt → phase_in s' h = Granted tt) ∧
    (∀ h, phase_in s' h ≠ Waiting tt) ∧
    (waits s').*2 = (grants s').*2.
Proof.
  intros Hr. pose proof (event_reachable_wf s Hr) as Hwf.
  pose proof (event_reachable_inv s Hr) as Hinv. unfold event_inv in Hinv.
  set (s1 := log_extern OpSet s). assert (wf s1) as Hwf1 by by eapply wf_quiet.
  exists (do_release OpSet s1).
  assert (step (LExtern OpSet) s = Some (do_release OpSet s1)) as Hst by done.
  pose proof (wf_step _ _ _ Hwf Hst) as Hwf'.
  destruct (owners_do_release OpSet s1 tt Hwf1) as (Ho & _ & _). simpl in Ho.
  assert (Set_ (obj s) = (mkEvent true [], waiters_ (obj s))) as Hset.
  { unfold Set_. destruct (obj s) as [[] w] eqn:E; simpl in *; [|done].
    by rewrite (Hinv eq_refl). }
  rewrite Hset in Ho. simpl in Ho. rewrite Ho.
  split_and!; [done..|by apply wf_ub| | |].
  - intros h Hh. rewrite (do_release_granted OpSet s1 h Hwf1); [done|]. simpl.
    rewrite Hset. simpl. by apply (wf_waiting s Hwf tt).
  - intros h Hh. apply (wf_waiting _ Hwf' tt) in Hh. simpl in Hh. rewrite Ho in Hh.
    simpl in Hh. set_solver.
  - pose proof (wf_fifo _ Hwf' tt) as Hf. rewrite !by_kind_all in Hf by by intros [].
    simpl in Hf. rewrite Ho in Hf. simpl in Hf. by rewrite app_nil_r in Hf.
Qed.

Definition event_demo : list (label unit event_op) :=
  [LAwait 1 tt; LAwait 2 tt; LSuspend 2; LSuspend 1].

Lemma event_set_broadcast_witness :
  ∃ s, run step event_demo (init new_event) = Some s ∧ waiters_ (obj s) = [2; 1] ∧
  ∃ s', step (LExtern OpSet) s = Some s' ∧
    IsSet (obj s') = true ∧ waiters_ (obj s') = [] ∧ ub s' = false ∧
    (∀ h, phase_in s h = Waiting tt → phase_in s' h = Granted tt) ∧
    (∀ h, phase_in s' h ≠ Waiting tt) ∧
    (waits s').*2 = (grants s').*2.
Proof.
  eexists. do 2 (split; [vm_compute; reflexivity|]).
  apply event_set_broadcast. apply reachable_run. exists event_demo.
  vm_compute. reflexivity.
Defined.
