(* ===== verification/Latch.v ===== *)
(** * AsyncLatch ([include/hotcoco/sync/latch.hpp])

    The one-shot countdown barrier: the count saturates at zero, the latch is
    released exactly when enough has been counted down, it never closes again,
    and nobody stays suspended on a released latch. *)
From S2P Require Import Prelude SyncObject.

Record AsyncLatch := mkLatch {
  count_ : Z;                 (* atomic<size_t> *)
  waiters_ : list handle;
}.

Definition new_latch (count : Z) : AsyncLatch := mkLatch count [].

(** [WaitAwaitable::await_ready]. *)
Definition Wait_await_ready (l : AsyncLatch) : bool * AsyncLatch := ((count_ l =? 0)%Z, l).

(** [WaitAwaitable::await_suspend]; [true] means suspended. *)
Definition Wait_await_suspend (h : handle) (l : AsyncLatch) : bool * AsyncLatch :=
  if (count_ l =? 0)%Z then (false, l)
  else (true, mkLatch (count_ l) (waiters_ l ++ [h])).

(** [CountDown(n)]: saturating subtraction; at zero all waiters are taken. *)
Definition CountDown (n : Z) (l : AsyncLatch) : AsyncLatch * list handle :=
  let old := count_ l in
  let new_count := if (n <=? old)%Z then (old - n)%Z else 0%Z in
  if (new_count =? 0)%Z then (mkLatch new_count [], waiters_ l)
  else (mkLatch new_count (waiters_ l), []).

Definition Count (l : AsyncLatch) : Z := count_ l.
Definition IsReleased (l : AsyncLatch) : bool := (count_ l =? 0)%Z.

(** The release operations are the calls [CountDown(n)], [n] a [size_t]. *)
#[export] Instance latch_sync : SyncObject AsyncLatch unit Z := {
  so_ready _ := Wait_await_ready;
  so_suspend _ := Wait_await_suspend;
  so_try _ l := (false, l);
  so_release := CountDown;
  so_leave _ := None;
  so_public n := (0 <=? n)%Z;
}.

#[export] Instance latch_laws : SyncLaws AsyncLatch unit Z.
Proof.
  refine {| so_queue _ l := waiters_ l; so_wakes _ _ := tt |}.
  - done.
  - done.
  - intros [] [] h l; simpl. unfold Wait_await_suspend.
    case_match; simpl; by rewrite ?app_nil_r.
  - intros n [] l; simpl. unfold CountDown.
    destruct (_ =? 0)%Z; simpl; by rewrite ?app_nil_r.
Defined.

Abbreviation latch_sys := (sys AsyncLatch unit Z).
Definition latch_reachable (c : Z) (s : latch_sys) : Prop :=
  reachable step (init (new_latch c)) s.

(** How much has been counted down so far. *)
Definition counted (e : list Z) : Z := foldr Z.add 0%Z e.

Definition latch_inv (c : Z) (l : AsyncLatch) (_ : unit → nat) (e : list Z) : Prop :=
  count_ l = Z.max 0 (c - counted e) ∧ (0 <= counted e)%Z ∧
  (count_ l = 0%Z → waiters_ l = []).

Lemma latch_inv_ok c B : object_inv B (latch_inv c).
Proof.
  split; unfold latch_inv; try done.
  - intros [] h l n n' e (Hc & He & Hw) _ _; simpl. unfold Wait_await_suspend.
    destruct (Z.eqb_spec (count_ l) 0); simpl; [done|]. split_and!; done.
  - intros n l m m' e Hn%Z.leb_le (Hc & He & Hw) _ _; simpl. unfold CountDown.
    destruct (Z.leb_spec n (count_ l)); simpl.
    + destruct (Z.eqb_spec (count_ l - n) 0); simpl; split_and!; try done; lia.
    + split_and!; try done; lia.
Qed.

Lemma latch_reachable_inv c s :
  (0 <= c)%Z → latch_reachable c s →
  latch_inv c (obj s) (λ k, owners k s) (externs s).
Proof.
  intros Hc Hr. apply (object_invariant (size (phases s)) _ (new_latch c));
    [apply latch_inv_ok|done| |done|done].
  unfold latch_inv. simpl. split_and!; try done; lia.
Qed.

(** The latch opens exactly when the calls to [CountDown] add up to the
    initial count, the remaining count never goes below zero, a coroutine is
    suspended on it only while it is closed, and no handle is resumed that is
    not suspended on it. *)
Theorem latch_released_iff c s :
  (0 <= c)%Z → latch_reachable c s →
  Count (obj s) = Z.max 0 (c - counted (externs s)) ∧
  (IsReleased (obj s) = true ↔ (c <= counted (externs s))%Z) ∧
  (∀ h, phase_in s h = Waiting tt → IsReleased (obj s) = false) ∧ ub s = false.
Proof.
  intros Hc Hr. destruct (latch_reachable_inv c s Hc Hr) as (Hcnt & He & Hw).
  assert (wf s) as Hwf by (by eapply wf_reachable; [|exact Hr]).
  unfold Count, IsReleased. split_and!; [done| | |by apply wf_ub].
  - rewrite Z.eqb_eq. lia.
  - intros h Hh. apply (wf_waiting s Hwf tt) in Hh. simpl in Hh.
    apply Z.eqb_neq. intros H0. rewrite Hw in Hh by done. set_solver.
Qed.

Definition latch_demo : list (label unit Z) :=
  [LAwait 1 tt; LSuspend 1; LExtern 1%Z; LExtern 5%Z; LResume 1].

Lemma latch_released_iff_witness :
  ∃ s, run step latch_demo (init (new_latch 3)) = Some s ∧
    phase_in s 1 = Holding tt ∧ (
  Count (obj s) = Z.max 0 (3 - counted (externs s)) ∧
  (IsReleased (obj s) = true ↔ (3 <= counted (externs s))%Z) ∧
  (∀ h, phase_in s h = Waiting tt → IsReleased (obj s) = false) ∧ ub s = false).
Proof.
  eexists. do 2 (split; [vm_compute; reflexivity|]).
  apply latch_released_iff; [lia|]. apply reachable_run. exists latch_demo.
  vm_compute. reflexivity.
Defined.
