(* ===== verification/Channel.v ===== *)
(** * Channel ([include/hotcoco/core/channel.hpp])

    The bounded CSP channel with direct hand-off.  The object's critical
    sections return the effects they have on the awaitables of suspended
    coroutines: writing a receiver's [result_] slot, setting a sender's [sent_]
    flag, and the [resume()] calls made after the lock is dropped.  The machine
    runs any number of senders and receivers against one channel; proved are
    the channel's structural invariant, FIFO delivery without loss or
    duplication, exact answers of [Send] and [Receive], and close semantics. *)
From S2P Require Import Prelude.

Section Channel.
Context {T : Type}.

(** ** The object *)

Record Channel := mkChan {
  buffer_ : list T;
  capacity_ : nat;
  closed_ : bool;
  receiver_waiters_ : list handle;         (* ReceiverWaiter: its slot is the frame's *)
  sender_waiters_ : list (handle * T);     (* SenderWaiter *)
}.

(** [SendAwaitable]. *)
Record SendAwaitable := mkSend { value_ : T; sent_ : bool; failed_ : bool }.

Definition mark_sent (a : SendAwaitable) : SendAwaitable := mkSend (value_ a) true (failed_ a).
Definition mark_failed (a : SendAwaitable) : SendAwaitable := mkSend (value_ a) (sent_ a) true.

(** What a critical section does to the awaitables of suspended coroutines. *)
Inductive effect :=
  | PutResult (h : handle) (v : T)   (* *waiter.result = value *)
  | SetSent (h : handle)             (* waiter.sent_flag->store(true) *)
  | Wake (h : handle).               (* resume() outside the lock *)

(** The constructor; [None] is the abort of [HOTCOCO_CHECK(capacity >= 1)]. *)
Definition Channel_ctor (capacity : nat) : option Channel :=
  if 1 <=? capacity then Some (mkChan [] capacity false [] []) else None.

(** The destructor closes and drops the waiters without resuming them. *)
Definition Channel_dtor (c : Channel) : Channel :=
  mkChan (buffer_ c) (capacity_ c) true [] [].

Definition push_back (v : T) (c : Channel) : Channel :=
  mkChan (buffer_ c ++ [v]) (capacity_ c) (closed_ c) (receiver_waiters_ c) (sender_waiters_ c).

(** [SendAwaitable::await_ready]; [false] means it must suspend. *)
Definition Send_await_ready (a : SendAwaitable) (c : Channel)
    : bool * SendAwaitable * Channel * list effect :=
  if closed_ c then (true, mark_failed a, c, [])
  else match receiver_waiters_ c with
  | h :: rest =>
      (true, mark_sent a,
       mkChan (buffer_ c) (capacity_ c) (closed_ c) rest (sender_waiters_ c),
       [PutResult h (value_ a); Wake h])
  | [] =>
      if length (buffer_ c) <? capacity_ c
      then (true, mark_sent a, push_back (value_ a) c, [])
      else (false, a, c, [])
  end.

(** [SendAwaitable::await_suspend]; [true] means suspended. *)
Definition Send_await_suspend (h : handle) (a : SendAwaitable) (c : Channel)
    : bool * SendAwaitable * Channel * list effect :=
  if closed_ c then (false, mark_failed a, c, [])
  else match receiver_waiters_ c with
  | r :: rest =>
      (false, mark_sent a,
       mkChan (buffer_ c) (capacity_ c) (closed_ c) rest (sender_waiters_ c),
       [PutResult r (value_ a); Wake r])
  | [] =>
      if length (buffer_ c) <? capacity_ c
      then (false, mark_sent a, push_back (value_ a) c, [])
      else (true, a,
            mkChan (buffer_ c) (capacity_ c) (closed_ c) (receiver_waiters_ c)
                   (sender_waiters_ c ++ [(h, value_ a)]), [])
  end.

Definition Send_await_resume (a : SendAwaitable) : bool := sent_ a && negb (failed_ a).

(** Taking the front of the buffer lets one waiting sender refill it. *)
Definition pop_front (b : list T) (c : Channel) : Channel * list effect :=
  match sender_waiters_ c with
  | (h, w) :: rest =>
      (mkChan (b ++ [w]) (capacity_ c) (closed_ c) (receiver_waiters_ c) rest,
       [SetSent h; Wake h])
  | [] => (mkChan b (capacity_ c) (closed_ c) (receiver_waiters_ c) [], [])
  end.

(** [ReceiveAwaitable::await_ready]: readiness, [result_], effects. *)
Definition Receive_await_ready (c : Channel) : bool * option T * Channel * list effect :=
  match buffer_ c with
  | v :: b => let '(c', es) := pop_front b c in (true, Some v, c', es)
  | [] => if closed_ c then (true, None, c, []) else (false, None, c, [])
  end.

(** [ReceiveAwaitable::await_suspend]; [true] means suspended. *)
Definition Receive_await_suspend (h : handle) (c : Channel)
    : bool * option T * Channel * list effect :=
  match buffer_ c with
  | v :: b => let '(c', es) := pop_front b c in (false, Some v, c', es)
  | [] =>
      if closed_ c then (false, None, c, [])
      else (true, None,
            mkChan (buffer_ c) (capacity_ c) (closed_ c) (receiver_waiters_ c ++ [h])
                   (sender_waiters_ c), [])
  end.

(** [Close]: idempotent; wakes all receivers, then all senders. *)
Definition Close (c : Channel) : Channel * list effect :=
  if closed_ c then (c, [])
  else (mkChan (buffer_ c) (capacity_ c) true [] [],
        (Wake <$> receiver_waiters_ c) ++ (Wake <$> (sender_waiters_ c).*1)).

Definition IsClosed (c : Channel) : bool := closed_ c.
Definition Size (c : Channel) : nat := length (buffer_ c).

(** ** The coroutines around it *)

(** Where a coroutine stands; its awaitable lives in its frame. *)
Inductive frame :=
  | FIdle
  | FSendEntering (a : SendAwaitable)
  | FSendWaiting (a : SendAwaitable)
  | FSendGranted (a : SendAwaitable)
  | FRecvEntering
  | FRecvWaiting (result : option T)
  | FRecvGranted (result : option T).

(** [offered] lists the sends in the order in which they took their place,
    [accepted] those whose [sent_] flag was set, [delivered] the values put
    in some [result_]; the [*_done] logs are the answers of completed
    operations.  [ub] records a resume of, or a write to, a coroutine that is
    not suspended on the channel. *)
Record csys := CSys {
  chan : Channel;
  frames : gmap handle frame;
  ub : bool;
  offered : list T;
  accepted : list T;
  delivered : list T;
  sends_done : list (handle * T * bool);
  recvs_done : list (handle * option T);
}.

Definition frame_of (s : csys) (h : handle) : frame := phase_of FIdle (frames s) h.

Definition cinit (c : Channel) : csys := CSys c ∅ false [] [] [] [] [].

Definition set_chan (c : Channel) (s : csys) : csys :=
  CSys c (frames s) (ub s) (offered s) (accepted s) (delivered s) (sends_done s) (recvs_done s).
Definition set_frame (h : handle) (f : frame) (s : csys) : csys :=
  CSys (chan s) (<[h:=f]> (frames s)) (ub s) (offered s) (accepted s) (delivered s)
       (sends_done s) (recvs_done s).
Definition set_ub (s : csys) : csys :=
  CSys (chan s) (frames s) true (offered s) (accepted s) (delivered s)
       (sends_done s) (recvs_done s).
Definition log_offer (l : list T) (s : csys) : csys :=
  CSys (chan s) (frames s) (ub s) (offered s ++ l) (accepted s) (delivered s)
       (sends_done s) (recvs_done s).
Definition log_accept (l : list T) (s : csys) : csys :=
  CSys (chan s) (frames s) (ub s) (offered s) (accepted s ++ l) (delivered s)
       (sends_done s) (recvs_done s).
Definition log_deliver (l : list T) (s : csys) : csys :=
  CSys (chan s) (frames s) (ub s) (offered s) (accepted s) (delivered s ++ l)
       (sends_done s) (recvs_done s).
Definition log_send (h : handle) (v : T) (b : bool) (s : csys) : csys :=
  CSys (chan s) (frames s) (ub s) (offered s) (accepted s) (delivered s)
       (sends_done s ++ [(h, v, b)]) (recvs_done s).
Definition log_recv (h : handle) (r : option T) (s : csys) : csys :=
  CSys (chan s) (frames s) (ub s) (offered s) (accepted s) (delivered s)
       (sends_done s) (recvs_done s ++ [(h, r)]).

Definition wake_frame (f : frame) : option frame :=
  match f with
  | FSendWaiting a => Some (FSendGranted a)
  | FRecvWaiting r => Some (FRecvGranted r)
  | _ => None
  end.

Definition apply_effect (s : csys) (e : effect) : csys :=
  match e with
  | PutResult h v =>
      match frame_of s h with
      | FRecvWaiting _ => log_deliver [v] (set_frame h (FRecvWaiting (Some v)) s)
      | _ => set_ub s
      end
  | SetSent h =>
      match frame_of s h with
      | FSendWaiting a => log_accept [value_ a] (set_frame h (FSendWaiting (mark_sent a)) s)
      | _ => set_ub s
      end
  | Wake h =>
      match wake_frame (frame_of s h) with
      | Some f => set_frame h f s
      | None => set_ub s
      end
  end.
Definition apply_effects (es : list effect) (s : csys) : csys := foldl apply_effect s es.

(** An operation that did not suspend completes with its [await_resume]. *)
Definition finish_send (h : handle) (a : SendAwaitable) (s : csys) : csys :=
  log_send h (value_ a) (Send_await_resume a) (set_frame h FIdle s).
Definition finish_recv (h : handle) (r : option T) (s : csys) : csys :=
  log_recv h r (set_frame h FIdle s).

(** A send takes its place when it is accepted or suspended. *)
Definition note_send (a : SendAwaitable) (suspended : bool) (s : csys) : csys :=
  let s1 := if sent_ a then log_accept [value_ a] s else s in
  if sent_ a || suspended then log_offer [value_ a] s1 else s1.

Inductive clabel :=
  | CSend (h : handle) (v : T)   (* co_await ch.Send(v): await_ready *)
  | CRecv (h : handle)           (* co_await ch.Receive(): await_ready *)
  | CSuspend (h : handle)        (* await_suspend of either *)
  | CResume (h : handle)         (* the pending resume() runs *)
  | CClose.

Definition cstep (l : clabel) (s : csys) : option csys :=
  match l with
  | CSend h v =>
      match frame_of s h with
      | FIdle =>
          let '(ready, a, c, es) := Send_await_ready (mkSend v false false) (chan s) in
          let s1 := apply_effects es (note_send a false (set_chan c s)) in
          Some (if ready then finish_send h a s1 else set_frame h (FSendEntering a) s1)
      | _ => None
      end
  | CRecv h =>
      match frame_of s h with
      | FIdle =>
          let '(ready, r, c, es) := Receive_await_ready (chan s) in
          let s1 := apply_effects es (log_deliver (option_list r) (set_chan c s)) in
          Some (if ready then finish_recv h r s1 else set_frame h FRecvEntering s1)
      | _ => None
      end
  | CSuspend h =>
      match frame_of s h with
      | FSendEntering a0 =>
          let '(susp, a, c, es) := Send_await_suspend h a0 (chan s) in
          let s1 := apply_effects es (note_send a susp (set_chan c s)) in
          Some (if susp then set_frame h (FSendWaiting a) s1 else finish_send h a s1)
      | FRecvEntering =>
          let '(susp, r, c, es) := Receive_await_suspend h (chan s) in
          let s1 := apply_effects es (log_deliver (option_list r) (set_chan c s)) in
          Some (if susp then set_frame h (FRecvWaiting r) s1 else finish_recv h r s1)
      | _ => None
      end
  | CResume h =>
      match frame_of s h with
      | FSendGranted a => Some (finish_send h a s)
      | FRecvGranted r => Some (finish_recv h r s)
      | _ => None
      end
  | CClose =>
      let '(c, es) := Close (chan s) in Some (apply_effects es (set_chan c s))
  end.
End Channel.

Arguments Channel T : clear implicits.
Arguments SendAwaitable T : clear implicits.
Arguments frame T : clear implicits.
Arguments csys T : clear implicits.
Arguments clabel T : clear implicits.
Arguments effect T : clear implicits.
Arguments apply_effects {T} es s : simpl never.

(** ** The invariant *)

Section Invariant.
Context {T : Type}.
Implicit Types (s : csys T) (c : Channel T) (h r : handle) (a : SendAwaitable T).

(** Shape of the object: receivers wait only on an empty, senders only on a
    full channel, and nobody waits on a closed one. *)
Record chan_ok c : Prop := {
  co_cap : length (buffer_ c) ≤ capacity_ c;
  co_pos : 1 ≤ capacity_ c;
  co_recv : receiver_waiters_ c ≠ [] → buffer_ c = [] ∧ closed_ c = false;
  co_send : sender_waiters_ c ≠ [] → length (buffer_ c) = capacity_ c ∧ closed_ c = false;
}.

Definition parked (f : frame T) : bool :=
  match f with FSendWaiting _ | FRecvWaiting _ => true | _ => false end.

(** The waiter lists are exactly the suspended coroutines. *)
Record queues_ok c (fr : handle → frame T) : Prop := {
  qo_rnodup : NoDup (receiver_waiters_ c);
  qo_rwait h : h ∈ receiver_waiters_ c ↔ fr h = FRecvWaiting None;
  qo_rnone h x : fr h = FRecvWaiting x → x = None;
  qo_snodup : NoDup (sender_waiters_ c).*1;
  qo_swait h v : (h, v) ∈ sender_waiters_ c ↔ fr h = FSendWaiting (mkSend v false false);
  qo_sflag h a : fr h = FSendWaiting a ∨ fr h = FSendEntering a →
                 a = mkSend (value_ a) false false;
}.

Record logs_ok s : Prop := {
  lo_fifo : delivered s ++ buffer_ (chan s) = accepted s;
  lo_order : closed_ (chan s) = false →
             offered s = accepted s ++ (sender_waiters_ (chan s)).*2;
  lo_prefix : accepted s `prefix_of` offered s;
}.

Record cinv s : Prop := {
  ci_ub : ub s = false;
  ci_chan : chan_ok (chan s);
  ci_queues : queues_ok (chan s) (frame_of s);
  ci_logs : logs_ok s;
}.

Lemma frame_of_set h h' f s :
  frame_of (set_frame h f s) h' = if decide (h = h') then f else frame_of s h'.
Proof. apply phase_of_set. Qed.

(** The frames of a system under the updates that do not touch them. *)
Lemma frame_of_set_chan c s : frame_of (set_chan c s) = frame_of s.
Proof. done. Qed.
Lemma set_chan_id s : set_chan (chan s) s = s.
Proof. by destruct s. Qed.
Lemma frame_of_accept l s : frame_of (log_accept l s) = frame_of s.
Proof. done. Qed.
Lemma frame_of_deliver l s : frame_of (log_deliver l s) = frame_of s.
Proof. done. Qed.
Lemma frame_of_note_send a b s : frame_of (note_send a b s) = frame_of s.
Proof. unfold note_send. by destruct (sent_ a), b. Qed.
Lemma frame_of_finish_send h a s : frame_of (finish_send h a s) = frame_of (set_frame h FIdle s).
Proof. done. Qed.
Lemma frame_of_finish_recv h x s : frame_of (finish_recv h x s) = frame_of (set_frame h FIdle s).
Proof. done. Qed.

(** *** Effects of a hand-off and of a wake-up *)

Lemma handoff_effects r v s :
  frame_of s r = FRecvWaiting None →
  apply_effects [PutResult r v; Wake r] s =
  log_deliver [v] (set_frame r (FRecvGranted (Some v)) s).
Proof.
  intros Hr. unfold apply_effects. simpl. rewrite Hr.
  replace (frame_of _ r) with (FRecvWaiting (Some v))
    by (symmetry; apply phase_of_set_eq).
  unfold log_deliver, set_frame. simpl. by rewrite insert_insert_eq.
Qed.

Lemma refill_effects h v s :
  frame_of s h = FSendWaiting (mkSend v false false) →
  apply_effects [SetSent h; Wake h] s =
  log_accept [v] (set_frame h (FSendGranted (mkSend v true false)) s).
Proof.
  intros Hh. unfold apply_effects. simpl. rewrite Hh.
  replace (frame_of _ h) with (FSendWaiting (mark_sent (mkSend v false false)))
    by (symmetry; apply phase_of_set_eq).
  unfold log_accept, set_frame. simpl. by rewrite insert_insert_eq.
Qed.

(** Waking a list of suspended coroutines only changes their frames. *)
Lemma wake_all_spec (l : list handle) s :
  NoDup l → (∀ h, h ∈ l → parked (frame_of s h) = true) →
  let s' := apply_effects (Wake <$> l) s in
  chan s' = chan s ∧ ub s' = ub s ∧ offered s' = offered s ∧
  accepted s' = accepted s ∧ delivered s' = delivered s ∧
  sends_done s' = sends_done s ∧ recvs_done s' = recvs_done s ∧
  ∀ h, frame_of s' h = if decide (h ∈ l) then default FIdle (wake_frame (frame_of s h))
                       else frame_of s h.
Proof.
  unfold apply_effects. revert s. induction l as [|h l IH]; intros s Hnd Hp.
  { simpl. split_and!; done. }
  apply NoDup_cons in Hnd as [Hh Hnd]. rewrite fmap_cons. cbn [foldl].
  assert (parked (frame_of s h) = true) as Hph by (apply Hp; set_solver).
  destruct (wake_frame (frame_of s h)) as [f|] eqn:Hw;
    [|by destruct (frame_of s h)].
  assert (apply_effect s (Wake h) = set_frame h f s) as -> by (simpl; by rewrite Hw).
  assert (∀ h', frame_of (set_frame h f s) h' =
            if decide (h = h') then f else frame_of s h') as Hfr
    by (intros; apply frame_of_set).
  destruct (IH (set_frame h f s) Hnd) as (-> & -> & -> & -> & -> & -> & -> & Hfr').
  { intros h' Hin. rewrite Hfr, decide_False by set_solver. apply Hp. set_solver. }
  split_and!; try done. intros h'. rewrite Hfr', Hfr.
  destruct (decide (h = h')) as [->|Hne].
  - rewrite decide_False, decide_True by set_solver. by rewrite Hw.
  - destruct (decide (h' ∈ l)); [by rewrite decide_True by set_solver|].
    by rewrite decide_False by set_solver.
Qed.

(** *** The queues under one change of a frame *)

Definition clean_entry (f : frame T) : Prop :=
  ∀ a, f = FSendEntering a → a = mkSend (value_ a) false false.

Ltac at_frame Hfr h' h :=
  destruct (decide (h' = h)) as [->|?]; [|rewrite ?Hfr by done].

Lemma q_quiet c c' (fr fr' : handle → frame T) h :
  queues_ok c fr → receiver_waiters_ c' = receiver_waiters_ c →
  sender_waiters_ c' = sender_waiters_ c → (∀ h', h' ≠ h → fr' h' = fr h') →
  parked (fr h) = false → parked (fr' h) = false → clean_entry (fr' h) →
  queues_ok c' fr'.
Proof.
  intros [Hrn Hrw Hr0 Hsn Hsw Hsf] Hrc Hsc Hfr Hp Hp' Hcl.
  split; rewrite ?Hrc, ?Hsc; try done.
  - intros h'. at_frame Hfr h' h; [|apply Hrw]. rewrite Hrw. split; intros E;
      [by rewrite E in Hp|by rewrite E in Hp'].
  - intros h' x. at_frame Hfr h' h; [|apply Hr0]. intros E. by rewrite E in Hp'.
  - intros h' v. at_frame Hfr h' h; [|apply Hsw]. rewrite Hsw. split; intros E;
      [by rewrite E in Hp|by rewrite E in Hp'].
  - intros h' a. at_frame Hfr h' h; [|apply Hsf]. intros [E|E]; [by rewrite E in Hp'|].
    by apply Hcl.
Qed.

Lemma q_pop_recv c c' (fr fr' : handle → frame T) r rest :
  queues_ok c fr → receiver_waiters_ c = r :: rest → receiver_waiters_ c' = rest →
  sender_waiters_ c' = sender_waiters_ c → (∀ h', h' ≠ r → fr' h' = fr h') →
  parked (fr' r) = false → clean_entry (fr' r) → queues_ok c' fr'.
Proof.
  intros [Hrn Hrw Hr0 Hsn Hsw Hsf] Hr Hrc Hsc Hfr Hp' Hcl.
  assert (fr r = FRecvWaiting None) as Hfr0 by (apply Hrw; rewrite Hr; set_solver).
  rewrite Hr in Hrn. apply NoDup_cons in Hrn as [Hnin Hrn].
  split; rewrite ?Hrc, ?Hsc; try done.
  - intros h'. at_frame Hfr h' r.
    + split; [done|]. intros E. by rewrite E in Hp'.
    + rewrite <-Hrw, Hr. set_solver.
  - intros h' x. at_frame Hfr h' r; [|apply Hr0]. intros E. by rewrite E in Hp'.
  - intros h' v. at_frame Hfr h' r; [|apply Hsw]. rewrite Hsw, Hfr0.
    split; intros E; [done|by rewrite E in Hp'].
  - intros h' a. at_frame Hfr h' r; [|apply Hsf]. intros [E|E]; [by rewrite E in Hp'|].
    by apply Hcl.
Qed.

Lemma q_pop_send c c' (fr fr' : handle → frame T) h v rest :
  queues_ok c fr → sender_waiters_ c = (h, v) :: rest → sender_waiters_ c' = rest →
  receiver_waiters_ c' = receiver_waiters_ c → (∀ h', h' ≠ h → fr' h' = fr h') →
  parked (fr' h) = false → clean_entry (fr' h) → queues_ok c' fr'.
Proof.
  intros [Hrn Hrw Hr0 Hsn Hsw Hsf] Hs Hsc Hrc Hfr Hp' Hcl.
  assert (fr h = FSendWaiting (mkSend v false false)) as Hfr0
    by (apply Hsw; rewrite Hs; set_solver).
  rewrite Hs in Hsn. simpl in Hsn. apply NoDup_cons in Hsn as [Hnin Hsn].
  split; rewrite ?Hrc, ?Hsc; try done.
  - intros h'. at_frame Hfr h' h; [|apply Hrw]. rewrite Hrw, Hfr0.
    split; intros E; [done|by rewrite E in Hp'].
  - intros h' x. at_frame Hfr h' h; [|apply Hr0]. intros E. by rewrite E in Hp'.
  - intros h' w. at_frame Hfr h' h.
    + split; [intros Hin|intros E; by rewrite E in Hp'].
      exfalso. apply Hnin. apply list_elem_of_fmap. by exists (h, w).
    + rewrite <-Hsw, Hs. set_solver.
  - intros h' a. at_frame Hfr h' h; [|apply Hsf]. intros [E|E]; [by rewrite E in Hp'|].
    by apply Hcl.
Qed.

Lemma q_push_recv c c' (fr fr' : handle → frame T) h :
  queues_ok c fr → receiver_waiters_ c' = receiver_waiters_ c ++ [h] →
  sender_waiters_ c' = sender_waiters_ c → (∀ h', h' ≠ h → fr' h' = fr h') →
  parked (fr h) = false → fr' h = FRecvWaiting None → queues_ok c' fr'.
Proof.
  intros [Hrn Hrw Hr0 Hsn Hsw Hsf] Hrc Hsc Hfr Hp Hp'.
  assert (h ∉ receiver_waiters_ c) as Hnin by (rewrite Hrw; intros E; by rewrite E in Hp).
  split; rewrite ?Hrc, ?Hsc; try done.
  - apply NoDup_app. split_and!; [done|set_solver|apply NoDup_singleton].
  - intros h'. at_frame Hfr h' h; [rewrite Hp'; set_solver|]. rewrite <-Hrw. set_solver.
  - intros h' x. at_frame Hfr h' h; [|apply Hr0]. congruence.
  - intros h' v. at_frame Hfr h' h; [|apply Hsw]. rewrite Hsw, Hp'.
    split; intros E; [by rewrite E in Hp|done].
  - intros h' a. at_frame Hfr h' h; [|apply Hsf]. rewrite Hp'. by intros [].
Qed.

Lemma q_push_send c c' (fr fr' : handle → frame T) h v :
  queues_ok c fr → sender_waiters_ c' = sender_waiters_ c ++ [(h, v)] →
  receiver_waiters_ c' = receiver_waiters_ c → (∀ h', h' ≠ h → fr' h' = fr h') →
  parked (fr h) = false → fr' h = FSendWaiting (mkSend v false false) →
  queues_ok c' fr'.
Proof.
  intros [Hrn Hrw Hr0 Hsn Hsw Hsf] Hsc Hrc Hfr Hp Hp'.
  assert (∀ w, (h, w) ∉ sender_waiters_ c) as Hnin
    by (intros w; rewrite Hsw; intros E; by rewrite E in Hp).
  split; rewrite ?Hrc, ?Hsc; try done.
  - intros h'. at_frame Hfr h' h; [|apply Hrw]. rewrite Hrw, Hp'.
    split; intros E; [by rewrite E in Hp|done].
  - intros h' x. at_frame Hfr h' h; [|apply Hr0]. congruence.
  - rewrite fmap_app. apply NoDup_app. split_and!; [done| |apply NoDup_singleton].
    intros h' ([? w] & -> & Hin)%list_elem_of_fmap. simpl.
    rewrite list_elem_of_singleton. intros ->. by eapply Hnin.
  - intros h' w. at_frame Hfr h' h.
    + rewrite Hp', elem_of_app, list_elem_of_singleton. specialize (Hnin w). naive_solver.
    + rewrite <-Hsw. set_solver.
  - intros h' a. at_frame Hfr h' h; [|apply Hsf]. rewrite Hp'. intros []; by simplify_eq.
Qed.
End Invariant.

(** ** Operations that complete at once

    [await_ready] and [await_suspend] make the same attempt; they differ only
    when it fails. *)

Section Attempts.
Context {T : Type}.
Implicit Types (s : csys T) (c : Channel T) (h r : handle) (a : SendAwaitable T).

Definition send_now a c : option (SendAwaitable T * Channel T * list (effect T)) :=
  if closed_ c then Some (mark_failed a, c, [])
  else match receiver_waiters_ c with
  | r :: rest =>
      Some (mark_sent a,
            mkChan (buffer_ c) (capacity_ c) (closed_ c) rest (sender_waiters_ c),
            [PutResult r (value_ a); Wake r])
  | [] => if length (buffer_ c) <? capacity_ c
          then Some (mark_sent a, push_back (value_ a) c, []) else None
  end.

Definition enqueue_sender h a c : Channel T :=
  mkChan (buffer_ c) (capacity_ c) (closed_ c) (receiver_waiters_ c)
         (sender_waiters_ c ++ [(h, value_ a)]).

Lemma send_ready_now a c :
  Send_await_ready a c =
  match send_now a c with Some (a', c', es) => (true, a', c', es) | None => (false, a, c, []) end.
Proof.
  unfold Send_await_ready, send_now. destruct (closed_ c); [done|].
  destruct (receiver_waiters_ c); [by destruct (_ <? _)|done].
Qed.

Lemma send_suspend_now h a c :
  Send_await_suspend h a c =
  match send_now a c with
  | Some (a', c', es) => (false, a', c', es)
  | None => (true, a, enqueue_sender h a c, [])
  end.
Proof.
  unfold Send_await_suspend, send_now, enqueue_sender. destruct (closed_ c); [done|].
  destruct (receiver_waiters_ c); [by destruct (_ <? _)|done].
Qed.

Definition recv_now c : option (option T * Channel T * list (effect T)) :=
  match buffer_ c with
  | v :: b => let '(c', es) := pop_front b c in Some (Some v, c', es)
  | [] => if closed_ c then Some (None, c, []) else None
  end.

Definition enqueue_receiver h c : Channel T :=
  mkChan (buffer_ c) (capacity_ c) (closed_ c) (receiver_waiters_ c ++ [h]) (sender_waiters_ c).

Lemma recv_ready_now c :
  Receive_await_ready c =
  match recv_now c with Some (r, c', es) => (true, r, c', es) | None => (false, None, c, []) end.
Proof.
  unfold Receive_await_ready, recv_now.
  destruct (buffer_ c); [by destruct (closed_ c)|by destruct (pop_front _ c)].
Qed.

Lemma recv_suspend_now h c :
  Receive_await_suspend h c =
  match recv_now c with
  | Some (r, c', es) => (false, r, c', es)
  | None => (true, None, enqueue_receiver h c, [])
  end.
Proof.
  unfold Receive_await_suspend, recv_now, enqueue_receiver.
  destruct (buffer_ c); [by destruct (closed_ c)|by destruct (pop_front _ c)].
Qed.

(** *** The object's shape is preserved *)

Lemma send_now_ok a c a' c' es : chan_ok c → send_now a c = Some (a', c', es) → chan_ok c'.
Proof.
  intros [Hcap Hpos Hr Hs] Hn. unfold send_now in Hn.
  destruct (closed_ c) eqn:Hcl; simplify_eq;
    [split; rewrite ?Hcl in *; naive_solver|].
  destruct (receiver_waiters_ c) as [|r rest] eqn:Hq; simplify_eq/=.
  - destruct (length (buffer_ c) <? capacity_ c) eqn:Hlt; simplify_eq.
    apply Nat.ltb_lt in Hlt. split; simpl; rewrite ?length_app; simpl; rewrite ?Hq; try done;
      [lia|intros [? _]%Hs; lia].
  - destruct (Hr ltac:(done)) as [Hb _]. split; simpl; try done.
Qed.

Lemma enqueue_sender_ok h a c : chan_ok c → send_now a c = None → chan_ok (enqueue_sender h a c).
Proof.
  intros [Hcap Hpos Hr Hs] Hn. unfold send_now in Hn.
  destruct (closed_ c) eqn:Hcl; simplify_eq.
  destruct (receiver_waiters_ c) eqn:Hq; simplify_eq.
  destruct (length (buffer_ c) <? capacity_ c) eqn:Hlt; simplify_eq.
  apply Nat.ltb_ge in Hlt. split; simpl; rewrite ?Hq; try done.
  intros _. split; [lia|done].
Qed.

Lemma recv_now_ok c (x : option T) c' es : chan_ok c → recv_now c = Some (x, c', es) → chan_ok c'.
Proof.
  intros [Hcap Hpos Hr Hs] Hn. unfold recv_now, pop_front in Hn.
  destruct (buffer_ c) as [|v b] eqn:Hb.
  { destruct (closed_ c) eqn:Hcl; simplify_eq. split; rewrite ?Hb, ?Hcl in *; naive_solver lia. }
  simpl in *. destruct (sender_waiters_ c) as [|[h w] rest] eqn:Hq; simplify_eq/=.
  - split; simpl; try done; [lia|]. by intros [? _]%Hr.
  - destruct (Hs ltac:(done)) as [Hl Hcl]. split; simpl; rewrite ?length_app; simpl;
      try done; try lia; [by intros [? _]%Hr|]. intros _. split; [lia|done].
Qed.

Lemma enqueue_receiver_ok h c :
  chan_ok c → recv_now c = None → sender_waiters_ c = [] ∧ chan_ok (enqueue_receiver h c).
Proof.
  intros [Hcap Hpos Hr Hs] Hn. unfold recv_now in Hn.
  destruct (buffer_ c) as [|v b] eqn:Hb; [|by destruct (pop_front b c)].
  destruct (closed_ c) eqn:Hcl; simplify_eq.
  assert (sender_waiters_ c = []) as Hq.
  { destruct (sender_waiters_ c); [done|]. destruct (Hs ltac:(done)). simpl in *. lia. }
  split; [done|]. split; simpl; rewrite ?Hb, ?Hq; try done; lia.
Qed.

Lemma close_ok c : chan_ok c → chan_ok (Close c).1.
Proof.
  intros [Hcap Hpos Hr Hs]. unfold Close. destruct (closed_ c) eqn:Hcl; simpl.
  - split; rewrite ?Hcl in *; naive_solver.
  - by split.
Qed.
End Attempts.

Create HintDb frames.
#[export] Hint Rewrite @frame_of_set_chan @frame_of_accept @frame_of_deliver
  @frame_of_note_send @frame_of_finish_send @frame_of_finish_recv @frame_of_set : frames.

Section Steps.
Context {T : Type}.
Implicit Types (s : csys T) (c : Channel T) (h r : handle) (a : SendAwaitable T).

Ltac other_frame :=
  intros; autorewrite with frames; rewrite ?decide_False by congruence; try done.
Ltac this_frame := autorewrite with frames; rewrite ?decide_True by done; try done.
(** Frame [h] changes between two states that are not parked. *)
Ltac quiet s h := apply (q_quiet (chan s) _ (frame_of s) _ h); [done..|other_frame|done|this_frame|this_frame].

Lemma logs_prefix (l1 l2 l : list T) : l1 `prefix_of` l2 → l = l1 → l `prefix_of` l2.
Proof. by intros ? ->. Qed.

Lemma cinv_send_now s h v a' c' es :
  cinv s → parked (frame_of s h) = false →
  send_now (mkSend v false false) (chan s) = Some (a', c', es) →
  cinv (finish_send h a' (apply_effects es (note_send a' false (set_chan c' s)))).
Proof.
  intros [Hub Hc Hq [Hf Ho Hpre]] Hp Hn. pose proof (send_now_ok _ _ _ _ _ Hc Hn) as Hc'.
  unfold send_now in Hn. destruct (closed_ (chan s)) eqn:Hcl; simplify_eq/=.
  { split; try done; [quiet s h|]. split; simpl; [done|congruence|done]. }
  specialize (Ho eq_refl).
  destruct (receiver_waiters_ (chan s)) as [|r rest] eqn:Hr.
  - destruct (length (buffer_ (chan s)) <? capacity_ (chan s)) eqn:Hlt; simplify_eq/=.
    assert (sender_waiters_ (chan s) = []) as Hs.
    { apply Nat.ltb_lt in Hlt. destruct (sender_waiters_ (chan s)) eqn:E; [done|].
      destruct (co_send _ Hc) as [? _]; [by rewrite E|lia]. }
    split; try done; [quiet s h|].
    rewrite Hs, app_nil_r in Ho.
    split; simpl; rewrite ?Hs; [by rewrite app_assoc, Hf|by rewrite Ho, app_nil_r|].
    by rewrite Ho.
  - simplify_eq/=. destruct (co_recv _ Hc) as [Hb _]; [by rewrite Hr|].
    assert (frame_of s r = FRecvWaiting None) as Hfr.
    { apply (qo_rwait _ _ Hq). rewrite Hr. set_solver. }
    assert (h ≠ r) as Hne by (intros ->; by rewrite Hfr in Hp).
    assert (sender_waiters_ (chan s) = []) as Hs.
    { destruct (sender_waiters_ (chan s)) eqn:E; [done|].
      destruct (co_send _ Hc) as [Hl _]; [by rewrite E|].
      rewrite Hb in Hl. simpl in Hl. pose proof (co_pos _ Hc). lia. }
    rewrite (handoff_effects r v) by done. split; try done.
    + lazymatch goal with |- queues_ok ?c _ =>
        apply (q_quiet c c (frame_of (set_frame r (FRecvGranted (Some v)) s)) _ h) end;
        [|done|done|other_frame|other_frame|this_frame|this_frame].
      apply (q_pop_recv (chan s) _ (frame_of s) _ r rest); [done|done|done|done|other_frame|..];
        this_frame.
    + rewrite Hb, app_nil_r in Hf. rewrite Hs, app_nil_r in Ho.
      split; simpl; rewrite ?Hb, ?Hs, ?app_nil_r; [by rewrite Hf|by rewrite Ho|by rewrite Ho].
Qed.

Lemma cinv_send_enter s h v :
  cinv s → parked (frame_of s h) = false →
  cinv (set_frame h (FSendEntering (mkSend v false false)) s).
Proof.
  intros [Hub Hc Hq Hl] Hp. split; try done; [|by destruct Hl].
  apply (q_quiet (chan s) _ (frame_of s) _ h); [done..|other_frame|done|this_frame|].
  this_frame. intros a ?. by simplify_eq.
Qed.

Lemma cinv_send_block s h v :
  cinv s → parked (frame_of s h) = false →
  send_now (mkSend v false false) (chan s) = None →
  cinv (set_frame h (FSendWaiting (mkSend v false false))
         (note_send (mkSend v false false) true
           (set_chan (enqueue_sender h (mkSend v false false) (chan s)) s))).
Proof.
  intros [Hub Hc Hq [Hf Ho Hpre]] Hp Hn.
  pose proof (enqueue_sender_ok h _ _ Hc Hn) as Hc'. split; try done.
  - eapply (q_push_send (chan s) _ (frame_of s) _ h v); [done..|other_frame|done|this_frame].
  - split; simpl; [done| |].
    + intros Hcl. rewrite Ho by done. by rewrite fmap_app, app_assoc.
    + etrans; [done|]. by apply prefix_app_r.
Qed.

Lemma cinv_recv_now s h x c' es :
  cinv s → parked (frame_of s h) = false → recv_now (chan s) = Some (x, c', es) →
  cinv (finish_recv h x (apply_effects es (log_deliver (option_list x) (set_chan c' s)))).
Proof.
  intros [Hub Hc Hq [Hf Ho Hpre]] Hp Hn. pose proof (recv_now_ok _ _ _ _ Hc Hn) as Hc'.
  unfold recv_now in Hn. destruct (buffer_ (chan s)) as [|v b] eqn:Hb.
  { destruct (closed_ (chan s)) eqn:Hcl; simplify_eq/=.
    split; try done; [quiet s h|].
    split; simpl; [by rewrite Hb, !app_nil_r in *|congruence|done]. }
  unfold pop_front in Hn. destruct (sender_waiters_ (chan s)) as [|[q w] rest] eqn:Hs;
    simplify_eq/=.
  - split; try done; [quiet s h|].
    split; simpl; [by rewrite <-app_assoc|done|done].
  - assert (frame_of s q = FSendWaiting (mkSend w false false)) as Hfq.
    { apply (qo_swait _ _ Hq). rewrite Hs. set_solver. }
    assert (h ≠ q) as Hne by (intros ->; by rewrite Hfq in Hp).
    destruct (co_send _ Hc) as [_ Hcl]; [by rewrite Hs|]. specialize (Ho Hcl).
    rewrite (refill_effects q w) by done. split; try done.
    + lazymatch goal with |- queues_ok ?c _ =>
        apply (q_quiet c c (frame_of (set_frame q (FSendGranted (mkSend w true false)) s)) _ h)
      end; [|done|done|other_frame|other_frame|this_frame|this_frame].
      apply (q_pop_send (chan s) _ (frame_of s) _ q w rest); [done|done|done|done|other_frame|..];
        this_frame.
    + split; simpl.
      * rewrite <-Hf, <-!app_assoc. done.
      * intros _. rewrite Ho, ?Hs. simpl. by rewrite <-app_assoc.
      * rewrite Ho, ?Hs. simpl. apply prefix_app. by exists rest.*2.
Qed.

Lemma cinv_recv_enter s h :
  cinv s → parked (frame_of s h) = false → cinv (set_frame h FRecvEntering s).
Proof.
  intros [Hub Hc Hq Hl] Hp. split; try done; [quiet s h|by destruct Hl].
Qed.

Lemma cinv_recv_block s h :
  cinv s → parked (frame_of s h) = false → recv_now (chan s) = None →
  cinv (set_frame h (FRecvWaiting None) (set_chan (enqueue_receiver h (chan s)) s)).
Proof.
  intros [Hub Hc Hq [Hf Ho Hpre]] Hp Hn.
  destruct (enqueue_receiver_ok h _ Hc Hn) as [Hs Hc']. split; try done.
  eapply (q_push_recv (chan s) _ (frame_of s) _ h); [done..|other_frame|done|this_frame].
Qed.

Lemma cinv_finish_send s h a : cinv s → parked (frame_of s h) = false → cinv (finish_send h a s).
Proof. intros [Hub Hc Hq []] Hp. split; try done. quiet s h. Qed.

Lemma cinv_finish_recv s h x : cinv s → parked (frame_of s h) = false → cinv (finish_recv h x s).
Proof. intros [Hub Hc Hq []] Hp. split; try done. quiet s h. Qed.
End Steps.

Section Reachable.
Context {T : Type}.
Implicit Types (s : csys T) (c : Channel T) (h : handle).

(** The coroutines a channel can wake, receivers first. *)
Definition all_waiters c : list handle := receiver_waiters_ c ++ (sender_waiters_ c).*1.

Lemma waiter_parked s h :
  cinv s → h ∈ all_waiters (chan s) → parked (frame_of s h) = true.
Proof.
  intros Hinv. pose proof (ci_queues _ Hinv) as Hq. unfold all_waiters.
  rewrite elem_of_app. intros [Hin|([? v] & -> & Hin)%list_elem_of_fmap].
  - by apply (qo_rwait _ _ Hq) in Hin as ->.
  - apply (qo_swait _ _ Hq) in Hin. simpl. by rewrite Hin.
Qed.

Lemma parked_waiter s h :
  cinv s → parked (frame_of s h) = true → h ∈ all_waiters (chan s).
Proof.
  intros Hinv Hp. pose proof (ci_queues _ Hinv) as Hq. unfold all_waiters.
  rewrite elem_of_app. destruct (frame_of s h) as [| |a| | |x|] eqn:Hf; try done.
  - right. apply list_elem_of_fmap. exists (h, value_ a). split; [done|].
    apply (qo_swait _ _ Hq). rewrite Hf. f_equal. apply (qo_sflag _ _ Hq h). by left.
  - left. apply (qo_rwait _ _ Hq). rewrite Hf. f_equal. by apply (qo_rnone _ _ Hq h).
Qed.

Lemma all_waiters_nodup s : cinv s → NoDup (all_waiters (chan s)).
Proof.
  intros Hinv. pose proof (ci_queues _ Hinv) as Hq. unfold all_waiters.
  apply NoDup_app. split_and!; [apply (qo_rnodup _ _ Hq)| |apply (qo_snodup _ _ Hq)].
  intros h Hr ([? v] & -> & Hin)%list_elem_of_fmap.
  apply (qo_rwait _ _ Hq) in Hr. apply (qo_swait _ _ Hq) in Hin. simpl in *. congruence.
Qed.

Definition after_close s : csys T :=
  let '(c, es) := Close (chan s) in apply_effects es (set_chan c s).

(** What closing does, in one place. *)
Lemma after_close_spec s :
  cinv s → closed_ (chan s) = false →
  let s' := after_close s in
  chan s' = mkChan (buffer_ (chan s)) (capacity_ (chan s)) true [] [] ∧ ub s' = ub s ∧
  offered s' = offered s ∧ accepted s' = accepted s ∧ delivered s' = delivered s ∧
  sends_done s' = sends_done s ∧ recvs_done s' = recvs_done s ∧
  ∀ h, frame_of s' h = if decide (h ∈ all_waiters (chan s))
                       then default FIdle (wake_frame (frame_of s h)) else frame_of s h.
Proof.
  intros Hinv Hcl. unfold after_close, Close. rewrite Hcl. simpl. rewrite <-fmap_app.
  apply (wake_all_spec (all_waiters (chan s)) (set_chan _ s)).
  - by apply all_waiters_nodup.
  - intros h Hh. rewrite frame_of_set_chan. by apply waiter_parked.
Qed.

Lemma cinv_close s : cinv s → cinv (after_close s).
Proof.
  intros Hinv. destruct (closed_ (chan s)) eqn:Hcl.
  { unfold after_close, Close. rewrite Hcl. by rewrite set_chan_id. }
  pose proof (after_close_spec s Hinv Hcl) as (Hc & Hu & Hof & Hac & Hde & _ & _ & Hfr).
  set (s' := after_close s) in *.
  assert (∀ h, parked (frame_of s' h) = false) as Hnp.
  { intros h. rewrite Hfr. case_decide as Hin.
    - apply waiter_parked in Hin; [|done]. by destruct (frame_of s h).
    - apply not_true_is_false. intros Hp. by apply Hin, parked_waiter. }
  destruct Hinv as [Hub Hok Hq [Hf Ho Hpre]].
  split; [by rewrite Hu| | |].
  - rewrite Hc. by destruct Hok.
  - rewrite Hc. split; simpl; try constructor.
    + set_solver.
    + intros E. specialize (Hnp h). by rewrite E in Hnp.
    + intros h x E. specialize (Hnp h). by rewrite E in Hnp.
    + set_solver.
    + intros E. specialize (Hnp h). by rewrite E in Hnp.
    + intros h a [E|E]; [specialize (Hnp h); by rewrite E in Hnp|].
      rewrite Hfr in E. apply (qo_sflag _ _ Hq h). right.
      case_decide as Hin; [|done]. by destruct (frame_of s h).
  - split; rewrite ?Hc, ?Hof, ?Hac, ?Hde; done.
Qed.

Lemma cinv_step l s s' : cinv s → cstep l s = Some s' → cinv s'.
Proof.
  intros Hinv Hst. destruct l as [h v|h|h|h|]; simpl in Hst.
  - destruct (frame_of s h) eqn:Hp; simplify_eq.
    assert (parked (frame_of s h) = false) as Hnp by by rewrite Hp.
    rewrite send_ready_now in Hst. destruct (send_now _ _) as [[[a c] es]|] eqn:Hn;
      simplify_eq/=; [by eapply cinv_send_now|].
    rewrite set_chan_id. by apply cinv_send_enter.
  - destruct (frame_of s h) eqn:Hp; simplify_eq.
    assert (parked (frame_of s h) = false) as Hnp by by rewrite Hp.
    rewrite recv_ready_now in Hst. destruct (recv_now _) as [[[x c] es]|] eqn:Hn;
      simplify_eq/=; [by eapply cinv_recv_now|].
    unfold apply_effects. simpl. apply cinv_recv_enter; [|done].
    destruct Hinv as [Hub Hc Hq [Hf Ho Hpre]]. split; try done.
    split; simpl; by rewrite ?app_nil_r.
  - assert (parked (frame_of s h) = false) as Hnp by (by destruct (frame_of s h)).
    destruct (frame_of s h) as [|a| | | | |] eqn:Hp; simplify_eq.
    + assert (a = mkSend (value_ a) false false) as Ha.
      { apply (qo_sflag _ _ (ci_queues _ Hinv) h). by right. }
      rewrite Ha in Hst. set (v := value_ a) in *. clearbody v.
      rewrite send_suspend_now in Hst. destruct (send_now _ _) as [[[a' c] es]|] eqn:Hn;
        simplify_eq/=; [eapply cinv_send_now|eapply cinv_send_block]; by rewrite ?Hp.
    + rewrite recv_suspend_now in Hst. destruct (recv_now _) as [[[x c] es]|] eqn:Hn;
        simplify_eq/=; [eapply cinv_recv_now; by rewrite ?Hp|].
      unfold apply_effects. simpl.
      assert (cinv (set_frame h (FRecvWaiting None) (set_chan (enqueue_receiver h (chan s)) s)))
        as [Hub Hc Hq [Hf Ho Hpre]] by (apply cinv_recv_block; by rewrite ?Hp).
      split; try done. split; simpl in *; by rewrite ?app_nil_r.
  - destruct (frame_of s h) eqn:Hp; simplify_eq;
      [apply cinv_finish_send|apply cinv_finish_recv]; by rewrite ?Hp.
  - assert (s' = after_close s) as ->.
    { unfold after_close. destruct (Close (chan s)). by simplify_eq. }
    by apply cinv_close.
Qed.

Lemma cinv_init c n : Channel_ctor n = Some c → cinv (cinit c).
Proof.
  unfold Channel_ctor. destruct (1 <=? n) eqn:Hn; intros; simplify_eq.
  apply Nat.leb_le in Hn. split; try done.
  - split; simpl; try done; lia.
  - split; simpl; try constructor; unfold frame_of; simpl; rewrite ?phase_of_empty;
      try set_solver; try done.
Qed.

Definition chan_reachable (n : nat) s : Prop :=
  ∃ c, Channel_ctor n = Some c ∧ reachable cstep (cinit c) s.

Lemma chan_reachable_inv n s : chan_reachable n s → cinv s.
Proof.
  intros (c & Hc & Hr). revert Hr. apply reachable_inv; [by eapply cinv_init|].
  intros; by eapply cinv_step.
Qed.
End Reachable.

(** ** Exactly-once accounting *)

Section Accounting.
Context {T : Type} `{EqDecision T}.
Implicit Types (s : csys T) (h : handle) (v : T).

Definition occ v (l : list T) : nat := length (filter (λ x, v = x) l).

Lemma occ_app v l1 l2 : occ v (l1 ++ l2) = occ v l1 + occ v l2.
Proof. unfold occ. by rewrite filter_app, length_app. Qed.

(** Values whose [Send] returned true, and values returned by [Receive]. *)
Definition sent_values s : list T :=
  omap (λ x : handle * T * bool, if x.2 then Some x.1.2 else None) (sends_done s).
Definition received_values s : list T :=
  omap (λ x : handle * option T, x.2) (recvs_done s).

(** Coroutines whose [Send] will return true for [v], whose [Receive] will
    return [v]: woken, not yet resumed. *)
Definition sending v (f : frame T) : bool :=
  match f with
  | FSendWaiting a | FSendGranted a => Send_await_resume a && bool_decide (v = value_ a)
  | _ => false
  end.
Definition receiving v (f : frame T) : bool :=
  match f with
  | FRecvWaiting (Some x) | FRecvGranted (Some x) => bool_decide (v = x)
  | _ => false
  end.

Definition acct v s : Prop :=
  occ v (accepted s) = occ v (sent_values s) + count (sending v) (frames s) ∧
  occ v (delivered s) = occ v (received_values s) + count (receiving v) (frames s).

Lemma occ_one v x : occ v [x] = Nat.b2n (bool_decide (v = x)).
Proof. unfold occ. rewrite filter_cons. by repeat case_decide; case_bool_decide. Qed.

Lemma sent_values_log h v b s :
  sent_values (log_send h v b s) = sent_values s ++ (if b then [v] else []).
Proof. unfold sent_values. simpl. rewrite omap_app. by destruct b. Qed.

Lemma received_values_log h x s :
  received_values (log_recv h x s) = received_values s ++ option_list x.
Proof. unfold received_values. simpl. rewrite omap_app. by destruct x. Qed.

(** The counts after one frame changed. *)
Lemma counts_set v h f s :
  count (sending v) (frames (set_frame h f s)) + Nat.b2n (sending v (frame_of s h)) =
  count (sending v) (frames s) + Nat.b2n (sending v f) ∧
  count (receiving v) (frames (set_frame h f s)) + Nat.b2n (receiving v (frame_of s h)) =
  count (receiving v) (frames s) + Nat.b2n (receiving v f).
Proof. split; by apply count_set. Qed.

Lemma acct_handoff v r x s :
  frame_of s r = FRecvWaiting None → acct v s →
  acct v (log_deliver [x] (set_frame r (FRecvGranted (Some x)) s)).
Proof.
  intros Hr [H1 H2]. destruct (counts_set v r (FRecvGranted (Some x)) s) as [C1 C2].
  rewrite Hr in *. unfold acct, sent_values, received_values in *. simpl in *.
  rewrite ?occ_app, ?occ_one. lia.
Qed.

Lemma acct_refill v h x s :
  frame_of s h = FSendWaiting (mkSend x false false) → acct v s →
  acct v (log_accept [x] (set_frame h (FSendGranted (mkSend x true false)) s)).
Proof.
  intros Hh [H1 H2]. destruct (counts_set v h (FSendGranted (mkSend x true false)) s) as [C1 C2].
  rewrite Hh in *. unfold acct, sent_values, received_values in *. simpl in *.
  rewrite ?occ_app, ?occ_one. lia.
Qed.

(** Completing a send accounts for the value it accepted, if any. *)
Lemma acct_finish_send v h a s s' :
  frame_of s h = FIdle ∨ (∃ a0, frame_of s h = FSendEntering a0) →
  occ v (accepted s) =
    occ v (sent_values s) + count (sending v) (frames s) +
    (if Send_await_resume a then occ v [value_ a] else 0) →
  occ v (delivered s) = occ v (received_values s) + count (receiving v) (frames s) →
  s' = finish_send h a s → acct v s'.
Proof.
  intros Hh H1 H2 ->. destruct (counts_set v h FIdle s) as [C1 C2].
  assert (sending v (frame_of s h) = false ∧ receiving v (frame_of s h) = false) as [E1 E2]
    by (destruct Hh as [->|[? ->]]; done).
  rewrite E1, E2 in *. unfold finish_send. split.
  - rewrite sent_values_log, occ_app. change (sent_values _) with (sent_values s).
    simpl in *. destruct (Send_await_resume a); simpl in *; [lia|].
    change (occ v []) with 0. lia.
  - change (received_values _) with (received_values s). simpl in *. lia.
Qed.

Lemma acct_finish_recv v h x s s' :
  frame_of s h = FIdle ∨ frame_of s h = FRecvEntering →
  occ v (accepted s) = occ v (sent_values s) + count (sending v) (frames s) →
  occ v (delivered s) =
    occ v (received_values s) + count (receiving v) (frames s) + occ v (option_list x) →
  s' = finish_recv h x s → acct v s'.
Proof.
  intros Hh H1 H2 ->. destruct (counts_set v h FIdle s) as [C1 C2].
  assert (sending v (frame_of s h) = false ∧ receiving v (frame_of s h) = false) as [E1 E2]
    by (destruct Hh as [->| ->]; done).
  rewrite E1, E2 in *. unfold finish_recv. split.
  - change (sent_values _) with (sent_values s). simpl in *. lia.
  - rewrite received_values_log, occ_app.
    change (received_values _) with (received_values s). simpl in *. lia.
Qed.

(** A frame change that neither sends nor receives. *)
Lemma acct_set_frame v h f s :
  sending v f = sending v (frame_of s h) → receiving v f = receiving v (frame_of s h) →
  acct v s → acct v (set_frame h f s).
Proof.
  intros Hs Hr [H1 H2]. destruct (counts_set v h f s) as [C1 C2]. rewrite Hs, Hr in *.
  unfold acct, sent_values, received_values in *. simpl in *. lia.
Qed.

Lemma acct_send_now v0 s h v a' c' es :
  cinv s → frame_of s h = FIdle ∨ (∃ a0, frame_of s h = FSendEntering a0) →
  send_now (mkSend v false false) (chan s) = Some (a', c', es) → acct v0 s →
  acct v0 (finish_send h a' (apply_effects es (note_send a' false (set_chan c' s)))).
Proof.
  intros Hinv Hh Hn [H1 H2]. unfold send_now in Hn.
  unfold sent_values, received_values in *.
  destruct (closed_ (chan s)); simplify_eq/=.
  { eapply (acct_finish_send v0 h); [..|reflexivity]; [exact Hh|unfold sent_values; simpl; lia|done]. }
  destruct (receiver_waiters_ (chan s)) as [|r rest] eqn:Hr.
  - destruct (_ <? _); simplify_eq/=. eapply (acct_finish_send v0 h); [..|reflexivity];
      [exact Hh|simpl|done]. rewrite occ_app. unfold sent_values. simpl. lia.
  - simplify_eq/=.
    assert (frame_of s r = FRecvWaiting None) as Hfr.
    { apply (qo_rwait _ _ (ci_queues _ Hinv)). rewrite Hr. set_solver. }
    assert (h ≠ r) as Hne by (intros ->; rewrite Hfr in Hh; by destruct Hh as [|[]]).
    rewrite (handoff_effects r v) by done.
    destruct (counts_set v0 r (FRecvGranted (Some v)) s) as [C1 C2]. rewrite Hfr in *.
    eapply (acct_finish_send _ h); [|..|done]; simpl in *;
      unfold sent_values, received_values; simpl; rewrite ?occ_app, ?occ_one; [|lia..].
    change (frame_of (set_frame r (FRecvGranted (Some v)) s) h = FIdle ∨
      ∃ a0, frame_of (set_frame r (FRecvGranted (Some v)) s) h = FSendEntering a0).
    by rewrite frame_of_set, decide_False.
Qed.

Lemma acct_recv_now v0 s h x c' es :
  cinv s → frame_of s h = FIdle ∨ frame_of s h = FRecvEntering →
  recv_now (chan s) = Some (x, c', es) → acct v0 s →
  acct v0 (finish_recv h x (apply_effects es (log_deliver (option_list x) (set_chan c' s)))).
Proof.
  intros Hinv Hh Hn [H1 H2]. unfold recv_now, pop_front in Hn.
  unfold sent_values, received_values in *.
  destruct (buffer_ (chan s)) as [|v b].
  { destruct (closed_ (chan s)); simplify_eq/=.
    eapply (acct_finish_recv v0 h); [..|reflexivity]; [exact Hh|done|simpl].
    rewrite app_nil_r. change (occ v0 []) with 0. rewrite Nat.add_0_r. done. }
  destruct (sender_waiters_ (chan s)) as [|[q w] rest] eqn:Hs; simplify_eq/=.
  - eapply (acct_finish_recv v0 h); [..|reflexivity]; [exact Hh|done|simpl].
    rewrite occ_app. unfold received_values. simpl. lia.
  - assert (frame_of s q = FSendWaiting (mkSend w false false)) as Hfq.
    { apply (qo_swait _ _ (ci_queues _ Hinv)). rewrite Hs. set_solver. }
    assert (h ≠ q) as Hne by (intros ->; rewrite Hfq in Hh; by destruct Hh).
    rewrite (refill_effects q w) by done.
    destruct (counts_set v0 q (FSendGranted (mkSend w true false)) s) as [C1 C2].
    rewrite Hfq in *.
    eapply (acct_finish_recv _ h); [|..|done]; simpl in *;
      unfold sent_values, received_values; simpl; rewrite ?occ_app, ?occ_one; [|lia..].
    change (frame_of (set_frame q (FSendGranted (mkSend w true false)) s) h = FIdle ∨
      frame_of (set_frame q (FSendGranted (mkSend w true false)) s) h = FRecvEntering).
    by rewrite frame_of_set, decide_False.
Qed.

Lemma acct_wakes v0 (l : list handle) s :
  NoDup l → (∀ h, h ∈ l → parked (frame_of s h) = true) → acct v0 s →
  acct v0 (apply_effects (Wake <$> l) s).
Proof.
  unfold apply_effects. revert s. induction l as [|h l IH]; intros s Hnd Hp Ha; [done|].
  apply NoDup_cons in Hnd as [Hh Hnd]. rewrite fmap_cons. cbn [foldl].
  assert (parked (frame_of s h) = true) as Hph by (apply Hp; set_solver).
  destruct (wake_frame (frame_of s h)) as [f|] eqn:Hw; [|by destruct (frame_of s h)].
  assert (apply_effect s (Wake h) = set_frame h f s) as -> by (simpl; by rewrite Hw).
  apply IH; [done| |].
  - intros h' Hin. rewrite frame_of_set, decide_False by set_solver. apply Hp. set_solver.
  - apply acct_set_frame; [..|done]; by destruct (frame_of s h); simplify_eq/=.
Qed.

Lemma acct_step v0 l s s' : cinv s → acct v0 s → cstep l s = Some s' → acct v0 s'.
Proof.
  intros Hinv Ha Hst. destruct l as [h v|h|h|h|]; simpl in Hst.
  - destruct (frame_of s h) eqn:Hp; simplify_eq.
    rewrite send_ready_now in Hst. destruct (send_now _ _) as [[[a c] es]|] eqn:Hn;
      simplify_eq/=; [eapply acct_send_now; eauto|].
    rewrite set_chan_id. by apply (acct_set_frame v0 h _ s); rewrite ?Hp.
  - destruct (frame_of s h) eqn:Hp; simplify_eq.
    rewrite recv_ready_now in Hst. destruct (recv_now _) as [[[x c] es]|] eqn:Hn;
      simplify_eq/=; [eapply acct_recv_now; eauto|].
    apply (acct_set_frame v0 h _ (log_deliver [] (set_chan (chan s) s)));
      [by rewrite frame_of_deliver, frame_of_set_chan, Hp..|]. destruct Ha as [H1 H2].
    split; simpl; rewrite ?app_nil_r; done.
  - destruct (frame_of s h) as [|a| | | | |] eqn:Hp; simplify_eq.
    + assert (a = mkSend (value_ a) false false) as Ha'.
      { apply (qo_sflag _ _ (ci_queues _ Hinv) h). by right. }
      rewrite Ha' in Hst. rewrite send_suspend_now in Hst.
      destruct (send_now _ _) as [[[a' c] es]|] eqn:Hn;
        simplify_eq/=; [eapply acct_send_now; eauto|].
      apply (acct_set_frame v0 h _ (note_send _ true (set_chan _ s))); [..|exact Ha];
        rewrite ?frame_of_note_send, ?frame_of_set_chan, ?Hp; done.
    + rewrite recv_suspend_now in Hst. destruct (recv_now _) as [[[x c] es]|] eqn:Hn;
        simplify_eq/=; [eapply acct_recv_now; eauto|].
      apply (acct_set_frame v0 h _ (log_deliver [] (set_chan (enqueue_receiver h (chan s)) s)));
        [by rewrite frame_of_deliver, frame_of_set_chan, Hp..|]. destruct Ha as [H1 H2].
      split; simpl; rewrite ?app_nil_r; done.
  - destruct Ha as [H1 H2]. destruct (frame_of s h) eqn:Hp; simplify_eq;
      destruct (counts_set v0 h FIdle s) as [C1 C2]; rewrite Hp in *;
      unfold acct, sent_values, received_values in *; simpl in *;
      rewrite ?omap_app, ?occ_app; simpl.
    + destruct (Send_await_resume a); simpl in *; [rewrite occ_one; lia|].
      change (occ v0 []) with 0. lia.
    + destruct result; simpl in *; [rewrite occ_one; lia|].
      change (occ v0 []) with 0. lia.
  - unfold Close in Hst. destruct (closed_ (chan s)) eqn:Hcl; simplify_eq; [done|].
    rewrite <-fmap_app. apply acct_wakes; [by apply all_waiters_nodup| |done].
    intros h Hh. rewrite frame_of_set_chan. by apply waiter_parked.
Qed.
End Accounting.

(** ** What a channel promises *)

Section Facts.
Context {T : Type}.
Implicit Types (s : csys T) (c : Channel T) (h : handle).

Lemma apply_effects_chan (es : list (effect T)) s : chan (apply_effects es s) = chan s.
Proof.
  unfold apply_effects. revert s. induction es as [|e es IH]; intros s; [done|].
  cbn [foldl]. rewrite IH. destruct e; simpl; by destruct (frame_of s h).
Qed.

Lemma chan_note_send a b s : chan (note_send a b s) = chan s.
Proof. unfold note_send. by destruct (sent_ a), b. Qed.

(** The capacity is fixed and a closed channel stays closed. *)
Lemma cstep_fixed l s s' :
  cstep l s = Some s' →
  capacity_ (chan s') = capacity_ (chan s) ∧
  (closed_ (chan s) = true → closed_ (chan s') = true).
Proof.
  intros Hst.
  destruct l as [h v|h|h|h|]; simpl in Hst; try destruct (frame_of s h); simplify_eq;
    try done;
    unfold Send_await_ready, Send_await_suspend, Receive_await_ready,
      Receive_await_suspend, pop_front, Close in Hst;
    repeat case_match; simplify_eq; simpl;
    rewrite ?apply_effects_chan, ?chan_note_send; simpl; done.
Qed.

Lemma chan_reachable_capacity n s : chan_reachable n s → capacity_ (chan s) = n.
Proof.
  intros (c & Hc & Hr). revert Hr.
  apply (reachable_inv cstep (λ s, capacity_ (chan s) = n)).
  - unfold Channel_ctor in Hc. by destruct (1 <=? n); simplify_eq.
  - intros l s1 s2 E Hst. rewrite <-E. by destruct (cstep_fixed l s1 s2 Hst).
Qed.
End Facts.

(** C6. FIFO without loss or reordering: whatever senders, receivers and a
    closer do, the values handed to receivers followed by the values in the
    buffer are exactly the accepted values in order of acceptance; values are
    accepted in the order in which their senders arrived; while the channel is
    open every arrived value that is not yet accepted is queued, in order; and
    the buffer never exceeds the capacity. *)
Theorem channel_fifo (T : Type) (n : nat) (s : csys T) :
  chan_reachable n s →
  delivered s ++ buffer_ (chan s) = accepted s ∧
  accepted s `prefix_of` offered s ∧
  (IsClosed (chan s) = false → offered s = accepted s ++ (sender_waiters_ (chan s)).*2) ∧
  Size (chan s) ≤ n.
Proof.
  intros Hr. pose proof (chan_reachable_inv n s Hr) as [_ [Hcap _ _ _] _ [Hf Ho Hp]].
  rewrite (chan_reachable_capacity n s Hr) in Hcap. by split_and!.
Qed.

(** Capacity 1: a receiver waits, three senders arrive (hand-off, buffered,
    queued), then the receiver comes back twice. *)
Definition chan_demo : list (clabel nat) :=
  [CRecv 9; CSuspend 9; CSend 1 10; CSend 2 20; CSend 3 30; CSuspend 3;
   CResume 9; CRecv 9; CRecv 9; CResume 3].

Definition chan_demo_state (k : nat) : option (csys nat) :=
  c ← Channel_ctor 1; run cstep (take k chan_demo) (cinit c).

Lemma chan_demo_reachable k s : chan_demo_state k = Some s → chan_reachable 1 s.
Proof.
  unfold chan_demo_state. simpl. intros Hrun. eexists. split; [done|].
  apply reachable_run. by exists (take k chan_demo).
Qed.

Lemma channel_fifo_witness :
  ∃ s, chan_demo_state 10 = Some s ∧ accepted s = [10; 20; 30] ∧
  (delivered s ++ buffer_ (chan s) = accepted s ∧
   accepted s `prefix_of` offered s ∧
   (IsClosed (chan s) = false → offered s = accepted s ++ (sender_waiters_ (chan s)).*2) ∧
   Size (chan s) ≤ 1).
Proof.
  eexists. do 2 (split; [vm_compute; reflexivity|]).
  apply channel_fifo. apply (chan_demo_reachable 10). vm_compute. reflexivity.
Defined.

(** C7. Exactly once: for every value, the number of times it was accepted is
    the number of times a [Send] of it returned true plus the woken sends about
    to return true; and the number of times it was delivered is the number of
    times a [Receive] returned it plus the woken receives about to return it.
    So no [Send] returns true without its value being accepted, none returns
    false after it was, and no value is received twice. *)
Theorem channel_exactly_once (T : Type) `{EqDecision T} (n : nat) (s : csys T) (v : T) :
  chan_reachable n s →
  occ v (accepted s) = occ v (sent_values s) + count (sending v) (frames s) ∧
  occ v (delivered s) = occ v (received_values s) + count (receiving v) (frames s).
Proof.
  intros (c & Hc & Hr).
  enough (cinv s ∧ acct v s) as [_ Ha] by exact Ha.
  revert Hr. apply (reachable_inv cstep (λ s, cinv s ∧ acct v s)).
  - split; [by eapply cinv_init|done].
  - intros l s1 s2 [Hi Ha] Hst. split; [by eapply cinv_step|by eapply acct_step].
Qed.

Lemma channel_exactly_once_witness :
  ∃ s, chan_demo_state 9 = Some s ∧ occ 30 (accepted s) = 1 ∧
  (occ 30 (accepted s) = occ 30 (sent_values s) + count (sending 30) (frames s) ∧
   occ 30 (delivered s) = occ 30 (received_values s) + count (receiving 30) (frames s)).
Proof.
  eexists. do 2 (split; [vm_compute; reflexivity|]).
  apply (channel_exactly_once nat 1). apply (chan_demo_reachable 9). vm_compute. reflexivity.
Defined.

(** No stranded coroutine: receivers are suspended only while there is
    nothing to receive (empty buffer, no suspended sender), senders only while
    the buffer is full, nobody on a closed channel; the waiter lists are exactly
    the suspended coroutines; and no coroutine is resumed, nor a result slot
    written, that is not suspended on the channel. *)
Theorem channel_waiting_discipline (T : Type) (n : nat) (s : csys T) (h : handle) :
  chan_reachable n s →
  ub s = false ∧
  (∀ x, frame_of s h = FRecvWaiting x →
     h ∈ receiver_waiters_ (chan s) ∧ buffer_ (chan s) = [] ∧
     sender_waiters_ (chan s) = [] ∧ IsClosed (chan s) = false) ∧
  (∀ a, frame_of s h = FSendWaiting a →
     (h, value_ a) ∈ sender_waiters_ (chan s) ∧ Size (chan s) = n ∧
     IsClosed (chan s) = false).
Proof.
  intros Hr. pose proof (chan_reachable_inv n s Hr) as [Hub [Hcap Hpos Hrecv Hsend] Hq _].
  rewrite (chan_reachable_capacity n s Hr) in *. split_and!; [done| |].
  - intros x Hx. pose proof (qo_rnone _ _ Hq h x Hx) as ->.
    assert (h ∈ receiver_waiters_ (chan s)) as Hin by by apply (qo_rwait _ _ Hq).
    destruct Hrecv as [Hb Hcl]; [by intros E; rewrite E in Hin; set_solver|].
    split_and!; try done. destruct (sender_waiters_ (chan s)); [done|].
    destruct Hsend as [Hl _]; [done|]. rewrite Hb in Hl. simpl in Hl. lia.
  - intros a Ha. assert ((h, value_ a) ∈ sender_waiters_ (chan s)) as Hin.
    { apply (qo_swait _ _ Hq). rewrite Ha. f_equal. apply (qo_sflag _ _ Hq h). by left. }
    destruct Hsend as [Hl Hcl]; [by intros E; rewrite E in Hin; set_solver|]. done.
Qed.

Lemma channel_waiting_discipline_witness :
  ∃ s, chan_demo_state 6 = Some s ∧
  ∀ a, frame_of s 3 = FSendWaiting a →
     (3, value_ a) ∈ sender_waiters_ (chan s) ∧ Size (chan s) = 1 ∧
     IsClosed (chan s) = false.
Proof.
  eexists. split; [vm_compute; reflexivity|].
  apply (channel_waiting_discipline nat 1). apply (chan_demo_reachable 6).
  vm_compute. reflexivity.
Defined.

(** Close semantics: [Close] on an open channel keeps the buffered values,
    wakes every suspended coroutine, and their operations answer false and
    nullopt; on the closed channel a [Send] completes at once with false, and a
    [Receive] completes at once, with the buffered values in order and nullopt
    once they are drained; a second [Close] does nothing. *)
Theorem channel_close (T : Type) (n : nat) (s : csys T) :
  chan_reachable n s → IsClosed (chan s) = false →
  ∃ s', cstep CClose s = Some s' ∧ ub s' = false ∧
    chan s' = mkChan (buffer_ (chan s)) n true [] [] ∧
    (∀ h a, frame_of s h = FSendWaiting a →
       frame_of s' h = FSendGranted a ∧ Send_await_resume a = false) ∧
    (∀ h x, frame_of s h = FRecvWaiting x → frame_of s' h = FRecvGranted None) ∧
    (∀ a, Send_await_resume (Send_await_ready a (chan s')).1.1.2 = false ∧
          (Send_await_ready a (chan s')).1.1.1 = true) ∧
    Receive_await_ready (chan s') =
      (true, head (buffer_ (chan s)), mkChan (tail (buffer_ (chan s))) n true [] [], []) ∧
    cstep CClose s' = Some s'.
Proof.
  intros Hr Hcl. pose proof (chan_reachable_inv n s Hr) as Hinv.
  pose proof (after_close_spec s Hinv Hcl) as (Hc & Hu & _ & _ & _ & _ & _ & Hfr).
  rewrite (chan_reachable_capacity n s Hr) in Hc.
  pose proof (ci_queues _ Hinv) as Hq. exists (after_close s). split_and!.
  - simpl. unfold after_close. by destruct (Close (chan s)).
  - rewrite Hu. by apply ci_ub.
  - done.
  - intros h a Ha. rewrite Hfr, decide_True by (apply parked_waiter; [done|by rewrite Ha]).
    rewrite Ha. split; [done|]. rewrite (qo_sflag _ _ Hq h a (or_introl Ha)). done.
  - intros h x Hx. rewrite Hfr, decide_True by (apply parked_waiter; [done|by rewrite Hx]).
    rewrite Hx. simpl. by rewrite (qo_rnone _ _ Hq h x Hx).
  - intros a. unfold Send_await_ready. rewrite Hc. simpl. split; [|done].
    unfold Send_await_resume. simpl. by rewrite andb_false_r.
  - unfold Receive_await_ready. rewrite Hc. simpl. by destruct (buffer_ (chan s)).
  - simpl. unfold Close. rewrite Hc. simpl. unfold apply_effects. simpl. f_equal.
    rewrite <-Hc. apply set_chan_id.
Qed.

Lemma channel_close_witness :
  ∃ s, chan_demo_state 6 = Some s ∧
  ∃ s', cstep CClose s = Some s' ∧ ub s' = false ∧
    chan s' = mkChan (buffer_ (chan s)) 1 true [] [] ∧
    (∀ h a, frame_of s h = FSendWaiting a →
       frame_of s' h = FSendGranted a ∧ Send_await_resume a = false) ∧
    (∀ h x, frame_of s h = FRecvWaiting x → frame_of s' h = FRecvGranted None) ∧
    (∀ a, Send_await_resume (Send_await_ready a (chan s')).1.1.2 = false ∧
          (Send_await_ready a (chan s')).1.1.1 = true) ∧
    Receive_await_ready (chan s') =
      (true, head (buffer_ (chan s)), mkChan (tail (buffer_ (chan s))) 1 true [] [], []) ∧
    cstep CClose s' = Some s'.
Proof.
  eexists. split; [vm_compute; reflexivity|].
  apply (channel_close nat 1); [|vm_compute; reflexivity].
  apply (chan_demo_reachable 6). vm_compute. reflexivity.
Defined.
