(* ===== verification/Race.v ===== *)
(** * Races: WhenAny and WithTimeout ([include/hotcoco/core/when_any.hpp],
      [include/hotcoco/core/timeout.hpp])

    Both start several children under a controller that outlives the caller,
    and suspend the caller on an event; each child, when its own code is done,
    tries to flip [first_completed] and only the one that succeeds stores its
    outcome and sets the event.  [RaceState] is the shared state as an
    interface; the machine and its theory are written once against it, and
    WhenAnySharedState, TimeoutState and TimeoutStateVoid are its instances.
    Every atomic access, the stores of the outcome, the event's critical
    sections and the resumptions are separate steps. *)
From stdpp Require Import pretty.
From S2P Require Import Prelude Errors SyncObject Event.

Class RaceState (St V O : Type) := {
  rs_init : St;
  rs_flag : St → bool;                       (* first_completed *)
  rs_cas : St → bool * St;                   (* compare_exchange_strong *)
  rs_child : nat → V → bool;                 (* what child i can produce *)
  rs_publish : nat → V → St → St;            (* the winner's stores *)
  rs_notify : St → AsyncEvent;
  rs_set_notify : AsyncEvent → St → St;
  rs_read : St → option O;                   (* what the caller reads on resumption *)
  rs_outcome : nat → V → O;                  (* what child i's result means *)
}.

Class RaceLaws (St V O : Type) `{RaceState St V O} := {
  rs_fresh : St → Prop;                      (* nothing was stored *)
  rs_init_ok : rs_fresh rs_init ∧ rs_flag rs_init = false ∧ rs_notify rs_init = new_event;
  rs_cas_ok s : rs_cas s = (negb (rs_flag s), (rs_cas s).2) ∧ rs_flag (rs_cas s).2 = true ∧
    rs_notify (rs_cas s).2 = rs_notify s ∧ (rs_fresh s → rs_fresh (rs_cas s).2) ∧
    rs_read (rs_cas s).2 = rs_read s;
  rs_publish_ok i v s : rs_fresh s → rs_child i v = true →
    rs_read (rs_publish i v s) = Some (rs_outcome i v);
  rs_publish_flag i v s : rs_flag (rs_publish i v s) = rs_flag s ∧
    rs_notify (rs_publish i v s) = rs_notify s;
  rs_notify_ok e s : rs_notify (rs_set_notify e s) = e ∧ rs_flag (rs_set_notify e s) = rs_flag s ∧
    rs_read (rs_set_notify e s) = rs_read s ∧ (rs_fresh s → rs_fresh (rs_set_notify e s));
}.

(** ** The machine *)

Section Race.
Context {St V O : Type} `{RS : RaceState St V O}.

Inductive rchild :=
  | RRunning                 (* the user's task, or the sleep *)
  | RAtCas (v : V)           (* done, before the compare-exchange *)
  | RWon (v : V)             (* before storing the outcome *)
  | RSetting                 (* before notify.Set() *)
  | RWaking (hs : list handle)
  | RFinished.

Inductive rcaller :=
  | RBefore                  (* before Wait's await_ready *)
  | RSuspending              (* before Wait's await_suspend *)
  | RSuspended
  | RResumed (r : option O).

Record rsys := RSys {
  shared : St;
  children : list rchild;
  caller : rcaller;
  winner : option (nat * V);
  rub : bool;
}.

Definition rinit (n : nat) : rsys := RSys rs_init (replicate n RRunning) RBefore None false.

Inductive rlabel :=
  | RCaller
  | RFinish (i : nat) (v : V)  (* child i's own code produces v *)
  | RChild (i : nat).          (* child i's next step in the race *)

Definition the_caller : handle := 0.

Definition resume_caller (s : rsys) : rsys :=
  match caller s with
  | RSuspended => RSys (shared s) (children s) (RResumed (rs_read (shared s))) (winner s) (rub s)
  | _ => RSys (shared s) (children s) (caller s) (winner s) true
  end.

(** [co_await state->notify.Wait()], then the read of the outcome. *)
Definition caller_step (s : rsys) : option rsys :=
  match caller s with
  | RBefore =>
      let '(ready, e) := Wait_await_ready (rs_notify (shared s)) in
      let st := rs_set_notify e (shared s) in
      Some (RSys st (children s) (if ready then RResumed (rs_read st) else RSuspending)
              (winner s) (rub s))
  | RSuspending =>
      let '(suspend, e) := Wait_await_suspend the_caller (rs_notify (shared s)) in
      let st := rs_set_notify e (shared s) in
      Some (RSys st (children s) (if suspend then RSuspended else RResumed (rs_read st))
              (winner s) (rub s))
  | RSuspended | RResumed _ => None
  end.

Definition set_child (i : nat) (c : rchild) (s : rsys) : rsys :=
  RSys (shared s) (<[i := c]> (children s)) (caller s) (winner s) (rub s).
Definition set_shared (st : St) (s : rsys) : rsys :=
  RSys st (children s) (caller s) (winner s) (rub s).

(** The body of a child after [co_await]ing its own work. *)
Definition child_step (i : nat) (c : rchild) (s : rsys) : option rsys :=
  match c with
  | RRunning | RFinished => None
  | RAtCas v =>
      let '(won, st) := rs_cas (shared s) in
      if won then
        let s' := set_child i (RWon v) (set_shared st s) in
        Some (RSys (shared s') (children s') (caller s') (Some (i, v)) (rub s'))
      else Some (set_child i RFinished (set_shared st s))
  | RWon v => Some (set_child i RSetting (set_shared (rs_publish i v (shared s)) s))
  | RSetting =>
      let '(e, to_wake) := Set_ (rs_notify (shared s)) in
      Some (set_child i (RWaking to_wake) (set_shared (rs_set_notify e (shared s)) s))
  | RWaking [] => Some (set_child i RFinished s)
  | RWaking (_ :: hs) => Some (set_child i (RWaking hs) (resume_caller s))
  end.

Definition rstep (l : rlabel) (s : rsys) : option rsys :=
  match l with
  | RCaller => caller_step s
  | RFinish i v =>
      match children s !! i with
      | Some RRunning => if rs_child i v then Some (set_child i (RAtCas v) s) else None
      | _ => None
      end
  | RChild i => c ← children s !! i; child_step i c s
  end.

(** ** Invariant *)

Definition racing (c : rchild) : bool :=
  match c with RRunning | RAtCas _ => true | _ => false end.
Definition lost_or_racing (c : rchild) : bool :=
  match c with RRunning | RAtCas _ | RFinished => true | _ => false end.
Definition can_produce (i : nat) (c : rchild) : Prop :=
  match c with RAtCas v => rs_child i v = true | _ => True end.

Definition waiting (c : rcaller) : list handle :=
  match c with RSuspended => [the_caller] | _ => [] end.
Definition is_resumed (c : rcaller) : bool := match c with RResumed _ => true | _ => false end.

(** Before and after the winner sets the event. *)
Definition before_set (s : rsys) : Prop :=
  rs_notify (shared s) = mkEvent false (waiting (caller s)) ∧ is_resumed (caller s) = false.
Definition after_set (o : O) (hs : list handle) (s : rsys) : Prop :=
  rs_notify (shared s) = mkEvent true [] ∧ hs = waiting (caller s) ∧
  rs_read (shared s) = Some o ∧
  (∀ r, caller s = RResumed r → r = Some o).
End Race.
Arguments rchild : clear implicits.
Arguments rcaller : clear implicits.
Arguments rsys : clear implicits.
Arguments rlabel : clear implicits.

Section Theory.
Context {St V O : Type} `{RL : RaceLaws St V O}.
Implicit Types (s : rsys St V O) (c : rchild V).

Definition stage_ok s (w : nat) (v : V) c : Prop :=
  match c with
  | RWon v' => v' = v ∧ before_set s ∧ rs_fresh (shared s)
  | RSetting => before_set s ∧ rs_read (shared s) = Some (rs_outcome w v)
  | RWaking hs => after_set (rs_outcome w v) hs s
  | RFinished => after_set (rs_outcome w v) [] s
  | _ => False
  end.

Record rinv s : Prop := {
  ri_flag : rs_flag (shared s) = bool_decide (is_Some (winner s));
  ri_produce i c : children s !! i = Some c → can_produce i c;
  ri_others i c : children s !! i = Some c →
    match winner s with
    | None => racing c = true
    | Some (w, _) => i ≠ w → lost_or_racing c = true
    end;
  ri_stage : match winner s with
    | None => before_set s ∧ rs_fresh (shared s)
    | Some (w, v) => rs_child w v = true ∧ ∃ c, children s !! w = Some c ∧ stage_ok s w v c
    end;
  ri_ub : rub s = false;
}.

Lemma rinit_inv n : rinv (rinit n).
Proof.
  destruct rs_init_ok as (Hf & Hfl & He). split; simpl; try done.
  - by intros i c [-> _]%lookup_replicate.
  - by intros i c [-> _]%lookup_replicate.
Qed.

(** The shared state is touched without a visible change, the caller moves. *)
Lemma rinv_caller s st k :
  rinv s → rs_flag st = rs_flag (shared s) → rs_read st = rs_read (shared s) →
  (rs_fresh (shared s) → rs_fresh st) →
  (before_set s → before_set (RSys st (children s) k (winner s) (rub s))) →
  (∀ o hs, after_set o hs s → after_set o hs (RSys st (children s) k (winner s) (rub s))) →
  rinv (RSys st (children s) k (winner s) (rub s)).
Proof.
  intros [Hf Hp Ho Hst Hub] Hfl Hrd Hfr Hb Ha. split; simpl; [by rewrite Hfl|done|done| |done].
  destruct (winner s) as [[w v]|].
  - destruct Hst as (Hc & c & Hw & Hok). split; [done|]. exists c. split; [done|].
    destruct c; simpl in *; rewrite ?Hrd; naive_solver.
  - naive_solver.
Qed.

Lemma rinv_caller_step s s' : rinv s → caller_step s = Some s' → rinv s'.
Proof.
  intros Hs Hst. unfold caller_step, Wait_await_ready, Wait_await_suspend in Hst.
  destruct (caller s) eqn:Hk; simplify_eq.
  - destruct (rs_notify_ok (rs_notify (shared s)) (shared s)) as (He & Hf & Hr & Hfr).
    apply rinv_caller; [done|done|done|done| |]; unfold before_set, after_set; simpl.
    + intros [Hn _]. rewrite He, Hn, Hk. simpl. done.
    + intros o hs (Hn & Hw & Hrd & _). rewrite He, Hr, Hn, Hk in *. simpl in *.
      split_and!; try done. intros r Hr'. by simplify_eq.
  - destruct (Event.signaled_ (rs_notify (shared s))) eqn:Hsig; simplify_eq;
      match goal with |- context[rs_set_notify ?e _] =>
        destruct (rs_notify_ok e (shared s)) as (He & Hf & Hr & Hfr) end;
      (apply rinv_caller; [done|done|done|done| |]); unfold before_set, after_set; simpl.
    + intros [Hn _]. by rewrite Hn in Hsig.
    + intros o hs (Hn & Hw & Hrd & _). rewrite He, Hr, Hn, Hk in *. simpl in *.
      split_and!; try done. intros r Hr'. by simplify_eq.
    + intros [Hn _]. rewrite He, Hn, Hk. done.
    + intros o hs (Hn & _). by rewrite Hn in Hsig.
Qed.

(** A child other than the winner moves on. *)
Lemma rinv_other s st i c c' :
  rinv s → children s !! i = Some c → can_produce i c' →
  (if decide (winner s = None) then racing c' = true else lost_or_racing c' = true) →
  (∀ v, winner s ≠ Some (i, v)) →
  rs_flag st = rs_flag (shared s) → rs_read st = rs_read (shared s) →
  rs_notify st = rs_notify (shared s) → (rs_fresh (shared s) → rs_fresh st) →
  rinv (set_child i c' (set_shared st s)).
Proof.
  intros [Hf Hp Ho Hst Hub] Hi Hcp Hrace Hw Hfl Hrd Hn Hfr.
  split; simpl; [by rewrite Hfl| | | |done].
  - intros j c2 [(<- & <- & _)|[_ Hj]]%list_lookup_insert_Some; eauto.
  - intros j c2 [(<- & <- & _)|[_ Hj]]%list_lookup_insert_Some; [|by apply Ho].
    destruct (winner s) as [[w v]|]; case_decide; done.
  - unfold before_set, after_set in *. destruct (winner s) as [[w v]|].
    + destruct Hst as (Hc & c0 & Hw0 & Hok). split; [done|]. exists c0. split.
      { rewrite list_lookup_insert_ne; [done|]. intros ->. by apply (Hw v). }
      destruct c0; simpl in *; unfold before_set, after_set in *; simpl;
        rewrite ?Hn, ?Hrd; naive_solver.
    + simpl. rewrite Hn. naive_solver.
Qed.

(** The winner moves to its next stage. *)
Lemma rinv_winner s s' w v c c' :
  rinv s → winner s = Some (w, v) → children s !! w = Some c →
  winner s' = Some (w, v) → children s' = <[w:=c']> (children s) →
  racing c' = false → rs_flag (shared s') = rs_flag (shared s) → rub s' = false →
  stage_ok s' w v c' → rinv s'.
Proof.
  intros [Hf Hp Ho Hst Hub] Hw Hc Hw' Hch Hrace Hfl Hub' Hok.
  rewrite Hw in *. split; rewrite ?Hw', ?Hfl, ?Hch; [done| | | |done].
  - intros j c2 [(<- & <- & _)|[_ Hj]]%list_lookup_insert_Some; [by destruct c'|eauto].
  - intros j c2 [(<- & <- & _)|[_ Hj]]%list_lookup_insert_Some; [done|eauto].
  - split; [by destruct Hst|]. exists c'. split; [|done].
    apply list_lookup_insert_eq. by eapply lookup_lt_Some.
Qed.

Lemma rinv_stage s i c :
  rinv s → children s !! i = Some c → lost_or_racing c = false →
  ∃ v, winner s = Some (i, v) ∧ rs_child i v = true ∧ stage_ok s i v c.
Proof.
  intros [Hf Hp Ho Hst Hub] Hi Hc. specialize (Ho i c Hi). destruct (winner s) as [[w v]|].
  - destruct (decide (i = w)) as [->|Hne]; [|specialize (Ho Hne); congruence].
    destruct Hst as (Hcv & c0 & Hw & Hok). exists v. by simplify_eq.
  - by destruct c.
Qed.

Lemma rinv_cas s i v :
  rinv s → children s !! i = Some (RAtCas v) →
  ∀ s', child_step i (RAtCas v) s = Some s' → rinv s'.
Proof.
  intros Hs Hi s' Hst. pose proof Hs as [Hf Hp Ho Hstg Hub]. simpl in Hst.
  destruct (rs_cas_ok (shared s)) as (Hc & Hf' & Hn & Hfr & Hrd). rewrite Hc, Hf in Hst.
  destruct (winner s) as [[w v0]|] eqn:Hw; simpl in Hst; simplify_eq.
  - assert (i ≠ w) as Hne.
    { intros ->. destruct Hstg as (_ & c & Hc' & Hok). by simplify_eq. }
    apply (rinv_other s _ i (RAtCas v)); try done.
    + case_decide; [congruence|done].
    + intros v' ?. simplify_eq.
    + by rewrite Hf', Hf, bool_decide_true by eauto.
  - destruct Hstg as [[Hb1 Hb2] Hfresh]. pose proof (lookup_lt_Some _ _ _ Hi) as Hlt.
    split; simpl; [done| | | |done].
    + intros j c2 [(<- & <- & _)|[_ Hj]]%list_lookup_insert_Some; eauto. done.
    + intros j c2 [(<- & <- & _)|[_ Hj]]%list_lookup_insert_Some; [done|].
      intros _. specialize (Ho j c2 Hj). by destruct c2.
    + split; [by apply (Hp _ _ Hi)|]. exists (RWon v). split; [by apply list_lookup_insert_eq|].
      simpl. unfold before_set. simpl. rewrite Hn. auto.
Qed.

Lemma rinv_win s i c s' :
  rinv s → children s !! i = Some c → lost_or_racing c = false →
  child_step i c s = Some s' → rinv s'.
Proof.
  intros Hs Hi Hc Hst. destruct (rinv_stage s i c Hs Hi Hc) as (v & Hw & Hcv & Hok).
  pose proof (ri_ub _ Hs) as Hub.
  destruct c as [|v'|v'| |hs|]; try discriminate Hc; simpl in Hst; unfold Set_ in *; simplify_eq.
  - destruct Hok as (-> & [Hb1 Hb2] & Hfr). destruct (rs_publish_flag i v (shared s)) as [Hfl Hn].
    apply (rinv_winner s _ i v (RWon v) RSetting); try done. split.
    + unfold before_set. simpl. by rewrite Hn.
    + simpl. by apply rs_publish_ok.
  - destruct Hok as ([Hb1 Hb2] & Hrd). rewrite Hb1 in *. simplify_eq/=.
    destruct (rs_notify_ok (mkEvent true []) (shared s)) as (He & Hfl & Hr & _).
    eapply (rinv_winner s _ i v RSetting); try done. simpl. unfold after_set. simpl.
    rewrite He, Hr. split_and!; try done. intros r Hk. by rewrite Hk in Hb2.
  - destruct Hok as (Hn & Hhs & Hrd & Hres). destruct hs as [|h hs]; simplify_eq.
    + apply (rinv_winner s _ i v (RWaking []) RFinished); done.
    + unfold resume_caller. destruct (caller s) eqn:Hk; simpl in Hhs; simplify_eq.
      eapply (rinv_winner s _ i v); try done. simpl. unfold after_set. simpl.
      split_and!; try done. intros r Hr. by simplify_eq.
Qed.

Lemma rinv_step l s s' : rinv s → rstep l s = Some s' → rinv s'.
Proof.
  intros Hs Hst. destruct l as [|i v|i]; simpl in Hst.
  - by eapply rinv_caller_step.
  - destruct (children s !! i) as [[]|] eqn:Hi; simplify_eq.
    destruct (rs_child i v) eqn:Hc; simplify_eq.
    replace (set_child i (RAtCas v) s) with (set_child i (RAtCas v) (set_shared (shared s) s)) by done.
    apply (rinv_other s _ i RRunning); try done.
    + by case_decide.
    + intros v' Hw. pose proof (ri_stage _ Hs) as Hsg. rewrite Hw in Hsg.
      destruct Hsg as (_ & c & Hc' & Hok). by simplify_eq.
  - destruct (children s !! i) as [c|] eqn:Hi; simplify_eq/=.
    destruct (lost_or_racing c) eqn:Hc; [|by eapply rinv_win].
    destruct c; try discriminate Hc; [done|by eapply rinv_cas|done].
Qed.

Lemma race_reachable_inv n s : reachable rstep (rinit n) s → rinv s.
Proof. apply reachable_inv; [apply rinit_inv|]. intros; by eapply rinv_step. Qed.

(** ** What every race satisfies *)

Lemma race_single_winner n s :
  reachable rstep (rinit n) s →
  rub s = false ∧
  (∀ r, caller s = RResumed r →
     ∃ w v, winner s = Some (w, v) ∧ rs_child w v = true ∧ r = Some (rs_outcome w v)).
Proof.
  intros Hs%race_reachable_inv. split; [apply (ri_ub _ Hs)|]. intros r Hr.
  pose proof (ri_stage _ Hs) as Hst. destruct (winner s) as [[w v]|].
  - destruct Hst as (Hc & c & _ & Hok). exists w, v. split_and!; [done..|].
    destruct c; simpl in Hok; unfold before_set, after_set in *; rewrite ?Hr in Hok; naive_solver.
  - destruct Hst as [[_ Hb] _]. by rewrite Hr in Hb.
Qed.

Lemma winner_stable l s s' x : winner s = Some x → rinv s → rstep l s = Some s' → winner s' = Some x.
Proof.
  intros Hw Hs Hst. destruct l as [|i v|i]; simpl in Hst.
  - unfold caller_step in Hst. repeat case_match; simplify_eq/=; done.
  - repeat case_match; simplify_eq/=; done.
  - destruct (children s !! i) as [c|]; simplify_eq/=.
    unfold child_step, resume_caller in Hst. pose proof (rs_cas_ok (shared s)) as [Hc _].
    pose proof (ri_flag _ Hs) as Hf. rewrite Hw in Hf.
    destruct (rs_cas (shared s)) as [b st]. simplify_eq/=. rewrite Hf in Hst.
    destruct c; simpl in Hst; repeat case_match; simplify_eq/=; done.
Qed.

Definition rchild_work c : nat :=
  match c with
  | RRunning => 6 | RAtCas _ => 5 | RWon _ => 4 | RSetting => 3
  | RWaking hs => 1 + length hs | RFinished => 0
  end.
Definition rcaller_work (k : rcaller O) : nat :=
  match k with RBefore => 3 | RSuspending => 2 | RSuspended => 1 | RResumed _ => 0 end.
Definition rwork s : nat := rcaller_work (caller s) + sum_list (rchild_work <$> children s).

Lemma waiters_le s :
  rinv s → length (Event.waiters_ (rs_notify (shared s))) ≤ 1.
Proof.
  intros Hs. pose proof (ri_stage _ Hs) as Hst. destruct (winner s) as [[w v]|].
  - destruct Hst as (_ & c & _ & Hok). destruct c; simpl in Hok; unfold before_set, after_set in *;
      destruct_and?; try done; match goal with H : rs_notify _ = _ |- _ => rewrite H end;
      simpl; try lia; destruct (caller s); simpl; lia.
  - destruct Hst as [[-> _] _]. destruct (caller s); simpl; lia.
Qed.

Lemma rwork_step l s s' : rinv s → rstep l s = Some s' → rwork s' < rwork s.
Proof.
  intros Hs Hst. unfold rwork. destruct l as [|i v|i]; simpl in Hst.
  - unfold caller_step in Hst. repeat case_match; simplify_eq/=; lia.
  - destruct (children s !! i) as [[]|] eqn:Hi; simplify_eq. destruct (rs_child i v); simplify_eq.
    pose proof (sum_list_insert rchild_work _ _ _ (RAtCas v) Hi). simpl in *. lia.
  - destruct (children s !! i) as [c|] eqn:Hi; simplify_eq/=.
    pose proof (sum_list_insert rchild_work (children s)) as Hsum. pose proof (waiters_le s Hs).
    unfold child_step, resume_caller, Set_ in Hst.
    destruct c as [|v|v| |[|h hs]|]; simpl in Hst; repeat case_match; simplify_eq/=;
      match goal with |- context[<[i:=?c']> _] => specialize (Hsum i _ c' Hi) end;
      simpl in *; try lia. all: destruct (caller s); simpl in *; lia.
Qed.

Lemma rwork_run ls s s' : rinv s → run rstep ls s = Some s' → length ls + rwork s' ≤ rwork s.
Proof.
  revert s. induction ls as [|l ls IH]; intros s Hs Hrun; simplify_eq/=; [lia|].
  destruct (rstep l s) as [s1|] eqn:Hst; simplify_eq/=.
  pose proof (rwork_step l s s1 Hs Hst). specialize (IH s1 (rinv_step l s s1 Hs Hst) Hrun). lia.
Qed.

Definition at_rest c : bool := match c with RRunning | RFinished => true | _ => false end.

(** Bounded length, and no deadlock once some child is done. *)
Lemma race_progress n s :
  reachable rstep (rinit n) s →
  (∀ ls s', run rstep ls (rinit (O:=O) n) = Some s' → length ls ≤ 6 * n + 3) ∧
  ((∃ r, caller s = RResumed r) ∨ Forall (λ c, c = RRunning) (children s) ∨
   (∃ l s', rstep l s = Some s' ∧ ∀ i v, l ≠ RFinish i v)).
Proof.
  intros Hr. pose proof (race_reachable_inv n s Hr) as Hs. split.
  - intros ls s' Hrun. pose proof (rwork_run ls _ s' (rinit_inv n) Hrun) as Hw.
    unfold rwork at 2 in Hw. simpl in Hw. rewrite sum_list_replicate in Hw. simpl in Hw. lia.
  - destruct (caller s) eqn:Hk; [| | |by left; eauto].
    1-2: right; right; exists RCaller; simpl; unfold caller_step; rewrite Hk;
      repeat case_match; eauto.
    destruct (decide (Forall (λ c, at_rest c = true) (children s))) as [Hall|Hex].
    + right. left. apply Forall_lookup. intros i c Hi.
      pose proof (Forall_lookup_1 _ _ _ _ Hall Hi) as Hrest.
      destruct c; try discriminate Hrest; [done|exfalso].
      pose proof (ri_stage _ Hs) as Hst. pose proof (ri_others _ Hs i _ Hi) as Ho.
      destruct (winner s) as [[w v]|]; [|done].
      destruct Hst as (_ & c' & Hw & Hok). pose proof (Forall_lookup_1 _ _ _ _ Hall Hw) as Hrest'.
      destruct c'; try discriminate Hrest'; [done|].
      simpl in Hok. destruct Hok as (_ & Hh & _). by rewrite Hk in Hh.
    + apply not_Forall_Exists, Exists_exists in Hex; [|intros c; apply _].
      destruct Hex as (c & (i & Hi)%list_elem_of_lookup & Hc). right. right.
      exists (RChild i). simpl. rewrite Hi. simpl. unfold child_step.
      destruct c as [|v|v| |[|h hs]|]; simpl; repeat case_match; eauto; by destruct Hc.
Qed.
End Theory.

(** ** WhenAny *)

Record WhenAnyResult (T : Type) := mkAny { any_index : nat; any_value : T }.
Arguments mkAny {T}.
Arguments any_index {T}.
Arguments any_value {T}.

Record WhenAnySharedState (T : Type) := mkAnyState {
  any_notify : AsyncEvent;
  any_result : option (WhenAnyResult T);
  any_first_completed : bool;
}.
Arguments mkAnyState {T}.
Arguments any_notify {T}.
Arguments any_result {T}.
Arguments any_first_completed {T}.

Section WhenAny.
Context {T : Type}.
Implicit Types (st : WhenAnySharedState T).

(** [MakeWhenAnyChild], after its task: the race and the winner's store. *)
Definition WhenAny_cas st : bool * WhenAnySharedState T :=
  if any_first_completed st then (false, st)
  else (true, mkAnyState (any_notify st) (any_result st) true).
Definition WhenAny_publish (index : nat) (value : T) st : WhenAnySharedState T :=
  mkAnyState (any_notify st) (Some (mkAny index value)) (any_first_completed st).

#[export] Instance when_any_race : RaceState (WhenAnySharedState T) T (WhenAnyResult T) := {
  rs_init := mkAnyState new_event None false;
  rs_flag := any_first_completed;
  rs_cas := WhenAny_cas;
  rs_child _ _ := true;
  rs_publish := WhenAny_publish;
  rs_notify := any_notify;
  rs_set_notify e st := mkAnyState e (any_result st) (any_first_completed st);
  rs_read := any_result;       (* state->result.value() *)
  rs_outcome := mkAny;
}.
#[export] Instance when_any_laws : RaceLaws (WhenAnySharedState T) T (WhenAnyResult T).
Proof.
  refine {| rs_fresh _ := True |}; try done. intros [e r []]; done.
Defined.

(** [WhenAny]: an empty vector is an error; otherwise the race. *)
Definition WhenAny (n : nat) : Errors.Result (rsys (WhenAnySharedState T) T (WhenAnyResult T)) error_code :=
  if n =? 0 then Err (make_error_code InvalidArgument) else Ok (rinit n).
End WhenAny.

(** ** WithTimeout *)

Record TimeoutError := mkTimeoutError { duration : Z }.

Definition TimeoutError_Message (e : TimeoutError) : string :=
  ("Operation timed out after " +:+ pretty (duration e) +:+ "ms")%string.

(** [duration_cast<milliseconds>] of [count] periods of [num/den] seconds. *)
Definition duration_cast_ms (count num den : Z) : Z := Z.quot (count * num * 1000) den.

Record TimeoutState (T : Type) := mkTimeoutState {
  to_notify : AsyncEvent;
  to_first_completed : bool;
  user_result : option T;
  timed_out : bool;
}.
Arguments mkTimeoutState {T}.
Arguments to_notify {T}.
Arguments to_first_completed {T}.
Arguments user_result {T}.
Arguments timed_out {T}.

Section Timeout.
Context {T : Type} (timeout_ms : Z).
Implicit Types (st : TimeoutState T).

Definition Timeout_cas st : bool * TimeoutState T :=
  if to_first_completed st then (false, st)
  else (true, mkTimeoutState (to_notify st) true (user_result st) (timed_out st)).

(** [TimeoutUserChild] and [TimeoutTimerChild]: the winner's store. *)
Definition TimeoutUserChild_publish (value : T) st : TimeoutState T :=
  mkTimeoutState (to_notify st) (to_first_completed st) (Some value) (timed_out st).
Definition TimeoutTimerChild_publish st : TimeoutState T :=
  mkTimeoutState (to_notify st) (to_first_completed st) (user_result st) true.

(** [WithTimeout], after the wait. *)
Definition WithTimeout_result st : option (Errors.Result T TimeoutError) :=
  if timed_out st then Some (Err (mkTimeoutError timeout_ms))
  else v ← user_result st; Some (Ok v).

(** Child 0 is the user's task, child 1 the timer, which has no value. *)
Definition Timeout_child (i : nat) (v : option T) : bool :=
  match i, v with 0, Some _ => true | 1, None => true | _, _ => false end.
Definition Timeout_publish (i : nat) (v : option T) st : TimeoutState T :=
  match v with Some v => TimeoutUserChild_publish v st | None => TimeoutTimerChild_publish st end.

#[export] Instance timeout_race
    : RaceState (TimeoutState T) (option T) (Errors.Result T TimeoutError) := {
  rs_init := mkTimeoutState new_event false None false;
  rs_flag := to_first_completed;
  rs_cas := Timeout_cas;
  rs_child := Timeout_child;
  rs_publish := Timeout_publish;
  rs_notify := to_notify;
  rs_set_notify e st := mkTimeoutState e (to_first_completed st) (user_result st) (timed_out st);
  rs_read := WithTimeout_result;
  rs_outcome _ v := match v with Some v => Ok v | None => Err (mkTimeoutError timeout_ms) end;
}.
#[export] Instance timeout_laws
    : RaceLaws (TimeoutState T) (option T) (Errors.Result T TimeoutError).
Proof.
  refine {| rs_fresh st := timed_out st = false |}; try done.
  - intros [e [] r t]; done.
  - intros i [v|] [e f r t] Hf _; simpl in *; by subst.
  - intros i [v|] [e f r t]; done.
Defined.
End Timeout.

(** [WithTimeout] of a [Task<void>] keeps no value. *)
Record TimeoutStateVoid := mkTimeoutVoid {
  tv_notify : AsyncEvent;
  tv_first_completed : bool;
  tv_timed_out : bool;
}.

Section TimeoutVoid.
Context (timeout_ms : Z).

Definition TimeoutVoid_cas (st : TimeoutStateVoid) : bool * TimeoutStateVoid :=
  if tv_first_completed st then (false, st)
  else (true, mkTimeoutVoid (tv_notify st) true (tv_timed_out st)).
Definition TimeoutVoid_publish (i : nat) (st : TimeoutStateVoid) : TimeoutStateVoid :=
  if i =? 0 then st else mkTimeoutVoid (tv_notify st) (tv_first_completed st) true.
Definition WithTimeoutVoid_result (st : TimeoutStateVoid) : VoidResult TimeoutError :=
  if tv_timed_out st then VoidErr (mkTimeoutError timeout_ms) else VoidOk.

#[export] Instance timeout_void_race : RaceState TimeoutStateVoid unit (VoidResult TimeoutError) := {
  rs_init := mkTimeoutVoid new_event false false;
  rs_flag := tv_first_completed;
  rs_cas := TimeoutVoid_cas;
  rs_child i _ := i <? 2;
  rs_publish i _ := TimeoutVoid_publish i;
  rs_notify := tv_notify;
  rs_set_notify e st := mkTimeoutVoid e (tv_first_completed st) (tv_timed_out st);
  rs_read st := Some (WithTimeoutVoid_result st);
  rs_outcome i _ := if i =? 0 then VoidOk else VoidErr (mkTimeoutError timeout_ms);
}.
#[export] Instance timeout_void_laws : RaceLaws TimeoutStateVoid unit (VoidResult TimeoutError).
Proof.
  refine {| rs_fresh st := tv_timed_out st = false |}; try done.
  - intros [e [] t]; done.
  - intros [|i] v [e f t] Hf _; simpl in *; by subst.
  - intros [|i] v [e f t]; done.
Defined.
End TimeoutVoid.

(** ** What the races promise *)

Abbreviation when_any_sys T := (rsys (WhenAnySharedState T) T (WhenAnyResult T)).

(** C17. WhenAny has one winner: it is InvalidArgument exactly for no tasks;
    otherwise, however the tasks and the caller interleave, the caller's handle
    is resumed at most once and never while it runs, the result it returns is
    the index and value of the one task that won the race, and that winner
    never changes afterwards, so losers have no effect. *)
Theorem when_any_winner (T : Type) (n : nat) :
  (∀ s0, WhenAny (T:=T) n = Ok s0 ↔ 0 < n ∧ s0 = rinit n) ∧
  (∀ s : when_any_sys T, reachable rstep (rinit n) s →
    rub s = false ∧
    (∀ r, caller s = RResumed r →
       ∃ w v, winner s = Some (w, v) ∧ r = Some (mkAny w v)) ∧
    (∀ l s' x, winner s = Some x → rstep l s = Some s' → winner s' = Some x)).
Proof.
  split.
  - intros s0. unfold WhenAny, Ok, Err. destruct n; simpl; naive_solver lia.
  - intros s Hr. destruct (race_single_winner n s Hr) as [Hub Hres]. split_and!; [done| |].
    + intros r (w & v & Hw & _ & ->)%Hres. eauto.
    + intros l s' x Hw. by apply winner_stable, (race_reachable_inv n).
Qed.

(** Task 1 finishes first, while the caller is between its check of the event
    and its suspension; task 0 loses. *)
Definition when_any_demo : list (rlabel nat) :=
  [RCaller; RFinish 1 7; RFinish 0 8; RChild 1; RChild 0; RCaller; RChild 1; RChild 1; RChild 1].

Lemma when_any_winner_witness :
  ∃ s : when_any_sys nat, run rstep when_any_demo (rinit 2) = Some s ∧
  caller s = RResumed (Some (mkAny 1 7)) ∧
  (rub s = false ∧
    (∀ r, caller s = RResumed r →
       ∃ w v, winner s = Some (w, v) ∧ r = Some (mkAny w v)) ∧
    (∀ l s' x, winner s = Some x → rstep l s = Some s' → winner s' = Some x)).
Proof.
  eexists. split; [vm_compute; reflexivity|]. split; [reflexivity|].
  apply (when_any_winner nat 2). apply reachable_run. exists when_any_demo. vm_compute. reflexivity.
Defined.

(** C18. WithTimeout: the caller gets the value of the user's task, or a
    timeout error with the given duration, never both and never neither (no
    access to an empty result); no schedule is longer than 15 steps, and as
    soon as one of the two children is done the caller's return cannot be
    blocked. *)
Theorem with_timeout_race (T : Type) (ms : Z)
    (s : rsys (TimeoutState T) (option T) (Errors.Result T TimeoutError)) :
  reachable (rstep (RS := timeout_race ms)) (rinit (RS := timeout_race ms) 2) s →
  rub s = false ∧
  (∀ r, caller s = RResumed r →
     (∃ v, winner s = Some (0, Some v) ∧ r = Some (Ok v)) ∨
     (winner s = Some (1, None) ∧ r = Some (Err (mkTimeoutError ms)))) ∧
  (∀ ls s', run (rstep (RS := timeout_race (T:=T) ms)) ls (rinit (RS := timeout_race ms) 2) = Some s' →
     length ls ≤ 15) ∧
  ((∃ r, caller s = RResumed r) ∨ Forall (λ c, c = RRunning) (children s) ∨
   (∃ l s', rstep (RS := timeout_race ms) l s = Some s' ∧ ∀ i v, l ≠ RFinish i v)).
Proof.
  intros Hr. destruct (race_single_winner 2 s Hr) as [Hub Hres].
  destruct (race_progress 2 s Hr) as [Hlen Hprog]. split_and!; [done| |exact Hlen|exact Hprog].
  intros r (w & v & Hw & Hc & ->)%Hres. simpl in *.
  destruct w as [|[|w]], v as [v|]; try discriminate Hc; [left|right]; eauto.
Qed.

(** The timer fires first; the user's task then finishes and changes nothing. *)
Definition timeout_demo : list (rlabel (option nat)) :=
  [RCaller; RCaller; RFinish 1 None; RFinish 0 (Some 5); RChild 1; RChild 0; RChild 1; RChild 1;
   RChild 1].

Lemma with_timeout_race_witness :
  ∃ s, run (rstep (RS := timeout_race 250)) timeout_demo (rinit (RS := timeout_race 250) 2) = Some s ∧
  caller s = RResumed (Some (Err (mkTimeoutError 250))) ∧
  (rub s = false ∧
  (∀ r, caller s = RResumed r →
     (∃ v, winner s = Some (0, Some v) ∧ r = Some (Ok v)) ∨
     (winner s = Some (1, None) ∧ r = Some (Err (mkTimeoutError 250)))) ∧
  (∀ ls s', run (rstep (RS := timeout_race (T:=nat) 250)) ls (rinit (RS := timeout_race 250) 2) = Some s' →
     length ls ≤ 15) ∧
  ((∃ r, caller s = RResumed r) ∨ Forall (λ c, c = RRunning) (children s) ∨
   (∃ l s', rstep (RS := timeout_race 250) l s = Some s' ∧ ∀ i v, l ≠ RFinish i v))).
Proof.
  eexists. split; [vm_compute; reflexivity|]. split; [reflexivity|].
  apply with_timeout_race, reachable_run. exists timeout_demo. vm_compute. reflexivity.
Defined.
