(* ===== verification/TaskGroup.v ===== *)
(** * TaskGroup ([include/hotcoco/core/task_group.hpp])

    A counter of outstanding tasks and an event that is set while the group is
    empty; awaiting the group is awaiting the event.  The group is another
    [SyncObject]: its release operations are the start and the completion of a
    task, each also available as the two separate accesses it consists of, so
    that both the cooperative use (a start and a completion run without
    interleaving) and the concurrent one can be run. *)
From S2P Require Import Prelude SyncObject Event.
Local Open Scope Z_scope.

(** [SharedState]. *)
Record TaskGroup := mkGroup { size_ : Z; event_ : AsyncEvent }.

(** The constructor sets the event: an empty group does not block. *)
Definition TaskGroup_ctor : TaskGroup := mkGroup 0 (Set_ new_event).1.

(** [Start]: [event.Reset()], then [size.fetch_add(1)]. *)
Definition Start_reset (g : TaskGroup) : TaskGroup := mkGroup (size_ g) (Reset_ (event_ g)).
Definition Start_add (g : TaskGroup) : TaskGroup := mkGroup (to_size (size_ g + 1)) (event_ g).
Definition Start (g : TaskGroup) : TaskGroup := Start_add (Start_reset g).

(** The completion callback: [size.fetch_sub(1) == 1], then [event.Set()]. *)
Definition Callback_sub (g : TaskGroup) : bool * TaskGroup :=
  (size_ g =? 1, mkGroup (to_size (size_ g - 1)) (event_ g)).
Definition Callback_set (g : TaskGroup) : TaskGroup * list handle :=
  let '(e, w) := Set_ (event_ g) in (mkGroup (size_ g) e, w).
Definition Callback (g : TaskGroup) : TaskGroup * list handle :=
  let '(last, g') := Callback_sub g in
  if last then Callback_set g' else (g', []).

Definition Size (g : TaskGroup) : Z := size_ g.
Definition Empty (g : TaskGroup) : bool := Size g =? 0.

(** [operator co_await] is [event.Wait()]. *)
Definition Group_await_ready (g : TaskGroup) : bool * TaskGroup :=
  let '(b, e) := Wait_await_ready (event_ g) in (b, mkGroup (size_ g) e).
Definition Group_await_suspend (h : handle) (g : TaskGroup) : bool * TaskGroup :=
  let '(b, e) := Wait_await_suspend h (event_ g) in (b, mkGroup (size_ g) e).

Inductive group_op :=
  | OpStart | OpDone                               (* without interleaving *)
  | OpStartReset | OpStartAdd | OpDoneSub | OpDoneSet.

#[export] Instance group_sync : SyncObject TaskGroup unit group_op := {
  so_ready _ := Group_await_ready;
  so_suspend _ := Group_await_suspend;
  so_try _ g := (false, g);
  so_release r g :=
    match r with
    | OpStart => (Start g, [])
    | OpDone => Callback g
    | OpStartReset => (Start_reset g, [])
    | OpStartAdd => (Start_add g, [])
    | OpDoneSub => ((Callback_sub g).2, [])
    | OpDoneSet => Callback_set g
    end;
  so_leave _ := None;
  so_public _ := true;
}.

#[export] Instance group_laws : SyncLaws TaskGroup unit group_op.
Proof.
  refine {| so_queue _ g := waiters_ (event_ g); so_wakes _ _ := tt |}.
  - done.
  - done.
  - intros [] [] h [z [[] w]]; simpl; [by rewrite app_nil_r|reflexivity].
  - intros [] [] [z [[] w]]; simpl; rewrite ?app_nil_r; try done;
      unfold Callback; simpl; destruct (z =? 1); simpl; by rewrite ?app_nil_r.
Defined.

Abbreviation group_sys := (sys TaskGroup unit group_op).
Definition group_reachable (s : group_sys) : Prop := reachable step (init TaskGroup_ctor) s.

(** Tasks started and not yet completed, in a history of cooperative
    operations (latest first), where a task completes after its start. *)
Fixpoint outstanding (e : list group_op) : Z :=
  match e with
  | OpStart :: e' => outstanding e' + 1
  | OpDone :: e' => outstanding e' - 1
  | _ :: e' => outstanding e'
  | [] => 0
  end.
Fixpoint cooperative (e : list group_op) : Prop :=
  match e with
  | OpStart :: e' => cooperative e'
  | OpDone :: e' => cooperative e' ∧ 0 < outstanding e'
  | [] => True
  | _ => False
  end.

Definition group_inv (g : TaskGroup) (_ : unit → nat) (e : list group_op) : Prop :=
  cooperative e → Z.of_nat (length e) < size_mod →
  size_ g = outstanding e ∧ signaled_ (event_ g) = (size_ g =? 0) ∧
  (signaled_ (event_ g) = true → waiters_ (event_ g) = []).

Lemma outstanding_bound e : cooperative e → 0 <= outstanding e <= Z.of_nat (length e).
Proof.
  induction e as [|[] e IH]; simpl; try done; intros He; try destruct He;
    specialize (IH ltac:(done)); lia.
Qed.

Lemma group_inv_ok B : object_inv B group_inv.
Proof.
  split; unfold group_inv; try done.
  - intros [] h [z [b w]] n n' e HJ _ _ Hc Hl. specialize (HJ Hc Hl). simpl in *.
    destruct b; simpl; [done|]. destruct HJ as (? & ? & _). done.
  - intros r [z [b w]] n n' e _ HJ _ _ Hc Hl. simpl in Hl.
    destruct r; try done; simpl in Hc.
    + specialize (HJ Hc ltac:(lia)). simpl in *. destruct HJ as (-> & _ & _).
      pose proof (outstanding_bound e Hc).
      rewrite to_size_id by (unfold size_ok; lia). split_and!; [done| |done].
      symmetry. apply Z.eqb_neq. lia.
    + destruct Hc as [Hc Hpos]. specialize (HJ Hc ltac:(lia)). simpl in *.
      destruct HJ as (-> & Hsig & Hw). pose proof (outstanding_bound e Hc).
      unfold Callback, Callback_sub, Callback_set, Set_. simpl.
      rewrite to_size_id by (unfold size_ok; lia).
      rewrite (proj2 (Z.eqb_neq (outstanding e) 0)) in Hsig by lia. subst b.
      destruct (Z.eqb_spec (outstanding e) 1) as [->|Hne]; simpl; [done|].
      split_and!; [done| |done]. symmetry. apply Z.eqb_neq. lia.
Qed.

Lemma group_reachable_inv s : group_reachable s → group_inv (obj s) (λ k, owners k s) (externs s).
Proof.
  intros Hr. by apply (object_invariant (size (phases s)) _ TaskGroup_ctor);
    [apply group_inv_ok|..].
Qed.

(** Structured concurrency, when starts and completions do not interleave
    with each other (one thread, as the executors run them): the group counts
    exactly the tasks that are outstanding; awaiting it lets a coroutine
    through at once exactly when none is; a coroutine is suspended on it only
    while some task is outstanding; and the completion of the last task resumes
    all of them, in the order of their suspension. *)
Theorem task_group_cooperative s :
  group_reachable s → cooperative (externs s) → Z.of_nat (length (externs s)) + 1 < size_mod →
  ub s = false ∧ Size (obj s) = outstanding (externs s) ∧
  (Group_await_ready (obj s)).1 = Empty (obj s) ∧
  (∀ h, phase_in s h = Waiting tt → 0 < Size (obj s)) ∧
  (Size (obj s) = 1 → Callback (obj s) = (mkGroup 0 (mkEvent true []), waiters_ (event_ (obj s)))).
Proof.
  intros Hr Hc Hl. assert (wf s) as Hwf by (by eapply wf_reachable; [|exact Hr]).
  destruct (group_reachable_inv s Hr Hc ltac:(lia)) as (Hsz & Hsig & Hw).
  pose proof (outstanding_bound _ Hc). split_and!.
  - by apply wf_ub.
  - done.
  - by unfold Group_await_ready, Wait_await_ready, Empty, Size.
  - intros h Hh. apply (wf_waiting s Hwf tt) in Hh. simpl in Hh. unfold Size.
    destruct (Z.eqb_spec (size_ (obj s)) 0) as [H0|H0]; [|lia].
    rewrite Hw in Hh by done. set_solver.
  - intros H1. unfold Callback, Callback_sub, Callback_set, Set_, Size in *. rewrite H1 in *.
    simpl in *. rewrite Hsig. done.
Qed.

(** Two tasks, one waiter. *)
Definition group_demo : list (label unit group_op) :=
  [LExtern OpStart; LExtern OpStart; LAwait 1%nat tt; LSuspend 1%nat; LExtern OpDone].

Lemma task_group_cooperative_witness :
  ∃ s, run step group_demo (init TaskGroup_ctor) = Some s ∧ phase_in s 1%nat = Waiting tt ∧
  (ub s = false ∧ Size (obj s) = outstanding (externs s) ∧
  (Group_await_ready (obj s)).1 = Empty (obj s) ∧
  (∀ h, phase_in s h = Waiting tt → 0 < Size (obj s)) ∧
  (Size (obj s) = 1 → Callback (obj s) = (mkGroup 0 (mkEvent true []), waiters_ (event_ (obj s))))).
Proof.
  eexists. split; [vm_compute; reflexivity|]. split; [vm_compute; reflexivity|].
  apply task_group_cooperative; [|simpl; split; [done|lia]|done].
  apply reachable_run. exists group_demo. vm_compute. reflexivity.
Defined.

(** Interleaved, it fails: task 1 completes on another thread, takes the count
    to zero and is preempted; a second task is started; then the first sets the
    event.  A coroutine that awaits the group passes while a task is
    outstanding. *)
Example task_group_race :
  ∃ s, run step
    [LExtern OpStartReset; LExtern OpStartAdd; LExtern OpDoneSub;
     LExtern OpStartReset; LExtern OpStartAdd; LExtern OpDoneSet; LAwait 1%nat tt]
    (init TaskGroup_ctor) = Some s ∧
  phase_in s 1%nat = Holding tt ∧ Size (obj s) = 1 ∧ Empty (obj s) = false.
Proof. eexists. split_and!; vm_compute; reflexivity. Qed.
