(* ===== verification/Http.v ===== *)
(** * HTTP ([include/hotcoco/http/http.hpp], [src/http/http.cpp])

    Header maps with case-insensitive keys, requests and responses, the parser
    as the callbacks it hands to llhttp, and the connection loop of the server.
    llhttp is a library: [llhttp_execute] is a parameter that turns a state and
    a buffer into the callbacks it makes and the error code it ends with; as
    llhttp documents, it stops at the first callback that returns non-zero and
    returns that code.  Byte strings are lists of characters. *)
From Stdlib Require Import Ascii String Sorted.
From stdpp Require Import pretty.
From S2P Require Import Prelude.
Local Open Scope Z_scope.

Abbreviation str := (list ascii).
Definition lit (s : string) : str := list_ascii_of_string s.
Definition len (s : str) : Z := Z.of_nat (length s).
Definition to_string (z : Z) : str := lit (pretty z).

(** ** CaseInsensitiveLess and HeaderMap *)

(** [std::tolower] on the characters of the C locale. *)
Definition tolower (c : ascii) : nat :=
  let n := nat_of_ascii c in
  if ((65 <=? n) && (n <=? 90))%nat then (n + 32)%nat else n.

(** [std::lexicographical_compare] with the comparison of lower cases. *)
Fixpoint CaseInsensitiveLess (a b : str) : bool :=
  match a, b with
  | _, [] => false
  | [], _ :: _ => true
  | x :: a', y :: b' =>
      if (tolower x <? tolower y)%nat then true
      else if (tolower y <? tolower x)%nat then false
      else CaseInsensitiveLess a' b'
  end.

Definition same_name (a b : str) : Prop := tolower <$> a = tolower <$> b.

#[export] Instance same_name_dec a b : Decision (same_name a b).
Proof. unfold same_name. apply _. Defined.

(** A [std::map]: the pairs in the order of their keys. *)
Definition HeaderMap := list (str * str).

(** [find]: the first key that is not less, if it is not greater either. *)
Fixpoint find (name : str) (h : HeaderMap) : option str :=
  match h with
  | [] => None
  | (k, v) :: h' =>
      if CaseInsensitiveLess k name then find name h'
      else if CaseInsensitiveLess name k then None
      else Some v
  end.

(** [headers[name] = value]: an existing key keeps its spelling. *)
Fixpoint assign (name value : str) (h : HeaderMap) : HeaderMap :=
  match h with
  | [] => [(name, value)]
  | (k, v) :: h' =>
      if CaseInsensitiveLess k name then (k, v) :: assign name value h'
      else if CaseInsensitiveLess name k then (name, value) :: (k, v) :: h'
      else (k, value) :: h'
  end.

(** ** The order *)

Lemma less_irrefl a b : same_name a b → CaseInsensitiveLess a b = false.
Proof.
  unfold same_name. revert b. induction a as [|x a IH]; intros [|y b] Hs; simplify_eq/=; try done.
  rewrite H. rewrite !(proj2 (Nat.ltb_ge _ _)) by lia. by apply IH.
Qed.

Lemma less_total a b :
  CaseInsensitiveLess a b = false → CaseInsensitiveLess b a = false → same_name a b.
Proof.
  unfold same_name. revert b. induction a as [|x a IH]; intros [|y b]; simpl; try done.
  destruct (tolower x <? tolower y)%nat eqn:H1; [done|].
  destruct (tolower y <? tolower x)%nat eqn:H2; [done|].
  apply Nat.ltb_ge in H1, H2. intros Ha Hb. f_equal; [lia|]. by apply IH.
Qed.

Lemma less_trans a b c :
  CaseInsensitiveLess a b = true → CaseInsensitiveLess b c = true → CaseInsensitiveLess a c = true.
Proof.
  revert b c. induction a as [|x a IH]; intros [|y b] [|z c]; simpl; try done.
  destruct (Nat.ltb_spec (tolower x) (tolower y)), (Nat.ltb_spec (tolower y) (tolower x)),
    (Nat.ltb_spec (tolower y) (tolower z)), (Nat.ltb_spec (tolower z) (tolower y)),
    (Nat.ltb_spec (tolower x) (tolower z)), (Nat.ltb_spec (tolower z) (tolower x));
    try done; try lia. apply IH.
Qed.

Lemma less_proper a a' b b' :
  same_name a a' → same_name b b' → CaseInsensitiveLess a b = CaseInsensitiveLess a' b'.
Proof.
  unfold same_name. revert a' b b'.
  induction a as [|x a IH]; intros [|x' a'] [|y b] [|y' b'] Ha Hb; simplify_eq/=; try done.
  rewrite H, H1. by rewrite (IH a' b b').
Qed.

Lemma less_asym a b : CaseInsensitiveLess a b = true → CaseInsensitiveLess b a = false.
Proof.
  intros Hab. destruct (CaseInsensitiveLess b a) eqn:Hba; [|done].
  pose proof (less_trans _ _ _ Hab Hba) as H. by rewrite less_irrefl in H.
Qed.

(** The keys of a map are strictly increasing. *)
Definition sorted (h : HeaderMap) : Prop :=
  StronglySorted (λ a b, CaseInsensitiveLess a b = true) h.*1.

Lemma assign_keys name value h a :
  Forall (λ b, CaseInsensitiveLess a b = true) h.*1 → CaseInsensitiveLess a name = true →
  Forall (λ b, CaseInsensitiveLess a b = true) (assign name value h).*1.
Proof.
  intros Hall Ha. induction h as [|[k v] h IH]; simpl in *; [by constructor|].
  apply Forall_cons in Hall as [Hk Hall]. repeat case_match; simpl; repeat constructor; auto.
Qed.

Lemma assign_sorted name value h : sorted h → sorted (assign name value h).
Proof.
  unfold sorted. induction h as [|[k v] h IH]; simpl; intros Hs; [repeat constructor|].
  apply StronglySorted_inv in Hs as [Hs Hall].
  destruct (CaseInsensitiveLess k name) eqn:H1; [|destruct (CaseInsensitiveLess name k) eqn:H2]; simpl.
  - constructor; [by apply IH|]. by apply assign_keys.
  - repeat constructor; try done. eapply Forall_impl; [exact Hall|].
    intros b Hb. by eapply less_trans.
  - by constructor.
Qed.

Lemma find_assign name name' value h :
  sorted h →
  find name (assign name' value h) =
  if bool_decide (same_name name name') then Some value else find name h.
Proof.
  unfold sorted. induction h as [|[k v] h IH]; simpl; intros Hs.
  { case_bool_decide as Hn.
    - by rewrite !less_irrefl by (done || by symmetry).
    - destruct (CaseInsensitiveLess name' name) eqn:H1; [done|].
      destruct (CaseInsensitiveLess name name') eqn:H2; [done|].
      by pose proof (less_total _ _ H2 H1). }
  apply StronglySorted_inv in Hs as [Hs Hall].
  case_bool_decide as Hn.
  - assert (∀ b, CaseInsensitiveLess name b = CaseInsensitiveLess name' b) as Hl
      by (intros; by apply less_proper).
    assert (∀ b, CaseInsensitiveLess b name = CaseInsensitiveLess b name') as Hr
      by (intros; by apply less_proper).
    destruct (CaseInsensitiveLess k name') eqn:H1; [|destruct (CaseInsensitiveLess name' k) eqn:H2];
      simpl; rewrite ?Hl, ?Hr, ?H1, ?H2; [|by rewrite !less_irrefl|done].
    by rewrite IH.
  - destruct (CaseInsensitiveLess k name') eqn:H1; [|destruct (CaseInsensitiveLess name' k) eqn:H2]; simpl.
    + by rewrite IH.
    + destruct (CaseInsensitiveLess name' name) eqn:H3; [done|].
      destruct (CaseInsensitiveLess name name') eqn:H4;
        [|by destruct Hn; apply less_total].
      assert (CaseInsensitiveLess name k = true) as H5 by by eapply less_trans.
      by rewrite H5, (less_asym _ _ H5).
    + assert (same_name k name') as Hk by by apply less_total.
      destruct (CaseInsensitiveLess k name) eqn:H3; [done|].
      destruct (CaseInsensitiveLess name k) eqn:H4; [done|].
      destruct Hn. pose proof (less_total _ _ H4 H3) as H5. unfold same_name in *. congruence.
Qed.

(** ** Methods, requests and responses *)

Inductive HttpMethod := GET | POST | PUT | DELETE | PATCH | HEAD | OPTIONS | UNKNOWN.

Definition HttpMethodToString (method : HttpMethod) : str :=
  lit match method with
      | GET => "GET" | POST => "POST" | PUT => "PUT" | DELETE => "DELETE"
      | PATCH => "PATCH" | HEAD => "HEAD" | OPTIONS => "OPTIONS" | UNKNOWN => "UNKNOWN"
      end.

Record HttpRequest := mkRequest {
  method : HttpMethod;
  url : str;
  path : str;
  query : str;
  headers : HeaderMap;
  body : str;
  http_major : Z;
  http_minor : Z;
}.
Definition new_request : HttpRequest := mkRequest GET [] [] [] [] [] 1 1.

Definition GetHeader (name : str) (r : HttpRequest) : str := default [] (find name (headers r)).
Definition HasHeader (name : str) (r : HttpRequest) : bool := bool_decide (is_Some (find name (headers r))).

Definition toLower (s : str) : str := (λ c, ascii_of_nat (tolower c)) <$> s.

Definition ShouldKeepAlive (r : HttpRequest) : bool :=
  let conn_lower := toLower (GetHeader (lit "Connection") r) in
  if (http_major r =? 1) && (http_minor r =? 0) then bool_decide (conn_lower = lit "keep-alive")
  else negb (bool_decide (conn_lower = lit "close")).

Record HttpResponse := mkResponse {
  status_code : Z;
  status_text : str;
  res_headers : HeaderMap;
  res_body : str;
}.

Definition response (code : Z) (text content_type b : str) : HttpResponse :=
  mkResponse code text
    (assign (lit "Content-Length") (to_string (len b)) (assign (lit "Content-Type") content_type []))
    b.
Definition Ok (b content_type : str) : HttpResponse := response 200 (lit "OK") content_type b.
Definition Html (html : str) : HttpResponse := Ok html (lit "text/html; charset=utf-8").
Definition Json (json : str) : HttpResponse := Ok json (lit "application/json").
Definition NotFound (message : str) : HttpResponse :=
  response 404 (lit "Not Found") (lit "text/plain") message.
Definition BadRequest (message : str) : HttpResponse :=
  response 400 (lit "Bad Request") (lit "text/plain") message.
Definition InternalError (message : str) : HttpResponse :=
  response 500 (lit "Internal Server Error") (lit "text/plain") message.

Definition SetHeader (name value : str) (r : HttpResponse) : HttpResponse :=
  mkResponse (status_code r) (status_text r) (assign name value (res_headers r)) (res_body r).

Definition crlf : str := ["013"; "010"]%char.
Definition Serialize (r : HttpResponse) : str :=
  lit "HTTP/1.1 " ++ to_string (status_code r) ++ lit " " ++ status_text r ++ crlf ++
  concat ((λ nv, nv.1 ++ lit ": " ++ nv.2 ++ crlf) <$> res_headers r) ++
  crlf ++ res_body r.

(** ** HttpParser *)

Definition kMaxBodySize : Z := 10 * 1024 * 1024.
Definition kMaxUrlLength : Z := 8192.
Definition kMaxHeaderCount : Z := 100.
Definition kMaxTotalHeaderSize : Z := 64 * 1024.

Inductive HeaderState := kField | kValue | kNone.

Record HttpParser := mkParser {
  request_ : HttpRequest;
  current_header_field_ : str;
  current_header_value_ : str;
  header_state_ : HeaderState;
  complete_ : bool;
  error_ : bool;
  error_message_ : str;
}.
Definition new_parser : HttpParser := mkParser new_request [] [] kNone false false [].

(** [Reset], apart from [llhttp_reset]. *)
Definition Reset (p : HttpParser) : HttpParser := mkParser new_request [] [] kNone false false [].

Definition set_request (r : HttpRequest) (p : HttpParser) : HttpParser :=
  mkParser r (current_header_field_ p) (current_header_value_ p) (header_state_ p) (complete_ p)
    (error_ p) (error_message_ p).
Definition fail (msg : str) (p : HttpParser) : HttpParser :=
  mkParser (request_ p) (current_header_field_ p) (current_header_value_ p) (header_state_ p)
    (complete_ p) true msg.

(** llhttp's [HPE_USER], what a callback returns to stop it. *)
Definition HPE_OK : Z := 0.
Definition HPE_USER : Z := 24.

Definition set_url (u : str) (r : HttpRequest) : HttpRequest :=
  mkRequest (method r) u (path r) (query r) (headers r) (body r) (http_major r) (http_minor r).
Definition set_headers (h : HeaderMap) (r : HttpRequest) : HttpRequest :=
  mkRequest (method r) (url r) (path r) (query r) h (body r) (http_major r) (http_minor r).
Definition set_body (b : str) (r : HttpRequest) : HttpRequest :=
  mkRequest (method r) (url r) (path r) (query r) (headers r) b (http_major r) (http_minor r).

Definition OnUrl (at_ : str) (p : HttpParser) : Z * HttpParser :=
  if len (url (request_ p)) + len at_ >? kMaxUrlLength then (HPE_USER, fail (lit "URL too long") p)
  else (0, set_request (set_url (url (request_ p) ++ at_) (request_ p)) p).

Definition OnHeaderField (at_ : str) (p : HttpParser) : Z * HttpParser :=
  let field := match header_state_ p with kValue => [] | _ => current_header_field_ p end in
  (0, mkParser (request_ p) (field ++ at_) (current_header_value_ p) kField (complete_ p)
        (error_ p) (error_message_ p)).

Definition header_total (h : HeaderMap) : Z := foldr (λ kv t, len kv.1 + len kv.2 + t) 0 h.

(** [OnHeaderValue], up to the limits. *)
Definition header_value (at_ : str) (p : HttpParser) : HttpParser :=
  let fresh := match header_state_ p with kField => true | _ => false end in
  let value := (if fresh then [] else current_header_value_ p) ++ at_ in
  let name := current_header_field_ p in
  let h := headers (request_ p) in
  let h' :=
    match find name h with
    | Some old => if fresh then assign name (old ++ lit ", " ++ value) h else assign name value h
    | None => assign name value h
    end in
  mkParser (set_headers h' (request_ p)) name value kValue (complete_ p) (error_ p) (error_message_ p).

Definition OnHeaderValue (at_ : str) (p : HttpParser) : Z * HttpParser :=
  let p' := header_value at_ p in
  let h := headers (request_ p') in
  if Z.of_nat (length h) >? kMaxHeaderCount then (HPE_USER, fail (lit "Too many headers") p')
  else if header_total h >? kMaxTotalHeaderSize then (HPE_USER, fail (lit "Headers too large") p')
  else (0, p').

Definition OnBody (at_ : str) (p : HttpParser) : Z * HttpParser :=
  if len (body (request_ p)) + len at_ >? kMaxBodySize then (HPE_USER, fail (lit "Body too large") p)
  else (0, set_request (set_body (body (request_ p) ++ at_) (request_ p)) p).

Definition OnMessageComplete (p : HttpParser) : Z * HttpParser :=
  (0, mkParser (request_ p) (current_header_field_ p) (current_header_value_ p) (header_state_ p)
        true (error_ p) (error_message_ p)).

(** The callbacks llhttp makes, in order. *)
Inductive callback :=
  | CbUrl (s : str) | CbField (s : str) | CbValue (s : str) | CbBody (s : str) | CbComplete.

Definition on_callback (c : callback) : HttpParser → Z * HttpParser :=
  match c with
  | CbUrl s => OnUrl s
  | CbField s => OnHeaderField s
  | CbValue s => OnHeaderValue s
  | CbBody s => OnBody s
  | CbComplete => OnMessageComplete
  end.

Fixpoint callbacks (cs : list callback) (p : HttpParser) : Z * HttpParser :=
  match cs with
  | [] => (HPE_OK, p)
  | c :: cs' => let '(r, p') := on_callback c p in if r =? 0 then callbacks cs' p' else (r, p')
  end.

(** [GetRequest]: the method and version are fields of the llhttp state. *)
Fixpoint split_at (c : ascii) (s : str) : option (str * str) :=
  match s with
  | [] => None
  | x :: s' =>
      if Ascii.eqb x c then Some ([], s') else (λ ab, (x :: ab.1, ab.2)) <$> split_at c s'
  end.

Definition GetRequest (m : HttpMethod) (major minor : Z) (p : HttpParser) : HttpRequest :=
  let r := request_ p in
  match split_at "?"%char (url r) with
  | Some (pa, q) => mkRequest m (url r) pa q (headers r) (body r) major minor
  | None => mkRequest m (url r) (url r) (query r) (headers r) (body r) major minor
  end.

Section Execute.
(** [llhttp_t]; [llhttp_execute] on a buffer: its new state if it runs to the
    end, the callbacks on the way, and the error of the input after them. *)
Context {llhttp : Type} (llhttp_execute : llhttp → str → llhttp * list callback * Z).
Context (llhttp_errno_name : Z → str) (llhttp_reset : llhttp → llhttp).
Context (llhttp_method : llhttp → HttpMethod) (llhttp_version : llhttp → Z * Z).

Definition Parse (data : str) (q : llhttp * HttpParser) : bool * (llhttp * HttpParser) :=
  let '(parser_, p) := q in
  if error_ p then (false, q)
  else
    let '(parser', cs, end_err) := llhttp_execute parser_ data in
    let '(cb_err, p') := callbacks cs p in
    let err := if cb_err =? HPE_OK then end_err else cb_err in
    if negb (err =? HPE_OK) then
      let msg := if error_ p' then error_message_ p' else llhttp_errno_name err in
      (false, (parser', fail msg p'))
    else (complete_ p', (parser', p')).

(** ** HttpServer::HandleConnection *)

(** What one iteration of the loop meets: whether the stream is open, the clock
    at the deadline check, the bytes read (empty: end of the stream), and the
    clock after the response is written. *)
Record input := mkInput { is_open : bool; now : Z; data : str; now_after : Z }.

Inductive exit_reason := XClosed | XTimeout | XEof | XParseError | XNoKeepAlive | XOutOfInput.

Context (handler_ : option (HttpRequest → HttpResponse)) (read_timeout_ : Z).

Definition handle (r : HttpRequest) : HttpResponse :=
  match handler_ with Some f => f r | None => NotFound (lit "No handler configured") end.

(** The responses written, in order, and why the loop ended; every exit closes
    the stream.  [XOutOfInput]: the loop is still waiting in Read. *)
Fixpoint HandleConnection_loop (ins : list input) (deadline : Z) (q : llhttp * HttpParser)
    : list str * exit_reason :=
  match ins with
  | [] => ([], XOutOfInput)
  | i :: ins' =>
      if negb (is_open i) then ([], XClosed)
      else if deadline <=? now i then ([Serialize (BadRequest (lit "Request timeout"))], XTimeout)
      else match data i with
      | [] => ([], XEof)
      | _ =>
          let '(complete, q') := Parse (data i) q in
          if error_ q'.2 then ([Serialize (BadRequest (error_message_ q'.2))], XParseError)
          else if complete then
            let v := llhttp_version q'.1 in
            let request := GetRequest (llhttp_method q'.1) v.1 v.2 q'.2 in
            let out := Serialize (handle request) in
            if negb (ShouldKeepAlive request) then ([out], XNoKeepAlive)
            else
              let '(outs, x) :=
                HandleConnection_loop ins' (now_after i + read_timeout_)
                  (llhttp_reset q'.1, Reset q'.2) in
              (out :: outs, x)
          else HandleConnection_loop ins' deadline q'
      end
  end.

Definition HandleConnection (parser_ : llhttp) (start : Z) (ins : list input) : list str * exit_reason :=
  HandleConnection_loop ins (start + read_timeout_) (parser_, new_parser).

(** ** A connection as a sequence of exchanges

    What HandleConnection is meant to do, request by request: a request is what
    a fresh parser makes of the buffers that it is fed until it reports a
    complete message, all of them read before the deadline of that request. *)

Definition in_time (deadline : Z) (i : input) : Prop := is_open i = true ∧ now i < deadline ∧ data i ≠ [].

(** A parser in the state [q] is fed with buffers that do not complete its
    message, and is left in [q']. *)
Fixpoint unfinished (deadline : Z) (q : llhttp * HttpParser) (ins : list input) (q' : llhttp * HttpParser) : Prop :=
  match ins with
  | [] => q' = q
  | i :: ins' =>
      in_time deadline i ∧
      ∃ q1, Parse (data i) q = (false, q1) ∧ error_ q1.2 = false ∧ unfinished deadline q1 ins' q'
  end.

Definition parsed_request (q : llhttp * HttpParser) : HttpRequest :=
  GetRequest (llhttp_method q.1) (llhttp_version q.1).1 (llhttp_version q.1).2 q.2.

(** The buffers of one request, the last of them apart. *)
Record exchange := mkExchange { x_before : list input; x_last : input; x_request : HttpRequest }.
Definition x_inputs (e : exchange) : list input := x_before e ++ [x_last e].

(** The exchanges of a connection whose llhttp parser is in the state [l], the
    first one to be read before [deadline]; [l'] and [deadline'] are those of
    the request after the last. *)
Fixpoint exchanges (l : llhttp) (deadline : Z) (es : list exchange) (l' : llhttp) (deadline' : Z) : Prop :=
  match es with
  | [] => l' = l ∧ deadline' = deadline
  | e :: es' =>
      ∃ q1 q2, unfinished deadline (l, new_parser) (x_before e) q1 ∧ in_time deadline (x_last e) ∧
        Parse (data (x_last e)) q1 = (true, q2) ∧ error_ q2.2 = false ∧ x_request e = parsed_request q2 ∧
        exchanges (llhttp_reset q2.1) (now_after (x_last e) + read_timeout_) es' l' deadline'
  end.

(** How the connection ends while a request is being read (or, without keep-alive,
    after one), given what was left to read: the response that is sent then. *)
Definition ends (x : exit_reason) (l : llhttp) (deadline : Z) (rest : list input) (last : list str) : Prop :=
  match x with
  | XNoKeepAlive => last = []
  | _ => ∃ pre q more, unfinished deadline (l, new_parser) pre q ∧ rest = pre ++ more ∧
      match x, more with
      | XOutOfInput, [] => last = []
      | XClosed, i :: _ => is_open i = false ∧ last = []
      | XTimeout, i :: _ =>
          is_open i = true ∧ deadline <= now i ∧ last = [Serialize (BadRequest (lit "Request timeout"))]
      | XEof, i :: _ => is_open i = true ∧ now i < deadline ∧ data i = [] ∧ last = []
      | XParseError, i :: _ =>
          in_time deadline i ∧ ∃ c q', Parse (data i) q = (c, q') ∧ error_ q'.2 = true ∧
            last = [Serialize (BadRequest (error_message_ q'.2))]
      | _, _ => False
      end
  end.

(** Every request but the last asks to keep the connection, the last does not
    exactly when that ended it. *)
Definition kept_alive (x : exit_reason) (reqs : list HttpRequest) : Prop :=
  match x with
  | XNoKeepAlive => ∃ rs r, reqs = rs ++ [r] ∧ ShouldKeepAlive r = false ∧ Forall (λ r, ShouldKeepAlive r = true) rs
  | _ => Forall (λ r, ShouldKeepAlive r = true) reqs
  end.

Lemma unfinished_snoc deadline q ins q1 i q2 :
  unfinished deadline q ins q1 → in_time deadline i → Parse (data i) q1 = (false, q2) → error_ q2.2 = false →
  unfinished deadline q (ins ++ [i]) q2.
Proof.
  revert q. induction ins as [|j ins IH]; intros q Hu Hi Hp He; simpl in *.
  - subst q1. split; [done|]. by exists q2.
  - destruct Hu as (Hj & q3 & ? & ? & Hu). split; [done|]. exists q3. split_and!; [done..|]. by apply IH.
Qed.

(** The loop, in the middle of a request of which [pre] has been read. *)
Lemma HandleConnection_exchanges ins : ∀ l deadline pre q outs x,
  HandleConnection_loop ins deadline q = (outs, x) → unfinished deadline (l, new_parser) pre q →
  ∃ es l' deadline' rest last,
    exchanges l deadline es l' deadline' ∧ pre ++ ins = concat (x_inputs <$> es) ++ rest ∧
    outs = ((λ e, Serialize (handle (x_request e))) <$> es) ++ last ∧
    kept_alive x (x_request <$> es) ∧ ends x l' deadline' rest last.
Proof.
  induction ins as [|i ins IH]; intros l deadline pre q outs x Hc Hu; simpl in Hc.
  { injection Hc as <- <-. exists [], l, deadline, pre, []. rewrite app_nil_r. split_and!; simpl; try done.
    exists pre, q, []. by rewrite app_nil_r. }
  assert (∀ x last, (outs, x) = (last, x) → kept_alive x [] → ends x l deadline (pre ++ i :: ins) last →
    ∃ es l' deadline' rest last0,
      exchanges l deadline es l' deadline' ∧ pre ++ i :: ins = concat (x_inputs <$> es) ++ rest ∧
      outs = ((λ e, Serialize (handle (x_request e))) <$> es) ++ last0 ∧
      kept_alive x (x_request <$> es) ∧ ends x l' deadline' rest last0) as Hend.
  { intros x' last [= <-] Hk He. by exists [], l, deadline, (pre ++ i :: ins), outs. }
  destruct (is_open i) eqn:Ho; simpl in Hc.
  2: { injection Hc as <- <-. apply (Hend XClosed []); [done|by constructor|]. by exists pre, q, (i :: ins). }
  destruct (Z.leb_spec deadline (now i)) as [Hd|Hd].
  { injection Hc as <- <-. apply (Hend XTimeout _ eq_refl); [by constructor|]. by exists pre, q, (i :: ins). }
  destruct (data i) as [|ch dat] eqn:Hdat.
  { injection Hc as <- <-. apply (Hend XEof []); [done|by constructor|]. by exists pre, q, (i :: ins). }
  assert (in_time deadline i) as Hi by (split_and!; [done..|by rewrite Hdat]).
  rewrite <- Hdat in Hc. destruct (Parse (data i) q) as [complete q'] eqn:Hp.
  destruct (error_ q'.2) eqn:He.
  { injection Hc as <- <-. apply (Hend XParseError _ eq_refl); [by constructor|].
    exists pre, q, (i :: ins). split_and!; [done..|]. by exists complete, q'. }
  destruct complete; [|edestruct (IH l deadline (pre ++ [i])) as (es & l' & d' & rest & last & H1 & H2 & H3);
    [exact Hc|by eapply unfinished_snoc|exists es, l', d', rest, last; by rewrite <- app_assoc in H2]].
  fold (parsed_request q') in Hc. set (e := mkExchange pre i (parsed_request q')).
  destruct (ShouldKeepAlive (parsed_request q')) eqn:Hk; simpl in Hc.
  - destruct (HandleConnection_loop _ _ _) as [outs' x'] eqn:Hl. injection Hc as <- <-.
    destruct (IH (llhttp_reset q'.1) _ [] _ _ _ Hl eq_refl) as (es & l' & d' & rest & last & H1 & H2 & -> & H4 & H5).
    exists (e :: es), l', d', rest, last. split_and!; try done.
    + by exists q, q'.
    + simpl in *. rewrite H2. unfold x_inputs at 2. simpl. by rewrite <- !app_assoc.
    + destruct x'; try (by constructor). destruct H4 as (rs & r & Hrs & ? & ?).
      exists (parsed_request q' :: rs), r. rewrite fmap_cons, Hrs. split_and!; [done..|by constructor].
  - injection Hc as <- <-. exists [e], (llhttp_reset q'.1), (now_after i + read_timeout_), ins, [].
    split_and!; try done; [by exists q, q'|unfold x_inputs; simpl; by rewrite app_nil_r, <- app_assoc|].
    by exists [], (parsed_request q').
Qed.
End Execute.

(** ** Lemmas on the callbacks *)

Lemma len_app a b : len (a ++ b) = len a + len b.
Proof. unfold len. rewrite length_app. lia. Qed.

Lemma same_name_sym a b : same_name a b → same_name b a.
Proof. done. Qed.

Lemma assign_assign name v v' h : assign name v' (assign name v h) = assign name v' h.
Proof.
  induction h as [|[k u] h IH]; simpl; [by rewrite less_irrefl|].
  destruct (CaseInsensitiveLess k name) eqn:H1; [|destruct (CaseInsensitiveLess name k) eqn:H2];
    simpl; rewrite ?H1, ?H2; [by rewrite IH|by rewrite less_irrefl|done].
Qed.

Lemma assign_length name v h :
  sorted h → length (assign name v h) = (length h + if find name h is Some _ then 0 else 1)%nat.
Proof.
  unfold sorted. induction h as [|[k u] h IH]; simpl; intros Hs; [done|].
  apply StronglySorted_inv in Hs as [Hs _].
  destruct (CaseInsensitiveLess k name); [|destruct (CaseInsensitiveLess name k)]; simpl;
    rewrite ?IH by done; lia.
Qed.

Lemma header_total_nonneg h : 0 <= header_total h.
Proof. induction h as [|[k u] h IH]; simpl; [lia|]. unfold len. lia. Qed.

Lemma assign_total_new name v h :
  find name h = None → header_total (assign name v h) = header_total h + len name + len v.
Proof.
  induction h as [|[k u] h IH]; simpl; [lia|].
  destruct (CaseInsensitiveLess k name); [|destruct (CaseInsensitiveLess name k)]; simpl; intros Hf;
    [rewrite IH by done; lia|lia|done].
Qed.

Lemma callbacks_app cs1 cs2 p :
  callbacks (cs1 ++ cs2) p =
  let '(r, p') := callbacks cs1 p in if r =? 0 then callbacks cs2 p' else (r, p').
Proof.
  revert p. induction cs1 as [|c cs1 IH]; intros p; simpl; [done|].
  destruct (on_callback c p) as [r p']. destruct (r =? 0) eqn:Hr; [apply IH|by rewrite Hr].
Qed.

(** What the parser guarantees after any callbacks. *)
Record parser_ok (p : HttpParser) : Prop := {
  pk_url : len (url (request_ p)) <= kMaxUrlLength;
  pk_body : len (body (request_ p)) <= kMaxBodySize;
  pk_sorted : sorted (headers (request_ p));
  pk_count : Z.of_nat (length (headers (request_ p))) <= kMaxHeaderCount + Z.b2z (error_ p);
  pk_total : error_ p = false → header_total (headers (request_ p)) <= kMaxTotalHeaderSize;
}.

Lemma header_value_sorted at_ p :
  sorted (headers (request_ p)) → sorted (headers (request_ (header_value at_ p))).
Proof. intros Hs. unfold header_value. simpl. repeat case_match; by apply assign_sorted. Qed.

Lemma header_value_count at_ p :
  sorted (headers (request_ p)) →
  (length (headers (request_ (header_value at_ p))) ≤ S (length (headers (request_ p))))%nat.
Proof.
  intros Hs. unfold header_value. simpl.
  repeat case_match; rewrite assign_length by done; repeat case_match; lia.
Qed.

Lemma on_callback_ok c p :
  parser_ok p → error_ p = false →
  parser_ok (on_callback c p).2 ∧ ((on_callback c p).1 = 0 ↔ error_ (on_callback c p).2 = false).
Proof.
  intros [Hu Hb Hs Hc Ht] He. rewrite He in Hc. simpl in Hc. specialize (Ht He).
  pose proof (len_app (url (request_ p))) as Hlu. pose proof (len_app (body (request_ p))) as Hlb.
  destruct c as [s|s|s|s|]; simpl.
  - unfold OnUrl. destruct (Z.gtb_spec (len (url (request_ p)) + len s) kMaxUrlLength); simpl;
      (split; [split; simpl; rewrite ?Hlu, ?He; simpl; try done; lia|done]).
  - split; [split; simpl; rewrite ?He; simpl; done|done].
  - unfold OnHeaderValue.
    pose proof (header_value_sorted s p Hs) as Hs'. pose proof (header_value_count s p Hs) as Hc'.
    assert (url (request_ (header_value s p)) = url (request_ p)) as Hu' by done.
    assert (body (request_ (header_value s p)) = body (request_ p)) as Hb' by done.
    assert (error_ (header_value s p) = error_ p) as He' by done.
    set (p' := header_value s p) in *. clearbody p'.
    destruct (Z.gtb_spec (Z.of_nat (length (headers (request_ p')))) kMaxHeaderCount);
      [|destruct (Z.gtb_spec (header_total (headers (request_ p'))) kMaxTotalHeaderSize)]; simpl;
      (split; [split; simpl; rewrite ?Hu', ?Hb', ?He', ?He; simpl; try done; lia|]); [done..|].
    by rewrite He', He.
  - unfold OnBody. destruct (Z.gtb_spec (len (body (request_ p)) + len s) kMaxBodySize); simpl;
      (split; [split; simpl; rewrite ?Hlb, ?He; simpl; try done; lia|done]).
  - split; [split; simpl; rewrite ?He; simpl; done|done].
Qed.

Lemma callbacks_ok cs p :
  parser_ok p → error_ p = false →
  parser_ok (callbacks cs p).2 ∧ ((callbacks cs p).1 = 0 ↔ error_ (callbacks cs p).2 = false).
Proof.
  revert p. induction cs as [|c cs IH]; intros p Hp He; simpl; [done|].
  destruct (on_callback_ok c p Hp He) as [Hok Hr].
  destruct (on_callback c p) as [r p']. simpl in *. destruct (Z.eqb_spec r 0) as [->|Hne]; [|done].
  apply IH; [done|]. by apply Hr.
Qed.

Lemma new_parser_ok : parser_ok new_parser.
Proof. split; try done. unfold sorted. constructor. Qed.

(** ** Chunked delivery *)

Lemma url_chunks us p :
  len (url (request_ p)) + len (concat us) <= kMaxUrlLength →
  callbacks (CbUrl <$> us) p =
  (0, set_request (set_url (url (request_ p) ++ concat us) (request_ p)) p).
Proof.
  revert p. induction us as [|u us IH]; intros p Hl; simpl in *.
  - rewrite app_nil_r. by destruct p as [[] ? ? ? ? ? ?].
  - rewrite len_app in Hl. pose proof (Zle_0_nat (length (concat us))) as Hn.
    unfold OnUrl. destruct (Z.gtb_spec (len (url (request_ p)) + len u) kMaxUrlLength);
      [unfold len in *; lia|].
    simpl. rewrite IH; simpl; [by rewrite app_assoc|rewrite len_app; lia].
Qed.

Lemma body_chunks bs p :
  len (body (request_ p)) + len (concat bs) <= kMaxBodySize →
  callbacks (CbBody <$> bs) p =
  (0, set_request (set_body (body (request_ p) ++ concat bs) (request_ p)) p).
Proof.
  revert p. induction bs as [|u us IH]; intros p Hl; simpl in *.
  - rewrite app_nil_r. by destruct p as [[] ? ? ? ? ? ?].
  - rewrite len_app in Hl. pose proof (Zle_0_nat (length (concat us))) as Hn.
    unfold OnBody. destruct (Z.gtb_spec (len (body (request_ p)) + len u) kMaxBodySize);
      [unfold len in *; lia|].
    simpl. rewrite IH; simpl; [by rewrite app_assoc|rewrite len_app; lia].
Qed.

(** Field chunks after the first are appended. *)
Lemma field_more fs p :
  header_state_ p = kField →
  callbacks (CbField <$> fs) p =
  (0, mkParser (request_ p) (current_header_field_ p ++ concat fs) (current_header_value_ p) kField
        (complete_ p) (error_ p) (error_message_ p)).
Proof.
  revert p. induction fs as [|f fs IH]; intros p Hp; simpl.
  - rewrite app_nil_r. destruct p; simpl in *. by subst.
  - rewrite IH by done. simpl. rewrite Hp. by rewrite <-app_assoc.
Qed.

(** A parser between two headers. *)
Definition between (p : HttpParser) : Prop :=
  match header_state_ p with
  | kValue => True
  | kNone => current_header_field_ p = []
  | kField => False
  end.

Lemma field_chunks f fs p :
  between p →
  callbacks (CbField <$> f :: fs) p =
  (0, mkParser (request_ p) (concat (f :: fs)) (current_header_value_ p) kField
        (complete_ p) (error_ p) (error_message_ p)).
Proof.
  unfold between. intros Hp. simpl. rewrite field_more by done. simpl.
  destruct (header_state_ p); [done| |]; simpl; [done|by rewrite Hp].
Qed.

(** Value chunks after the first replace the value assembled so far. *)
Lemma value_more vs p v h :
  header_state_ p = kValue → current_header_value_ p = v → sorted h →
  headers (request_ p) = assign (current_header_field_ p) v h →
  let h' := assign (current_header_field_ p) (v ++ concat vs) h in
  Z.of_nat (length h') <= kMaxHeaderCount → find (current_header_field_ p) h = None →
  header_total h' <= kMaxTotalHeaderSize →
  callbacks (CbValue <$> vs) p =
  (0, mkParser (set_headers h' (request_ p)) (current_header_field_ p) (v ++ concat vs) kValue
        (complete_ p) (error_ p) (error_message_ p)).
Proof.
  revert p v. induction vs as [|w vs IH]; intros p v Hst Hv Hs Hh h' Hc Hf Ht; simpl in *.
  - unfold h'. rewrite app_nil_r. destruct p as [[] ? ? ? ? ? ?]. simpl in *. by subst.
  - assert (find (current_header_field_ p) (headers (request_ p)) = Some v) as Hfind.
    { rewrite Hh, find_assign by done. by rewrite bool_decide_true. }
    assert (header_value w p = mkParser
      (set_headers (assign (current_header_field_ p) (v ++ w) h) (request_ p))
      (current_header_field_ p) (v ++ w) kValue (complete_ p) (error_ p) (error_message_ p)) as Hhv.
    { unfold header_value. rewrite Hst, Hfind, Hh, Hv. by rewrite assign_assign. }
    unfold OnHeaderValue. rewrite Hhv. simpl.
    assert (length (assign (current_header_field_ p) (v ++ w) h) = length h') as Hlen.
    { unfold h'. by rewrite !assign_length by done. }
    rewrite Hlen. destruct (Z.gtb_spec (Z.of_nat (length h')) kMaxHeaderCount); [lia|].
    assert (header_total (assign (current_header_field_ p) (v ++ w) h) <= header_total h').
    { unfold h'. rewrite !assign_total_new by done. rewrite !len_app. unfold len. lia. }
    destruct (Z.gtb_spec (header_total (assign (current_header_field_ p) (v ++ w) h))
      kMaxTotalHeaderSize); [lia|].
    simpl. unfold h' in *. rewrite app_assoc in *. by rewrite (IH _ (v ++ w)).
Qed.

(** A header delivered in chunks: its field and its value. *)
Definition chunked_header : Type := (ascii * str * list str) * (str * list str).
Definition field_of (fv : chunked_header) : list str := (fv.1.1.1 :: fv.1.1.2) :: fv.1.2.
Definition value_of (fv : chunked_header) : list str := fv.2.1 :: fv.2.2.
Definition name_of (fv : chunked_header) : str := concat (field_of fv).
Definition content_of (fv : chunked_header) : str := concat (value_of fv).
Arguments name_of fv : simpl never.
Arguments content_of fv : simpl never.
Definition deliver_header (fv : chunked_header) : list callback :=
  (CbField <$> field_of fv) ++ (CbValue <$> value_of fv).

Arguments deliver_header fv : simpl never.

Definition add_headers (hs : list chunked_header) (h : HeaderMap) : HeaderMap :=
  foldl (λ h fv, assign (name_of fv) (content_of fv) h) h hs.

(** The names are new to the map and pairwise different, up to case. *)
Fixpoint new_names (hs : list chunked_header) (h : HeaderMap) : Prop :=
  match hs with
  | [] => True
  | fv :: hs' =>
      find (name_of fv) h = None ∧
      new_names hs' (assign (name_of fv) (content_of fv) h)
  end.

Lemma header_chunks fv p h' :
  between p → sorted (headers (request_ p)) →
  h' = assign (name_of fv) (content_of fv) (headers (request_ p)) →
  find (name_of fv) (headers (request_ p)) = None →
  Z.of_nat (length h') <= kMaxHeaderCount → header_total h' <= kMaxTotalHeaderSize →
  callbacks (deliver_header fv) p =
  (0, mkParser (set_headers h' (request_ p)) (name_of fv) (content_of fv) kValue
        (complete_ p) (error_ p) (error_message_ p)).
Proof.
  intros Hp Hs -> Hf Hc Ht. unfold deliver_header. rewrite callbacks_app.
  change (CbField <$> field_of fv) with (CbField <$> (fv.1.1.1 :: fv.1.1.2) :: fv.1.2).
  rewrite field_chunks by done. change ((fv.1.1.1 :: fv.1.1.2) :: fv.1.2) with (field_of fv).
  change (concat (field_of fv)) with (name_of fv).
  simpl fst. cbn [Z.eqb]. set (name := name_of fv) in *. unfold content_of, value_of in *.
  destruct fv as [fs [v vs]]. cbn [fst snd fmap list_fmap callbacks on_callback concat] in *.
  unfold OnHeaderValue, header_value. cbn [header_state_ current_header_field_ request_]. fold name.
  rewrite Hf. cbn [request_ set_headers headers app].
  assert (length (assign name v (headers (request_ p))) =
          length (assign name (v ++ concat vs) (headers (request_ p)))) as Hlen
    by by rewrite !assign_length by done.
  rewrite Hlen. destruct (Z.gtb_spec (Z.of_nat (length (assign name (v ++ concat vs) (headers (request_ p)))))
    kMaxHeaderCount); [lia|].
  assert (header_total (assign name v (headers (request_ p))) <=
          header_total (assign name (v ++ concat vs) (headers (request_ p)))).
  { rewrite !assign_total_new by done. rewrite len_app. unfold len. lia. }
  destruct (Z.gtb_spec (header_total (assign name v (headers (request_ p)))) kMaxTotalHeaderSize); [lia|].
  cbn [Z.eqb]. by rewrite (value_more vs _ v (headers (request_ p))).
Qed.

Lemma add_headers_grow hs h :
  sorted h → new_names hs h →
  sorted (add_headers hs h) ∧ (length h ≤ length (add_headers hs h))%nat ∧
  header_total h <= header_total (add_headers hs h).
Proof.
  revert h. induction hs as [|fv hs IH]; intros h Hs Hn; simpl; [done|]. destruct Hn as [Hf Hn].
  destruct (IH (assign (name_of fv) (content_of fv) h)) as (H1 & H2 & H3);
    [by apply assign_sorted|done|].
  rewrite assign_total_new in H3 by done. rewrite assign_length, Hf in H2 by done. unfold add_headers in *.
  split_and!; [done|lia|unfold len in *; lia].
Qed.

Lemma headers_chunks hs p :
  between p → sorted (headers (request_ p)) → new_names hs (headers (request_ p)) →
  let h' := add_headers hs (headers (request_ p)) in
  Z.of_nat (length h') <= kMaxHeaderCount → header_total h' <= kMaxTotalHeaderSize →
  ∃ f v st,
    callbacks (concat (deliver_header <$> hs)) p =
    (0, mkParser (set_headers h' (request_ p)) f v st (complete_ p) (error_ p) (error_message_ p)).
Proof.
  revert p. induction hs as [|fv hs IH]; intros p Hp Hs Hn h' Hc Ht.
  - exists (current_header_field_ p), (current_header_value_ p), (header_state_ p).
    by destruct p as [[] ? ? ? ? ? ?].
  - destruct Hn as [Hf Hn].
    set (h1 := assign (name_of fv) (content_of fv) (headers (request_ p))) in *.
    assert (sorted h1) as Hs1 by by apply assign_sorted.
    destruct (add_headers_grow hs h1 Hs1 Hn) as (_ & Hl & Htl).
    change (add_headers (fv :: hs) _) with (add_headers hs h1) in h'.
    change (concat (deliver_header <$> fv :: hs))
      with (deliver_header fv ++ concat (deliver_header <$> hs)).
    rewrite callbacks_app. rewrite (header_chunks fv p h1); try done; [|unfold h' in *; lia..].
    cbn [Z.eqb].
    edestruct (IH (mkParser (set_headers h1 (request_ p)) (name_of fv) (content_of fv)
      kValue (complete_ p) (error_ p) (error_message_ p))) as (f & v & st & Heq); try done.
    rewrite Heq. by exists f, v, st.
Qed.

Definition deliver_message (us : list str) (hs : list chunked_header) (bs : list str) : list callback :=
  (CbUrl <$> us) ++ concat (deliver_header <$> hs) ++ (CbBody <$> bs) ++ [CbComplete].

(** ** What the HTTP layer promises *)

(** Header names are case-insensitive: after [headers[name] = value], a
    look-up under any spelling of that name finds [value] and every other name
    is unaffected; the map stays in order, with no two spellings of one name;
    the number of headers grows only for a new name. *)
Theorem http_headers_case_insensitive (name value name' : str) (h : HeaderMap) :
  sorted h →
  sorted (assign name value h) ∧
  find name' (assign name value h) =
    (if bool_decide (same_name name' name) then Some value else find name' h) ∧
  length (assign name value h) = (length h + if find name h is Some _ then 0 else 1)%nat.
Proof.
  intros Hs. split_and!; [by apply assign_sorted|by apply find_assign|by apply assign_length].
Qed.

Lemma http_headers_case_insensitive_witness :
  let h := assign (lit "Host") (lit "a") (assign (lit "accept") (lit "b") []) in
  sorted h ∧ find (lit "HOST") h = Some (lit "a") ∧
  (sorted (assign (lit "ACCEPT") (lit "c") h) ∧
  find (lit "Accept") (assign (lit "ACCEPT") (lit "c") h) =
    (if bool_decide (same_name (lit "Accept") (lit "ACCEPT")) then Some (lit "c")
     else find (lit "Accept") h) ∧
  length (assign (lit "ACCEPT") (lit "c") h) =
    (length h + if find (lit "ACCEPT") h is Some _ then 0 else 1)%nat).
Proof.
  assert (sorted (assign (lit "Host") (lit "a") (assign (lit "accept") (lit "b") []))) as Hs.
  { unfold sorted. simpl. repeat constructor. }
  split; [exact Hs|]. split; [reflexivity|]. by apply http_headers_case_insensitive.
Defined.

(** C21. The parser's limits: whatever callbacks llhttp makes, the URL never
    exceeds 8 KB nor the body 10 MB; unless the parser has reported an error
    there are at most 100 headers of 64 KB in total (and one more at most when
    it has); and a callback stops llhttp exactly when it reports an error. *)
Theorem http_parser_limits (cs : list callback) :
  let '(r, p) := callbacks cs new_parser in
  len (url (request_ p)) <= 8192 ∧ len (body (request_ p)) <= 10485760 ∧
  Z.of_nat (length (headers (request_ p))) <= 100 + Z.b2z (error_ p) ∧
  (error_ p = false → header_total (headers (request_ p)) <= 65536) ∧
  (r = 0 ↔ error_ p = false).
Proof.
  destruct (callbacks_ok cs new_parser new_parser_ok eq_refl) as [[Hu Hb _ Hc Ht] Hr].
  destruct (callbacks cs new_parser) as [r p]. done.
Qed.

(** C22. Chunking does not matter: however llhttp cuts the URL, the names and
    values of the headers and the body into callbacks, the parser ends with the
    same request, the one whose parts are the concatenations; as long as the
    header names are different and the parts within the limits. *)
Theorem http_parser_chunking (us : list str) (hs : list chunked_header) (bs : list str) :
  new_names hs [] →
  len (concat us) <= kMaxUrlLength → len (concat bs) <= kMaxBodySize →
  Z.of_nat (length (add_headers hs [])) <= kMaxHeaderCount →
  header_total (add_headers hs []) <= kMaxTotalHeaderSize →
  ∃ p, callbacks (deliver_message us hs bs) new_parser = (0, p) ∧
    complete_ p = true ∧ error_ p = false ∧
    request_ p = mkRequest GET (concat us) [] [] (add_headers hs []) (concat bs) 1 1.
Proof.
  intros Hn Hu Hb Hc Ht. unfold deliver_message.
  rewrite !callbacks_app, url_chunks by done. cbn [Z.eqb].
  edestruct (headers_chunks hs (set_request (set_url (url (request_ new_parser) ++ concat us)
    (request_ new_parser)) new_parser)) as (f & v & st & Heq); [done|constructor|done..|].
  rewrite callbacks_app, Heq. cbn [Z.eqb]. rewrite callbacks_app, body_chunks by done. simpl.
  eexists. done.
Qed.

Definition chunk_demo : list chunked_header :=
  [(("H"%char, lit "o", [lit "st"]), (lit "loc", [lit "al"; lit "host"]));
   (("A"%char, [], []), (lit "1", []))].

Lemma http_parser_chunking_witness :
  ∃ p, callbacks (deliver_message [lit "/a"; lit "?b"] chunk_demo [lit "x"; lit "y"]) new_parser = (0, p) ∧
    complete_ p = true ∧ error_ p = false ∧
    request_ p = mkRequest GET (lit "/a?b") [] [] (add_headers chunk_demo []) (lit "xy") 1 1.
Proof.
  apply (http_parser_chunking [lit "/a"; lit "?b"] chunk_demo [lit "x"; lit "y"]);
    [vm_compute; done|vm_compute; discriminate..].
Defined.

(** A name that occurs twice is combined with a comma, unless the second value
    arrives in two chunks: then the first value is lost. *)
Example duplicate_header_chunked :
  let first := [CbField (lit "X"); CbValue (lit "1")] in
  find (lit "x") (headers (request_ (callbacks (first ++ [CbField (lit "X"); CbValue (lit "23")])
    new_parser).2)) = Some (lit "1, 23") ∧
  find (lit "x") (headers (request_ (callbacks (first ++ [CbField (lit "X"); CbValue (lit "2");
    CbValue (lit "3")]) new_parser).2)) = Some (lit "23").
Proof. split; vm_compute; reflexivity. Qed.

(** Two pipelined requests in one buffer: nothing stops llhttp at the end of
    the first message, and the second is appended to the same request. *)
Example pipelined_requests_merge :
  url (request_ (callbacks [CbUrl (lit "/a"); CbComplete; CbUrl (lit "/b"); CbComplete] new_parser).2) =
  lit "/a/b".
Proof. vm_compute. reflexivity. Qed.

(** C23. The connection loop sends one response per message that its parser
    completes: the input divides into requests, each made by a fresh parser from
    the buffers read until it reports a complete message, every one of them read
    before that request's deadline, which is the read timeout after the previous
    response (or the start); the responses are the handler's to these requests,
    in order, followed by one 400 response if reading the next request ended in
    a parse error or at its deadline, and by nothing otherwise.  Every request
    but the last keeps the connection alive; the last does not exactly when this
    ended the loop.  (Requests that a client pipelines into one buffer are one
    message to the parser: [pipelined_requests_merge].) *)
Theorem http_connection {llhttp : Type} (llhttp_execute : llhttp → str → llhttp * list callback * Z)
    (errno_name : Z → str) (reset : llhttp → llhttp) (meth : llhttp → HttpMethod)
    (version : llhttp → Z * Z) (handler_ : option (HttpRequest → HttpResponse)) (timeout start : Z)
    (parser_ : llhttp) (ins : list input) (outs : list str) (x : exit_reason) :
  HandleConnection llhttp_execute errno_name reset meth version handler_ timeout parser_ start ins =
    (outs, x) →
  ∃ es l deadline rest last,
    exchanges llhttp_execute errno_name reset meth version timeout parser_ (start + timeout) es l deadline ∧
    ins = concat (x_inputs <$> es) ++ rest ∧
    outs = ((λ e, Serialize (handle handler_ (x_request e))) <$> es) ++ last ∧
    kept_alive x (x_request <$> es) ∧
    ends llhttp_execute errno_name x l deadline rest last.
Proof.
  intros Hc. by apply (HandleConnection_exchanges _ _ _ _ _ _ _ ins parser_ (start + timeout) [] (parser_, new_parser)).
Qed.

(** A toy parser for the witness: every buffer is the URL of one request. *)
Definition toy_execute (_ : unit) (buf : str) : unit * list callback * Z :=
  (tt, [CbUrl buf; CbComplete], 0).

Lemma http_connection_witness :
  ∃ outs, HandleConnection toy_execute (λ _, []) (λ u, u) (λ _, GET) (λ _, (1, 1)) None 30000 tt 0
    [mkInput true 1 (lit "/a") 2; mkInput true 3 (lit "/b") 4; mkInput true 40000 (lit "/c") 40001] =
    (outs, XTimeout) ∧ length outs = 3%nat ∧
  ∃ es l deadline rest last,
    exchanges toy_execute (λ _, []) (λ u, u) (λ _, GET) (λ _, (1, 1)) 30000 tt (0 + 30000) es l deadline ∧
    [mkInput true 1 (lit "/a") 2; mkInput true 3 (lit "/b") 4; mkInput true 40000 (lit "/c") 40001] =
      concat (x_inputs <$> es) ++ rest ∧
    outs = ((λ e, Serialize (handle None (x_request e))) <$> es) ++ last ∧
    kept_alive XTimeout (x_request <$> es) ∧
    ends toy_execute (λ _, []) XTimeout l deadline rest last.
Proof.
  eexists. split; [vm_compute; reflexivity|]. split; [vm_compute; reflexivity|].
  apply (http_connection toy_execute (λ _, []) (λ u, u) (λ _, GET) (λ _, (1, 1)) None 30000 0 tt).
  vm_compute. reflexivity.
Defined.
