(* ===== verification/Executor.v ===== *)
(** * The executor interface and the awaitables that use it
      ([io/executor.hpp], [src/io/executor.cpp], [io/timer.hpp],
      [core/schedule_on.hpp], [io/periodic_timer.hpp])

    [Executor] is the abstract class as a typeclass; AsyncSleep, Yield and
    ScheduleOn are written against it, over a thread that knows at most one
    current executor.  ExecutorGuard sets and restores that executor; programs
    of nested guards say what every point of them sees. *)
From S2P Require Import Prelude.
Local Open Scope Z_scope.

(** The operations awaitables use: where a handle goes, and with which delay.
    [now] is the clock at the call. *)
Class Executor (E : Type) := {
  ex_schedule : handle → E → E;
  ex_schedule_after : Z → Z → handle → E → E;
  ex_queued : E → list handle;            (* ready to run, in order *)
  ex_timers : E → list (Z * handle);      (* with the time kept for each *)
  ex_time : E → Z → Z → Z;                (* that time: the deadline, or the delay where the loop adds the clock *)
}.

Class ExecutorLaws (E : Type) `{Executor E} := {
  ex_schedule_queued h e : ex_queued (ex_schedule h e) = ex_queued e ++ [h];
  ex_schedule_timers h e : ex_timers (ex_schedule h e) = ex_timers e;
  ex_after_queued now d h e : ex_queued (ex_schedule_after now d h e) = ex_queued e;
  ex_after_timers now d h e : ex_timers (ex_schedule_after now d h e) ≡ₚ (ex_time e now d, h) :: ex_timers e;
}.

#[export] Hint Mode Executor ! : typeclass_instances.
#[export] Hint Mode ExecutorLaws ! - : typeclass_instances.

(** Executors of two kinds, side by side. *)
#[export] Instance sum_executor E F `{Executor E} `{Executor F} : Executor (E + F) := {
  ex_schedule h e := match e with inl e => inl (ex_schedule h e) | inr e => inr (ex_schedule h e) end;
  ex_schedule_after now d h e :=
    match e with inl e => inl (ex_schedule_after now d h e) | inr e => inr (ex_schedule_after now d h e) end;
  ex_queued e := match e with inl e => ex_queued e | inr e => ex_queued e end;
  ex_timers e := match e with inl e => ex_timers e | inr e => ex_timers e end;
  ex_time e := match e with inl e => ex_time e | inr e => ex_time e end;
}.
#[export] Instance sum_executor_laws E F `{ExecutorLaws E} `{ExecutorLaws F} : ExecutorLaws (E + F).
Proof.
  split; intros; destruct e; simpl.
  1-2: apply ex_schedule_queued. 1-2: apply ex_schedule_timers.
  1-2: apply ex_after_queued. all: apply ex_after_timers.
Qed.

(** ** The current executor of a thread *)

(** [g_current_executor]: the address of an executor, or null. *)
Abbreviation executor_id := nat (only parsing).
Definition tls := option executor_id.

Definition GetCurrentExecutor (t : tls) : tls := t.
Definition SetCurrentExecutor (e : tls) (_ : tls) : tls := e.

(** The guard remembers the previous executor. *)
Definition ExecutorGuard_ctor (e : executor_id) (t : tls) : tls (* previous_ *) * tls := (t, Some e).
Definition ExecutorGuard_dtor (previous_ : tls) (_ : tls) : tls := previous_.

(** A thread's program: guarded scopes and points that ask for the executor. *)
Inductive stmt :=
  | Ask
  | Scope (e : executor_id) (body : list stmt).

Fixpoint exec (p : stmt) (t : tls) : list tls * tls :=
  match p with
  | Ask => ([GetCurrentExecutor t], t)
  | Scope e body =>
      let '(previous_, t1) := ExecutorGuard_ctor e t in
      let '(seen, t2) :=
        (fix exec_all ps t :=
           match ps with
           | [] => ([], t)
           | p :: ps' =>
               let '(l, t') := exec p t in
               let '(l', t'') := exec_all ps' t' in (l ++ l', t'')
           end) body t1 in
      (seen, ExecutorGuard_dtor previous_ t2)
  end.

(** What the points of a program should see: the innermost guard around them. *)
Fixpoint innermost (cur : tls) (p : stmt) : list tls :=
  match p with
  | Ask => [cur]
  | Scope e body => concat ((innermost (Some e)) <$> body)
  end.

Lemma exec_scoped p t : exec p t = (innermost t p, t).
Proof.
  revert t. revert p. fix IH 1. intros [|e body] t; simpl; [done|].
  match goal with |- context[?f body (Some e)] =>
    assert (∀ ps u, f ps u = (concat ((innermost u) <$> ps), u)) as Hall end.
  { induction ps as [|p ps IHps]; intros u; simpl; [done|]. rewrite IH, IHps. done. }
  by rewrite Hall.
Qed.

(** Guards nest: at every point of a program the current executor is the
    one of the innermost guard around it, and after any guarded scope it is
    what it was before, so running an executor inside another one's callback
    does not disturb the outer one. *)
Theorem executor_guard_scoped (e : executor_id) (body : list stmt) (t : tls) :
  (exec (Scope e body) t).2 = t ∧
  (exec (Scope e body) t).1 = concat ((innermost (Some e)) <$> body) ∧
  (exec (Scope e [Ask; Scope (S e) [Ask]; Ask]) t).1 = [Some e; Some (S e); Some e].
Proof. by rewrite !exec_scoped. Qed.

(** ** Awaitables *)

Section Awaitables.
Context {E : Type} `{ExecutorLaws E}.

(** A thread's view: the executors by address and the current one. *)
Definition executors := gmap executor_id E.

(** AsyncSleep keeps milliseconds.  A duration of [count] periods of [num/den]
    seconds is cast, towards zero; the literal converts an unsigned count to the
    signed one of the clock. *)
Definition AsyncSleep_from (num den count : Z) : Z := Z.quot (count * num * 1000) den.
Definition sleep_literal (ms : Z) : Z := (ms + 2 ^ 63) mod 2 ^ 64 - 2 ^ 63.

(** The cast never sleeps longer than asked, and less than a millisecond
    shorter: 999 microseconds do not sleep at all. *)
Lemma async_sleep_cast num den count : 0 <= count → 0 <= num → 0 < den →
  AsyncSleep_from num den count * den <= count * num * 1000 < (AsyncSleep_from num den count + 1) * den.
Proof.
  intros. unfold AsyncSleep_from. rewrite Z.quot_div_nonneg by nia.
  pose proof (Z.div_mod (count * num * 1000) den ltac:(lia)). pose proof (Z.mod_pos_bound (count * num * 1000) den). nia.
Qed.
Example async_sleep_truncates : AsyncSleep_from 1 1000000 999 = 0 ∧ sleep_literal 100 = 100 ∧ sleep_literal (2 ^ 63) < 0.
Proof. by vm_compute. Qed.

(** [AsyncSleep::await_suspend]: false without an executor. *)
Definition AsyncSleep_await_suspend (now duration : Z) (h : handle) (cur : tls) (es : executors)
    : bool * executors :=
  match cur with
  | None => (false, es)
  | Some x => (true, alter (ex_schedule_after now duration h) x es)
  end.

Definition Yield_await_suspend (h : handle) (cur : tls) (es : executors) : bool * executors :=
  match cur with
  | None => (false, es)
  | Some x => (true, alter (ex_schedule h) x es)
  end.

(** [ScheduleOnAwaitable::await_suspend] returns void: it always suspends. *)
Definition ScheduleOn_await_suspend (target : executor_id) (h : handle) (es : executors)
    : bool * executors := (true, alter (ex_schedule h) target es).

(** The coroutine [h] waits in exactly one place more than before: the ready
    queue, or the timers with its time, of executor [x]. *)
Definition queued_on (x : executor_id) (h : handle) (es es' : executors) : Prop :=
  ∃ e e', es !! x = Some e ∧ es' = <[x := e']> es ∧
    ex_queued e' = ex_queued e ++ [h] ∧ ex_timers e' = ex_timers e.
Definition timed_on (x : executor_id) (d : Z) (h : handle) (es es' : executors) : Prop :=
  ∃ e e', es !! x = Some e ∧ es' = <[x := e']> es ∧
    ex_queued e' = ex_queued e ∧ ex_timers e' ≡ₚ (d, h) :: ex_timers e.

Lemma alter_at (f : E → E) (x : executor_id) (es : executors) e : es !! x = Some e → alter f x es = <[x := f e]> es.
Proof.
  unfold executors in *. intros He. apply map_eq. intros j. destruct (decide (x = j)) as [<-|Hne].
  - by rewrite lookup_insert_eq, lookup_alter_eq, He.
  - by rewrite lookup_alter_ne, lookup_insert_ne.
Qed.

(** Sleeping, yielding and transferring hand the coroutine to one
    executor, once: AsyncSleep to the current executor's timers with the right
    time, Yield to the end of its ready queue, ScheduleOn to the end of the
    target's, and no other executor is touched.  Without a current executor
    AsyncSleep and Yield do not suspend, and change nothing. *)
Theorem awaitables_schedule_once (now d : Z) (h : handle) (x : executor_id) (es : executors) (e : E) :
  es !! x = Some e →
  (∃ es', AsyncSleep_await_suspend now d h (Some x) es = (true, es') ∧ timed_on x (ex_time e now d) h es es') ∧
  (∃ es', Yield_await_suspend h (Some x) es = (true, es') ∧ queued_on x h es es') ∧
  (∃ es', ScheduleOn_await_suspend x h es = (true, es') ∧ queued_on x h es es') ∧
  AsyncSleep_await_suspend now d h None es = (false, es) ∧ Yield_await_suspend h None es = (false, es).
Proof.
  intros He. split_and!; [| | |done|done]; eexists; (split; [reflexivity|]);
    rewrite (alter_at _ _ _ _ He); exists e; eexists; (split_and!; [done|reflexivity|..]).
  - apply ex_after_queued.
  - apply ex_after_timers.
  - apply ex_schedule_queued.
  - apply ex_schedule_timers.
  - apply ex_schedule_queued.
  - apply ex_schedule_timers.
Qed.
End Awaitables.

(** ** PeriodicTimer *)

(** The libuv timer is [armed] with its repeat interval while it runs. *)
Record PeriodicTimer := mkPeriodic {
  interval_ : Z;
  pt_running_ : bool;
  waiting_ : option handle;
  uv_repeat : option Z;         (* the libuv timer: active, with this repeat *)
}.
Definition PeriodicTimer_ctor (interval : Z) : PeriodicTimer := mkPeriodic interval false None None.

Definition Periodic_await_suspend (h : handle) (p : PeriodicTimer) : PeriodicTimer :=
  if negb (pt_running_ p)
  then mkPeriodic (interval_ p) true (Some h) (Some (interval_ p))
  else mkPeriodic (interval_ p) (pt_running_ p) (Some h) (uv_repeat p).

Definition Periodic_Stop (p : PeriodicTimer) : PeriodicTimer :=
  if pt_running_ p then mkPeriodic (interval_ p) false (waiting_ p) None else p.

Definition Periodic_SetInterval (interval : Z) (p : PeriodicTimer) : PeriodicTimer :=
  mkPeriodic interval (pt_running_ p) (waiting_ p)
    (if pt_running_ p then Some interval else uv_repeat p).

(** The callback: the handle to resume. *)
Definition Periodic_OnTimer (p : PeriodicTimer) : PeriodicTimer * list handle :=
  match waiting_ p with
  | Some h => (mkPeriodic (interval_ p) (pt_running_ p) None (uv_repeat p), [h])
  | None => (p, [])
  end.

Definition Periodic_dtor (p : PeriodicTimer) : list handle :=
  let p := Periodic_Stop p in
  match waiting_ p with Some h => [h] | None => [] end.

(** One coroutine that uses the timer in a loop; [pending] says it is
    suspended on it. *)
Record period_sys := PSys { timer : PeriodicTimer; pending : bool; waited : nat; woken : nat; pub : bool }.
Inductive plabel := PWait | PTick | PStop | PSetInterval (i : Z).
Definition loop_handle : handle := 0%nat.

Definition pwake (hs : list handle) (p : PeriodicTimer) (s : period_sys) : period_sys :=
  foldl (λ s _, PSys (timer s) false (waited s) (S (woken s)) (pub s || negb (pending s)))
    (PSys p (pending s) (waited s) (woken s) (pub s)) hs.

Definition period_step (l : plabel) (s : period_sys) : option period_sys :=
  match l with
  | PWait =>
      if pending s then None
      else Some (PSys (Periodic_await_suspend loop_handle (timer s)) true (S (waited s)) (woken s) (pub s))
  | PTick =>
      match uv_repeat (timer s) with
      | Some _ => let '(p, hs) := Periodic_OnTimer (timer s) in Some (pwake hs p s)
      | None => None
      end
  | PStop => Some (PSys (Periodic_Stop (timer s)) (pending s) (waited s) (woken s) (pub s))
  | PSetInterval i => Some (PSys (Periodic_SetInterval i (timer s)) (pending s) (waited s) (woken s) (pub s))
  end.
Definition period_init (i : Z) : period_sys := PSys (PeriodicTimer_ctor i) false 0 0 false.

Definition period_inv (s : period_sys) : Prop :=
  pub s = false ∧ waited s = (woken s + Nat.b2n (pending s))%nat ∧
  waiting_ (timer s) = (if pending s then Some loop_handle else None) ∧
  uv_repeat (timer s) = (if pt_running_ (timer s) then Some (interval_ (timer s)) else None).

Lemma period_inv_step l s s' : period_inv s → period_step l s = Some s' → period_inv s'.
Proof.
  intros (Hu & Hw & Hwt & Hr) Hst. destruct s as [[i r w u] pe wa wo ub]. simpl in *. subst.
  destruct l; simpl in Hst; unfold Periodic_await_suspend, Periodic_Stop, Periodic_OnTimer, pwake in Hst;
    destruct pe, r; simplify_eq/=; unfold period_inv; simpl; split_and!; try done; lia.
Qed.

(** A coroutine that waits on a PeriodicTimer in a loop is woken exactly
    once per wait, by the first tick after it and never otherwise; the libuv
    timer runs with the current interval exactly while the timer is started;
    ticks while nobody waits are dropped, and so is a wait across a Stop, which
    only the destructor ends. *)
Theorem periodic_timer_wakes i s :
  reachable period_step (period_init i) s →
  pub s = false ∧ waited s = (woken s + Nat.b2n (pending s))%nat ∧
  (uv_repeat (timer s) = if pt_running_ (timer s) then Some (interval_ (timer s)) else None) ∧
  (Periodic_OnTimer (timer s)).2 = (if pending s then [loop_handle] else []) ∧
  (pending s = true → Periodic_dtor (timer s) = [loop_handle]) ∧
  (pending s = true → pt_running_ (timer s) = false → period_step PTick s = None).
Proof.
  intros Hr. assert (period_inv s) as (Hu & Hw & Hwt & Hre).
  { revert Hr. apply reachable_inv; [done|]. intros; by eapply period_inv_step. }
  unfold Periodic_OnTimer, Periodic_dtor, Periodic_Stop. simpl. split_and!; try done.
  - rewrite Hwt. by destruct (pending s).
  - intros Hp. rewrite Hp in Hwt. destruct (pt_running_ (timer s)); simpl; by rewrite Hwt.
  - intros Hp Hrun. by rewrite Hre, Hrun.
Qed.

Lemma periodic_timer_wakes_witness :
  ∃ s, run period_step [PWait; PTick; PTick; PWait; PSetInterval 7] (period_init 5) = Some s ∧ woken s = 1%nat ∧
  (pub s = false ∧ waited s = (woken s + Nat.b2n (pending s))%nat ∧
  (uv_repeat (timer s) = if pt_running_ (timer s) then Some (interval_ (timer s)) else None) ∧
  (Periodic_OnTimer (timer s)).2 = (if pending s then [loop_handle] else []) ∧
  (pending s = true → Periodic_dtor (timer s) = [loop_handle]) ∧
  (pending s = true → pt_running_ (timer s) = false → period_step PTick s = None)).
Proof.
  eexists. split; [vm_compute; reflexivity|]. split; [reflexivity|].
  apply (periodic_timer_wakes 5). apply reachable_run.
  exists [PWait; PTick; PTick; PWait; PSetInterval 7]. vm_compute. reflexivity.
Defined.
