(* ===== verification/PollingExecutor.v ===== *)
(** * PollingExecutor ([io/polling_executor.hpp], [src/io/polling_executor.cpp])

    The event loop over a user's completion source.  Any thread may call
    Schedule, ScheduleAfter, Post and Stop at any time; each is one critical
    section of the queue mutex (or one atomic store) followed by a write to the
    eventfd.  The loop thread goes through the phases of Run; every resume and
    every callback is a step, between which other threads, or the coroutine
    that was resumed, may call the executor.  What the completion source
    returns, the clock, and which handles are null or done when they are looked
    at, are labels. *)
From S2P Require Import Prelude Errors Executor.
Local Open Scope Z_scope.

Abbreviation callback := nat (only parsing).

(** [TimerEntry]; the heap is kept as the list of its entries in the order in
    which they will be popped (entries of equal deadline in either order). *)
Record TimerEntry := mkTimer { deadline : Z; timer_handle : handle }.

Inductive IdleStrategy := Spin | Sleep | Wait.

Record PollingExecutor := mkPolling {
  idle_strategy : IdleStrategy;
  eventfd_ : Z;                        (* the eventfd counter *)
  running_ : bool;
  stop_requested_ : bool;
  ready_queue_ : list handle;
  callback_queue_ : list callback;
  timer_heap_ : list TimerEntry;
}.

(** The factory: the two file descriptors, or the error of the first that
    fails, with nothing left open. *)
Definition Create (strategy : IdleStrategy) (efd tfd : Z)
    : Errors.Result PollingExecutor error_code * list Z (* descriptors closed *) :=
  if efd <? 0 then (Err (make_error_code EventfdFailed), [])
  else if tfd <? 0 then (Err (make_error_code TimerfdFailed), [efd])
  else (Ok (mkPolling strategy 0 false false [] [] []), []).

(** [~PollingExecutor]: the descriptors closed. *)
Definition dtor (efd tfd : Z) : list Z :=
  (if 0 <=? efd then [efd] else []) ++ (if 0 <=? tfd then [tfd] else []).

(** Every descriptor that Create opened is closed once, by Create when it fails
    and by the destructor otherwise. *)
Lemma descriptors_closed strategy efd tfd : let '(r, closed) := Create strategy efd tfd in
  closed ++ (if IsOk r then dtor efd tfd else []) =
  (if efd <? 0 then [] else efd :: (if tfd <? 0 then [] else [tfd])).
Proof.
  unfold Create, dtor. destruct (Z.ltb_spec efd 0); [done|]. rewrite (proj2 (Z.leb_le 0 efd)) by done.
  destruct (Z.ltb_spec tfd 0); [done|]. by rewrite (proj2 (Z.leb_le 0 tfd)).
Qed.

Definition new_polling (strategy : IdleStrategy) : PollingExecutor :=
  mkPolling strategy 0 false false [] [] [].

(** The eventfd counter saturates at 2^64 - 2 (a non-blocking write fails). *)
Definition WakeUp (e : PollingExecutor) : PollingExecutor :=
  mkPolling (idle_strategy e)
    (if eventfd_ e + 1 <? size_mod - 1 then eventfd_ e + 1 else eventfd_ e)
    (running_ e) (stop_requested_ e) (ready_queue_ e) (callback_queue_ e) (timer_heap_ e).

Definition Drain (e : PollingExecutor) : PollingExecutor :=
  mkPolling (idle_strategy e) 0 (running_ e) (stop_requested_ e) (ready_queue_ e)
    (callback_queue_ e) (timer_heap_ e).

Definition Schedule (h : handle) (e : PollingExecutor) : PollingExecutor :=
  WakeUp (mkPolling (idle_strategy e) (eventfd_ e) (running_ e) (stop_requested_ e)
    (ready_queue_ e ++ [h]) (callback_queue_ e) (timer_heap_ e)).

Definition Post (cb : callback) (e : PollingExecutor) : PollingExecutor :=
  WakeUp (mkPolling (idle_strategy e) (eventfd_ e) (running_ e) (stop_requested_ e)
    (ready_queue_ e) (callback_queue_ e ++ [cb]) (timer_heap_ e)).

Fixpoint heap_push (t : TimerEntry) (l : list TimerEntry) : list TimerEntry :=
  match l with
  | [] => [t]
  | t' :: l' => if deadline t <? deadline t' then t :: l else t' :: heap_push t l'
  end.

Definition ScheduleAfter (now delay : Z) (h : handle) (e : PollingExecutor) : PollingExecutor :=
  WakeUp (mkPolling (idle_strategy e) (eventfd_ e) (running_ e) (stop_requested_ e)
    (ready_queue_ e) (callback_queue_ e) (heap_push (mkTimer (now + delay) h) (timer_heap_ e))).

Definition Stop (e : PollingExecutor) : PollingExecutor :=
  WakeUp (mkPolling (idle_strategy e) (eventfd_ e) (running_ e) true (ready_queue_ e)
    (callback_queue_ e) (timer_heap_ e)).

Definition IsRunning (e : PollingExecutor) : bool := running_ e.

(** [Run], before the loop. *)
Definition Run_enter (e : PollingExecutor) : PollingExecutor :=
  mkPolling (idle_strategy e) (eventfd_ e) true false (ready_queue_ e) (callback_queue_ e)
    (timer_heap_ e).
Definition Run_exit (e : PollingExecutor) : PollingExecutor :=
  mkPolling (idle_strategy e) (eventfd_ e) false (stop_requested_ e) (ready_queue_ e)
    (callback_queue_ e) (timer_heap_ e).

(** [handle && !handle.done()]; [dead] are the handles that are null or
    finished when they are looked at. *)
Definition alive (dead : list handle) (h : handle) : bool := negb (bool_decide (h ∈ dead)).

(** [ProcessTimers], the critical section: the expired entries, those whose
    coroutine has finished and the entries that stay. *)
Fixpoint pop_expired (dead : list handle) (now : Z) (l : list TimerEntry)
    : list TimerEntry * list TimerEntry * list TimerEntry :=
  match l with
  | t :: l' =>
      if deadline t <=? now
      then let '(x, d, r) := pop_expired dead now l' in
           if alive dead (timer_handle t) then (t :: x, d, r) else (x, t :: d, r)
      else ([], [], l)
  | [] => ([], [], [])
  end.
Definition ProcessTimers_pop (dead : list handle) (now : Z) (e : PollingExecutor)
    : list TimerEntry * list TimerEntry * PollingExecutor :=
  let '(expired, dropped, rest) := pop_expired dead now (timer_heap_ e) in
  (expired, dropped, mkPolling (idle_strategy e) (eventfd_ e) (running_ e) (stop_requested_ e)
                       (ready_queue_ e) (callback_queue_ e) rest).

(** [ProcessReadyQueue], the critical section. *)
Definition ProcessReadyQueue_swap (e : PollingExecutor)
    : list handle * list callback * PollingExecutor :=
  (ready_queue_ e, callback_queue_ e,
   mkPolling (idle_strategy e) (eventfd_ e) (running_ e) (stop_requested_ e) [] [] (timer_heap_ e)).

(** ** The loop *)

Inductive loop :=
  | LOut                                        (* not in Run or RunOnce *)
  | LTop (once : bool)                          (* while (!stop_requested_) / RunOnce's start *)
  | LPolled (once : bool) (n : nat) (hs : list handle)
  | LTimers (once : bool) (n : nat)
  | LExpired (once : bool) (n : nat) (ts : list TimerEntry)
  | LReady (once : bool) (n : nat)
  | LResuming (once : bool) (n : nat) (hs : list handle) (cbs : list callback)
  | LDrain (once : bool) (n : nat)
  | LCheck (n : nat)
  | LIdle.                                      (* spinning, sleeping or in source->Wait *)

(** What ran, in order. *)
Inductive event :=
  | EvCompletion (h : handle)
  | EvTimer (t : TimerEntry) (now : Z)
  | EvResume (h : handle)
  | EvCall (cb : callback).

Record lsys := LSys {
  exe : PollingExecutor;
  at_ : loop;
  clock : Z;                         (* the last reading of the steady clock *)
  log : list (event * bool);         (* what was taken up, in order; false: a null
                                        or finished coroutine, not resumed *)
  scheduled : list handle;
  posted : list callback;
  armed : list TimerEntry;
}.
Definition lsys_init (strategy : IdleStrategy) : lsys :=
  LSys (new_polling strategy) LOut 0 [] [] [] [].

Inductive llabel :=
  | XSchedule (h : handle)
  | XPost (cb : callback)
  | XAfter (delay : Z) (h : handle)
  | XStop
  | XTick (d : nat)                          (* time passes *)
  | XRun | XRunOnce                          (* the loop thread enters *)
  | XPoll (hs : list (option handle))        (* what Poll wrote *)
  | XStep (dead : list handle).              (* the loop thread's next step; the
                                                handles that are null or finished *)

Definition set_exe (e : PollingExecutor) (s : lsys) : lsys :=
  LSys e (at_ s) (clock s) (log s) (scheduled s) (posted s) (armed s).
Definition set_at (a : loop) (s : lsys) : lsys :=
  LSys (exe s) a (clock s) (log s) (scheduled s) (posted s) (armed s).
Definition add_log (evs : list (event * bool)) (s : lsys) : lsys :=
  LSys (exe s) (at_ s) (clock s) (log s ++ evs) (scheduled s) (posted s) (armed s).
(** [if (handle && !handle.done()) handle.resume()]. *)
Definition run_event (resumed : bool) (ev : event) (s : lsys) : lsys := add_log [(ev, resumed)] s.
(** Expired entries of finished coroutines: popped, not resumed. *)
Definition drop_timers (now : Z) (ts : list TimerEntry) (s : lsys) : lsys :=
  add_log ((λ t, (EvTimer t now, false)) <$> ts) s.

Definition loop_step (dead : list handle) (s : lsys) : option lsys :=
  match at_ s with
  | LOut | LTop true => None
  | LTop false => if stop_requested_ (exe s) then Some (set_at LOut (set_exe (Run_exit (exe s)) s)) else None
  | LPolled once n [] => Some (set_at (LTimers once n) s)
  | LPolled once n (h :: hs) => Some (set_at (LPolled once n hs) (run_event true (EvCompletion h) s))
  | LTimers once n =>
      let '(expired, dropped, e) := ProcessTimers_pop dead (clock s) (exe s) in
      Some (set_at (LExpired once n expired) (set_exe e (drop_timers (clock s) dropped s)))
  | LExpired once n [] => Some (set_at (LReady once n) s)
  | LExpired once n (t :: ts) =>
      Some (set_at (LExpired once n ts) (run_event true (EvTimer t (clock s)) s))
  | LReady once n =>
      let '(ready, cbs, e) := ProcessReadyQueue_swap (exe s) in
      Some (set_at (LResuming once n ready cbs) (set_exe e s))
  | LResuming once n (h :: hs) cbs =>
      Some (set_at (LResuming once n hs cbs) (run_event (alive dead h) (EvResume h) s))
  | LResuming once n [] (cb :: cbs) =>
      Some (set_at (LResuming once n [] cbs) (run_event true (EvCall cb) s))
  | LResuming once n [] [] => Some (set_at (LDrain once n) s)
  | LDrain once n => Some (set_at (if once then LOut else LCheck n) (set_exe (Drain (exe s)) s))
  | LCheck n =>
      let queues_empty := bool_decide (ready_queue_ (exe s) = []) && bool_decide (callback_queue_ (exe s) = []) in
      Some (set_at (if (n =? 0)%nat && queues_empty then LIdle else LTop false) s)
  | LIdle => Some (set_at (LTop false) s)
  end.

Definition lstep (l : llabel) (s : lsys) : option lsys :=
  match l with
  | XSchedule h =>
      Some (LSys (Schedule h (exe s)) (at_ s) (clock s) (log s) (scheduled s ++ [h])
              (posted s) (armed s))
  | XPost cb =>
      Some (LSys (Post cb (exe s)) (at_ s) (clock s) (log s) (scheduled s)
              (posted s ++ [cb]) (armed s))
  | XAfter delay h =>
      Some (LSys (ScheduleAfter (clock s) delay h (exe s)) (at_ s) (clock s) (log s)
              (scheduled s) (posted s) (armed s ++ [mkTimer (clock s + delay) h]))
  | XStop => Some (set_exe (Stop (exe s)) s)
  | XTick d =>
      Some (LSys (exe s) (at_ s) (clock s + Z.of_nat d) (log s) (scheduled s) (posted s)
              (armed s))
  | XRun => match at_ s with LOut => Some (set_at (LTop false) (set_exe (Run_enter (exe s)) s)) | _ => None end
  | XRunOnce => match at_ s with LOut => Some (set_at (LTop true) s) | _ => None end
  | XPoll hs =>
      match at_ s with
      | LTop once =>
          if negb once && stop_requested_ (exe s) then None
          else Some (set_at (LPolled once (length hs) (omap id hs)) s)
      | _ => None
      end
  | XStep dead => loop_step dead s
  end.

(** ** Accounting *)

Definition resumes (l : list (event * bool)) : list handle :=
  omap (λ ev, match ev with (EvResume h, _) => Some h | _ => None end) l.
Definition calls (l : list (event * bool)) : list callback :=
  omap (λ ev, match ev with (EvCall cb, _) => Some cb | _ => None end) l.
Definition fired (l : list (event * bool)) : list TimerEntry :=
  omap (λ ev, match ev with (EvTimer t _, _) => Some t | _ => None end) l.

Definition local_ready (a : loop) : list handle :=
  match a with LResuming _ _ hs _ => hs | _ => [] end.
Definition local_callbacks (a : loop) : list callback :=
  match a with LResuming _ _ _ cbs => cbs | _ => [] end.
Definition local_timers (a : loop) : list TimerEntry :=
  match a with LExpired _ _ ts => ts | _ => [] end.

Definition on_time (ev : event * bool) : Prop :=
  match ev.1 with EvTimer t now => deadline t <= now | _ => True end.

Record linv (s : lsys) : Prop := {
  li_handles : scheduled s = resumes (log s) ++ local_ready (at_ s) ++ ready_queue_ (exe s);
  li_calls : posted s = calls (log s) ++ local_callbacks (at_ s) ++ callback_queue_ (exe s);
  li_timers : armed s ≡ₚ fired (log s) ++ local_timers (at_ s) ++ timer_heap_ (exe s);
  li_on_time : Forall on_time (log s);
  li_expired : Forall (λ t, deadline t <= clock s) (local_timers (at_ s));
}.

Lemma omap_snoc {A B} (f : A → option B) l x : omap f (l ++ [x]) = omap f l ++ option_list (f x).
Proof. rewrite omap_app. simpl. by destruct (f x). Qed.

Lemma heap_push_perm t l : heap_push t l ≡ₚ t :: l.
Proof.
  induction l as [|t' l IH]; simpl; [done|]. case_match; [done|]. rewrite IH. constructor.
Qed.

Lemma pop_expired_spec dead now l :
  let '(x, d, r) := pop_expired dead now l in
  l ≡ₚ d ++ x ++ r ∧ Forall (λ t, deadline t <= now) x ∧ Forall (λ t, deadline t <= now) d.
Proof.
  induction l as [|t l IH]; simpl; [done|]. destruct (Z.leb_spec (deadline t) now); [|done].
  destruct (pop_expired dead now l) as [[x d] r]. destruct IH as (IH & Hx & Hd).
  destruct (alive dead (timer_handle t)); (split_and!; [rewrite IH; solve_Permutation|..]); try done; by constructor.
Qed.

(** The dropped entries have been taken up. *)
Lemma linv_dropped now d s :
  let l := log s ++ ((λ t, (EvTimer t now, false)) <$> d) in
  resumes l = resumes (log s) ∧ calls l = calls (log s) ∧ fired l = fired (log s) ++ d.
Proof.
  simpl. unfold resumes, calls, fired. rewrite !omap_app.
  assert (∀ {A} (f : event * bool → option A), (∀ t, f (EvTimer t now, false) = None) →
    omap f ((λ t, (EvTimer t now, false)) <$> d) = []) as Hnone.
  { intros A f Hf. induction d as [|t d IH]; simpl; [done|]. by rewrite Hf. }
  rewrite !Hnone by done. rewrite !app_nil_r. split_and!; [done..|]. f_equal.
  clear Hnone. induction d as [|t d IH]; simpl; [done|]. by f_equal.
Qed.

(** The loop thread takes one item of its local lists up. *)
Lemma linv_event s a alive ev :
  linv s →
  local_ready (at_ s) = resumes [(ev, alive)] ++ local_ready a →
  local_callbacks (at_ s) = calls [(ev, alive)] ++ local_callbacks a →
  local_timers (at_ s) = fired [(ev, alive)] ++ local_timers a →
  on_time (ev, alive) → linv (set_at a (run_event alive ev s)).
Proof.
  intros [Hh Hc Ht Ho He] Hr Hcb Hti Hon. rewrite Hr in Hh. rewrite Hcb in Hc. rewrite Hti in Ht, He.
  apply Forall_app in He as [_ He]. unfold resumes, calls, fired in *.
  split; simpl; unfold resumes, calls, fired; rewrite ?omap_app, <-?app_assoc in *; try done.
  apply Forall_app. split; [done|by constructor].
Qed.

(** The loop thread moves on, perhaps taking a queue over. *)
Lemma linv_quiet s a e :
  linv s →
  local_ready a ++ ready_queue_ e = local_ready (at_ s) ++ ready_queue_ (exe s) →
  local_callbacks a ++ callback_queue_ e = local_callbacks (at_ s) ++ callback_queue_ (exe s) →
  local_timers a ++ timer_heap_ e = local_timers (at_ s) ++ timer_heap_ (exe s) →
  Forall (λ t, deadline t <= clock s) (local_timers a) →
  linv (set_at a (set_exe e s)).
Proof.
  intros [Hh Hc Ht Ho He] Hr Hcb Hti Hl. split; simpl; rewrite ?Hr, ?Hcb, ?Hti; done.
Qed.

Lemma linv_loop dead s s' : linv s → loop_step dead s = Some s' → linv s'.
Proof.
  intros Hs Hst. unfold loop_step in Hst.
  assert (∀ a, local_ready a = [] → local_callbacks a = [] → local_timers a = [] →
    local_ready (at_ s) = [] → local_callbacks (at_ s) = [] → local_timers (at_ s) = [] →
    linv (set_at a s)) as Hmove.
  { intros a H1 H2 H3 H4 H5 H6. replace s with (set_exe (exe s) s) by by destruct s.
    apply linv_quiet; rewrite ?H1, ?H2, ?H3, ?H4, ?H5, ?H6; done. }
  destruct (at_ s) as [|once|once n hs|once n|once n ts|once n|once n hs cbs|once n|n|] eqn:Ha.
  - done.
  - destruct once; [done|]. case_match; simplify_eq. apply linv_quiet; rewrite ?Ha; done.
  - destruct hs as [|h hs]; simplify_eq; [by apply Hmove|]. apply linv_event; by rewrite ?Ha.
  - unfold ProcessTimers_pop in Hst. pose proof (pop_expired_spec dead (clock s) (timer_heap_ (exe s))) as Hp.
    destruct (pop_expired _ _ _) as [[x d] r]. simplify_eq. destruct Hp as (Hp & Hx & Hd).
    destruct Hs as [Hh Hc Ht Ho He]. rewrite Ha in *. simpl in *.
    destruct (linv_dropped (clock s) d s) as (H1 & H2 & H3).
    split; simpl; rewrite ?H1, ?H2, ?H3; try done.
    + rewrite Ht, Hp. by rewrite <-app_assoc.
    + apply Forall_app. split; [done|]. by apply Forall_fmap.
  - destruct ts as [|t ts]; simplify_eq; [by apply Hmove|].
    apply linv_event; rewrite ?Ha; try done.
    pose proof (li_expired _ Hs) as He. rewrite Ha in He. by apply Forall_cons in He as [? _].
  - simplify_eq/=. apply linv_quiet; rewrite ?Ha; simpl; by rewrite ?app_nil_r.
  - destruct hs as [|h hs]; [destruct cbs as [|cb cbs]|]; simplify_eq; [by apply Hmove|..];
      apply linv_event; by rewrite ?Ha.
  - simplify_eq. apply linv_quiet; rewrite ?Ha; by destruct once.
  - simplify_eq. apply Hmove; try case_match; done.
  - simplify_eq. by apply Hmove.
Qed.

Lemma linv_step l s s' : linv s → lstep l s = Some s' → linv s'.
Proof.
  intros Hs Hst. pose proof Hs as [Hh Hc Ht Ho He].
  destruct l as [h|cb|delay h| |d| | |hs|dead]; simpl in Hst.
  - simplify_eq. split; simpl; try done. rewrite Hh. by rewrite <-!app_assoc.
  - simplify_eq. split; simpl; try done. rewrite Hc. by rewrite <-!app_assoc.
  - simplify_eq. split; simpl; try done. rewrite heap_push_perm, Ht. solve_Permutation.
  - simplify_eq. by split.
  - simplify_eq. split; simpl; try done. eapply Forall_impl; [exact He|]. simpl. lia.
  - destruct (at_ s) eqn:Ha; simplify_eq. apply linv_quiet; by rewrite ?Ha.
  - destruct (at_ s) eqn:Ha; simplify_eq.
    replace (set_at (LTop true) s) with (set_at (LTop true) (set_exe (exe s) s)) by by destruct s.
    apply linv_quiet; by rewrite ?Ha.
  - destruct (at_ s) eqn:Ha; simplify_eq. case_match; simplify_eq.
    match goal with |- linv (set_at ?a s) =>
      replace (set_at a s) with (set_at a (set_exe (exe s) s)) by by destruct s end.
    apply linv_quiet; by rewrite ?Ha.
  - by eapply linv_loop.
Qed.

Definition polling_reachable (st : IdleStrategy) (s : lsys) : Prop :=
  reachable lstep (lsys_init st) s.

Lemma polling_inv st s : polling_reachable st s → linv s.
Proof. apply reachable_inv; [by split|]. intros; by eapply linv_step. Qed.

(** ** What the executor promises *)

(** The executor interface. *)
#[export] Instance polling_executor : Executor PollingExecutor := {
  ex_schedule := Schedule;
  ex_schedule_after := ScheduleAfter;
  ex_queued := ready_queue_;
  ex_timers e := (λ t, (deadline t, timer_handle t)) <$> timer_heap_ e;
  ex_time _ now d := now + d;
}.
#[export] Instance polling_executor_laws : ExecutorLaws PollingExecutor.
Proof. split; try done. intros now d h e. simpl. by rewrite heap_push_perm. Qed.


(** A timer of 5 ms, a coroutine scheduled while the loop resumes another, and
    a stop. *)
Definition polling_demo : list llabel :=
  [XSchedule 1%nat; XAfter 5 2%nat; XRun; XPoll [Some 9%nat; None]; XStep []; XStep []; XStep [];
   XStep []; XStep []; XSchedule 3%nat; XPost 4%nat; XStep []; XStep []; XStep []; XStep [];
   XTick 6; XPoll []; XStep []; XStep []; XStep []; XStep []; XStep []; XStep []; XStep [];
   XStep []; XStop].


(** A timer whose coroutine has finished when the entry is popped. *)
Example polling_finished_timer :
  ∃ s, run lstep [XAfter 0 2%nat; XAfter 0 3%nat; XRun; XPoll []; XStep []; XStep [2%nat]; XStep []; XStep []]
    (lsys_init Spin) = Some s ∧
    log s = [(EvTimer (mkTimer 0 2%nat) 0, false); (EvTimer (mkTimer 0 3%nat) 0, true)].
Proof. eexists. split; vm_compute; reflexivity. Qed.

(** A Stop that arrives before Run clears the flag is lost. *)
Example polling_stop_before_run_lost :
  ∃ s, run lstep [XStop; XRun; XPoll []] (lsys_init Spin) = Some s ∧ at_ s = LPolled false 0 [].
Proof. eexists. split; vm_compute; reflexivity. Qed.
