(* ===== verification/ThreadPool.v ===== *)
(** * ThreadPoolExecutor ([io/thread_pool_executor.hpp], [src/io/thread_pool_executor.cpp])

    Worker threads, a timer thread, and any number of threads that call
    Schedule, Post, ScheduleAfter, RunOnce, Run and Stop.  Every access to an
    atomic, every critical section of [queue_mutex_] and every notification is
    one step of its thread.  Waiting on the condition variable is three steps:
    the predicate is found false under the mutex ([WHold]), the thread releases
    it and blocks ([WBlocked]), and a notification sends it back to the mutex
    ([WEnter]).  Which waiter a notify_one wakes is part of the label.

    TimerLoop keeps a reference into the heap's vector across its wait.  When the
    vector has moved meanwhile, what it reads there is part of the label, and
    [dangling] records that it has read it; it then pops whatever entry is first
    ([timer_step], [pool_timer_dangling]).  The theorems are about the executions
    in which that has not happened. *)
From stdpp Require Import sorting.
From S2P Require Import Prelude Executor.
Local Open Scope Z_scope.

Inductive WorkItem := ResumeItem (h : handle) | CallItem (cb : nat).

Record DelayedWork := mkDelayed { when : Z; delayed_handle : handle }.

(** The vector under the priority queue: its elements in the order in which
    they will be popped, its capacity, and which allocation it lives in. *)
Record delayed_vector := mkVec { vitems : list DelayedWork; vcap : nat; vbuf : nat }.
Definition vec_insert (d : DelayedWork) (l : list DelayedWork) : list DelayedWork :=
  filter (λ d', when d' <= when d) l ++ d :: filter (λ d', when d < when d') l.
(** A push into a full vector moves it to a new allocation. *)
Definition vec_push (d : DelayedWork) (v : delayed_vector) : delayed_vector :=
  if (length (vitems v) <? vcap v)%nat then mkVec (vec_insert d (vitems v)) (vcap v) (vbuf v)
  else mkVec (vec_insert d (vitems v)) (Nat.max 1 (2 * vcap v)) (S (vbuf v)).
Definition vec_pop (v : delayed_vector) : delayed_vector := mkVec (tail (vitems v)) (vcap v) (vbuf v).

Record ThreadPoolExecutor := mkPool {
  work_queue_ : list WorkItem;
  running_ : bool;
  stopping_ : bool;
  active_tasks_ : Z;
  delayed_queue_ : delayed_vector;
}.

Definition set_queue (q : list WorkItem) (p : ThreadPoolExecutor) : ThreadPoolExecutor :=
  mkPool q (running_ p) (stopping_ p) (active_tasks_ p) (delayed_queue_ p).
Definition set_running (b : bool) (p : ThreadPoolExecutor) : ThreadPoolExecutor :=
  mkPool (work_queue_ p) b (stopping_ p) (active_tasks_ p) (delayed_queue_ p).
Definition set_stopping (b : bool) (p : ThreadPoolExecutor) : ThreadPoolExecutor :=
  mkPool (work_queue_ p) (running_ p) b (active_tasks_ p) (delayed_queue_ p).
Definition add_active (z : Z) (p : ThreadPoolExecutor) : ThreadPoolExecutor :=
  mkPool (work_queue_ p) (running_ p) (stopping_ p) (to_size (active_tasks_ p + z)) (delayed_queue_ p).
Definition set_delayed (v : delayed_vector) (p : ThreadPoolExecutor) : ThreadPoolExecutor :=
  mkPool (work_queue_ p) (running_ p) (stopping_ p) (active_tasks_ p) v.

Definition IsRunning (p : ThreadPoolExecutor) : bool := running_ p.
Definition PendingTasks (p : ThreadPoolExecutor) : Z := Z.of_nat (length (work_queue_ p)).

(** [num_threads == 0] is one thread. *)
Definition num_threads (n : nat) : nat := if decide (n = 0%nat) then 1%nat else n.
Definition InitWorkers : ThreadPoolExecutor := mkPool [] true false 0 (mkVec [] 0 0).

(** ** Threads *)

Inductive worker :=
  | WTop                      (* while (!stopping_) *)
  | WEnter                    (* about to lock, or woken and about to relock *)
  | WHold                     (* the predicate was false, the mutex is held *)
  | WBlocked                  (* in work_available_.wait *)
  | WTaken (w : WorkItem)     (* about to execute *)
  | WRan                      (* executed; active_tasks_-- is next *)
  | WNotify                   (* notify_all is next *)
  | WExit.

(** A caller of [Run]. *)
Inductive runner := RIdle | RReset | REnter | RHold | RBlocked.

(** A call of one of the other members, by any thread. *)
Inductive call :=
  | CPush (w : WorkItem)      (* Schedule, Post: about to push *)
  | CNotify                   (* about to notify_one *)
  | COnce                     (* RunOnce: about to lock *)
  | COnceTaken (w : WorkItem) (* about to increment active_tasks_ *)
  | COnceActive (w : WorkItem)
  | COnceRan
  | CStop (dtor : bool) | CStopRunning (dtor : bool) | CStopNotify (dtor : bool)
  | CDtorNotify | CDtorJoin   (* the destructor after Stop() *)
  | CDone.

Inductive timer :=
  | TTop
  | TEnter                    (* about to lock delayed_mutex_ *)
  | TEmpty                    (* waiting for delayed work *)
  | TUntil (buf : nat)        (* wait_until(top.when), [top] a reference into the vector *)
  | TCall (j : nat)           (* in Schedule *)
  | TExit.

Record pool_sys := PoolSys {
  pool : ThreadPoolExecutor;
  locked : bool;              (* queue_mutex_ held across steps *)
  workers_ : list worker;
  run_ : runner;
  calls : list call;
  timer_ : timer;
  clock : Z;
  posted : list WorkItem;     (* history: calls of Schedule and Post *)
  armed : list DelayedWork;   (* calls of ScheduleAfter *)
  fired : list DelayedWork;   (* popped by the timer thread *)
  submitted : list WorkItem;  (* pushed, in order *)
  dequeued : list WorkItem;   (* popped, in order *)
  ran : list WorkItem;        (* executed, in order *)
  dangling : bool;            (* a reference into a freed vector was read *)
}.

Definition on_pool (f : ThreadPoolExecutor → ThreadPoolExecutor) (s : pool_sys) : pool_sys :=
  PoolSys (f (pool s)) (locked s) (workers_ s) (run_ s) (calls s) (timer_ s) (clock s) (posted s)
    (armed s) (fired s) (submitted s) (dequeued s) (ran s) (dangling s).
Definition set_locked (b : bool) (s : pool_sys) : pool_sys :=
  PoolSys (pool s) b (workers_ s) (run_ s) (calls s) (timer_ s) (clock s) (posted s)
    (armed s) (fired s) (submitted s) (dequeued s) (ran s) (dangling s).
Definition set_workers (ws : list worker) (s : pool_sys) : pool_sys :=
  PoolSys (pool s) (locked s) ws (run_ s) (calls s) (timer_ s) (clock s) (posted s)
    (armed s) (fired s) (submitted s) (dequeued s) (ran s) (dangling s).
Definition set_worker (i : nat) (w : worker) (s : pool_sys) : pool_sys :=
  set_workers (<[i:=w]> (workers_ s)) s.
Definition set_run (r : runner) (s : pool_sys) : pool_sys :=
  PoolSys (pool s) (locked s) (workers_ s) r (calls s) (timer_ s) (clock s) (posted s)
    (armed s) (fired s) (submitted s) (dequeued s) (ran s) (dangling s).
Definition set_calls (cs : list call) (s : pool_sys) : pool_sys :=
  PoolSys (pool s) (locked s) (workers_ s) (run_ s) cs (timer_ s) (clock s) (posted s)
    (armed s) (fired s) (submitted s) (dequeued s) (ran s) (dangling s).
Definition set_call (j : nat) (c : call) (s : pool_sys) : pool_sys := set_calls (<[j:=c]> (calls s)) s.
Definition set_timer (t : timer) (s : pool_sys) : pool_sys :=
  PoolSys (pool s) (locked s) (workers_ s) (run_ s) (calls s) t (clock s) (posted s)
    (armed s) (fired s) (submitted s) (dequeued s) (ran s) (dangling s).
Definition set_clock (z : Z) (s : pool_sys) : pool_sys :=
  PoolSys (pool s) (locked s) (workers_ s) (run_ s) (calls s) (timer_ s) z (posted s)
    (armed s) (fired s) (submitted s) (dequeued s) (ran s) (dangling s).
Definition set_dangling (s : pool_sys) : pool_sys :=
  PoolSys (pool s) (locked s) (workers_ s) (run_ s) (calls s) (timer_ s) (clock s) (posted s)
    (armed s) (fired s) (submitted s) (dequeued s) (ran s) true.
Definition log_items (po su de ra : list WorkItem) (s : pool_sys) : pool_sys :=
  PoolSys (pool s) (locked s) (workers_ s) (run_ s) (calls s) (timer_ s) (clock s) (posted s ++ po)
    (armed s) (fired s) (submitted s ++ su) (dequeued s ++ de) (ran s ++ ra) (dangling s).
Definition log_delayed (ar fi : list DelayedWork) (s : pool_sys) : pool_sys :=
  PoolSys (pool s) (locked s) (workers_ s) (run_ s) (calls s) (timer_ s) (clock s) (posted s)
    (armed s ++ ar) (fired s ++ fi) (submitted s) (dequeued s) (ran s) (dangling s).

(** ** Notifications *)

Definition wake_worker (w : worker) : worker := match w with WBlocked => WEnter | _ => w end.
Definition wake_run (r : runner) : runner := match r with RBlocked => REnter | _ => r end.
Definition notify_all (s : pool_sys) : pool_sys :=
  set_run (wake_run (run_ s)) (set_workers (wake_worker <$> workers_ s) s).

(** notify_one wakes some thread that waits on the condition variable, a worker
    or the caller of Run; it does nothing only when there is none. *)
Definition is_blocked (w : worker) : bool := match w with WBlocked => true | _ => false end.
Inductive waiter := AtWorker (i : nat) | AtRun | NoWaiter.
Definition notify_one (who : waiter) (s : pool_sys) : option pool_sys :=
  match who with
  | AtWorker i => match workers_ s !! i with Some WBlocked => Some (set_worker i WEnter s) | _ => None end
  | AtRun => match run_ s with RBlocked => Some (set_run REnter s) | _ => None end
  | NoWaiter =>
      match run_ s with
      | RBlocked => None
      | _ => if forallb (λ w, negb (is_blocked w)) (workers_ s) then Some s else None
      end
  end.

(** ** One step of each thread *)

(** Pop the front of the queue; the mutex is free. *)
Definition pop_work (w : WorkItem) (q : list WorkItem) (s : pool_sys) : pool_sys :=
  log_items [] [] [w] [] (on_pool (set_queue q) s).

Definition worker_step (i : nat) (s : pool_sys) : option pool_sys :=
  match workers_ s !! i with
  | Some WTop => Some (set_worker i (if stopping_ (pool s) then WExit else WEnter) s)
  | Some WEnter =>
      if locked s then None
      else match work_queue_ (pool s) with
      | [] => if stopping_ (pool s) then Some (set_worker i WExit s)
              else Some (set_worker i WHold (set_locked true s))
      | w :: q => Some (set_worker i (WTaken w) (on_pool (add_active 1) (pop_work w q s)))
      end
  | Some WHold => Some (set_worker i WBlocked (set_locked false s))
  | Some (WTaken w) => Some (set_worker i WRan (log_items [] [] [] [w] s))
  | Some WRan => Some (set_worker i WNotify (on_pool (add_active (-1)) s))
  | Some WNotify => Some (set_worker i WTop (notify_all s))
  | _ => None
  end.

(** Run's predicate: stopped, or no more work. *)
Definition run_predicate (p : ThreadPoolExecutor) : bool :=
  stopping_ p || (bool_decide (work_queue_ p = []) && (active_tasks_ p =? 0)).
Definition run_step (s : pool_sys) : option pool_sys :=
  match run_ s with
  | RReset => Some (set_run REnter (on_pool (set_stopping false) s))
  | REnter =>
      if locked s then None
      else if run_predicate (pool s) then Some (set_run RIdle s)
      else Some (set_run RHold (set_locked true s))
  | RHold => Some (set_run RBlocked (set_locked false s))
  | _ => None
  end.

Definition call_step (j : nat) (who : waiter) (s : pool_sys) : option pool_sys :=
  match calls s !! j with
  | Some (CPush w) =>
      if locked s then None
      else Some (set_call j CNotify (log_items [] [w] [] []
                  (on_pool (set_queue (work_queue_ (pool s) ++ [w])) s)))
  | Some CNotify => notify_one who (set_call j CDone s)
  | Some COnce =>
      if locked s then None
      else match work_queue_ (pool s) with
      | [] => Some (set_call j CDone s)
      | w :: q => Some (set_call j (COnceTaken w) (pop_work w q s))
      end
  | Some (COnceTaken w) => Some (set_call j (COnceActive w) (on_pool (add_active 1) s))
  | Some (COnceActive w) => Some (set_call j COnceRan (log_items [] [] [] [w] s))
  | Some COnceRan => Some (set_call j CDone (on_pool (add_active (-1)) s))
  | Some (CStop d) => Some (set_call j (CStopRunning d) (on_pool (set_stopping true) s))
  | Some (CStopRunning d) => Some (set_call j (CStopNotify d) (on_pool (set_running false) s))
  | Some (CStopNotify d) => Some (set_call j (if d then CDtorNotify else CDone) (notify_all s))
  | Some CDtorNotify => Some (set_call j CDtorJoin (notify_all s))
  | Some CDtorJoin =>
      if forallb (λ w, match w with WExit => true | _ => false end) (workers_ s)
      then match timer_ s with TExit => Some (set_call j CDone s) | _ => None end
      else None
  | _ => None
  end.

(** The timer thread pops the top of the heap and schedules the handle it has
    read, unless that one is null. *)
Definition timer_fire (h : option handle) (s : pool_sys) : pool_sys :=
  let v := delayed_queue_ (pool s) in
  let s1 := log_delayed [] (take 1 (vitems v)) (on_pool (set_delayed (vec_pop v)) s) in
  match h with
  | Some h => set_timer (TCall (length (calls s))) (set_calls (calls s ++ [CPush (ResumeItem h)]) s1)
  | None => set_timer TTop s1
  end.

(** [stale]: the [when] and the [handle] that are read through [top] when the
    vector has moved since the reference was taken: freed memory may hold
    anything, the old entry for one.  The element popped is then the top of the
    heap, whatever the reference showed. *)
Definition timer_step (stale : Z * option handle) (s : pool_sys) : option pool_sys :=
  let v := delayed_queue_ (pool s) in
  match timer_ s with
  | TTop => Some (set_timer (if stopping_ (pool s) then TExit else TEnter) s)
  | TEnter => Some (set_timer (match vitems v with [] => TEmpty | _ => TUntil (vbuf v) end) s)
  | TEmpty => if stopping_ (pool s) || negb (bool_decide (vitems v = [])) then Some (set_timer TTop s) else None
  | TUntil buf =>
      if stopping_ (pool s) then Some (set_timer TExit s)
      else if negb (buf =? vbuf v)%nat then
        Some (if stale.1 <=? clock s then timer_fire stale.2 (set_dangling s) else set_timer TTop (set_dangling s))
      else match vitems v with
      | d :: _ => if when d <=? clock s then Some (timer_fire (Some (delayed_handle d)) s) else None
      | [] => None
      end
  | TCall j => match calls s !! j with Some CDone => Some (set_timer TTop s) | _ => None end
  | TExit => None
  end.

(** ** The executor's members as they are called *)

Definition Schedule (h : option handle) (s : pool_sys) : pool_sys :=
  match h with
  | None => s
  | Some h => set_calls (calls s ++ [CPush (ResumeItem h)]) (log_items [ResumeItem h] [] [] [] s)
  end.
Definition Post (cb : option nat) (s : pool_sys) : pool_sys :=
  match cb with
  | None => s
  | Some cb => set_calls (calls s ++ [CPush (CallItem cb)]) (log_items [CallItem cb] [] [] [] s)
  end.
Definition ScheduleAfter (delay : Z) (h : option handle) (s : pool_sys) : pool_sys :=
  match h with
  | None => s
  | Some h =>
      let d := mkDelayed (clock s + delay) h in
      log_delayed [d] [] (on_pool (set_delayed (vec_push d (delayed_queue_ (pool s)))) s)
  end.

Inductive pool_label :=
  | PSchedule (h : option handle) | PPost (cb : option nat) | PAfter (delay : Z) (h : option handle)
  | POnce | PStop | PDtor | PRun
  | PTick (d : nat)
  | PWorker (i : nat) | PRunner | PCall (j : nat) (who : waiter)
  | PTimer (stale : Z * option handle)
  | PSpurious (who : waiter).       (* a wake-up without notification *)

Definition pool_step (l : pool_label) (s : pool_sys) : option pool_sys :=
  match l with
  | PSchedule h => Some (Schedule h s)
  | PPost cb => Some (Post cb s)
  | PAfter delay h => Some (ScheduleAfter delay h s)
  | POnce => Some (set_calls (calls s ++ [COnce]) s)
  | PStop => Some (set_calls (calls s ++ [CStop false]) s)
  | PDtor => Some (set_calls (calls s ++ [CStop true]) s)
  | PRun => match run_ s with RIdle => Some (set_run RReset (on_pool (set_running true) s)) | _ => None end
  | PTick d => Some (set_clock (clock s + Z.of_nat d) s)
  | PWorker i => worker_step i s
  | PRunner => run_step s
  | PCall j who => call_step j who s
  | PTimer stale => timer_step stale s
  | PSpurious who => match who with NoWaiter => None | _ => notify_one who s end
  end.

(** No stale reference is read: the argument of the timer's step is not used. *)
Definition intact : Z * option handle := (0, None).

Definition pool_init (n : nat) : pool_sys :=
  PoolSys InitWorkers false (replicate (num_threads n) WTop) RIdle [] TTop 0 [] [] [] [] [] [] false.
Definition pool_reachable (n : nat) (s : pool_sys) : Prop := reachable pool_step (pool_init n) s.

(** ** Accounting *)

Definition worker_hands (w : worker) : list WorkItem := match w with WTaken x => [x] | _ => [] end.
Definition worker_busy (w : worker) : nat := match w with WTaken _ | WRan => 1 | _ => 0 end.
Definition worker_holds (w : worker) : nat := match w with WHold => 1 | _ => 0 end.
Definition run_holds (r : runner) : nat := match r with RHold => 1 | _ => 0 end.
Definition call_hands (c : call) : list WorkItem := match c with COnceTaken x | COnceActive x => [x] | _ => [] end.
Definition call_pushing (c : call) : list WorkItem := match c with CPush x => [x] | _ => [] end.
Definition call_busy (c : call) : nat := match c with COnceActive _ | COnceRan => 1 | _ => 0 end.
Definition fired_item (d : DelayedWork) : WorkItem := ResumeItem (delayed_handle d).

Definition busy (s : pool_sys) : nat :=
  sum_list (worker_busy <$> workers_ s) + sum_list (call_busy <$> calls s).
Definition in_hand (s : pool_sys) : list WorkItem :=
  concat (worker_hands <$> workers_ s) ++ concat (call_hands <$> calls s).
Definition pushing (s : pool_sys) : list WorkItem := concat (call_pushing <$> calls s).
Definition holders (s : pool_sys) : nat := sum_list (worker_holds <$> workers_ s) + run_holds (run_ s).

Record pool_inv (s : pool_sys) : Prop := {
  pi_requests : posted s ++ (fired_item <$> fired s) ≡ₚ submitted s ++ pushing s;
  pi_fifo : submitted s = dequeued s ++ work_queue_ (pool s);
  pi_hands : dequeued s ≡ₚ ran s ++ in_hand s;
  pi_delayed : armed s ≡ₚ fired s ++ vitems (delayed_queue_ (pool s));
  pi_due : Forall (λ d, when d <= clock s) (fired s);
  pi_active : active_tasks_ (pool s) = to_size (Z.of_nat (busy s));
  pi_lock : Nat.b2n (locked s) = holders s;
  pi_held_empty : (0 < sum_list (worker_holds <$> workers_ s))%nat → work_queue_ (pool s) = [];
}.

Lemma to_size_add a b : to_size (to_size a + b) = to_size (a + b).
Proof. unfold to_size. by rewrite Zplus_mod_idemp_l. Qed.

Lemma vec_insert_perm d l : vec_insert d l ≡ₚ d :: l.
Proof.
  unfold vec_insert. rewrite <-Permutation_middle. constructor.
  induction l as [|d' l IH]; [done|]. rewrite !filter_cons.
  destruct (decide (when d' <= when d)), (decide (when d < when d')); try lia; simpl.
  - by constructor.
  - by rewrite <-Permutation_middle, IH.
Qed.
Lemma vec_push_perm d v : vitems (vec_push d v) ≡ₚ d :: vitems v.
Proof. unfold vec_push. case_match; apply vec_insert_perm. Qed.

(** What a worker, or a call, contributes to the accounts, and the rest. *)
Lemma workers_split s i x :
  workers_ s !! i = Some x →
  ∃ rh rb ro, (concat (worker_hands <$> workers_ s) ≡ₚ worker_hands x ++ rh ∧
    sum_list (worker_busy <$> workers_ s) = (worker_busy x + rb)%nat ∧
    sum_list (worker_holds <$> workers_ s) = (worker_holds x + ro)%nat) ∧
  ∀ y, concat (worker_hands <$> <[i:=y]> (workers_ s)) ≡ₚ worker_hands y ++ rh ∧
    sum_list (worker_busy <$> <[i:=y]> (workers_ s)) = (worker_busy y + rb)%nat ∧
    sum_list (worker_holds <$> <[i:=y]> (workers_ s)) = (worker_holds y + ro)%nat.
Proof.
  intros Hi. destruct (concat_split worker_hands _ _ _ Hi) as (rh & ? & ?).
  destruct (sum_split worker_busy _ _ _ Hi) as (rb & ? & ?).
  destruct (sum_split worker_holds _ _ _ Hi) as (ro & ? & ?).
  exists rh, rb, ro. split; [done|]. intros y. done.
Qed.
Lemma calls_split s j c :
  calls s !! j = Some c →
  ∃ rh rp rb, (concat (call_hands <$> calls s) ≡ₚ call_hands c ++ rh ∧
    concat (call_pushing <$> calls s) ≡ₚ call_pushing c ++ rp ∧
    sum_list (call_busy <$> calls s) = (call_busy c + rb)%nat) ∧
  ∀ y, concat (call_hands <$> <[j:=y]> (calls s)) ≡ₚ call_hands y ++ rh ∧
    concat (call_pushing <$> <[j:=y]> (calls s)) ≡ₚ call_pushing y ++ rp ∧
    sum_list (call_busy <$> <[j:=y]> (calls s)) = (call_busy y + rb)%nat.
Proof.
  intros Hj. destruct (concat_split call_hands _ _ _ Hj) as (rh & ? & ?).
  destruct (concat_split call_pushing _ _ _ Hj) as (rp & ? & ?).
  destruct (sum_split call_busy _ _ _ Hj) as (rb & ? & ?).
  exists rh, rp, rb. split; [done|]. intros y. done.
Qed.

Lemma wake_hands w : worker_hands (wake_worker w) = worker_hands w. Proof. by destruct w. Qed.
Lemma wake_busy w : worker_busy (wake_worker w) = worker_busy w. Proof. by destruct w. Qed.
Lemma wake_holds w : worker_holds (wake_worker w) = worker_holds w. Proof. by destruct w. Qed.
Lemma wake_run_holds r : run_holds (wake_run r) = run_holds r. Proof. by destruct r. Qed.

Lemma pool_inv_notify_all s : pool_inv s → pool_inv (notify_all s).
Proof.
  intros [H1 H2 H3 H4 H5 H6 H7 H8]. split; try done; unfold in_hand, busy, holders in *; simpl;
    rewrite ?(concat_map_id _ _ _ wake_hands), ?(sum_map_id _ _ _ wake_busy),
      ?(sum_map_id _ _ _ wake_holds), ?wake_run_holds; done.
Qed.

(** A worker that only moves between phases that hold nothing. *)
Lemma pool_inv_worker s i x y :
  pool_inv s → workers_ s !! i = Some x →
  worker_hands y = worker_hands x → worker_busy y = worker_busy x → worker_holds y = worker_holds x →
  pool_inv (set_worker i y s).
Proof.
  intros [H1 H2 H3 H4 H5 H6 H7 H8] Hi Hh Hb Ho.
  destruct (workers_split s i x Hi) as (rh & rb & ro & (E1 & E2 & E3) & E).
  destruct (E y) as (F1 & F2 & F3). rewrite Hh in F1. rewrite Hb in F2. rewrite Ho in F3.
  split; try done; unfold in_hand, busy, holders in *; simpl.
  - by rewrite F1, <-E1.
  - by rewrite F2, <-E2.
  - by rewrite F3, <-E3.
  - by rewrite F3, <-E3.
Qed.

Lemma pool_inv_run s r : pool_inv s → run_holds r = run_holds (run_ s) → pool_inv (set_run r s).
Proof.
  intros [H1 H2 H3 H4 H5 H6 H7 H8] Hr. split; try done. unfold holders in *. simpl. by rewrite Hr.
Qed.

Lemma pool_inv_call s j x y :
  pool_inv s → calls s !! j = Some x →
  call_hands y = call_hands x → call_pushing y = call_pushing x → call_busy y = call_busy x →
  pool_inv (set_call j y s).
Proof.
  intros [H1 H2 H3 H4 H5 H6 H7 H8] Hj Hh Hp Hb.
  destruct (calls_split s j x Hj) as (rh & rp & rb & (E1 & E2 & E3) & E).
  destruct (E y) as (F1 & F2 & F3). rewrite Hh in F1. rewrite Hp in F2. rewrite Hb in F3.
  split; try done; unfold in_hand, pushing, busy in *; simpl.
  - by rewrite F2, <-E2.
  - by rewrite F1, <-E1.
  - by rewrite F3, <-E3.
Qed.

Lemma pool_inv_new_call s c po :
  pool_inv s → call_hands c = [] → call_busy c = 0%nat → call_pushing c = po →
  pool_inv (set_calls (calls s ++ [c]) (log_items po [] [] [] s)).
Proof.
  intros [H1 H2 H3 H4 H5 H6 H7 H8] Hh Hb Hp.
  split; try done; unfold in_hand, pushing, busy in *; simpl; rewrite ?app_nil_r; try done.
  - rewrite concat_snoc, Hp, app_assoc. etransitivity; [|apply Permutation_app_tail, H1].
    solve_Permutation.
  - by rewrite concat_snoc, Hh, app_nil_r.
  - by rewrite sum_snoc, Hb, Nat.add_0_r.
Qed.

(** A tactic for the steps that change the accounts: name what the moving
    thread holds, and the rest, then compare. *)
Ltac accounts :=
  unfold in_hand, pushing, busy, holders in *; simpl in *; rewrite ?app_nil_r; try done.

Lemma pool_inv_worker_step i s s' : pool_inv s → worker_step i s = Some s' → pool_inv s'.
Proof.
  intros Hs Hst. unfold worker_step in Hst. destruct (workers_ s !! i) as [x|] eqn:Hi; [|done].
  destruct (workers_split s i x Hi) as (rh & rb & ro & (E1 & E2 & E3) & E).
  pose proof Hs as [H1 H2 H3 H4 H5 H6 H7 H8].
  destruct x; try discriminate Hst; simpl in Hst.
  all: try (injection Hst as <-).
  - apply (pool_inv_worker s i WTop); [done..| | |]; by case_match.
  - destruct (locked s) eqn:Hl; [done|].
    destruct (work_queue_ (pool s)) as [|w q] eqn:Hq.
    + destruct (stopping_ (pool s)); injection Hst as <-; [by apply (pool_inv_worker s i WEnter)|].
      destruct (E WHold) as (F1 & F2 & F3).
      split; accounts; [by rewrite Hq|by rewrite F1, <-E1|by rewrite F2, <-E2|lia].
    + injection Hst as <-. destruct (E (WTaken w)) as (F1 & F2 & F3).
      split; accounts.
      * by rewrite H2, <-app_assoc.
      * rewrite F1, H3, E1. solve_Permutation.
      * rewrite H6, to_size_add, F2, E2. f_equal. lia.
      * rewrite Hl. simpl. lia.
      * lia.
  - destruct (E WBlocked) as (F1 & F2 & F3).
    split; accounts; [by rewrite F1, <-E1|by rewrite F2, <-E2| |intros _; apply H8; lia].
    destruct (locked s), (run_holds (run_ s)); simpl in *; lia.
  - destruct (E WRan) as (F1 & F2 & F3).
    split; accounts; [rewrite F1, H3, E1; solve_Permutation|by rewrite F2, <-E2|lia|intros ?; apply H8; lia].
  - destruct (E WNotify) as (F1 & F2 & F3).
    split; accounts; [by rewrite F1, <-E1| |lia|intros ?; apply H8; lia].
    rewrite H6, to_size_add, F2, E2. f_equal. lia.
  - apply pool_inv_notify_all in Hs. apply (pool_inv_worker _ i WNotify); [done| |done..].
    simpl. by rewrite list_lookup_fmap, Hi.
Qed.

Lemma pool_inv_flags f s :
  (f = set_stopping true ∨ f = set_stopping false ∨ f = set_running true ∨ f = set_running false) →
  pool_inv s → pool_inv (on_pool f s).
Proof. intros Hf [H1 H2 H3 H4 H5 H6 H7 H8]. by destruct Hf as [->|[->|[->| ->]]]; split. Qed.

Lemma pool_inv_run_step s s' : pool_inv s → run_step s = Some s' → pool_inv s'.
Proof.
  intros Hs Hst. unfold run_step in Hst. pose proof Hs as [H1 H2 H3 H4 H5 H6 H7 H8].
  destruct (run_ s) eqn:Hr; try discriminate Hst.
  - injection Hst as <-. apply pool_inv_run; [|simpl; by rewrite Hr]. apply pool_inv_flags; auto.
  - destruct (locked s) eqn:Hl; [done|]. case_match; injection Hst as <-.
    + apply pool_inv_run; [done|]. by rewrite Hr.
    + unfold holders in H7. rewrite Hr in H7. split; accounts; lia.
  - injection Hst as <-. unfold holders in H7. rewrite Hr in H7.
    split; accounts; destruct (locked s); simpl in *; lia.
Qed.

Lemma pool_inv_notify_one who s s' : pool_inv s → notify_one who s = Some s' → pool_inv s'.
Proof.
  intros Hs Hst. destruct who as [i| |]; simpl in Hst.
  - destruct (workers_ s !! i) as [[]|] eqn:Hi; try done. injection Hst as <-.
    by eapply pool_inv_worker.
  - destruct (run_ s) eqn:Hr; try done. injection Hst as <-. apply pool_inv_run; [done|]. by rewrite Hr.
  - destruct (run_ s); try done; case_match; by simplify_eq.
Qed.

Lemma pool_inv_call_step j who s s' : pool_inv s → call_step j who s = Some s' → pool_inv s'.
Proof.
  intros Hs Hst. unfold call_step in Hst. destruct (calls s !! j) as [x|] eqn:Hj; [|done].
  destruct (calls_split s j x Hj) as (rh & rp & rb & (E1 & E2 & E3) & E).
  pose proof Hs as [H1 H2 H3 H4 H5 H6 H7 H8].
  destruct x; try discriminate Hst.
  - destruct (locked s) eqn:Hl; [done|]. injection Hst as <-. destruct (E CNotify) as (F1 & F2 & F3).
    split; accounts.
    + rewrite H1, F2, E2. solve_Permutation.
    + by rewrite H2, app_assoc.
    + by rewrite F1, <-E1.
    + by rewrite F3, <-E3.
    + by rewrite Hl.
    + lia.
  - eapply pool_inv_notify_one; [|exact Hst]. by eapply pool_inv_call.
  - destruct (locked s) eqn:Hl; [done|]. destruct (work_queue_ (pool s)) as [|w q] eqn:Hq.
    + injection Hst as <-. by eapply pool_inv_call.
    + injection Hst as <-. destruct (E (COnceTaken w)) as (F1 & F2 & F3). split; accounts.
      * by rewrite F2, <-E2.
      * by rewrite H2, <-app_assoc.
      * rewrite F1, H3, E1. solve_Permutation.
      * by rewrite F3, <-E3.
      * by rewrite Hl.
      * lia.
  - injection Hst as <-. destruct (E (COnceActive w)) as (F1 & F2 & F3). split; accounts.
    + by rewrite F2, <-E2.
    + by rewrite F1, <-E1.
    + rewrite H6, to_size_add, F3, E3. f_equal. lia.
  - injection Hst as <-. destruct (E COnceRan) as (F1 & F2 & F3). split; accounts.
    + by rewrite F2, <-E2.
    + rewrite F1, H3, E1. solve_Permutation.
    + by rewrite F3, <-E3.
  - injection Hst as <-. destruct (E CDone) as (F1 & F2 & F3). split; accounts.
    + by rewrite F2, <-E2.
    + by rewrite F1, <-E1.
    + rewrite H6, to_size_add, F3, E3. f_equal. lia.
  - injection Hst as <-. eapply pool_inv_call; [apply pool_inv_flags; auto|done..].
  - injection Hst as <-. eapply pool_inv_call; [apply pool_inv_flags; auto|done..].
  - injection Hst as <-. eapply pool_inv_call; [by apply pool_inv_notify_all|done|..]; by case_match.
  - injection Hst as <-. eapply pool_inv_call; [by apply pool_inv_notify_all|done..].
  - repeat (case_match; try discriminate Hst). injection Hst as <-. by eapply pool_inv_call.
Qed.

Lemma timer_fire_dangling h s : dangling (timer_fire h s) = dangling s.
Proof. by destruct h. Qed.

Lemma pool_inv_timer_step stale s s' :
  pool_inv s → timer_step stale s = Some s' → dangling s' = false → pool_inv s'.
Proof.
  intros Hs Hst Hd'. unfold timer_step in Hst. pose proof Hs as [H1 H2 H3 H4 H5 H6 H7 H8].
  destruct (timer_ s); try discriminate Hst; try (injection Hst as <-; done).
  - case_match; [|done]. by injection Hst as <-.
  - destruct (stopping_ (pool s)); [by injection Hst as <-|].
    case_match; [injection Hst as <-; by case_match; rewrite ?timer_fire_dangling in Hd'|].
    destruct (vitems (delayed_queue_ (pool s))) as [|d l] eqn:Hv; [done|].
    destruct (Z.leb_spec (when d) (clock s)) as [Hd|]; [|done]. injection Hst as <-.
    unfold timer_fire, log_delayed, on_pool, set_calls, set_timer; rewrite Hv; split; accounts.
    + rewrite concat_snoc, fmap_app, app_assoc, H1. simpl. solve_Permutation.
    + by rewrite concat_snoc, app_nil_r.
    + rewrite Hv. simpl. rewrite <-app_assoc. done.
    + apply Forall_app. split; [done|]. by constructor.
    + by rewrite sum_snoc, Nat.add_0_r.
  - repeat (case_match; try discriminate Hst). by injection Hst as <-.
Qed.

Lemma pool_inv_after delay h s : pool_inv s → pool_inv (ScheduleAfter delay (Some h) s).
Proof.
  intros [H1 H2 H3 H4 H5 H6 H7 H8]. simpl. split; accounts. rewrite vec_push_perm, H4. solve_Permutation.
Qed.

Lemma pool_inv_step l s s' : pool_inv s → pool_step l s = Some s' → dangling s' = false → pool_inv s'.
Proof.
  intros Hs Hst Hd'. pose proof Hs as [H1 H2 H3 H4 H5 H6 H7 H8].
  destruct l as [h|cb|delay h| | | | |d|i| |j who|stale|who]; simpl in Hst.
  - injection Hst as <-. destruct h; [by apply pool_inv_new_call|done].
  - injection Hst as <-. destruct cb; [by apply pool_inv_new_call|done].
  - injection Hst as <-. destruct h; [by apply pool_inv_after|done].
  - injection Hst as <-. pose proof (pool_inv_new_call s COnce [] Hs) as Hn.
    unfold log_items in Hn. simpl in Hn. rewrite ?app_nil_r in Hn. by apply Hn.
  - injection Hst as <-. pose proof (pool_inv_new_call s (CStop false) [] Hs) as Hn.
    unfold log_items in Hn. simpl in Hn. rewrite ?app_nil_r in Hn. by apply Hn.
  - injection Hst as <-. pose proof (pool_inv_new_call s (CStop true) [] Hs) as Hn.
    unfold log_items in Hn. simpl in Hn. rewrite ?app_nil_r in Hn. by apply Hn.
  - destruct (run_ s) eqn:Hr; try done. injection Hst as <-.
    apply pool_inv_run; [|simpl; by rewrite Hr]. apply pool_inv_flags; auto.
  - injection Hst as <-. split; accounts. eapply Forall_impl; [exact H5|]. simpl. intros. lia.
  - by eapply pool_inv_worker_step.
  - by eapply pool_inv_run_step.
  - by eapply pool_inv_call_step.
  - by eapply pool_inv_timer_step.
  - destruct who; try done; by eapply pool_inv_notify_one.
Qed.

Lemma pool_inv_init n : pool_inv (pool_init n).
Proof.
  unfold pool_init. split; unfold in_hand, pushing, busy, holders; simpl; try done.
  - rewrite app_nil_r. generalize (num_threads n) as k. by induction k.
  - rewrite sum_list_replicate. simpl. by rewrite Nat.mul_0_r.
  - rewrite sum_list_replicate. simpl. by rewrite Nat.mul_0_r.
Qed.

(** Once a stale reference has been read, that remains so. *)
Lemma notify_one_dangling who s s' : notify_one who s = Some s' → dangling s' = dangling s.
Proof. unfold notify_one. intros Hst. by repeat case_match; simplify_eq/=. Qed.
Lemma pool_dangling_step l s s' : pool_step l s = Some s' → dangling s' = false → dangling s = false.
Proof.
  intros Hst Hd. assert (dangling s' = dangling s ∨ dangling s' = true) as [E|E]; [|congruence..].
  clear Hd. destruct l as [[]|[]|? []| | | | | |i| |j who|stale|who]; simpl in Hst; try (simplify_eq/=; by left).
  - by case_match; simplify_eq/=; left.
  - left. unfold worker_step in Hst. by repeat case_match; simplify_eq/=.
  - left. unfold run_step in Hst. by repeat case_match; simplify_eq/=.
  - left. unfold call_step in Hst. repeat case_match; simplify_eq/=; try done.
    by apply notify_one_dangling in Hst.
  - unfold timer_step in Hst. repeat case_match; simplify_eq/=; rewrite ?timer_fire_dangling; auto.
  - left. destruct who; try done; by apply notify_one_dangling in Hst.
Qed.

Lemma tpool_reachable_inv n s : pool_reachable n s → dangling s = false → pool_inv s.
Proof.
  apply (reachable_inv pool_step (λ s, dangling s = false → pool_inv s)); [intros _; apply pool_inv_init|].
  intros l s1 s2 IH Hst Hd. eapply pool_inv_step; [|done..]. by eapply IH, pool_dangling_step.
Qed.

Lemma idle_workers ws : sum_list (worker_busy <$> ws) = 0%nat → concat (worker_hands <$> ws) = [].
Proof.
  unfold fmap. induction ws as [|w ws IH]; [done|]. simpl. intros H.
  rewrite IH by lia. destruct w; simpl in *; try done; lia.
Qed.

(** The executor interface.  A handle given to Schedule is queued, or about to
    be. *)
Definition item_handle (w : WorkItem) : option handle := match w with ResumeItem h => Some h | CallItem _ => None end.
#[export] Instance thread_pool_executor : Executor pool_sys := {
  ex_schedule h := Schedule (Some h);
  ex_schedule_after now d h s := ScheduleAfter d (Some h) (set_clock now s);
  ex_queued s := omap item_handle (work_queue_ (pool s) ++ pushing s);
  ex_timers s := (λ d, (when d, delayed_handle d)) <$> vitems (delayed_queue_ (pool s));
  ex_time _ now d := now + d;
}.
#[export] Instance thread_pool_executor_laws : ExecutorLaws pool_sys.
Proof.
  split; try done.
  - intros h s. unfold ex_queued, ex_schedule, thread_pool_executor, Schedule, pushing. simpl.
    by rewrite fmap_app, concat_app, app_assoc, omap_app.
  - intros now d h s. simpl. by rewrite vec_push_perm.
Qed.

(** C12. No work is lost, run twice or reordered by the thread pool, whatever
    the interleaving of its workers, its timer thread and its callers, as long
    as the timer thread has not read the top of the heap through a reference
    into a vector that moved meanwhile ([pool_timer_dangling] is the run in
    which it does): every
    item handed to Schedule or Post, and every delayed coroutine that came due,
    is in exactly one place (about to be pushed, queued, in the hands of one
    thread, or already run); items leave the queue in the order they entered
    it; a delayed coroutine is released once, and not before its deadline.  And
    when Run returns although nobody called Stop, and no RunOnce is half-way,
    everything submitted has been run. *)
Theorem pool_exactly_once n s :
  pool_reachable n s → dangling s = false →
  posted s ++ (fired_item <$> fired s) ≡ₚ submitted s ++ pushing s ∧
  submitted s = dequeued s ++ work_queue_ (pool s) ∧
  dequeued s ≡ₚ ran s ++ in_hand s ∧
  armed s ≡ₚ fired s ++ vitems (delayed_queue_ (pool s)) ∧
  Forall (λ d, when d <= clock s) (fired s) ∧
  (∀ s', run_ s = REnter → run_step s = Some s' → run_ s' = RIdle → stopping_ (pool s) = false →
     concat (call_hands <$> calls s) = [] → Z.of_nat (busy s) < size_mod → ran s ≡ₚ submitted s).
Proof.
  intros Hr0 Hd. pose proof (tpool_reachable_inv n s Hr0 Hd) as [H1 H2 H3 H4 H5 H6 H7 H8]. split_and!; try done.
  intros s' Hr Hst Hr' Hstop Hc Hb. unfold run_step in Hst. rewrite Hr in Hst.
  destruct (locked s); [done|]. unfold run_predicate in Hst. rewrite Hstop in Hst. simpl in Hst.
  destruct (bool_decide_reflect (work_queue_ (pool s) = [])) as [Hq|]; simpl in Hst; [|by simplify_eq/=].
  destruct (Z.eqb_spec (active_tasks_ (pool s)) 0) as [Ha|]; simpl in Hst; [|by simplify_eq/=].
  rewrite H6, to_size_id in Ha by (unfold size_ok; lia).
  rewrite H2, Hq, app_nil_r, H3. unfold in_hand. rewrite Hc, idle_workers, !app_nil_r; [done|].
  unfold busy in Ha. lia.
Qed.

(** Two workers, two items and a delayed one. *)
Definition pool_demo : list pool_label :=
  [PSchedule (Some 1%nat); PPost (Some 7%nat); PAfter 5 (Some 2%nat);
   PCall 0 NoWaiter; PCall 0 NoWaiter; PCall 1 NoWaiter; PWorker 0; PWorker 0; PWorker 0;
   PTimer intact; PTimer intact; PTick 6; PTimer intact; PCall 2 NoWaiter].
Lemma pool_exactly_once_witness :
  ∃ s, run pool_step pool_demo (pool_init 2) = Some s ∧
  ran s = [ResumeItem 1%nat] ∧ work_queue_ (pool s) = [CallItem 7%nat; ResumeItem 2%nat] ∧
  fired s = [mkDelayed 5 2%nat] ∧ dangling s = false ∧ posted s ++ (fired_item <$> fired s) ≡ₚ submitted s ++ pushing s.
Proof.
  eexists. split; [vm_compute; reflexivity|]. split; [vm_compute; reflexivity|].
  split; [vm_compute; reflexivity|]. split; [vm_compute; reflexivity|]. split; [vm_compute; reflexivity|].
  apply (pool_exactly_once 2); [|vm_compute; reflexivity].
  apply reachable_run. exists pool_demo. vm_compute. reflexivity.
Defined.

(** ** No lost wake-up *)

(** Everything but Run, Stop and the destruction of the pool. *)
Definition quiet (l : pool_label) : bool := match l with PRun | PStop | PDtor => false | _ => true end.
Definition quiet_step (l : pool_label) (s : pool_sys) : option pool_sys :=
  if quiet l then pool_step l s else None.
Definition quiet_reachable (n : nat) (s : pool_sys) : Prop := reachable quiet_step (pool_init n) s.
(** A step of a thread that is already at work. *)
Definition internal (l : pool_label) : bool := match l with PWorker _ | PCall _ _ | PTimer _ => true | _ => false end.

Definition worker_awake (w : worker) : nat := match w with WHold | WBlocked | WExit => 0 | _ => 1 end.
Definition call_notifies (c : call) : nat := match c with CNotify => 1 | _ => 0 end.
Definition call_stops (c : call) : bool :=
  match c with CStop _ | CStopRunning _ | CStopNotify _ | CDtorNotify | CDtorJoin => true | _ => false end.
Definition alert (s : pool_sys) : nat :=
  sum_list (worker_awake <$> workers_ s) + sum_list (call_notifies <$> calls s).

Record quiet_inv (s : pool_sys) : Prop := {
  qi_run : run_ s = RIdle;
  qi_stopping : stopping_ (pool s) = false;
  qi_workers : workers_ s ≠ [];
  qi_alive : Forall (λ w, w ≠ WExit) (workers_ s);
  qi_calls : Forall (λ c, call_stops c = false) (calls s);
  qi_alert : work_queue_ (pool s) ≠ [] → (0 < alert s)%nat;
}.

Lemma insert_nonempty {A} (l : list A) i x : l ≠ [] → <[i:=x]> l ≠ [].
Proof. by destruct l, i. Qed.
#[local] Hint Resolve insert_nonempty Forall_insert : coco.

Lemma alert_worker s i x y :
  workers_ s !! i = Some x → (alert (set_worker i y s) + worker_awake x = alert s + worker_awake y)%nat.
Proof.
  intros Hi. unfold alert. simpl. pose proof (sum_list_insert worker_awake _ _ _ y Hi). lia.
Qed.
Lemma alert_call s j x y :
  calls s !! j = Some x → (alert (set_call j y s) + call_notifies x = alert s + call_notifies y)%nat.
Proof.
  intros Hj. unfold alert. simpl. pose proof (sum_list_insert call_notifies _ _ _ y Hj). lia.
Qed.
Lemma alert_new_call s c po : (alert s ≤ alert (set_calls (calls s ++ [c]) (log_items po [] [] [] s)))%nat.
Proof. unfold alert. simpl. rewrite sum_snoc. lia. Qed.
Lemma alert_notify_all s : (alert s ≤ alert (notify_all s))%nat.
Proof.
  unfold alert. simpl. assert (∀ ws, sum_list (worker_awake <$> ws) ≤ sum_list (worker_awake <$> (wake_worker <$> ws)))%nat
    as Hle; [|specialize (Hle (workers_ s)); lia].
  unfold fmap. induction ws as [|w ws IH]; [done|]. simpl. destruct w; simpl; lia.
Qed.

(** The notification that finds nobody waiting: every worker is awake, or one
    holds the mutex and the queue is empty. *)
Lemma nobody_waits s :
  pool_inv s → quiet_inv s → work_queue_ (pool s) ≠ [] →
  forallb (λ w, negb (is_blocked w)) (workers_ s) = true → (0 < sum_list (worker_awake <$> workers_ s))%nat.
Proof.
  intros Hp Hq Hne Hb. pose proof (pi_held_empty s Hp) as Hh. pose proof (qi_alive s Hq) as Ha.
  assert (sum_list (worker_holds <$> workers_ s) = 0%nat) as H0.
  { destruct (decide (0 < sum_list (worker_holds <$> workers_ s))%nat); [|lia]. by destruct Hne; apply Hh. }
  pose proof (qi_workers s Hq). destruct (workers_ s) as [|w ws]; [done|].
  simpl in *. apply andb_prop in Hb as [Hb _]. inversion Ha; subst. destruct w; simpl in *; try done; lia.
Qed.

Lemma quiet_worker s s1 i x y :
  quiet_inv s → workers_ s !! i = Some x → y ≠ WExit →
  workers_ s1 = workers_ s → calls s1 = calls s → run_ s1 = run_ s →
  stopping_ (pool s1) = stopping_ (pool s) →
  (work_queue_ (pool s1) ≠ [] → 0 < alert s → 0 < alert s + worker_awake y - worker_awake x)%nat →
  (work_queue_ (pool s1) ≠ [] → work_queue_ (pool s) ≠ []) →
  quiet_inv (set_worker i y s1).
Proof.
  intros [H1 H2 H3 H4 H5 H6] Hi Hy Hw Hc Hr Hs Ha Hq.
  assert (workers_ s1 !! i = Some x) as Hi1 by (by rewrite Hw).
  pose proof (alert_worker s1 i x y Hi1) as Hal.
  assert (alert s1 = alert s) as Heq by (unfold alert; by rewrite Hw, Hc).
  split; simpl; rewrite ?Hw, ?Hc, ?Hr, ?Hs; auto with coco.
  intros Hne. specialize (Ha Hne (H6 (Hq Hne))).
  pose proof (sum_list_elem worker_awake _ _ _ Hi). unfold alert in *. lia.
Qed.

Lemma quiet_inv_worker_step i s s' :
  quiet_inv s → worker_step i s = Some s' → quiet_inv s'.
Proof.
  intros Hq Hst. unfold worker_step in Hst. destruct (workers_ s !! i) as [x|] eqn:Hi; [|done].
  rewrite (qi_stopping s Hq) in Hst. destruct x; try discriminate Hst; try injection Hst as <-.
  - eapply quiet_worker; [done|exact Hi|try done..]. simpl; lia.
  - destruct (locked s); [done|]. destruct (work_queue_ (pool s)) as [|w q] eqn:Hw; injection Hst as <-.
    + eapply quiet_worker; [done|exact Hi|try done..]; simpl; congruence.
    + eapply quiet_worker; [done|exact Hi|try done..]; simpl; [lia|]. intros _. congruence.
  - eapply quiet_worker; [done|exact Hi|try done..]. simpl; lia.
  - eapply quiet_worker; [done|exact Hi|try done..]. simpl; lia.
  - eapply quiet_worker; [done|exact Hi|try done..]. simpl; lia.
  - assert (quiet_inv (notify_all s)) as Hn.
    { destruct Hq as [H1 H2 H3 H4 H5 H6]. pose proof (alert_notify_all s). split; simpl; try done.
      - by rewrite H1.
      - by destruct (workers_ s).
      - apply Forall_fmap. eapply Forall_impl; [exact H4|]. by intros [].
      - intros Hne. specialize (H6 Hne). lia. }
    eapply quiet_worker; [exact Hn|simpl; rewrite list_lookup_fmap, Hi; reflexivity|try done..]. simpl; lia.
Qed.

(** A waiter of the condition variable is woken: a worker, as Run is not
    waiting. *)
Lemma quiet_inv_wake i s s' : quiet_inv s → notify_one (AtWorker i) s = Some s' → quiet_inv s' ∧ (0 < sum_list (worker_awake <$> workers_ s'))%nat.
Proof.
  intros Hq Hst. simpl in Hst. destruct (workers_ s !! i) as [[]|] eqn:Hi; try done. injection Hst as <-.
  split; [eapply quiet_worker; [done|exact Hi|try done..]; simpl; lia|].
  simpl. pose proof (sum_list_insert worker_awake _ _ _ WEnter Hi) as Ha. simpl in Ha. lia.
Qed.

Lemma quiet_calls s s1 j x y :
  quiet_inv s → calls s !! j = Some x → call_stops y = false →
  workers_ s1 = workers_ s → calls s1 = calls s → run_ s1 = run_ s →
  stopping_ (pool s1) = stopping_ (pool s) →
  (work_queue_ (pool s1) ≠ [] → 0 < sum_list (worker_awake <$> workers_ s) ∨
     (work_queue_ (pool s) ≠ [] ∧ call_notifies x = 0) ∨ 0 < call_notifies y)%nat →
  quiet_inv (set_call j y s1).
Proof.
  intros [H1 H2 H3 H4 H5 H6] Hj Hy Hw Hc Hr Hs Ha.
  assert (calls s1 !! j = Some x) as Hj1 by (by rewrite Hc).
  pose proof (alert_call s1 j x y Hj1) as Hal.
  split; simpl; rewrite ?Hw, ?Hc, ?Hr, ?Hs; auto with coco.
  intros Hne. specialize (Ha Hne). unfold alert in *. simpl in *. rewrite Hc, Hw in *.
  pose proof (sum_list_elem call_notifies _ _ _ Hj). destruct Ha as [?|[[? ?]|?]]; [lia| |lia].
  specialize (H6 ltac:(done)). lia.
Qed.

Lemma quiet_inv_call_step j who s s' :
  pool_inv s → quiet_inv s → call_step j who s = Some s' → quiet_inv s'.
Proof.
  intros Hp Hq Hst. unfold call_step in Hst. destruct (calls s !! j) as [x|] eqn:Hj; [|done].
  assert (call_stops x = false) as Hx.
  { pose proof (qi_calls s Hq) as Hf. by apply (proj1 (Forall_lookup _ _) Hf j x). }
  destruct x; try discriminate Hst; try discriminate Hx.
  - destruct (locked s); [done|]. injection Hst as <-. eapply quiet_calls; [done|exact Hj|try done..].
    simpl. lia.
  - destruct who as [i| |].
    + change (notify_one (AtWorker i) (set_call j CDone s) = Some s') in Hst. simpl in Hst.
      destruct (workers_ s !! i) as [[]|] eqn:Hi; try done. injection Hst as <-.
      assert (notify_one (AtWorker i) s = Some (set_worker i WEnter s)) as Hn by (simpl; by rewrite Hi).
      destruct (quiet_inv_wake i s _ Hq Hn) as [Hq' Ha].
      apply (quiet_calls (set_worker i WEnter s) (set_worker i WEnter s) j CNotify CDone); try done.
      intros _. by left.
    + simpl in Hst. by rewrite (qi_run s Hq) in Hst.
    + simpl in Hst. rewrite (qi_run s Hq) in Hst. case_match eqn:Hb; [|done]. injection Hst as <-.
      eapply quiet_calls; [done|exact Hj|try done..]. intros Hne. left. by apply nobody_waits.
  - destruct (locked s); [done|]. destruct (work_queue_ (pool s)) as [|w q] eqn:Hw; injection Hst as <-.
    + eapply quiet_calls; [done|exact Hj|try done..].
    + eapply quiet_calls; [done|exact Hj|try done..]. intros _. right; left. by rewrite Hw.
  - injection Hst as <-. eapply quiet_calls; [done|exact Hj|try done..]. by right; left.
  - injection Hst as <-. eapply quiet_calls; [done|exact Hj|try done..]. by right; left.
  - injection Hst as <-. eapply quiet_calls; [done|exact Hj|try done..]. by right; left.
Qed.

Lemma quiet_inv_new_call s c po :
  quiet_inv s → call_stops c = false → quiet_inv (set_calls (calls s ++ [c]) (log_items po [] [] [] s)).
Proof.
  intros [H1 H2 H3 H4 H5 H6] Hc. pose proof (alert_new_call s c po). split; try done.
  - apply Forall_app. split; [done|]. by constructor.
  - intros Hne. specialize (H6 Hne). lia.
Qed.

(** States that agree on everything the invariant reads. *)
Lemma quiet_inv_same s s1 :
  quiet_inv s → workers_ s1 = workers_ s → calls s1 = calls s → run_ s1 = run_ s →
  stopping_ (pool s1) = stopping_ (pool s) → work_queue_ (pool s1) = work_queue_ (pool s) → quiet_inv s1.
Proof.
  intros [H1 H2 H3 H4 H5 H6] Hw Hc Hr Hs Hq. split; unfold alert in *; by rewrite ?Hw, ?Hc, ?Hr, ?Hs, ?Hq.
Qed.

Lemma quiet_inv_fire h s : quiet_inv s → quiet_inv (timer_fire h s).
Proof.
  intros Hq. destruct h as [h|]; [|by eapply quiet_inv_same].
  eapply quiet_inv_same; [by apply (quiet_inv_new_call s (CPush (ResumeItem h)) [])|done..].
Qed.

Lemma quiet_inv_step l s s' :
  pool_inv s → quiet_inv s → quiet_step l s = Some s' → quiet_inv s'.
Proof.
  intros Hp Hq Hst. unfold quiet_step in Hst. destruct (quiet l) eqn:Hl; [|done].
  destruct l as [h|cb|delay h| | | | |d|i| |j who|stale|who]; try discriminate Hl; simpl in Hst.
  - injection Hst as <-. destruct h; [by apply quiet_inv_new_call|done].
  - injection Hst as <-. destruct cb; [by apply quiet_inv_new_call|done].
  - injection Hst as <-. destruct h; [|done]. by eapply quiet_inv_same.
  - injection Hst as <-. eapply (quiet_inv_same (set_calls (calls s ++ [COnce]) (log_items [] [] [] [] s)));
      [by apply quiet_inv_new_call|done..].
  - injection Hst as <-. by eapply quiet_inv_same.
  - by eapply quiet_inv_worker_step.
  - unfold run_step in Hst. by rewrite (qi_run s Hq) in Hst.
  - by eapply quiet_inv_call_step.
  - unfold timer_step in Hst. rewrite (qi_stopping s Hq) in Hst.
    destruct (timer_ s); try discriminate Hst; try (injection Hst as <-; by eapply quiet_inv_same).
    + repeat (case_match; try discriminate Hst). injection Hst as <-; by eapply quiet_inv_same.
    + assert (quiet_inv (set_dangling s)) as Hq' by by eapply quiet_inv_same.
      case_match; [injection Hst as <-; case_match; [by apply quiet_inv_fire|by eapply quiet_inv_same]|].
      case_match; [done|]. case_match; [|done]. injection Hst as <-. by apply (quiet_inv_fire (Some _)).
    + repeat (case_match; try discriminate Hst). injection Hst as <-; by eapply quiet_inv_same.
  - destruct who as [i| |]; [|simpl in Hst; by rewrite (qi_run s Hq) in Hst|done].
    by eapply quiet_inv_wake in Hst as [??].
Qed.

(** ** The timer thread *)

(** The heap is in the order of the deadlines; a thread that waits for its top
    has one; the call of Schedule that it makes is a call of the pool. *)
Definition earlier (d d' : DelayedWork) : Prop := when d <= when d'.
Record timer_inv (s : pool_sys) : Prop := {
  ti_sorted : StronglySorted earlier (vitems (delayed_queue_ (pool s)));
  ti_until buf : timer_ s = TUntil buf → vitems (delayed_queue_ (pool s)) ≠ [];
  ti_call j : timer_ s = TCall j → (j < length (calls s))%nat;
  ti_exit : timer_ s ≠ TExit;
}.

Lemma sorted_filter P `{!∀ d, Decision (P d)} l : StronglySorted earlier l → StronglySorted earlier (filter P l).
Proof.
  induction 1 as [|d l Hl IH Hd]; [constructor|]. rewrite filter_cons. case_decide; [|done].
  constructor; [done|]. rewrite Forall_forall in *. intros d' [_ Hin]%list_elem_of_filter. auto.
Qed.
Lemma vec_insert_sorted d l : StronglySorted earlier l → StronglySorted earlier (vec_insert d l).
Proof.
  intros Hl. unfold vec_insert. apply StronglySorted_app_2; [|by apply sorted_filter|constructor; [by apply sorted_filter|]].
  - intros d1 d2 [H1 _]%list_elem_of_filter [->|[H2 _]%list_elem_of_filter]%elem_of_cons; unfold earlier; [done|lia].
  - apply Forall_forall. intros d' [H1 _]%list_elem_of_filter. unfold earlier. lia.
Qed.
Lemma vec_insert_nonempty d l : vec_insert d l ≠ [].
Proof. unfold vec_insert. by destruct (filter _ l). Qed.
Lemma vec_push_items d v : vitems (vec_push d v) = vec_insert d (vitems v).
Proof. unfold vec_push. by case_match. Qed.

(** A step that leaves the timer thread and the heap alone. *)
Definition timer_frame (s s' : pool_sys) : Prop :=
  timer_ s' = timer_ s ∧ delayed_queue_ (pool s') = delayed_queue_ (pool s) ∧
  (length (calls s) ≤ length (calls s'))%nat ∧ length (workers_ s') = length (workers_ s).
Lemma timer_inv_frame s s' : timer_frame s s' → timer_inv s → timer_inv s'.
Proof.
  intros (Ht & Hv & Hc & _) [H1 H2 H3 H4]. split; rewrite ?Ht, ?Hv; [done..| |done].
  intros j E. specialize (H3 j E). lia.
Qed.
Ltac framed := unfold timer_frame; simpl; rewrite ?length_fmap, ?length_insert, ?length_app, ?length_fmap; split_and!; done || (simpl; lia).

Lemma frame_notify_one who s s' : notify_one who s = Some s' → timer_frame s s'.
Proof. unfold notify_one. intros Hst. repeat case_match; simplify_eq/=; framed. Qed.
Lemma frame_worker_step i s s' : worker_step i s = Some s' → timer_frame s s'.
Proof. unfold worker_step. intros Hst. repeat case_match; simplify_eq/=; framed. Qed.
Lemma frame_call_step j who s s' : call_step j who s = Some s' → timer_frame s s'.
Proof.
  unfold call_step. intros Hst. destruct (calls s !! j) as [[]|]; try done.
  2: { apply frame_notify_one in Hst as (H1 & H2 & H3 & H4). simpl in *. rewrite length_insert in H3. by split_and!. }
  all: repeat case_match; simplify_eq/=; framed.
Qed.

Lemma timer_inv_step l s s' :
  quiet_inv s → timer_inv s → quiet_step l s = Some s' → dangling s' = false → timer_inv s'.
Proof.
  intros Hq Ht Hst Hd. unfold quiet_step in Hst. destruct (quiet l) eqn:Hl; [|done].
  destruct l as [[]|[]|? [h|]| | | | |d|i| |j who|stale|who]; try discriminate Hl; simpl in Hst;
    try (injection Hst as <-; eapply timer_inv_frame; [|exact Ht]; framed).
  - injection Hst as <-. destruct Ht as [H1 H2 H3 H4]. split; simpl; try done; rewrite vec_push_items.
    + by apply vec_insert_sorted.
    + intros _ _. apply vec_insert_nonempty.
  - eapply timer_inv_frame; [by eapply frame_worker_step|done].
  - unfold run_step in Hst. by rewrite (qi_run s Hq) in Hst.
  - eapply timer_inv_frame; [by eapply frame_call_step|done].
  - destruct Ht as [H1 H2 H3 H4]. unfold timer_step in Hst. rewrite (qi_stopping s Hq) in Hst.
    destruct (timer_ s) as [| | |buf|j|] eqn:E; try done; simpl in Hst.
    + injection Hst as <-. by split.
    + injection Hst as <-. destruct (vitems _) eqn:Ev; split; simpl; rewrite ?Ev; done.
    + case_match; [|done]. injection Hst as <-. by split.
    + case_match; [injection Hst as <-; by case_match; rewrite ?timer_fire_dangling in Hd|].
      destruct (vitems _) as [|d l] eqn:Ev; [done|]. case_match; [|done]. injection Hst as <-.
      split; simpl; rewrite ?Ev; simpl; try done; [by apply StronglySorted_inv in H1 as [? _]|].
      intros j [= <-]. rewrite length_app. simpl. lia.
    + repeat case_match; try done. injection Hst as <-. by split.
  - destruct who; try done; (eapply timer_inv_frame; [|exact Ht]; by eapply frame_notify_one).
Qed.

Lemma quiet_reachable_inv n s :
  quiet_reachable n s → dangling s = false → pool_inv s ∧ quiet_inv s ∧ timer_inv s.
Proof.
  apply (reachable_inv quiet_step (λ s, dangling s = false → pool_inv s ∧ quiet_inv s ∧ timer_inv s)).
  - intros _. split; [apply pool_inv_init|]. unfold pool_init, num_threads. split; [split|]; simpl; try done.
    + by case_decide; destruct n.
    + by apply Forall_replicate.
    + split; simpl; try done. constructor.
  - intros l s1 s2 IH Hst Hd. assert (pool_step l s1 = Some s2) as Hst'.
    { unfold quiet_step in Hst. by case_match. }
    destruct IH as (Hp & Hq & Ht); [by eapply pool_dangling_step|].
    split_and!; [by eapply pool_inv_step|by eapply quiet_inv_step|by eapply timer_inv_step].
Qed.

(** ** The work left *)

Definition worker_work (n : nat) (w : worker) : nat :=
  match w with
  | WBlocked | WExit => 0 | WHold => 1 | WEnter => 2 | WTop => 3
  | WNotify => 4 + 2 * n | WRan => 5 + 2 * n | WTaken _ => 6 + 2 * n
  end.
Definition item_work (n : nat) : nat := 5 + 2 * n.
Definition call_work (n : nat) (c : call) : nat :=
  match c with
  | CPush _ => 4 + item_work n | CNotify => 3 | COnce => 1
  | COnceTaken _ => 3 | COnceActive _ => 2 | COnceRan => 1 | _ => 0
  end.
Definition timer_work (t : timer) (l : list DelayedWork) : nat :=
  match t with
  | TTop => 2 | TEnter => 1 | TEmpty => match l with [] => 0 | _ => 3 end | TUntil _ => 0 | TCall _ => 3 | TExit => 0
  end.
Definition delayed_work (n : nat) : nat := 8 + item_work n.
Definition timers_work (s : pool_sys) : nat :=
  let l := vitems (delayed_queue_ (pool s)) in
  timer_work (timer_ s) l + delayed_work (length (workers_ s)) * length l.
Definition items_work (s : pool_sys) : nat :=
  let n := length (workers_ s) in
  item_work n * length (work_queue_ (pool s)) + sum_list (worker_work n <$> workers_ s)
  + sum_list (call_work n <$> calls s).
Definition work (s : pool_sys) : nat := items_work s + timers_work s.

Lemma work_frame s s' : timer_frame s s' → (items_work s' < items_work s)%nat → (work s' < work s)%nat.
Proof. intros (Ht & Hv & _ & Hw) H. unfold work, timers_work. rewrite Ht, Hv, Hw. lia. Qed.

Lemma work_notify_all n ws :
  (sum_list (worker_work n <$> (wake_worker <$> ws)) ≤ sum_list (worker_work n <$> ws) + 2 * length ws)%nat.
Proof. unfold fmap. induction ws as [|w ws IH]; [done|]. simpl in *. destruct w; simpl; lia. Qed.

Lemma work_worker i s s' :
  stopping_ (pool s) = false → worker_step i s = Some s' → (work s' < work s)%nat.
Proof.
  intros Hs Hst. apply work_frame; [by eapply frame_worker_step|]. unfold worker_step in Hst. destruct (workers_ s !! i) as [x|] eqn:Hi; [|done].
  set (n := length (workers_ s)).
  pose proof (λ y, sum_list_insert (worker_work n) _ _ _ y Hi) as Hm.
  rewrite Hs in Hst. destruct x; try discriminate Hst; try injection Hst as <-;
    unfold items_work; simpl in *; rewrite ?length_insert; fold n.
  - specialize (Hm WEnter). simpl in Hm. lia.
  - destruct (locked s); [done|]. destruct (work_queue_ (pool s)) as [|w q] eqn:Hw; injection Hst as <-;
      simpl; rewrite length_insert; fold n.
    + rewrite Hw. specialize (Hm WHold). simpl in *. lia.
    + specialize (Hm (WTaken w)). unfold item_work. simpl in *. lia.
  - specialize (Hm WBlocked). simpl in *. lia.
  - specialize (Hm WRan). simpl in *. lia.
  - specialize (Hm WNotify). simpl in *. lia.
  - rewrite length_fmap. fold n. pose proof (work_notify_all n (workers_ s)) as Hn. fold n in Hn.
    assert ((wake_worker <$> workers_ s) !! i = Some WNotify) as Hi' by (by rewrite list_lookup_fmap, Hi).
    pose proof (sum_list_insert (worker_work n) _ _ _ WTop Hi') as Hm'. simpl in Hm'. lia.
Qed.

Lemma work_call j who s s' :
  quiet_inv s → call_step j who s = Some s' → (work s' < work s)%nat.
Proof.
  intros Hq Hst. apply work_frame; [by eapply frame_call_step|]. unfold call_step in Hst. destruct (calls s !! j) as [x|] eqn:Hj; [|done].
  set (n := length (workers_ s)).
  pose proof (λ y, sum_list_insert (call_work n) _ _ _ y Hj) as Hm.
  assert (call_stops x = false) as Hx.
  { pose proof (qi_calls s Hq) as Hf. by apply (proj1 (Forall_lookup _ _) Hf j x). }
  destruct x; try discriminate Hst; try discriminate Hx; unfold items_work.
  - destruct (locked s); [done|]. injection Hst as <-. simpl in *. fold n.
    rewrite length_app. specialize (Hm CNotify). unfold item_work in *. simpl in *. lia.
  - destruct who as [i| |]; simpl in Hst.
    + destruct (workers_ s !! i) as [[]|] eqn:Hi; try done. injection Hst as <-. simpl.
      rewrite length_insert. fold n. pose proof (sum_list_insert (worker_work n) _ _ _ WEnter Hi) as Hi'.
      specialize (Hm CDone). simpl in *. lia.
    + by rewrite (qi_run s Hq) in Hst.
    + rewrite (qi_run s Hq) in Hst. case_match; [|done]. injection Hst as <-. simpl. fold n.
      specialize (Hm CDone). simpl in *. lia.
  - destruct (locked s); [done|]. destruct (work_queue_ (pool s)) as [|w q] eqn:Hw; injection Hst as <-;
      simpl; fold n.
    + rewrite Hw. specialize (Hm CDone). simpl in *. lia.
    + specialize (Hm (COnceTaken w)). unfold item_work. simpl in *. lia.
  - injection Hst as <-. simpl. fold n. specialize (Hm (COnceActive w)). simpl in *. lia.
  - injection Hst as <-. simpl. fold n. specialize (Hm COnceRan). simpl in *. lia.
  - injection Hst as <-. simpl. fold n. specialize (Hm CDone). simpl in *. lia.
Qed.

(** Nothing can move: every worker waits on the condition variable and every
    call has returned. *)
Lemma stuck_workers s :
  pool_inv s → quiet_inv s → (∀ i, worker_step i s = None) →
  locked s = false ∧ Forall (λ w, w = WBlocked) (workers_ s).
Proof.
  intros Hp Hq Hstuck.
  assert (∀ i x, workers_ s !! i = Some x → x = WBlocked ∨ (x = WEnter ∧ locked s = true)) as Hw.
  { intros i x Hi. specialize (Hstuck i). unfold worker_step in Hstuck. rewrite Hi in Hstuck.
    pose proof (proj1 (Forall_lookup _ _) (qi_alive s Hq) i x Hi) as Halive. simpl in Halive.
    rewrite (qi_stopping s Hq) in Hstuck.
    destruct x; try done; [|by left]. destruct (locked s); [by right|].
    by destruct (work_queue_ (pool s)). }
  assert (locked s = false) as Hl.
  { pose proof (pi_lock s Hp) as Hlock. unfold holders in Hlock. rewrite (qi_run s Hq) in Hlock.
    destruct (locked s); [|done]. simpl in Hlock.
    destruct (sum_list_pos worker_holds (workers_ s)) as (i & x & Hi & Hx); [lia|].
    destruct (Hw i x Hi) as [->|[-> _]]; simpl in Hx; lia. }
  split; [done|]. apply Forall_lookup. intros i x Hi. destruct (Hw i x Hi) as [?|[_ ?]]; congruence.
Qed.

Lemma stuck_calls s :
  quiet_inv s → locked s = false → Forall (λ w, w = WBlocked) (workers_ s) →
  (∀ j who, call_step j who s = None) → Forall (λ c, c = CDone) (calls s).
Proof.
  intros Hq Hl Hw Hstuck. apply Forall_lookup. intros j x Hj.
  pose proof (proj1 (Forall_lookup _ _) (qi_calls s Hq) j x Hj) as Hx. simpl in Hx.
  pose proof (Hstuck j) as Hs. unfold call_step in Hs. rewrite Hj, Hl in Hs.
  destruct x; try done; try discriminate (Hs NoWaiter).
  - pose proof (qi_workers s Hq). specialize (Hs (AtWorker 0)). simpl in Hs.
    destruct (workers_ s) as [|w ws]; [done|]. inversion Hw; subst. discriminate Hs.
  - specialize (Hs NoWaiter). by destruct (work_queue_ (pool s)).
Qed.

Lemma all_concat_nil {A B} (f : A → list B) x l : f x = [] → Forall (λ y, y = x) l → concat (f <$> l) = [].
Proof. intros Hf. induction 1 as [|y l -> _ IH]; simpl; [done|]. by rewrite Hf. Qed.
Lemma all_sum_zero {A} (f : A → nat) x l : f x = 0%nat → Forall (λ y, y = x) l → sum_list (f <$> l) = 0%nat.
Proof. unfold fmap. intros Hf. induction 1 as [|y l -> _ IH]; simpl; [done|]. by rewrite Hf. Qed.

(** The timer thread cannot move, and has no call under way: nothing that waits
    in the heap is due. *)
Lemma stuck_timer s :
  quiet_inv s → timer_inv s → Forall (λ c, c = CDone) (calls s) → timer_step intact s = None →
  Forall (λ d, clock s < when d) (vitems (delayed_queue_ (pool s))).
Proof.
  intros Hq [H1 H2 H3 H4] Hc Hst. unfold timer_step in Hst. rewrite (qi_stopping s Hq) in Hst.
  destruct (timer_ s) as [| | |buf|j|] eqn:E; try done; simpl in Hst.
  - case_match eqn:Hv; [done|]. apply negb_false_iff, bool_decide_eq_true in Hv as ->. constructor.
  - case_match; [done|]. specialize (H2 buf eq_refl). destruct (vitems _) as [|d l]; [done|].
    destruct (Z.leb_spec (when d) (clock s)) as [|Hd]; [done|].
    apply StronglySorted_inv in H1 as [_ H1]. constructor; [done|]. eapply Forall_impl; [exact H1|].
    unfold earlier. intros. lia.
  - destruct (lookup_lt_is_Some_2 (calls s) j) as [c Hj]; [by apply H3|].
    pose proof (proj1 (Forall_lookup _ _) Hc j c Hj) as Ec. simpl in Ec. subst c. by rewrite Hj in Hst.
Qed.

Lemma work_timer stale s s' :
  quiet_inv s → timer_step stale s = Some s' → dangling s' = false → (work s' < work s)%nat.
Proof.
  intros Hq Hst Hd. unfold timer_step in Hst. rewrite (qi_stopping s Hq) in Hst. unfold work, timers_work.
  destruct (timer_ s) as [| | |buf|j|] eqn:E; try done; simpl in Hst.
  - injection Hst as <-. unfold items_work. simpl. lia.
  - injection Hst as <-. unfold items_work. simpl. destruct (vitems _); simpl; lia.
  - destruct (vitems _) eqn:Hv; [done|]. injection Hst as <-. unfold items_work. simpl. rewrite Hv. simpl. lia.
  - case_match; [injection Hst as <-; by case_match; rewrite ?timer_fire_dangling in Hd|].
    destruct (vitems _) as [|d l] eqn:Hv; [done|]. case_match; [|done]. injection Hst as <-.
    change (length (d :: l)) with (S (length l)). rewrite Nat.mul_succ_r. unfold items_work. cbn -[delayed_work Nat.mul].
    rewrite Hv, sum_snoc. set (n := length (workers_ s)). cbn [tail call_work].
    assert (delayed_work n = 8 + item_work n)%nat as Hn by done. unfold item_work in *. lia.
  - repeat case_match; try done. injection Hst as <-. unfold items_work. simpl. lia.
Qed.

(** C13. The pool never sleeps on work.  While nobody has called Run or Stop,
    and the timer thread has read no stale reference, the threads already at
    work (the workers, the timer thread and the callers) take at most [work s]
    further steps in whatever order, as long as no time passes; and they come to
    rest only when everything handed to the pool has been run, with every
    delayed coroutine whose deadline has come: what is left in the heap is not
    due.  No wake-up is lost between the check of a queue and the wait. *)
Theorem pool_completes n s :
  quiet_reachable n s → dangling s = false →
  (∀ l s', internal l = true → pool_step l s = Some s' → dangling s' = false → (work s' < work s)%nat) ∧
  ((∀ l, internal l = true → pool_step l s = None) →
     ran s ≡ₚ posted s ++ (fired_item <$> fired s) ∧ work_queue_ (pool s) = [] ∧
     active_tasks_ (pool s) = 0 ∧
     armed s ≡ₚ fired s ++ vitems (delayed_queue_ (pool s)) ∧
     Forall (λ d, clock s < when d) (vitems (delayed_queue_ (pool s)))).
Proof.
  intros Hr Hd. destruct (quiet_reachable_inv n s Hr Hd) as (Hp & Hq & Ht). split.
  - intros [] s' Hl Hst Hd'; try discriminate Hl; simpl in Hst.
    + eapply work_worker; [apply (qi_stopping s Hq)|done].
    + by eapply work_call.
    + by eapply work_timer.
  - intros Hstuck. destruct (stuck_workers s Hp Hq (λ i, Hstuck (PWorker i) eq_refl)) as [Hl Hw].
    pose proof (stuck_calls s Hq Hl Hw (λ j who, Hstuck (PCall j who) eq_refl)) as Hc.
    pose proof (stuck_timer s Hq Ht Hc (Hstuck (PTimer intact) eq_refl)) as Hdue.
    pose proof Hp as [H1 H2 H3 H4 H5 H6 H7 H8]. pose proof (qi_alert s Hq) as Ha.
    unfold alert, in_hand, pushing, busy in *.
    rewrite (all_concat_nil _ WBlocked), (all_concat_nil _ CDone), !app_nil_r in H3 by done.
    rewrite (all_concat_nil _ CDone), !app_nil_r in H1 by done.
    rewrite (all_sum_zero worker_busy WBlocked), (all_sum_zero call_busy CDone) in H6 by done.
    rewrite (all_sum_zero worker_awake WBlocked), (all_sum_zero call_notifies CDone) in Ha by done.
    destruct (work_queue_ (pool s)) as [|w q]; [|specialize (Ha ltac:(done)); lia].
    rewrite app_nil_r in H2. split_and!; [|done|by rewrite H6|done|done]. by rewrite H1, H2, H3.
Qed.

(** One worker goes to sleep; an item arrives, wakes it and is run; so is a
    delayed one when its time has come, and another stays in the heap. *)
Definition pool_rest : list pool_label :=
  [PWorker 0; PWorker 0; PWorker 0; PSchedule (Some 1%nat); PAfter 9 (Some 3%nat); PAfter 5 (Some 2%nat);
   PCall 0 NoWaiter; PCall 0 (AtWorker 0);
   PWorker 0; PWorker 0; PWorker 0; PWorker 0; PWorker 0; PWorker 0; PWorker 0;
   PTimer intact; PTimer intact; PTick 6; PTimer intact; PCall 1 NoWaiter; PCall 1 (AtWorker 0);
   PTimer intact; PTimer intact; PTimer intact;
   PWorker 0; PWorker 0; PWorker 0; PWorker 0; PWorker 0; PWorker 0; PWorker 0].
Lemma pool_completes_witness :
  ∃ s, run quiet_step pool_rest (pool_init 1) = Some s ∧ dangling s = false ∧
  ran s = [ResumeItem 1%nat; ResumeItem 2%nat] ∧ vitems (delayed_queue_ (pool s)) = [mkDelayed 9 3%nat] ∧
  (∀ l, internal l = true → pool_step l s = None) ∧
  ran s ≡ₚ posted s ++ (fired_item <$> fired s) ∧ work_queue_ (pool s) = [] ∧ active_tasks_ (pool s) = 0 ∧
  armed s ≡ₚ fired s ++ vitems (delayed_queue_ (pool s)) ∧
  Forall (λ d, clock s < when d) (vitems (delayed_queue_ (pool s))).
Proof.
  eexists. split; [vm_compute; reflexivity|]. split; [vm_compute; reflexivity|].
  split; [vm_compute; reflexivity|]. split; [vm_compute; reflexivity|].
  match goal with |- ?A ∧ _ => assert A as Hs end.
  { intros [| | | | | | | |i| |j who|stale|]; try discriminate; intros _;
      [destruct i as [|[|]]|destruct j as [|[|[|]]]|]; vm_compute; reflexivity. }
  split; [exact Hs|]. apply (pool_completes 1); [|vm_compute; reflexivity|exact Hs].
  apply reachable_run. exists pool_rest. vm_compute. reflexivity.
Defined.

(** ** What goes wrong with Run, RunOnce and Stop *)

(** Run waits on the condition variable of the workers: the notification of a
    new item can go to it instead of a worker.  Here one worker runs a task,
    the other waits, and so does Run; the new item's only notification wakes
    Run, which sees a non-empty queue and waits again.  The item stays queued
    with a worker idle until the running task ends; if that task waits for the
    item, the pool is deadlocked. *)
Example pool_notify_wakes_run :
  ∃ s, run pool_step
    [PWorker 1; PWorker 1; PWorker 1; PPost (Some 1%nat); PCall 0 NoWaiter; PCall 0 (AtWorker 1);
     PWorker 0; PWorker 0; PWorker 1; PWorker 1; PRun; PRunner; PRunner; PRunner;
     PPost (Some 2%nat); PCall 1 NoWaiter; PCall 1 AtRun; PRunner; PRunner] (pool_init 2) = Some s ∧
  workers_ s = [WTaken (CallItem 1%nat); WBlocked] ∧ run_ s = RBlocked ∧
  work_queue_ (pool s) = [CallItem 2%nat] ∧ calls s = [CDone; CDone].
Proof. eexists. split; [vm_compute; reflexivity|]. vm_compute. by split_and?. Qed.

(** Stop sets the flag and notifies without the mutex: a worker between its
    check and its wait misses both, and the destructor's join never returns. *)
Example pool_stop_missed :
  ∃ s, run pool_step
    [PWorker 0; PWorker 0; PDtor; PCall 0 NoWaiter; PCall 0 NoWaiter; PCall 0 NoWaiter; PCall 0 NoWaiter;
     PWorker 0; PTimer intact] (pool_init 1) = Some s ∧
  workers_ s = [WBlocked] ∧ calls s = [CDtorJoin] ∧ timer_ s = TExit ∧
  worker_step 0 s = None ∧ call_step 0 NoWaiter s = None.
Proof. eexists. split; [vm_compute; reflexivity|]. vm_compute. by split_and?. Qed.

(** RunOnce does not notify when its task is done: Run, which waits for the
    count of active tasks, is not told. *)
Example pool_run_once_no_notify :
  ∃ s, run pool_step
    [PWorker 0; PWorker 0; PWorker 0; PPost (Some 1%nat); PCall 0 NoWaiter;
     POnce; PCall 1 NoWaiter; PCall 1 NoWaiter; PRun; PRunner; PRunner; PRunner; PCall 0 (AtWorker 0);
     PWorker 0; PWorker 0; PCall 1 NoWaiter; PCall 1 NoWaiter] (pool_init 1) = Some s ∧
  run_ s = RBlocked ∧ run_predicate (pool s) = true ∧ workers_ s = [WBlocked] ∧ calls s = [CDone; CDone].
Proof. eexists. split; [vm_compute; reflexivity|]. vm_compute. by split_and?. Qed.

(** RunOnce counts its task only after it has released the mutex, so Run can
    return, unstopped, with a task taken and not yet run. *)
Example pool_run_returns_early :
  ∃ s, run pool_step
    [PPost (Some 1%nat); PCall 0 NoWaiter; POnce; PCall 1 NoWaiter; PRun; PRunner; PRunner] (pool_init 1) = Some s ∧
  run_ s = RIdle ∧ stopping_ (pool s) = false ∧ ran s = [] ∧ submitted s = [CallItem 1%nat].
Proof. eexists. split; [vm_compute; reflexivity|]. vm_compute. by split_and?. Qed.

(** The timer thread keeps a reference to the top of the heap across
    wait_until, which releases the mutex: the second ScheduleAfter moves the
    vector, and when the thread wakes it reads freed memory.  If that still holds
    the old entry, the thread schedules coroutine 1 and pops the entry of
    coroutine 2, which has become the top; then it finds coroutine 1's entry and
    schedules it again: 1 is resumed twice, 2 never. *)
Example pool_timer_dangling :
  ∃ s, run pool_step
    ([PAfter 10 (Some 1%nat); PTimer intact; PTimer intact; PAfter 5 (Some 2%nat); PTick 10;
      PTimer (10, Some 1%nat); PCall 0 NoWaiter; PCall 0 NoWaiter; PTimer intact; PTimer intact; PTimer intact;
      PTimer intact; PCall 1 NoWaiter; PCall 1 NoWaiter] ++ replicate 9 (PWorker 0)) (pool_init 1) = Some s ∧
  dangling s = true ∧ ran s = [ResumeItem 1%nat; ResumeItem 1%nat] ∧
  delayed_handle <$> armed s = [1%nat; 2%nat] ∧ vitems (delayed_queue_ (pool s)) = [].
Proof. eexists. split; [vm_compute; reflexivity|]. vm_compute. by split_and?. Qed.
