(* ===== verification/Libuv.v ===== *)
(** * LibuvExecutor ([io/libuv_executor.hpp], [src/io/libuv_executor.cpp])

    Three queues under one mutex, filled from any thread and emptied by the
    loop thread in an idle callback.  libuv is outside the model; the loop is
    free to invoke any callback whose documented condition holds: OnAsync while
    a uv_async_send has not been answered (sends coalesce), OnIdle while the
    idle handle is started, OnTimer for a started timer that is due, OnClose
    for a handle being closed; what uv_timer_init returns is part of the label.
    Each critical section, each uv call and each
    resume is a step, so other threads, and the coroutines that are resumed,
    may call the executor in between. *)
From S2P Require Import Prelude Errors Executor.
Local Open Scope Z_scope.

Record TimerRequest := mkRequest { delay : Z; request_handle : option handle }.
(** A started uv_timer_t with its [ScheduledHandle]: the loop time at which it
    was started, and the request.  The delay is converted to [uint64_t]. *)
Record ScheduledHandle := mkScheduled { started : Z; request : TimerRequest }.
Definition due (t : ScheduledHandle) : Z := started t + to_size (delay (request t)).

Record LibuvExecutor := mkLibuv {
  ready_queue_ : list (option handle);
  callback_queue_ : list nat;
  timer_queue_ : list TimerRequest;
  idle_active_ : bool;
  running_ : bool;
}.
Definition new_libuv : LibuvExecutor := mkLibuv [] [] [] false false.

(** ** The critical sections *)

Definition Schedule_push (h : option handle) (e : LibuvExecutor) : LibuvExecutor :=
  mkLibuv (ready_queue_ e ++ [h]) (callback_queue_ e) (timer_queue_ e) (idle_active_ e) (running_ e).
Definition ScheduleAfter_push (d : Z) (h : option handle) (e : LibuvExecutor) : LibuvExecutor :=
  mkLibuv (ready_queue_ e) (callback_queue_ e) (timer_queue_ e ++ [mkRequest d h]) (idle_active_ e) (running_ e).
Definition Post_push (cb : nat) (e : LibuvExecutor) : LibuvExecutor :=
  mkLibuv (ready_queue_ e) (callback_queue_ e ++ [cb]) (timer_queue_ e) (idle_active_ e) (running_ e).
Definition set_idle_active (b : bool) (e : LibuvExecutor) : LibuvExecutor :=
  mkLibuv (ready_queue_ e) (callback_queue_ e) (timer_queue_ e) b (running_ e).
Definition set_running (b : bool) (e : LibuvExecutor) : LibuvExecutor :=
  mkLibuv (ready_queue_ e) (callback_queue_ e) (timer_queue_ e) (idle_active_ e) b.
(** Run, around uv_run, and Stop, after uv_stop. *)
Definition Run_begin (e : LibuvExecutor) : LibuvExecutor := set_running true e.
Definition Run_end (e : LibuvExecutor) : LibuvExecutor := set_running false e.
Definition Stop (e : LibuvExecutor) : LibuvExecutor := set_running false e.
Definition IsRunning (e : LibuvExecutor) : bool := running_ e.
(** [ProcessReadyQueue]'s swap. *)
Definition take_queues (e : LibuvExecutor) : LibuvExecutor :=
  mkLibuv [] [] [] (idle_active_ e) (running_ e).
Definition queues_empty (e : LibuvExecutor) : bool :=
  bool_decide (ready_queue_ e = []) && bool_decide (callback_queue_ e = []) && bool_decide (timer_queue_ e = []).

(** The executor interface. *)
#[export] Instance libuv_executor : Executor LibuvExecutor := {
  ex_schedule h := Schedule_push (Some h);
  ex_schedule_after _ d h := ScheduleAfter_push d (Some h);
  ex_queued e := omap id (ready_queue_ e);
  ex_timers e := omap (λ r, (λ h, (delay r, h)) <$> request_handle r) (timer_queue_ e);
  ex_time _ _ d := d;
}.
#[export] Instance libuv_executor_laws : ExecutorLaws LibuvExecutor.
Proof.
  split; try done; intros; simpl; rewrite omap_app; simpl; [done|]. by rewrite Permutation_app_comm.
Qed.

(** ** Creation and destruction

    The calls made on libuv, and what libuv requires of them: a handle is
    closed only if it was initialised, and once. *)
Inductive uv_call :=
  | UvLoopInit | UvAsyncInit | UvIdleInit | UvCloseAsync | UvCloseIdle | UvRunOnce | UvLoopClose.

(** [~LibuvExecutor]: [alive] is how often the loop is found alive. *)
Definition dtor (alive : nat) : list uv_call :=
  [UvCloseAsync; UvCloseIdle] ++ replicate alive UvRunOnce ++ [UvLoopClose].

(** [Create], given the results of the three initialisations.  On an error
    path the local unique_ptr is destroyed, and with it the executor. *)
Definition Create (loop_init async_init idle_init : Z) (alive : nat)
    : Errors.Result LibuvExecutor error_code * list uv_call :=
  let io_error := Err (make_error_code IoError) in
  if negb (loop_init =? 0) then (io_error, [UvLoopInit] ++ dtor alive)
  else if negb (async_init =? 0) then (io_error, [UvLoopInit; UvAsyncInit; UvLoopClose] ++ dtor alive)
  else if negb (idle_init =? 0) then
    (io_error, [UvLoopInit; UvAsyncInit; UvIdleInit; UvCloseAsync; UvRunOnce; UvLoopClose] ++ dtor alive)
  else (Ok new_libuv, [UvLoopInit; UvAsyncInit; UvIdleInit]).

(** Which calls libuv allows, given which initialisations succeeded and which
    handles are still open. *)
Fixpoint uv_allowed (loop async idle : bool) (ok_loop ok_async ok_idle : bool) (cs : list uv_call) : bool :=
  match cs with
  | [] => true
  | UvLoopInit :: cs' => uv_allowed ok_loop async idle ok_loop ok_async ok_idle cs'
  | UvAsyncInit :: cs' => loop && uv_allowed loop ok_async idle ok_loop ok_async ok_idle cs'
  | UvIdleInit :: cs' => loop && uv_allowed loop async ok_idle ok_loop ok_async ok_idle cs'
  | UvCloseAsync :: cs' => loop && async && uv_allowed loop false idle ok_loop ok_async ok_idle cs'
  | UvCloseIdle :: cs' => loop && idle && uv_allowed loop async false ok_loop ok_async ok_idle cs'
  | UvRunOnce :: cs' => loop && uv_allowed loop async idle ok_loop ok_async ok_idle cs'
  | UvLoopClose :: cs' => loop && uv_allowed false async idle ok_loop ok_async ok_idle cs'
  end.

(** ** The loop *)

Inductive uv_event :=
  | UvResume (h : option handle)           (* taken from the ready queue; resumed unless null *)
  | UvCallback (cb : nat)
  | UvTimer (t : ScheduledHandle) (now : Z)
  | UvTimerInit (r : TimerRequest) (result : Z)  (* uv_timer_init returned, for this request *)
  | UvNow (r : TimerRequest).              (* resumed from ProcessReadyQueue, without a timer *)

Inductive uv_at :=
  | UvLoop                                 (* between callbacks *)
  | UvProcess (hs : list (option handle)) (cbs : list nat) (ts : list TimerRequest)
  | UvCheck.                               (* OnIdle, after ProcessReadyQueue *)

Record uv_sys := UvSys {
  lv : LibuvExecutor;
  at_ : uv_at;
  sending : nat;                           (* threads between their push and uv_async_send *)
  pending : bool;                          (* a send not yet answered *)
  idle : bool;                             (* the idle handle is started *)
  timers : list ScheduledHandle;           (* started *)
  closing : list ScheduledHandle;          (* uv_close called *)
  released : list ScheduledHandle;         (* deleted *)
  uv_now : Z;
  log : list uv_event;
  scheduled : list (option handle);        (* history of the calls *)
  posted : list nat;
  armed : list TimerRequest;
}.
Definition uv_init : uv_sys := UvSys new_libuv UvLoop 0 false false [] [] [] 0 [] [] [] [].

Definition set_lv (e : LibuvExecutor) (s : uv_sys) : uv_sys :=
  UvSys e (at_ s) (sending s) (pending s) (idle s) (timers s) (closing s) (released s) (uv_now s)
    (log s) (scheduled s) (posted s) (armed s).
Definition set_at (a : uv_at) (s : uv_sys) : uv_sys :=
  UvSys (lv s) a (sending s) (pending s) (idle s) (timers s) (closing s) (released s) (uv_now s)
    (log s) (scheduled s) (posted s) (armed s).
Definition set_flags (n : nat) (p i : bool) (s : uv_sys) : uv_sys :=
  UvSys (lv s) (at_ s) n p i (timers s) (closing s) (released s) (uv_now s)
    (log s) (scheduled s) (posted s) (armed s).
Definition set_timers (ts cs rs : list ScheduledHandle) (s : uv_sys) : uv_sys :=
  UvSys (lv s) (at_ s) (sending s) (pending s) (idle s) ts cs rs (uv_now s)
    (log s) (scheduled s) (posted s) (armed s).
Definition add_log (ev : uv_event) (s : uv_sys) : uv_sys :=
  UvSys (lv s) (at_ s) (sending s) (pending s) (idle s) (timers s) (closing s) (released s) (uv_now s)
    (log s ++ [ev]) (scheduled s) (posted s) (armed s).
Definition note (hs : list (option handle)) (cbs : list nat) (ts : list TimerRequest) (s : uv_sys) : uv_sys :=
  UvSys (lv s) (at_ s) (S (sending s)) (pending s) (idle s) (timers s) (closing s) (released s) (uv_now s)
    (log s) (scheduled s ++ hs) (posted s ++ cbs) (armed s ++ ts).

Inductive uv_label :=
  | VSchedule (h : option handle) | VPost (cb : nat) | VAfter (d : Z) (h : option handle)
  | VSend                                  (* some thread's uv_async_send *)
  | VTick (d : nat)
  | VRun | VReturn | VStop                 (* uv_run is entered, returns; Stop *)
  | VAsync                                 (* OnAsync *)
  | VIdle                                  (* OnIdle begins: ProcessReadyQueue's swap *)
  | VStep (timer_init : Z)                 (* the callback's next step; the result of uv_timer_init *)
  | VTimer (i : nat)                       (* OnTimer *)
  | VClose (i : nat).                      (* OnClose *)

Definition callback_step (timer_init : Z) (s : uv_sys) : option uv_sys :=
  match at_ s with
  | UvLoop => None
  | UvProcess (h :: hs) cbs ts => Some (set_at (UvProcess hs cbs ts) (add_log (UvResume h) s))
  | UvProcess [] (cb :: cbs) ts => Some (set_at (UvProcess [] cbs ts) (add_log (UvCallback cb) s))
  | UvProcess [] [] (r :: ts) =>
      let s := add_log (UvTimerInit r timer_init) s in
      Some (set_at (UvProcess [] [] ts)
        (if negb (timer_init =? 0) then add_log (UvNow r) s
         else set_timers (timers s ++ [mkScheduled (uv_now s) r]) (closing s) (released s) s))
  | UvProcess [] [] [] => Some (set_at UvCheck s)
  | UvCheck =>
      if queues_empty (lv s)
      then Some (set_at UvLoop (set_flags (sending s) (pending s) false (set_lv (set_idle_active false (lv s)) s)))
      else Some (set_at UvLoop s)
  end.

Definition uv_step (l : uv_label) (s : uv_sys) : option uv_sys :=
  match l with
  | VSchedule h => Some (note [h] [] [] (set_lv (Schedule_push h (lv s)) s))
  | VPost cb => Some (note [] [cb] [] (set_lv (Post_push cb (lv s)) s))
  | VAfter d h => Some (note [] [] [mkRequest d h] (set_lv (ScheduleAfter_push d h (lv s)) s))
  | VSend => match sending s with 0%nat => None | S n => Some (set_flags n true (idle s) s) end
  | VTick d =>
      Some (UvSys (lv s) (at_ s) (sending s) (pending s) (idle s) (timers s) (closing s) (released s)
              (uv_now s + Z.of_nat d) (log s) (scheduled s) (posted s) (armed s))
  | VRun => Some (set_lv (Run_begin (lv s)) s)
  | VReturn => match at_ s with UvLoop => Some (set_lv (Run_end (lv s)) s) | _ => None end
  | VStop => Some (set_lv (Stop (lv s)) s)
  | VAsync =>
      match at_ s with
      | UvLoop =>
          if pending s then
            Some (if idle_active_ (lv s) then set_flags (sending s) false (idle s) s
                  else set_flags (sending s) false true (set_lv (set_idle_active true (lv s)) s))
          else None
      | _ => None
      end
  | VIdle =>
      match at_ s with
      | UvLoop =>
          if idle s then
            Some (set_at (UvProcess (ready_queue_ (lv s)) (callback_queue_ (lv s)) (timer_queue_ (lv s)))
                    (set_lv (take_queues (lv s)) s))
          else None
      | _ => None
      end
  | VStep timer_init => callback_step timer_init s
  | VTimer i =>
      match at_ s, timers s !! i with
      | UvLoop, Some t =>
          if due t <=? uv_now s
          then Some (set_timers (delete i (timers s)) (closing s ++ [t]) (released s) (add_log (UvTimer t (uv_now s)) s))
          else None
      | _, _ => None
      end
  | VClose i =>
      match at_ s, closing s !! i with
      | UvLoop, Some t => Some (set_timers (timers s) (delete i (closing s)) (released s ++ [t]) s)
      | _, _ => None
      end
  end.

Definition uv_reachable (s : uv_sys) : Prop := reachable uv_step uv_init s.

(** ** Accounting *)

Definition resumes (l : list uv_event) : list (option handle) :=
  omap (λ e, match e with UvResume h => Some h | _ => None end) l.
Definition callbacks (l : list uv_event) : list nat :=
  omap (λ e, match e with UvCallback cb => Some cb | _ => None end) l.
Definition fired (l : list uv_event) : list ScheduledHandle :=
  omap (λ e, match e with UvTimer t _ => Some t | _ => None end) l.
Definition immediate (l : list uv_event) : list TimerRequest :=
  omap (λ e, match e with UvNow r => Some r | _ => None end) l.
(** What libuv answered: the requests whose uv_timer_init succeeded, or failed. *)
Definition init_succeeded (l : list uv_event) : list TimerRequest :=
  omap (λ e, match e with UvTimerInit r z => if z =? 0 then Some r else None | _ => None end) l.
Definition init_failed (l : list uv_event) : list TimerRequest :=
  omap (λ e, match e with UvTimerInit r z => if z =? 0 then None else Some r | _ => None end) l.
Definition local_handles (a : uv_at) : list (option handle) := match a with UvProcess hs _ _ => hs | _ => [] end.
Definition local_callbacks (a : uv_at) : list nat := match a with UvProcess _ cbs _ => cbs | _ => [] end.
Definition local_requests (a : uv_at) : list TimerRequest := match a with UvProcess _ _ ts => ts | _ => [] end.

(** Some step will look at the queues: a send is due or unanswered, or the idle
    handle is running. *)
Definition will_look (s : uv_sys) : Prop := (0 < sending s)%nat ∨ pending s = true ∨ idle s = true.

Record uv_inv (s : uv_sys) : Prop := {
  uv_handles : scheduled s = resumes (log s) ++ local_handles (at_ s) ++ ready_queue_ (lv s);
  uv_calls : posted s = callbacks (log s) ++ local_callbacks (at_ s) ++ callback_queue_ (lv s);
  uv_requests : armed s ≡ₚ (request <$> timers s ++ fired (log s)) ++
    immediate (log s) ++ local_requests (at_ s) ++ timer_queue_ (lv s);
  uv_started : request <$> timers s ++ fired (log s) ≡ₚ init_succeeded (log s);
  uv_immediate : immediate (log s) = init_failed (log s);
  uv_memory : fired (log s) ≡ₚ closing s ++ released s;
  uv_due : ∀ t now, UvTimer t now ∈ log s → due t <= now;
  uv_flag : idle_active_ (lv s) = idle s;
  uv_busy : at_ s ≠ UvLoop → idle s = true;
  uv_wake : queues_empty (lv s) = false → will_look s;
}.

Lemma queues_empty_spec e :
  queues_empty e = true ↔ ready_queue_ e = [] ∧ callback_queue_ e = [] ∧ timer_queue_ e = [].
Proof. unfold queues_empty. rewrite !andb_true_iff, !bool_decide_eq_true. tauto. Qed.

Lemma lookup_delete_perm {A} (l : list A) i x : l !! i = Some x → l ≡ₚ x :: delete i l.
Proof. intros Hi. by rewrite <-(delete_Permutation l i x Hi). Qed.

Lemma uv_inv_init : uv_inv uv_init.
Proof. split; try done. intros t now Hin. by apply not_elem_of_nil in Hin. Qed.

Lemma elem_of_snoc {A} (l : list A) x y : x ∈ l ++ [y] ↔ x ∈ l ∨ x = y.
Proof. rewrite elem_of_app, list_elem_of_singleton. done. Qed.

(** Every list that is read off the log. *)
Ltac read_log :=
  unfold resumes, callbacks, immediate, fired, init_succeeded, init_failed in *;
  simpl in *; rewrite ?omap_app in *; simpl in *; rewrite ?app_nil_r in *.

(** A step of the loop that resumes or calls what it takes from its local lists. *)
Lemma uv_inv_event s a ev :
  uv_inv s → a ≠ UvLoop → idle s = true → (∃ h, ev = UvResume h) ∨ (∃ cb, ev = UvCallback cb) →
  local_handles (at_ s) = resumes [ev] ++ local_handles a →
  local_callbacks (at_ s) = callbacks [ev] ++ local_callbacks a →
  local_requests (at_ s) = local_requests a →
  uv_inv (set_at a (add_log ev s)).
Proof.
  intros [H1 H2 H3 HS HF H4 H5 H6 H7 H8] Ha Hi Hev Hh Hc Hr. rewrite Hh in H1. rewrite Hc in H2. rewrite Hr in H3.
  rewrite <-app_assoc in H1, H2.
  destruct Hev as [[h ->]|[cb ->]]; split; read_log; rewrite <-?app_assoc; try done;
    (intros t now [Hin|?]%elem_of_snoc; [by apply H5|done]).
Qed.

(** A timer is made for the next request, or cannot be made. *)
Lemma uv_inv_timer_init z r ts s :
  uv_inv s → at_ s = UvProcess [] [] (r :: ts) → idle s = true →
  uv_inv (set_at (UvProcess [] [] ts)
    (let s := add_log (UvTimerInit r z) s in
     if negb (z =? 0) then add_log (UvNow r) s
     else set_timers (timers s ++ [mkScheduled (uv_now s) r]) (closing s) (released s) s)).
Proof.
  intros [H1 H2 H3 HS HF H4 H5 H6 H7 H8] Ha Hi. rewrite Ha in *. simpl in *.
  destruct (Z.eqb_spec z 0) as [->|Hz%Z.eqb_neq]; split; read_log; rewrite ?Hz in *; simpl; rewrite ?app_nil_r; try done.
  - rewrite !fmap_app in *. simpl. rewrite H3. solve_Permutation.
  - rewrite <- HS, !fmap_app. simpl. solve_Permutation.
  - intros t now [Hin|?]%elem_of_snoc; [by apply H5|done].
  - rewrite H3. solve_Permutation.
  - by rewrite HF.
  - intros t now [[Hin|?]%elem_of_snoc|?]%elem_of_snoc; [by apply H5|done..].
Qed.

Lemma uv_inv_callback z s s' : uv_inv s → callback_step z s = Some s' → uv_inv s'.
Proof.
  intros Hs Hst. pose proof Hs as [H1 H2 H3 HS HF H4 H5 H6 H7 H8]. unfold callback_step in Hst.
  destruct (at_ s) as [|[|h hs] cbs ts|] eqn:Ha; [done| | |].
  - specialize (H7 ltac:(done)). destruct cbs as [|cb cbs]; [destruct ts as [|r ts]|].
    + injection Hst as <-. by split.
    + injection Hst as <-. by apply uv_inv_timer_init.
    + injection Hst as <-. apply uv_inv_event; rewrite ?Ha; eauto.
  - injection Hst as <-. apply uv_inv_event; rewrite ?Ha; eauto.
  - destruct (queues_empty (lv s)) eqn:He; injection Hst as <-; split; try done; simpl.
    + intros Hq. change (queues_empty (lv s) = false) in Hq. congruence.
    + intros _. right; right. simpl. by rewrite H7.
Qed.

Lemma uv_inv_step l s s' : uv_inv s → uv_step l s = Some s' → uv_inv s'.
Proof.
  intros Hs Hst. pose proof Hs as [H1 H2 H3 HS HF H4 H5 H6 H7 H8]. destruct l; simpl in Hst.
  - injection Hst as <-. split; simpl; rewrite ?app_nil_r; try done; [by rewrite H1, <-!app_assoc|].
    intros _. left. simpl. lia.
  - injection Hst as <-. split; simpl; rewrite ?app_nil_r; try done; [by rewrite H2, <-!app_assoc|].
    intros _. left. simpl. lia.
  - injection Hst as <-. split; simpl; rewrite ?app_nil_r; try done; [rewrite H3; solve_Permutation|].
    intros _. left. simpl. lia.
  - destruct (sending s) as [|n] eqn:Hn; [done|]. injection Hst as <-. split; try done.
    intros _. right; left. done.
  - injection Hst as <-. by split.
  - injection Hst as <-. by split.
  - destruct (at_ s) eqn:Ha; try done. injection Hst as <-. split; try done; simpl; by rewrite ?Ha.
  - injection Hst as <-. by split.
  - destruct (at_ s) eqn:Ha; try done. destruct (pending s); [|done].
    destruct (idle_active_ (lv s)) eqn:Hi; injection Hst as <-; split; simpl; try done;
      rewrite ?Ha, ?Hi; try done; intros _; right; right; simpl; congruence.
  - destruct (at_ s) eqn:Ha; try done. destruct (idle s) eqn:Hi; [|done]. injection Hst as <-.
    split; simpl; rewrite ?app_nil_r, ?Hi; try done.
  - by eapply uv_inv_callback.
  - destruct (at_ s) eqn:Ha; [|done..]. destruct (timers s !! i) as [t|] eqn:Hi; [|done].
    destruct (Z.leb_spec (due t) (uv_now s)); [|done]. injection Hst as <-.
    pose proof (fmap_Permutation request _ _ (lookup_delete_perm _ _ _ Hi)) as Hp. simpl in Hp.
    split; read_log; rewrite ?Ha; try done.
    + rewrite !fmap_app in *. rewrite H3, Hp. simpl. solve_Permutation.
    + rewrite <- HS, !fmap_app, Hp. simpl. solve_Permutation.
    + rewrite H4. solve_Permutation.
    + intros t' now [Hin|[= -> ->]]%elem_of_snoc; [by apply H5|done].
  - destruct (at_ s) eqn:Ha; [|done..]. destruct (closing s !! i) as [t|] eqn:Hi; [|done].
    injection Hst as <-. split; simpl; rewrite ?Ha; try done.
    rewrite H4. pose proof (lookup_delete_perm _ _ _ Hi) as Hp. rewrite Hp at 1. solve_Permutation.
Qed.

Lemma uv_reachable_inv s : uv_reachable s → uv_inv s.
Proof. apply reachable_inv; [apply uv_inv_init|]. intros l s1 s2. apply uv_inv_step. Qed.

(** The loop thread, or a thread about to send, can move. *)
Definition loop_label (l : uv_label) : bool :=
  match l with VSend | VAsync | VIdle | VStep _ => true | _ => false end.

(** C19. Scheduling on the LibuvExecutor, from any threads.  Coroutines and
    callbacks are taken up in the order of the calls, each once.  Each delayed
    coroutine is in exactly one place: a request in a queue, a timer that was
    started for it, or resumed, once; it is resumed by its timer, at a loop time
    at least its delay after the loop time at which the timer was started, and
    it is resumed without a timer only if uv_timer_init failed for it.  Every
    fired timer's memory is released once.  And no wake-up is lost: while a queue
    is non-empty some thread is about to send, a send is unanswered, or the idle
    handle runs, and then the loop can always move; when nothing of the kind is
    left, everything scheduled and posted has been run, and every delayed
    coroutine has its timer or has been resumed. *)
Theorem libuv_no_lost_wakeup s :
  uv_reachable s →
  scheduled s = resumes (log s) ++ local_handles (at_ s) ++ ready_queue_ (lv s) ∧
  posted s = callbacks (log s) ++ local_callbacks (at_ s) ++ callback_queue_ (lv s) ∧
  armed s ≡ₚ (request <$> timers s ++ fired (log s)) ++
    immediate (log s) ++ local_requests (at_ s) ++ timer_queue_ (lv s) ∧
  request <$> timers s ++ fired (log s) ≡ₚ init_succeeded (log s) ∧
  immediate (log s) = init_failed (log s) ∧
  (∀ t now, UvTimer t now ∈ log s → started t + to_size (delay (request t)) <= now) ∧
  fired (log s) ≡ₚ closing s ++ released s ∧
  (queues_empty (lv s) = false → will_look s) ∧
  (will_look s → ∃ l s', loop_label l = true ∧ uv_step l s = Some s') ∧
  (~ will_look s → scheduled s = resumes (log s) ∧ posted s = callbacks (log s) ∧
     armed s ≡ₚ (request <$> timers s ++ fired (log s)) ++ immediate (log s)).
Proof.
  intros Hs%uv_reachable_inv. pose proof Hs as [H1 H2 H3 HS HF H4 H5 H6 H7 H8]. split_and!; try done.
  - intros Hw. destruct (at_ s) as [|hs cbs ts|] eqn:Ha.
    + destruct Hw as [Hw|[Hw|Hw]].
      * exists VSend. simpl. destruct (sending s); [lia|]. eauto.
      * exists VAsync. simpl. rewrite Ha, Hw. case_match; eauto.
      * exists VIdle. simpl. rewrite Ha, Hw. eauto.
    + exists (VStep 0). simpl. unfold callback_step. rewrite Ha. destruct hs, cbs, ts; eauto.
    + exists (VStep 0). simpl. unfold callback_step. rewrite Ha. case_match; eauto.
  - intros Hn. destruct (queues_empty (lv s)) eqn:Hq; [|destruct Hn; by apply H8].
    apply queues_empty_spec in Hq as (Hr & Hc & Ht). rewrite Hr in H1. rewrite Hc in H2. rewrite Ht in H3.
    assert (at_ s = UvLoop) as Ha.
    { destruct (at_ s) eqn:Ha; [done|..]; destruct Hn; right; right; by apply H7. }
    rewrite Ha in *. simpl in *. by rewrite !app_nil_r in *.
Qed.

(** Two threads schedule while the loop runs; the sends coalesce.  For one of the
    two delayed coroutines there is no memory for a timer (UV_ENOMEM). *)
Definition uv_demo : list uv_label :=
  [VSchedule (Some 1%nat); VSend; VRun; VAsync; VIdle; VSchedule (Some 2%nat); VAfter 5 (Some 3%nat); VAfter 9 (Some 4%nat); VSend; VSend; VSend;
   VStep 0; VStep 0; VStep 0; VAsync; VIdle; VStep 0; VStep 0; VStep (-12); VStep 0; VStep 0;
   VTick 5; VTimer 0; VClose 0; VStop; VReturn].
Lemma libuv_no_lost_wakeup_witness :
  ∃ s, run uv_step uv_demo uv_init = Some s ∧
  log s = [UvResume (Some 1%nat); UvResume (Some 2%nat); UvTimerInit (mkRequest 5 (Some 3%nat)) 0;
           UvTimerInit (mkRequest 9 (Some 4%nat)) (-12); UvNow (mkRequest 9 (Some 4%nat)); UvTimer (mkScheduled 0 (mkRequest 5 (Some 3%nat))) 5] ∧
  length (released s) = 1%nat ∧ ~ will_look s ∧
  (queues_empty (lv s) = false → will_look s).
Proof.
  eexists. split; [vm_compute; reflexivity|]. split; [vm_compute; reflexivity|].
  split; [reflexivity|]. split; [intros [?|[?|?]]; simpl in *; [lia|done..]|].
  apply libuv_no_lost_wakeup. apply reachable_run. exists uv_demo. vm_compute. reflexivity.
Defined.

(** A created executor makes only calls libuv allows, until it is destroyed. *)
Example libuv_create_ok :
  let '(r, cs) := Create 0 0 0 0 in
  r = Ok new_libuv ∧ uv_allowed false false false true true true (cs ++ dtor 2) = true.
Proof. by vm_compute. Qed.

(** On each error path of Create the local executor is destroyed too, and its
    destructor closes handles that were never initialised or are closed. *)
Example libuv_create_error_closes :
  let errs := [(Create (-1) 0 0 0, (false, false, false)); (Create 0 (-1) 0 0, (true, false, false));
               (Create 0 0 (-1) 0, (true, true, false))] in
  (λ '((_, cs), (l, a, i)), uv_allowed false false false l a i cs) <$> errs = [false; false; false].
Proof. by vm_compute. Qed.

(** ** Run and RunOnce

    Around uv_run, which calls back with the current executor as it finds it.
    [this]: the executor's address. *)
Inductive uv_run_mode := UV_RUN_DEFAULT | UV_RUN_NOWAIT.

Section Loop.
Context (uv_run : uv_run_mode → tls → LibuvExecutor → LibuvExecutor).

Definition Run (this : executor_id) (cur : tls) (e : LibuvExecutor) : tls * LibuvExecutor :=
  let e := Run_begin e in
  let '(previous_, cur) := ExecutorGuard_ctor this cur in
  let e := Run_end (uv_run UV_RUN_DEFAULT cur e) in
  (ExecutorGuard_dtor previous_ cur, e).
Definition RunOnce (this : executor_id) (cur : tls) (e : LibuvExecutor) : tls * LibuvExecutor :=
  let '(previous_, cur) := ExecutorGuard_ctor this cur in
  let e := uv_run UV_RUN_NOWAIT cur e in
  (ExecutorGuard_dtor previous_ cur, e).

(** The callbacks see this executor as the current one, and the caller's is
    restored.  Only Run makes the executor count as running. *)
Lemma libuv_run_restores this cur e :
  (Run this cur e).1 = cur ∧ IsRunning (Run this cur e).2 = false ∧
  (RunOnce this cur e).1 = cur ∧ (RunOnce this cur e).2 = uv_run UV_RUN_NOWAIT (Some this) e.
Proof. done. Qed.
End Loop.
