(* ===== verification/Retry.v ===== *)
(** * Retry with exponential backoff ([core/retry.hpp])

    The loop of [RetryBuilder::Execute], as a function of what the task factory
    returns at each call and of the random factors drawn.  Delays are [long]s;
    their products with the jitter and the multiplier are computed in binary64
    and cast back, which is undefined outside the range of [long]. *)
From Stdlib Require Import SpecFloat.
From S2P Require Import Prelude Errors.
Local Open Scope Z_scope.

(** ** Arithmetic on delays *)

Definition double := spec_float.
Definition mul : double → double → double := SFmul 53 1024.
(** [static_cast<double>] of a 64-bit integer, to nearest even. *)
Definition of_long (z : Z) : double := binary_normalize 53 1024 z 0 false.
Definition long_ok (z : Z) : bool := (- 2 ^ 63 <=? z) && (z <? 2 ^ 63).
(** [static_cast<long>] of a double: truncation, when the result fits. *)
Definition to_long (x : double) : option Z :=
  let fits z := if long_ok z then Some z else None in
  match x with
  | S754_zero _ => Some 0
  | S754_finite s m e =>
      let a := if 0 <=? e then Z.pos m * 2 ^ e else Z.pos m / 2 ^ (- e) in fits (if s then - a else a)
  | _ => None
  end.
(** [milliseconds(static_cast<long>(delay.count() * factor))]. *)
Definition scale (delay : Z) (factor : double) : option Z := to_long (mul (of_long delay) factor).

(** ** The policy and its builder *)

Record RetryPolicy := mkPolicy {
  max_attempts : nat;                 (* a size_t *)
  initial_delay : Z;
  backoff_multiplier : double;
  max_delay : Z;
  add_jitter : bool;
  should_retry : error_code → bool;
}.
Definition default_policy : RetryPolicy := mkPolicy 3 100 (of_long 2) 30000 true (λ _, true).
Definition MaxAttempts (n : nat) (p : RetryPolicy) : RetryPolicy :=
  mkPolicy n (initial_delay p) (backoff_multiplier p) (max_delay p) (add_jitter p) (should_retry p).
Definition WithExponentialBackoff (initial : Z) (multiplier : double) (p : RetryPolicy) : RetryPolicy :=
  mkPolicy (max_attempts p) initial multiplier (max_delay p) (add_jitter p) (should_retry p).
Definition MaxDelay (max : Z) (p : RetryPolicy) : RetryPolicy :=
  mkPolicy (max_attempts p) (initial_delay p) (backoff_multiplier p) max (add_jitter p) (should_retry p).
Definition NoJitter (p : RetryPolicy) : RetryPolicy :=
  mkPolicy (max_attempts p) (initial_delay p) (backoff_multiplier p) (max_delay p) false (should_retry p).
Definition RetryIf (pred : error_code → bool) (p : RetryPolicy) : RetryPolicy :=
  mkPolicy (max_attempts p) (initial_delay p) (backoff_multiplier p) (max_delay p) (add_jitter p) pred.

(** ** Execute *)

Section Execute.
Context {T : Type} (policy_ : RetryPolicy).
Context (factory_ : nat → Result T error_code).   (* the result of each call *)
Context (draw : nat → double).                    (* the random factor of each retry *)

Inductive outcome :=
  | Returned (r : Result T error_code)
  | Undefined.                                    (* a cast out of range *)

Record execution := Execution { calls : nat; sleeps : list Z; result : outcome }.

Definition after_loop (last_error : error_code) : Result T error_code :=
  Err (if ec_bool last_error then last_error else make_error_code RetryExhausted).

(** The delay actually slept: jittered, then capped. *)
Definition actual_delay (attempt : nat) (delay : Z) : option Z :=
  d ← (if add_jitter policy_ then scale delay (draw attempt) else Some delay);
  Some (if max_delay policy_ <? d then max_delay policy_ else d).

(** [remaining] iterations are left of the [for] loop. *)
Fixpoint loop (remaining attempt : nat) (delay : Z) (last_error : error_code) (slept : list Z) : execution :=
  match remaining with
  | O => Execution attempt slept (Returned (after_loop last_error))
  | S remaining' =>
      match factory_ attempt with
      | inl v => Execution (S attempt) slept (Returned (Ok v))
      | inr last_error =>
          if negb ((S attempt <? max_attempts policy_)%nat && should_retry policy_ last_error)
          then Execution (S attempt) slept (Returned (after_loop last_error))
          else match actual_delay attempt delay with
          | None => Execution (S attempt) slept Undefined
          | Some d =>
              match scale delay (backoff_multiplier policy_) with
              | None => Execution (S attempt) (slept ++ [d]) Undefined
              | Some delay' => loop remaining' (S attempt) delay' last_error (slept ++ [d])
              end
          end
      end
  end.

Definition no_error : error_code := mkCode 0 "system".
Definition Execute : execution := loop (max_attempts policy_) 0 (initial_delay policy_) no_error [].

(** Attempt [i] failed with an error worth a retry. *)
Definition retried (i : nat) : Prop := ∃ e, factory_ i = Err e ∧ should_retry policy_ e = true.

(** What the caller is told, given that [n] attempts were made. *)
Definition verdict (n : nat) (r : Result T error_code) : Prop :=
  match n with
  | O => r = Err (make_error_code RetryExhausted)
  | S i =>
      match factory_ i with
      | inl v => r = Ok v
      | inr e => (n = max_attempts policy_ ∨ should_retry policy_ e = false) ∧ r = after_loop e
      end
  end.

Definition spec (x : execution) : Prop :=
  (calls x ≤ max_attempts policy_)%nat ∧ (∀ i, (S i < calls x)%nat → retried i) ∧
  Forall (λ d, d <= max_delay policy_) (sleeps x) ∧ (length (sleeps x) ≤ calls x)%nat ∧
  (∀ r, result x = Returned r → length (sleeps x) = Nat.pred (calls x) ∧ verdict (calls x) r).

Lemma actual_delay_le attempt delay d : actual_delay attempt delay = Some d → d <= max_delay policy_.
Proof.
  unfold actual_delay. destruct (if add_jitter policy_ then _ else _); simpl; [|done].
  intros [= <-]. destruct (Z.ltb_spec (max_delay policy_) z); lia.
Qed.

(** The loop's invariant: [attempt] attempts have been retried, each followed
    by one sleep. *)
Lemma loop_spec remaining attempt delay last_error slept :
  (attempt + remaining)%nat = max_attempts policy_ → (∀ i, (i < attempt)%nat → retried i) →
  Forall (λ d, d <= max_delay policy_) slept → length slept = attempt →
  (remaining = 0%nat → attempt = 0%nat) → (attempt = 0%nat → last_error = no_error) →
  spec (loop remaining attempt delay last_error slept).
Proof.
  revert attempt delay last_error slept.
  induction remaining as [|remaining IH]; intros attempt delay last_error slept Hn Hr Hs Hl H0 He; simpl.
  - specialize (H0 eq_refl). rewrite (He H0). clear He. rewrite H0 in *. apply nil_length_inv in Hl. subst slept.
    split_and!; simpl; try done; [lia|intros; lia|]. by intros r [= <-].
  - destruct (factory_ attempt) as [v|e] eqn:Hf.
    { split_and!; simpl; try lia; [intros i Hi; apply Hr; lia|done|].
      intros r [= <-]. split; [done|]. by rewrite Hf. }
    destruct (Nat.ltb_spec (S attempt) (max_attempts policy_)) as [Hm|Hm];
      [destruct (should_retry policy_ e) eqn:Hsr|]; simpl.
    + assert (retried attempt) as Hra by (by exists e).
      assert (∀ i, (i < S attempt)%nat → retried i) as Hr'.
      { intros i Hi. destruct (decide (i = attempt)) as [->|]; [done|]. apply Hr. lia. }
      destruct (actual_delay attempt delay) as [d|] eqn:Hd;
        [|split_and!; simpl; try lia; [intros i Hi; apply Hr; lia|done|done]].
      apply actual_delay_le in Hd.
      assert (Forall (λ d, d <= max_delay policy_) (slept ++ [d])) as Hs' by (apply Forall_app; auto).
      destruct (scale delay (backoff_multiplier policy_)) as [delay'|];
        [|split_and!; simpl; try done; rewrite ?length_app; simpl; try lia; intros i Hi; apply Hr'; lia].
      apply IH; rewrite ?length_app; simpl; try done; lia.
    + split_and!; simpl; try lia; [intros i Hi; apply Hr; lia|done|].
      intros r [= <-]. split; [done|]. rewrite Hf. auto.
    + split_and!; simpl; try lia; [intros i Hi; apply Hr; lia|done|].
      intros r [= <-]. split; [done|]. rewrite Hf. split; [left; lia|done].
Qed.

(** C40. Retrying.  The factory is called at most [max_attempts] times, again
    only after an error that [should_retry] accepts, with one sleep of at most
    [max_delay] between consecutive calls and none after the last.  The caller
    gets the value of the last call if it succeeded; otherwise its error, and
    then either the attempts are used up or the error was refused; and
    RetryExhausted when no call was made or the last error was code zero. *)
Theorem retry_bounded : spec Execute.
Proof. apply loop_spec; simpl; try done; intros; lia. Qed.
End Execute.
Arguments Returned {T} r.
Arguments Undefined {T}.

(** Two failures, then success: sleeps of 100 and 200. *)
Example retry_succeeds :
  Execute (NoJitter default_policy)
    (λ i, if (i <? 2)%nat then Err (make_error_code IoError) else Ok 7) (λ _, S754_zero false)
  = Execution 3 [100; 200] (Returned (Ok 7)).
Proof. vm_compute. reflexivity. Qed.

(** A jitter of 1.5, and the cap. *)
Example retry_caps :
  Execute (MaxDelay 250 default_policy) (λ _, Err (make_error_code IoError) : Result Z _)
    (λ _, mul (of_long 3) (S754_finite false 4503599627370496 (-53)))
  = Execution 3 [150; 250] (Returned (Err (make_error_code IoError))).
Proof. vm_compute. reflexivity. Qed.

(** No attempts: RetryExhausted. *)
Example retry_zero :
  Execute (MaxAttempts 0 default_policy) (λ _, Ok 7) (λ _, S754_zero false)
  = Execution 0 [] (Returned (Err (make_error_code RetryExhausted))).
Proof. reflexivity. Qed.

(** The cap is applied to a copy: the delay itself keeps doubling, and after 57
    retries with the default policy its cast to [long] is undefined. *)
Example retry_delay_overflow :
  let x := Execute (MaxAttempts 100 (NoJitter default_policy))
             (λ _, Err (make_error_code IoError) : Result Z _) (λ _, S754_zero false) in
  (calls x, length (sleeps x), result x, last (sleeps x)) = (57%nat, 57%nat, Undefined, Some 30000).
Proof. vm_compute. reflexivity. Qed.
