(* ===== verification/Spawn.v ===== *)
(** * Spawned and detached coroutines ([core/spawn.hpp], [core/detached_task.hpp])

    The state that a spawned coroutine shares with its [SpawnHandle]s: the
    coroutine completes it once, on whatever thread it runs, while other
    threads register callbacks.  [SpawnState<T>] and [SpawnState<void>] are two
    instances of one interface, for which the machine and its theorem are given
    once.  A critical section is a step; the callback it selects is invoked in
    a later step, outside the lock.  Then DetachedTask: the frames that destroy
    themselves, and the objects that still point at them. *)
From S2P Require Import Prelude Errors Executor.
Local Open Scope Z_scope.

(** What a callback is given: a value, or the moved-from object left in the
    state's optional. *)
Inductive given (T : Type) := Fresh (v : T) | MovedFrom.
Arguments Fresh {T} v.
Arguments MovedFrom {T}.

Section States.
Context {T C : Type}.          (* C: the callbacks *)

Record SpawnState := mkSpawn {
  result : option (given T);
  error : error_code;
  on_complete : option C;
  on_error : option C;
  completed : bool;
  failed : bool;
}.
Definition no_error : error_code := mkCode 0 "system".
Definition new_spawn : SpawnState := mkSpawn None no_error None None false false.

(** [Complete]: the value is stored, and moved out again for a callback that is
    already there. *)
Definition Complete (value : T) (s : SpawnState) : SpawnState * list (C * given T) :=
  match on_complete s with
  | Some cb => (mkSpawn (Some MovedFrom) (error s) None (on_error s) true (failed s), [(cb, Fresh value)])
  | None => (mkSpawn (Some (Fresh value)) (error s) None (on_error s) true (failed s), [])
  end.
Definition Fail (ec : error_code) (s : SpawnState) : SpawnState * list (C * error_code) :=
  (mkSpawn (result s) ec (on_complete s) None (completed s) true,
   match on_error s with Some cb => [(cb, ec)] | None => [] end).
(** [SpawnHandle::OnComplete]: the value is copied if it is there. *)
Definition OnComplete (callback : C) (s : SpawnState) : SpawnState * list (C * given T) :=
  if completed s then (s, match result s with Some v => [(callback, v)] | None => [] end)
  else (mkSpawn (result s) (error s) (Some callback) (on_error s) (completed s) (failed s), []).
Definition OnError (callback : C) (s : SpawnState) : SpawnState * list (C * error_code) :=
  if failed s then (s, if ec_bool (error s) then [(callback, error s)] else [])
  else (mkSpawn (result s) (error s) (on_complete s) (Some callback) (completed s) (failed s), []).

(** [SpawnState<void>]. *)
Record SpawnStateVoid := mkSpawnVoid {
  v_completed : bool;
  v_failed : bool;
  v_error : error_code;
  v_on_complete : option C;
  v_on_error : option C;
}.
Definition new_spawn_void : SpawnStateVoid := mkSpawnVoid false false no_error None None.
Definition CompleteVoid (s : SpawnStateVoid) : SpawnStateVoid * list (C * given unit) :=
  (mkSpawnVoid true (v_failed s) (v_error s) None (v_on_error s),
   match v_on_complete s with Some cb => [(cb, Fresh tt)] | None => [] end).
Definition FailVoid (ec : error_code) (s : SpawnStateVoid) : SpawnStateVoid * list (C * error_code) :=
  (mkSpawnVoid (v_completed s) true ec (v_on_complete s) None,
   match v_on_error s with Some cb => [(cb, ec)] | None => [] end).
Definition OnCompleteVoid (callback : C) (s : SpawnStateVoid) : SpawnStateVoid * list (C * given unit) :=
  if v_completed s then (s, [(callback, Fresh tt)])
  else (mkSpawnVoid (v_completed s) (v_failed s) (v_error s) (Some callback) (v_on_error s), []).
Definition OnErrorVoid (callback : C) (s : SpawnStateVoid) : SpawnStateVoid * list (C * error_code) :=
  if v_failed s then (s, if ec_bool (v_error s) then [(callback, v_error s)] else [])
  else (mkSpawnVoid (v_completed s) (v_failed s) (v_error s) (v_on_complete s) (Some callback), []).
End States.
Arguments SpawnState : clear implicits.
Arguments SpawnStateVoid : clear implicits.

(** ** The interface *)

Class SpawnOps (S T C : Type) := {
  sp_new : S;
  sp_complete : T → S → S * list (C * given T);
  sp_fail : error_code → S → S * list (C * error_code);
  sp_on_complete : C → S → S * list (C * given T);
  sp_on_error : C → S → S * list (C * error_code);
  (* what an abstract state of the contract is made of *)
  sp_waiting : S → option C;              (* the callback to be called on completion *)
  sp_waiting_error : S → option C;
  sp_done : S → option (given T);         (* what late callbacks are given *)
  sp_failed : S → option error_code;
}.

(** Once a waiting callback has been given the value, what is left of it. *)
Definition late_value {S T C} `{SpawnOps S T C} (moved : given T) (waiting : option C) (v : T) : given T :=
  match waiting with Some _ => moved | None => Fresh v end.

(** [moved] is what remains of a value given away: [MovedFrom], or nothing
    worth mentioning for void. *)
Class SpawnLaws (S T C : Type) `{SpawnOps S T C} := {
  sp_moved : T → given T;
  sp_ok : S → Prop;
  sp_new_spec : sp_waiting sp_new = None ∧ sp_waiting_error sp_new = None ∧ sp_done sp_new = None ∧ sp_failed sp_new = None ∧ sp_ok sp_new;
  sp_complete_calls v s : (sp_complete v s).2 = (λ cb, (cb, Fresh v)) <$> option_list (sp_waiting s);
  sp_complete_spec v s : let s' := (sp_complete v s).1 in
    sp_waiting s' = None ∧ sp_done s' = Some (late_value (sp_moved v) (sp_waiting s) v) ∧
    sp_waiting_error s' = sp_waiting_error s ∧ sp_failed s' = sp_failed s ∧ sp_ok s';
  sp_fail_calls ec s : (sp_fail ec s).2 = (λ cb, (cb, ec)) <$> option_list (sp_waiting_error s);
  sp_fail_spec ec s : let s' := (sp_fail ec s).1 in
    sp_waiting_error s' = None ∧ sp_failed s' = Some ec ∧
    sp_waiting s' = sp_waiting s ∧ sp_done s' = sp_done s ∧ (sp_ok s → sp_ok s');
  sp_on_complete_spec cb s : sp_ok s →
    match sp_done s with
    | Some x => sp_on_complete cb s = (s, [(cb, x)])
    | None => let s' := (sp_on_complete cb s).1 in
        (sp_on_complete cb s).2 = [] ∧ sp_waiting s' = Some cb ∧ sp_done s' = None ∧
        sp_waiting_error s' = sp_waiting_error s ∧ sp_failed s' = sp_failed s ∧ sp_ok s'
    end;
  sp_on_error_spec cb s :
    match sp_failed s with
    | Some ec => sp_on_error cb s = (s, if ec_bool ec then [(cb, ec)] else [])
    | None => let s' := (sp_on_error cb s).1 in
        (sp_on_error cb s).2 = [] ∧ sp_waiting_error s' = Some cb ∧ sp_failed s' = None ∧
        sp_waiting s' = sp_waiting s ∧ sp_done s' = sp_done s ∧ (sp_ok s → sp_ok s')
    end;
}.

#[export] Instance spawn_ops T C : SpawnOps (SpawnState T C) T C := {
  sp_new := new_spawn;
  sp_complete := Complete;
  sp_fail := Fail;
  sp_on_complete := OnComplete;
  sp_on_error := OnError;
  sp_waiting := on_complete;
  sp_waiting_error := on_error;
  sp_done s := if completed s then result s else None;
  sp_failed s := if failed s then Some (error s) else None;
}.
#[export] Instance spawn_laws T C : SpawnLaws (SpawnState T C) T C.
Proof.
  refine {| sp_moved _ := MovedFrom; sp_ok s := completed s = true → is_Some (result s) |}; simpl.
  - done.
  - intros v [r e w we d f]; by destruct w.
  - intros v [r e w we d f]; by destruct w; split_and!; eauto.
  - intros ec [r e w we d f]; by destruct we.
  - intros ec [r e w we d f]; by destruct we.
  - intros cb [r e w we d f]; simpl. unfold OnComplete. destruct d; simpl; [|done].
    intros Hok. by destruct (Hok eq_refl) as [x ->].
  - intros cb [r e w we d f]; simpl. unfold OnError. by destruct f.
Defined.

#[export] Instance spawn_void_ops C : SpawnOps (SpawnStateVoid C) unit C := {
  sp_new := new_spawn_void;
  sp_complete _ := CompleteVoid;
  sp_fail := FailVoid;
  sp_on_complete := OnCompleteVoid;
  sp_on_error := OnErrorVoid;
  sp_waiting := v_on_complete;
  sp_waiting_error := v_on_error;
  sp_done s := if v_completed s then Some (Fresh tt) else None;
  sp_failed s := if v_failed s then Some (v_error s) else None;
}.
#[export] Instance spawn_void_laws C : SpawnLaws (SpawnStateVoid C) unit C.
Proof.
  refine {| sp_moved _ := Fresh tt; sp_ok _ := True |}; simpl.
  - done.
  - intros [] [d f e w we]; by destruct w.
  - intros [] [d f e w we]; by destruct w.
  - intros ec [d f e w we]; by destruct we.
  - intros ec [d f e w we]; by destruct we.
  - intros cb [d f e w we] _; unfold OnCompleteVoid; by destruct d.
  - intros cb [d f e w we]; unfold OnErrorVoid; by destruct f.
Defined.

(** ** Completion and registration, from any threads *)

Section Machine.
Context {S T C : Type} `{SL : SpawnLaws S T C}.

Record spawn_sys := SpawnSys {
  obj : S;
  to_call : list (C * given T);            (* selected in a critical section, not yet invoked *)
  to_call_error : list (C * error_code);
  called : list (C * given T);
  called_error : list (C * error_code);
  value : option T;                        (* history *)
  early : list C;                          (* OnComplete before the completion *)
  late : list C;                           (* and after *)
  code : option error_code;
  early_error : list C;
  late_error : list C;
}.
Definition spawn_init : spawn_sys := SpawnSys sp_new [] [] [] [] None [] [] None [] [].

Inductive spawn_label :=
  | PComplete (v : T)                      (* the coroutine returns: once *)
  | PFail (ec : error_code)
  | POnComplete (cb : C)
  | POnError (cb : C)
  | PCall (i : nat)
  | PCallError (i : nat).

Definition spawn_step (l : spawn_label) (s : spawn_sys) : option spawn_sys :=
  match l with
  | PComplete v =>
      match value s with
      | Some _ => None
      | None =>
          let '(o, cs) := sp_complete v (obj s) in
          Some (SpawnSys o (to_call s ++ cs) (to_call_error s) (called s) (called_error s)
                  (Some v) (early s) (late s) (code s) (early_error s) (late_error s))
      end
  | PFail ec =>
      match code s with
      | Some _ => None
      | None =>
          let '(o, cs) := sp_fail ec (obj s) in
          Some (SpawnSys o (to_call s) (to_call_error s ++ cs) (called s) (called_error s)
                  (value s) (early s) (late s) (Some ec) (early_error s) (late_error s))
      end
  | POnComplete cb =>
      let '(o, cs) := sp_on_complete cb (obj s) in
      Some (SpawnSys o (to_call s ++ cs) (to_call_error s) (called s) (called_error s) (value s)
              (match value s with Some _ => early s | None => early s ++ [cb] end)
              (match value s with Some _ => late s ++ [cb] | None => late s end)
              (code s) (early_error s) (late_error s))
  | POnError cb =>
      let '(o, cs) := sp_on_error cb (obj s) in
      Some (SpawnSys o (to_call s) (to_call_error s ++ cs) (called s) (called_error s) (value s)
              (early s) (late s) (code s)
              (match code s with Some _ => early_error s | None => early_error s ++ [cb] end)
              (match code s with Some _ => late_error s ++ [cb] | None => late_error s end))
  | PCall i =>
      c ← to_call s !! i;
      Some (SpawnSys (obj s) (delete i (to_call s)) (to_call_error s) (called s ++ [c]) (called_error s)
              (value s) (early s) (late s) (code s) (early_error s) (late_error s))
  | PCallError i =>
      c ← to_call_error s !! i;
      Some (SpawnSys (obj s) (to_call s) (delete i (to_call_error s)) (called s) (called_error s ++ [c])
              (value s) (early s) (late s) (code s) (early_error s) (late_error s))
  end.
Definition spawn_reachable (s : spawn_sys) : Prop := reachable spawn_step spawn_init s.

(** What must be called: the last callback registered before the completion
    gets the value, every later one a copy of what is left of it. *)
Definition due_calls (s : spawn_sys) : list (C * given T) :=
  match value s with
  | None => []
  | Some v => ((λ cb, (cb, Fresh v)) <$> option_list (last (early s))) ++
              ((λ cb, (cb, late_value (sp_moved v) (last (early s)) v)) <$> late s)
  end.
Definition due_errors (s : spawn_sys) : list (C * error_code) :=
  match code s with
  | None => []
  | Some ec => ((λ cb, (cb, ec)) <$> option_list (last (early_error s))) ++
               (if ec_bool ec then (λ cb, (cb, ec)) <$> late_error s else [])
  end.

Record spawn_inv (s : spawn_sys) : Prop := {
  si_calls : to_call s ++ called s ≡ₚ due_calls s;
  si_errors : to_call_error s ++ called_error s ≡ₚ due_errors s;
  si_ok : sp_ok (obj s);
  si_waiting : sp_waiting (obj s) = match value s with Some _ => None | None => last (early s) end;
  si_waiting_error : sp_waiting_error (obj s) = match code s with Some _ => None | None => last (early_error s) end;
  si_done : sp_done (obj s) = (λ v, late_value (sp_moved v) (last (early s)) v) <$> value s;
  si_failed : sp_failed (obj s) = code s;
  si_late : value s = None → late s = [];
  si_late_error : code s = None → late_error s = [];
}.

Lemma call_perm {A} (l1 l2 : list A) i c : l1 !! i = Some c → delete i l1 ++ l2 ++ [c] ≡ₚ l1 ++ l2.
Proof. intros Hi. rewrite (delete_Permutation l1 i c Hi) at 2. solve_Permutation. Qed.

Lemma spawn_inv_complete v s s' : spawn_inv s → spawn_step (PComplete v) s = Some s' → spawn_inv s'.
Proof.
  intros [H1 H2 H3 H4 H5 H6 H7 H8 H9] Hst. simpl in Hst. destruct (value s) eqn:Hv; [done|].
  pose proof (sp_complete_calls v (obj s)) as Hc. pose proof (sp_complete_spec v (obj s)) as Hs.
  destruct (sp_complete v (obj s)) as [o cs]. simpl in Hc, Hs. destruct Hs as (Hs1 & Hs2 & Hs3 & Hs4 & Hs5).
  injection Hst as <-. unfold due_calls, due_errors in *. rewrite Hv in H1. rewrite H4 in Hc, Hs2.
  split; unfold due_calls, due_errors; simpl; try done; [|by rewrite Hs3|by rewrite Hs4].
  rewrite (H8 eq_refl), Hc. simpl. rewrite app_nil_r.
  apply Permutation_nil_r in H1. apply app_eq_nil in H1 as [-> ->]. by rewrite ?app_nil_r.
Qed.

Lemma spawn_inv_fail ec s s' : spawn_inv s → spawn_step (PFail ec) s = Some s' → spawn_inv s'.
Proof.
  intros [H1 H2 H3 H4 H5 H6 H7 H8 H9] Hst. simpl in Hst. destruct (code s) eqn:Hv; [done|].
  pose proof (sp_fail_calls ec (obj s)) as Hc. pose proof (sp_fail_spec ec (obj s)) as Hs.
  destruct (sp_fail ec (obj s)) as [o cs]. simpl in Hc, Hs. destruct Hs as (Hs1 & Hs2 & Hs3 & Hs4 & Hs5).
  injection Hst as <-. unfold due_calls, due_errors in *. rewrite Hv in H2. rewrite H5 in Hc.
  split; unfold due_calls, due_errors; simpl; try done; [|by apply Hs5|by rewrite Hs3|by rewrite Hs4].
  rewrite (H9 eq_refl), Hc. simpl. assert ((if ec_bool ec then [] else []) = ([] : list (C * error_code))) as ->
    by by destruct (ec_bool ec).
  apply Permutation_nil_r in H2. apply app_eq_nil in H2 as [-> ->]. by rewrite ?app_nil_r.
Qed.

Lemma spawn_inv_on_complete cb s s' : spawn_inv s → spawn_step (POnComplete cb) s = Some s' → spawn_inv s'.
Proof.
  intros [H1 H2 H3 H4 H5 H6 H7 H8 H9] Hst. simpl in Hst.
  pose proof (sp_on_complete_spec cb (obj s) H3) as Hs. rewrite H6 in Hs.
  destruct (value s) as [v|] eqn:Hv; simpl in Hs.
  - rewrite Hs in Hst. injection Hst as <-. unfold due_calls, due_errors in *. rewrite Hv in H1.
    split; unfold due_calls, due_errors; simpl; try done. rewrite fmap_app, app_assoc, <-H1. simpl. solve_Permutation.
  - destruct (sp_on_complete cb (obj s)) as [o cs]. simpl in Hs. destruct Hs as (-> & Hs1 & Hs2 & Hs3 & Hs4 & Hs5).
    injection Hst as <-. unfold due_calls, due_errors in *. rewrite Hv in H1.
    split; unfold due_calls, due_errors; simpl; rewrite ?app_nil_r, ?Hs1, ?Hs3, ?Hs4; try done. by rewrite last_snoc.
Qed.

Lemma spawn_inv_on_error cb s s' : spawn_inv s → spawn_step (POnError cb) s = Some s' → spawn_inv s'.
Proof.
  intros [H1 H2 H3 H4 H5 H6 H7 H8 H9] Hst. simpl in Hst.
  pose proof (sp_on_error_spec cb (obj s)) as Hs. rewrite H7 in Hs.
  destruct (code s) as [ec|] eqn:Hv; simpl in Hs.
  - rewrite Hs in Hst. injection Hst as <-. unfold due_calls, due_errors in *. rewrite Hv in H2.
    split; unfold due_calls, due_errors; simpl; try done. destruct (ec_bool ec); [|by rewrite app_nil_r].
    rewrite fmap_app, app_assoc, <-H2. simpl. solve_Permutation.
  - destruct (sp_on_error cb (obj s)) as [o cs]. simpl in Hs. destruct Hs as (-> & Hs1 & Hs2 & Hs3 & Hs4 & Hs5).
    injection Hst as <-. unfold due_calls, due_errors in *. rewrite Hv in H2.
    split; unfold due_calls, due_errors; simpl; rewrite ?app_nil_r, ?Hs1, ?Hs3, ?Hs4; try done; [by apply Hs5|by rewrite last_snoc].
Qed.

Lemma spawn_inv_step l s s' : spawn_inv s → spawn_step l s = Some s' → spawn_inv s'.
Proof.
  intros Hs Hst. destruct l as [v|ec|cb|cb|i|i]; [by eapply spawn_inv_complete|by eapply spawn_inv_fail|
    by eapply spawn_inv_on_complete|by eapply spawn_inv_on_error|..];
    destruct Hs as [H1 H2 H3 H4 H5 H6 H7 H8 H9]; simpl in Hst.
  - destruct (to_call s !! i) as [c|] eqn:Hi; [|done]. injection Hst as <-. split; try done. simpl.
    by rewrite (call_perm _ _ _ _ Hi).
  - destruct (to_call_error s !! i) as [c|] eqn:Hi; [|done]. injection Hst as <-. split; try done. simpl.
    by rewrite (call_perm _ _ _ _ Hi).
Qed.

Lemma spawn_reachable_inv s : spawn_reachable s → spawn_inv s.
Proof.
  apply reachable_inv; [|intros l s1 s2; apply spawn_inv_step].
  destruct sp_new_spec as (? & ? & ? & ? & ?). by split.
Qed.
End Machine.

(** C30. The callbacks of a spawned coroutine, whatever the order in which it
    completes and they are registered: before the completion none is called;
    then the last one registered before it gets the value, each one registered
    after it is called once with a copy of what is left, and no others are; so
    a single callback is called exactly once, with the value.  The same for
    errors, of which those with a zero code are not reported to late callbacks. *)
Theorem spawn_callbacks {S T C : Type} `{SL : SpawnLaws S T C} (s : spawn_sys) :
  spawn_reachable s →
  to_call s ++ called s ≡ₚ due_calls s ∧ to_call_error s ++ called_error s ≡ₚ due_errors s ∧
  (value s = None → to_call s ++ called s = []) ∧
  (∀ cb v, value s = Some v → early s ++ late s = [cb] → to_call s ++ called s ≡ₚ [(cb, Fresh v)]).
Proof.
  intros [H1 H2 _ _ _ _ _ H8 _]%spawn_reachable_inv. split_and!; [done..| |].
  - intros Hv. unfold due_calls in H1. rewrite Hv in H1. by apply Permutation_nil_r in H1.
  - intros cb v Hv Hcb. rewrite H1. unfold due_calls. rewrite Hv.
    destruct (early s) as [|cb' l]; simpl in *; [by rewrite Hcb|].
    injection Hcb as -> [-> ->]%app_eq_nil. done.
Qed.

(** Registered before, and after. *)
Lemma spawn_callbacks_witness :
  (∃ s, run (spawn_step (S := SpawnState Z nat)) [POnComplete 5%nat; PComplete 42; PCall 0] spawn_init = Some s ∧
     called s ++ to_call s = [(5%nat, Fresh 42)] ∧ to_call s ++ called s ≡ₚ due_calls s) ∧
  (∃ s, run (spawn_step (S := SpawnStateVoid nat)) [PComplete tt; POnComplete 5%nat; POnComplete 6%nat] spawn_init = Some s ∧
     called s ++ to_call s = [(5%nat, Fresh tt); (6%nat, Fresh tt)] ∧ to_call s ++ called s ≡ₚ due_calls s).
Proof.
  split; (eexists; split; [vm_compute; reflexivity|]; split; [reflexivity|]).
  - refine (proj1 (spawn_callbacks (S := SpawnState Z nat) _ _)). apply reachable_run.
    exists [POnComplete 5%nat; PComplete 42; PCall 0]. reflexivity.
  - refine (proj1 (spawn_callbacks (S := SpawnStateVoid nat) _ _)). apply reachable_run.
    exists [PComplete tt; POnComplete 5%nat; POnComplete 6%nat]. reflexivity.
Defined.

(** A callback registered after the value was given to an earlier one gets a
    moved-from object; two late ones both get the value. *)
Example spawn_second_callback_moved :
  snd <$> (to_call <$> run (spawn_step (S := SpawnState Z nat)) [POnComplete 5%nat; PComplete 42; POnComplete 6%nat] spawn_init)
    ≫= last = Some MovedFrom.
Proof. reflexivity. Qed.

(** ** Spawn *)

Section Spawning.
Context {E : Type} `{Executor E} {T C : Type}.

(** [Spawn(executor, task)]: the wrapper's frame is scheduled, the state is
    fresh. *)
Definition Spawn (x : nat) (wrapper : handle) (es : executors (E := E))
    : SpawnState T C * executors (E := E) :=
  (new_spawn, alter (ex_schedule wrapper) x es).
(** [Spawn(task)]: on the current executor, or failed. *)
Definition Spawn_current (cur : tls) (wrapper : handle) (es : executors (E := E))
    : SpawnState T C * executors (E := E) :=
  match GetCurrentExecutor cur with
  | None => ((Fail (make_error_code NoExecutor) new_spawn).1, es)
  | Some x => Spawn x wrapper es
  end.

(** Without an executor the handle reports it, to every OnError. *)
Lemma spawn_no_executor wrapper es (cb : C) :
  Spawn_current None wrapper es = ((Fail (make_error_code NoExecutor) new_spawn).1, es) ∧
  OnError cb (Spawn_current None wrapper es).1 = ((Spawn_current None wrapper es).1, [(cb, make_error_code NoExecutor)]).
Proof. by split. Qed.
End Spawning.
