(* ===== verification/SpawnedTask.v ===== *)
(** * Spawned coroutines ([core/spawn.hpp]: SpawnedTask, WrapForSpawn, Spawn)

    The frame that Spawn makes for a task: it points at the shared state, is
    scheduled on an executor, completes the state when it returns and then
    destroys itself, while the SpawnedTask object that Spawn used to set it up
    goes away without touching it.  First the object's operations on their own,
    then Spawn, called by any number of threads, with the executor resuming and
    the coroutines returning in between. *)
From S2P Require Import Prelude.

Section SpawnedTask.
Context {T : Type}.

Inductive sframe := FInitial (state : option nat) | FRunning (state : option nat) | FGone.
Record SpawnedTask := mkSpawned { handle_ : option handle }.

(** [queue]: what the executors have been given and not resumed yet;
    [completions]: the calls [state->Complete(value)]; [bad]: a frame was
    destroyed, resumed or read in a state in which that is undefined. *)
Record ssys := SSys {
  objects : gmap nat SpawnedTask;
  frames : gmap handle sframe;
  queue : list handle;
  completions : list (nat * T);
  destroyed : list handle;
  bad : bool;
}.
Definition sinit : ssys := SSys ∅ ∅ [] [] [] false.

Definition set_objects (f : gmap nat SpawnedTask → gmap nat SpawnedTask) (s : ssys) : ssys :=
  SSys (f (objects s)) (frames s) (queue s) (completions s) (destroyed s) (bad s).
Definition set_frame (h : handle) (f : sframe) (s : ssys) : ssys :=
  SSys (objects s) (<[h:=f]> (frames s)) (queue s) (completions s) (destroyed s) (bad s).
Definition mark_bad (b : bool) (s : ssys) : ssys :=
  SSys (objects s) (frames s) (queue s) (completions s) (destroyed s) (bad s || b).

(** [handle.done()] of a frame that is there; [None]: it is not. *)
Definition handle_done (h : handle) (s : ssys) : option bool :=
  match frames s !! h with Some (FInitial _) | Some (FRunning _) => Some false | _ => None end.
(** [handle.destroy()]: defined for a suspended coroutine; one that has started
    is resumed by what it waits for, so destroying it is counted as bad. *)
Definition destroy (h : handle) (s : ssys) : ssys :=
  let s' := SSys (objects s) (<[h:=FGone]> (frames s)) (queue s) (completions s) (destroyed s ++ [h]) (bad s) in
  mark_bad (match frames s !! h with Some (FInitial _) => false | _ => true end) s'.

(** WrapForSpawn. *)
Definition WrapForSpawn (x : nat) (h : handle) (s : ssys) : ssys :=
  set_objects <[x := mkSpawned (Some h)]> (set_frame h (FInitial None) s).
Definition move_ctor (other : SpawnedTask) : SpawnedTask * SpawnedTask := (mkSpawned (handle_ other), mkSpawned None).
(** Move assignment's release of the old frame. *)
Definition assign_release (this : SpawnedTask) (s : ssys) : ssys :=
  match handle_ this with
  | None => s
  | Some h =>
      match handle_done h s with
      | None => mark_bad true s
      | Some true => s
      | Some false => destroy h s
      end
  end.
Definition SetState (o : SpawnedTask) (state : nat) (s : ssys) : ssys :=
  match handle_ o with
  | None => s
  | Some h =>
      match frames s !! h with
      | Some (FInitial _) => set_frame h (FInitial (Some state)) s
      | Some (FRunning _) => set_frame h (FRunning (Some state)) s
      | _ => mark_bad true s
      end
  end.
Definition Schedule (o : SpawnedTask) (s : ssys) : ssys :=
  match handle_ o with
  | None => mark_bad true s
  | Some h => SSys (objects s) (frames s) (queue s ++ [h]) (completions s) (destroyed s) (bad s)
  end.
(** The executor resumes what it was given. *)
Definition resume (h : handle) (s : ssys) : ssys :=
  match frames s !! h with Some (FInitial st) => set_frame h (FRunning st) s | _ => mark_bad true s end.
(** [return_value], then the final suspension. *)
Definition return_value (state : option nat) (v : T) : list (nat * T) :=
  match state with Some i => [(i, v)] | None => [] end.
Definition final_suspend (h : handle) (state : option nat) (v : T) (s : ssys) : ssys :=
  SSys (objects s) (<[h:=FGone]> (frames s)) (queue s) (completions s ++ return_value state v) (destroyed s ++ [h]) (bad s).

Inductive slabel :=
  | SMake (x : nat) (h : handle)
  | SMove (x y : nat)                 (* SpawnedTask y(std::move(x)) *)
  | SAssign (x y : nat)               (* x = std::move(y) *)
  | SDtor (x : nat)
  | SSetState (x i : nat)
  | SSchedule (x : nat)
  | SResume (k : nat)                 (* the [k]-th in the executors' hands *)
  | SReturn (h : handle) (v : T).

Definition sstep (l : slabel) (s : ssys) : option ssys :=
  match l with
  | SMake x h =>
      match objects s !! x, frames s !! h with None, None => Some (WrapForSpawn x h s) | _, _ => None end
  | SMove x y =>
      match objects s !! x, objects s !! y with
      | Some o, None => let (n, o') := move_ctor o in Some (set_objects (λ m, <[y:=n]> (<[x:=o']> m)) s)
      | _, _ => None
      end
  | SAssign x y =>
      match objects s !! x, objects s !! y with
      | Some o1, Some o2 =>
          if decide (x = y) then Some s
          else Some (set_objects (λ m, <[x:=mkSpawned (handle_ o2)]> (<[y:=mkSpawned None]> m)) (assign_release o1 s))
      | _, _ => None
      end
  | SDtor x => match objects s !! x with Some _ => Some (set_objects (delete x) s) | None => None end
  | SSetState x i => o ← objects s !! x; Some (SetState o i s)
  | SSchedule x => o ← objects s !! x; Some (Schedule o s)
  | SResume k =>
      h ← queue s !! k;
      Some (resume h (SSys (objects s) (frames s) (delete k (queue s)) (completions s) (destroyed s) (bad s)))
  | SReturn h v => match frames s !! h with Some (FRunning st) => Some (final_suspend h st v s) | _ => None end
  end.

(** ** Spawn *)

(** The steps of one call, on the object [x], the frame [h] and the state [i]. *)
Definition Spawn_rest (x i : nat) : list slabel := [SSetState x i; SSchedule x; SDtor x].

(** [calls]: the calls in progress, by their local object, with what they have
    still to do; [spawned]: each frame's object and state; [returned]: what the
    coroutines returned. *)
Record client := Client {
  sys : ssys;
  calls : gmap nat (list slabel);
  spawned : gmap handle (nat * nat);
  returned : list (handle * T);
}.
Definition cinit : client := Client sinit ∅ ∅ [].

Inductive clabel :=
  | CSpawn (x : nat) (h : handle) (i : nat)     (* a call begins: make_shared and WrapForSpawn *)
  | CNext (x : nat)                             (* its next step *)
  | CResume (k : nat)
  | CReturn (h : handle) (v : T).

Definition fresh_state (i : nat) (m : gmap handle (nat * nat)) : bool :=
  bool_decide (map_Forall (λ _ p, p.2 ≠ i) m).

Definition cstep (l : clabel) (s : client) : option client :=
  match l with
  | CSpawn x h i =>
      match calls s !! x, spawned s !! h, fresh_state i (spawned s) with
      | None, None, true =>
          t ← sstep (SMake x h) (sys s);
          Some (Client t (<[x := Spawn_rest x i]> (calls s)) (<[h := (x, i)]> (spawned s)) (returned s))
      | _, _, _ => None
      end
  | CNext x =>
      match calls s !! x with
      | Some (l :: rest) =>
          t ← sstep l (sys s);
          Some (Client t (match rest with [] => delete x (calls s) | _ => <[x:=rest]> (calls s) end) (spawned s) (returned s))
      | _ => None
      end
  | CResume k => t ← sstep (SResume k) (sys s); Some (Client t (calls s) (spawned s) (returned s))
  | CReturn h v => t ← sstep (SReturn h v) (sys s); Some (Client t (calls s) (spawned s) (returned s ++ [(h, v)]))
  end.

(** A call that still holds the frame [h] in its local object [x]. *)
Definition setting (s : client) (h : handle) (x : nat) (ops : list slabel) : Prop :=
  objects (sys s) !! x = Some (mkSpawned (Some h)) ∧ calls s !! x = Some ops ∧ 2 ≤ length ops.

(** Where a spawned frame is in its life. *)
Definition stage (s : client) (h : handle) (x i : nat) : Prop :=
  match frames (sys s) !! h with
  | Some (FInitial None) => setting s h x (Spawn_rest x i) ∧ h ∉ queue (sys s)
  | Some (FInitial (Some j)) =>
      j = i ∧ (h ∈ queue (sys s) ∨ setting s h x [SSchedule x; SDtor x] ∧ h ∉ queue (sys s))
  | Some (FRunning st) => st = Some i ∧ h ∉ queue (sys s)
  | Some FGone => h ∉ queue (sys s)
  | None => False
  end.

Record client_inv (s : client) : Prop := {
  ci_bad : bad (sys s) = false;
  ci_queue : NoDup (queue (sys s));
  ci_queued h : h ∈ queue (sys s) → is_Some (spawned s !! h);
  ci_frames h : is_Some (frames (sys s) !! h) → is_Some (spawned s !! h);
  ci_stage h x i : spawned s !! h = Some (x, i) → stage s h x i;
  ci_states h h' x x' i : spawned s !! h = Some (x, i) → spawned s !! h' = Some (x', i) → h = h';
  ci_calls x ops : calls s !! x = Some ops →
    is_Some (objects (sys s) !! x) ∧
    (ops = [SDtor x] ∨ ∃ h i, spawned s !! h = Some (x, i) ∧ setting s h x ops ∧
       (frames (sys s) !! h = Some (FInitial None) ∨ frames (sys s) !! h = Some (FInitial (Some i)) ∧ h ∉ queue (sys s)));
  ci_destroyed : destroyed (sys s) = (returned s).*1;
  ci_once : NoDup (destroyed (sys s));
  ci_gone h : h ∈ destroyed (sys s) ↔ frames (sys s) !! h = Some FGone;
  ci_completed : Forall2 (λ c r, c.2 = r.2 ∧ ∃ x, spawned s !! r.1 = Some (x, c.1)) (completions (sys s)) (returned s);
}.

Lemma stage_keep s s' h x i :
  stage s h x i → frames (sys s') !! h = frames (sys s) !! h → (h ∈ queue (sys s') ↔ h ∈ queue (sys s)) →
  (∀ ops, setting s h x ops → setting s' h x ops) → stage s' h x i.
Proof.
  unfold stage. intros Hst -> Hq Hset. destruct (frames (sys s) !! h) as [[[j|]|st|]|]; [|naive_solver..].
  destruct Hst as [-> [Hin|[Hs Hn]]]; (split; [done|]); [left; by apply Hq|right; split; [by apply Hset|by rewrite Hq]].
Qed.

Lemma setting_unique s h h' x ops ops' : setting s h x ops → setting s h' x ops' → h = h' ∧ ops = ops'.
Proof. intros (H1 & H2 & _) (H3 & H4 & _). split; congruence. Qed.

Lemma client_inv_spawn s x h i :
  client_inv s → objects (sys s) !! x = None → frames (sys s) !! h = None → calls s !! x = None → spawned s !! h = None →
  (∀ h' x', spawned s !! h' ≠ Some (x', i)) →
  client_inv (Client (WrapForSpawn x h (sys s)) (<[x := Spawn_rest x i]> (calls s)) (<[h := (x, i)]> (spawned s)) (returned s)).
Proof.
  intros [H1 H2 H3 H4 H5 H6 H7 H8 H9 H10 H11] Hx Hf Hc Hs Hi.
  assert (h ∉ queue (sys s)) as Hq by (intros E; destruct (H3 h E); congruence).
  split; simpl; try done.
  - intros h' E. destruct (decide (h = h')) as [->|]; [by rewrite lookup_insert_eq|].
    rewrite lookup_insert_ne by done. by apply H3.
  - intros h'. destruct (decide (h = h')) as [->|]; [by rewrite !lookup_insert_eq|]. rewrite !lookup_insert_ne by done. apply H4.
  - intros h' x' i' [[<- [= <- <-]]|[Hne E]]%lookup_insert_Some.
    + unfold stage, setting; simpl. rewrite !lookup_insert_eq. split_and!; [done|done|simpl; lia|done].
    + apply (stage_keep s); simpl; [by apply H5|by rewrite lookup_insert_ne|done|].
      intros ops (Ho & Hl & Hn). unfold setting; simpl. rewrite !lookup_insert_ne; [done|congruence..].
  - intros h1 h2 x1 x2 j [[<- E1]|[_ E1]]%lookup_insert_Some [[<- E2]|[_ E2]]%lookup_insert_Some; try done.
    + injection E1 as <- <-. by destruct (Hi h2 x2).
    + injection E2 as <- <-. by destruct (Hi h1 x1).
    + by eapply H6.
  - intros x' ops [[<- <-]|[Hne E]]%lookup_insert_Some.
    + rewrite !lookup_insert_eq. split; [done|]. right. exists h, i. unfold setting; simpl. rewrite !lookup_insert_eq.
      split_and!; [done..|simpl; lia|by left].
    + rewrite lookup_insert_ne by done. destruct (H7 x' ops E) as [Ho [->|(h' & i' & E' & (Hs1 & Hs2 & Hs3) & Hs4)]]; (split; [done|]); [by left|].
      right. exists h', i'. assert (h ≠ h') by congruence. unfold setting; simpl. rewrite !lookup_insert_ne by done. by split_and!.
  - intros h'. destruct (decide (h = h')) as [->|]; [|by rewrite lookup_insert_ne; auto].
    rewrite lookup_insert_eq, H10, Hf. done.
  - eapply Forall2_impl; [exact H11|]. simpl. intros c r (E & y & Ey). split; [done|]. exists y.
    rewrite lookup_insert_ne; [done|congruence].
Qed.

Lemma client_inv_dtor s x :
  client_inv s → calls s !! x = Some [SDtor x] →
  client_inv (Client (set_objects (delete x) (sys s)) (delete x (calls s)) (spawned s) (returned s)).
Proof.
  intros [H1 H2 H3 H4 H5 H6 H7 H8 H9 H10 H11] Hc. split; simpl; try done.
  - intros h x' i E. apply (stage_keep s); [by apply H5|done|done|].
    intros ops (Ho & Hl & Hn). assert (x ≠ x') by (intros <-; rewrite Hc in Hl; injection Hl as <-; simpl in Hn; lia).
    unfold setting; simpl. by rewrite !lookup_delete_ne.
  - intros x' ops [Hne E]%lookup_delete_Some. rewrite lookup_delete_ne by done.
    destruct (H7 x' ops E) as [Ho [->|(h & i & E' & (Hs1 & Hs2 & Hs3) & Hs4)]]; (split; [done|]); [by left|].
    right. exists h, i. unfold setting; simpl. rewrite !lookup_delete_ne by done. by split_and!.
Qed.

(** The frame [h] of the call [x] moves on, and the call with it. *)
Lemma client_inv_advance s x h i ops rest f q :
  client_inv s → spawned s !! h = Some (x, i) → setting s h x ops →
  h ∉ queue (sys s) → h ∉ destroyed (sys s) →
  (q = queue (sys s) ∧ f = FInitial (Some i) ∧ rest = [SSchedule x; SDtor x] ∨
   q = queue (sys s) ++ [h] ∧ f = FInitial (Some i) ∧ rest = [SDtor x]) →
  client_inv (Client (SSys (objects (sys s)) (<[h := f]> (frames (sys s))) q (completions (sys s)) (destroyed (sys s)) (bad (sys s)))
          (<[x := rest]> (calls s)) (spawned s) (returned s)).
Proof.
  intros [H1 H2 H3 H4 H5 H6 H7 H8 H9 H10 H11] Hsp Hset Hq Hd Hcase.
  assert (∀ h', h' ≠ h → (h' ∈ q ↔ h' ∈ queue (sys s))) as Hq'.
  { intros h' Hne. destruct Hcase as [[-> _]|[-> _]]; [done|]. set_solver. }
  split; simpl; try done.
  - destruct Hcase as [[-> _]|[-> _]]; [done|]. apply NoDup_app. split_and!; [done|set_solver|apply NoDup_singleton].
  - intros h' E. destruct (decide (h' = h)) as [->|]; [by eexists|]. by apply H3, Hq'.
  - intros h' E. destruct (decide (h' = h)) as [->|]; [by eexists|]. apply H4. by rewrite lookup_insert_ne in E.
  - intros h' x' i' E. destruct (decide (h' = h)) as [->|Hne].
    + rewrite Hsp in E. injection E as <- <-. unfold stage; simpl. rewrite lookup_insert_eq.
      destruct Hset as (Ho & Hl & _).
      destruct Hcase as [(-> & -> & ->)|(-> & -> & ->)]; (split; [done|]); [|left; set_solver].
      right. split; [|done]. unfold setting; simpl. rewrite lookup_insert_eq. by split_and!.
    + apply (stage_keep s); simpl; [by apply H5|by rewrite lookup_insert_ne|by apply Hq'|].
      intros ops' Hset'. destruct (decide (x = x')) as [<-|Hx]; [by destruct (setting_unique _ _ _ _ _ _ Hset Hset')|].
      destruct Hset' as (Ho' & Hl' & Hn'). unfold setting; simpl. by rewrite lookup_insert_ne.
  - intros x' ops' [[<- <-]|[Hx E]]%lookup_insert_Some.
    + destruct Hset as (Ho & Hl & _). split; [by eexists|].
      destruct Hcase as [(-> & -> & ->)|(-> & -> & ->)]; [right|by left]. exists h, i. unfold setting; simpl.
      rewrite !lookup_insert_eq. split_and!; try done. by right.
    + destruct (H7 x' ops' E) as [Ho [->|(h' & i' & E' & (Hs1 & Hs2 & Hs3) & Hs4)]]; (split; [done|]); [by left|].
      right. exists h', i'. assert (h' ≠ h) by congruence. unfold setting; simpl. rewrite !lookup_insert_ne by done.
      rewrite Hq' by done. by split_and!.
  - intros h'. rewrite H10. destruct (decide (h' = h)) as [->|]; [|by rewrite lookup_insert_ne].
    rewrite lookup_insert_eq. rewrite H10 in Hd. by destruct Hcase as [(_ & -> & _)|(_ & -> & _)]; split.
Qed.

(** The executor takes a frame and runs it, or its coroutine ends. *)
Lemma client_inv_run s h x i f q cs ds rs :
  client_inv s → spawned s !! h = Some (x, i) →
  (f = FRunning (Some i) ∧ h ∈ queue (sys s) ∧ cs = [] ∧ ds = [] ∧ rs = [] ∨
   ∃ v, f = FGone ∧ frames (sys s) !! h = Some (FRunning (Some i)) ∧ cs = [(i, v)] ∧ ds = [h] ∧ rs = [(h, v)]) →
  NoDup q → h ∉ q → (∀ h', h' ≠ h → (h' ∈ q ↔ h' ∈ queue (sys s))) → (h ∉ destroyed (sys s)) →
  client_inv (Client (SSys (objects (sys s)) (<[h := f]> (frames (sys s))) q (completions (sys s) ++ cs) (destroyed (sys s) ++ ds) (bad (sys s)))
          (calls s) (spawned s) (returned s ++ rs)).
Proof.
  intros [H1 H2 H3 H4 H5 H6 H7 H8 H9 H10 H11] Hsp Hcase Hnd Hnq Hq Hd.
  assert (∀ h', h' ∈ q → h' ≠ h) as Hqh by (intros h' E ->; done).
  split; simpl; try done.
  - intros h' E. apply H3, Hq; auto.
  - intros h' E. destruct (decide (h' = h)) as [->|]; [by eexists|]. apply H4. by rewrite lookup_insert_ne in E.
  - intros h' x' i' E. destruct (decide (h' = h)) as [->|Hne].
    + rewrite Hsp in E. injection E as <- <-. unfold stage; simpl. rewrite lookup_insert_eq.
      by destruct Hcase as [(-> & _)|(v & -> & _)].
    + apply (stage_keep s); simpl; [by apply H5|by rewrite lookup_insert_ne|by apply Hq|done].
  - intros x' ops E. destruct (H7 x' ops E) as [Ho [->|(h' & i' & E' & Hs & Hs4)]]; (split; [done|]); [by left|].
    right. exists h', i'. assert (h' ≠ h) as Hne.
    { intros ->. destruct Hcase as [(_ & Hin & _)|(v & _ & Hrun & _)]; [|naive_solver].
      pose proof (H5 h x' i' E') as Hst. unfold stage in Hst. destruct Hs4 as [Hf|[_ Hf]]; [|done]. rewrite Hf in Hst. by destruct Hst. }
    split_and!; [done|done|]. rewrite lookup_insert_ne by done. by rewrite Hq.
  - rewrite fmap_app, <- H8. by destruct Hcase as [(_ & _ & -> & -> & ->)|(v & _ & _ & -> & -> & ->)].
  - apply NoDup_app. split_and!; [done| |]; destruct Hcase as [(_ & _ & _ & -> & _)|(v & _ & _ & _ & -> & _)];
      [set_solver|set_solver|apply NoDup_nil; done|apply NoDup_singleton].
  - intros h'. rewrite elem_of_app, H10. destruct (decide (h' = h)) as [->|Hne].
    + rewrite lookup_insert_eq. rewrite H10 in Hd.
      destruct Hcase as [(-> & _ & _ & -> & _)|(v & -> & _ & _ & -> & _)]; set_solver.
    + rewrite lookup_insert_ne by done. destruct Hcase as [(_ & _ & _ & -> & _)|(v & _ & _ & _ & -> & _)]; set_solver.
  - apply Forall2_app; [done|]. destruct Hcase as [(_ & _ & -> & _ & ->)|(v & _ & _ & -> & _ & ->)]; [done|].
    constructor; [|done]. simpl. split; [done|by exists x].
Qed.

Lemma client_inv_step l s s' : client_inv s → cstep l s = Some s' → client_inv s'.
Proof.
  intros Hs Hst. pose proof Hs as [H1 H2 H3 H4 H5 H6 H7 H8 H9 H10 H11].
  destruct l as [x h i|x|k|h v]; simpl in Hst.
  - destruct (calls s !! x) eqn:Hc; [done|]. destruct (spawned s !! h) eqn:Hsp; [done|].
    destruct (fresh_state i (spawned s)) eqn:Hi; [|done]. destruct (objects (sys s) !! x) eqn:Ho; [done|].
    destruct (frames (sys s) !! h) eqn:Hf; [done|]. injection Hst as <-. apply client_inv_spawn; try done.
    apply bool_decide_eq_true in Hi. intros h' x' E. by apply (Hi h' (x', i)).
  - destruct (calls s !! x) as [ops|] eqn:Hc; [|done].
    destruct (H7 x ops Hc) as [[o Ho] [->|(h & i & Hsp & Hset & Hf)]].
    { simpl in Hst. rewrite Ho in Hst. injection Hst as <-. by apply client_inv_dtor. }
    pose proof Hset as (Ho' & _ & _). pose proof (H5 h x i Hsp) as Hstg. unfold stage in Hstg.
    assert (h ∉ destroyed (sys s)) as Hd by (rewrite H10; naive_solver).
    destruct Hf as [Hf|[Hf Hnq]]; rewrite Hf in Hstg.
    + destruct Hstg as [Hset' Hnq]. destruct (setting_unique _ _ _ _ _ _ Hset Hset') as [_ ->]. simpl in Hst.
      rewrite Ho' in Hst. simpl in Hst. unfold SetState in Hst. simpl in Hst. rewrite Hf in Hst. injection Hst as <-.
      eapply client_inv_advance; try done. by left.
    + destruct Hstg as [_ [?|[Hset' _]]]; [done|]. destruct (setting_unique _ _ _ _ _ _ Hset Hset') as [_ ->]. simpl in Hst.
      rewrite Ho' in Hst. simpl in Hst. injection Hst as <-. unfold Schedule. simpl.
      rewrite <- (insert_id _ _ _ Hf).
      eapply client_inv_advance; try done. by right.
  - destruct (queue (sys s) !! k) as [h|] eqn:Hk; [|done]. simpl in Hst.
    assert (h ∈ queue (sys s)) as Hin by by eapply list_elem_of_lookup_2.
    destruct (H3 h Hin) as [[x i] Hsp]. pose proof (H5 h x i Hsp) as Hstg. unfold stage in Hstg.
    destruct (frames (sys s) !! h) as [[[j|]|st|]|] eqn:Hf; [|by destruct Hstg..|done].
    destruct Hstg as [-> _]. unfold resume in Hst. simpl in Hst. rewrite Hf in Hst. injection Hst as <-.
    assert (queue (sys s) ≡ₚ h :: delete k (queue (sys s))) as Hp by by apply delete_Permutation.
    pose proof H2 as Hnd. rewrite Hp in Hnd. apply NoDup_cons in Hnd as [Hn Hnd].
    pose proof (client_inv_run s h x i (FRunning (Some i)) (delete k (queue (sys s))) [] [] []) as Hr. rewrite !app_nil_r in Hr.
    apply Hr; try done; [by left|intros h' Hne; rewrite Hp at 2; set_solver|rewrite H10; congruence].
  - destruct (frames (sys s) !! h) as [[|st|]|] eqn:Hf; try done. simpl in Hst. injection Hst as <-.
    destruct (H4 h) as [[x i] Hsp]; [by rewrite Hf|]. pose proof (H5 h x i Hsp) as Hstg. unfold stage in Hstg.
    rewrite Hf in Hstg. destruct Hstg as [-> Hnq]. unfold final_suspend, return_value.
    apply (client_inv_run s h x i FGone); try done; [|rewrite H10; congruence]. right. by exists v.
Qed.
End SpawnedTask.

(** C31. Spawning, from any number of threads, with the executors resuming what
    they were given and the coroutines returning in any order: no frame is
    destroyed, resumed or read when that is undefined; a frame is destroyed
    exactly when its coroutine has returned, once; what the coroutine returned
    has then completed the state of its own Spawn call, and no state is ever
    completed twice.  When no call is in progress, the executors hold nothing
    and no coroutine is running, every frame is gone: none leaks. *)
Theorem spawned_tasks_once {T : Type} (s : client (T := T)) :
  reachable cstep cinit s →
  bad (sys s) = false ∧ NoDup (destroyed (sys s)) ∧ destroyed (sys s) = (returned s).*1 ∧
  (∀ h, h ∈ destroyed (sys s) ↔ frames (sys s) !! h = Some FGone) ∧
  Forall2 (λ c r, c.2 = r.2 ∧ ∃ x, spawned s !! r.1 = Some (x, c.1)) (completions (sys s)) (returned s) ∧
  NoDup (completions (sys s)).*1 ∧
  (calls s = ∅ → queue (sys s) = [] → (∀ h st, frames (sys s) !! h ≠ Some (FRunning st)) →
   ∀ h, is_Some (spawned s !! h) → h ∈ destroyed (sys s)).
Proof.
  intros Hr. assert (client_inv s) as [H1 H2 H3 H4 H5 H6 H7 H8 H9 H10 H11].
  { refine (reachable_inv cstep client_inv _ s _ client_inv_step Hr).
    split; simpl; try done; try apply NoDup_nil_2; try (intros h; rewrite lookup_empty); try (by intros ? ?); try by intros [? ?].
    - by intros ?%not_elem_of_nil.
    - split; [by intros ?%not_elem_of_nil|done]. }
  split_and!; [done..| |].
  - rewrite H8 in H9. clear -H6 H9 H11. induction H11 as [|c r cs rs (E & x & Ex) HF IH]; simpl; [apply NoDup_nil_2|].
    simpl in H9. apply NoDup_cons in H9 as [Hn Hnd]. apply NoDup_cons. split; [|by apply IH].
    intros (c' & Ec & Hin)%list_elem_of_fmap. apply list_elem_of_lookup_1 in Hin as [k Hk].
    destruct (Forall2_lookup_l _ _ _ _ _ HF Hk) as (r' & Hk' & _ & x' & Ex'). apply Hn.
    rewrite (H6 r.1 r'.1 x x' c.1) by (try done; by rewrite Ec). apply list_elem_of_fmap_2.
    by eapply list_elem_of_lookup_2.
  - intros Hc Hq Hf h [[x i] Hsp]. pose proof (H5 h x i Hsp) as Hst. unfold stage in Hst. apply H10.
    destruct (frames (sys s) !! h) as [[[j|]|st|]|] eqn:E; [..|done|done].
    + rewrite Hq in Hst. destruct Hst as [_ [?%not_elem_of_nil|[(_ & Hl & _) _]]]; [done|]. by rewrite Hc, lookup_empty in Hl.
    + destruct Hst as [(_ & Hl & _) _]. by rewrite Hc, lookup_empty in Hl.
    + by destruct (Hf h st).
Qed.

(** Two threads spawn; the first coroutine ends while the second call has not
    yet scheduled its frame. *)
Definition spawned_demo : list (clabel (T := Z)) :=
  [CSpawn 0 10 100; CNext 0; CSpawn 1 11 101; CNext 0; CResume 0; CNext 1; CReturn 10 7%Z; CNext 0; CNext 1; CResume 0;
   CNext 1; CReturn 11 8%Z].
Lemma spawned_tasks_once_witness :
  ∃ s, run cstep spawned_demo cinit = Some s ∧ completions (sys s) = [(100, 7%Z); (101, 8%Z)] ∧
    calls s = ∅ ∧ queue (sys s) = [] ∧ (bad (sys s) = false ∧ NoDup (destroyed (sys s))) ∧ NoDup (completions (sys s)).*1.
Proof.
  eexists. split; [vm_compute; reflexivity|]. do 3 (split; [vm_compute; reflexivity|]).
  match goal with |- context [bad (sys ?s)] =>
    assert (reachable cstep cinit s) as Hr by (apply reachable_run; exists spawned_demo; vm_compute; reflexivity);
    destruct (spawned_tasks_once s Hr) as (Hb & Hd & _ & _ & _ & Hc & _) end.
  by split_and!.
Defined.

(** Assigning over a SpawnedTask whose coroutine has returned asks a destroyed
    frame whether it is done. *)
Example spawned_assign_after_end :
  bad <$> run (sstep (T := Z)) [SMake 0 10; SSchedule 0; SResume 0; SReturn 10 7%Z; SMake 1 11; SAssign 0 1] sinit = Some true.
Proof. reflexivity. Qed.

(** A SpawnedTask that is never scheduled leaks its frame: the destructor does
    nothing, and only move assignment destroys one. *)
Example spawned_unscheduled_leaks :
  (λ s, (objects s, frames s !! 10, destroyed s)) <$> run (sstep (T := Z)) [SMake 0 10; SDtor 0] sinit =
    Some (∅, Some (FInitial None), []) ∧
  destroyed <$> run (sstep (T := Z)) [SMake 0 10; SMake 1 11; SAssign 0 1] sinit = Some [10].
Proof. split; reflexivity. Qed.
