(* ===== verification/Detached.v ===== *)
(** * DetachedTask ([core/detached_task.hpp])

    Frames that destroy themselves when their coroutine ends, and the movable
    objects that point at them.  An object destroys its frame only while it
    has not started it.  Any sequence of constructions, moves, assignments,
    starts, completions and destructions is run; [bad] records what no program
    may do: destroying a frame that is running or gone, resuming one that is
    not suspended at its start, or touching the promise of a destroyed one. *)
From S2P Require Import Prelude.

Inductive frame := FInitial (callback : option nat) | FRunning (callback : option nat) | FGone.

Record DetachedTask := mkDetached { handle_ : option handle; started_ : bool }.

Record dsys := DSys {
  objects : gmap nat DetachedTask;
  frames : gmap handle frame;
  destroyed : list handle;
  invoked : list nat;               (* completion callbacks, in order *)
  bad : bool;
}.
Definition dinit : dsys := DSys ∅ ∅ [] [] false.

Definition set_object (x : nat) (o : DetachedTask) (s : dsys) : dsys :=
  DSys (<[x:=o]> (objects s)) (frames s) (destroyed s) (invoked s) (bad s).
Definition set_frame (h : handle) (f : frame) (s : dsys) : dsys :=
  DSys (objects s) (<[h:=f]> (frames s)) (destroyed s) (invoked s) (bad s).
Definition mark_bad (s : dsys) : dsys := DSys (objects s) (frames s) (destroyed s) (invoked s) true.

(** [handle_.destroy()]. *)
Definition destroy (h : handle) (s : dsys) : dsys :=
  let s' := DSys (objects s) (<[h:=FGone]> (frames s)) (destroyed s ++ [h]) (invoked s) (bad s) in
  match frames s !! h with Some (FInitial _) => s' | _ => mark_bad s' end.
(** [handle_.resume()] of a coroutine suspended at its start. *)
Definition resume (h : handle) (s : dsys) : dsys :=
  match frames s !! h with
  | Some (FInitial cb) => set_frame h (FRunning cb) s
  | _ => mark_bad s
  end.

Definition new_detached (h : handle) : DetachedTask := mkDetached (Some h) false.
(** The move constructor: [started_] has its default. *)
Definition move_ctor (other : DetachedTask) : DetachedTask * DetachedTask :=
  (mkDetached (handle_ other) false, mkDetached None (started_ other)).
(** [if (handle_ && !started_) handle_.destroy()]. *)
Definition release (o : DetachedTask) (s : dsys) : dsys :=
  match handle_ o with
  | Some h => if started_ o then s else destroy h s
  | None => s
  end.
Definition Start (x : nat) (o : DetachedTask) (s : dsys) : dsys :=
  match handle_ o with
  | Some h => resume h (set_object x (mkDetached (Some h) true) s)
  | None => s
  end.
Definition SetCallback (o : DetachedTask) (cb : nat) (s : dsys) : dsys :=
  match handle_ o with
  | Some h =>
      match frames s !! h with
      | Some (FInitial _) => set_frame h (FInitial (Some cb)) s
      | Some (FRunning _) => set_frame h (FRunning (Some cb)) s
      | _ => mark_bad s
      end
  | None => s
  end.
(** [FinalAwaiter::await_suspend]: the callback, then [h.destroy()]. *)
Definition final_suspend (h : handle) (callback : option nat) (s : dsys) : dsys :=
  DSys (objects s) (<[h:=FGone]> (frames s)) (destroyed s ++ [h]) (invoked s ++ option_list callback) (bad s).

Inductive dlabel :=
  | DMake (x : nat) (h : handle)
  | DMove (x y : nat)                 (* DetachedTask y(std::move(x)) *)
  | DAssign (x y : nat)               (* x = std::move(y) *)
  | DDtor (x : nat)
  | DSetCallback (x : nat) (cb : nat)
  | DStart (x : nat)
  | DResume (x : nat)                 (* x.GetHandle().resume() *)
  | DFinish (h : handle).

Definition dstep (l : dlabel) (s : dsys) : option dsys :=
  match l with
  | DMake x h =>
      match objects s !! x, frames s !! h with
      | None, None => Some (set_object x (new_detached h) (set_frame h (FInitial None) s))
      | _, _ => None
      end
  | DMove x y =>
      match objects s !! x, objects s !! y with
      | Some o, None => let '(n, o') := move_ctor o in Some (set_object y n (set_object x o' s))
      | _, _ => None
      end
  | DAssign x y =>
      match objects s !! x, objects s !! y with
      | Some o1, Some o2 =>
          if decide (x = y) then Some s
          else Some (set_object x o2 (set_object y (mkDetached None (started_ o2)) (release o1 s)))
      | _, _ => None
      end
  | DDtor x =>
      o ← objects s !! x;
      let s' := release o s in
      Some (DSys (delete x (objects s')) (frames s') (destroyed s') (invoked s') (bad s'))
  | DSetCallback x cb => o ← objects s !! x; Some (SetCallback o cb s)
  | DStart x => o ← objects s !! x; Some (Start x o s)
  | DResume x => o ← objects s !! x; h ← handle_ o; Some (resume h s)
  | DFinish h => match frames s !! h with Some (FRunning cb) => Some (final_suspend h cb s) | _ => None end
  end.

(** The discipline of the callers in the library: an object is started with
    Start, once, and neither moved into a new object nor given a callback
    afterwards. *)
Definition unstarted (s : dsys) (x : nat) : bool :=
  match objects s !! x with
  | Some (mkDetached (Some _) true) => false
  | _ => true
  end.
Definition disciplined (l : dlabel) (s : dsys) : bool :=
  match l with DMove x _ | DStart x | DSetCallback x _ => unstarted s x | DResume _ => false | _ => true end.
Definition ddstep (l : dlabel) (s : dsys) : option dsys := if disciplined l s then dstep l s else None.

Definition is_initial (f : option frame) : Prop := ∃ cb, f = Some (FInitial cb).
Definition was_started (f : option frame) : Prop := (∃ cb, f = Some (FRunning cb)) ∨ f = Some FGone.

Record dinv (s : dsys) : Prop := {
  di_bad : bad s = false;
  di_initial : ∀ x h, objects s !! x = Some (mkDetached (Some h) false) → is_initial (frames s !! h);
  di_started : ∀ x h, objects s !! x = Some (mkDetached (Some h) true) → was_started (frames s !! h);
  di_unique : ∀ x y h, objects s !! x = Some (mkDetached (Some h) false) →
    objects s !! y = Some (mkDetached (Some h) false) → x = y;
  di_owned : ∀ h, is_initial (frames s !! h) → ∃ x, objects s !! x = Some (mkDetached (Some h) false);
  di_once : NoDup (destroyed s);
  di_gone : ∀ h, h ∈ destroyed s ↔ frames s !! h = Some FGone;
}.

Definition drop_object (x : nat) (s : dsys) : dsys :=
  DSys (delete x (objects s)) (frames s) (destroyed s) (invoked s) (bad s).

Lemma initial_not_started f : is_initial f → was_started f → False.
Proof. intros [cb ->] [[? ?]|?]; discriminate. Qed.

(** An object that points at no frame, or at one it has started, is of no
    consequence. *)
Lemma dinv_drop_inert s x o :
  dinv s → objects s !! x = Some o → (∀ h, o ≠ mkDetached (Some h) false) → dinv (drop_object x s).
Proof.
  intros [H1 H2 H3 H4 H5 H6 H7] Hx Ho. split; simpl; try done.
  - intros y h [? Hy]%lookup_delete_Some. eauto.
  - intros y h [? Hy]%lookup_delete_Some. eauto.
  - intros y z h [? Hy]%lookup_delete_Some [? Hz]%lookup_delete_Some. eauto.
  - intros h Hi. destruct (H5 h Hi) as [y Hy]. exists y. apply lookup_delete_Some. split; [|done].
    intros <-. rewrite Hx in Hy. injection Hy as ->. by apply (Ho h).
Qed.

(** The only unstarted owner of a frame goes, and the frame with it. *)
Lemma dinv_release s x o : dinv s → objects s !! x = Some o → dinv (drop_object x (release o s)).
Proof.
  intros Hs Hx. destruct o as [[h|] []]; simpl; [by eapply dinv_drop_inert| |by eapply dinv_drop_inert..].
  destruct Hs as [H1 H2 H3 H4 H5 H6 H7]. pose proof (H2 x h Hx) as Hi. unfold release. simpl.
  unfold destroy. destruct Hi as [cb Hi]. rewrite Hi.
  assert (h ∉ destroyed s) as Hn by (rewrite H7, Hi; discriminate).
  split; simpl; try done.
  - intros y h' [? Hy]%lookup_delete_Some. destruct (decide (h' = h)) as [->|]; [by destruct (H4 x y h)|].
    rewrite lookup_insert_ne by done. eauto.
  - intros y h' [? Hy]%lookup_delete_Some. destruct (decide (h' = h)) as [->|].
    + right. apply lookup_insert_eq.
    + rewrite lookup_insert_ne by done. eauto.
  - intros y z h' [? Hy]%lookup_delete_Some [? Hz]%lookup_delete_Some. eauto.
  - intros h' Hi'. destruct (decide (h' = h)) as [->|].
    { rewrite lookup_insert_eq in Hi'. by destruct Hi'. }
    rewrite lookup_insert_ne in Hi' by done. destruct (H5 h' Hi') as [y Hy]. exists y.
    apply lookup_delete_Some. split; [|done]. congruence.
  - apply NoDup_app. split_and!; [done|set_solver|apply NoDup_singleton].
  - intros h'. rewrite elem_of_app, list_elem_of_singleton, H7.
    destruct (decide (h' = h)) as [->|]; [rewrite lookup_insert_eq|rewrite lookup_insert_ne by done]; naive_solver.
Qed.

(** A handle moves to a new object. *)
Lemma dinv_transfer s x y o n b :
  dinv s → objects s !! x = None → objects s !! y = Some o →
  handle_ n = handle_ o → (handle_ o = None ∨ started_ n = started_ o) →
  dinv (set_object x n (set_object y (mkDetached None b) s)).
Proof.
  intros [H1 H2 H3 H4 H5 H6 H7] Hx Hy Hh Hst.
  assert (∀ z h c, <[x:=n]> (<[y:=mkDetached None b]> (objects s)) !! z = Some (mkDetached (Some h) c) ↔
    (z = x ∧ o = mkDetached (Some h) c) ∨ (z ≠ x ∧ z ≠ y ∧ objects s !! z = Some (mkDetached (Some h) c))) as Hobj.
  { intros z h c. destruct n as [hn sn], o as [ho so]. simpl in *. subst hn.
    rewrite !lookup_insert_Some. destruct Hst as [->| ->]; naive_solver. }
  split; simpl; try done.
  - intros z h [[-> ->]|(? & ? & ?)]%Hobj; eauto.
  - intros z h [[-> ->]|(? & ? & ?)]%Hobj; eauto.
  - intros z z' h [[-> ->]|(? & ? & ?)]%Hobj [[-> ?]|(? & ? & ?)]%Hobj; try done.
    + by destruct (H4 y z' h).
    + subst o. by destruct (H4 z y h).
    + eauto.
  - intros h Hi. destruct (H5 h Hi) as [z Hz]. destruct (decide (z = y)) as [->|].
    + exists x. apply Hobj. left. split; [done|]. congruence.
    + exists z. apply Hobj. right. split_and!; [congruence|done|done].
Qed.

(** A frame whose owners are left alone changes its callback or finishes. *)
Lemma dinv_set_callback s h cb cb' :
  dinv s → frames s !! h = Some (FInitial cb) → dinv (set_frame h (FInitial cb') s).
Proof.
  intros [H1 H2 H3 H4 H5 H6 H7] Hf.
  assert (∀ h', is_initial (<[h:=FInitial cb']> (frames s) !! h') ↔ is_initial (frames s !! h')) as Hi.
  { intros h'. destruct (decide (h' = h)) as [->|]; [|by rewrite lookup_insert_ne].
    rewrite lookup_insert_eq, Hf. unfold is_initial. naive_solver. }
  assert (∀ h' f, (f = FGone ∨ ∃ c, f = FRunning c) → <[h:=FInitial cb']> (frames s) !! h' = Some f ↔ frames s !! h' = Some f) as Hg.
  { intros h' f Hgf. destruct (decide (h' = h)) as [->|]; [|by rewrite lookup_insert_ne].
    rewrite lookup_insert_eq, Hf. naive_solver. }
  split; simpl; try done.
  - intros x h' Hx. apply Hi. eauto.
  - intros x h' Hx. destruct (H3 x h' Hx) as [[c Hc]|Hc].
    + left. exists c. apply Hg; [by right; exists c|done].
    + right. apply Hg; [by left|done].
  - intros h' Hh. apply H5, Hi, Hh.
  - intros h'. rewrite Hg; [apply H7|by left].
Qed.

Lemma dinv_start s x h cb :
  dinv s → objects s !! x = Some (mkDetached (Some h) false) → frames s !! h = Some (FInitial cb) →
  dinv (set_frame h (FRunning cb) (set_object x (mkDetached (Some h) true) s)).
Proof.
  intros [H1 H2 H3 H4 H5 H6 H7] Hx Hf. split; simpl; try done.
  - intros y h' [[? ?]|[? Hy]]%lookup_insert_Some; [done|].
    destruct (decide (h' = h)) as [->|]; [by destruct (H4 x y h)|]. rewrite lookup_insert_ne by done. eauto.
  - intros y h' [[? [= ->]]|[? Hy]]%lookup_insert_Some.
    + left. exists cb. apply lookup_insert_eq.
    + destruct (decide (h' = h)) as [->|]; [left; exists cb; apply lookup_insert_eq|].
      rewrite lookup_insert_ne by done. eauto.
  - intros y z h' [[? ?]|[? Hy]]%lookup_insert_Some [[? ?]|[? Hz]]%lookup_insert_Some; try done. eauto.
  - intros h' Hi. destruct (decide (h' = h)) as [->|].
    { rewrite lookup_insert_eq in Hi. by destruct Hi. }
    rewrite lookup_insert_ne in Hi by done. destruct (H5 h' Hi) as [y Hy]. exists y.
    rewrite lookup_insert_ne; [done|]. congruence.
  - intros h'. rewrite H7. destruct (decide (h' = h)) as [->|]; [rewrite lookup_insert_eq, Hf|rewrite lookup_insert_ne by done]; naive_solver.
Qed.

Lemma dinv_finish s h cb :
  dinv s → frames s !! h = Some (FRunning cb) → dinv (final_suspend h cb s).
Proof.
  intros [H1 H2 H3 H4 H5 H6 H7] Hf.
  assert (h ∉ destroyed s) as Hn by (rewrite H7, Hf; discriminate).
  split; simpl; try done.
  - intros x h' Hx. destruct (decide (h' = h)) as [->|]; [|rewrite lookup_insert_ne by done; eauto].
    destruct (H2 x h Hx) as [? ?]. congruence.
  - intros x h' Hx. destruct (decide (h' = h)) as [->|]; [right; apply lookup_insert_eq|].
    rewrite lookup_insert_ne by done. eauto.
  - intros h' Hi. destruct (decide (h' = h)) as [->|]; [rewrite lookup_insert_eq in Hi; by destruct Hi|].
    rewrite lookup_insert_ne in Hi by done. eauto.
  - apply NoDup_app. split_and!; [done|set_solver|apply NoDup_singleton].
  - intros h'. rewrite elem_of_app, list_elem_of_singleton, H7.
    destruct (decide (h' = h)) as [->|]; [rewrite lookup_insert_eq|rewrite lookup_insert_ne by done]; naive_solver.
Qed.

Lemma dinv_make s x h :
  dinv s → objects s !! x = None → frames s !! h = None →
  dinv (set_object x (new_detached h) (set_frame h (FInitial None) s)).
Proof.
  intros [H1 H2 H3 H4 H5 H6 H7] Hx Hf. split; simpl; try done.
  - intros y h' [[? [= <-]]|[? Hy]]%lookup_insert_Some; [exists None; apply lookup_insert_eq|].
    rewrite lookup_insert_ne; [eauto|]. intros <-. destruct (H2 y h Hy) as [? ?]. congruence.
  - intros y h' [[? ?]|[? Hy]]%lookup_insert_Some; [done|].
    rewrite lookup_insert_ne; [eauto|]. intros <-. destruct (H3 y h Hy) as [[? ?]|?]; congruence.
  - intros y z h' [[? [= Hy]]|[? Hy]]%lookup_insert_Some [[? [= Hz]]|[? Hz]]%lookup_insert_Some; subst; try done.
    + destruct (H2 z h' Hz) as [? ?]. congruence.
    + destruct (H2 y h' Hy) as [? ?]. congruence.
    + eauto.
  - intros h' Hi. destruct (decide (h' = h)) as [->|]; [exists x; apply lookup_insert_eq|].
    rewrite lookup_insert_ne in Hi by done. destruct (H5 h' Hi) as [y Hy]. exists y.
    rewrite lookup_insert_ne; [done|]. congruence.
  - intros h'. rewrite H7. destruct (decide (h' = h)) as [->|]; [rewrite lookup_insert_eq, Hf|rewrite lookup_insert_ne by done]; naive_solver.
Qed.

Lemma dinv_step l s s' : dinv s → ddstep l s = Some s' → dinv s'.
Proof.
  intros Hs Hst. unfold ddstep in Hst. destruct (disciplined l s) eqn:Hd; [|done].
  destruct l as [x h|x y|x y|x|x cb|x|x|h]; simpl in Hst; try discriminate Hd.
  - destruct (objects s !! x) eqn:Hx; [done|]. destruct (frames s !! h) eqn:Hf; [done|].
    injection Hst as <-. by apply dinv_make.
  - destruct (objects s !! x) as [o|] eqn:Hx; [|done]. destruct (objects s !! y) eqn:Hy; [done|].
    injection Hst as <-. simpl in Hd. unfold unstarted in Hd. rewrite Hx in Hd.
    apply (dinv_transfer s y x o); try done. destruct o as [[h|] []]; auto.
  - destruct (objects s !! x) as [o1|] eqn:Hx; [|done]. destruct (objects s !! y) as [o2|] eqn:Hy; [|done].
    destruct (decide (x = y)) as [->|Hne]; injection Hst as <-; [done|].
    pose proof (dinv_release s x o1 Hs Hx) as Hr.
    assert (objects (release o1 s) = objects s) as Ho.
    { unfold release, destroy. by repeat case_match. }
    assert (set_object x o2 (set_object y (mkDetached None (started_ o2)) (release o1 s)) =
            set_object x o2 (set_object y (mkDetached None (started_ o2)) (drop_object x (release o1 s)))) as ->.
    { unfold set_object, drop_object. simpl. f_equal. rewrite Ho, (insert_insert_ne (delete _ _)) by done.
      rewrite insert_delete_eq. by rewrite insert_insert_ne by done. }
    apply (dinv_transfer _ x y o2); simpl; auto.
    + apply lookup_delete_eq.
    + rewrite lookup_delete_ne, Ho; done.
  - destruct (objects s !! x) as [o|] eqn:Hx; [|done]. injection Hst as <-. by apply dinv_release.
  - destruct (objects s !! x) as [[[h|] st]|] eqn:Hx; [| |done]; injection Hst as <-; [|done].
    simpl in Hd. unfold unstarted in Hd. rewrite Hx in Hd. destruct st; [done|].
    destruct (di_initial s Hs x h Hx) as [c Hc]. unfold SetCallback. simpl. rewrite Hc.
    by eapply dinv_set_callback.
  - destruct (objects s !! x) as [[[h|] st]|] eqn:Hx; [| |done]; injection Hst as <-; [|done].
    simpl in Hd. unfold unstarted in Hd. rewrite Hx in Hd. destruct st; [done|].
    destruct (di_initial s Hs x h Hx) as [c Hc]. unfold Start, resume. simpl. rewrite Hc. by eapply dinv_start.
  - destruct (frames s !! h) as [[| |]|] eqn:Hf; try done. injection Hst as <-. by apply dinv_finish.
Qed.

(** Detached coroutines: in every program that starts a DetachedTask with
    Start, once, and does not move it into a new object afterwards, no frame is
    destroyed twice, while it runs, or touched after its end, whatever the
    moves, assignments and completions; and when the objects are gone every
    frame has been destroyed or belongs to a coroutine that is still running. *)
Theorem detached_frames_once s :
  reachable ddstep dinit s →
  bad s = false ∧ NoDup (destroyed s) ∧
  (∀ x h, objects s !! x = Some (mkDetached (Some h) false) → h ∉ destroyed s) ∧
  (objects s = ∅ → ∀ h f, frames s !! h = Some f → f = FGone ∨ ∃ cb, f = FRunning cb).
Proof.
  intros Hr. assert (dinv s) as [H1 H2 H3 H4 H5 H6 H7].
  { revert Hr. apply reachable_inv; [|intros l s1 s2; apply dinv_step].
    split; simpl; try done; [intros h [? Hh]; by rewrite lookup_empty in Hh|apply NoDup_nil; done|].
    intros h. rewrite lookup_empty. split; [|done]. by intros ?%not_elem_of_nil. }
  split_and!; [done..| |].
  - intros x h Hx Hd. destruct (H2 x h Hx) as [c Hc]. apply H7 in Hd. congruence.
  - intros Ho h f Hf. destruct f as [cb|cb|]; [|by right; exists cb|by left].
    destruct (H5 h) as [x Hx]; [by exists cb|]. by rewrite Ho, lookup_empty in Hx.
Qed.

(** One task is moved, given a callback, started and completes; another is
    assigned over. *)
Definition detached_demo : list dlabel :=
  [DMake 0 10; DMove 0 1; DSetCallback 1 7; DStart 1; DMake 2 11; DMake 3 12; DAssign 2 3; DFinish 10;
   DDtor 0; DDtor 1; DDtor 2; DDtor 3].
Lemma detached_frames_once_witness :
  ∃ s, run ddstep detached_demo dinit = Some s ∧ destroyed s = [11; 10; 12] ∧ invoked s = [7] ∧
  bad s = false ∧ NoDup (destroyed s).
Proof.
  eexists. split; [vm_compute; reflexivity|]. do 2 (split; [vm_compute; reflexivity|]).
  match goal with |- bad ?s = false ∧ _ =>
    assert (reachable ddstep dinit s) as Hr by (apply reachable_run; exists detached_demo; vm_compute; reflexivity);
    destruct (detached_frames_once s Hr) as (Hb & Hn & _) end.
  by split.
Defined.

(** The move constructor forgets that the task was started: the new object's
    destructor destroys the running frame. *)
Example detached_move_after_start :
  bad <$> run dstep [DMake 0 10; DStart 0; DMove 0 1; DDtor 1] dinit = Some true.
Proof. vm_compute. reflexivity. Qed.

(** The header's own usage, [detached.GetHandle().resume()], does not mark the
    task started: its frame, already gone, is destroyed again. *)
Example detached_resume_by_handle :
  bad <$> run dstep [DMake 0 10; DSetCallback 0 7; DResume 0; DFinish 10; DDtor 0] dinit = Some true.
Proof. vm_compute. reflexivity. Qed.
