(* ===== verification/Generator.v ===== *)
(** * Generator ([core/generator.hpp])

    A generator's body is a coroutine that the model keeps abstract: from a
    suspended state it runs to its next co_yield, of an lvalue it owns or of a
    temporary, or to its end.  On top of it, the promise, the iterator and the
    generator object of the code, where the reference an iterator gives is read
    from the place it points to. *)
From S2P Require Import Prelude Raii.

Section Generator.
Context {L V : Type}.          (* the body's suspended states; the values *)

Inductive body_step :=
  | YieldRef (l : L)           (* co_yield x: the promise points at the body's variable *)
  | YieldValue (v : V) (l : L) (* co_yield f(): the promise owns the value *)
  | Return.

Context (body : L → body_step) (variable : L → V).   (* the variable yielded, in each state *)

(** [current_value_]: null, the body's variable, or [owned_value_]. *)
Inductive pointer := Null | ToVariable | ToOwned.
Record GeneratorPromise := mkPromise { current_value_ : pointer; owned_value_ : option V }.
Definition new_promise : GeneratorPromise := mkPromise Null None.
Definition yield_lvalue (p : GeneratorPromise) : GeneratorPromise := mkPromise ToVariable (owned_value_ p).
Definition yield_rvalue (v : V) (p : GeneratorPromise) : GeneratorPromise := mkPromise ToOwned (Some v).
Definition HasValue (p : GeneratorPromise) : bool := match current_value_ p with Null => false | _ => true end.

(** The coroutine frame: where the body is suspended ([None]: at its end), and
    the promise. *)
Record frame := mkFrame { at_ : option L; promise : GeneratorPromise }.
Definition new_frame (l : L) : frame := mkFrame (Some l) new_promise.
Definition done (f : frame) : bool := match at_ f with None => true | Some _ => false end.
Definition GetValue (f : frame) : option V :=
  match current_value_ (promise f), at_ f with
  | Null, _ => None
  | ToVariable, Some l => Some (variable l)
  | ToVariable, None => None             (* the variable is gone *)
  | ToOwned, _ => owned_value_ (promise f)
  end.
(** [handle.resume()]; resuming at the end is undefined. *)
Definition resume (f : frame) : option frame :=
  match at_ f with
  | None => None
  | Some l =>
      Some (match body l with
            | YieldRef l' => mkFrame (Some l') (yield_lvalue (promise f))
            | YieldValue v l' => mkFrame (Some l') (yield_rvalue v (promise f))
            | Return => mkFrame None (promise f)
            end)
  end.

(** ** The iterator and the generator

    There is one frame; a handle is null or points to it. *)
Definition iterator := bool.           (* handle_ != nullptr *)
Definition end_ : iterator := false.
Definition iterator_eq (x y : iterator) : bool := eqb x y.

(** [operator++]. *)
Definition next (it : iterator) (f : frame) : option (iterator * frame) :=
  if it then f' ← resume f; Some (negb (done f'), f') else None.
Definition deref (it : iterator) (f : frame) : option V := if it then GetValue f else None.
(** [begin()]. *)
Definition begin_ (handle_ : bool) (f : frame) : option (iterator * frame) :=
  if handle_ && negb (done f) then
    f' ← resume f;
    if done f' then Some (end_, f') else Some (true, f')
  else Some (end_, f).

(** [for (auto& x : generator) out.push_back(x)], of which at most [n] rounds
    are made: the values seen, and whether the loop ended. *)
Fixpoint loop (n : nat) (it : iterator) (f : frame) : option (list V * bool) :=
  if negb (iterator_eq it end_) then
    match n with
    | O => Some ([], false)
    | S n' =>
        x ← deref it f;
        '(it', f') ← next it f;
        '(xs, ended) ← loop n' it' f';
        Some (x :: xs, ended)
    end
  else Some ([], true).
Definition for_each (n : nat) (l : L) : option (list V * bool) :=
  '(it, f) ← begin_ true (new_frame l);
  loop n it f.

(** The reference: the first [n] values the body yields, and whether that is
    all of them. *)
Fixpoint yields (n : nat) (l : L) : list V * bool :=
  match body l with
  | Return => ([], true)
  | YieldRef l' =>
      match n with O => ([], false) | S n' => let '(xs, e) := yields n' l' in (variable l' :: xs, e) end
  | YieldValue v l' =>
      match n with O => ([], false) | S n' => let '(xs, e) := yields n' l' in (v :: xs, e) end
  end.

Lemma loop_more n f :
  loop (S n) true f =
  (x ← GetValue f; '(it', f') ← next true f; '(xs, ended) ← loop n it' f'; Some (x :: xs, ended)).
Proof. reflexivity. Qed.

Lemma loop_yields n l v p :
  GetValue (mkFrame (Some l) p) = Some v →
  loop (S n) true (mkFrame (Some l) p) = let '(xs, e) := yields n l in Some (v :: xs, e).
Proof.
  revert l v p. induction n as [|n IH]; intros l v p Hv; rewrite loop_more, Hv;
    cbn [mbind option_bind next resume at_ promise]; unfold yields; fold yields;
    destruct (body l) as [l'|v' l'|]; cbn [mbind option_bind done at_ negb]; try reflexivity.
  - rewrite (IH l' (variable l')) by reflexivity. by destruct (yields n l').
  - rewrite (IH l' v') by reflexivity. by destruct (yields n l').
Qed.

Lemma yields_return n l : body l = Return → yields n l = ([], true).
Proof. intros E. destruct n; simpl; by rewrite E. Qed.
Lemma yields_ref n l l' : body l = YieldRef l' →
  yields (S n) l = (variable l' :: (yields n l').1, (yields n l').2).
Proof. intros E. simpl. rewrite E. by destruct (yields n l'). Qed.
Lemma yields_value n l v l' : body l = YieldValue v l' →
  yields (S n) l = (v :: (yields n l').1, (yields n l').2).
Proof. intros E. simpl. rewrite E. by destruct (yields n l'). Qed.

Lemma for_each_yields n l : for_each n l = Some (yields n l).
Proof.
  unfold for_each, begin_, new_frame. cbn [andb negb done at_ resume mbind option_bind promise].
  destruct n as [|n]; unfold yields; fold yields;
    destruct (body l) as [l'|v l'|]; cbn [mbind option_bind done at_ negb]; try reflexivity.
  - rewrite (loop_yields n l' (variable l')) by reflexivity. by destruct (yields n l').
  - rewrite (loop_yields n l' v) by reflexivity. by destruct (yields n l').
Qed.

(** C32. Iterating a generator sees exactly the values its body yields, in
    order, each once, whether it yields its own variables or temporaries: after
    at most [n] rounds of a range-for the values seen are the first [n], and
    the loop has ended exactly when the body has.  No round reads through a
    null or dangling pointer, or resumes a finished body. *)
Theorem generator_yields n l : for_each n l = Some (yields n l).
Proof. apply for_each_yields. Qed.
End Generator.
Arguments YieldRef {L V} l.
Arguments YieldValue {L V} v l.
Arguments Return {L V}.

(** A counter that yields its variable up to 3, and an endless one of
    temporaries. *)
Example generator_counts :
  for_each (λ n : nat, if (n <? 3)%nat then YieldRef (S n) else Return) id 10 0%nat = Some ([1; 2; 3], true)%nat ∧
  for_each (λ n : nat, YieldValue (n * n)%nat (S n)) id 4 0%nat = Some ([0; 1; 4; 9], false)%nat.
Proof. by vm_compute. Qed.

(** Calling begin() a second time resumes the body: the value it was suspended
    at is skipped. *)
Example generator_begin_twice :
  let body := λ n : nat, if (n <? 3)%nat then YieldRef (V := nat) (S n) else Return in
  ('(_, f) ← begin_ body true (new_frame 0%nat);
   '(it, f) ← begin_ body true f;
   deref id it f) = Some 2%nat.
Proof. by vm_compute. Qed.

(** ** The generator object

    Like a task, it owns its frame. *)
Record GeneratorOwner := mkGenerator { handle_ : option handle }.
Definition Generator_ctor (h : handle) : GeneratorOwner := mkGenerator (Some h).
Definition Generator_dtor (g : GeneratorOwner) : list handle := match handle_ g with Some h => [h] | None => [] end.
Definition Generator_move (other : GeneratorOwner) : GeneratorOwner * GeneratorOwner :=
  (mkGenerator (handle_ other), mkGenerator None).
Definition Generator_assign (self : bool) (this other : GeneratorOwner) : GeneratorOwner * GeneratorOwner * list handle :=
  if negb self then
    (mkGenerator (handle_ other), mkGenerator None, match handle_ this with Some h => [h] | None => [] end)
  else (this, other, []).
#[export] Instance generator_owner : UniqueOwner GeneratorOwner handle :=
  { uo_make := Generator_ctor; uo_held := handle_; uo_dtor := Generator_dtor; uo_move := Generator_move;
    uo_assign := Generator_assign }.
#[export] Instance generator_owner_laws : OwnerLaws GeneratorOwner handle.
Proof. split; try done; by intros [[h|]]. Qed.

(** A generator's frame is destroyed once, however far it was iterated. *)
Lemma generator_frames_once : releases_exactly_once GeneratorOwner handle.
Proof. apply owners_release_once, _. Qed.
