(* ===== verification/Task.v ===== *)
(** * Task ([core/task.hpp], [core/coroutine_compat.hpp])

    Lazy coroutines chained by symmetric transfer, [Task<T>] and [Task<void>]
    alike.  The code of a coroutine is
    kept as the sequence of its suspension points; the machine has frames on a
    heap, with the promise of the code (result, continuation, awaited flag),
    and follows [await_suspend], [final_suspend] and [await_resume] one
    transfer at a time.  The specification forgets all of it: a task is a
    computation that performs external operations and returns, [co_await] of a
    task is sequencing.  The refinement theorem says the machine implements it
    and leaves no frame behind. *)
From S2P Require Import Prelude Raii.

(** The value of an await that has none. *)
Class VoidValue (V : Type) := void : V.

(** The promise of the primary template and that of the specialisation. *)
Inductive kind := TaskT | TaskVoid.

Section Task.
(* values; external operations a leaf awaitable starts *)
Context {V Op : Type} `{!VoidValue V}.

(** ** Coroutines and frames *)

Inductive code :=
  | CoReturn (v : V)                          (* in a Task<void>, [v] is not used *)
  | CoAwait (kd : kind) (child : code) (k : V → code)   (* co_await Child(); the Task is a temporary *)
  | CoAwaitOp (op : Op) (k : V → code).       (* a leaf: suspends until resumed with a value *)

Record TaskPromise := mkPromise {
  result_ : option V;
  continuation_ : option handle;
  awaited_ : bool;
}.
Definition new_promise : TaskPromise := mkPromise None None false.
Definition return_value (v : V) (p : TaskPromise) : TaskPromise := mkPromise (Some v) (continuation_ p) (awaited_ p).
(** [result_.value()]. *)
Definition GetResult (p : TaskPromise) : option V := result_ p.
(** The check aborts when the task was awaited before. *)
Definition SetContinuation (cont : handle) (p : TaskPromise) : option TaskPromise :=
  if awaited_ p then None else Some (mkPromise (result_ p) (Some cont) true).

(** [TaskPromise<void>] has no result to store or to take. *)
Record VoidPromise := mkVoidPromise {
  void_continuation_ : option handle;
  void_awaited_ : bool;
}.
Definition new_void_promise : VoidPromise := mkVoidPromise None false.
Definition return_void (p : VoidPromise) : VoidPromise := p.
Definition GetResult_void (_ : VoidPromise) : unit := tt.
Definition SetContinuation_void (cont : handle) (p : VoidPromise) : option VoidPromise :=
  if void_awaited_ p then None else Some (mkVoidPromise (Some cont) true).
(** Its [FinalAwaiter::await_suspend]: whom control goes to. *)
Definition final_void (p : VoidPromise) : option handle := void_continuation_ p.
(** And that of [TaskPromise]. *)
Definition final_value (p : TaskPromise) : option handle := continuation_ p.

(** A frame has one promise or the other; the coroutine machinery calls it by
    these names. *)
Inductive promise_type := PromiseT (p : TaskPromise) | PromiseVoid (p : VoidPromise).
Definition promise_new (kd : kind) : promise_type :=
  match kd with TaskT => PromiseT new_promise | TaskVoid => PromiseVoid new_void_promise end.
(** [co_return]. *)
Definition promise_return (v : V) (p : promise_type) : promise_type :=
  match p with PromiseT p => PromiseT (return_value v p) | PromiseVoid p => PromiseVoid (return_void p) end.
Definition promise_set (cont : handle) (p : promise_type) : option promise_type :=
  match p with
  | PromiseT p => PromiseT <$> SetContinuation cont p
  | PromiseVoid p => PromiseVoid <$> SetContinuation_void cont p
  end.
Definition promise_final (p : promise_type) : option handle :=
  match p with PromiseT p => final_value p | PromiseVoid p => final_void p end.
(** [Awaiter::await_resume]. *)
Definition await_resume (p : promise_type) : option V :=
  match p with PromiseT p => GetResult p | PromiseVoid p => let 'tt := GetResult_void p in Some void end.

(** Where a frame's coroutine is. *)
Inductive position :=
  | Initial (c : code)                        (* initial_suspend *)
  | Running (c : code)
  | Awaiting (child : handle) (k : V → code)
  | AtLeaf (op : Op) (k : V → code)
  | Final.
Record frame := mkFrame { pos : position; promise : promise_type }.

Record tsys := TSys {
  frames : gmap handle frame;
  current : option handle;                    (* the coroutine that is executing *)
  fresh : handle;
  suspended_at : option handle;               (* waiting for an operation *)
  answers : list V;                           (* what the operations will return *)
  performed : list Op;
}.

Definition set_frame (h : handle) (f : frame) (s : tsys) : tsys :=
  TSys (<[h:=f]> (frames s)) (current s) (fresh s) (suspended_at s) (answers s) (performed s).
Definition transfer (h : option handle) (s : tsys) : tsys :=
  TSys (frames s) h (fresh s) (suspended_at s) (answers s) (performed s).

(** A coroutine is created suspended at its start. *)
Definition get_return_object (kd : kind) (c : code) : frame := mkFrame (Initial c) (promise_new kd).

(** [Awaiter::await_suspend]: the continuation is set and control goes to the
    child; [None] is the failed check. *)
Definition await_suspend (awaiting child : handle) (s : tsys) : option tsys :=
  f ← frames s !! child;
  p ← promise_set awaiting (promise f);
  Some (transfer (Some child) (set_frame child (mkFrame (pos f) p) s)).
(** [FinalAwaiter::await_suspend]: to the continuation, or to nobody. *)
Definition final_suspend (finishing : handle) (s : tsys) : option tsys :=
  f ← frames s !! finishing;
  Some (transfer (promise_final (promise f)) s).
(** [Task::~Task]. *)
Definition destroy (h : handle) (s : tsys) : tsys :=
  TSys (delete h (frames s)) (current s) (fresh s) (suspended_at s) (answers s) (performed s).

(** One action of the coroutine that executes, or the completion of the
    operation everybody waits for. *)
Definition tstep (s : tsys) : option tsys :=
  match current s with
  | Some h =>
      f ← frames s !! h;
      match pos f with
      | Initial c => Some (set_frame h (mkFrame (Running c) (promise f)) s)
      | Running (CoReturn v) =>
          final_suspend h (set_frame h (mkFrame Final (promise_return v (promise f))) s)
      | Running (CoAwait kd c k) =>
          let child := fresh s in
          let s1 := TSys (<[child := get_return_object kd c]> (<[h := mkFrame (Awaiting child k) (promise f)]> (frames s)))
                      (current s) (S child) (suspended_at s) (answers s) (performed s) in
          await_suspend h child s1
      | Running (CoAwaitOp op k) =>
          let s1 := set_frame h (mkFrame (AtLeaf op k) (promise f)) s in
          Some (TSys (frames s1) None (fresh s1) (Some h) (answers s1) (performed s1 ++ [op]))
      | Awaiting child k =>                   (* await_resume, then the temporary Task is destroyed *)
          fc ← frames s !! child;
          v ← await_resume (promise fc);
          Some (set_frame h (mkFrame (Running (k v)) (promise f)) (destroy child s))
      | AtLeaf _ _ | Final => None
      end
  | None =>
      match suspended_at s, answers s with
      | Some h, v :: answers' =>
          f ← frames s !! h;
          match pos f with
          | AtLeaf _ k =>
              Some (TSys (<[h := mkFrame (Running (k v)) (promise f)]> (frames s)) (Some h) (fresh s) None
                      answers' (performed s))
          | _ => None
          end
      | _, _ => None
      end
  end.

Fixpoint steps (n : nat) (s : tsys) : option tsys :=
  match n with O => Some s | S n' => s' ← tstep s; steps n' s' end.

(** The root task, resumed by its handle (as SyncWait does). *)
Definition root : handle := 0.
Definition start (kd : kind) (c : code) (answers : list V) : tsys :=
  TSys {[ root := get_return_object kd c ]} (Some root) 1 None answers [].

(** ** The specification *)

Inductive computation :=
  | Ret (v : V)
  | Vis (op : Op) (k : V → computation).
Fixpoint bind (t : computation) (f : V → computation) : computation :=
  match t with Ret v => f v | Vis op k => Vis op (λ x, bind (k x) f) end.
(** What the awaiting coroutine sees of a task's result. *)
Definition seen (kd : kind) (v : V) : V := match kd with TaskT => v | TaskVoid => void end.
Fixpoint denote (c : code) : computation :=
  match c with
  | CoReturn v => Ret v
  | CoAwait kd child k => bind (denote child) (λ v, denote (k (seen kd v)))
  | CoAwaitOp op k => Vis op (λ v, denote (k v))
  end.
(** The operations performed when they are answered by [a], the result if there
    are answers enough, and the answers not used. *)
Fixpoint play (a : list V) (t : computation) : list Op * option V * list V :=
  match t, a with
  | Ret v, _ => ([], Some v, a)
  | Vis op _, [] => ([op], None, [])
  | Vis op k, x :: a' => let '(ops, r, a'') := play a' (k x) in (op :: ops, r, a'')
  end.

Lemma play_ret a v : play a (Ret v) = ([], Some v, a).
Proof. by destruct a. Qed.

Lemma play_bind a t f :
  play a (bind t f) =
  match play a t with
  | (ops, Some v, a') => let '(ops', r, a'') := play a' (f v) in (ops ++ ops', r, a'')
  | (ops, None, a') => (ops, None, a')
  end.
Proof.
  revert a. induction t as [v|op k IH]; intros a; simpl.
  - rewrite play_ret. by destruct (play a (f v)) as [[? ?] ?].
  - destruct a as [|x a]; simpl; [done|]. rewrite IH.
    destruct (play a (k x)) as [[ops [v|]] a']; [|done].
    by destruct (play a' (f v)) as [[? ?] ?].
Qed.

(** ** The machine's states along a chain of awaits

    A coroutine with the coroutines that wait for it, innermost first. *)
Definition chain := list (handle * (kind * (V → code))).
(** The promise of a coroutine that runs, or waits, in the chain [st]. *)
Definition chain_promise (kd : kind) (st : chain) : promise_type :=
  let cont := fst <$> head st in
  let awaited := match st with [] => false | _ => true end in
  match kd with
  | TaskT => PromiseT (mkPromise None cont awaited)
  | TaskVoid => PromiseVoid (mkVoidPromise cont awaited)
  end.
Fixpoint parents (child : handle) (st : chain) : gmap handle frame :=
  match st with
  | [] => ∅
  | (p, (kd, k)) :: st' => <[p := mkFrame (Awaiting child k) (chain_promise kd st')]> (parents p st')
  end.
Definition heap (kd : kind) (h : handle) (x : position) (st : chain) : gmap handle frame :=
  <[h := mkFrame x (chain_promise kd st)]> (parents h st).

Lemma promise_set_new kd h kd' k st :
  promise_set h (promise_new kd) = Some (chain_promise kd ((h, (kd', k)) :: st)).
Proof. by destruct kd. Qed.
Lemma promise_final_chain kd v st : promise_final (promise_return v (chain_promise kd st)) = fst <$> head st.
Proof. by destruct kd. Qed.
Lemma await_resume_chain kd v st : await_resume (promise_return v (chain_promise kd st)) = Some (seen kd v).
Proof. by destruct kd. Qed.

Record at_chain (s : tsys) (kd : kind) (h : handle) (x : position) (st : chain) (a : list V) (ops : list Op) : Prop := {
  ac_frames : frames s = heap kd h x st;
  ac_current : current s = Some h;
  ac_suspended : suspended_at s = None;
  ac_answers : answers s = a;
  ac_performed : performed s = ops;
  ac_nodup : NoDup (h :: st.*1);
  ac_fresh : Forall (λ h', h' < fresh s) (h :: st.*1);
}.

Lemma steps_trans n m s s1 s2 : steps n s = Some s1 → steps m s1 = Some s2 → steps (n + m) s = Some s2.
Proof.
  revert s. induction n as [|n IH]; intros s Hn Hm; simpl in *; [congruence|].
  destruct (tstep s); simpl in *; [by apply IH|done].
Qed.

Lemma parents_lookup_none h' h st : h' ∉ st.*1 → parents h st !! h' = None.
Proof.
  revert h. induction st as [|[p [kd k]] st IH]; intros h Hn; simpl in *; [done|].
  rewrite lookup_insert_ne by set_solver. apply IH. set_solver.
Qed.

Lemma at_chain_start s kd h c st a ops :
  at_chain s kd h (Initial c) st a ops → ∃ s', tstep s = Some s' ∧ at_chain s' kd h (Running c) st a ops.
Proof.
  intros [Hf Hc Hs Ha Hp Hn Hl]. unfold tstep. rewrite Hc, Hf. unfold heap. rewrite lookup_insert_eq. simpl.
  eexists. split; [reflexivity|]. split; simpl; try done. rewrite Hf. unfold heap. by rewrite insert_insert_eq.
Qed.

(** co_await of a task: a new frame, with the awaiting coroutine as its
    continuation, executes. *)
Lemma at_chain_await s kdh h kd c k st a ops :
  at_chain s kdh h (Running (CoAwait kd c k)) st a ops →
  ∃ s', tstep s = Some s' ∧ at_chain s' kd (fresh s) (Initial c) ((h, (kdh, k)) :: st) a ops.
Proof.
  intros [Hf Hc Hs Ha Hp Hn Hl]. unfold tstep. rewrite Hc, Hf. unfold heap. rewrite lookup_insert_eq. simpl.
  unfold await_suspend. simpl. rewrite lookup_insert_eq. simpl. rewrite (promise_set_new kd h kdh k st). simpl.
  eexists. split; [reflexivity|].
  assert (fresh s ∉ h :: st.*1) as Hfr.
  { intros Hin. eapply Forall_forall in Hl; [|exact Hin]. simpl in Hl. lia. }
  split; simpl; try done.
  - unfold heap. by rewrite insert_insert_eq, insert_insert_eq.
  - by constructor.
  - constructor; [lia|]. eapply Forall_impl; [exact Hl|]. simpl. lia.
Qed.

(** Its co_return: the continuation takes the result and destroys the frame. *)
Lemma at_chain_return s kd h v p kdp k st a ops :
  at_chain s kd h (Running (CoReturn v)) ((p, (kdp, k)) :: st) a ops →
  ∃ s', steps 2 s = Some s' ∧ at_chain s' kdp p (Running (k (seen kd v))) st a ops.
Proof.
  intros [Hf Hc Hs Ha Hp Hn Hl]. simpl in Hn, Hl.
  apply NoDup_cons in Hn as [Hh Hn]. apply NoDup_cons in Hn as [Hq Hn']. apply Forall_cons in Hl as [_ Hl].
  assert (h ≠ p) as Hne by set_solver.
  eassert (tstep s = Some _) as H1.
  { unfold tstep. rewrite Hc, Hf. unfold heap. rewrite lookup_insert_eq. simpl.
    unfold final_suspend. simpl. rewrite lookup_insert_eq. simpl. rewrite promise_final_chain. reflexivity. }
  unfold steps. rewrite H1. simpl. unfold tstep. simpl. rewrite Hf. unfold heap.
  rewrite insert_insert_eq, lookup_insert_ne by done. simpl. rewrite lookup_insert_eq. simpl.
  rewrite lookup_insert_eq. simpl. rewrite await_resume_chain. simpl.
  eexists. split; [reflexivity|]. split; simpl; try done.
  - rewrite Hf. unfold heap. simpl. rewrite insert_insert_eq, delete_insert_eq, delete_insert_ne by done.
    rewrite insert_insert_eq. f_equal. apply delete_id, parents_lookup_none. set_solver.
  - by constructor.
Qed.

Lemma at_chain_op s kd h op k st a ops :
  at_chain s kd h (Running (CoAwaitOp op k)) st a ops →
  ∃ s', tstep s = Some s' ∧ performed s' = ops ++ [op] ∧
    match a with
    | [] => tstep s' = None ∧ current s' = None ∧ is_Some (suspended_at s')
    | v :: a' => ∃ s'', tstep s' = Some s'' ∧ at_chain s'' kd h (Running (k v)) st a' (ops ++ [op])
    end.
Proof.
  intros [Hf Hc Hs Ha Hp Hn Hl]. unfold tstep at 1. rewrite Hc, Hf. unfold heap. rewrite lookup_insert_eq. simpl.
  eexists. split; [reflexivity|]. simpl. rewrite Hp. split; [done|]. unfold tstep. simpl. rewrite Ha.
  destruct a as [|v a]; [done|]. rewrite lookup_insert_eq. simpl. eexists. split; [reflexivity|].
  split; simpl; try done. rewrite Hf. unfold heap. by rewrite !insert_insert_eq.
Qed.

(** What running [c] comes to, in a chain: its result is ready to be returned,
    or it waits for an operation that nobody answers. *)
Definition comes_to (s : tsys) (kd : kind) (h : handle) (st : chain) (ops : list Op) (out : list Op * option V * list V) : Prop :=
  match out with
  | (ops', Some v, a') => ∃ n s', steps n s = Some s' ∧ at_chain s' kd h (Running (CoReturn v)) st a' (ops ++ ops')
  | (ops', None, _) => ∃ n s', steps n s = Some s' ∧ tstep s' = None ∧ current s' = None ∧ is_Some (suspended_at s') ∧ performed s' = ops ++ ops'
  end.

Lemma comes_to_step n s s' kd h st ops ops1 out :
  steps n s = Some s' → comes_to s' kd h st (ops ++ ops1) out →
  comes_to s kd h st ops (let '(ops', r, a') := out in (ops1 ++ ops', r, a')).
Proof.
  intros Hn. destruct out as [[ops' [v|]] a']; simpl; intros (m & s'' & Hm & H).
  - exists (n + m), s''. split; [by eapply steps_trans|]. by rewrite app_assoc.
  - exists (n + m), s''. split; [by eapply steps_trans|]. by rewrite app_assoc.
Qed.

Lemma run_code c : ∀ s kd h st a ops,
  at_chain s kd h (Running c) st a ops → comes_to s kd h st ops (play a (denote c)).
Proof.
  induction c as [v|kdc c IHc k IHk|op k IHk]; intros s kd h st a ops Hs; simpl.
  - rewrite play_ret. exists 0, s. split; [done|]. by rewrite app_nil_r.
  - destruct (at_chain_await _ _ _ _ _ _ _ _ _ Hs) as (s1 & H1 & Hs1).
    destruct (at_chain_start _ _ _ _ _ _ _ Hs1) as (s2 & H2 & Hs2).
    assert (steps 2 s = Some s2) as H12 by (simpl; rewrite H1; simpl; by rewrite H2).
    specialize (IHc s2 kdc (fresh s) ((h, (kd, k)) :: st) a ops Hs2). rewrite play_bind.
    destruct (play a (denote c)) as [[ops1 [v|]] a1]; simpl in IHc.
    + destruct IHc as (n & s3 & H3 & Hs3). destruct (at_chain_return _ _ _ _ _ _ _ _ _ _ Hs3) as (s4 & H4 & Hs4).
      specialize (IHk (seen kdc v) s4 kd h st a1 (ops ++ ops1) Hs4).
      eapply comes_to_step in IHk; [exact IHk|]. eapply steps_trans; [|exact H4]. by eapply steps_trans.
    + destruct IHc as (n & s3 & H3 & Ht & Hc & Hu & Hp). exists (2 + n), s3. split_and!; try done. by eapply steps_trans.
  - destruct (at_chain_op _ _ _ _ _ _ _ _ Hs) as (s1 & H1 & Hp1 & H2). destruct a as [|v a].
    + destruct H2 as (H2 & H3 & H4). exists 1, s1. simpl. rewrite H1. done.
    + destruct H2 as (s2 & H2 & Hs2). specialize (IHk v s2 kd h st a (ops ++ [op]) Hs2).
      assert (steps 2 s = Some s2) as H12 by (simpl; rewrite H1; simpl; by rewrite H2).
      eapply comes_to_step in IHk; [|exact H12]. simpl in IHk. exact IHk.
Qed.

(** C9. Tasks implement sequential composition.  However tasks of both kinds
    await each other, the machine of frames, continuations and symmetric
    transfers performs the operations that the composed computation performs, in
    that order, for any answers; it comes to a stop, either waiting for an
    operation that was not answered, or with the computation's result in the
    root's promise (a [Task<void>] has none to keep); and then every frame but
    the root's has been destroyed, no task having been awaited twice. *)
Theorem task_refines (kd : kind) (c : code) (a : list V) :
  ∃ n s, steps n (start kd c a) = Some s ∧ tstep s = None ∧ current s = None ∧
    let '(ops, r, a') := play a (denote c) in
    performed s = ops ∧
    (r = None → is_Some (suspended_at s)) ∧
    (∀ v, r = Some v → suspended_at s = None ∧ answers s = a' ∧
       frames s = {[ root := mkFrame Final match kd with
                                           | TaskT => PromiseT (mkPromise (Some v) None false)
                                           | TaskVoid => PromiseVoid (mkVoidPromise None false)
                                           end ]}).
Proof.
  assert (at_chain (start kd c a) kd root (Initial c) [] a []) as H0.
  { assert (frames (start kd c a) = heap kd root (Initial c) []) as Hf by (destruct kd; reflexivity).
    split; try done; [by repeat constructor; set_solver|]. repeat constructor. }
  destruct (at_chain_start _ _ _ _ _ _ _ H0) as (s1 & H1 & Hs1).
  pose proof (run_code c s1 kd root [] a [] Hs1) as Hr.
  destruct (play a (denote c)) as [[ops [v|]] a']; simpl in Hr.
  - destruct Hr as (n & s2 & H2 & [Hf Hc Hs Ha Hp _ _]). exists (1 + n + 1). eexists. split_and!.
    + eapply steps_trans; [eapply (steps_trans 1); [simpl; rewrite H1; reflexivity|exact H2]|].
      simpl. unfold tstep. rewrite Hc, Hf. unfold heap. rewrite lookup_insert_eq. simpl.
      unfold final_suspend. simpl. rewrite lookup_insert_eq. simpl. rewrite promise_final_chain. reflexivity.
    + unfold tstep. simpl. by rewrite Hs.
    + done.
    + done.
    + done.
    + intros v' [= <-]. simpl. rewrite Hf. unfold heap. simpl. rewrite insert_insert_eq. by destruct kd.
  - destruct Hr as (n & s2 & H2 & Ht & Hc & Hu & Hp). exists (1 + n), s2.
    assert (steps (1 + n) (start kd c a) = Some s2) as Hn.
    { eapply (steps_trans 1); [simpl; rewrite H1; reflexivity|exact H2]. }
    by split_and!.
Qed.
End Task.
Arguments CoReturn {V Op} v.
Arguments CoAwait {V Op} kd child k.
Arguments CoAwaitOp {V Op} op k.

(** Three levels of tasks, one of them without a result, and three operations,
    answered 3, 5 and 4. *)
Example task_example :
  let c := CoAwait TaskT (CoAwait TaskT (CoAwaitOp 10 (λ x, CoReturn (x + 1))) (λ x, CoReturn (2 * x)))
             (λ x, CoAwait TaskVoid (CoAwaitOp 15 (λ x, CoReturn x))
             (λ _, CoAwaitOp 20 (λ y, CoReturn (x + y)))) in
  play [3; 5; 4] (denote (VoidValue0 := 0) c) = ([10; 15; 20], Some 12, []).
Proof. by vm_compute. Qed.

(** ** Combinators ([core/combinators.hpp], [core/invoke.hpp])

    Coroutines that await one task.  (They keep it as a parameter or local, so
    its frame lives a little longer than a temporary's; the computation is the
    same.) *)
Section Combinators.
Context {V Op : Type} `{!VoidValue V}.
Abbreviation code := (code (V := V) (Op := Op)).

(** [Then], of a [Task<T>] and of a [Task<void>]; [r] is the kind of the task
    that it returns, and so whether [func] returns a value. *)
Definition Then (r : kind) (task : code) (func : V → V) : code :=
  CoAwait TaskT task (λ value, CoReturn (seen r (func value))).
Definition Then_void (r : kind) (task : code) (func : unit → V) : code :=
  CoAwait TaskVoid task (λ _, CoReturn (seen r (func tt))).
Definition Map (r : kind) (task : code) (func : V → V) : code := Then r task func.
Definition Invoke {Args} (kd : kind) (functor : Args → code) (args : Args) : code :=
  CoAwait kd (functor args) (λ value, CoReturn value).

Definition equivalent (t1 t2 : computation (V := V) (Op := Op)) : Prop := ∀ a, play a t1 = play a t2.

Lemma play_bind_ret a (t : computation (V := V) (Op := Op)) f :
  play a (bind t (λ v, Ret (f v))) = let '(ops, r, a') := play a t in (ops, f <$> r, a').
Proof.
  rewrite play_bind. destruct (play a t) as [[ops [v|]] a']; [|done].
  rewrite play_ret. simpl. by rewrite app_nil_r.
Qed.

Lemma play_then a r (task : code) f :
  play a (denote (Then r task f)) = let '(ops, v, a') := play a (denote task) in (ops, seen r ∘ f <$> v, a').
Proof. apply (play_bind_ret a (denote task) (seen r ∘ f)). Qed.

Lemma play_then_void a r (task : code) f :
  play a (denote (Then_void r task f)) = let '(ops, v, a') := play a (denote task) in (ops, (λ _, seen r (f tt)) <$> v, a').
Proof. apply play_bind_ret. Qed.

(** A [Then] performs the task's operations and maps its result; chains of them
    compose; invoking a functor is awaiting its task. *)
Lemma then_laws r (task : code) f g {Args} kd (functor : Args → code) args :
  (∀ a, play a (denote (Then r task f)) = let '(ops, v, a') := play a (denote task) in (ops, seen r ∘ f <$> v, a')) ∧
  equivalent (denote (Then r (Then TaskT task f) g)) (denote (Then r task (g ∘ f))) ∧
  equivalent (denote (Then_void r (Then TaskVoid task f) (λ _, g void))) (denote (Then r task (λ _, g void))) ∧
  (∀ a, play a (denote (Invoke kd functor args)) = let '(ops, v, a') := play a (denote (functor args)) in (ops, seen kd <$> v, a')).
Proof.
  split_and!.
  - intros a. apply play_then.
  - intros a. rewrite !play_then. by destruct (play a (denote task)) as [[? [?|]] ?].
  - intros a. rewrite play_then_void, !play_then. by destruct (play a (denote task)) as [[? [?|]] ?].
  - intros a. apply (play_bind_ret _ _ (seen kd)).
Qed.
End Combinators.

(** ** Ownership of a frame *)

(** [Task<T>] and [Task<void>]: the destructor destroys the frame. *)
Record TaskOwner := mkTask { handle_ : option handle }.
Definition Task_ctor (h : handle) : TaskOwner := mkTask (Some h).
Definition Task_dtor (t : TaskOwner) : list handle := match handle_ t with Some h => [h] | None => [] end.
Definition Task_move (other : TaskOwner) : TaskOwner * TaskOwner := (mkTask (handle_ other), mkTask None).
Definition Task_assign (self : bool) (this other : TaskOwner) : TaskOwner * TaskOwner * list handle :=
  if negb self then
    (mkTask (handle_ other), mkTask None, match handle_ this with Some h => [h] | None => [] end)
  else (this, other, []).
#[export] Instance task_owner : UniqueOwner TaskOwner handle :=
  { uo_make := Task_ctor; uo_held := handle_; uo_dtor := Task_dtor; uo_move := Task_move; uo_assign := Task_assign }.
#[export] Instance task_owner_laws : OwnerLaws TaskOwner handle.
Proof. split; try done; by intros [[h|]]. Qed.

(** Frames are destroyed once, by the end of the last Task object that held
    them. *)
Lemma task_frames_destroyed_once (s : ostate TaskOwner handle) :
  reachable owner_step owner_init s → NoDup (created s) →
  NoDup (released s) ∧ (live s = ∅ → released s ≡ₚ created s).
Proof. intros Hr Hn. by destruct (owner_released_once s Hr Hn) as (? & _ & ?). Qed.
