(* ===== verification/SyncWait.v ===== *)
(** * SyncWait ([sync/sync_wait.hpp])

    The calling thread starts a wrapper coroutine, which awaits the task, keeps
    its value and signals an event; then it waits for the event.  The wrapper
    runs on the calling thread until the task first suspends elsewhere, and
    continues on whatever thread resumes it.  The event's wait is the check of
    the flag under its mutex and, when it is false, blocking until Signal,
    which sets the flag and notifies under the same mutex. *)
From S2P Require Import Prelude.

Section SyncWait.
Context {V : Type}.

Record SyncWaitEvent := mkEvent { signaled_ : bool }.

(** The wrapper coroutine. *)
Inductive wrapper :=
  | AwaitingTask              (* in co_await of the task, or not resumed yet *)
  | HasValue                  (* result assigned, before event.Signal() *)
  | Signalled                 (* after Signal, before final_suspend *)
  | AtEnd.                    (* suspended at its end: may be destroyed *)

(** The calling thread. *)
Inductive caller := Resuming | Checking | Blocked | Returned.

Record wsys := WSys {
  event : SyncWaitEvent;
  result : option V;
  wrap : wrapper;
  elsewhere : bool;           (* the wrapper's coroutine has left the calling thread *)
  main : caller;
  bad : bool;                 (* the frame was destroyed while the coroutine ran *)
}.
Definition winit : wsys := WSys (mkEvent false) None AwaitingTask false Resuming false.

Inductive wlabel :=
  | WSuspend                  (* the task suspends: resume() returns to the caller *)
  | WValue (v : V)            (* the task completes, on the thread that runs it *)
  | WSignal | WEnd
  | WMain.                    (* the caller's next step *)

(** [Signal]: the flag, and the waiter is woken. *)
Definition Signal (s : wsys) : wsys :=
  WSys (mkEvent true) (result s) Signalled (elsewhere s)
    (match main s with Blocked => Checking | m => m end) (bad s).
(** The caller's step: resume() returns when the coroutine suspended, here or
    elsewhere; [Wait]; then the locals are destroyed, the wrapper's frame among
    them. *)
Definition main_step (s : wsys) : option wsys :=
  match main s with
  | Resuming =>
      if elsewhere s || match wrap s with AtEnd => true | _ => false end
      then Some (WSys (event s) (result s) (wrap s) (elsewhere s) Checking (bad s)) else None
  | Checking =>
      if signaled_ (event s)
      then Some (WSys (event s) (result s) (wrap s) (elsewhere s) Returned
                   (bad s || match wrap s with AtEnd => false | _ => true end))
      else Some (WSys (event s) (result s) (wrap s) (elsewhere s) Blocked (bad s))
  | Blocked | Returned => None
  end.

Definition wstep (l : wlabel) (s : wsys) : option wsys :=
  match l with
  | WSuspend =>
      match wrap s with
      | AwaitingTask => Some (WSys (event s) (result s) AwaitingTask true (main s) (bad s))
      | _ => None
      end
  | WValue v =>
      match wrap s with
      | AwaitingTask => Some (WSys (event s) (Some v) HasValue (elsewhere s) (main s) (bad s))
      | _ => None
      end
  | WSignal => match wrap s with HasValue => Some (Signal s) | _ => None end
  | WEnd =>
      match wrap s with
      | Signalled => Some (WSys (event s) (result s) AtEnd (elsewhere s) (main s) (bad s))
      | _ => None
      end
  | WMain => main_step s
  end.

Record winv (s : wsys) : Prop := {
  wi_flag : signaled_ (event s) = match wrap s with AwaitingTask | HasValue => false | _ => true end;
  wi_value : wrap s ≠ AwaitingTask → is_Some (result s);
  wi_blocked : main s = Blocked → signaled_ (event s) = false;
  wi_returned : main s = Returned → signaled_ (event s) = true;
  wi_home : elsewhere s = false → main s = Resuming ∨ wrap s = AtEnd;
  wi_bad : elsewhere s = false → bad s = false;
}.

Lemma winv_step l s s' : winv s → wstep l s = Some s' → winv s'.
Proof.
  intros [H1 H2 H3 H4 H5 H6] Hst. destruct s as [[f] r w e m b]. simpl in *.
  destruct l, w, m; simpl in *; try discriminate Hst; unfold main_step in Hst; simpl in *;
    try (destruct f; simpl in * ); try (destruct e; simpl in * ); try discriminate; simplify_eq/=;
    split; simpl; intros; try done; eauto; try (by destruct H5); try (by apply H2). by rewrite (H6 eq_refl).
Qed.

(** C39. SyncWait returns the task's value and not before it is there; it
    cannot sleep through the signal: when the caller is blocked the wrapper has
    not signalled yet.  If the task never suspends to another thread, the
    wrapper is at its end before the caller looks, and its frame is destroyed
    only then.  Once the wrapper is at its end the caller can always step, until
    it has returned: the call terminates when the task does. *)
Theorem sync_wait_value s :
  reachable wstep winit s →
  (main s = Returned → is_Some (result s)) ∧
  (main s = Blocked → wrap s = AwaitingTask ∨ wrap s = HasValue) ∧
  (elsewhere s = false → bad s = false) ∧
  (wrap s = AtEnd → main s ≠ Returned → is_Some (wstep WMain s)).
Proof.
  intros Hr. assert (winv s) as [H1 H2 H3 H4 H5 H6].
  { revert Hr. apply reachable_inv; [by split; auto|]. intros l s1 s2. apply winv_step. }
  split_and!; [| |done|].
  - intros Hm. apply H2. specialize (H4 Hm). rewrite H1 in H4. by destruct (wrap s).
  - intros Hm. specialize (H3 Hm). rewrite H1 in H3. destruct (wrap s); auto; done.
  - intros Hw Hm. simpl. unfold main_step. rewrite Hw in *. destruct (main s); [|by destruct (signaled_ _)| |done].
    + by rewrite orb_true_r.
    + specialize (H3 eq_refl). congruence.
Qed.

(** ** SyncWaitPromise

    An eager runner coroutine's promise, with pointers to the caller's event
    and result, either of which may be null. *)
Record SyncWaitPromise := mkSyncWaitPromise { event_ : bool; result_ : bool }.
Definition new_sync_wait_promise : SyncWaitPromise := mkSyncWaitPromise false false.
Definition SetEvent (p : SyncWaitPromise) : SyncWaitPromise := mkSyncWaitPromise true (result_ p).
Definition SetResult (p : SyncWaitPromise) : SyncWaitPromise := mkSyncWaitPromise (event_ p) true.
Definition StoreResult (p : SyncWaitPromise) (value : V) (s : wsys) : wsys :=
  if result_ p then WSys (event s) (Some value) (wrap s) (elsewhere s) (main s) (bad s) else s.
Definition SignalCompletion (p : SyncWaitPromise) (s : wsys) : wsys := if event_ p then Signal s else s.

(** With both pointers set the runner wakes a blocked caller with the value
    there; without the event the caller stays blocked. *)
Lemma sync_wait_promise_wakes (value : V) s :
  main s = Blocked →
  (∃ s', main_step (SignalCompletion (SetEvent (SetResult new_sync_wait_promise))
                      (StoreResult (SetEvent (SetResult new_sync_wait_promise)) value s)) = Some s' ∧
     main s' = Returned ∧ result s' = Some value) ∧
  main_step (SignalCompletion (SetResult new_sync_wait_promise) (StoreResult (SetResult new_sync_wait_promise) value s)) = None.
Proof. intros Hm. unfold main_step, SignalCompletion, StoreResult, Signal. simpl. rewrite Hm. simpl. eauto. Qed.
End SyncWait.

(** The task suspends, completes on another thread, and the caller returns. *)
Definition sync_demo : list (wlabel (V := nat)) := [WSuspend; WMain; WMain; WValue 42; WSignal; WEnd; WMain].
Lemma sync_wait_value_witness :
  ∃ s, run wstep sync_demo winit = Some s ∧ main s = Returned ∧ result s = Some 42 ∧ is_Some (result s).
Proof.
  eexists. split; [vm_compute; reflexivity|]. split; [reflexivity|]. split; [reflexivity|].
  match goal with |- is_Some (result ?s) => apply (sync_wait_value s) end; [|reflexivity].
  apply reachable_run. exists sync_demo. reflexivity.
Defined.

(** The event is signalled before the wrapper reaches its end: the caller can
    return, and destroy the frame and the event, while the other thread is
    still in the coroutine. *)
Example sync_wait_destroys_running :
  bad <$> run wstep [WSuspend; WMain; WMain; WValue 42; WSignal; WMain] winit = Some true.
Proof. reflexivity. Qed.
