(* ===== verification/IoUring.v ===== *)
(** * IoUringExecutor ([io/iouring_executor.hpp], [src/io/iouring_executor.cpp],
      [io/iouring_async_ops.hpp])

    The event loop over an io_uring: a bounded submission queue, operations in
    flight in the kernel, and a completion queue.  Other threads reach the loop
    by pushing into the queues under the mutex and writing the eventfd, of
    which one read is kept in flight.  The kernel is outside the model: any
    operation in flight may complete at any time, with any result, except that
    the read of the eventfd completes only when the counter is not zero, and
    resets it. *)
From S2P Require Import Prelude Errors Executor.
Local Open Scope Z_scope.

(** ** Requests *)

Record sockaddr := mkSockaddr { sa_address : Z; sa_length : Z }.   (* a pointer and a socklen_t* *)

(** What io_uring_prep_xxx writes into the submission entry. *)
Inductive request :=
  | PrepReadEventfd
  | PrepTimeout (tv_sec tv_nsec : Z)
  | PrepAccept (fd : Z) (addr : sockaddr) (flags : Z)
  | PrepConnect (fd : Z) (addr : sockaddr)
  | PrepRecv (fd buf len flags : Z) (select : option Z)   (* the buffer group, with IOSQE_BUFFER_SELECT *)
  | PrepSend (fd buf len flags : Z)
  | PrepOpenat (dirfd : Z) (path : string) (flags mode : Z)
  | PrepRead (fd buf nbytes offset : Z)
  | PrepWrite (fd buf nbytes offset : Z)
  | PrepClose (fd : Z)
  | PrepFsync (fd flags : Z)
  | PrepStatx (dirfd : Z) (path : string) (flags mask buf : Z)
  | PrepUnlinkat (dirfd : Z) (path : string) (flags : Z)
  | PrepMkdirat (dirfd : Z) (path : string) (mode : Z).

Record TimerRequest := mkRequest { delay : Z; request_handle : option handle }.

(** The user data of an entry: the address of an [OpContext].  Contexts of
    timeouts are allocated by the executor, those of I/O live in coroutine
    frames; both are named by numbers. *)
Inductive data :=
  | Wakeup
  | Timeout (ctx : nat) (r : TimerRequest)
  | IO (ctx : nat) (h : handle).

Record sqe := mkSqe { req : request; user_data : data }.
Record cqe := mkCqe { res : Z; flags : Z; cqe_data : data }.

(** [tv_sec] and [tv_nsec] of a delay: C's division truncates. *)
Definition timespec (delay : Z) : request := PrepTimeout (Z.quot delay 1000) (Z.rem delay 1000 * 1000000).

(** ** State *)

Inductive event :=
  | EvTimeout (ctx : nat) (r : TimerRequest) (res : Z)
  | EvNow (ctx : nat) (r : TimerRequest)             (* no entry was free: resumed at once *)
  | EvIO (ctx : nat) (h : handle) (res flags : Z)
  | EvResume (h : option handle)
  | EvCall (cb : nat).

Inductive at_loop :=
  | UOut
  | UTop (once : bool)
  | UWait                                            (* waiting for a completion *)
  | UCompletions (once : bool) (n : nat)             (* ProcessCompletions, [n] entries done *)
  | UReady (once : bool)
  | UProcess (once : bool) (hs : list (option handle)) (cbs : list nat) (ts : list TimerRequest).

Record IoUringExecutor := mkUring {
  queue_depth : nat;
  sq : list sqe;                    (* prepared, not submitted *)
  inflight : list sqe;              (* in the kernel *)
  cq : list cqe;
  eventfd_ : Z;                     (* the counter *)
  ready_queue_ : list (option handle);
  callback_queue_ : list nat;
  timer_queue_ : list TimerRequest;
  pending_timeouts_ : list nat;
  running_ : bool;
  stop_requested_ : bool;
}.

Definition set_ring (s : list sqe) (i : list sqe) (c : list cqe) (e : IoUringExecutor) : IoUringExecutor :=
  mkUring (queue_depth e) s i c (eventfd_ e) (ready_queue_ e) (callback_queue_ e) (timer_queue_ e)
    (pending_timeouts_ e) (running_ e) (stop_requested_ e).
Definition set_eventfd (z : Z) (e : IoUringExecutor) : IoUringExecutor :=
  mkUring (queue_depth e) (sq e) (inflight e) (cq e) z (ready_queue_ e) (callback_queue_ e) (timer_queue_ e)
    (pending_timeouts_ e) (running_ e) (stop_requested_ e).
Definition set_queues (r : list (option handle)) (c : list nat) (t : list TimerRequest) (e : IoUringExecutor)
    : IoUringExecutor :=
  mkUring (queue_depth e) (sq e) (inflight e) (cq e) (eventfd_ e) r c t (pending_timeouts_ e) (running_ e)
    (stop_requested_ e).
Definition set_pending (p : list nat) (e : IoUringExecutor) : IoUringExecutor :=
  mkUring (queue_depth e) (sq e) (inflight e) (cq e) (eventfd_ e) (ready_queue_ e) (callback_queue_ e)
    (timer_queue_ e) p (running_ e) (stop_requested_ e).
Definition set_flags (running stop : bool) (e : IoUringExecutor) : IoUringExecutor :=
  mkUring (queue_depth e) (sq e) (inflight e) (cq e) (eventfd_ e) (ready_queue_ e) (callback_queue_ e)
    (timer_queue_ e) (pending_timeouts_ e) running stop.

(** [io_uring_get_sqe] with its preparation: [None] when the queue is full. *)
Definition get_sqe (x : sqe) (e : IoUringExecutor) : option IoUringExecutor :=
  if (length (sq e) <? queue_depth e)%nat then Some (set_ring (sq e ++ [x]) (inflight e) (cq e) e) else None.
(** [io_uring_submit]. *)
Definition submit (e : IoUringExecutor) : IoUringExecutor :=
  set_ring [] (inflight e ++ sq e) (cq e) e.

(** [SubmitWakeupRead]: nothing when the queue is full. *)
Definition SubmitWakeupRead (e : IoUringExecutor) : IoUringExecutor :=
  default e (get_sqe (mkSqe PrepReadEventfd Wakeup) e).
(** The constructor, without provided buffers. *)
Definition new_uring (depth : nat) : IoUringExecutor :=
  submit (SubmitWakeupRead (mkUring depth [] [] [] 0 [] [] [] [] false false)).

(** [Create]: the results of the one or two ring initialisations and of
    eventfd; the second component says whether the ring is exited again. *)
Definition EPERM : Z := 1.
Definition Create (depth : nat) (sqpoll : bool) (init1 init2 efd : Z)
    : Errors.Result IoUringExecutor error_code * bool :=
  let ret := if (init1 <? 0) && sqpoll && (init1 =? - EPERM) then init2 else init1 in
  if ret <? 0 then (Err (make_error_code IoUringInitFailed), false)
  else if efd <? 0 then (Err (make_error_code EventfdFailed), true)
  else (Ok (new_uring depth), false).

Record usys := USys {
  ex : IoUringExecutor;
  at_ : at_loop;
  writing : nat;                    (* threads between their push and the write *)
  next_ctx : nat;                   (* timeout contexts allocated so far *)
  freed : list nat;                 (* deleted contexts *)
  log : list event;
  lost_wakeups : nat;               (* SubmitWakeupRead found the queue full *)
  scheduled : list (option handle);
  posted : list nat;
  armed : list TimerRequest;
  started : list (nat * handle);    (* I/O operations that suspended their coroutine *)
}.

Definition with_ex (e : IoUringExecutor) (s : usys) : usys :=
  USys e (at_ s) (writing s) (next_ctx s) (freed s) (log s) (lost_wakeups s) (scheduled s) (posted s) (armed s) (started s).
Definition goto (a : at_loop) (s : usys) : usys :=
  USys (ex s) a (writing s) (next_ctx s) (freed s) (log s) (lost_wakeups s) (scheduled s) (posted s) (armed s) (started s).
Definition note_call (hs : list (option handle)) (cbs : list nat) (ts : list TimerRequest) (w : nat) (s : usys) : usys :=
  USys (ex s) (at_ s) w (next_ctx s) (freed s) (log s) (lost_wakeups s)
    (scheduled s ++ hs) (posted s ++ cbs) (armed s ++ ts) (started s).
Definition note_run (evs : list event) (fr : list nat) (s : usys) : usys :=
  USys (ex s) (at_ s) (writing s) (next_ctx s) (freed s ++ fr) (log s ++ evs) (lost_wakeups s)
    (scheduled s) (posted s) (armed s) (started s).
Definition note_ctx (n : nat) (s : usys) : usys :=
  USys (ex s) (at_ s) (writing s) n (freed s) (log s) (lost_wakeups s) (scheduled s) (posted s) (armed s) (started s).
Definition note_lost (n : nat) (s : usys) : usys :=
  USys (ex s) (at_ s) (writing s) (next_ctx s) (freed s) (log s) n (scheduled s) (posted s) (armed s) (started s).
Definition note_start (l : list (nat * handle)) (s : usys) : usys :=
  USys (ex s) (at_ s) (writing s) (next_ctx s) (freed s) (log s) (lost_wakeups s) (scheduled s) (posted s) (armed s)
    (started s ++ l).

(** ** The operations *)

(** Schedule, ScheduleAfter, Post: the push; the eventfd write is [UWrite]. *)
Definition Schedule (h : option handle) (s : usys) : usys :=
  let e := ex s in
  note_call [h] [] [] (S (writing s)) (with_ex (set_queues (ready_queue_ e ++ [h]) (callback_queue_ e) (timer_queue_ e) e) s).
Definition ScheduleAfter (d : Z) (h : option handle) (s : usys) : usys :=
  let e := ex s in let r := mkRequest d h in
  note_call [] [] [r] (S (writing s)) (with_ex (set_queues (ready_queue_ e) (callback_queue_ e) (timer_queue_ e ++ [r]) e) s).
Definition Post (cb : nat) (s : usys) : usys :=
  let e := ex s in
  note_call [] [cb] [] (S (writing s)) (with_ex (set_queues (ready_queue_ e) (callback_queue_ e ++ [cb]) (timer_queue_ e) e) s).
Definition Stop (s : usys) : usys :=
  note_call [] [] [] (S (writing s)) (with_ex (set_flags (running_ (ex s)) true (ex s)) s).
Definition IsRunning (e : IoUringExecutor) : bool := running_ e.

(** The executor interface. *)
#[export] Instance uring_executor : Executor usys := {
  ex_schedule h := Schedule (Some h);
  ex_schedule_after _ d h := ScheduleAfter d (Some h);
  ex_queued e := omap id (ready_queue_ (ex e));
  ex_timers e := omap (λ r, (λ h, (delay r, h)) <$> request_handle r) (timer_queue_ (ex e));
  ex_time _ _ d := d;
}.
#[export] Instance uring_executor_laws : ExecutorLaws usys.
Proof.
  split; try done; intros; simpl; rewrite omap_app; simpl; [done|]. by rewrite Permutation_app_comm.
Qed.

(** [ProcessCompletions], one entry. *)
Definition process_completion (c : cqe) (s : usys) : usys :=
  match cqe_data c with
  | Wakeup =>
      match get_sqe (mkSqe PrepReadEventfd Wakeup) (ex s) with
      | Some e => with_ex e s
      | None => note_lost (S (lost_wakeups s)) s
      end
  | Timeout ctx r =>
      note_run [EvTimeout ctx r (res c)] [ctx]
        (with_ex (set_pending (filter (λ x, x ≠ ctx) (pending_timeouts_ (ex s))) (ex s)) s)
  | IO ctx h => note_run [EvIO ctx h (res c) (flags c)] [] s
  end.

(** [ProcessReadyQueue], one timer request. *)
Definition process_timer (r : TimerRequest) (s : usys) : usys :=
  let ctx := next_ctx s in
  let s1 := note_ctx (S ctx) s in
  match get_sqe (mkSqe (timespec (delay r)) (Timeout ctx r)) (ex s) with
  | Some e => with_ex (set_pending (pending_timeouts_ e ++ [ctx]) e) s1
  | None => note_run [EvNow ctx r] [ctx] s1
  end.

(** The loop thread's next step. *)
Definition loop_step (s : usys) : option usys :=
  let e := ex s in
  match at_ s with
  | UOut => None
  | UTop false =>
      if stop_requested_ e then Some (goto UOut (with_ex (set_flags false (stop_requested_ e) e) s))
      else Some (goto UWait (with_ex (submit e) s))
  | UTop true => Some (goto (if bool_decide (cq e = []) then UReady true else UCompletions true 0) (with_ex (submit e) s))
  | UWait => if bool_decide (cq e = []) then None else Some (goto (UCompletions false 0) s)
  | UCompletions once n =>
      match cq e !! n with
      | Some c => Some (goto (UCompletions once (S n)) (process_completion c s))
      | None => Some (goto (UReady once) (with_ex (set_ring (sq e) (inflight e) (drop n (cq e)) e) s))
      end
  | UReady once =>
      Some (goto (UProcess once (ready_queue_ e) (callback_queue_ e) (timer_queue_ e)) (with_ex (set_queues [] [] [] e) s))
  | UProcess once (h :: hs) cbs ts => Some (goto (UProcess once hs cbs ts) (note_run [EvResume h] [] s))
  | UProcess once [] (cb :: cbs) ts => Some (goto (UProcess once [] cbs ts) (note_run [EvCall cb] [] s))
  | UProcess once [] [] (r :: ts) => Some (goto (UProcess once [] [] ts) (process_timer r s))
  | UProcess once [] [] [] => Some (goto (if once then UOut else UTop false) s)
  end.

(** ** The awaitables of I/O

    All of them suspend through the same steps; they differ in the entry they
    prepare, and the one that receives into provided buffers leaves the
    submission to the loop. *)
Definition ENXIO : Z := 6.
Definition EAGAIN : Z := 11.
Definition O_CLOEXEC_NONBLOCK : Z := Z.lor 0x80000 0x800.   (* SOCK_CLOEXEC | SOCK_NONBLOCK *)
Definition to_unsigned (z : Z) : Z := z mod 2 ^ 32.

(** The result of [await_suspend]: suspended, or [ctx_.result] without it. *)
Inductive suspension := Suspended | Immediate (result : Z).
Definition await_suspend_io (x : request) (now : bool) (ctx : nat) (h : handle) (executor : option IoUringExecutor)
    : suspension * option IoUringExecutor :=
  match executor with
  | None => (Immediate (- ENXIO), None)
  | Some e =>
      match get_sqe (mkSqe x (IO ctx h)) e with
      | None => (Immediate (- EAGAIN), Some e)
      | Some e' => (Suspended, Some (if now then submit e' else e'))
      end
  end.

Definition Accept_await_suspend (listen_fd : Z) (addr : sockaddr) (fl : Z) :=
  await_suspend_io (PrepAccept listen_fd addr (Z.lor fl O_CLOEXEC_NONBLOCK)) true.
Definition Connect_await_suspend (fd : Z) (addr : sockaddr) := await_suspend_io (PrepConnect fd addr) true.
Definition Recv_await_suspend (fd buf len fl : Z) :=
  await_suspend_io (PrepRecv fd buf (to_unsigned len) fl None) true.
Definition RecvProvided_await_suspend (fd bgid fl : Z) :=
  await_suspend_io (PrepRecv fd 0 0 fl (Some bgid)) false.
Definition Send_await_suspend (fd buf len fl : Z) := await_suspend_io (PrepSend fd buf (to_unsigned len) fl) true.
Definition OpenAt_await_suspend (dirfd : Z) (path : string) (fl mode : Z) :=
  await_suspend_io (PrepOpenat dirfd path fl mode) true.
Definition ReadFile_await_suspend (fd buf nbytes offset : Z) := await_suspend_io (PrepRead fd buf nbytes offset) true.
Definition WriteFile_await_suspend (fd buf nbytes offset : Z) := await_suspend_io (PrepWrite fd buf nbytes offset) true.
Definition Close_await_suspend (fd : Z) := await_suspend_io (PrepClose fd) true.
Definition Fsync_await_suspend (fd fl : Z) := await_suspend_io (PrepFsync fd fl) true.
Definition Statx_await_suspend (dirfd : Z) (path : string) (fl mask buf : Z) :=
  await_suspend_io (PrepStatx dirfd path fl mask buf) true.
Definition UnlinkAt_await_suspend (dirfd : Z) (path : string) (fl : Z) :=
  await_suspend_io (PrepUnlinkat dirfd path fl) true.
Definition MkdirAt_await_suspend (dirfd : Z) (path : string) (mode : Z) :=
  await_suspend_io (PrepMkdirat dirfd path mode) true.

Inductive ulabel :=
  | USchedule (h : option handle) | UPost (cb : nat) | UAfter (d : Z) (h : option handle) | UStop
  | UWrite                                       (* some thread writes the eventfd *)
  | UKernel (i : nat) (res flags : Z)            (* an operation in flight completes *)
  | URun | URunOnce
  | ULoop
  | UInterrupted | UFatal                        (* waiting fails *)
  | UIo (x : request) (now : bool) (ctx : nat) (h : handle).   (* a coroutine on the loop awaits *)

(** The write saturates (a non-blocking write fails at 2^64 - 2). *)
Definition ustep (l : ulabel) (s : usys) : option usys :=
  let e := ex s in
  match l with
  | USchedule h => Some (Schedule h s)
  | UPost cb => Some (Post cb s)
  | UAfter d h => Some (ScheduleAfter d h s)
  | UStop => Some (Stop s)
  | UWrite =>
      match writing s with
      | O => None
      | S w => Some (note_call [] [] [] w
                 (with_ex (set_eventfd (if eventfd_ e + 1 <? size_mod - 1 then eventfd_ e + 1 else eventfd_ e) e) s))
      end
  | UKernel i r f =>
      match inflight e !! i with
      | Some x =>
          let done z := Some (with_ex (set_eventfd z (set_ring (sq e) (delete i (inflight e)) (cq e ++ [mkCqe r f (user_data x)]) e)) s) in
          match user_data x with
          | Wakeup => if 0 <? eventfd_ e then done 0 else None
          | _ => done (eventfd_ e)
          end
      | None => None
      end
  | URun => match at_ s with UOut => Some (goto (UTop false) (with_ex (set_flags true false e) s)) | _ => None end
  | URunOnce => match at_ s with UOut => Some (goto (UTop true) s) | _ => None end
  | ULoop => loop_step s
  | UInterrupted => match at_ s with UWait => Some (goto (UTop false) s) | _ => None end
  | UFatal => match at_ s with UWait => Some (goto UOut (with_ex (set_flags false (stop_requested_ e) e) s)) | _ => None end
  | UIo x now ctx h =>
      match await_suspend_io x now ctx h (Some e) with
      | (Suspended, Some e') => Some (note_start [(ctx, h)] (with_ex e' s))
      | (Immediate _, Some e') => Some (with_ex e' s)
      | (_, None) => None
      end
  end.

Definition uinit (depth : nat) : usys := USys (new_uring depth) UOut 0 0 [] [] 0 [] [] [] [].
Definition ureachable (depth : nat) (s : usys) : Prop := reachable ustep (uinit depth) s.

(** ** Accounting *)

Definition resumes (l : list event) : list (option handle) := omap (λ e, match e with EvResume h => Some h | _ => None end) l.
Definition callbacks (l : list event) : list nat := omap (λ e, match e with EvCall cb => Some cb | _ => None end) l.
Definition fired (l : list event) : list TimerRequest := omap (λ e, match e with EvTimeout _ r _ | EvNow _ r => Some r | _ => None end) l.
Definition completed (l : list event) : list (nat * handle) := omap (λ e, match e with EvIO c h _ _ => Some (c, h) | _ => None end) l.
Definition local_handles (a : at_loop) : list (option handle) := match a with UProcess _ hs _ _ => hs | _ => [] end.
Definition local_callbacks (a : at_loop) : list nat := match a with UProcess _ _ cbs _ => cbs | _ => [] end.
Definition local_requests (a : at_loop) : list TimerRequest := match a with UProcess _ _ _ ts => ts | _ => [] end.

(** What is with the kernel or on its way there or back. *)
Definition unprocessed (s : usys) : list cqe := match at_ s with UCompletions _ n => drop n (cq (ex s)) | _ => cq (ex s) end.
Definition outstanding (s : usys) : list data :=
  (user_data <$> sq (ex s)) ++ (user_data <$> inflight (ex s)) ++ (cqe_data <$> unprocessed s).
Definition contexts (ds : list data) : list nat := omap (λ d, match d with Timeout c _ => Some c | _ => None end) ds.
Definition requests (ds : list data) : list TimerRequest := omap (λ d, match d with Timeout _ r => Some r | _ => None end) ds.
Definition operations (ds : list data) : list (nat * handle) := omap (λ d, match d with IO c h => Some (c, h) | _ => None end) ds.
Definition wakeups (ds : list data) : list unit := omap (λ d, match d with Wakeup => Some tt | _ => None end) ds.

(** The accounts, given what is outstanding. *)
Record accounts (ds : list data) (s : usys) : Prop := {
  ua_pending : contexts ds ≡ₚ pending_timeouts_ (ex s);
  ua_memory : seq 0 (next_ctx s) ≡ₚ freed s ++ pending_timeouts_ (ex s);
  ua_timers : armed s ≡ₚ requests ds ++ fired (log s) ++ local_requests (at_ s) ++ timer_queue_ (ex s);
  ua_io : started s ≡ₚ operations ds ++ completed (log s);
  ua_wakeup : (length (wakeups ds) + lost_wakeups s = 1)%nat;
  ua_handles : scheduled s = resumes (log s) ++ local_handles (at_ s) ++ ready_queue_ (ex s);
  ua_calls : posted s = callbacks (log s) ++ local_callbacks (at_ s) ++ callback_queue_ (ex s);
}.

Lemma accounts_perm ds ds' s : ds ≡ₚ ds' → accounts ds s → accounts ds' s.
Proof.
  intros Hp [H1 H2 H3 H4 H5 H6 H7]. unfold contexts, requests, operations, wakeups in *.
  split; try done; unfold contexts, requests, operations, wakeups; rewrite <-?Hp; done.
Qed.

(** The queues will be looked at. *)
Definition will_swap (a : at_loop) : bool :=
  match a with UTop true | UCompletions _ _ | UReady _ => true | _ => false end.
Definition queues_empty (e : IoUringExecutor) : bool :=
  bool_decide (ready_queue_ e = []) && bool_decide (callback_queue_ e = []) && bool_decide (timer_queue_ e = []).
Definition will_look (s : usys) : Prop :=
  (0 < writing s)%nat ∨ 0 < eventfd_ (ex s) ∨ Wakeup ∈ (cqe_data <$> unprocessed s) ∨ will_swap (at_ s) = true.

Record uinv (s : usys) : Prop := {
  ui_accounts : accounts (outstanding s) s;
  ui_bound : ∀ once n, at_ s = UCompletions once n → (n ≤ length (cq (ex s)))%nat;
  ui_counter : 0 <= eventfd_ (ex s);
  ui_look : queues_empty (ex s) = false → will_look s;
}.

Lemma unprocessed_snoc s e c :
  (∀ once n, at_ s = UCompletions once n → (n ≤ length (cq (ex s)))%nat) → cq e = cq (ex s) ++ [c] →
  unprocessed (with_ex e s) = unprocessed s ++ [c].
Proof.
  intros Hb Hc. unfold unprocessed. simpl. rewrite Hc. destruct (at_ s) as [| | |once n| |]; try done.
  apply drop_app_le. by apply (Hb once n).
Qed.

Lemma get_sqe_spec x e e' :
  get_sqe x e = Some e' →
  sq e' = sq e ++ [x] ∧ inflight e' = inflight e ∧ cq e' = cq e ∧ eventfd_ e' = eventfd_ e ∧
  ready_queue_ e' = ready_queue_ e ∧ callback_queue_ e' = callback_queue_ e ∧
  timer_queue_ e' = timer_queue_ e ∧ pending_timeouts_ e' = pending_timeouts_ e ∧ queues_empty e' = queues_empty e.
Proof. unfold get_sqe. case_match; [|done]. by intros [= <-]. Qed.

(** Steps that leave the queues, the log and the timers alone. *)
Lemma accounts_ring ds s e :
  accounts ds s → pending_timeouts_ e = pending_timeouts_ (ex s) → ready_queue_ e = ready_queue_ (ex s) →
  callback_queue_ e = callback_queue_ (ex s) → timer_queue_ e = timer_queue_ (ex s) → accounts ds (with_ex e s).
Proof. intros [H1 H2 H3 H4 H5 H6 H7] Ep Er Ec Et. split; simpl; by rewrite ?Ep, ?Er, ?Ec, ?Et. Qed.

Lemma uinv_submit s : uinv s → uinv (with_ex (submit (ex s)) s).
Proof.
  intros [H1 H2 H3 H4]. split; try done. eapply accounts_perm; [|by apply accounts_ring].
  unfold outstanding. simpl. rewrite fmap_app. change (unprocessed (with_ex (submit (ex s)) s)) with (unprocessed s).
  solve_Permutation.
Qed.

(** Moving the loop thread between phases with nothing in hand. *)
Lemma uinv_goto s a :
  uinv s → local_handles a = local_handles (at_ s) → local_callbacks a = local_callbacks (at_ s) →
  local_requests a = local_requests (at_ s) → unprocessed (goto a s) = unprocessed s →
  (∀ once n, a = UCompletions once n → (n ≤ length (cq (ex s)))%nat) →
  (will_swap (at_ s) = true → will_swap a = true) → uinv (goto a s).
Proof.
  intros [[A1 A2 A3 A4 A5 A6 A7] H2 H3 H4] Eh Ec Er Eu Hb Hw. split; simpl; try done.
  - unfold outstanding. rewrite Eu. simpl. split; simpl; by rewrite ?Eh, ?Ec, ?Er.
  - intros Hq. destruct (H4 Hq) as [Hl|[Hl|[Hl|Hl]]]; [by left|by right; left| |].
    + right; right; left. by rewrite Eu.
    + right; right; right. simpl. auto.
Qed.

Lemma uinv_flags s r b : uinv s → uinv (with_ex (set_flags r b (ex s)) s).
Proof. intros [H1 H2 H3 H4]. split; try done. by apply accounts_ring. Qed.

Lemma contexts_app l1 l2 : contexts (l1 ++ l2) = contexts l1 ++ contexts l2. Proof. apply omap_app. Qed.
Lemma requests_app l1 l2 : requests (l1 ++ l2) = requests l1 ++ requests l2. Proof. apply omap_app. Qed.
Lemma operations_app l1 l2 : operations (l1 ++ l2) = operations l1 ++ operations l2. Proof. apply omap_app. Qed.
Lemma wakeups_app l1 l2 : wakeups (l1 ++ l2) = wakeups l1 ++ wakeups l2. Proof. apply omap_app. Qed.
Lemma fired_app l1 l2 : fired (l1 ++ l2) = fired l1 ++ fired l2. Proof. apply omap_app. Qed.
Lemma completed_app l1 l2 : completed (l1 ++ l2) = completed l1 ++ completed l2. Proof. apply omap_app. Qed.
Lemma resumes_app l1 l2 : resumes (l1 ++ l2) = resumes l1 ++ resumes l2. Proof. apply omap_app. Qed.
Lemma invoked_app l1 l2 : callbacks (l1 ++ l2) = callbacks l1 ++ callbacks l2. Proof. apply omap_app. Qed.

(** Timeout contexts in flight are distinct. *)
Lemma accounts_nodup ds s : accounts ds s → NoDup (pending_timeouts_ (ex s)).
Proof.
  intros [_ H2 _ _ _ _ _]. pose proof (NoDup_seq 0 (next_ctx s)) as Hn. rewrite H2 in Hn.
  by apply NoDup_app in Hn as (_ & _ & ?).
Qed.

Lemma filter_absent (l : list nat) c : c ∉ l → filter (λ x, x ≠ c) l = l.
Proof.
  induction l as [|x l IH]; [done|]. intros Hc. rewrite filter_cons, decide_True by set_solver.
  by rewrite IH by set_solver.
Qed.
Lemma filter_erase (l : list nat) c : NoDup l → c ∈ l → l ≡ₚ c :: filter (λ x, x ≠ c) l.
Proof.
  induction 1 as [|x l Hx Hn IH]; [by intros ?%not_elem_of_nil|].
  rewrite filter_cons. intros [->|Hin]%elem_of_cons.
  - rewrite decide_False by (intros Hc; by apply Hc). by rewrite filter_absent.
  - rewrite decide_True by by intros ->. rewrite (IH Hin) at 1. apply Permutation_swap.
Qed.

(** One completion: what it was is no longer outstanding, and is accounted for
    where it goes. *)
Lemma accounts_completion ds ds' s c :
  accounts ds s → ds ≡ₚ cqe_data c :: ds' →
  accounts (match cqe_data c with
            | Wakeup => match get_sqe (mkSqe PrepReadEventfd Wakeup) (ex s) with Some _ => Wakeup :: ds' | None => ds' end
            | _ => ds' end) (process_completion c s).
Proof.
  intros Ha Hds. pose proof (accounts_nodup _ _ Ha) as Hn. apply (accounts_perm _ _ _ Hds) in Ha.
  pose proof Ha as [H1 H2 H3 H4 H5 H6 H7]. unfold process_completion.
  destruct (cqe_data c) as [|ctx r|ctx h] eqn:Hc; simpl in *.
  - destruct (get_sqe _ (ex s)) as [e|] eqn:Hg.
    + apply get_sqe_spec in Hg as (_ & _ & _ & _ & Er & Ec & Et & Ep & _). by apply accounts_ring.
    + split; try done. simpl. unfold wakeups in *. simpl in *. lia.
  - assert (ctx ∈ pending_timeouts_ (ex s)) as Hin by (rewrite <-H1; unfold contexts; simpl; set_solver).
    pose proof (filter_erase _ ctx Hn Hin) as Hf. unfold contexts, requests in *. simpl in *.
    split; simpl; unfold contexts, requests; rewrite ?fired_app, ?completed_app, ?resumes_app, ?invoked_app; simpl;
      rewrite ?app_nil_r; try done.
    + rewrite Hf in H1. by apply (inj (cons ctx)) in H1.
    + rewrite H2, Hf at 1. solve_Permutation.
    + rewrite H3. solve_Permutation.
  - unfold operations in *. simpl in *.
    split; simpl; unfold operations; rewrite ?fired_app, ?completed_app, ?resumes_app, ?invoked_app; simpl;
      rewrite ?app_nil_r; try done. rewrite H4. solve_Permutation.
Qed.

(** Logging what the loop thread takes from its local lists. *)
Lemma uinv_run s once hs cbs ts hs' cbs' ev :
  uinv s → at_ s = UProcess once hs cbs ts →
  hs = resumes [ev] ++ hs' → cbs = callbacks [ev] ++ cbs' → fired [ev] = [] → completed [ev] = [] →
  uinv (goto (UProcess once hs' cbs' ts) (note_run [ev] [] s)).
Proof.
  intros [[A1 A2 A3 A4 A5 A6 A7] H2 H3 H4] Ha Hh Hc Hf Hi. rewrite Ha in *.
  cbn [local_handles local_callbacks local_requests] in *.
  split; simpl; try done.
  - assert (outstanding (goto (UProcess once hs' cbs' ts) (note_run [ev] [] s)) = outstanding s) as ->.
    { unfold outstanding, unprocessed. simpl. by rewrite Ha. }
    split; simpl; rewrite ?fired_app, ?completed_app, ?resumes_app, ?invoked_app, ?Hf, ?Hi, ?app_nil_r; try done.
    + by rewrite A6, Hh, <-!app_assoc.
    + by rewrite A7, Hc, <-!app_assoc.
  - intros Hq. destruct (H4 Hq) as [Hl|[Hl|[Hl|Hl]]]; [by left|by right; left| |by rewrite Ha in Hl].
    right; right; left. unfold unprocessed in *. simpl. by rewrite Ha in Hl.
Qed.

Lemma accounts_timer ds s r ts :
  accounts ds s → (∃ once, at_ s = UProcess once [] [] (r :: ts)) →
  accounts (match get_sqe (mkSqe (timespec (delay r)) (Timeout (next_ctx s) r)) (ex s) with
            | Some _ => Timeout (next_ctx s) r :: ds | None => ds end)
    (goto (UProcess true [] [] ts) (process_timer r s)).
Proof.
  intros [H1 H2 H3 H4 H5 H6 H7] [once Ha]. unfold process_timer. rewrite Ha in *. simpl in *.
  destruct (get_sqe _ (ex s)) as [e|] eqn:Hg.
  - apply get_sqe_spec in Hg as (_ & _ & _ & _ & Er & Ec & Et & Ep & _).
    unfold contexts, requests in *.
    split; simpl; unfold contexts, requests; simpl; rewrite ?Er, ?Ec, ?Et, ?Ep; try done.
    + rewrite H1. solve_Permutation.
    + change (0%nat :: seq 1 (next_ctx s)) with (seq 0 (S (next_ctx s))).
      rewrite seq_S, H2. simpl. solve_Permutation.
    + rewrite H3. solve_Permutation.
  - split; simpl; rewrite ?fired_app, ?completed_app, ?resumes_app, ?invoked_app; simpl; rewrite ?app_nil_r; try done.
    + change (0%nat :: seq 1 (next_ctx s)) with (seq 0 (S (next_ctx s))).
      rewrite seq_S, H2. simpl. solve_Permutation.
    + rewrite H3. solve_Permutation.
Qed.

Lemma process_completion_ring c s :
  at_ (process_completion c s) = at_ s ∧ inflight (ex (process_completion c s)) = inflight (ex s) ∧
  cq (ex (process_completion c s)) = cq (ex s) ∧ eventfd_ (ex (process_completion c s)) = eventfd_ (ex s) ∧
  sq (ex (process_completion c s)) =
    match cqe_data c with
    | Wakeup => match get_sqe (mkSqe PrepReadEventfd Wakeup) (ex s) with
        | Some _ => sq (ex s) ++ [mkSqe PrepReadEventfd Wakeup] | None => sq (ex s) end
    | _ => sq (ex s) end.
Proof.
  unfold process_completion. destruct (cqe_data c); simpl; try done.
  destruct (get_sqe _ (ex s)) as [e|] eqn:Hg; [|done].
  apply get_sqe_spec in Hg as (? & ? & ? & ? & _). done.
Qed.

Lemma uinv_completion s once n c :
  uinv s → at_ s = UCompletions once n → cq (ex s) !! n = Some c →
  uinv (goto (UCompletions once (S n)) (process_completion c s)).
Proof.
  intros [H1 H2 H3 H4] Ha Hc. destruct (process_completion_ring c s) as (Ra & Ri & Rc & Re & Rs).
  assert (outstanding s ≡ₚ cqe_data c :: (user_data <$> sq (ex s)) ++ (user_data <$> inflight (ex s)) ++
            (cqe_data <$> drop (S n) (cq (ex s)))) as Hds.
  { unfold outstanding, unprocessed. rewrite Ha, (drop_S _ _ _ Hc). simpl. solve_Permutation. }
  pose proof (accounts_completion _ _ _ _ H1 Hds) as Hacc.
  split; simpl.
  - assert (∀ ds s, accounts ds s → at_ s = UCompletions once n → accounts ds (goto (UCompletions once (S n)) s)) as Hgoto.
    { intros ds s0 [A1 A2 A3 A4 A5 A6 A7] E. rewrite E in *. by split. }
    apply Hgoto in Hacc; [|by rewrite Ra]. eapply accounts_perm; [|exact Hacc].
    unfold outstanding, unprocessed. simpl. rewrite Rs, Ri, Rc.
    destruct (cqe_data c); try done. destruct (get_sqe _ (ex s)); [|done]. rewrite fmap_app. simpl. solve_Permutation.
  - intros o m [= <- <-]. rewrite Rc. apply lookup_lt_Some in Hc. lia.
  - by rewrite Re.
  - intros _. by right; right; right.
Qed.

Lemma uinv_timer s once r ts :
  uinv s → at_ s = UProcess once [] [] (r :: ts) → uinv (goto (UProcess once [] [] ts) (process_timer r s)).
Proof.
  intros [H1 H2 H3 H4] Ha.
  pose proof (accounts_timer _ s r ts H1 (ex_intro _ once Ha)) as Hacc. unfold process_timer in *.
  destruct (get_sqe _ (ex s)) as [e|] eqn:Hg.
  - apply get_sqe_spec in Hg as (Es & Ei & Ec & Ev & _ & _ & _ & _ & Eq).
    assert (∀ p, queues_empty (set_pending p e) = queues_empty e) as Hqp by done.
    split; simpl; try done; [|by rewrite Ev|].
    + eapply accounts_perm; [|by destruct Hacc; split].
      unfold outstanding, unprocessed. simpl. rewrite Ha, Es, Ei, Ec, fmap_app. simpl. solve_Permutation.
    + rewrite Hqp, Eq. intros Hq. destruct (H4 Hq) as [Hl|[Hl|[Hl|Hl]]]; [by left| | |by rewrite Ha in Hl].
      * right; left. simpl. by rewrite Ev.
      * right; right; left. unfold unprocessed in *. simpl. by rewrite Ec, Ha in *.
  - split; simpl; try done.
    + eapply accounts_perm; [|by destruct Hacc; split]. unfold outstanding, unprocessed. simpl. by rewrite Ha.
    + intros Hq. destruct (H4 Hq) as [Hl|[Hl|[Hl|Hl]]]; [by left|by right; left| |by rewrite Ha in Hl].
      right; right; left. unfold unprocessed in *. simpl. by rewrite Ha in *.
Qed.

Lemma uinv_loop s s' : uinv s → loop_step s = Some s' → uinv s'.
Proof.
  intros Hs Hst. unfold loop_step in Hst. destruct (at_ s) as [|[]| |once n|once|once hs cbs ts] eqn:Ha.
  - done.
  - injection Hst as <-. apply uinv_submit in Hs.
    apply uinv_goto; try done; simpl; rewrite ?Ha; try by case_bool_decide.
    + unfold unprocessed. simpl. rewrite Ha. by case_bool_decide.
    + intros o m. case_bool_decide; [done|]. intros [= _ <-]. lia.
  - destruct (stop_requested_ (ex s)); injection Hst as <-.
    + apply uinv_goto; simpl; rewrite ?Ha; try done; [by apply uinv_flags|]. unfold unprocessed. simpl. by rewrite Ha.
    + apply uinv_goto; simpl; rewrite ?Ha; try done; [by apply uinv_submit|]. unfold unprocessed. simpl. by rewrite Ha.
  - case_bool_decide; [done|]. injection Hst as <-. apply uinv_goto; simpl; rewrite ?Ha; try done.
    + unfold unprocessed. simpl. by rewrite Ha.
    + intros o m [= _ <-]. lia.
  - destruct (cq (ex s) !! n) as [c|] eqn:Hc; injection Hst as <-; [by eapply uinv_completion|].
    destruct Hs as [[A1 A2 A3 A4 A5 A6 A7] H2 H3 H4]. split; simpl; try done.
    + rewrite Ha in *. unfold outstanding, unprocessed in *. simpl. rewrite Ha in *. by split.
    + intros _. by right; right; right.
  - injection Hst as <-. destruct Hs as [[A1 A2 A3 A4 A5 A6 A7] H2 H3 H4]. split; simpl; try done.
    rewrite Ha in *. unfold outstanding, unprocessed in *. simpl. rewrite Ha in *. simpl in *.
    split; simpl; rewrite ?app_nil_r; try done.
  - destruct hs as [|h hs]; [destruct cbs as [|cb cbs]; [destruct ts as [|r ts]|]|]; injection Hst as <-.
    + apply uinv_goto; simpl; rewrite ?Ha; destruct once; try done; unfold unprocessed; simpl; by rewrite Ha.
    + by apply uinv_timer.
    + by eapply uinv_run.
    + by eapply uinv_run.
Qed.

Lemma uinv_push s hs cbs ts e :
  uinv s → scheduled s ++ hs = resumes (log s) ++ local_handles (at_ s) ++ ready_queue_ e →
  posted s ++ cbs = callbacks (log s) ++ local_callbacks (at_ s) ++ callback_queue_ e →
  timer_queue_ e = timer_queue_ (ex s) ++ ts →
  sq e = sq (ex s) → inflight e = inflight (ex s) → cq e = cq (ex s) → eventfd_ e = eventfd_ (ex s) →
  pending_timeouts_ e = pending_timeouts_ (ex s) →
  uinv (note_call hs cbs ts (S (writing s)) (with_ex e s)).
Proof.
  intros [[A1 A2 A3 A4 A5 A6 A7] H2 H3 H4] Eh Ecb Et Es Ei Ec Ev Ep. split; simpl; [|by rewrite Ec|by rewrite Ev|].
  - assert (outstanding (note_call hs cbs ts (S (writing s)) (with_ex e s)) = outstanding s) as ->.
    { unfold outstanding, unprocessed. simpl. by rewrite Es, Ei, Ec. }
    split; simpl; rewrite ?Ep, ?Et; try done. rewrite A3. solve_Permutation.
  - intros _. left. simpl. lia.
Qed.

Lemma uinv_kernel s i r f s' : uinv s → ustep (UKernel i r f) s = Some s' → uinv s'.
Proof.
  intros [H1 H2 H3 H4] Hst. simpl in Hst. destruct (inflight (ex s) !! i) as [x|] eqn:Hi; [|done].
  assert (∀ z, 0 <= z → (user_data x = Wakeup ∨ z = eventfd_ (ex s)) →
    uinv (with_ex (set_eventfd z (set_ring (sq (ex s)) (delete i (inflight (ex s)))
            (cq (ex s) ++ [mkCqe r f (user_data x)]) (ex s))) s)) as Hgo.
  { intros z Hz Hx. set (e := set_eventfd z _).
    assert (unprocessed (with_ex e s) = unprocessed s ++ [mkCqe r f (user_data x)]) as Hu by by apply unprocessed_snoc.
    split; simpl; try done.
    - eapply accounts_perm; [|by apply accounts_ring]. unfold outstanding. rewrite Hu. simpl.
      pose proof (fmap_Permutation user_data _ _ (delete_Permutation _ _ _ Hi)) as Hp. simpl in Hp.
      rewrite Hp, fmap_app. simpl. solve_Permutation.
    - intros once n Ha. specialize (H2 once n Ha). rewrite length_app. lia.
    - intros Hq. destruct (H4 Hq) as [Hl|[Hl|[Hl|Hl]]]; [by left| | |by right; right; right].
      + destruct Hx as [Hx| ->]; [|by right; left]. right; right; left. rewrite Hu, fmap_app, Hx. simpl. set_solver.
      + right; right; left. rewrite Hu, fmap_app. set_solver. }
  destruct (user_data x) eqn:Hx; [|injection Hst as <-; apply Hgo; auto..].
  destruct (Z.ltb_spec 0 (eventfd_ (ex s))); [|done]. injection Hst as <-. apply Hgo; auto. lia.
Qed.

Lemma uinv_io s x now ctx h s' : uinv s → ustep (UIo x now ctx h) s = Some s' → uinv s'.
Proof.
  intros Hs Hst. simpl in Hst. destruct (get_sqe _ (ex s)) as [e|] eqn:Hg; simpl in Hst;
    [|injection Hst as <-; by destruct s].
  apply get_sqe_spec in Hg as (Es & Ei & Ec & Ev & Er & Ecb & Et & Ep & Eq).
  injection Hst as <-.
  assert (uinv (note_start [(ctx, h)] (with_ex e s))) as Hn.
  { destruct Hs as [[A1 A2 A3 A4 A5 A6 A7] H2 H3 H4].
    assert (outstanding (note_start [(ctx, h)] (with_ex e s)) ≡ₚ IO ctx h :: outstanding s) as Ho.
    { unfold outstanding, unprocessed. simpl. rewrite Es, Ei, Ec, fmap_app. simpl. solve_Permutation. }
    split; simpl; rewrite ?Ec, ?Ev; try done.
    - apply (accounts_perm (IO ctx h :: outstanding s)); [by rewrite Ho|]. unfold operations in *.
      split; simpl; unfold operations; simpl; rewrite ?Ep, ?Er, ?Ecb, ?Et; try done. rewrite A4. solve_Permutation.
    - rewrite Eq. intros Hq. destruct (H4 Hq) as [Hl|[Hl|[Hl|Hl]]]; [by left| | |by right; right; right].
      + right; left. simpl. by rewrite Ev.
      + right; right; left. unfold unprocessed in *. simpl. by rewrite Ec. }
  destruct now; [|exact Hn]. apply uinv_submit in Hn. exact Hn.
Qed.

Lemma uinv_step l s s' : uinv s → ustep l s = Some s' → uinv s'.
Proof.
  intros Hs Hst. pose proof Hs as [[A1 A2 A3 A4 A5 A6 A7] H2 H3 H4].
  destruct l as [h|cb|d h| | |i r f| | | | | |x now ctx h];
    [..|by eapply uinv_kernel| | | | | |by eapply uinv_io]; simpl in Hst.
  - injection Hst as <-. apply uinv_push; simpl; rewrite ?app_nil_r; try done. by rewrite A6, <-!app_assoc.
  - injection Hst as <-. apply uinv_push; simpl; rewrite ?app_nil_r; try done. by rewrite A7, <-!app_assoc.
  - injection Hst as <-. apply uinv_push; simpl; rewrite ?app_nil_r; done.
  - injection Hst as <-. apply uinv_push; simpl; rewrite ?app_nil_r; done.
  - destruct (writing s) as [|w] eqn:Hw; [done|]. injection Hst as <-.
    match goal with |- context [set_eventfd ?z (ex s)] => assert (0 < z) as Hz end.
    { destruct (Z.ltb_spec (eventfd_ (ex s) + 1) (size_mod - 1)) as [|Hb]; [lia|]. unfold size_mod in Hb. lia. }
    split; simpl; try done; [|lia|intros _; by right; left].
    split; simpl; rewrite ?app_nil_r; done.
  - destruct (at_ s) eqn:Ha; try done. injection Hst as <-.
    apply uinv_goto; simpl; rewrite ?Ha; try done; [by apply uinv_flags|]. unfold unprocessed. simpl. by rewrite Ha.
  - destruct (at_ s) eqn:Ha; try done. injection Hst as <-.
    apply uinv_goto; simpl; rewrite ?Ha; try done. unfold unprocessed. simpl. by rewrite Ha.
  - by eapply uinv_loop.
  - destruct (at_ s) eqn:Ha; try done. injection Hst as <-.
    apply uinv_goto; simpl; rewrite ?Ha; try done. unfold unprocessed. simpl. by rewrite Ha.
  - destruct (at_ s) eqn:Ha; try done. injection Hst as <-.
    apply uinv_goto; simpl; rewrite ?Ha; try done; [by apply uinv_flags|]. unfold unprocessed. simpl. by rewrite Ha.
Qed.

Lemma uinv_init depth : (0 < depth)%nat → uinv (uinit depth).
Proof.
  intros Hd. assert (new_uring depth = mkUring depth [] [mkSqe PrepReadEventfd Wakeup] [] 0 [] [] [] [] false false) as E.
  { unfold new_uring, SubmitWakeupRead, get_sqe. simpl. by rewrite (proj2 (Nat.ltb_lt 0 depth) Hd). }
  unfold uinit. rewrite E. by split.
Qed.

(** While the loop waits, the read of the eventfd has been submitted. *)
Definition wake_submitted (s : usys) : Prop := at_ s = UWait → Wakeup ∉ (user_data <$> sq (ex s)).
Lemma wake_submitted_step l s s' : wake_submitted s → ustep l s = Some s' → wake_submitted s'.
Proof.
  unfold wake_submitted. intros Hs Hst. destruct l; simpl in Hst.
  - by injection Hst as <-.
  - by injection Hst as <-.
  - by injection Hst as <-.
  - by injection Hst as <-.
  - case_match; [done|]. by injection Hst as <-.
  - destruct (inflight (ex s) !! i) as [x|]; [|done]. destruct (user_data x); [case_match; [|done]|..]; by injection Hst as <-.
  - case_match; try done. by injection Hst as <-.
  - case_match; try done. by injection Hst as <-.
  - unfold loop_step in Hst. destruct (at_ s) as [|[]| |once n|once|once hs cbs ts] eqn:Ha; try done.
    + injection Hst as <-. simpl. by case_bool_decide.
    + case_match; injection Hst as <-; simpl; [done|]. intros _. by apply not_elem_of_nil.
    + case_match; [done|]. by injection Hst as <-.
    + case_match; by injection Hst as <-.
    + by injection Hst as <-.
    + destruct hs; [destruct cbs; [destruct ts|]|]; injection Hst as <-; simpl; try done. by destruct once.
  - case_match; try done. by injection Hst as <-.
  - case_match; try done. by injection Hst as <-.
  - destruct (get_sqe _ (ex s)) as [e|] eqn:Hg; simpl in Hst; injection Hst as <-; [|done].
    apply get_sqe_spec in Hg as (Es & _). destruct now; simpl; intros Ha.
    + by apply not_elem_of_nil.
    + rewrite Es, fmap_app. specialize (Hs Ha). simpl. set_solver.
Qed.

Lemma ureachable_inv depth s : (0 < depth)%nat → ureachable depth s → uinv s ∧ wake_submitted s.
Proof.
  intros Hd. apply (reachable_inv ustep (λ s, uinv s ∧ wake_submitted s)).
  - split; [by apply uinv_init|]. done.
  - intros l s1 s2 [H1 H2] Hst. split; [by eapply uinv_step|by eapply wake_submitted_step].
Qed.

(** [~IoUringExecutor]: the contexts it deletes, first those of completions
    not yet processed, then the rest of [pending_timeouts_]. *)
Definition dtor_deletes (e : IoUringExecutor) : list nat :=
  let drained := contexts (cqe_data <$> cq e) in
  drained ++ filter (λ c, c ∉ drained) (pending_timeouts_ e).

Lemma split_filter (l d r : list nat) : NoDup l → l ≡ₚ d ++ r → d ++ filter (λ c, c ∉ d) l ≡ₚ l.
Proof.
  intros Hn Hp. pose proof Hn as Hn2. rewrite Hp in Hn2. apply NoDup_app in Hn2 as (_ & Hd & _).
  rewrite Hp at 2. apply Permutation_app_head. rewrite Hp, filter_app.
  assert (filter (λ c, c ∉ d) d = []) as ->.
  { assert (∀ l', (∀ x, x ∈ l' → x ∈ d) → filter (λ c, c ∉ d) l' = []) as Hf; [|by apply Hf].
    induction l' as [|x l' IH]; [done|]. intros Hx. rewrite filter_cons, decide_False; [set_solver|].
    intros Hc. apply Hc. set_solver. }
  simpl. clear Hp Hn. induction r as [|x r IH]; [done|]. rewrite filter_cons, decide_True.
  - constructor. apply IH. intros y Hy Hr. apply (Hd y Hy). set_solver.
  - intros Hx. apply (Hd x Hx). set_solver.
Qed.

(** C14. On the io_uring executor, whatever the interleaving with other threads
    and the kernel: coroutines and callbacks are run in order, each once; each
    delayed coroutine is waiting or resumed once; an I/O operation that
    suspended its coroutine is outstanding or has resumed it, once; and every
    timeout's context is deleted exactly once, those in flight by the
    destructor. *)
Theorem iouring_exactly_once depth s :
  (0 < depth)%nat → ureachable depth s →
  scheduled s = resumes (log s) ++ local_handles (at_ s) ++ ready_queue_ (ex s) ∧
  posted s = callbacks (log s) ++ local_callbacks (at_ s) ++ callback_queue_ (ex s) ∧
  armed s ≡ₚ requests (outstanding s) ++ fired (log s) ++ local_requests (at_ s) ++ timer_queue_ (ex s) ∧
  started s ≡ₚ operations (outstanding s) ++ completed (log s) ∧
  (at_ s = UOut → freed s ++ dtor_deletes (ex s) ≡ₚ seq 0 (next_ctx s)).
Proof.
  intros Hd Hr. destruct (ureachable_inv depth s Hd Hr) as [[Ha _ _ _] _].
  pose proof (accounts_nodup _ _ Ha) as Hn. destruct Ha as [H1 H2 H3 H4 H5 H6 H7].
  split_and!; try done. intros Hat. rewrite H2. apply Permutation_app_head. unfold dtor_deletes.
  apply (split_filter _ _ (contexts ((user_data <$> sq (ex s)) ++ (user_data <$> inflight (ex s))))); [done|].
  rewrite <-H1. unfold outstanding, unprocessed. rewrite Hat, !contexts_app. solve_Permutation.
Qed.

(** C15. The loop is not left asleep.  As long as the read of the eventfd could
    always be re-armed, a non-empty queue means that a write to the eventfd is
    coming, or the counter is up, or the wake-up's completion is there, or the
    loop is on its way to the queues; and when it waits with something queued,
    some thread's write, the completion of the read, or its own next step is
    possible. *)
Theorem iouring_no_lost_wakeup depth s :
  (0 < depth)%nat → ureachable depth s → lost_wakeups s = 0%nat → queues_empty (ex s) = false →
  will_look s ∧
  (at_ s = UWait → ∃ l s', ustep l s = Some s' ∧
     match l with UWrite | ULoop => True | UKernel i _ _ => user_data <$> inflight (ex s) !! i = Some Wakeup | _ => False end).
Proof.
  intros Hd Hr Hl Hq. destruct (ureachable_inv depth s Hd Hr) as [[Ha Hb Hc Hlook] Hw].
  split; [by apply Hlook|]. intros Hat. specialize (Hw Hat).
  destruct (decide (cq (ex s) = [])) as [Hcq|Hcq].
  2:{ exists ULoop. eexists. simpl. unfold loop_step. rewrite Hat, bool_decide_eq_false_2 by done. done. }
  destruct (Hlook Hq) as [H|[H|[H|H]]].
  - exists UWrite. simpl. destruct (writing s); [lia|]. eexists. done.
  - pose proof (ua_wakeup _ _ Ha) as Hwk. rewrite Hl in Hwk.
    assert (Wakeup ∈ (user_data <$> inflight (ex s))) as Hin.
    { assert (Wakeup ∈ outstanding s) as Hin.
      { destruct (wakeups (outstanding s)) as [|[] l] eqn:E; [simpl in Hwk; lia|].
        assert (tt ∈ wakeups (outstanding s)) as Hin by (rewrite E; set_solver).
        apply list_elem_of_omap in Hin as (d & Hin & Hd'). by destruct d. }
      unfold outstanding, unprocessed in Hin. rewrite Hat, Hcq in Hin. set_solver. }
    apply list_elem_of_fmap in Hin as (x & Hx & Hin). apply list_elem_of_lookup_1 in Hin as [i Hi].
    exists (UKernel i 8 0). simpl. rewrite Hi, <-Hx, (proj2 (Z.ltb_lt 0 _) H). eexists. split; [done|]. simpl. by rewrite <-Hx.
  - unfold unprocessed in H. rewrite Hat, Hcq in H. by apply not_elem_of_nil in H.
  - by rewrite Hat in H.
Qed.

(** A coroutine scheduled from outside, a timer, a receive. *)
Definition uring_demo : list ulabel :=
  [URun; ULoop; USchedule (Some 1%nat); UWrite; UKernel 0 8 0; ULoop; ULoop; ULoop; ULoop; UAfter 1500 (Some 2%nat);
   ULoop; UIo (PrepRecv 3 100 64 0 None) true 7 9%nat; ULoop; UKernel 1 64 0; ULoop; ULoop; ULoop; ULoop; ULoop;
   ULoop; ULoop].
Lemma iouring_exactly_once_witness :
  ∃ s, run ustep uring_demo (uinit 4) = Some s ∧
  log s = [EvResume (Some 1%nat); EvIO 7 9%nat 64 0] ∧ pending_timeouts_ (ex s) = [0%nat] ∧
  (at_ s = UOut → freed s ++ dtor_deletes (ex s) ≡ₚ seq 0 (next_ctx s)).
Proof.
  eexists. split; [vm_compute; reflexivity|]. split; [vm_compute; reflexivity|]. split; [vm_compute; reflexivity|].
  apply (iouring_exactly_once 4); [lia|]. apply reachable_run. exists uring_demo. vm_compute. reflexivity.
Defined.

Lemma iouring_no_lost_wakeup_witness :
  ∃ s, run ustep [URun; ULoop; USchedule (Some 1%nat); UWrite] (uinit 4) = Some s ∧
  lost_wakeups s = 0%nat ∧ queues_empty (ex s) = false ∧ at_ s = UWait ∧ will_look s.
Proof.
  eexists. do 4 (split; [vm_compute; reflexivity|]).
  apply (iouring_no_lost_wakeup 4); [lia| |reflexivity|reflexivity].
  apply reachable_run. exists [URun; ULoop; USchedule (Some 1%nat); UWrite]. vm_compute. reflexivity.
Defined.

(** The submission queue is full when the wake-up is processed (receives into
    provided buffers are not submitted at once): the read is not re-armed, and
    nothing retries.  Afterwards a write wakes nobody. *)
Example iouring_wakeup_lost :
  ∃ s, run ustep
    [URun; ULoop; USchedule (Some 1%nat); UWrite; UKernel 0 8 0; ULoop;
     UIo (PrepRecv 3 0 0 0 (Some 0)) false 7 9%nat; ULoop; ULoop; ULoop; ULoop; ULoop; ULoop;
     USchedule (Some 2%nat); UWrite] (uinit 1) = Some s ∧
  lost_wakeups s = 1%nat ∧ at_ s = UWait ∧ cq (ex s) = [] ∧ ready_queue_ (ex s) = [Some 2%nat] ∧ eventfd_ (ex s) = 1 ∧
  user_data <$> inflight (ex s) = [IO 7 9%nat].
Proof. eexists. split; [vm_compute; reflexivity|]. vm_compute. by split_and?. Qed.

(** The length of a receive is cut to 32 bits: 4 GiB is a receive of nothing. *)
Example iouring_recv_length :
  (ex <$> (ustep (UIo (PrepRecv 3 100 (to_unsigned (2 ^ 32)) 0 None) true 7 9%nat) (uinit 4)))
    ≫= (λ e, last (req <$> inflight e)) = Some (PrepRecv 3 100 0 0 None).
Proof. by vm_compute. Qed.

(** ** Provided buffers *)

Record buffer_ring := mkRing { group_id : Z; ring_size : Z; buffer_size : Z; allocated : Z }.
(** The address of a buffer, relative to the block: a 16-bit index times a
    32-bit size, computed in 32 bits. *)
Definition buffer_offset (bid : Z) (r : buffer_ring) : Z := to_unsigned (bid * buffer_size r).
(** [SetupBufferRing], given what liburing and posix_memalign say: the ring and
    the buffers given to the kernel, by index and offset. *)
Definition SetupBufferRing (setup_ok alloc_ok : bool) (group size bsize : Z)
    : Errors.Result (buffer_ring * list (Z * Z)) error_code :=
  if negb setup_ok then Err (make_error_code IoUringInitFailed)
  else if negb alloc_ok then Err (make_error_code IoUringInitFailed)
  else let r := mkRing group size bsize (size * bsize) in
       Ok (r, (λ i, (Z.of_nat i, buffer_offset (Z.of_nat i) r)) <$> seq 0 (Z.to_nat size)).
(** What an executor holds besides its queues.  The constructor keeps the buffer
    ring and its block, or neither: SetupBufferRing frees the ring when it has no
    memory for the block. *)
Inductive resource := TheRing | TheEventfd | BufRing | BufRingData.
#[export] Instance resource_eq_dec : EqDecision resource.
Proof. solve_decision. Defined.
Definition acquire (provided_buffers setup_ok alloc_ok : bool) : list resource * list resource (* freed at once *) :=
  let buffers := if provided_buffers && setup_ok then BufRing :: (if alloc_ok then [BufRingData] else []) else [] in
  ([TheRing; TheEventfd] ++ buffers, if provided_buffers && setup_ok && negb alloc_ok then [BufRing] else []).
(** [~IoUringExecutor], after the contexts. *)
Definition release (buf_ring_ buf_ring_data_ : bool) (eventfd : Z) : list resource :=
  (if buf_ring_ then [BufRing] else []) ++ (if buf_ring_data_ then [BufRingData] else []) ++
  (if 0 <=? eventfd then [TheEventfd] else []) ++ [TheRing].

(** Whatever the setup of the buffers met, what was acquired is released once. *)
Lemma resources_released provided setup_ok alloc_ok efd : 0 <= efd →
  let '(acquired, freed_at_once) := acquire provided setup_ok alloc_ok in
  let kept := provided && setup_ok && alloc_ok in
  acquired ≡ₚ freed_at_once ++ release kept kept efd.
Proof.
  intros He. unfold release. rewrite (proj2 (Z.leb_le 0 efd)) by done.
  destruct provided, setup_ok, alloc_ok; by apply (bool_decide_unpack _); vm_compute.
Qed.

(** [ReturnBuffer]: only a buffer of this ring is given back. *)
Definition ReturnBuffer (bgid bid : Z) (ring : option buffer_ring) : option (Z * Z) :=
  match ring with
  | None => None
  | Some r =>
      if negb (bgid =? group_id r) || (ring_size r <=? bid) then None else Some (bid, buffer_offset bid r)
  end.

(** Within 4 GiB, a returned buffer lies in the block, on its own place. *)
Lemma return_buffer_bounds bgid bid r b off :
  0 <= bid → 0 <= buffer_size r → allocated r = ring_size r * buffer_size r → allocated r <= 2 ^ 32 →
  ReturnBuffer bgid bid (Some r) = Some (b, off) →
  b = bid ∧ bid < ring_size r ∧ (0 < buffer_size r → off = bid * buffer_size r ∧ off + buffer_size r <= allocated r).
Proof.
  intros H0 Hs Ha Hm Hr. unfold ReturnBuffer in Hr. destruct (negb _ || _) eqn:Hb; [done|]. injection Hr as <- <-.
  apply orb_false_elim in Hb as [_ Hb]. apply Z.leb_gt in Hb. split_and!; [done|done|]. intros Hp.
  unfold buffer_offset, to_unsigned. rewrite Z.mod_small; nia.
Qed.

(** Beyond, two buffers share their memory. *)
Example buffers_overlap :
  let r := mkRing 0 32768 262144 (32768 * 262144) in
  (ReturnBuffer 0 0 (Some r), ReturnBuffer 0 16384 (Some r)) = (Some (0, 0), Some (16384, 0)).
Proof. by vm_compute. Qed.
