(* ===== verification/Kernel.v ===== *)
(** * The operating system as a parameter

    The system calls the sockets and files use are not part of the library: the
    class [Kernel] lists the blocking ones and [Ring] the io_uring operations,
    as functions on a state [K] that also stands for the peers; [KernelLaws] and
    [RingLaws] state what the manual pages promise, in terms of observations of
    that state: the descriptors opened and closed so far, the bytes accepted on
    a descriptor, the bytes handed out on it, the contents of a file, whether a
    descriptor appends (O_APPEND).  Code that calls the system is written in the
    state monad [io K]; [wp m Q k] says that running [m] in [k] ends in [Q]. *)
From Stdlib Require Import Ascii.
From S2P Require Import Prelude.
Local Open Scope Z_scope.

(** ** The state monad *)

Definition io (K A : Type) : Type := K → A * K.
Definition ret {K A} (a : A) : io K A := λ k, (a, k).
Definition bind {K A B} (m : io K A) (f : A → io K B) : io K B := λ k, let (a, k') := m k in f a k'.
Notation "'let*' x := m 'in' f" := (bind m (fun x => f))
  (at level 10, x pattern, m at level 100, f at level 200, format "'[v' 'let*'  x  :=  m  'in' '/' f ']'").

Definition wp {K A} (m : io K A) (Q : A → K → Prop) (k : K) : Prop := Q (m k).1 (m k).2.

Section Wp.
Context {K : Type}.

Lemma wp_ret {A} (a : A) (Q : A → K → Prop) k : Q a k → wp (ret a) Q k.
Proof. done. Qed.

Lemma wp_bind {A B} (f : A → io K B) m (Q : B → K → Prop) k :
  wp m (λ a k', wp (f a) Q k') k → wp (bind m f) Q k.
Proof.
  unfold wp, bind. by destruct (m k).
Qed.

Lemma wp_mono {A} (m : io K A) (Q Q' : A → K → Prop) k :
  (∀ a k', Q a k' → Q' a k') → wp m Q k → wp m Q' k.
Proof. unfold wp. eauto. Qed.

(** What [wp] says about one run. *)
Lemma wp_run {A} (m : io K A) (Q : A → K → Prop) k a k' : wp m Q k → m k = (a, k') → Q a k'.
Proof. unfold wp. intros HQ E. by rewrite E in HQ. Qed.
End Wp.

(** Run the first call of a sequence by its law. *)
Ltac wp_apply law := apply wp_bind; eapply wp_mono; [|by eapply law]; cbn beta.

(** ** Bytes and addresses *)

Definition bytes := list ascii.
Definition size (b : bytes) : Z := Z.of_nat (length b).
Definition take_z (n : Z) (b : bytes) : bytes := take (Z.to_nat n) b.
Definition drop_z (n : Z) (b : bytes) : bytes := drop (Z.to_nat n) b.

(** Host to network order on a little-endian machine, and back. *)
Definition htons (p : Z) : Z := Z.lor (Z.shiftl (Z.land p 255) 8) (Z.shiftr p 8).
Definition ntohs : Z → Z := htons.

(** A [sockaddr_in]: port and address in network order. *)
Record sockaddr_in := mkAddr { sin_port : Z; sin_addr : Z }.

(** ** System calls *)

(** Results are the C return values: negative on failure. *)
Class Kernel (K : Type) := {
  errno : K → Z;
  inet_pton : string → option Z;                   (* None: not a dotted quad *)
  getaddrinfo : string → io K (Z * option Z);      (* the error, the first address if any *)
  sys_socket : Z → io K Z;                         (* the type with its flags *)
  sys_setsockopt : Z → io K Z;
  sys_bind : Z → sockaddr_in → io K Z;
  sys_listen : Z → Z → io K Z;
  sys_connect : Z → sockaddr_in → io K Z;
  sys_getsockname : Z → io K (option sockaddr_in);
  sys_accept : Z → io K Z;
  sys_send : Z → bytes → Z → io K Z;               (* the bytes at the pointer, and the length *)
  sys_recv : Z → Z → io K (Z * bytes);             (* the result and what was written *)
  sys_close : Z → io K unit
}.

Inductive fd_event := Opened (fd : Z) | Closed (fd : Z).

Class KernelLaws (K : Type) `{Kernel K} := {
  fd_log : K → list fd_event;
  accepted : Z → K → bytes;
  handed : Z → K → bytes;
  same (k k' : K) : Prop :=
    fd_log k' = fd_log k ∧ (∀ fd, accepted fd k' = accepted fd k) ∧ (∀ fd, handed fd k' = handed fd k);
  opens (r : Z) (k k' : K) : Prop :=
    if r <? 0 then same k k'
    else fd_log k' = fd_log k ++ [Opened r] ∧
         (∀ fd, accepted fd k' = accepted fd k) ∧ (∀ fd, handed fd k' = handed fd k);
  getaddrinfo_law host k : wp (getaddrinfo host) (λ _ k', same k k') k;
  socket_law ty k : wp (sys_socket ty) (λ r k', opens r k k') k;
  setsockopt_law fd k : wp (sys_setsockopt fd) (λ _ k', same k k') k;
  bind_law fd a k : wp (sys_bind fd a) (λ _ k', same k k') k;
  listen_law fd n k : wp (sys_listen fd n) (λ _ k', same k k') k;
  connect_law fd a k : wp (sys_connect fd a) (λ _ k', same k k') k;
  getsockname_law fd k : wp (sys_getsockname fd) (λ _ k', same k k') k;
  accept_law fd k : wp (sys_accept fd) (λ r k', opens r k k') k;
  send_law fd b n k : wp (sys_send fd b n)
    (λ r k', r ≤ n ∧ fd_log k' = fd_log k ∧ (∀ fd, handed fd k' = handed fd k) ∧
       accepted fd k' = accepted fd k ++ take_z r b ∧
       (∀ fd', fd' ≠ fd → accepted fd' k' = accepted fd' k)) k;
  recv_law fd n k : 0 ≤ n → wp (sys_recv fd n)
    (λ x k', x.1 ≤ n ∧ size x.2 = Z.max 0 x.1 ∧ fd_log k' = fd_log k ∧
       (∀ fd, accepted fd k' = accepted fd k) ∧
       handed fd k' = handed fd k ++ x.2 ∧
       (∀ fd', fd' ≠ fd → handed fd' k' = handed fd' k)) k;
  close_law fd k : wp (sys_close fd)
    (λ _ k', fd_log k' = fd_log k ++ [Closed fd] ∧
       (∀ fd, accepted fd k' = accepted fd k) ∧ (∀ fd, handed fd k' = handed fd k)) k
}.

(** ** io_uring operations *)

(** [co_await IoUringXxx(...)] as the coroutine sees it: one call, whose result
    is the completion's (or -ENXIO, -EAGAIN when the awaitable did not get as
    far as the kernel).  Lengths are the 32-bit ones of the submission entry. *)
Class Ring (K : Type) `{Kernel K} := {
  ring_accept : Z → io K Z;
  ring_connect : Z → sockaddr_in → io K Z;
  ring_recv : Z → Z → io K (Z * bytes);
  ring_recv_provided : Z → Z → io K (Z * Z);        (* the result and the completion's flags *)
  ring_memory : Z → Z → K → bytes;                  (* offset in the block of provided buffers, length *)
  ring_provide : Z → Z → io K unit;                 (* a buffer id and its offset, back to the ring *)
  ring_send : Z → bytes → Z → io K Z;
  ring_openat : string → Z → Z → io K Z;
  ring_read : Z → Z → Z → io K (Z * bytes);         (* descriptor, length, offset *)
  ring_write : Z → bytes → Z → Z → io K Z;
  ring_fsync : Z → Z → io K Z;
  ring_close : Z → io K Z;
  ring_statx : Z → string → Z → io K (Z * Z);       (* the result and stx_size *)
  ring_unlink : string → io K Z;
  ring_mkdir : string → Z → io K Z
}.

(** [pwrite]: overwrite at an offset, filling a gap with zeros; on Linux a
    descriptor opened with O_APPEND appends, whatever the offset. *)
Definition overwrite (off : Z) (b c : bytes) : bytes :=
  take_z off (c ++ replicate (Z.to_nat (off - size c)) Ascii.zero) ++ b ++ drop_z (off + size b) c.

Definition pwrite (append : bool) (off : Z) (b c : bytes) : bytes :=
  if append then c ++ b else overwrite off b c.

Class RingLaws (K : Type) `{KernelLaws K, !Ring K} := {
  contents : Z → K → bytes;                         (* of the file behind a descriptor *)
  append_mode : Z → K → bool;                       (* the descriptor was opened with O_APPEND *)
  quiet (k k' : K) : Prop := same k k' ∧ ∀ fd, contents fd k' = contents fd k;
  ring_accept_law fd k : wp (ring_accept fd) (λ r k', opens r k k') k;
  ring_connect_law fd a k : wp (ring_connect fd a) (λ _ k', same k k') k;
  ring_recv_law fd n k : 0 <= n → wp (ring_recv fd n)
    (λ x k', x.1 <= n ∧ size x.2 = Z.max 0 x.1 ∧ fd_log k' = fd_log k ∧
       (∀ fd, accepted fd k' = accepted fd k) ∧ handed fd k' = handed fd k ++ x.2 ∧
       (∀ fd', fd' ≠ fd → handed fd' k' = handed fd' k)) k;
  ring_recv_provided_law fd g k : wp (ring_recv_provided fd g)
    (λ x k', fd_log k' = fd_log k ∧ (∀ fd, accepted fd k' = accepted fd k) ∧
       (∀ fd', fd' ≠ fd → handed fd' k' = handed fd' k)) k;
  ring_provide_law b off k : wp (ring_provide b off) (λ _ k', same k k') k;
  ring_send_law fd b n k : wp (ring_send fd b n)
    (λ r k', r <= n ∧ fd_log k' = fd_log k ∧ (∀ fd, handed fd k' = handed fd k) ∧
       accepted fd k' = accepted fd k ++ take_z r b ∧
       (∀ fd', fd' ≠ fd → accepted fd' k' = accepted fd' k)) k;
  ring_openat_law p fl mode k : wp (ring_openat p fl mode) (λ r k', opens r k k') k;
  ring_close_law fd k : wp (ring_close fd) (λ _ k', fd_log k' = fd_log k ++ [Closed fd]) k;
  ring_statx_law fd p fl k : wp (ring_statx fd p fl)
    (λ x k', quiet k k' ∧ (0 <= x.1 → p = ""%string → x.2 = size (contents fd k))) k;
  (* a read gives the bytes at the offset, at most [n], none only at the end *)
  ring_read_law fd n off k : 0 <= n → 0 <= off → wp (ring_read fd n off)
    (λ x k', quiet k k' ∧ x.1 <= n ∧
       (0 <= x.1 → x.2 = take_z x.1 (drop_z off (contents fd k)) ∧ size x.2 = x.1) ∧
       (x.1 = 0 → 0 < n → size (contents fd k) <= off)) k;
  (* a write puts a prefix at the offset, or at the end of the file in append mode, whatever the offset *)
  ring_write_law fd b n off k : 0 <= off → wp (ring_write fd b n off)
    (λ r k', r <= n ∧ same k k' ∧ append_mode fd k' = append_mode fd k ∧
       contents fd k' = (if 0 <? r then pwrite (append_mode fd k) off (take_z r b) (contents fd k) else contents fd k)) k
}.

(** ** Lemmas on slices *)

Lemma size_nonneg b : 0 <= size b.
Proof. unfold size. lia. Qed.

Lemma size_app b c : size (b ++ c) = size b + size c.
Proof. unfold size. rewrite length_app. lia. Qed.

Lemma take_z_nonpos n b : n <= 0 → take_z n b = [].
Proof. intros. unfold take_z. by replace (Z.to_nat n) with 0%nat by lia. Qed.

Lemma take_z_all n b : size b <= n → take_z n b = b.
Proof. unfold size, take_z. intros. apply take_ge. lia. Qed.

Lemma take_z_more m n b : 0 <= m → 0 <= n → take_z m b ++ take_z n (drop_z m b) = take_z (m + n) b.
Proof. intros. unfold take_z, drop_z. rewrite take_take_drop, Z2Nat.inj_add by lia. done. Qed.

Lemma drop_z_drop m n b : 0 <= m → 0 <= n → drop_z m (drop_z n b) = drop_z (n + m) b.
Proof. intros. unfold drop_z. rewrite drop_drop, Z2Nat.inj_add by lia. done. Qed.

Lemma size_drop n b : 0 <= n <= size b → size (drop_z n b) = size b - n.
Proof. unfold size, drop_z. intros. rewrite length_drop. lia. Qed.

Lemma size_take n b : 0 <= n <= size b → size (take_z n b) = n.
Proof. unfold size, take_z. intros. rewrite length_take. lia. Qed.

Lemma htons_testbit p n : 0 <= n →
  Z.testbit (htons p) n = (Z.testbit p (n - 8) && (n <? 16)) || Z.testbit p (n + 8).
Proof.
  intros Hn. unfold htons. rewrite Z.lor_spec, Z.shiftl_spec, Z.shiftr_spec, Z.land_spec by lia.
  f_equal. change 255 with (Z.ones 8). destruct (Z.ltb_spec (n - 8) 0).
  { by rewrite !(Z.testbit_neg_r _ (n - 8)) by lia. }
  f_equal. destruct (Z.ltb_spec n 16); [rewrite Z.ones_spec_low|rewrite Z.ones_spec_high]; done || lia.
Qed.

(** A port survives the two conversions. *)
Lemma ntohs_htons p : 0 <= p < 65536 → ntohs (htons p) = p.
Proof.
  intros Hp. apply Z.bits_inj'. intros n Hn. unfold ntohs.
  assert (∀ m, 16 <= m → Z.testbit p m = false) as Hhigh.
  { intros m Hm. destruct (decide (p = 0)) as [->|]; [apply Z.bits_0|].
    apply Z.bits_above_log2; [lia|].
    enough (Z.log2 p < 16) by lia. apply Z.log2_lt_pow2; lia. }
  rewrite htons_testbit, (htons_testbit _ (n + 8)) by lia.
  replace (n + 8 - 8) with n by lia. rewrite (Hhigh (n + 8 + 8)), orb_false_r by lia.
  destruct (Z.ltb_spec n 8).
  { rewrite (Z.testbit_neg_r _ (n - 8)) by lia. destruct (Z.ltb_spec (n + 8) 16); [|lia].
    by rewrite andb_true_r. }
  destruct (Z.ltb_spec (n + 8) 16); [lia|]. rewrite andb_false_r, orb_false_r.
  rewrite htons_testbit by lia. replace (n - 8 + 8) with n by lia.
  destruct (Z.ltb_spec n 16); [|by rewrite andb_false_r, Hhigh by lia].
  rewrite (Z.testbit_neg_r _ (n - 8 - 8)) by lia. by rewrite andb_true_r.
Qed.

Lemma size_nil : size [] = 0.
Proof. done. Qed.

Lemma drop_z_app n b c : drop_z (size b + n) (b ++ c) = drop_z n c ∨ n < 0.
Proof.
  destruct (Z.ltb_spec n 0); [by right|left]. unfold drop_z, size.
  rewrite drop_app_ge by lia. f_equal. lia.
Qed.
