(* ===== verification/Trace.v ===== *)
(** * A system with the record of the calls made on it

    The library's code runs on any [Kernel]; run on [traced K], a system [K]
    together with the list of the calls made and what each of them returned, it
    does what it does on [K], and leaves the record behind.  A theorem about a
    traced system can then say which call an error comes from.  [traced K]
    satisfies the laws of [Kernel] whenever [K] does. *)
From S2P Require Import Prelude Kernel.
Local Open Scope Z_scope.

(** A call that returned, with its result. *)
Inductive sys_call :=
  | CGetaddrinfo (err : Z) (address : option Z)
  | CSocket (r : Z) | CSetsockopt (r : Z) | CBind (r : Z) | CListen (r : Z) | CConnect (r : Z)
  | CGetsockname (name : option sockaddr_in) | CAccept (r : Z) | CSend (r : Z) | CRecv (r : Z) | CClose
  | UAccept (r : Z) | UConnect (r : Z) | URecv (r : Z) | URecvProvided (r : Z) | UProvide | USend (r : Z)
  | UOpenat (r : Z) | URead (r : Z) | UWrite (r : Z) | UFsync (r : Z) | UClose (r : Z) | UStatx (r : Z)
  | UUnlink (r : Z) | UMkdir (r : Z).

Record traced (K : Type) := Traced { system : K; calls_made : list sys_call }.
Arguments Traced {K} system calls_made.
Arguments system {K} t.
Arguments calls_made {K} t.

(** A call on the system, noted. *)
Definition recorded {K A} (call : A → sys_call) (m : io K A) : io (traced K) A :=
  λ k, let (a, s) := m (system k) in (a, Traced s (calls_made k ++ [call a])).

Lemma wp_recorded {K A} (call : A → sys_call) (m : io K A) (Q : A → traced K → Prop) k :
  wp m (λ a s, Q a (Traced s (calls_made k ++ [call a]))) (system k) → wp (recorded call m) Q k.
Proof. unfold wp, recorded. by destruct (m (system k)). Qed.

(** What was noted since. *)
Definition made (cs : list sys_call) {K} (k k' : traced K) : Prop := calls_made k' = calls_made k ++ cs.
Lemma made_refl {K} (k : traced K) : made [] k k.
Proof. unfold made. by rewrite app_nil_r. Qed.
Lemma made_trans {K} cs ds (k1 k2 k3 : traced K) : made cs k1 k2 → made ds k2 k3 → made (cs ++ ds) k1 k3.
Proof. unfold made. intros E1 E2. by rewrite E2, E1, app_assoc. Qed.
Lemma made_cons {K} c ds (k1 k2 k3 : traced K) : made [c] k1 k2 → made ds k2 k3 → made (c :: ds) k1 k3.
Proof. apply (made_trans [c]). Qed.

(** Two facts about one run. *)
Lemma wp_and {K A} (m : io K A) (P Q : A → K → Prop) k : wp m P k → wp m Q k → wp m (λ a k', P a k' ∧ Q a k') k.
Proof. done. Qed.
Lemma wp_made {K A} (call : A → sys_call) (m : io K A) k : wp (recorded call m) (λ a k', made [call a] k k') k.
Proof. apply wp_recorded. by unfold wp. Qed.

(** Run the first call of a sequence by its law, and note it. *)
Tactic Notation "wp_traced" uconstr(law) constr(call) :=
  apply wp_bind; eapply wp_mono; [|apply wp_and; [by eapply law|exact (wp_made call _ _)]]; cbn beta.

Tactic Notation "wp_noted" constr(call) :=
  apply wp_bind; eapply wp_mono; [|exact (wp_made call _ _)]; cbn beta.

#[export] Instance traced_kernel {K} `{Kernel K} : Kernel (traced K) := {
  errno k := errno (system k);
  inet_pton := inet_pton;
  getaddrinfo h := recorded (λ x, CGetaddrinfo x.1 x.2) (getaddrinfo h);
  sys_socket ty := recorded CSocket (sys_socket ty);
  sys_setsockopt fd := recorded CSetsockopt (sys_setsockopt fd);
  sys_bind fd a := recorded CBind (sys_bind fd a);
  sys_listen fd n := recorded CListen (sys_listen fd n);
  sys_connect fd a := recorded CConnect (sys_connect fd a);
  sys_getsockname fd := recorded CGetsockname (sys_getsockname fd);
  sys_accept fd := recorded CAccept (sys_accept fd);
  sys_send fd b n := recorded CSend (sys_send fd b n);
  sys_recv fd n := recorded (λ x, CRecv x.1) (sys_recv fd n);
  sys_close fd := recorded (λ _, CClose) (sys_close fd)
}.

#[export] Program Instance traced_laws {K} `{KernelLaws K} : KernelLaws (traced K) := {
  fd_log k := fd_log (system k);
  accepted fd k := accepted fd (system k);
  handed fd k := handed fd (system k)
}.
Next Obligation. intros. apply wp_recorded. exact (getaddrinfo_law host _). Qed.
Next Obligation. intros. apply wp_recorded. exact (socket_law ty _). Qed.
Next Obligation. intros. apply wp_recorded. exact (setsockopt_law fd _). Qed.
Next Obligation. intros. apply wp_recorded. exact (bind_law fd a _). Qed.
Next Obligation. intros. apply wp_recorded. exact (listen_law fd n _). Qed.
Next Obligation. intros. apply wp_recorded. exact (connect_law fd a _). Qed.
Next Obligation. intros. apply wp_recorded. exact (getsockname_law fd _). Qed.
Next Obligation. intros. apply wp_recorded. exact (accept_law fd _). Qed.
Next Obligation. intros. apply wp_recorded. exact (send_law fd b n _). Qed.
Next Obligation. intros ??? fd n k Hn. apply wp_recorded. exact (recv_law fd n _ Hn). Qed.
Next Obligation. intros. apply wp_recorded. exact (close_law fd _). Qed.

#[export] Instance traced_ring {K} `{Ring K} : Ring (traced K) := {
  ring_accept fd := recorded UAccept (ring_accept fd);
  ring_connect fd a := recorded UConnect (ring_connect fd a);
  ring_recv fd n := recorded (λ x, URecv x.1) (ring_recv fd n);
  ring_recv_provided fd g := recorded (λ x, URecvProvided x.1) (ring_recv_provided fd g);
  ring_memory off n k := ring_memory off n (system k);
  ring_provide b off := recorded (λ _, UProvide) (ring_provide b off);
  ring_send fd b n := recorded USend (ring_send fd b n);
  ring_openat p fl mode := recorded UOpenat (ring_openat p fl mode);
  ring_read fd n off := recorded (λ x, URead x.1) (ring_read fd n off);
  ring_write fd b n off := recorded UWrite (ring_write fd b n off);
  ring_fsync fd fl := recorded UFsync (ring_fsync fd fl);
  ring_close fd := recorded UClose (ring_close fd);
  ring_statx fd p fl := recorded (λ x, UStatx x.1) (ring_statx fd p fl);
  ring_unlink p := recorded UUnlink (ring_unlink p);
  ring_mkdir p mode := recorded UMkdir (ring_mkdir p mode)
}.

#[export] Program Instance traced_ring_laws {K} `{RingLaws K} : RingLaws (traced K) := {
  contents fd k := contents fd (system k);
  append_mode fd k := append_mode fd (system k)
}.
Next Obligation. intros. apply wp_recorded. exact (ring_accept_law fd _). Qed.
Next Obligation. intros. apply wp_recorded. exact (ring_connect_law fd a _). Qed.
Next Obligation. intros ????? fd n k Hn. apply wp_recorded. exact (ring_recv_law fd n _ Hn). Qed.
Next Obligation. intros. apply wp_recorded. exact (ring_recv_provided_law fd g _). Qed.
Next Obligation. intros. apply wp_recorded. exact (ring_provide_law b off _). Qed.
Next Obligation. intros. apply wp_recorded. exact (ring_send_law fd b n _). Qed.
Next Obligation. intros. apply wp_recorded. exact (ring_openat_law p fl mode _). Qed.
Next Obligation. intros. apply wp_recorded. exact (ring_close_law fd _). Qed.
Next Obligation. intros. apply wp_recorded. exact (ring_statx_law fd p fl _). Qed.
Next Obligation. intros ????? fd n off k Hn Ho. apply wp_recorded. exact (ring_read_law fd n off _ Hn Ho). Qed.
Next Obligation. intros ????? fd b n off k Ho. apply wp_recorded. exact (ring_write_law fd b n off _ Ho). Qed.
