(* ===== verification/SyncTcp.v ===== *)
(** * SyncTcpStream and SyncTcpListener ([io/sync_tcp.hpp], [src/io/sync_tcp.cpp])

    The blocking sockets, over the system calls of [Kernel].  The loops of
    SendAll and RecvExact run on fuel; the number of bytes to transfer is
    enough, because every iteration transfers at least one or returns.  What an
    error says is stated over [traced] systems: it is that of the one call that
    failed. *)
From Stdlib Require Import Ascii String.
From S2P Require Import Prelude Raii Errors Kernel Trace.
Local Open Scope Z_scope.

(** ** Objects *)

Record SyncTcpStream := mkStream { fd_ : Z }.
Record SyncTcpListener := mkListener { listen_fd_ : Z; port_ : Z }.

Definition new_stream : SyncTcpStream := mkStream (-1).
Definition new_listener : SyncTcpListener := mkListener (-1) 0.
Definition IsOpen (s : SyncTcpStream) : bool := 0 <=? fd_ s.
Definition GetFd (s : SyncTcpStream) : Z := fd_ s.
Definition GetPort (l : SyncTcpListener) : Z := port_ l.

(** The descriptors a destructor, a move assignment or Close closes. *)
Definition closing (fd : Z) : list nat := if 0 <=? fd then [Z.to_nat fd] else [].

Module Stream.
Definition Close (s : SyncTcpStream) : SyncTcpStream * list nat :=
  if 0 <=? fd_ s then (mkStream (-1), [Z.to_nat (fd_ s)]) else (s, []).
Definition dtor (s : SyncTcpStream) : list nat := (Close s).2.
Definition move (other : SyncTcpStream) : SyncTcpStream * SyncTcpStream := (mkStream (fd_ other), mkStream (-1)).
Definition assign (self : bool) (this other : SyncTcpStream) : SyncTcpStream * SyncTcpStream * list nat :=
  if negb self then (mkStream (fd_ other), mkStream (-1), (Close this).2) else (this, other, []).
End Stream.

Module Listener.
Definition dtor (l : SyncTcpListener) : list nat := closing (listen_fd_ l).
Definition move (other : SyncTcpListener) : SyncTcpListener * SyncTcpListener :=
  (mkListener (listen_fd_ other) (port_ other), mkListener (-1) 0).
Definition assign (self : bool) (this other : SyncTcpListener) : SyncTcpListener * SyncTcpListener * list nat :=
  if negb self then (mkListener (listen_fd_ other) (port_ other), mkListener (-1) 0, closing (listen_fd_ this))
  else (this, other, []).
End Listener.

(** The descriptor an object owns. *)
Definition owned (fd : Z) : option nat := if 0 <=? fd then Some (Z.to_nat fd) else None.

#[export] Instance stream_owner : UniqueOwner SyncTcpStream nat :=
  { uo_make fd := mkStream (Z.of_nat fd); uo_held s := owned (fd_ s);
    uo_dtor := Stream.dtor; uo_move := Stream.move; uo_assign := Stream.assign }.
#[export] Instance listener_owner : UniqueOwner SyncTcpListener nat :=
  { uo_make fd := mkListener (Z.of_nat fd) 0; uo_held l := owned (listen_fd_ l);
    uo_dtor := Listener.dtor; uo_move := Listener.move; uo_assign := Listener.assign }.

(** ** Operations *)

Section Operations.
Context {K : Type} `{Kernel K}.

Definition SOCK_STREAM : Z := 1.
Definition fail {A} (e : Errc) : io K (Result A error_code) := ret (Err (make_error_code e)).
Definition close_and_fail {A} (fd : Z) (e : Errc) : io K (Result A error_code) := let* _ := sys_close fd in fail e.

(** The address of [host]: a dotted quad, or the first one the resolver gives. *)
Definition resolve (host : string) : io K (option Z) :=
  match inet_pton host with
  | Some a => ret (Some a)
  | None =>
      let* (err, result) := getaddrinfo host in
      ret (if negb (err =? 0) then None else result)
  end.

Definition Connect (host : string) (port : Z) : io K (Result SyncTcpStream error_code) :=
  let* sockfd := sys_socket SOCK_STREAM in
  if sockfd <? 0 then fail SocketCreateFailed else
  let* a := resolve host in
  match a with
  | None => close_and_fail sockfd ResolveFailed
  | Some a =>
      let* r := sys_connect sockfd (mkAddr (htons port) a) in
      if r <? 0 then close_and_fail sockfd ConnectFailed else ret (Ok (mkStream sockfd))
  end.

Definition Send (data : bytes) (s : SyncTcpStream) : io K (Result Z error_code) :=
  if fd_ s <? 0 then fail NotConnected else
  let* n := sys_send (fd_ s) data (size data) in
  if n <? 0 then fail SendFailed else ret (Ok n).

(** [None]: out of fuel. *)
Fixpoint SendAll_loop (fuel : nat) (fd : Z) (data : bytes) (sent : Z) : io K (option (Result unit error_code)) :=
  if sent <? size data then
    match fuel with
    | O => ret None
    | S fuel =>
        let* n := sys_send fd (drop_z sent data) (to_size (size data - sent)) in
        if n <=? 0 then ret (Some (Err (make_error_code SendFailed)))
        else SendAll_loop fuel fd data (to_size (sent + n))
    end
  else ret (Some (Ok tt)).

Definition SendAll (data : bytes) (s : SyncTcpStream) : io K (option (Result unit error_code)) :=
  if fd_ s <? 0 then ret (Some (Err (make_error_code NotConnected)))
  else SendAll_loop (length data) (fd_ s) data 0.

Definition Recv (max_bytes : Z) (s : SyncTcpStream) : io K (Result bytes error_code) :=
  if fd_ s <? 0 then fail NotConnected else
  let* (n, written) := sys_recv (fd_ s) max_bytes in
  if n <? 0 then fail RecvFailed else ret (Ok (take_z n written)).

(** [result]: the bytes received so far; the rest of the string is still zero. *)
Fixpoint RecvExact_loop (fuel : nat) (fd n received : Z) (result : bytes) : io K (option (Result bytes error_code)) :=
  if received <? n then
    match fuel with
    | O => ret None
    | S fuel =>
        let* (r, written) := sys_recv fd (to_size (n - received)) in
        if r <=? 0 then ret (Some (Err (make_error_code RecvFailed)))
        else RecvExact_loop fuel fd n (to_size (received + r)) (result ++ written)
    end
  else ret (Some (Ok result)).

Definition RecvExact (n : Z) (s : SyncTcpStream) : io K (option (Result bytes error_code)) :=
  if fd_ s <? 0 then ret (Some (Err (make_error_code NotConnected)))
  else RecvExact_loop (Z.to_nat n) (fd_ s) n 0 [].

Definition INADDR_ANY : Z := 0.
Definition Listen (host : string) (port backlog : Z) : io K (Result SyncTcpListener error_code) :=
  let* sockfd := sys_socket SOCK_STREAM in
  if sockfd <? 0 then fail SocketCreateFailed else
  let* _ := sys_setsockopt sockfd in
  match (if bool_decide (host = "0.0.0.0"%string ∨ host = ""%string) then Some INADDR_ANY else inet_pton host) with
  | None => close_and_fail sockfd InvalidAddress
  | Some a =>
      let addr := mkAddr (htons port) a in
      let* r := sys_bind sockfd addr in
      if r <? 0 then close_and_fail sockfd BindFailed else
      let* r := sys_listen sockfd backlog in
      if r <? 0 then close_and_fail sockfd ListenFailed else
      let* name := sys_getsockname sockfd in
      ret (Ok (mkListener sockfd (ntohs (sin_port (default addr name)))))
  end.

Definition Accept (l : SyncTcpListener) : io K (Result SyncTcpStream error_code) :=
  if listen_fd_ l <? 0 then fail ListenerNotInitialized else
  let* client_fd := sys_accept (listen_fd_ l) in
  if client_fd <? 0 then fail AcceptFailed else ret (Ok (mkStream client_fd)).
End Operations.

(** ** Theorems *)

Ltac wp_call law := wp_apply law; intros.

Section Theory.
Context {K : Type} `{KernelLaws K}.
Implicit Types (k : K).

Lemma same_trans k1 k2 k3 : same k1 k2 → same k2 k3 → same k1 k3.
Proof. intros (E1&A1&H1) (E2&A2&H2). split_and!; intros; rewrite ?E2, ?A2, ?H2; auto. Qed.

Lemma resolve_same host k : wp (resolve host) (λ _ k', same k k') k.
Proof.
  unfold resolve. destruct (inet_pton host); [by apply wp_ret|].
  wp_call getaddrinfo_law. by destruct a as [err result].
Qed.

(** What happened to the descriptors: on success one was opened and the object
    holds it; on failure none was, or the one that was is closed again. *)
Definition fd_outcome {S} (fd_of : S → Z) (k : K) (r : Result S error_code) (k' : K) : Prop :=
  match r with
  | inl s => 0 <= fd_of s ∧ fd_log k' = fd_log k ++ [Opened (fd_of s)]
  | inr _ => fd_log k' = fd_log k ∨ ∃ fd, fd_log k' = fd_log k ++ [Opened fd; Closed fd]
  end.

Lemma same_log k1 k2 l : same k1 k2 → fd_log k1 = l → fd_log k2 = l.
Proof. intros (->&_). done. Qed.

Lemma opened_then r k k1 k2 : opens r k k1 → same k1 k2 → 0 <= r → fd_log k2 = fd_log k ++ [Opened r].
Proof. unfold opens. intros Ho (E&_) Hr. destruct (Z.ltb_spec r 0); [lia|]. destruct Ho as [Ho _]. congruence. Qed.
(** What a transfer leaves unchanged. *)
Definition only_accepted (fd : Z) k k' : Prop :=
  fd_log k' = fd_log k ∧ (∀ fd', handed fd' k' = handed fd' k) ∧ (∀ fd', fd' ≠ fd → accepted fd' k' = accepted fd' k).
Definition only_handed (fd : Z) k k' : Prop :=
  fd_log k' = fd_log k ∧ (∀ fd', accepted fd' k' = accepted fd' k) ∧ (∀ fd', fd' ≠ fd → handed fd' k' = handed fd' k).

Lemma SendAll_loop_spec data fd : size data < size_mod → ∀ fuel sent k,
  0 <= sent <= size data → size data - sent <= Z.of_nat fuel →
  wp (SendAll_loop fuel fd data sent) (λ r k', only_accepted fd k k' ∧ ∃ n,
    sent <= n <= size data ∧ accepted fd k' = accepted fd k ++ take_z (n - sent) (drop_z sent data) ∧
    r = Some (if n =? size data then Ok tt else Err (make_error_code SendFailed))) k.
Proof.
  intros Hsize. induction fuel as [|fuel IH]; intros sent k Hs Hf; simpl;
    (destruct (Z.ltb_spec sent (size data));
      [|apply wp_ret; split; [done|]; exists sent; rewrite Z.sub_diag, take_z_nonpos, app_nil_r, (proj2 (Z.eqb_eq _ _)) by lia; split_and!; done || lia]); [lia|].
  rewrite (to_size_id (size data - sent)) by (unfold size_ok; lia).
  wp_call send_law. destruct H2 as (Hn & El & Eh & Ea & Eo).
  destruct (Z.leb_spec a 0) as [Ha|Ha].
  { apply wp_ret. split; [done|]. exists sent. rewrite Ea, Z.sub_diag, !take_z_nonpos by lia.
    rewrite (proj2 (Z.eqb_neq _ _)) by lia. split_and!; done || lia. }
  rewrite to_size_id by (unfold size_ok; lia).
  eapply wp_mono; [|apply IH; lia]. intros r k2 [(El2 & Eh2 & Eo2) (n & Hn2 & Ea2 & ->)]. split.
  { split_and!; [congruence|intros; by rewrite Eh2|intros; by rewrite Eo2, Eo by done]. }
  exists n. split_and!; [lia|lia| |done].
  rewrite Ea2, Ea, <- app_assoc. f_equal.
  replace (n - sent) with (a + (n - (sent + a))) by lia. rewrite <- take_z_more, drop_z_drop by lia. done.
Qed.

(** SendAll always returns, and says what reached the socket: Ok exactly when
    all of the data was accepted, in order and once; otherwise NotConnected with
    nothing sent, or SendFailed with a proper prefix sent.  However the kernel
    splits the data, nothing else is touched. *)
Theorem send_all_delivers data s k : size data < size_mod →
  wp (SendAll data s) (λ r k', only_accepted (fd_ s) k k' ∧
    ((r = Some (Ok tt) ∧ 0 <= fd_ s ∧ accepted (fd_ s) k' = accepted (fd_ s) k ++ data) ∨
     (r = Some (Err (make_error_code NotConnected)) ∧ fd_ s < 0 ∧ k' = k) ∨
     (r = Some (Err (make_error_code SendFailed)) ∧ 0 <= fd_ s ∧
        ∃ n, 0 <= n < size data ∧ accepted (fd_ s) k' = accepted (fd_ s) k ++ take_z n data))) k.
Proof.
  intros Hs. unfold SendAll. destruct (Z.ltb_spec (fd_ s) 0); [by apply wp_ret; split; [|right; left]|].
  pose proof (size_nonneg data).
  eapply wp_mono; [|apply SendAll_loop_spec; unfold size in *; lia].
  intros r k' [Ho (n & Hn & Ea & ->)]. split; [done|]. rewrite Z.sub_0_r in Ea. change (drop_z 0 data) with data in Ea.
  destruct (Z.eqb_spec n (size data)) as [->|]; [left|right; right].
  - by rewrite take_z_all in Ea.
  - split_and!; [done|done|]. exists n. split; [lia|done].
Qed.

Lemma RecvExact_loop_spec fd n : n < size_mod → ∀ fuel received result k,
  0 <= received <= n → size result = received → n - received <= Z.of_nat fuel →
  wp (RecvExact_loop fuel fd n received result) (λ r k', only_handed fd k k' ∧ ∃ b,
    handed fd k' = handed fd k ++ b ∧ size b <= n - received ∧
    r = Some (if size b =? n - received then Ok (result ++ b) else Err (make_error_code RecvFailed))) k.
Proof.
  intros Hsize. induction fuel as [|fuel IH]; intros received result k Hr Hb Hf; simpl;
    (destruct (Z.ltb_spec received n);
      [|apply wp_ret; split; [done|]; exists []; rewrite !app_nil_r, (proj2 (Z.eqb_eq _ _)) by (unfold size; simpl; lia); split_and!; done || (unfold size; simpl; lia)]); [lia|].
  rewrite (to_size_id (n - received)) by (unfold size_ok; lia).
  assert (0 <= n - received) as Hp by lia. wp_call (recv_law fd _ k Hp). destruct a as [r b]. simpl in H2. destruct H2 as (Hn & Eb & El & Ea & Eh & Eo).
  destruct (Z.leb_spec r 0) as [Hr0|Hr0].
  { apply wp_ret. assert (b = []) as -> by (destruct b; [done|unfold size in Eb; simpl in Eb; lia]).
    split; [done|]. exists []. rewrite (proj2 (Z.eqb_neq _ _)) by (unfold size; simpl; lia). split_and!; done || (unfold size; simpl; lia). }
  rewrite to_size_id by (unfold size_ok; lia).
  eapply wp_mono; [|apply IH; rewrite ?size_app; lia]. intros x k2 [(El2 & Ea2 & Eo2) (b2 & Eh2 & Hb2 & ->)]. split.
  { split_and!; [congruence|intros; by rewrite Ea2|intros; by rewrite Eo2, Eo by done]. }
  exists (b ++ b2). rewrite Eh2, Eh, size_app, <- !app_assoc. split_and!; [done|lia|].
  destruct (Z.eqb_spec (size b2) (n - (received + r))), (Z.eqb_spec (size b + size b2) (n - received)); done || lia.
Qed.

(** RecvExact always returns: Ok with exactly [n] bytes, the next ones of the
    stream; or RecvFailed, and then the fewer than [n] bytes it had received are
    taken from the stream and lost; or NotConnected, and nothing happened. *)
Theorem recv_exact_takes n s k : 0 <= n < size_mod →
  wp (RecvExact n s) (λ r k', only_handed (fd_ s) k k' ∧
    ((∃ b, r = Some (Ok b) ∧ 0 <= fd_ s ∧ size b = n ∧ handed (fd_ s) k' = handed (fd_ s) k ++ b) ∨
     (r = Some (Err (make_error_code NotConnected)) ∧ fd_ s < 0 ∧ k' = k) ∨
     (∃ b, r = Some (Err (make_error_code RecvFailed)) ∧ 0 <= fd_ s ∧ size b < n ∧
        handed (fd_ s) k' = handed (fd_ s) k ++ b))) k.
Proof.
  intros Hs. unfold RecvExact. destruct (Z.ltb_spec (fd_ s) 0); [by apply wp_ret; split; [|right; left]|].
  eapply wp_mono; [|apply RecvExact_loop_spec; simpl; lia || done].
  intros r k' [Ho (b & Eh & Hb & ->)]. split; [done|]. rewrite Z.sub_0_r in *. simpl.
  destruct (Z.eqb_spec (size b) n); [left; by exists b|right; right; exists b; split_and!; done || lia].
Qed.

(** C38. What SendAll writes at one end of a connection RecvExact reads at the
    other: if the two descriptors are the ends of a stream (what is handed out
    at [b] is always a prefix of what was accepted at [a]) with nothing in
    flight, then whenever both succeed the string received is the string sent,
    and again nothing is in flight. *)
Theorem send_recv_roundtrip (a b : SyncTcpStream) data r k0 k1 k2 :
  (∀ k, handed (fd_ b) k `prefix_of` accepted (fd_ a) k) → handed (fd_ b) k0 = accepted (fd_ a) k0 →
  size data < size_mod → SendAll data a k0 = (Some (Ok tt), k1) →
  RecvExact (size data) b k1 = (Some (Ok r), k2) →
  r = data ∧ handed (fd_ b) k2 = accepted (fd_ a) k2.
Proof.
  intros Hpipe E0 Hs H1 H2. pose proof (size_nonneg data).
  destruct (wp_run _ _ _ _ _ (send_all_delivers data a k0 Hs) H1) as [(_ & Eh1 & _) [(_ & _ & Ea1)|[[? _]|[? _]]]]; [|done..].
  pose proof (recv_exact_takes (size data) b k1 (conj H3 Hs)) as Hr.
  destruct (wp_run _ _ _ _ _ Hr H2) as [(_ & Ea2 & _) [(b' & [= <-] & _ & Hb & Eh2)|[[? _]|(? & ? & _)]]]; [|done..].
  rewrite Eh1, E0 in Eh2. specialize (Hpipe k2). rewrite Ea2, Ea1, Eh2 in Hpipe.
  apply prefix_app_inv in Hpipe as [tail E].
  assert (tail = []) as ->. { apply (f_equal size) in E. rewrite size_app in E. destruct tail; [done|]. unfold size in *. simpl in *. lia. }
  rewrite app_nil_r in E. subst r. by rewrite Eh2, Ea2, Ea1.
Qed.
End Theory.

(** ** Connect, Listen and Accept on a traced system *)

(** The error that stands for a call that failed. *)
Definition failure (c : sys_call) : option Errc :=
  match c with
  | CSocket r => if r <? 0 then Some SocketCreateFailed else None
  | CGetaddrinfo err (Some _) => if err =? 0 then None else Some ResolveFailed
  | CGetaddrinfo _ None => Some ResolveFailed
  | CConnect r => if r <? 0 then Some ConnectFailed else None
  | CBind r => if r <? 0 then Some BindFailed else None
  | CListen r => if r <? 0 then Some ListenFailed else None
  | CAccept r => if r <? 0 then Some AcceptFailed else None
  | _ => None
  end.

(** Of the calls [cs] none failed and the result is Ok, or exactly one did and the
    result is its error. *)
Definition reports {S} (cs : list sys_call) (r : Result S error_code) : Prop :=
  match r with
  | inl _ => omap failure cs = []
  | inr e => ∃ c, omap failure cs = [c] ∧ e = make_error_code c
  end.

Section Traced.
Context {K : Type} `{KernelLaws K}.
Implicit Types (k : traced K).

(** A host that Listen takes for an address. *)
Definition numeric (host : string) : Prop := host = "0.0.0.0"%string ∨ host = ""%string ∨ is_Some (inet_pton host).

(** The descriptors and the calls so far, from [k] to [k1]: [fd] is open, and of
    the calls [f] failed. *)
Definition so_far (fd : Z) (f : list Errc) k k1 : Prop :=
  fd_log k1 = fd_log k ++ [Opened fd] ∧ ∃ cs, made cs k k1 ∧ omap failure cs = f.
Definition outcome {S} (fd_of : S → Z) k (r : Result S error_code) k' : Prop :=
  fd_outcome fd_of k r k' ∧ ∃ cs, made cs k k' ∧ reports cs r.

Lemma so_far_call fd f k k1 k2 c :
  so_far fd f k k1 → same k1 k2 → made [c] k1 k2 → so_far fd (f ++ omap failure [c]) k k2.
Proof.
  intros [El (cs & Hm & Hf)] (El2 & _) Hc. split; [congruence|]. exists (cs ++ [c]).
  split; [by eapply made_trans|]. by rewrite omap_app, Hf.
Qed.

Lemma close_and_fail_traced {S} (c : Errc) fd f k k1 : so_far fd f k k1 →
  wp (close_and_fail (A := S) fd c) (λ r k', r = Err (make_error_code c) ∧
    fd_log k' = fd_log k ++ [Opened fd; Closed fd] ∧ ∃ cs, made cs k k' ∧ omap failure cs = f) k1.
Proof.
  intros [El (cs & Hm & Hf)]. wp_traced close_law (λ _ : unit, CClose). intros _ k2 [(El2 & _) Hc]. apply wp_ret.
  split; [done|]. split; [by rewrite El2, El, <- app_assoc|].
  exists (cs ++ [CClose]). split; [by eapply made_trans|]. by rewrite omap_app, Hf, app_nil_r.
Qed.
Lemma close_and_fail_outcome {S} (fd_of : S → Z) (c : Errc) fd k k1 : so_far fd [c] k k1 →
  wp (close_and_fail fd c) (outcome fd_of k) k1.
Proof.
  intros Hs. eapply wp_mono; [|by apply close_and_fail_traced]. intros r k' (-> & El & cs & Hm & Hf).
  split; [right; by exists fd|]. exists cs. split; [done|]. by exists c.
Qed.
Lemma fails_outcome {S} (fd_of : S → Z) (c : Errc) k k1 e :
  same k k1 → made [e] k k1 → failure e = Some c → wp (fail c) (outcome fd_of k) k1.
Proof.
  intros (El & _) Hm He. apply wp_ret. split; [by left|]. exists [e]. split; [done|]. exists c. simpl. by rewrite He.
Qed.
Lemma succeeds_outcome {S} (fd_of : S → Z) (s : S) fd k k1 : so_far fd [] k k1 → 0 <= fd → fd_of s = fd →
  wp (ret (Ok s)) (outcome fd_of k) k1.
Proof. intros [El (cs & Hm & Hf)] Hfd E. apply wp_ret. split; simpl; rewrite ?E; [done|]. by exists cs. Qed.

(** The socket is created, or nothing happens. *)
Lemma socket_traced {A} (m : Z → io (traced K) (Result A error_code)) (Q : Result A error_code → traced K → Prop) k :
  (∀ fd k1, fd < 0 → same k k1 → made [CSocket fd] k k1 → wp (fail SocketCreateFailed) Q k1) →
  (∀ fd k1, 0 <= fd → so_far fd [] k k1 → wp (m fd) Q k1) →
  wp (let* fd := sys_socket SOCK_STREAM in if fd <? 0 then fail SocketCreateFailed else m fd) Q k.
Proof.
  intros Hf Hm. wp_traced socket_law CSocket. intros fd k1 [Ho Hc]. unfold opens in Ho.
  destruct (Z.ltb_spec fd 0); [by eapply Hf|]. apply Hm; [done|]. destruct Ho as [El _]. split; [done|].
  exists [CSocket fd]. split; [done|]. simpl. by rewrite (proj2 (Z.ltb_ge fd 0)).
Qed.

Lemma resolve_traced host fd k k1 : so_far fd [] k k1 →
  wp (resolve host) (λ a k2, so_far fd (match a with Some _ => [] | None => [ResolveFailed] end) k k2) k1.
Proof.
  intros Hs. unfold resolve. destruct (inet_pton host); [by apply wp_ret|].
  wp_traced getaddrinfo_law (λ x : Z * option Z, CGetaddrinfo x.1 x.2). intros [err a] k2 [Hsm Hc]. apply wp_ret.
  pose proof (so_far_call _ _ _ _ _ _ Hs Hsm Hc) as Hs2. simpl in Hs2.
  destruct (Z.eqb_spec err 0), a; done.
Qed.

Lemma Connect_outcome host port k : wp (Connect host port) (outcome fd_ k) k.
Proof.
  apply socket_traced; [intros; eapply fails_outcome; [done..|]; simpl; by rewrite (proj2 (Z.ltb_lt _ _))|].
  intros fd k1 Hfd Hs. apply wp_bind. eapply wp_mono; [|by apply resolve_traced]. intros [a|] k2 Hs2.
  2: by apply close_and_fail_outcome.
  wp_traced connect_law CConnect. intros r k3 [Hsm Hc]. pose proof (so_far_call _ _ _ _ _ _ Hs2 Hsm Hc) as Hs3.
  simpl in Hs3. destruct (r <? 0); [by apply close_and_fail_outcome|by eapply succeeds_outcome].
Qed.

Lemma Listen_outcome host port backlog k :
  wp (Listen host port backlog) (λ r k', fd_outcome listen_fd_ k r k' ∧ ∃ cs, made cs k k' ∧
    (reports cs r ∧ (omap failure cs = [SocketCreateFailed] ∨ numeric host) ∨
     ~ numeric host ∧ omap failure cs = [] ∧ r = Err (make_error_code InvalidAddress))) k.
Proof.
  apply socket_traced.
  { intros fd k1 Hfd Hsm Hc. assert (failure (CSocket fd) = Some SocketCreateFailed) as E
      by (simpl; by rewrite (proj2 (Z.ltb_lt _ _))).
    apply wp_ret. split; [left; apply Hsm|]. exists [CSocket fd]. split; [done|]. left.
    split; [exists SocketCreateFailed|left]; simpl in *; by rewrite E. }
  intros fd k1 Hfd Hs. wp_traced setsockopt_law CSetsockopt. intros r0 k2 [Hsm Hc].
  pose proof (so_far_call _ _ _ _ _ _ Hs Hsm Hc) as Hs2. simpl in Hs2.
  assert (∀ r k', numeric host → outcome listen_fd_ k r k' → fd_outcome listen_fd_ k r k' ∧ ∃ cs, made cs k k' ∧
    (reports cs r ∧ (omap failure cs = [SocketCreateFailed] ∨ numeric host) ∨
     ~ numeric host ∧ omap failure cs = [] ∧ r = Err (make_error_code InvalidAddress))) as Hnum.
  { intros r k' Hn [Ho (cs & Hm & Hr)]. split; [done|]. exists cs. auto. }
  destruct (if bool_decide _ then _ else _) as [a|] eqn:Ea.
  2: { case_bool_decide as Hh; [done|]. eapply wp_mono; [|by apply close_and_fail_traced].
    intros r k' (-> & El & cs & Hm & Hf). split; [right; by exists fd|]. exists cs. split; [done|]. right.
    split_and!; [|done|done]. intros [->|[->|[x Hx]]]; [destruct Hh; auto..|]. simpl in Ea. congruence. }
  assert (numeric host) as Hn.
  { case_bool_decide as Hh; [destruct Hh as [->| ->]; [by left|by right; left]|right; right; by exists a]. }
  eapply wp_mono; [intros r k'; by apply Hnum|].
  wp_traced bind_law CBind. intros r1 k3 [Hsm1 Hc1]. pose proof (so_far_call _ _ _ _ _ _ Hs2 Hsm1 Hc1) as Hs3.
  simpl in Hs3. destruct (r1 <? 0); [by apply close_and_fail_outcome|].
  wp_traced listen_law CListen. intros r2 k4 [Hsm2 Hc2]. pose proof (so_far_call _ _ _ _ _ _ Hs3 Hsm2 Hc2) as Hs4.
  simpl in Hs4. destruct (r2 <? 0); [by apply close_and_fail_outcome|].
  wp_traced getsockname_law CGetsockname. intros name k5 [Hsm3 Hc3].
  pose proof (so_far_call _ _ _ _ _ _ Hs4 Hsm3 Hc3) as Hs5. by eapply succeeds_outcome.
Qed.

Lemma Accept_outcome l k : 0 <= listen_fd_ l → wp (Accept l) (outcome fd_ k) k.
Proof.
  intros Hl. unfold Accept. rewrite (proj2 (Z.ltb_ge _ _)) by done.
  wp_traced accept_law CAccept. intros fd k1 [Ho Hc]. unfold opens in Ho. destruct (Z.ltb_spec fd 0).
  - eapply fails_outcome; [done..|]. simpl. by rewrite (proj2 (Z.ltb_lt _ _)).
  - destruct Ho as [El _]. eapply (succeeds_outcome _ _ fd); [|done..]. split; [done|]. exists [CAccept fd].
    split; [done|]. simpl. by rewrite (proj2 (Z.ltb_ge _ _)).
Qed.

(** C37. No descriptor leaks, and errors are told apart: whatever the system calls
    return, Connect, Listen and Accept either give back an object that holds the
    one descriptor they opened, or have closed it; they are Ok only if none of
    the calls they made failed; and an error is that of the one call that did:
    SocketCreateFailed of socket, ResolveFailed of getaddrinfo, ConnectFailed of
    connect, BindFailed of bind, ListenFailed of listen, AcceptFailed of accept.
    Without a failed call the error is InvalidAddress for a host that is no
    address, or ListenerNotInitialized. *)
Theorem sync_tcp_no_leak host port backlog l k :
  wp (Connect host port) (λ r k', fd_outcome fd_ k r k' ∧ ∃ cs, made cs k k' ∧ reports cs r) k ∧
  wp (Listen host port backlog) (λ r k', fd_outcome listen_fd_ k r k' ∧ ∃ cs, made cs k k' ∧
    (reports cs r ∧ (omap failure cs = [SocketCreateFailed] ∨ numeric host) ∨
     ~ numeric host ∧ omap failure cs = [] ∧ r = Err (make_error_code InvalidAddress))) k ∧
  (if 0 <=? listen_fd_ l
   then wp (Accept l) (λ r k', fd_outcome fd_ k r k' ∧ ∃ cs, made cs k k' ∧ reports cs r) k
   else Accept l k = (Err (make_error_code ListenerNotInitialized), k)).
Proof.
  split_and!; [apply Connect_outcome|apply Listen_outcome|]. destruct (Z.leb_spec 0 (listen_fd_ l)).
  - by apply Accept_outcome.
  - unfold Accept. by rewrite (proj2 (Z.ltb_lt _ _)).
Qed.
End Traced.

(** ** Owners of descriptors *)

#[export] Instance stream_laws : OwnerLaws SyncTcpStream nat.
Proof.
  split; try done.
  - intros fd. simpl. unfold owned. destruct (Z.leb_spec 0 (Z.of_nat fd)); [by rewrite Nat2Z.id|lia].
  - intros o. simpl. unfold Stream.dtor, Stream.Close, owned. by destruct (0 <=? fd_ o).
  - intros o1 o2. simpl. unfold Stream.Close, owned. by destruct (0 <=? fd_ o1).
Qed.

#[export] Instance listener_laws : OwnerLaws SyncTcpListener nat.
Proof.
  split; try done.
  - intros fd. simpl. unfold owned. destruct (Z.leb_spec 0 (Z.of_nat fd)); [by rewrite Nat2Z.id|lia].
  - intros o. simpl. unfold Listener.dtor, closing, owned. by destruct (0 <=? listen_fd_ o).
  - intros o1 o2. simpl. unfold closing, owned. by destruct (0 <=? listen_fd_ o1).
Qed.

(** [Close] is the move assignment of a stream that holds nothing, and closing
    twice is closing once. *)
Lemma close_is_assign s :
  Stream.Close s = ((Stream.assign false s new_stream).1.1, (Stream.assign false s new_stream).2) ∨
  (fd_ s < 0 ∧ Stream.Close s = (s, [])).
Proof. unfold Stream.Close, Stream.assign; simpl. unfold Stream.Close. destruct (Z.leb_spec 0 (fd_ s)); [by left|right; done]. Qed.

(** ** A loopback system *)

(** Descriptors 3 and 4 are the ends of one stream, all others refer to one
    file; a call transfers at most [chunk] bytes; [refuse] makes connect and bind
    fail.  What is sent from 3 to 4 has been delivered or is in flight; what is
    sent from 4 is [answers]. *)
Record loopback := Loop {
  events : list fd_event; next_fd : nat; delivered : bytes; flight : bytes; chunk : nat; refuse : bool;
  file : bytes; answers : bytes }.
Definition mkLoop e n d f c r fi : loopback := Loop e n d f c r fi [].

Definition loop_open (k : loopback) : Z * loopback :=
  let fd := Z.of_nat (next_fd k) in
  (fd, Loop (events k ++ [Opened fd]) (S (next_fd k)) (delivered k) (flight k) (chunk k) (refuse k) (file k) (answers k)).
Definition loop_send (fd : Z) (b : bytes) (n : Z) (k : loopback) : Z * loopback :=
  let r := Nat.min (chunk k) (Nat.min (Z.to_nat n) (length b)) in
  let sent (f a : bytes) := Loop (events k) (next_fd k) (delivered k) f (chunk k) (refuse k) (file k) a in
  if fd =? 3 then
    if n <? 0 then (n, k) else (Z.of_nat r, sent (flight k ++ take r b) (answers k))
  else if fd =? 4 then
    if n <? 0 then (n, k) else (Z.of_nat r, sent (flight k) (answers k ++ take r b))
  else (Z.min n (-1), k).
Definition loop_recv (fd n : Z) (k : loopback) : (Z * bytes) * loopback :=
  if fd =? 4 then
    let r := Nat.min (chunk k) (Nat.min (Z.to_nat n) (length (flight k))) in
    ((Z.of_nat r, take r (flight k)),
     Loop (events k) (next_fd k) (delivered k ++ take r (flight k)) (drop r (flight k)) (chunk k) (refuse k) (file k) (answers k))
  else ((-1, []), k).

#[export] Instance loop_kernel : Kernel loopback := {
  errno _ := 111;
  inet_pton h := if bool_decide (h = "127.0.0.1"%string) then Some 16777343 else None;
  getaddrinfo _ k := ((-2, None), k);
  sys_socket _ := loop_open;
  sys_setsockopt _ k := (0, k);
  sys_bind _ _ k := (if refuse k then -1 else 0, k);
  sys_listen _ _ k := (0, k);
  sys_connect _ _ k := (if refuse k then -1 else 0, k);
  sys_getsockname _ k := (None, k);
  sys_accept _ := loop_open;
  sys_send := loop_send;
  sys_recv := loop_recv;
  sys_close fd k := (tt, Loop (events k ++ [Closed fd]) (next_fd k) (delivered k) (flight k) (chunk k) (refuse k) (file k) (answers k))
}.

#[export] Program Instance loop_laws : KernelLaws loopback := {
  fd_log := events;
  accepted fd k := if fd =? 3 then delivered k ++ flight k else if fd =? 4 then answers k else [];
  handed fd k := if fd =? 4 then delivered k else []
}.
Solve Obligations with (try done).
Next Obligation. intros ty k. unfold wp; simpl. destruct (Z.ltb_spec (Z.of_nat (next_fd k)) 0); [lia|done]. Qed.
Next Obligation. intros fd k. unfold wp; simpl. destruct (Z.ltb_spec (Z.of_nat (next_fd k)) 0); [lia|done]. Qed.
Next Obligation.
  intros fd b n k. unfold wp; simpl. unfold loop_send.
  destruct (Z.eqb_spec fd 3) as [->|Hf]; [|destruct (Z.eqb_spec fd 4) as [->|Hf4]]; simpl.
  1-2: destruct (Z.ltb_spec n 0); simpl; [by rewrite take_z_nonpos, app_nil_r by lia; split_and!|].
  1-2: split_and!; try done; [lia|unfold take_z; by rewrite Nat2Z.id, ?app_assoc|].
  1-2: intros fd' Hf'; destruct (Z.eqb_spec fd' 3), (Z.eqb_spec fd' 4); congruence.
  rewrite take_z_nonpos by lia. split_and!; done || lia.
Qed.
Next Obligation.
  intros fd n k Hn. unfold wp; simpl. unfold loop_recv. destruct (Z.eqb_spec fd 4) as [->|Hf]; simpl.
  - split_and!; try done; [lia| | |].
    + unfold size. rewrite length_take. lia.
    + intros fd. destruct (fd =? 3); [|done]. by rewrite <- app_assoc, take_drop.
    + intros fd' Hf'. by rewrite !(proj2 (Z.eqb_neq fd' 4)) by done.
  - split_and!; try done; lia.
Qed.

Definition loop_init (chunk : nat) (refuse : bool) : loopback := mkLoop [] 5 [] [] chunk refuse [].
Definition hello : bytes := list_ascii_of_string "hello".

Lemma send_all_delivers_witness :
  size hello < size_mod ∧ (SendAll hello (mkStream 3) (loop_init 2 false)).1 = Some (Ok tt) ∧
  only_accepted 3 (loop_init 2 false) (SendAll hello (mkStream 3) (loop_init 2 false)).2.
Proof.
  split; [reflexivity|]. split; [reflexivity|].
  exact (proj1 (send_all_delivers hello (mkStream 3) (loop_init 2 false) eq_refl)).
Defined.

(** Two bytes at a time; the sixth byte never comes. *)
Lemma recv_exact_takes_witness :
  let k := (SendAll hello (mkStream 3) (loop_init 2 false)).2 in
  (0 <= 6 < size_mod) ∧ (RecvExact 6 (mkStream 4) k).1 = Some (Err (make_error_code RecvFailed)) ∧
  delivered (RecvExact 6 (mkStream 4) k).2 = hello ∧ only_handed 4 k (RecvExact 6 (mkStream 4) k).2.
Proof.
  split; [split; [lia|reflexivity]|]. split; [reflexivity|]. split; [reflexivity|].
  refine (proj1 (recv_exact_takes 6 (mkStream 4) _ _)). split; [lia|reflexivity].
Defined.

Lemma send_recv_roundtrip_witness :
  ∃ k1 k2, SendAll hello (mkStream 3) (loop_init 2 false) = (Some (Ok tt), k1) ∧
    RecvExact (size hello) (mkStream 4) k1 = (Some (Ok hello), k2) ∧
    (hello = hello ∧ handed 4 k2 = accepted 3 k2).
Proof.
  exists (mkLoop [] 5 [] hello 2 false []), (mkLoop [] 5 hello [] 2 false []).
  split; [reflexivity|]. split; [reflexivity|].
  apply (send_recv_roundtrip (mkStream 3) (mkStream 4) hello hello (loop_init 2 false) (mkLoop [] 5 [] hello 2 false []));
    try reflexivity.
  intros k. simpl. by exists (flight k).
Defined.

(** Refused: the descriptor is closed before Connect returns. *)
Example connect_refused :
  Connect "127.0.0.1" 80 (loop_init 2 true) =
    (Err (make_error_code ConnectFailed), mkLoop [Opened 5; Closed 5] 6 [] [] 2 true []).
Proof. reflexivity. Qed.

Lemma sync_tcp_no_leak_witness :
  let k := Traced (loop_init 2 true) [] in
  (Connect "127.0.0.1" 80 k).1 = Err (make_error_code ConnectFailed) ∧
  calls_made (Connect "127.0.0.1" 80 k).2 = [CSocket 5; CConnect (-1); CClose] ∧
  (Connect "localhost" 80 k).1 = Err (make_error_code ResolveFailed) ∧
  (Listen "127.0.0.1" 80 128 k).1 = Err (make_error_code BindFailed) ∧
  (Listen "here" 80 128 k).1 = Err (make_error_code InvalidAddress) ∧
  fd_outcome fd_ k (Connect "127.0.0.1" 80 k).1 (Connect "127.0.0.1" 80 k).2.
Proof.
  split; [reflexivity|]. split; [reflexivity|]. split; [reflexivity|]. split; [reflexivity|]. split; [reflexivity|].
  exact (proj1 (proj1 (sync_tcp_no_leak "127.0.0.1" 80 128 new_listener (Traced (loop_init 2 true) [])))).
Defined.
