(* ===== verification/UringTcp.v ===== *)
(** * IoUringTcpStream and IoUringTcpListener ([io/iouring_tcp.hpp],
      [src/io/iouring_tcp.cpp])

    Coroutines over the operations of [Ring].  A stream's own operations are
    taken one after the other: no other coroutine uses the same object while
    one is suspended.  The length of a receive or a send goes through the
    32-bit field of the submission entry ([IoUring.to_unsigned]). *)
From Stdlib Require Import Ascii String.
From S2P Require Import Prelude Raii Errors IoUring Kernel Trace SyncTcp.
Local Open Scope Z_scope.

(** ** Objects *)

Record IoUringTcpListener := mkListener { listen_fd_ : Z; l_closed_ : bool }.
Record IoUringTcpStream := mkStream { fd_ : Z; closed_ : bool }.

Definition new_listener : IoUringTcpListener := mkListener (-1) false.
Definition new_stream : IoUringTcpStream := mkStream (-1) false.
Definition IsOpen (s : IoUringTcpStream) : bool := (0 <=? fd_ s) && negb (closed_ s).
Definition InitFromFd (fd : Z) (s : IoUringTcpStream) : IoUringTcpStream :=
  if 0 <=? fd_ s then s else mkStream fd false.

(** The fields of the executor's configuration and its buffer ring. *)
Record config := mkConfig { provided_buffers : bool; buffer_group_id : Z; ring : option buffer_ring }.

Definition EINVAL : Z := 22.
Definition EBADF : Z := 9.
Definition EALREADY : Z := 114.
Definition SOCK_FLAGS : Z := Z.lor SOCK_STREAM O_CLOEXEC_NONBLOCK.
Definition IORING_CQE_F_BUFFER : Z := 1.

Section Operations.
Context {K : Type} `{Ring K}.

Definition listener_dtor (l : IoUringTcpListener) : io K IoUringTcpListener :=
  if negb (l_closed_ l) && (0 <=? listen_fd_ l)
  then let* _ := sys_close (listen_fd_ l) in ret (mkListener (-1) true)
  else ret l.

(** [errno] is read in the state in which the call failed. *)
Definition last_errno : io K Z := λ k, (errno k, k).

Definition Bind (host : string) (port : Z) (l : IoUringTcpListener) : io K (Z * IoUringTcpListener) :=
  if 0 <=? listen_fd_ l then ret (- EALREADY, l) else
  let* fd := sys_socket SOCK_FLAGS in
  if fd <? 0 then let* e := last_errno in ret (- e, mkListener fd (l_closed_ l)) else
  let* _ := sys_setsockopt fd in
  match inet_pton host with
  | None => let* _ := sys_close fd in ret (- EINVAL, mkListener (-1) (l_closed_ l))
  | Some a =>
      let* r := sys_bind fd (mkAddr (htons port) a) in
      if r <? 0 then
        let* err := last_errno in
        let* _ := sys_close fd in ret (- err, mkListener (-1) (l_closed_ l))
      else ret (0, mkListener fd (l_closed_ l))
  end.

Definition Listen (backlog : Z) (l : IoUringTcpListener) : io K Z :=
  if listen_fd_ l <? 0 then ret (- EBADF) else
  let* r := sys_listen (listen_fd_ l) backlog in
  if r <? 0 then let* e := last_errno in ret (- e) else ret 0.

Definition GetPort (l : IoUringTcpListener) : io K Z :=
  if listen_fd_ l <? 0 then ret 0 else
  let* name := sys_getsockname (listen_fd_ l) in
  ret (match name with Some a => ntohs (sin_port a) | None => 0 end).

Definition Accept (l : IoUringTcpListener) : io K (option IoUringTcpStream) :=
  let* fd := ring_accept (listen_fd_ l) in
  ret (if fd <? 0 then None else Some (InitFromFd fd new_stream)).

Definition Close (s : IoUringTcpStream) : io K IoUringTcpStream :=
  if negb (closed_ s) && (0 <=? fd_ s)
  then let* _ := sys_close (fd_ s) in ret (mkStream (-1) true)
  else ret s.
Definition stream_dtor : IoUringTcpStream → io K IoUringTcpStream := Close.

Definition Connect (host : string) (port : Z) (s : IoUringTcpStream) : io K (Z * IoUringTcpStream) :=
  if 0 <=? fd_ s then ret (- EALREADY, s) else
  let* fd := sys_socket SOCK_FLAGS in
  if fd <? 0 then let* e := last_errno in ret (- e, mkStream fd (closed_ s)) else
  match inet_pton host with
  | None => let* _ := sys_close fd in ret (- EINVAL, mkStream (-1) (closed_ s))
  | Some a =>
      let* result := ring_connect fd (mkAddr (htons port) a) in
      if result <? 0 then let* _ := sys_close fd in ret (result, mkStream (-1) (closed_ s))
      else ret (0, mkStream fd (closed_ s))
  end.

Definition Read (max_bytes : Z) (s : IoUringTcpStream) : io K (bytes * IoUringTcpStream) :=
  if negb (IsOpen s) then ret ([], s) else
  let* (result, buf) := ring_recv (fd_ s) (to_unsigned max_bytes) in
  if result =? 0 then ret ([], mkStream (fd_ s) true)
  else if result <? 0 then ret ([], s)
  else ret (take_z result buf, s).

Definition ReadProvided (c : config) (s : IoUringTcpStream) : io K (bytes * IoUringTcpStream) :=
  if negb (IsOpen s) then ret ([], s) else
  if negb (provided_buffers c) then Read 4096 s else
  let* (res, flags) := ring_recv_provided (fd_ s) (buffer_group_id c) in
  if res =? 0 then ret ([], mkStream (fd_ s) true)
  else if res <? 0 then ret ([], s)
  else if Z.land flags IORING_CQE_F_BUFFER =? 0 then Read 4096 s
  else
    let bid := Z.shiftr flags 16 mod 65536 in
    let* data := (λ k, (ring_memory (from_option (buffer_offset bid) 0 (ring c)) res k, k)) in
    let* _ := match ReturnBuffer (buffer_group_id c) bid (ring c) with
              | Some (b, off) => ring_provide b off
              | None => ret tt
              end in
    ret (data, s).

(** [None]: out of fuel. *)
Fixpoint Write_loop (fuel : nat) (fd : Z) (owned : bytes) (total_sent : Z) : io K (option Z) :=
  if total_sent <? size owned then
    match fuel with
    | O => ret None
    | S fuel =>
        let* result := ring_send fd (drop_z total_sent owned) (to_unsigned (to_size (size owned - total_sent))) in
        if result <=? 0 then ret (Some (if 0 <? total_sent then total_sent else result))
        else Write_loop fuel fd owned (to_size (total_sent + result))
    end
  else ret (Some total_sent).

Definition Write (data : bytes) (s : IoUringTcpStream) : io K (option Z) :=
  if negb (IsOpen s) then ret (Some (- EBADF)) else Write_loop (length data) (fd_ s) data 0.
End Operations.

(** ** Theorems *)

Section Theory.
Context {K : Type} `{RingLaws K}.
Implicit Types (k : K).

Lemma Write_loop_spec data fd : size data < size_mod → ∀ fuel sent k,
  0 <= sent <= size data → size data - sent <= Z.of_nat fuel →
  wp (Write_loop fuel fd data sent) (λ r k', only_accepted fd k k' ∧ ∃ n,
    r = Some n ∧ n <= size data ∧ (0 < sent → sent <= n) ∧
    accepted fd k' = accepted fd k ++ take_z (n - sent) (drop_z sent data)) k.
Proof.
  intros Hsize. induction fuel as [|fuel IH]; intros sent k Hs Hf; simpl;
    (destruct (Z.ltb_spec sent (size data));
      [|apply wp_ret; split; [done|]; exists sent; rewrite Z.sub_diag, take_z_nonpos, app_nil_r by lia; split_and!; done || lia]); [lia|].
  rewrite (to_size_id (size data - sent)) by (unfold size_ok; lia).
  wp_apply ring_send_law. intros a k' (Hn & El & Eh & Ea & Eo).
  assert (to_unsigned (size data - sent) <= size data - sent) by (apply Z.mod_le; lia).
  destruct (Z.leb_spec a 0) as [Ha|Ha].
  { apply wp_ret. split; [done|]. eexists. split; [done|]. rewrite Ea.
    destruct (Z.ltb_spec 0 sent); rewrite ?Z.sub_diag, !take_z_nonpos by lia; split_and!; done || lia. }
  rewrite to_size_id by (unfold size_ok; lia).
  eapply wp_mono; [|apply IH; lia]. intros r k2 [(El2 & Eh2 & Eo2) (n & -> & Hn2 & Hn3 & Ea2)]. split.
  { split_and!; [congruence|intros; by rewrite Eh2|intros; by rewrite Eo2, Eo by done]. }
  exists n. split_and!; [done|lia|lia|].
  rewrite Ea2, Ea, <- app_assoc. f_equal.
  replace (n - sent) with (a + (n - (sent + a))) by lia. rewrite <- take_z_more, drop_z_drop by lia. done.
Qed.

(** Write always returns, and its count is the truth: -EBADF on a stream
    that is not open, with nothing sent; otherwise a positive result is the
    length of the prefix the kernel accepted, and nothing was accepted when it
    is zero or negative. *)
Theorem uring_write_reports data s k : size data < size_mod →
  wp (Write data s) (λ r k', only_accepted (fd_ s) k k' ∧
    ((IsOpen s = false ∧ r = Some (- EBADF) ∧ k' = k) ∨
     (IsOpen s = true ∧ ∃ n, r = Some n ∧ n <= size data ∧
        accepted (fd_ s) k' = accepted (fd_ s) k ++ take_z n data))) k.
Proof.
  intros Hs. unfold Write. destruct (IsOpen s); simpl; [|by apply wp_ret; split; [|left]].
  pose proof (size_nonneg data). eapply wp_mono; [|apply Write_loop_spec; unfold size in *; lia].
  intros r k' [Ho (n & -> & Hn & _ & Ea)]. split; [done|]. right. split; [done|].
  exists n. by rewrite Z.sub_0_r in Ea.
Qed.

(** Read gives exactly the bytes it takes from the stream, at most
    [max_bytes]; it marks the stream closed only when the kernel gave none
    without an error, and then returns none. *)
Theorem uring_read_exact max_bytes s k : 0 <= max_bytes →
  wp (Read max_bytes s) (λ x k', only_handed (fd_ s) k k' ∧
    handed (fd_ s) k' = handed (fd_ s) k ++ x.1 ∧ size x.1 <= max_bytes ∧
    (x.2 = s ∨ (x.1 = [] ∧ IsOpen s = true ∧ x.2 = mkStream (fd_ s) true))) k.
Proof.
  intros Hm. unfold Read. destruct (IsOpen s); simpl;
    [|apply wp_ret; simpl; rewrite app_nil_r, size_nil; split_and!; try done; by left].
  assert (0 <= to_unsigned max_bytes) as Hu by (by apply Z.mod_pos_bound).
  assert (to_unsigned max_bytes <= max_bytes) by (apply Z.mod_le; lia).
  wp_apply (ring_recv_law (fd_ s) _ k Hu). intros [r b] k' (Hn & Eb & El & Ea & Eh & Eo). simpl in Hn, Eb, Eh.
  assert (r <= 0 → b = []) as Hnil.
  { intros. destruct b; [done|]. unfold size in Eb. simpl in Eb. lia. }
  destruct (Z.eqb_spec r 0) as [->|]; [|destruct (Z.ltb_spec r 0)]; apply wp_ret; simpl; rewrite Eh.
  - rewrite Hnil by lia. split_and!; try done. by right.
  - rewrite Hnil by lia. split_and!; try done. by left.
  - rewrite take_z_all by lia. split_and!; try done; [lia|by left].
Qed.

(** Where a descriptor can be after Bind, Connect or Accept; [r] is what the
    call reports. *)
Definition fd_kept (fd r : Z) k k' : Prop :=
  (0 <= fd ∧ r = 0 ∧ fd_log k' = fd_log k ++ [Opened fd]) ∨
  (fd < 0 ∧ (fd_log k' = fd_log k ∨ ∃ d, fd_log k' = fd_log k ++ [Opened d; Closed d])).

Lemma opens_spec r k k' : opens r k k' → (r < 0 ∧ same k k') ∨ (0 <= r ∧ fd_log k' = fd_log k ++ [Opened r]).
Proof. unfold opens. destruct (Z.ltb_spec r 0); [by left|]. intros [? _]. by right. Qed.

Lemma close_kept {A} (f : A → Z) (x : Z * A) d k k1 :
  f x.2 < 0 → fd_log k1 = fd_log k ++ [Opened d] →
  wp (let* _ := sys_close d in ret x) (λ y k', fd_kept (f y.2) y.1 k k') k1.
Proof.
  intros Hf El. wp_apply close_law. intros _ k' (El2 & _). apply wp_ret. right. split; [done|].
  right. exists d. by rewrite El2, El, <- app_assoc.
Qed.

Lemma bind_keeps host port l k : listen_fd_ l < 0 →
  wp (Bind host port l) (λ x k', fd_kept (listen_fd_ x.2) x.1 k k') k.
Proof.
  intros Hl. unfold Bind. destruct (Z.leb_spec 0 (listen_fd_ l)); [lia|].
  wp_apply socket_law. intros fd k1 Ho. destruct (Z.ltb_spec fd 0).
  { revert Ho. intros Ho. destruct (opens_spec _ _ _ Ho) as [[_ (El & _)]|]; [|lia]. right. split; [done|by left]. }
  destruct (opens_spec _ _ _ Ho) as [|[_ El]]; [lia|].
  wp_apply setsockopt_law. intros _ k2 Hq. pose proof (same_log _ _ _ Hq El) as El2.
  destruct (inet_pton host); [|by apply (close_kept listen_fd_)].
  wp_apply bind_law. intros r k3 Hq3. pose proof (same_log _ _ _ Hq3 El2) as El3.
  destruct (r <? 0); [|apply wp_ret; by left].
  apply wp_bind. by apply (close_kept listen_fd_).
Qed.

Lemma connect_keeps host port s k : fd_ s < 0 →
  wp (Connect host port s) (λ x k', fd_kept (fd_ x.2) x.1 k k') k.
Proof.
  intros Hs. unfold Connect. destruct (Z.leb_spec 0 (fd_ s)); [lia|].
  wp_apply socket_law. intros fd k1 Ho. destruct (Z.ltb_spec fd 0).
  { destruct (opens_spec _ _ _ Ho) as [[_ (El & _)]|]; [|lia]. right. split; [done|by left]. }
  destruct (opens_spec _ _ _ Ho) as [|[_ El]]; [lia|].
  destruct (inet_pton host); [|by apply (close_kept fd_)].
  wp_apply ring_connect_law. intros r k3 Hq3. pose proof (same_log _ _ _ Hq3 El) as El3.
  destruct (r <? 0); [by apply (close_kept fd_)|apply wp_ret; by left].
Qed.

(** Bind and Connect on an object without a descriptor, and Accept, leave
    no descriptor behind: the object holds the one that was opened, and the call
    reports 0, or it holds none and what was opened was closed again. *)
Theorem uring_tcp_no_leak host port l s k :
  listen_fd_ l < 0 → fd_ s < 0 →
  wp (Bind host port l) (λ x k', fd_kept (listen_fd_ x.2) x.1 k k') k ∧
  wp (Connect host port s) (λ x k', fd_kept (fd_ x.2) x.1 k k') k ∧
  wp (Accept l) (λ x k', fd_kept (from_option fd_ (-1) x) 0 k k') k.
Proof.
  intros Hl Hs. split_and!; [by apply bind_keeps|by apply connect_keeps|].
  wp_apply ring_accept_law. intros fd k' Ho. apply wp_ret.
  destruct (opens_spec _ _ _ Ho) as [[Hr (El & _)]|[Hr El]]; destruct (Z.ltb_spec fd 0); try lia.
  - right. split; [done|by left].
  - by left.
Qed.

(** A stream whose Close will release what it holds. *)
Definition closable (s : IoUringTcpStream) : Prop := closed_ s = true → fd_ s < 0.

(** Close and the destructor close the descriptor of a stream that is not
    marked closed, once, and leave it without one.  Accepting, connecting a
    fresh stream, writing, and reading anything but the end of the stream keep
    a stream closable. *)
Theorem uring_stream_closes s k : closable s →
  wp (Close s) (λ s' k', fd_ s' < 0 ∧ closable s' ∧
    fd_log k' = fd_log k ++ (if 0 <=? fd_ s then [Closed (fd_ s)] else [])) k ∧
  (∀ fd, closable (InitFromFd fd s)) ∧
  (∀ host port, closed_ s = false → wp (Connect host port s) (λ x _, closable x.2) k) ∧
  (∀ n, 0 <= n → wp (Read n s) (λ x _, x.1 ≠ [] → closable x.2) k).
Proof.
  intros Hc. split_and!.
  - unfold Close. destruct s as [fd []]; unfold closable in *; simpl in *.
    + apply wp_ret. destruct (Z.leb_spec 0 fd); [specialize (Hc eq_refl); lia|]. by rewrite app_nil_r.
    + destruct (Z.leb_spec 0 fd); [|apply wp_ret; simpl; by rewrite app_nil_r].
      wp_apply close_law. intros _ k' (El & _). by apply wp_ret.
  - intros fd. unfold InitFromFd. by destruct (0 <=? fd_ s).
  - intros host port Hf. unfold Connect, wp, bind, closable. repeat case_match; simpl; congruence.
  - intros n Hn. eapply wp_mono; [|by apply uring_read_exact]. intros [b s'] k' (_ & _ & _ & [->|[? _]]); simpl in *; done.
Qed.
End Theory.

(** ** The sends that fail *)

Definition failed_send (c : sys_call) : option Z :=
  match c with USend r => if r <=? 0 then Some r else None | _ => None end.

Section Traced.
Context {K : Type} `{RingLaws K}.
Implicit Types (k : traced K).

(** The calls from [k] to [k'], among which [n] sends failed. *)
Definition sends_failed (n : nat) k k' : Prop := ∃ cs, made cs k k' ∧ length (omap failed_send cs) = n.
Lemma sends_failed_refl k : sends_failed 0 k k.
Proof. exists []. split; [apply made_refl|done]. Qed.
Lemma sends_failed_trans n m k1 k2 k3 : sends_failed n k1 k2 → sends_failed m k2 k3 → sends_failed (n + m) k1 k3.
Proof.
  intros (cs & Hm & <-) (ds & Hm2 & <-). exists (cs ++ ds). split; [by eapply made_trans|].
  by rewrite omap_app, length_app.
Qed.
Lemma sends_failed_call c k k' : made [c] k k' → sends_failed (length (omap failed_send [c])) k k'.
Proof. by exists [c]. Qed.

(** A Write that sends everything has no failed send; any other has one, its
    last. *)
Lemma Write_loop_fails data fd : size data < size_mod → ∀ fuel sent k,
  0 <= sent <= size data → size data - sent <= Z.of_nat fuel →
  wp (Write_loop fuel fd data sent) (λ r k', ∃ n, r = Some n ∧
    sends_failed (if (n =? size data)%Z then 0 else 1)%nat k k') k.
Proof.
  intros Hsize. induction fuel as [|fuel IH]; intros sent k Hs Hf; cbn [Write_loop];
    (destruct (Z.ltb_spec sent (size data));
      [|apply wp_ret; exists sent; rewrite (proj2 (Z.eqb_eq _ _)) by lia; split; [done|apply sends_failed_refl]]); [lia|].
  rewrite (to_size_id (size data - sent)) by (unfold size_ok; lia).
  wp_traced ring_send_law USend. intros a k' [[Hn _] Hm]. apply sends_failed_call in Hm. simpl in Hm.
  assert (to_unsigned (size data - sent) <= size data - sent) by (apply Z.mod_le; lia).
  destruct (Z.leb_spec a 0) as [Ha|Ha].
  { apply wp_ret. eexists. split; [done|]. rewrite (proj2 (Z.eqb_neq _ _)); [done|]. case_match; lia. }
  rewrite to_size_id by (unfold size_ok; lia).
  eapply wp_mono; [|apply IH; lia]. intros r k2 (n & -> & Hc). exists n. split; [done|].
  by apply (sends_failed_trans 0 _ _ k').
Qed.
Lemma Write_fails data s k : size data < size_mod → IsOpen s = true →
  wp (Write data s) (λ r k', ∃ n, r = Some n ∧ sends_failed (if (n =? size data)%Z then 0 else 1)%nat k k') k.
Proof.
  intros Hs Ho. unfold Write. rewrite Ho. simpl. pose proof (size_nonneg data).
  apply Write_loop_fails; [done|lia|unfold size; lia].
Qed.

(** Read and Close send nothing. *)
Lemma Read_no_send n s k : wp (Read n s) (λ _ k', sends_failed 0 k k') k.
Proof.
  unfold Read. destruct (negb _); [apply wp_ret, sends_failed_refl|].
  wp_noted (λ x : Z * bytes, URecv x.1). intros [r b] k' Hm%sends_failed_call. by repeat case_match; apply wp_ret.
Qed.
Lemma Close_no_send s k : wp (Close s) (λ _ k', sends_failed 0 k k') k.
Proof.
  unfold Close. destruct (_ && _); [|apply wp_ret, sends_failed_refl].
  wp_noted (λ _ : unit, CClose). intros _ k' Hm%sends_failed_call. by apply wp_ret.
Qed.
End Traced.

(** ** The loopback system of [SyncTcp], through io_uring *)

(** The descriptor that was opened with O_APPEND. *)
Definition append_fd : Z := 9.
Definition loop_write (fd : Z) (b : bytes) (n off : Z) (k : loopback) : Z * loopback :=
  let r := Z.min (Z.of_nat (chunk k)) (Z.min n (size b)) in
  (r, Loop (events k) (next_fd k) (delivered k) (flight k) (chunk k) (refuse k)
        (if 0 <? r then pwrite (fd =? append_fd) off (take_z r b) (file k) else file k) (answers k)).

(** The first [Z.min a b] bytes of a read. *)
Definition loop_read (fd n off : Z) (k : loopback) : (Z * bytes) * loopback :=
  let b := take_z (Z.min (Z.max 1 (Z.of_nat (chunk k))) n) (drop_z off (file k)) in
  ((size b, b), k).

#[export] Instance loop_ring : Ring loopback := {
  ring_accept _ := loop_open;
  ring_connect := sys_connect;
  ring_recv := loop_recv;
  ring_recv_provided _ _ k := ((-105, 0), k);
  ring_memory _ _ _ := [];
  ring_provide _ _ k := (tt, k);
  ring_send := loop_send;
  ring_openat _ _ _ := loop_open;
  ring_read := loop_read;
  ring_write := loop_write;
  ring_fsync _ _ k := (0, k);
  ring_close fd := let* _ := sys_close fd in ret 0;
  ring_statx _ _ _ k := ((0, size (file k)), k);
  ring_unlink _ k := (0, k);
  ring_mkdir _ _ k := (0, k)
}.

#[export] Program Instance loop_ring_laws : RingLaws loopback :=
  { contents _ k := file k; append_mode fd _ := fd =? append_fd }.
Solve Obligations with (try done).
Next Obligation. exact accept_law. Qed.
Next Obligation. exact recv_law. Qed.
Next Obligation. exact send_law. Qed.
Next Obligation. intros. exact (accept_law 0 k). Qed.
Next Obligation.
  intros fd n off k Hn Hoff. unfold wp; simpl. set (m := Z.min _ n). set (b := drop_z off (file k)).
  assert (size (take_z m b) = Z.min m (size b)) as E by (unfold size, take_z; rewrite length_take; lia).
  pose proof (size_nonneg b). split_and!; try done; [lia| |].
  - intros _. split; [|done]. destruct (Z.le_ge_cases m (size b)).
    + by rewrite E, Z.min_l.
    + by rewrite E, Z.min_r, !take_z_all.
  - intros H0 ?. assert (size b = 0) as Hb by lia. unfold b, size, drop_z in Hb. rewrite length_drop in Hb. unfold size. lia.
Qed.
Next Obligation. intros fd b n off k Hoff. unfold wp; simpl. split_and!; try done. lia. Qed.

Lemma uring_write_reports_witness :
  size hello < size_mod ∧ (Write hello (mkStream 3 false) (loop_init 2 false)).1 = Some 5 ∧
  only_accepted 3 (loop_init 2 false) (Write hello (mkStream 3 false) (loop_init 2 false)).2.
Proof.
  split; [reflexivity|]. split; [reflexivity|].
  exact (proj1 (uring_write_reports hello (mkStream 3 false) (loop_init 2 false) eq_refl)).
Defined.

Lemma uring_read_exact_witness :
  let k := (Write hello (mkStream 3 false) (loop_init 4 false)).2 in
  0 <= 100 ∧ (Read 100 (mkStream 4 false) k).1 = (take 4 hello, mkStream 4 false) ∧
  only_handed 4 k (Read 100 (mkStream 4 false) k).2.
Proof.
  split; [lia|]. split; [reflexivity|].
  refine (proj1 (uring_read_exact 100 (mkStream 4 false) _ _)). lia.
Defined.

Lemma uring_tcp_no_leak_witness :
  let k := loop_init 2 true in
  listen_fd_ new_listener < 0 ∧ fd_ new_stream < 0 ∧
  (Connect "127.0.0.1" 80 new_stream k).1 = (-1, new_stream) ∧
  fd_kept (-1) (-1) k (Connect "127.0.0.1" 80 new_stream k).2.
Proof.
  split; [done|]. split; [done|]. split; [reflexivity|].
  exact (proj1 (proj2 (uring_tcp_no_leak "127.0.0.1" 80 new_listener new_stream (loop_init 2 true) eq_refl eq_refl))).
Defined.

Lemma uring_stream_closes_witness :
  closable (mkStream 3 false) ∧
  events (Close (mkStream 3 false) (loop_init 2 false)).2 = [Closed 3] ∧
  closable (Close (mkStream 3 false) (loop_init 2 false)).1.
Proof.
  assert (closable (mkStream 3 false)) as Hc by done. split; [done|]. split; [reflexivity|].
  exact (proj1 (proj2 (proj1 (uring_stream_closes (mkStream 3 false) (loop_init 2 false) Hc)))).
Defined.

(** The end of the stream marks the object closed with its descriptor still
    open: neither Close nor the destructor closes it any more. *)
Example uring_eof_leaks_fd :
  let '(x, k) := Read 100 (mkStream 4 false) (loop_init 2 false) in
  x = ([], mkStream 4 true) ∧ events (stream_dtor x.2 k).2 = [].
Proof. done. Qed.

(** A stream that was closed and connects again stays marked closed: Connect
    reports 0, the stream is not open, and its descriptor is never closed. *)
Example uring_reconnect_not_open :
  let k := loop_init 2 false in
  let '(x, k') := Connect "127.0.0.1" 80 (mkStream (-1) true) k in
  x = (0, mkStream 5 true) ∧ IsOpen x.2 = false ∧ events (stream_dtor x.2 k').2 = [Opened 5].
Proof. done. Qed.

(** A send of 2^32 bytes asks the kernel for none. *)
Example uring_send_length_wraps : to_unsigned (to_size (2 ^ 32 - 0)) = 0.
Proof. done. Qed.
