(* ===== verification/UringFile.v ===== *)
(** * File ([io/iouring_file.hpp], [src/io/iouring_file.cpp])

    Positional and whole-file input and output over the io_uring operations of
    [Kernel].  ReadAll and WriteAll loop on short transfers; the loops run on
    fuel, one unit per byte to transfer.  A descriptor opened with O_APPEND writes
    at the end of the file, whatever offset it is given. *)
From Stdlib Require Import Ascii String.
From S2P Require Import Prelude Raii Errors IoUring Kernel Trace SyncTcp UringTcp.
Local Open Scope Z_scope.

(** ** The object *)

Record File := mkFile { fd_ : Z }.
Definition Fd (f : File) : Z := fd_ f.
Definition IsOpen (f : File) : bool := 0 <=? fd_ f.

Module Handle.
Definition dtor (f : File) : list nat := if 0 <=? fd_ f then [Z.to_nat (fd_ f)] else [].
Definition move (other : File) : File * File := (mkFile (fd_ other), mkFile (-1)).
Definition assign (self : bool) (this other : File) : File * File * list nat :=
  if negb self then (mkFile (fd_ other), mkFile (-1), if 0 <=? fd_ this then [Z.to_nat (fd_ this)] else [])
  else (this, other, []).
End Handle.

#[export] Instance file_owner : UniqueOwner File nat :=
  { uo_make fd := mkFile (Z.of_nat fd); uo_held f := owned (fd_ f);
    uo_dtor := Handle.dtor; uo_move := Handle.move; uo_assign := Handle.assign }.
#[export] Instance file_laws : OwnerLaws File nat.
Proof.
  split; try done.
  - intros fd. simpl. unfold owned. destruct (Z.leb_spec 0 (Z.of_nat fd)); [by rewrite Nat2Z.id|lia].
  - intros o. simpl. unfold Handle.dtor, owned. by destruct (0 <=? fd_ o).
  - intros o1 o2. simpl. unfold owned. by destruct (0 <=? fd_ o1).
Qed.

(** ** Operations *)

Definition UINT_MAX : Z := 2 ^ 32 - 1.
Definition EIO : Z := 5.
Definition AT_EMPTY_PATH : Z := 0x1000.
(** [std::error_code(e, std::system_category())]. *)
Definition system_error (e : Z) : error_code := mkCode e "system".

Section Operations.
Context {K : Type} `{Ring K}.

Definition Open (path : string) (fl mode : Z) : io K (Result File error_code) :=
  let* fd := ring_openat path fl mode in
  ret (if fd <? 0 then Err (system_error (- fd)) else Ok (mkFile fd)).

Definition ReadAt (len off : Z) (f : File) : io K (Z * bytes) :=
  if fd_ f <? 0 then ret (- EBADF, []) else ring_read (fd_ f) (Z.min len UINT_MAX) off.

Definition WriteAt (buf : bytes) (len off : Z) (f : File) : io K Z :=
  if fd_ f <? 0 then ret (- EBADF) else ring_write (fd_ f) buf (Z.min len UINT_MAX) off.

Definition Fsync (fl : Z) (f : File) : io K Z :=
  if fd_ f <? 0 then ret (- EBADF) else ring_fsync (fd_ f) fl.

Definition Close (f : File) : io K (Z * File) :=
  if fd_ f <? 0 then ret (- EBADF, f) else
  let* r := ring_close (fd_ f) in ret (r, mkFile (-1)).

(** [data]: the bytes read so far; the rest of the vector is still zero. *)
Fixpoint ReadAll_loop (fuel : nat) (fd file_size total_read : Z) (data : bytes) : io K (option (Result bytes error_code)) :=
  if total_read <? file_size then
    match fuel with
    | O => ret None
    | S fuel =>
        let* (n, buf) := ring_read fd (Z.min (file_size - total_read) UINT_MAX) total_read in
        if n =? 0 then ret (Some (Ok data))
        else if n <? 0 then ret (Some (Err (system_error (- n))))
        else ReadAll_loop fuel fd file_size (to_size (total_read + n)) (data ++ take_z n buf)
    end
  else ret (Some (Ok data)).

Definition ReadAll (f : File) : io K (option (Result bytes error_code)) :=
  if fd_ f <? 0 then ret (Some (Err (system_error EBADF))) else
  let* (stat_res, stx_size) := ring_statx (fd_ f) "" AT_EMPTY_PATH in
  if stat_res <? 0 then ret (Some (Err (system_error (- stat_res)))) else
  let file_size := to_size stx_size in
  if file_size =? 0 then ret (Some (Ok [])) else
  ReadAll_loop (Z.to_nat file_size) (fd_ f) file_size 0 [].

Fixpoint WriteAll_loop (fuel : nat) (fd : Z) (ptr : bytes) (off total_written : Z) : io K (option (Result Z error_code)) :=
  if total_written <? size ptr then
    match fuel with
    | O => ret None
    | S fuel =>
        let* n := ring_write fd (drop_z total_written ptr) (Z.min (size ptr - total_written) UINT_MAX)
                    (to_size (off + total_written)) in
        if n <=? 0 then ret (Some (Err (system_error (if n =? 0 then EIO else - n))))
        else WriteAll_loop fuel fd ptr off (to_size (total_written + n))
    end
  else ret (Some (Ok total_written)).

Definition WriteAll (buf : bytes) (off : Z) (f : File) : io K (option (Result Z error_code)) :=
  if fd_ f <? 0 then ret (Some (Err (system_error EBADF)))
  else WriteAll_loop (length buf) (fd_ f) buf off 0.

Definition IoUringUnlink (path : string) : io K Z := ring_unlink path.
Definition IoUringMkdir (path : string) (mode : Z) : io K Z := ring_mkdir path mode.
Definition AT_FDCWD : Z := -100.
(** Of the [struct statx], the size. *)
Definition IoUringStat (path : string) : io K (Result Z error_code) :=
  let* (res, stx_size) := ring_statx AT_FDCWD path 0 in
  ret (if res <? 0 then Err (system_error (- res)) else Ok stx_size).
End Operations.

(** ** Theorems *)

Lemma overwrite_prefix off c : 0 <= off →
  size (take_z off (c ++ replicate (Z.to_nat (off - size c)) Ascii.zero)) = off.
Proof. intros. apply size_take. unfold size. rewrite length_app, length_replicate. lia. Qed.

Lemma take_z_app_size b c : take_z (size b) (b ++ c) = b.
Proof. unfold take_z, size. rewrite Nat2Z.id. apply take_app_length. Qed.

(** Two adjacent writes are one. *)
Lemma overwrite_overwrite off b1 b2 c : 0 <= off →
  overwrite (off + size b1) b2 (overwrite off b1 c) = overwrite off (b1 ++ b2) c.
Proof.
  intros Hoff. unfold overwrite. pose proof (overwrite_prefix off c Hoff) as Hp.
  set (P := take_z off _) in *. pose proof (size_nonneg b1). pose proof (size_nonneg b2).
  set (D := drop_z (off + size b1) c).
  assert (size (P ++ b1) = off + size b1) as E by (rewrite size_app; lia).
  replace (Z.to_nat (off + size b1 - size (P ++ b1 ++ D))) with 0%nat
    by (rewrite !size_app; pose proof (size_nonneg D); lia).
  rewrite app_nil_r, (app_assoc P b1 D), <- E, take_z_app_size.
  destruct (drop_z_app (size b2) (P ++ b1) D) as [->|]; [|lia].
  unfold D. rewrite drop_z_drop by lia. rewrite <- !app_assoc, size_app. do 4 f_equal. lia.
Qed.

Section Theory.
Context {K : Type} `{RingLaws K}.
Implicit Types (k : K).

Lemma quiet_refl k : quiet k k.
Proof. split; [by repeat split|done]. Qed.
Lemma quiet_trans k1 k2 k3 : quiet k1 k2 → quiet k2 k3 → quiet k1 k3.
Proof. intros [S1 C1] [S2 C2]. split; [by eapply same_trans|]. intros fd. by rewrite C2. Qed.

Lemma ReadAll_loop_spec fd n : n < size_mod → ∀ fuel total k,
  size (contents fd k) = n → 0 <= total <= n → n - total <= Z.of_nat fuel →
  wp (ReadAll_loop fuel fd n total (take_z total (contents fd k)))
    (λ r k', quiet k k' ∧ (r = Some (Ok (contents fd k)) ∨ ∃ e, e < 0 ∧ r = Some (Err (system_error (- e))))) k.
Proof.
  intros Hn. induction fuel as [|fuel IH]; intros total k Hc Ht Hf; simpl;
    (destruct (Z.ltb_spec total n);
      [|apply wp_ret; split; [apply quiet_refl|]; left; by rewrite take_z_all by lia]); [lia|].
  assert (0 <= Z.min (n - total) UINT_MAX) as Hm by (unfold UINT_MAX; lia).
  wp_apply (ring_read_law fd _ total k Hm (proj1 Ht)). intros [r b] k' (Hq & Hr & Hb & He). simpl in Hr, Hb, He.
  destruct (Z.eqb_spec r 0) as [->|].
  { exfalso. assert (0 < Z.min (n - total) UINT_MAX) by (unfold UINT_MAX; lia). lia. }
  destruct (Z.ltb_spec r 0).
  { apply wp_ret. split; [done|]. right. by exists r. }
  destruct Hb as [-> Hsb]; [lia|]. rewrite to_size_id by (unfold size_ok; lia).
  assert (contents fd k' = contents fd k) as Ec by apply Hq.
  rewrite (take_z_all r (take_z _ _)), take_z_more, <- Ec by lia.
  eapply wp_mono; [|apply IH; rewrite ?Ec; lia].
  intros x k2 [Hq2 Hx]. split; [by eapply quiet_trans|]. by rewrite Ec in Hx |- *.
Qed.

(** [ReadAll]: the whole contents, or the error of a call that failed. *)
Lemma ReadAll_spec f k : size (contents (fd_ f) k) < size_mod →
  wp (ReadAll f) (λ r k', quiet k k' ∧
    ((fd_ f < 0 ∧ r = Some (Err (system_error EBADF))) ∨
     (0 <= fd_ f ∧ (r = Some (Ok (contents (fd_ f) k)) ∨
        ∃ e, e < 0 ∧ r = Some (Err (system_error (- e))))))) k.
Proof.
  intros Hs. unfold ReadAll. pose proof (size_nonneg (contents (fd_ f) k)).
  destruct (Z.ltb_spec (fd_ f) 0).
  { apply wp_ret. split; [apply quiet_refl|]. by left. }
  wp_apply ring_statx_law. intros [r z] k' [Hq Hz]. simpl in Hz.
  destruct (Z.ltb_spec r 0).
  { apply wp_ret. split; [done|]. right. split; [done|]. right. by exists r. }
  rewrite Hz by done. rewrite to_size_id by done.
  assert (contents (fd_ f) k' = contents (fd_ f) k) as Ec by apply Hq.
  destruct (Z.eqb_spec (size (contents (fd_ f) k)) 0) as [E|].
  { apply wp_ret. split; [done|]. right. split; [done|]. left.
    destruct (contents (fd_ f) k); [done|]. unfold size in E. simpl in E. lia. }
  change [] with (take_z 0 (contents (fd_ f) k)). rewrite <- Ec.
  eapply wp_mono; [|apply ReadAll_loop_spec; rewrite ?Ec; done || lia].
  intros x k2 [Hq2 Hx]. split; [by eapply quiet_trans|]. right. by rewrite Ec in Hx |- *.
Qed.

(** The file after the first [n] bytes of [b] were written at [off], or at its end. *)
Definition written (append : bool) (n off : Z) (b c : bytes) : bytes :=
  if 0 <? n then pwrite append off (take_z n b) c else c.

Lemma written_more append off n m b c : 0 <= off → 0 <= n → n + m <= size b →
  written append m (off + n) (drop_z n b) (written append n off b c) = written append (n + m) off b c ∨ m < 0.
Proof.
  intros Hoff Hn Hm. destruct (Z.ltb_spec m 0); [by right|left]. unfold written.
  destruct (Z.ltb_spec 0 m).
  - destruct (Z.ltb_spec 0 (n + m)); [|lia]. destruct (Z.ltb_spec 0 n).
    + rewrite <- (take_z_more n m) by lia. destruct append; simpl; [by rewrite app_assoc|].
      rewrite <- overwrite_overwrite by done. by rewrite size_take by lia.
    + assert (n = 0) as -> by lia. by rewrite Z.add_0_r, Z.add_0_l.
  - assert (m = 0) as -> by lia. by rewrite Z.add_0_r.
Qed.

Lemma WriteAll_loop_spec fd b off c append : 0 <= off → off + size b < size_mod → ∀ fuel total k,
  append_mode fd k = append → contents fd k = written append total off b c → 0 <= total <= size b → size b - total <= Z.of_nat fuel →
  wp (WriteAll_loop fuel fd b off total) (λ r k', same k k' ∧ ∃ n,
    total <= n <= size b ∧ contents fd k' = written append n off b c ∧
    (if n =? size b then r = Some (Ok n) else ∃ e, 0 < e ∧ r = Some (Err (system_error e)))) k.
Proof.
  intros Hoff Hs. induction fuel as [|fuel IH]; intros total k Happ Hc Ht Hf; simpl;
    (destruct (Z.ltb_spec total (size b));
      [|apply wp_ret; split; [by repeat split|]; exists total; rewrite (proj2 (Z.eqb_eq _ _)) by lia;
        split_and!; done || lia]); [lia|].
  rewrite (to_size_id (off + total)) by (unfold size_ok; lia).
  assert (0 <= off + total) as Ho by lia.
  wp_apply (ring_write_law fd (drop_z total b) (Z.min (size b - total) UINT_MAX) (off + total) k Ho).
  intros n k' (Hn & Hq & Happ' & Ec). rewrite Happ in Happ', Ec.
  fold (written append n (off + total) (drop_z total b) (contents fd k)) in Ec.
  destruct (Z.leb_spec n 0) as [Hn0|Hn0].
  { apply wp_ret. split; [done|]. exists total. rewrite (proj2 (Z.eqb_neq _ _)) by lia.
    split_and!; [lia|lia| |].
    - rewrite Ec, Hc. unfold written at 1. by destruct (Z.ltb_spec 0 n); [lia|].
    - eexists. split; [|done]. unfold EIO. destruct (Z.eqb_spec n 0); lia. }
  rewrite to_size_id by (unfold size_ok; lia).
  rewrite Hc in Ec. destruct (written_more append off total n b c) as [E|]; [lia..| |lia]. rewrite E in Ec.
  eapply wp_mono; [|apply IH; [done|done|lia|lia]].
  intros r k2 (Hq2 & m & Hm & Ec2 & Hr). split; [by eapply same_trans|]. exists m. split_and!; done || lia.
Qed.

(** [WriteAll]: all of the buffer is in the file, or an error and a proper prefix. *)
Lemma WriteAll_spec b off f k : 0 <= off → off + size b < size_mod →
  wp (WriteAll b off f) (λ r k', same k k' ∧ ∃ n, 0 <= n <= size b ∧
    contents (fd_ f) k' = written (append_mode (fd_ f) k) n off b (contents (fd_ f) k) ∧
    ((0 <= fd_ f ∧ n = size b ∧ r = Some (Ok n)) ∨
     (∃ e, 0 < e ∧ r = Some (Err (system_error e)) ∧ (fd_ f < 0 → n = 0) ∧ (0 <= fd_ f → n < size b)))) k.
Proof.
  intros Hoff Hs. pose proof (size_nonneg b). unfold WriteAll. destruct (Z.ltb_spec (fd_ f) 0).
  { apply wp_ret. split; [by repeat split|]. exists 0. split_and!; [done|done|done|]. right. exists EBADF.
    split_and!; done || lia. }
  eapply wp_mono; [|apply (WriteAll_loop_spec _ _ _ (contents (fd_ f) k) (append_mode (fd_ f) k)); unfold size in *; done || lia].
  intros r k' (Hq & n & Hn & Ec & Hr). split; [done|]. exists n. split_and!; [lia|lia|done|].
  destruct (Z.eqb_spec n (size b)); [by left|right].
  destruct Hr as (e & He & ->). exists e. split_and!; done || lia.
Qed.

(** C36. A file written from empty reads back: if WriteAll and then ReadAll
    succeed, the data read are the data written. *)
Theorem write_read_roundtrip b d f k0 k1 k2 n :
  contents (fd_ f) k0 = [] → size b < size_mod →
  WriteAll b 0 f k0 = (Some (Ok n), k1) → ReadAll f k1 = (Some (Ok d), k2) → d = b ∧ n = size b.
Proof.
  intros E0 Hs H1' H2'. assert (0 + size b < size_mod) as Hs' by lia.
  destruct (wp_run _ _ _ _ _ (WriteAll_spec b 0 f k0 (Z.le_refl 0) Hs') H1')
    as (_ & m & Hm & Ec & [(Hf & -> & [= ->])|(e & _ & [=] & _)]).
  assert (contents (fd_ f) k1 = b) as Eb.
  { rewrite Ec, E0. unfold written. destruct (Z.ltb_spec 0 (size b)).
    - rewrite take_z_all by lia. unfold pwrite. destruct (append_mode _ _); [done|].
      unfold overwrite. simpl. unfold drop_z. by rewrite drop_nil, app_nil_r.
    - destruct b; [done|]. unfold size in *. simpl in *. lia. }
  assert (size (contents (fd_ f) k1) < size_mod) as Hs1 by by rewrite Eb.
  destruct (wp_run _ _ _ _ _ (ReadAll_spec f k1 Hs1) H2') as (_ & [[? [=]]|(_ & [[= ->]|(e & _ & [=])])]).
  done.
Qed.
End Theory.

(** ** Where the errors come from *)

(** The error number that a call that returned as [c] did calls for; a write of
    nothing is EIO. *)
Definition transfer_error (c : sys_call) : option Z :=
  match c with
  | UStatx r | URead r => if r <? 0 then Some (- r) else None
  | UWrite r => if r <=? 0 then Some (if r =? 0 then EIO else - r) else None
  | _ => None
  end.

(** Of the calls [cs] none failed and the result is Ok, or exactly one did and the
    result is its error. *)
Definition told {A} (cs : list sys_call) (x : Result A error_code) : Prop :=
  match x with
  | inl _ => omap transfer_error cs = []
  | inr e => ∃ z, omap transfer_error cs = [z] ∧ e = system_error z
  end.

Section Traced.
Context {K : Type} `{RingLaws K}.
Implicit Types (k : traced K).

(** A call that transferred something changes nothing to that. *)
Lemma told_cons {A} c cs (x : Result A error_code) : transfer_error c = None → told cs x → told (c :: cs) x.
Proof. unfold told. simpl. by intros ->. Qed.
Lemma told_fails {A} c z : transfer_error c = Some z → told [c] (Err (system_error z) : Result A error_code).
Proof. intros E. exists z. simpl. by rewrite E. Qed.

Lemma ReadAll_loop_told fd n fuel : ∀ total data k,
  wp (ReadAll_loop fuel fd n total data) (λ r k', ∃ cs, made cs k k' ∧ from_option (told cs) True r) k.
Proof.
  induction fuel as [|fuel IH]; intros total data k; simpl;
    (destruct (total <? n); [|apply wp_ret; exists []; split; [apply made_refl|done]]).
  - apply wp_ret. exists []. split; [apply made_refl|done].
  - wp_noted (λ x : Z * bytes, URead x.1). intros [r buf] k1 Hm. simpl in Hm. destruct (Z.eqb_spec r 0) as [->|Hz].
    { apply wp_ret. by exists [URead 0]. }
    destruct (Z.ltb_spec r 0) as [Hr|Hr].
    { apply wp_ret. exists [URead r]. split; [done|]. apply told_fails. simpl. by rewrite (proj2 (Z.ltb_lt _ _)). }
    eapply wp_mono; [|apply IH]. intros x k2 (cs & Hm2 & Ht). exists (URead r :: cs). split; [by eapply made_cons|].
    destruct x; [|done]. apply told_cons; [|done]. simpl. by rewrite (proj2 (Z.ltb_ge _ _)).
Qed.

Lemma ReadAll_told f k : 0 <= fd_ f →
  wp (ReadAll f) (λ r k', ∃ cs, made cs k k' ∧ from_option (told cs) True r) k.
Proof.
  intros Hf. unfold ReadAll. rewrite (proj2 (Z.ltb_ge _ _)) by done.
  wp_noted (λ x : Z * Z, UStatx x.1). intros [r z] k1 Hm. simpl in Hm. destruct (Z.ltb_spec r 0) as [Hr|Hr].
  { apply wp_ret. exists [UStatx r]. split; [done|]. apply told_fails. simpl. by rewrite (proj2 (Z.ltb_lt _ _)). }
  assert (transfer_error (UStatx r) = None) as E by (simpl; by rewrite (proj2 (Z.ltb_ge _ _))).
  destruct (_ =? 0); [apply wp_ret; exists [UStatx r]; split; [done|]; by apply told_cons|].
  eapply wp_mono; [|apply ReadAll_loop_told]. intros x k2 (cs & Hm2 & Ht). exists (UStatx r :: cs).
  split; [by eapply made_cons|]. destruct x; [by apply told_cons|done].
Qed.

Lemma WriteAll_loop_told fd ptr off fuel : ∀ total k,
  wp (WriteAll_loop fuel fd ptr off total) (λ r k', ∃ cs, made cs k k' ∧ from_option (told cs) True r) k.
Proof.
  induction fuel as [|fuel IH]; intros total k; simpl;
    (destruct (total <? size ptr); [|apply wp_ret; exists []; split; [apply made_refl|done]]).
  - apply wp_ret. exists []. split; [apply made_refl|done].
  - wp_noted UWrite. intros r k1 Hm. destruct (Z.leb_spec r 0) as [Hr|Hr].
    { apply wp_ret. exists [UWrite r]. split; [done|]. apply told_fails. simpl. by rewrite (proj2 (Z.leb_le _ _)). }
    eapply wp_mono; [|apply IH]. intros x k2 (cs & Hm2 & Ht). exists (UWrite r :: cs). split; [by eapply made_cons|].
    destruct x; [|done]. apply told_cons; [|done]. simpl. by rewrite (proj2 (Z.leb_gt _ _)).
Qed.

End Traced.

(** A SyncTcpStream, a SyncTcpListener and a File close every descriptor
    they were given exactly once, by the end of their last owner, in any program
    of constructions, moves, (self-)assignments and destructions. *)
Theorem descriptors_close_once :
  releases_exactly_once SyncTcpStream nat ∧ releases_exactly_once SyncTcpListener nat ∧
  releases_exactly_once File nat.
Proof. split_and!; apply owners_release_once, _. Qed.

(** ** On the loopback system *)


(** A descriptor opened with O_APPEND ignores the offset of WriteAll. *)
Example write_all_appends :
  file (WriteAll hello 0 (mkFile append_fd) (mkLoop [] 5 [] [] 2 false hello)).2 = hello ++ hello.
Proof. reflexivity. Qed.

Lemma write_read_roundtrip_witness :
  ∃ k1 k2, WriteAll hello 0 (mkFile 7) (loop_init 2 false) = (Some (Ok 5), k1) ∧
    ReadAll (mkFile 7) k1 = (Some (Ok hello), k2) ∧ (hello = hello ∧ 5 = size hello).
Proof.
  exists (mkLoop [] 5 [] [] 2 false hello), (mkLoop [] 5 [] [] 2 false hello).
  split; [reflexivity|]. split; [reflexivity|].
  apply (write_read_roundtrip hello hello (mkFile 7) (loop_init 2 false) (mkLoop [] 5 [] [] 2 false hello)
    (mkLoop [] 5 [] [] 2 false hello)); reflexivity.
Defined.

(** Writing past the end fills the gap with zeros. *)
Example write_gap :
  file (WriteAll hello 2 (mkFile 7) (loop_init 9 false)).2 = [Ascii.zero; Ascii.zero] ++ hello.
Proof. reflexivity. Qed.
