(* ===== verification/Tcp.v ===== *)
(** * TcpStream and TcpListener over libuv ([io/tcp.hpp], [src/io/tcp.cpp])

    Each operation and each callback is a function from the object to the object
    and the libuv calls it makes, in order.  libuv is outside the model: what it
    does with the calls is the state of the one [uv_tcp_t] the object allocated
    ([uv_call]), and its callbacks are labels, enabled as libuv documents
    (a read callback only while reading, a close callback only after uv_close,
    one callback per accepted connect or write request).  uv_read_start succeeds
    on a connected handle; on one that is initialised and not connected its
    result is part of the label, and Read does not look at it
    ([tcp_read_unconnected]).  [await_resume] runs in
    the step that resumes the coroutine. *)
From Stdlib Require Import Ascii String.
From S2P Require Import Prelude Kernel.
Local Open Scope Z_scope.

Definition UV_EALREADY : Z := -114.

(** ** The handle *)

(** [Raw]: allocated, before uv_tcp_init.  [Fault]: a call libuv does not allow
    on the handle, or on memory that is gone. *)
Inductive uv_state := Raw | Active (uv_reading : bool) | Closing | Freed | Fault.
#[export] Instance uv_state_eq_dec : EqDecision uv_state.
Proof. solve_decision. Defined.
Inductive uv_call := UvInit | UvReadStart (result : Z) | UvReadStop | UvClose | UvDelete.

Definition uv_do (u : uv_state) (c : uv_call) : uv_state :=
  match c, u with
  | UvInit, Raw => Active false
  | UvReadStart r, Active b => if r =? 0 then Active true else Active b
  | UvReadStart _, Closing => Closing            (* refused with UV_EINVAL *)
  | UvReadStop, Active _ => Active false
  | UvReadStop, Closing => Closing
  | UvClose, Active _ => Closing
  | UvDelete, (Raw | Closing) => Freed
  | _, _ => Fault
  end.
Definition uv_run (cs : list uv_call) (u : uv_state) : uv_state := foldl uv_do u cs.

(** ** TcpStream *)

Record TcpStream := mkTcp {
  socket_ : bool;                                (* false: nullptr *)
  closed_ : bool;
  initialized_ : bool;
  reading_ : bool;
  read_buffer_ : bytes;
  read_waiter_ : option handle;
  read_result_ : Z;
  connect_waiter_ : option handle;
  connect_result_ : Z
}.
Definition new_tcp : TcpStream := mkTcp true false false false [] None 0 None 0.
Definition IsOpen (s : TcpStream) : bool := negb (closed_ s).

Definition set_flags (closed initialized reading : bool) (s : TcpStream) : TcpStream :=
  mkTcp (socket_ s) closed initialized reading (read_buffer_ s) (read_waiter_ s) (read_result_ s)
    (connect_waiter_ s) (connect_result_ s).
Definition set_read (reading : bool) (b : bytes) (w : option handle) (r : Z) (s : TcpStream) : TcpStream :=
  mkTcp (socket_ s) (closed_ s) (initialized_ s) reading b w r (connect_waiter_ s) (connect_result_ s).
Definition set_connect (w : option handle) (r : Z) (s : TcpStream) : TcpStream :=
  mkTcp (socket_ s) (closed_ s) (initialized_ s) (reading_ s) (read_buffer_ s) (read_waiter_ s) (read_result_ s) w r.

Definition dtor (s : TcpStream) : list uv_call :=
  if negb (closed_ s) then
    (if reading_ s && initialized_ s then [UvReadStop] else []) ++
    (if initialized_ s then [UvClose] else [UvDelete])
  else [].

(** [accept_result]: what uv_accept returns. *)
Definition InitFromAccept (accept_result : Z) (s : TcpStream) : TcpStream * list uv_call :=
  if initialized_ s then (s, []) else
  let s := set_flags (closed_ s) true (reading_ s) s in
  if negb (accept_result =? 0)
  then (mkTcp false true false (reading_ s) (read_buffer_ s) (read_waiter_ s) (read_result_ s)
          (connect_waiter_ s) (connect_result_ s), [UvInit; UvClose])
  else (s, [UvInit]).

Definition Close (s : TcpStream) : TcpStream * list uv_call :=
  if closed_ s then (s, []) else
  let s := set_flags true (initialized_ s) (reading_ s) s in
  if reading_ s then (set_flags true (initialized_ s) false s, [UvReadStop; UvClose]) else (s, [UvClose]).

Definition OnClose : list uv_call := [UvDelete].

(** ConnectAwaitable: [addr_result] and [uv_result] are what uv_ip4_addr and
    uv_tcp_connect return; the result is the synchronous error, if the
    coroutine does not suspend. *)
Definition Connect_await_suspend (h : handle) (addr_result uv_result : Z) (s : TcpStream)
    : option Z * TcpStream * list uv_call :=
  if initialized_ s then (Some UV_EALREADY, s, []) else
  let s := set_flags (closed_ s) true (reading_ s) (set_connect (Some h) (connect_result_ s) s) in
  if negb (addr_result =? 0) then (Some addr_result, s, [UvInit])
  else if negb (uv_result =? 0) then (Some uv_result, s, [UvInit])
  else (None, s, [UvInit]).
Definition Connect_await_resume (sync_error : Z) (s : TcpStream) : Z :=
  if negb (sync_error =? 0) then sync_error else connect_result_ s.

(** The coroutine to resume, if one waits. *)
Definition OnConnect (status : Z) (s : TcpStream) : TcpStream * option handle :=
  (set_connect None status s, connect_waiter_ s).

Definition Read_await_ready (s : TcpStream) : bool := negb (bool_decide (read_buffer_ s = [])).
(** [start_result]: what uv_read_start returns, which the code does not look at. *)
Definition Read_await_suspend (h : handle) (start_result : Z) (s : TcpStream) : TcpStream * list uv_call :=
  (set_read true (read_buffer_ s) (Some h) (read_result_ s) s, [UvReadStart start_result]).
Definition Read_await_resume (s : TcpStream) : bytes * TcpStream * list uv_call :=
  (read_buffer_ s, set_read false [] (read_waiter_ s) (read_result_ s) s, [UvReadStop]).

(** The room AllocBuffer makes, and libuv's write of the data into it: the
    buffer grows by [len] bytes, of which the first are the data. *)
Definition alloc_size (suggested : Z) : Z := if 0 <? suggested then suggested else 4096.
Definition AllocBuffer (suggested : Z) (data : bytes) (s : TcpStream) : TcpStream :=
  let room := Z.to_nat (alloc_size suggested) in
  set_read (reading_ s) (read_buffer_ s ++ take room (data ++ replicate room Ascii.zero))
    (read_waiter_ s) (read_result_ s) s.

Definition resize (n : Z) (b : bytes) : bytes := take_z n b.
Definition OnRead (nread len : Z) (s : TcpStream) : TcpStream * option handle :=
  let sz := size (read_buffer_ s) in
  let b := if nread <? 0 then (if 0 <? len then resize (sz - len) (read_buffer_ s) else read_buffer_ s)
           else if 0 <? nread then resize (sz - (len - nread)) (read_buffer_ s)
           else (if 0 <? len then resize (sz - len) (read_buffer_ s) else read_buffer_ s) in
  let s' := set_read (reading_ s) b None nread s in
  (if nread <? 0 then set_flags true (initialized_ s) (reading_ s) s' else s', read_waiter_ s).

(** WriteAwaitable: a request owns a copy of the data; libuv is given a 32-bit
    length.  The result of a completed write is an [int]. *)
Record WriteRequest := mkWrite { waiter : handle; write_data : bytes }.
Definition uv_buf_len (b : bytes) : Z := size b mod 2 ^ 32.
Definition to_int (z : Z) : Z := let m := z mod 2 ^ 32 in if m <? 2 ^ 31 then m else m - 2 ^ 32.
Definition Write_await_suspend (h : handle) (data : bytes) (uv_result : Z) : option Z * option WriteRequest :=
  if negb (uv_result =? 0) then (Some uv_result, None) else (None, Some (mkWrite h data)).
Definition OnWrite (status : Z) (w : WriteRequest) : Z * handle :=
  (if 0 <=? status then to_int (size (write_data w)) else status, waiter w).

(** ** A stream and its callbacks *)

Inductive tevent :=
  | EvConnect (h : handle) (result : Z)
  | EvRead (h : handle) (data : bytes)
  | EvWrite (h : handle) (result : Z)              (* from the callback *)
  | EvWriteFailed (h : handle) (result : Z).       (* without suspending *)

(** [strm]: [None] once destroyed.  [connected]: uv_accept succeeded, or the
    connect callback reported success.  [received]: the bytes libuv delivered;
    [ended]: it reported the end of the stream or an error; [started]: the
    coroutines whose write libuv accepted. *)
Record tsys := TSys {
  strm : option TcpStream;
  uv : uv_state;
  connecting : bool;
  connected : bool;
  writes : list WriteRequest;
  events : list tevent;
  received : bytes;
  ended : bool;
  started : list (handle * Z)
}.

Inductive tlabel :=
  | TConnect (h : handle) (addr_result uv_result : Z)
  | TOnConnect (status : Z)
  | TAccepted (accept_result : Z)
  | TRead (h : handle) (start_result : Z)
  | TOnRead (suggested nread : Z) (data : bytes)
  | TWrite (h : handle) (data : bytes) (uv_result : Z)
  | TOnWrite (i : nat) (status : Z)
  | TClose
  | TDestroy
  | TOnClose.

Definition with_stream (s : option TcpStream) (cs : list uv_call) (t : tsys) : tsys :=
  (* calls on a null handle *)
  let u := match strm t, cs with Some x, _ :: _ => if socket_ x then uv_run cs (uv t) else Fault | _, _ => uv t end in
  TSys s u (connecting t) (connected t) (writes t) (events t) (received t) (ended t) (started t).
Definition note (evs : list tevent) (t : tsys) : tsys :=
  TSys (strm t) (uv t) (connecting t) (connected t) (writes t) (events t ++ evs) (received t) (ended t) (started t).
Definition set_connecting (b : bool) (t : tsys) : tsys :=
  TSys (strm t) (uv t) b (connected t) (writes t) (events t) (received t) (ended t) (started t).
Definition set_connected (b : bool) (t : tsys) : tsys :=
  TSys (strm t) (uv t) (connecting t) (connected t || b) (writes t) (events t) (received t) (ended t) (started t).
Definition set_writes (ws : list WriteRequest) (st : list (handle * Z)) (t : tsys) : tsys :=
  TSys (strm t) (uv t) (connecting t) (connected t) ws (events t) (received t) (ended t) st.
Definition receive (nread : Z) (b : bytes) (t : tsys) : tsys :=
  TSys (strm t) (uv t) (connecting t) (connected t) (writes t) (events t) (received t ++ b) (ended t || (nread <? 0)) (started t).

(** A coroutine goes on after a read: await_resume, in the state the stream is in. *)
Definition finish_read (h : handle) (x : TcpStream) (t : tsys) : tsys :=
  let '(b, x', cs) := Read_await_resume x in note [EvRead h b] (with_stream (Some x') cs t).

(** What uv_read_start may return: it starts reading on a connection that is not
    being read; it may refuse a stream that is not connected (UV_ENOTCONN), that
    is being read already (UV_EALREADY), or that is closing. *)
Definition start_allowed (r : Z) (t : tsys) : bool :=
  (r =? 0) || negb (connected t && bool_decide (uv t = Active false)).

Definition tcp_step (l : tlabel) (t : tsys) : option tsys :=
  match l, strm t with
  | TConnect h ar ur, Some x =>
      match Connect_await_suspend h ar ur x with
      | (Some e, x', cs) => Some (note [EvConnect h (Connect_await_resume e x')] (with_stream (Some x') cs t))
      | (None, x', cs) => Some (set_connecting true (with_stream (Some x') cs t))
      end
  | TOnConnect status, Some x =>
      if connecting t then
        let (x', w) := OnConnect status x in
        let t' := set_connected (status =? 0) (set_connecting false (with_stream (Some x') [] t)) in
        match w with
        | Some h => Some (note [EvConnect h (Connect_await_resume 0 x')] t')
        | None => Some t'
        end
      else None
  | TAccepted r, Some x =>
      let (x', cs) := InitFromAccept r x in
      Some (set_connected (negb (initialized_ x) && (r =? 0)) (with_stream (Some x') cs t))
  | TRead h r, Some x =>
      if Read_await_ready x then Some (finish_read h x t)
      else if start_allowed r t then
        let (x', cs) := Read_await_suspend h r x in Some (with_stream (Some x') cs t)
      else None
  | TOnRead suggested nread data, Some x =>
      if bool_decide (uv t = Active true) && (nread <=? alloc_size suggested) && (size data =? Z.max 0 nread) then
        let (x', w) := OnRead nread (alloc_size suggested) (AllocBuffer suggested data x) in
        let t' := receive nread data (with_stream (Some x') [] t) in
        match w with Some h => Some (finish_read h x' t') | None => Some t' end
      else None
  | TWrite h data ur, Some x =>
      match Write_await_suspend h data ur with
      | (Some r, _) => Some (note [EvWriteFailed h r] t)
      | (None, Some w) => Some (set_writes (writes t ++ [w]) (started t ++ [(h, size data)]) t)
      | (None, None) => None
      end
  | TOnWrite i status, _ =>
      match writes t !! i with
      | Some w =>
          let (r, h) := OnWrite status w in
          Some (note [EvWrite h r] (set_writes (delete i (writes t)) (started t) t))
      | None => None
      end
  | TClose, Some x => let (x', cs) := Close x in Some (with_stream (Some x') cs t)
  | TDestroy, Some x => Some (with_stream None (dtor x) t)
  | TOnClose, s =>
      match uv t with
      | Closing => Some (TSys s (uv_run OnClose (uv t)) (connecting t) (connected t) (writes t) (events t) (received t) (ended t) (started t))
      | _ => None
      end
  | _, None => None
  end.

Definition tinit : tsys := TSys (Some new_tcp) Raw false false [] [] [] false [].

(** What keeps a client of the stream out of undefined behaviour: it has called
    Connect, and not while that is under way, or was given the stream by Accept,
    before it reads, writes or closes (the connect may have failed); it has one
    reader at a time, does not close or destroy the stream under a waiting reader
    or connect, and does not read or write a stream that is not open. *)
Definition ready (x : TcpStream) : bool := initialized_ x && negb (closed_ x).
Definition polite (l : tlabel) (t : tsys) : bool :=
  match l, strm t with
  | TRead _ _, Some x => ready x && bool_decide (read_waiter_ x = None) && negb (connecting t)
  | TWrite _ _ _, Some x => ready x
  | TClose, Some x => (closed_ x || initialized_ x) && bool_decide (read_waiter_ x = None) && negb (connecting t)
  | TDestroy, Some x => bool_decide (read_waiter_ x = None) && negb (connecting t)
  | TConnect _ _ _, Some x => negb (closed_ x)
  | TAccepted _, Some x => negb (closed_ x)
  | _, _ => true
  end.
Definition polite_step (l : tlabel) (t : tsys) : option tsys := if polite l t then tcp_step l t else None.

(** What holds of a stream object and its handle between two callbacks.  [eof]:
    the stream was marked closed by a read error, with the handle still
    active. *)
Definition handle_ok (x : TcpStream) (u : uv_state) : Prop :=
  match u with
  | Raw => closed_ x = false ∧ initialized_ x = false ∧ reading_ x = false ∧ socket_ x = true
  | Active r => initialized_ x = true ∧ socket_ x = true ∧ (r = true → reading_ x = true)
  | Closing | Freed => closed_ x = true ∧ reading_ x = false
  | Fault => False
  end.
Definition reads (evs : list tevent) : list bytes := omap (λ e, match e with EvRead _ b => Some b | _ => None end) evs.
Definition written (evs : list tevent) : list handle := omap (λ e, match e with EvWrite h _ => Some h | _ => None end) evs.

Definition gone (u : uv_state) : Prop := u = Closing ∨ u = Freed.
Definition stream_ok (s : option TcpStream) (u : uv_state) (en : bool) : Prop :=
  match s with
  | Some x => handle_ok x u ∧ read_buffer_ x = [] ∧ reading_ x = bool_decide (is_Some (read_waiter_ x)) ∧
      (closed_ x = true → read_waiter_ x = None ∧ (en = false → gone u))
  | None => u ≠ Fault ∧ (en = false → gone u)
  end.

(** Nobody waits for data while a connect is under way; and where somebody waits
    on a connection, libuv is reading. *)
Definition wait_ok (t : tsys) : Prop :=
  ∀ x h, strm t = Some x → read_waiter_ x = Some h →
    connecting t = false ∧ (connected t = true → uv t = Active true).

Record tcp_inv (t : tsys) : Prop := {
  inv_stream : stream_ok (strm t) (uv t) (ended t);
  inv_wait : wait_ok t;
  inv_reads : received t = concat (reads (events t));
  inv_writes : fst <$> started t ≡ₚ (waiter <$> writes t) ++ written (events t)
}.

Lemma reads_app l1 l2 : reads (l1 ++ l2) = reads l1 ++ reads l2. Proof. apply omap_app. Qed.
Lemma written_app l1 l2 : written (l1 ++ l2) = written l1 ++ written l2. Proof. apply omap_app. Qed.

(** What one read callback leaves in an empty buffer: the data. *)
Lemma read_callback suggested nread data x : read_buffer_ x = [] → nread <= alloc_size suggested →
  size data = Z.max 0 nread →
  OnRead nread (alloc_size suggested) (AllocBuffer suggested data x) =
    (mkTcp (socket_ x) (closed_ x || (nread <? 0)) (initialized_ x) (reading_ x) data None nread
       (connect_waiter_ x) (connect_result_ x), read_waiter_ x).
Proof.
  intros Hb Hn Hd. unfold OnRead, AllocBuffer, set_read; simpl. rewrite Hb; simpl.
  assert (0 < alloc_size suggested) as Hl by (unfold alloc_size; destruct (Z.ltb_spec 0 suggested); lia).
  set (len := alloc_size suggested) in *. set (room := take _ _).
  assert (size room = len) as Hr.
  { unfold room, size. rewrite length_take, length_app, length_replicate. lia. }
  rewrite Hr. destruct (Z.ltb_spec nread 0).
  - unfold set_flags; simpl. destruct (Z.ltb_spec 0 len); [|lia]. unfold resize. rewrite take_z_nonpos by lia.
    assert (data = []) as -> by (destruct data; [done|unfold size in Hd; simpl in Hd; lia]). by rewrite orb_true_r.
  - assert ((if 0 <? nread then resize (len - (len - nread)) room
             else if 0 <? len then resize (len - len) room else room) = data) as ->.
    { unfold resize. destruct (Z.ltb_spec 0 nread).
      - replace (len - (len - nread)) with (size data) by lia. unfold room. unfold take_z, size in *.
        rewrite take_take, Nat.min_l, Nat2Z.id by lia. apply take_app_length.
      - destruct (Z.ltb_spec 0 len); [|lia]. rewrite take_z_nonpos by lia.
        destruct data; [done|unfold size in Hd; simpl in Hd; lia]. }
    by rewrite orb_false_r.
Qed.


Lemma with_stream_inv s cs t :
  tcp_inv t → stream_ok s (uv (with_stream s cs t)) (ended t) → wait_ok (with_stream s cs t) → tcp_inv (with_stream s cs t).
Proof. intros [_ _ Hr Hw] Hs. by split. Qed.

(** An event that is neither a read nor a completed write. *)
Lemma note_inv e t : reads [e] = [] → written [e] = [] → tcp_inv t → tcp_inv (note [e] t).
Proof.
  intros Er Ew [Hs Hwt Hr Hw]. split; simpl; [done|done| |].
  - by rewrite reads_app, Er, app_nil_r.
  - by rewrite written_app, Ew, app_nil_r.
Qed.

(** A connect begins or ends, or a connection is there: nobody waits then. *)
Definition nobody_waits (t : tsys) : Prop := ∀ x, strm t = Some x → read_waiter_ x = None.
Lemma nobody_wait_ok t : nobody_waits t → wait_ok t.
Proof. intros Hn x h Es Ew. by rewrite (Hn x Es) in Ew. Qed.
Lemma set_connecting_inv b t : nobody_waits t → tcp_inv t → tcp_inv (set_connecting b t).
Proof. intros Hn [Hs _ Hr Hw]. split; try done. by apply nobody_wait_ok. Qed.
Lemma set_connected_inv b t : (b = true → nobody_waits t) → tcp_inv t → tcp_inv (set_connected b t).
Proof.
  intros Hn [Hs Hwt Hr Hw]. split; try done. destruct b; [by apply nobody_wait_ok, Hn|].
  intros x h Es Ew. destruct (Hwt x h Es Ew) as [? Ha]. split; [done|]. simpl. by rewrite orb_false_r.
Qed.

Lemma stream_step_inv x x' cs t : tcp_inv t → strm t = Some x → socket_ x = true →
  stream_ok (Some x') (uv_run cs (uv t)) (ended t) →
  (∀ h, read_waiter_ x' = Some h → connecting t = false ∧ (connected t = true → uv_run cs (uv t) = Active true)) →
  tcp_inv (with_stream (Some x') cs t).
Proof.
  intros Hi Es Hso Hs Hwt. assert (uv (with_stream (Some x') cs t) = uv_run cs (uv t)) as Eu.
  { unfold with_stream; simpl. rewrite Es, Hso. by destruct cs. }
  apply with_stream_inv; [done|by rewrite Eu|]. intros y h [= <-] Ew. rewrite Eu. by apply (Hwt h).
Qed.

Lemma same_stream_inv x t : tcp_inv t → strm t = Some x → tcp_inv (with_stream (Some x) [] t).
Proof.
  intros Hi Es. assert (with_stream (Some x) [] t = t) as ->; [|done].
  unfold with_stream. rewrite Es. destruct t. simpl in *. by subst.
Qed.

(** Nobody waits on a stream that is not initialised, nor while it connects. *)
Lemma raw_no_waiter x t : tcp_inv t → strm t = Some x → initialized_ x = false → read_waiter_ x = None.
Proof.
  intros Hi Es Hini. pose proof (inv_stream _ Hi) as Hx. rewrite Es in Hx. destruct Hx as (Hu & _ & Hrd & Hcl).
  destruct (uv t); simpl in Hu; destruct_and?; try congruence; try (by apply Hcl); try done.
  destruct (read_waiter_ x); [simpl in Hrd; congruence|done].
Qed.

Lemma raw_state x u : handle_ok x u → initialized_ x = false → closed_ x = false →
  u = Raw ∧ socket_ x = true ∧ reading_ x = false.
Proof. destruct u; simpl; intros Hu Hi Hc; [by destruct Hu as (?&?&?&?)|destruct Hu as [? _]; congruence..|done]. Qed.

Lemma connect_inv h ar ur x t x' cs o : tcp_inv t → strm t = Some x → closed_ x = false →
  Connect_await_suspend h ar ur x = (o, x', cs) → tcp_inv (with_stream (Some x') cs t).
Proof.
  intros Hi Es Hc Hs. pose proof (inv_stream _ Hi) as Hx. rewrite Es in Hx. destruct Hx as (Hu & Hb & Hrd & Hcl).
  unfold Connect_await_suspend in Hs. destruct (initialized_ x) eqn:Ei.
  { injection Hs as <- <- <-. by apply same_stream_inv. }
  assert (uv t = Raw ∧ socket_ x = true ∧ reading_ x = false) as (Eu & Hso & Hr).
  { by apply raw_state. }
  assert (x' = set_flags false true (reading_ x) (set_connect (Some h) (connect_result_ x) x) ∧ cs = [UvInit]) as [-> ->].
  { rewrite Hc in Hs. repeat case_match; by simplify_eq. }
  eapply stream_step_inv; [done..| |]; rewrite ?Eu; simpl; [by rewrite Hr in Hrd |- *|].
  intros h' Ew. by rewrite (raw_no_waiter _ _ Hi Es Ei) in Ew.
Qed.

Lemma accepted_inv r x t : tcp_inv t → strm t = Some x → closed_ x = false →
  tcp_inv (with_stream (Some (InitFromAccept r x).1) (InitFromAccept r x).2 t).
Proof.
  intros Hi Es Hc. pose proof (inv_stream _ Hi) as Hx. rewrite Es in Hx. destruct Hx as (Hu & Hb & Hrd & Hcl).
  unfold InitFromAccept. destruct (initialized_ x) eqn:Ei.
  { by apply same_stream_inv. }
  assert (uv t = Raw ∧ socket_ x = true ∧ reading_ x = false) as (Eu & Hso & Hr).
  { by apply raw_state. }
  pose proof (raw_no_waiter _ _ Hi Es Ei) as Hn.
  destruct (negb (r =? 0)); (eapply stream_step_inv; [done..| |simpl; intros h Ew; by rewrite Hn in Ew]); rewrite Eu; simpl.
  - rewrite Hr in *. split_and!; try done. intros _. split; [|by left].
    destruct (read_waiter_ x); [|done]. discriminate Hrd.
  - rewrite Hr, Hc in *. by split_and!.
Qed.

Lemma close_inv x t : tcp_inv t → strm t = Some x → closed_ x || initialized_ x = true → read_waiter_ x = None →
  tcp_inv (with_stream (Some (Close x).1) (Close x).2 t).
Proof.
  intros Hi Es Hc Hw. pose proof (inv_stream _ Hi) as Hx. rewrite Es in Hx. destruct Hx as (Hu & Hb & Hrd & Hcl).
  rewrite Hw in Hrd. unfold Close. destruct (closed_ x) eqn:Ec.
  { by apply same_stream_inv. }
  simpl in Hrd, Hc |- *. rewrite Hrd.
  destruct (uv t) as [|r| | |] eqn:Eu; simpl in Hu; try (destruct Hu as (?&?&?); congruence); [|by destruct Hu; congruence..|done].
  destruct Hu as (Hini & Hso & Hr). eapply stream_step_inv; [done..| |simpl; intros h Ew; by rewrite Hw in Ew]. rewrite Eu. simpl.
  split_and!; [done|done|done|by rewrite Hw|]. intros _. split; [done|by left].
Qed.

Lemma dtor_inv x t : tcp_inv t → strm t = Some x → read_waiter_ x = None → tcp_inv (with_stream None (dtor x) t).
Proof.
  intros Hi Es Hw. pose proof (inv_stream _ Hi) as Hx. rewrite Es in Hx. destruct Hx as (Hu & Hb & Hrd & Hcl).
  rewrite Hw in Hrd. simpl in Hrd. apply with_stream_inv; [done| |by intros y h [=]]. unfold with_stream; simpl. rewrite Es.
  unfold dtor. destruct (closed_ x) eqn:Ec; simpl.
  { split; [|by apply Hcl]. intros E. by rewrite E in Hu. }
  rewrite Hrd. simpl.
  destruct (uv t) as [|r| | |]; simpl in Hu.
  - destruct Hu as (_ & -> & _ & ->). simpl. split; [done|by right].
  - destruct Hu as (-> & -> & _). simpl. split; [done|by left].
  - by destruct Hu; congruence.
  - by destruct Hu; congruence.
  - done.
Qed.

Lemma read_suspend_inv h r x t : tcp_inv t → strm t = Some x → ready x = true → connecting t = false →
  start_allowed r t = true →
  tcp_inv (with_stream (Some (Read_await_suspend h r x).1) (Read_await_suspend h r x).2 t).
Proof.
  intros Hi Es Hc Hn Hst. pose proof (inv_stream _ Hi) as Hx. rewrite Es in Hx. destruct Hx as (Hu & Hb & Hrd & Hcl).
  apply andb_prop in Hc as [Hini Hc]. apply negb_true_iff in Hc.
  destruct (uv t) as [|u| | |] eqn:Eu; simpl in Hu; try (destruct Hu as (?&?&?); congruence); [|by destruct Hu; congruence..|done].
  destruct Hu as (_ & Hso & Hr). eapply stream_step_inv; [done..| |]; rewrite ?Eu; simpl.
  - destruct (r =? 0); split_and!; try done; congruence.
  - intros h' _. split; [done|]. intros Hcd. unfold start_allowed in Hst. rewrite Eu, Hcd in Hst.
    destruct (r =? 0); [done|]. by destruct u.
Qed.

(** Where a reader waits on a connection, libuv is reading. *)
Lemma waiting_active x h t : tcp_inv t → strm t = Some x → read_waiter_ x = Some h → connected t = true → uv t = Active true.
Proof. intros Hi Es Ew. by apply (inv_wait _ Hi x h). Qed.

(** A read callback on a reading handle, with or without a waiter. *)
Lemma on_read_inv suggested nread data x t :
  tcp_inv t → strm t = Some x → uv t = Active true → nread <= alloc_size suggested → size data = Z.max 0 nread →
  ∃ h t', polite_step (TOnRead suggested nread data) t = Some t' ∧ read_waiter_ x = Some h ∧
    events t' = events t ++ [EvRead h data] ∧ tcp_inv t' ∧ connecting t' = connecting t ∧ connected t' = connected t ∧
    ∃ x', strm t' = Some x' ∧ read_waiter_ x' = None ∧ initialized_ x' = true ∧ closed_ x' = (nread <? 0).
Proof.
  intros Hi Es Eu Hn Hd. pose proof (inv_stream _ Hi) as Hx. rewrite Es in Hx. destruct Hx as (Hu & Hb & Hrd & Hcl).
  rewrite Eu in Hu. destruct Hu as (Hini & Hso & Hr). rewrite Hr in Hrd by done.
  destruct (read_waiter_ x) as [h|] eqn:Ew; [|done].
  unfold polite_step, polite, tcp_step. rewrite Es, (bool_decide_true (uv t = Active true)), (proj2 (Z.leb_le _ _)), (proj2 (Z.eqb_eq _ _)) by done.
  cbn [andb]. rewrite read_callback, Ew by done. cbv zeta. eexists h, _. split; [done|]. split; [done|].
  unfold finish_read, Read_await_resume, with_stream; simpl. rewrite Es, Hso, Eu. simpl.
  split; [done|]. destruct Hi as [_ _ Hreads Hwrites]. split.
  2: { split; [done|]. split; [done|]. eexists. split; [done|]. simpl. split_and!; [done|done|].
       destruct (closed_ x); [|done]. by destruct (Hcl eq_refl). }
  split; simpl.
  - split_and!; try done. intros Hc. split; [done|]. intros [He Hn0]%orb_false_elim.
    rewrite Hn0, orb_false_r in Hc. by destruct (Hcl Hc) as [[=] _].
  - by intros y h' [= <-] [=].
  - by rewrite reads_app, concat_app, Hreads; simpl; rewrite app_nil_r.
  - by rewrite written_app, app_nil_r.
Qed.

Lemma on_write_inv i status w t : tcp_inv t → writes t !! i = Some w →
  tcp_inv (note [EvWrite (OnWrite status w).2 (OnWrite status w).1] (set_writes (delete i (writes t)) (started t) t)).
Proof.
  intros [Hs Hwt Hr Hw] Ei. split; simpl; [done|done| |].
  - by rewrite reads_app, app_nil_r.
  - rewrite Hw, written_app. simpl. rewrite (delete_Permutation _ _ _ Ei) at 1. simpl.
    by rewrite (app_assoc (waiter <$> _)), <- Permutation_cons_append.
Qed.

Lemma connect_callback_inv status x t : tcp_inv t → strm t = Some x → connecting t = true →
  tcp_inv (set_connected (status =? 0) (set_connecting false (with_stream (Some (OnConnect status x).1) [] t))).
Proof.
  intros Hi Es Hc. assert (read_waiter_ x = None) as Hn.
  { destruct (read_waiter_ x) as [h|] eqn:Ew; [|done]. destruct (inv_wait _ Hi x h Es Ew). congruence. }
  assert (nobody_waits (with_stream (Some (OnConnect status x).1) [] t)) as Hnw by by intros y [= <-].
  apply set_connected_inv; [done|]. apply set_connecting_inv; [done|]. apply with_stream_inv; [done| |by apply nobody_wait_ok].
  pose proof (inv_stream _ Hi) as Hx. rewrite Es in Hx. unfold with_stream; simpl. rewrite Es. simpl.
  by destruct (uv t).
Qed.

Lemma connect_step_inv h ar ur x t t' : tcp_inv t → strm t = Some x → closed_ x = false →
  tcp_step (TConnect h ar ur) t = Some t' → tcp_inv t'.
Proof.
  intros Hi Es Hc Hs. unfold tcp_step in Hs. rewrite Es in Hs.
  destruct (Connect_await_suspend h ar ur x) as [[o x'] cs] eqn:Ec.
  pose proof (connect_inv _ _ _ _ _ _ _ _ Hi Es Hc Ec) as Hi'.
  destruct o; injection Hs as <-; [by apply note_inv|]. apply set_connecting_inv; [|done]. intros y [= <-].
  unfold Connect_await_suspend in Ec. destruct (initialized_ x) eqn:Ei; [done|].
  pose proof (raw_no_waiter _ _ Hi Es Ei). repeat case_match; by simplify_eq/=.
Qed.

Lemma accepted_step_inv r x t : tcp_inv t → strm t = Some x → closed_ x = false →
  tcp_inv (set_connected (negb (initialized_ x) && (r =? 0))
    (with_stream (Some (InitFromAccept r x).1) (InitFromAccept r x).2 t)).
Proof.
  intros Hi Es Hc. apply set_connected_inv; [|by apply accepted_inv].
  intros [Hini%negb_true_iff _]%andb_prop y [= <-]. pose proof (raw_no_waiter _ _ Hi Es Hini).
  unfold InitFromAccept. by repeat case_match.
Qed.

Lemma closed_handle_inv t : tcp_inv t → uv t = Closing →
  tcp_inv (TSys (strm t) Freed (connecting t) (connected t) (writes t) (events t) (received t) (ended t) (started t)).
Proof.
  intros [Hx Hwt Hr Hw] Eu. rewrite Eu in Hx. split; simpl; [| |done|done].
  - destruct (strm t) as [x|]; simpl in *; [|by split; [|right]].
    destruct Hx as (Hu & Hb & Hrd & Hcl). refine (conj Hu (conj Hb (conj Hrd _))).
    intros Hc. split; [by apply Hcl|by right].
  - intros x h Es Ew. simpl in Es. rewrite Es in Hx. destruct Hx as ([Hc _] & _ & _ & Hcl).
    destruct (Hcl Hc). congruence.
Qed.

Lemma tcp_inv_step l t t' : tcp_inv t → polite_step l t = Some t' → tcp_inv t'.
Proof.
  intros Hi Hs. pose proof Hs as Hs'. unfold polite_step in Hs. destruct (polite l t) eqn:Hp; [|done].
  destruct (strm t) as [x|] eqn:Es.
  2: { destruct l; unfold tcp_step in Hs; rewrite ?Es in Hs; try discriminate Hs.
       - destruct (writes t !! i) eqn:Ei; [|done]. injection Hs as <-. by apply (on_write_inv i status).
       - destruct (uv t) eqn:Eu; try done. injection Hs as <-. rewrite <- Es. by apply closed_handle_inv. }
  pose proof Hs as Ht. unfold tcp_step, polite in Hs, Hp. rewrite Es in Hs, Hp.
  destruct l as [h ar ur|status|r|h r|suggested nread data|h data ur|i status| | |];
    [apply negb_true_iff in Hp; by eapply connect_step_inv|..].
  - destruct (connecting t) eqn:Ec; [|done]. pose proof (connect_callback_inv status x t Hi Es Ec).
    unfold OnConnect in *. simpl in *. destruct (connect_waiter_ x); injection Hs as <-; [by apply note_inv|done].
  - apply negb_true_iff in Hp. pose proof (accepted_step_inv r x t Hi Es Hp).
    destruct (InitFromAccept r x). by injection Hs as <-.
  - apply andb_prop in Hp as [[Hp Hn]%andb_prop Hc]. apply bool_decide_eq_true in Hn. apply negb_true_iff in Hc.
    unfold Read_await_ready in Hs. pose proof (inv_stream _ Hi) as Hx. rewrite Es in Hx. destruct Hx as (_ & Hb & _).
    rewrite bool_decide_true in Hs by done. simpl in Hs. destruct (start_allowed r t) eqn:Hst; [|done].
    injection Hs as <-. by apply (read_suspend_inv h r x t).
  - destruct (bool_decide (uv t = Active true)) eqn:Eu; [|done]. apply bool_decide_eq_true in Eu.
    destruct (Z.leb_spec nread (alloc_size suggested)); [|done]. destruct (Z.eqb_spec (size data) (Z.max 0 nread)); [|done].
    destruct (on_read_inv suggested nread data x t) as (h & t2 & E & _ & _ & Hi2 & _); [done..|]. congruence.
  - destruct (Write_await_suspend h data ur) as [[r|] [w|]] eqn:Ew; simplify_eq.
    + by apply note_inv.
    + by apply note_inv.
    + destruct Hi as [Hx Hwt Hr Hw]. split; simpl; [done|done|done|].
      rewrite !fmap_app, Hw. simpl. unfold Write_await_suspend in Ew. destruct (negb _); simplify_eq/=.
      rewrite <- !app_assoc. apply Permutation_app_head, Permutation_app_comm.
  - destruct (writes t !! i) eqn:Ei; [|done]. injection Hs as <-. by apply (on_write_inv i status).
  - apply andb_prop in Hp as [[Hp Hn]%andb_prop _]. apply bool_decide_eq_true in Hn.
    pose proof (close_inv x t Hi Es Hp Hn). destruct (Close x). by injection Hs as <-.
  - apply andb_prop in Hp as [Hn _]. apply bool_decide_eq_true in Hn. injection Hs as <-. by apply dtor_inv.
  - destruct (uv t) eqn:Eu; try done. injection Hs as <-. rewrite <- Es. by apply closed_handle_inv.
Qed.

Lemma tcp_reachable_inv t : reachable polite_step tinit t → tcp_inv t.
Proof.
  apply reachable_inv; [|intros l s s' Hi Hs; by eapply tcp_inv_step].
  split; simpl; [|by intros x h [= <-]|done|done]. by split_and!.
Qed.

(** ** Theorems about the stream *)

(** C33. A client that keeps the rules never makes libuv touch a handle in the
    wrong state: no call before the init, none on freed memory, no second close,
    no second free.  Closed or destroyed, the handle is being closed or is
    freed, and the close callback frees it, unless the stream had ended. *)
Theorem tcp_handle_safe t : reachable polite_step tinit t →
  uv t ≠ Fault ∧
  ((strm t = None ∨ ∃ x, strm t = Some x ∧ closed_ x = true) → ended t = false →
     uv t = Freed ∨ (uv t = Closing ∧ ∃ t', polite_step TOnClose t = Some t' ∧ uv t' = Freed)).
Proof.
  intros Hr. destruct (tcp_reachable_inv t Hr) as [Hx _ _ _]. split.
  - destruct (strm t); [|by apply Hx]. destruct Hx as (Hu & _). intros E. by rewrite E in Hu.
  - intros Hc He. assert (gone (uv t)) as [Eu|Eu]; [|right|by left].
    { destruct Hc as [E|(x & E & Hc)]; rewrite E in Hx; [by apply Hx|]. destruct Hx as (_ & _ & _ & Hcl). by apply Hcl. }
    split; [done|]. unfold polite_step, polite, tcp_step. rewrite Eu. destruct (strm t); by eexists.
Qed.

(** C34. Reading loses, repeats and reorders nothing: at any time the bytes the
    reads returned, concatenated, are the bytes libuv delivered.  And a reader
    that waits on a connection (one that was accepted, or whose Connect
    succeeded) is never forgotten: libuv is reading for it, and any read
    callback, data, end of stream or error, resumes it with exactly that
    callback's data.  Without a connection that is so only if uv_read_start
    happened to succeed, as Read does not look at its result
    ([tcp_read_unconnected]). *)
Theorem tcp_read_in_order t : reachable polite_step tinit t →
  received t = concat (reads (events t)) ∧
  ∀ x h, strm t = Some x → read_waiter_ x = Some h →
    (connected t = true → uv t = Active true) ∧
    ∀ suggested nread data, uv t = Active true → nread <= alloc_size suggested → size data = Z.max 0 nread →
      ∃ t', polite_step (TOnRead suggested nread data) t = Some t' ∧ events t' = events t ++ [EvRead h data].
Proof.
  intros Hr. pose proof (tcp_reachable_inv t Hr) as Hi. split; [apply Hi|].
  intros x h Es Ew. split; [by apply (waiting_active x h)|]. intros suggested nread data Eu Hn Hd.
  destruct (on_read_inv suggested nread data x t Hi Es Eu Hn Hd) as (h' & t' & E & Ew' & He & _).
  exists t'. split; [done|]. congruence.
Qed.

(** Every write libuv accepted resumes its coroutine exactly once, when its
    callback comes, and no other; each request is then gone. *)
Theorem tcp_write_once t : reachable polite_step tinit t →
  fst <$> started t ≡ₚ (waiter <$> writes t) ++ written (events t) ∧
  ∀ i w status, writes t !! i = Some w →
    ∃ t', polite_step (TOnWrite i status) t = Some t' ∧ writes t' = delete i (writes t) ∧
      written (events t') = written (events t) ++ [waiter w].
Proof.
  intros Hr. split; [apply (tcp_reachable_inv t Hr)|]. intros i w status Ei.
  unfold polite_step, polite, tcp_step.
  destruct (strm t); rewrite Ei; (eexists; split; [done|]; split; [done|]); simpl; by rewrite written_app.
Qed.

(** An accepted stream: a read, data in two parts for two reads, a write, the
    close. *)
Definition tcp_demo : list tlabel :=
  [TAccepted 0; TRead 7%nat 0; TOnRead 0 2 (list_ascii_of_string "he"); TRead 8%nat 0; TWrite 9%nat (list_ascii_of_string "ok") 0;
   TOnRead 0 3 (list_ascii_of_string "llo"); TOnWrite 0 0; TClose; TDestroy; TOnClose].

Lemma tcp_handle_safe_witness :
  ∃ t, run polite_step tcp_demo tinit = Some t ∧ uv t = Freed ∧ strm t = None ∧ uv t ≠ Fault.
Proof.
  eexists. split; [vm_compute; reflexivity|]. split; [reflexivity|]. split; [reflexivity|].
  refine (proj1 (tcp_handle_safe _ _)). apply reachable_run. exists tcp_demo. reflexivity.
Defined.

Lemma tcp_read_in_order_witness :
  (∃ t, run polite_step tcp_demo tinit = Some t ∧ received t = list_ascii_of_string "hello" ∧
    received t = concat (reads (events t))) ∧
  ∃ t x t', run polite_step [TConnect 1%nat 0 0; TOnConnect 0; TRead 2%nat 0] tinit = Some t ∧ strm t = Some x ∧
    read_waiter_ x = Some 2%nat ∧ connected t = true ∧
    polite_step (TOnRead 0 (-4095) []) t = Some t' ∧ events t' = events t ++ [EvRead 2%nat []].
Proof.
  split.
  - eexists. split; [vm_compute; reflexivity|]. split; [reflexivity|].
    refine (proj1 (tcp_read_in_order _ _)). apply reachable_run. exists tcp_demo. reflexivity.
  - pose (t := default tinit (run polite_step [TConnect 1%nat 0 0; TOnConnect 0; TRead 2%nat 0] tinit)).
    pose (x := default new_tcp (strm t)).
    assert (reachable polite_step tinit t) as Hr.
    { apply reachable_run. exists [TConnect 1%nat 0 0; TOnConnect 0; TRead 2%nat 0]. reflexivity. }
    destruct (proj2 (tcp_read_in_order t Hr) x 2%nat eq_refl eq_refl) as [Ha Hc].
    destruct (Hc 0 (-4095) [] (Ha eq_refl)) as (t' & E & Ev); [vm_compute; discriminate|reflexivity|].
    exists t, x, t'. split; [reflexivity|]. split; [reflexivity|]. split; [reflexivity|]. split; [reflexivity|].
    split; [exact E|exact Ev].
Defined.

Lemma tcp_write_once_witness :
  ∃ t, run polite_step tcp_demo tinit = Some t ∧ events t !! 2%nat = Some (EvWrite 9%nat 2) ∧
    fst <$> started t ≡ₚ (waiter <$> writes t) ++ written (events t).
Proof.
  eexists. split; [vm_compute; reflexivity|]. split; [reflexivity|].
  refine (proj1 (tcp_write_once _ _)). apply reachable_run. exists tcp_demo. reflexivity.
Defined.

(** Close on a stream that was never connected closes a handle that was never
    initialised; the destructor has the test that Close lacks. *)
Example tcp_close_before_connect :
  uv <$> run tcp_step [TClose] tinit = Some Fault ∧ uv <$> run tcp_step [TDestroy] tinit = Some Freed.
Proof. done. Qed.

(** After the end of the stream Close and the destructor do nothing: the handle
    stays active for ever. *)
Example tcp_eof_leaks_handle :
  (λ t, (uv t, strm t)) <$> run tcp_step [TAccepted 0; TRead 7%nat 0; TOnRead 0 (-4095) []; TClose; TDestroy] tinit =
    Some (Active false, None) ∧
  run tcp_step [TAccepted 0; TRead 7%nat 0; TOnRead 0 (-4095) []; TClose; TDestroy; TOnClose] tinit = None.
Proof. done. Qed.

(** After a Connect that failed on the address, which has already marked the stream
    initialised, Read suspends; uv_read_start refuses a stream that is not
    connected (UV_ENOTCONN), which nobody looks at, so that libuv is not reading
    and no read callback can resume the coroutine. *)
Example tcp_read_unconnected :
  (λ t, (connected t, uv t, read_waiter_ <$> strm t)) <$>
    run polite_step [TConnect 1%nat (-22) 0; TRead 2%nat (-107)] tinit = Some (false, Active false, Some (Some 2%nat)) ∧
  ∀ suggested nread data,
    run polite_step [TConnect 1%nat (-22) 0; TRead 2%nat (-107); TOnRead suggested nread data] tinit = None.
Proof. done. Qed.

(** A second reader overwrites the first, which is never resumed. *)
Example tcp_second_reader :
  events <$> run tcp_step [TAccepted 0; TRead 7%nat 0; TRead 8%nat 0; TOnRead 0 1 ["x"%char]] tinit =
    Some [EvRead 8%nat ["x"%char]].
Proof. done. Qed.

(** Close under a waiting reader: libuv reports nothing more, and the reader
    stays suspended. *)
Example tcp_close_strands_reader :
  (λ t, (uv t, read_waiter_ <$> strm t, events t)) <$> run tcp_step [TAccepted 0; TRead 7%nat 0; TClose; TOnClose] tinit =
    Some (Freed, Some (Some 7%nat), []).
Proof. done. Qed.

(** A read callback without data (EAGAIN) resumes the reader with nothing: the
    caller cannot tell it from the end of the stream. *)
Example tcp_eagain_is_empty :
  (λ t, (IsOpen <$> strm t, events t)) <$> run tcp_step [TAccepted 0; TRead 7%nat 0; TOnRead 0 0 []] tinit =
    Some (Some true, [EvRead 7%nat []]).
Proof. done. Qed.

(** A connection that uv_accept refused is queued all the same, without a
    handle; reading it passes libuv a null pointer. *)
Example tcp_failed_accept_read : uv <$> run tcp_step [TAccepted (-24); TRead 7%nat 0] tinit = Some Fault.
Proof. done. Qed.

(** A completed write of 2 GiB reports a negative count. *)
Lemma tcp_write_count_wraps w : size (write_data w) = 2 ^ 31 → (OnWrite 0 w).1 = - 2 ^ 31.
Proof. intros E. unfold OnWrite. simpl. by rewrite E. Qed.

(** ** TcpListener *)

Record TcpListener := mkTcpListener {
  pending_connections_ : list TcpStream;
  accept_waiter_ : option handle;
  l_closed_ : bool;
  bound_ : bool
}.
Definition new_tcp_listener : TcpListener := mkTcpListener [] None false false.

Definition listener_dtor (l : TcpListener) : list uv_call := if negb (l_closed_ l) then [UvClose] else [].
(** [addr_result], [bind_result]: of uv_ip4_addr and uv_tcp_bind. *)
Definition Bind (addr_result bind_result : Z) (l : TcpListener) : Z * TcpListener :=
  if bound_ l then (UV_EALREADY, l)
  else if negb (addr_result =? 0) then (addr_result, l)
  else (bind_result, if bind_result =? 0
                     then mkTcpListener (pending_connections_ l) (accept_waiter_ l) (l_closed_ l) true else l).

Definition OnConnection (status accept_result : Z) (l : TcpListener) : TcpListener * option handle :=
  if status <? 0 then (l, None) else
  let stream := (InitFromAccept accept_result new_tcp).1 in
  (mkTcpListener (pending_connections_ l ++ [stream]) None (l_closed_ l) (bound_ l), accept_waiter_ l).

Definition Accept_await_ready (l : TcpListener) : bool := negb (bool_decide (length (pending_connections_ l) = 0%nat)).
Definition Accept_await_suspend (h : handle) (l : TcpListener) : TcpListener :=
  mkTcpListener (pending_connections_ l) (Some h) (l_closed_ l) (bound_ l).
Definition Accept_await_resume (l : TcpListener) : option TcpStream * TcpListener :=
  match pending_connections_ l with
  | [] => (None, l)
  | stream :: rest => (Some stream, mkTcpListener rest (accept_waiter_ l) (l_closed_ l) (bound_ l))
  end.

(** [arrived]: the connections libuv announced; [accepted]: what the Accept calls
    returned, with the coroutine. *)
Record lsys := LSys { lis : TcpListener; arrived : list TcpStream; accepted : list (handle * option TcpStream) }.
Inductive llabel := LConnection (status accept_result : Z) | LAccept (h : handle).

Definition finish_accept (h : handle) (s : lsys) : lsys :=
  let (x, l) := Accept_await_resume (lis s) in LSys l (arrived s) (accepted s ++ [(h, x)]).
Definition listener_step (l : llabel) (s : lsys) : option lsys :=
  match l with
  | LConnection status r =>
      let (l', w) := OnConnection status r (lis s) in
      let s' := LSys l' (if status <? 0 then arrived s else arrived s ++ [(InitFromAccept r new_tcp).1]) (accepted s) in
      Some (match w with Some h => finish_accept h s' | None => s' end)
  | LAccept h =>
      Some (if Accept_await_ready (lis s) then finish_accept h s
            else LSys (Accept_await_suspend h (lis s)) (arrived s) (accepted s))
  end.

Definition listener_inv (s : lsys) : Prop :=
  Some <$> arrived s = (snd <$> accepted s) ++ (Some <$> pending_connections_ (lis s)) ∧
  (is_Some (accept_waiter_ (lis s)) → pending_connections_ (lis s) = []).

Lemma finish_accept_inv h s x rest :
  Some <$> arrived s = (snd <$> accepted s) ++ (Some <$> pending_connections_ (lis s)) →
  pending_connections_ (lis s) = x :: rest → accept_waiter_ (lis s) = None → listener_inv (finish_accept h s).
Proof.
  intros Ha Ep Ew. unfold finish_accept, Accept_await_resume. rewrite Ep in *. split; simpl.
  - by rewrite Ha, fmap_app, <- app_assoc.
  - rewrite Ew. by intros [? [=]].
Qed.

Lemma listener_inv_step l s s' : listener_inv s → listener_step l s = Some s' → listener_inv s'.
Proof.
  intros [Ha Hw]. destruct l as [status r|h]; simpl.
  - unfold OnConnection. destruct (status <? 0); intros [= <-]; [by destruct s|].
    destruct (accept_waiter_ (lis s)) as [h|] eqn:Ew.
    + rewrite Hw in * by done. apply (finish_accept_inv _ _ (InitFromAccept r new_tcp).1 []); try done; simpl.
      by rewrite fmap_app, Ha, app_nil_r.
    + split; simpl; [by rewrite !fmap_app, Ha, app_assoc|by intros [? [=]]].
  - intros [= <-]. unfold Accept_await_ready. destruct (pending_connections_ (lis s)) as [|x rest] eqn:Ep; simpl.
    + split; simpl; [by rewrite Ep|done].
    + eapply finish_accept_inv; [by rewrite Ep|done|].
      destruct (accept_waiter_ (lis s)) eqn:E; [|done]. by discriminate Hw.
Qed.

(** Accept hands out every connection once, in the order of arrival, and
    never a null one; and it waits only while none is pending, so the next
    connection resumes the coroutine that waits, with that connection. *)
Theorem tcp_accept_in_order s : reachable listener_step (LSys new_tcp_listener [] []) s →
  Some <$> arrived s = (snd <$> accepted s) ++ (Some <$> pending_connections_ (lis s)) ∧
  ∀ h r status, accept_waiter_ (lis s) = Some h → 0 <= status →
    ∃ s', listener_step (LConnection status r) s = Some s' ∧
      accepted s' = accepted s ++ [(h, Some (InitFromAccept r new_tcp).1)].
Proof.
  intros Hr. assert (listener_inv s) as [Ha Hw].
  { refine (reachable_inv listener_step listener_inv _ s _ listener_inv_step Hr).
    split; [done|]. simpl. by intros [? [=]]. }
  split; [done|]. intros h r status Ew Hst. simpl. unfold OnConnection.
  destruct (Z.ltb_spec status 0); [lia|]. rewrite Ew. eexists. split; [done|].
  unfold finish_accept, Accept_await_resume; simpl. by rewrite Hw by by rewrite Ew.
Qed.

Lemma tcp_accept_in_order_witness :
  ∃ s, run listener_step [LConnection 0 0; LAccept 1%nat; LAccept 2%nat; LConnection 0 (-24)] (LSys new_tcp_listener [] []) = Some s ∧
    fst <$> accepted s = [1%nat; 2%nat] ∧
    Some <$> arrived s = (snd <$> accepted s) ++ (Some <$> pending_connections_ (lis s)).
Proof.
  eexists. split; [vm_compute; reflexivity|]. split; [reflexivity|].
  refine (proj1 (tcp_accept_in_order _ _)). apply reachable_run.
  exists [LConnection 0 0; LAccept 1%nat; LAccept 2%nat; LConnection 0 (-24)]. reflexivity.
Defined.

(** Two waiting Accepts: the second overwrites the first. *)
Example tcp_second_accept :
  fst <$> (default [] (accepted <$> run listener_step [LAccept 1%nat; LAccept 2%nat; LConnection 0 0; LConnection 0 0]
    (LSys new_tcp_listener [] []))) = [2%nat].
Proof. done. Qed.
