(* ===== verification/StreamClient.v ===== *)
(** * Coroutines that own a stream ([io/tcp.hpp])

    A server's connection handler is a coroutine that owns a [TcpStream], asks it
    whether it is open, awaits Read and Write, closes it, and destroys it with
    its own frame.  [StreamProgram] is the interface of such a coroutine: its
    states between two actions and the action it takes in each.  The machine runs
    it over the stream of [Tcp]: it suspends in Read and Write, libuv's callbacks
    resume it.  A coroutine that obeys [StreamLaws] (it uses the stream only after
    it has seen it open) keeps all the rules of the stream, and what it sees is a
    path of the program alone; so its clients are proved about their programs,
    without the stream. *)
From Stdlib Require Import Ascii.
From S2P Require Import Prelude Kernel Tcp.
Local Open Scope Z_scope.

(** ** Programs *)

Inductive action (St : Type) :=
  | AIsOpen (k : bool → St)                      (* IsOpen() *)
  | AClock (k : Z → St)                          (* steady_clock::now() *)
  | ARead (k : bytes → St)                       (* co_await Read() *)
  | AWrite (data : bytes) (k : Z → St)           (* co_await Write(data) *)
  | AClose (k : St)                              (* Close() *)
  | AEnd.                                        (* the frame goes, and the stream with it *)
Arguments AIsOpen {St} k.
Arguments AClock {St} k.
Arguments ARead {St} k.
Arguments AWrite {St} data k.
Arguments AClose {St} k.
Arguments AEnd {St}.

(** [usable]: the states in which the coroutine knows that the stream is open. *)
Class StreamProgram (St : Type) := {
  start : St;
  next : St → action St;
  usable : St → bool;
}.

Class StreamLaws (St : Type) `{StreamProgram St} : Prop := {
  law_start : usable start = false;
  law_open s k : next s = AIsOpen k → usable (k false) = false;
  law_clock s k z : next s = AClock k → usable (k z) = true → usable s = true;
  law_read s k : next s = ARead k → usable s = true ∧ usable (k []) = false;
  law_write s d k : next s = AWrite d k → usable s = true;
  law_close s s' : next s = AClose s' → usable s' = false;
}.

(** What a coroutine does and sees. *)
Inductive obs :=
  | OOpen (b : bool)
  | OClock (z : Z)
  | OAsk                                         (* Read suspends *)
  | OGot (b : bytes)
  | OPut (data : bytes)                          (* the call of Write *)
  | OWrote (r : Z)
  | OClose
  | OEnd.

Definition gots (os : list obs) : list bytes := omap (λ o, match o with OGot b => Some b | _ => None end) os.
Definition puts (os : list obs) : list bytes := omap (λ o, match o with OPut d => Some d | _ => None end) os.

(** What the reads returned before the end of the stream. *)
Definition nonempty (bs : list bytes) : list bytes := filter (λ b, b ≠ []) bs.

Lemma puts_snoc os o : puts (os ++ [o]) = puts os ++ puts [o].
Proof. apply omap_app. Qed.
Lemma gots_snoc os o : gots (os ++ [o]) = gots os ++ gots [o].
Proof. apply omap_app. Qed.
Lemma nonempty_app bs bs' : nonempty (bs ++ bs') = nonempty bs ++ nonempty bs'.
Proof. apply filter_app. Qed.
Lemma concat_nonempty bs : concat (nonempty bs) = concat bs.
Proof. induction bs as [|[|ch b] bs IH]; [done|exact IH|]. exact (f_equal (app (ch :: b)) IH). Qed.

Section Client.
Context {St : Type} `{StreamProgram St}.

(** Where the coroutine is. *)
Inductive pc :=
  | At (s : St)
  | InRead (k : bytes → St)
  | InWrite (k : Z → St)
  | Done.

Definition see (p : pc) (o : obs) : option pc :=
  match p with
  | At s =>
      match next s, o with
      | AIsOpen k, OOpen b => Some (At (k b))
      | AClock k, OClock z => Some (At (k z))
      | ARead k, OAsk => Some (InRead k)
      | AWrite d k, OPut d' => if bool_decide (d = d') then Some (InWrite k) else None
      | AClose s', OClose => Some (At s')
      | AEnd, OEnd => Some Done
      | _, _ => None
      end
  | InRead k => match o with OGot b => Some (At (k b)) | _ => None end
  | InWrite k => match o with OWrote r => Some (At (k r)) | _ => None end
  | Done => None
  end.

Fixpoint replay (os : list obs) (p : pc) : option pc :=
  match os with [] => Some p | o :: os => p' ← see p o; replay os p' end.

(** ** The machine *)

Record client := Client { stream : tsys; where_ : pc; trace : list obs }.
Definition client_handle : Prelude.handle := 0%nat.

(** The coroutine's own step, with the clock and what uv_write returns; and
    libuv's callbacks. *)
Inductive client_label :=
  | CRun (clock uv_result : Z)
  | COnRead (suggested nread : Z) (data : bytes)
  | COnWrite (i : nat) (status : Z)
  | COnClose.

(** The results that the stream hands to the coroutine. *)
Definition resumed (evs : list tevent) : list obs :=
  omap (λ e, match e with
             | EvRead _ b => Some (OGot b)
             | EvWrite _ r | EvWriteFailed _ r => Some (OWrote r)
             | EvConnect _ _ => None
             end) evs.

Definition observe (os : list obs) (t : tsys) (c : client) : option client :=
  p ← replay os (where_ c); Some (Client t p (trace c ++ os)).

(** A call on the stream, or a callback. *)
Definition issue (l : tlabel) (os : list obs) (c : client) : option client :=
  t ← tcp_step l (stream c);
  observe (os ++ resumed (drop (length (events (stream c))) (events t))) t c.

Definition stream_open (c : client) : bool :=
  match strm (stream c) with Some x => IsOpen x | None => false end.

Definition client_step (l : client_label) (c : client) : option client :=
  match l, where_ c with
  | CRun clock ur, At s =>
      match next s with
      | AIsOpen _ => observe [OOpen (stream_open c)] (stream c) c
      | AClock _ => observe [OClock clock] (stream c) c
      | ARead _ => issue (TRead client_handle 0) [OAsk] c      (* on a connection uv_read_start succeeds *)
      | AWrite data _ => issue (TWrite client_handle data ur) [OPut data] c
      | AClose _ => issue TClose [OClose] c
      | AEnd => issue TDestroy [OEnd] c
      end
  | COnRead suggested nread data, InRead _ => issue (TOnRead suggested nread data) [] c
  | COnWrite i status, InWrite _ => issue (TOnWrite i status) [] c
  | COnClose, (InRead _ | InWrite _ | Done) => issue TOnClose [] c
  | _, _ => None
  end.

(** A connection that the listener accepted, with the result of uv_accept. *)
Definition client_init (accept_result : Z) : option client :=
  t ← polite_step (TAccepted accept_result) tinit; Some (Client t (At start) []).

Lemma replay_app os os' p : replay (os ++ os') p = p' ← replay os p; replay os' p'.
Proof. revert p. induction os as [|o os IH]; intros p; simpl; [done|]. destruct (see p o); [apply IH|done]. Qed.

Lemma observe_some os t c c' : observe os t c = Some c' →
  stream c' = t ∧ trace c' = trace c ++ os ∧ replay os (where_ c) = Some (where_ c').
Proof. unfold observe. destruct (replay os (where_ c)) eqn:E; [|done]. by intros [= <-]. Qed.

Lemma puts_resumed evs : puts (resumed evs) = [].
Proof. unfold puts, resumed. by induction evs as [|[]]. Qed.

(** The step of a coroutine that writes hands its data to the stream. *)
Lemma write_step_puts clock ur c c' s data k : where_ c = At s → next s = AWrite data k →
  client_step (CRun clock ur) c = Some c' → puts (trace c') = puts (trace c) ++ [data].
Proof.
  intros Ew En. unfold client_step. rewrite Ew, En. unfold issue. destruct (tcp_step _ _); [|done]. simpl.
  intros (_ & -> & _)%observe_some. unfold puts. rewrite omap_app. f_equal. simpl. f_equal. apply puts_resumed.
Qed.

(** An invariant of the program is one of the machine. *)
Lemma replay_inv (I : pc → list obs → Prop) : I (At start) [] →
  (∀ p o p' os, I p os → see p o = Some p' → I p' (os ++ [o])) →
  ∀ os p, replay os (At start) = Some p → I p os.
Proof.
  intros H0 Hs os. induction os as [|o os IH] using rev_ind; intros p.
  { by intros [= <-]. }
  rewrite replay_app. destruct (replay os (At start)) as [q|]; [|done]. simpl.
  destruct (see q o) as [q'|] eqn:E; [|done]. intros [= <-]. by eapply Hs, E; apply IH.
Qed.
End Client.
Arguments pc : clear implicits.
Arguments client : clear implicits.

(** ** The stream of a client, call by call *)

(** Between two actions: nobody is suspended on the stream. *)
Record idle (x : TcpStream) (t : tsys) : Prop := {
  idle_stream : strm t = Some x;
  idle_connecting : connecting t = false;
  idle_started : closed_ x = true ∨ initialized_ x = true;
  idle_connected : closed_ x = true ∨ connected t = true;
  idle_reader : read_waiter_ x = None;
  idle_writes : writes t = [];
}.

Record reading (h : Prelude.handle) (x : TcpStream) (t : tsys) : Prop := {
  reading_stream : strm t = Some x;
  reading_connecting : connecting t = false;
  reading_started : closed_ x = true ∨ initialized_ x = true;
  reading_connected : connected t = true;
  reading_reader : read_waiter_ x = Some h;
  reading_writes : writes t = [];
}.

Record writing (h : Prelude.handle) (data : bytes) (x : TcpStream) (t : tsys) : Prop := {
  writing_stream : strm t = Some x;
  writing_connecting : connecting t = false;
  writing_ready : ready x = true;
  writing_connected : connected t = true;
  writing_reader : read_waiter_ x = None;
  writing_writes : writes t = [mkWrite h data];
}.

Lemma polite_step_tcp l t t' : polite_step l t = Some t' → tcp_step l t = Some t'.
Proof. unfold polite_step. by destruct (polite l t). Qed.

(** A step that follows the rules, and what it reports. *)
Definition takes (l : tlabel) (t : tsys) (evs : list tevent) (P : tsys → Prop) : Prop :=
  ∃ t', polite_step l t = Some t' ∧ events t' = events t ++ evs ∧ P t'.

Lemma ready_started x : ready x = true → closed_ x = true ∨ initialized_ x = true.
Proof. intros [? _]%andb_prop. by right. Qed.

Lemma ready_connected x (b : bool) : ready x = true → closed_ x = true ∨ b = true → b = true.
Proof. unfold ready. intros [_ Hc]%andb_prop [E|?]; [by rewrite E in Hc|done]. Qed.

Lemma open_ready x : closed_ x = true ∨ initialized_ x = true → IsOpen x = true → ready x = true.
Proof. unfold ready, IsOpen. intros [->| ->]; [done|]. by intros ->. Qed.

Lemma read_starts h x t : tcp_inv t → idle x t → ready x = true →
  takes (TRead h 0) t [] (λ t', ∃ x', reading h x' t').
Proof.
  intros Hi [Es Ec Hst Hcd Hw Hws] Hr. apply (ready_connected _ _ Hr) in Hcd. pose proof (inv_stream _ Hi) as Hx. rewrite Es in Hx. destruct Hx as (_ & Hb & _).
  unfold takes, polite_step, polite, tcp_step. rewrite Es, Hr, Hw, Ec. simpl.
  unfold Read_await_ready. rewrite bool_decide_true by done. simpl. eexists. split; [done|]. split; [by rewrite app_nil_r|].
  eexists. split; simpl; done.
Qed.

Lemma read_returns h x t suggested nread data : tcp_inv t → reading h x t →
  nread <= alloc_size suggested → size data = Z.max 0 nread →
  takes (TOnRead suggested nread data) t [EvRead h data] (λ t', ∃ x', idle x' t' ∧ (data ≠ [] → ready x' = true)).
Proof.
  intros Hi [Es Ec Hst Hcd Hw Hws] Hn Hd.
  destruct (on_read_inv suggested nread data x t Hi Es (waiting_active _ _ _ Hi Es Hw Hcd) Hn Hd)
    as (h' & t' & E & Hw' & He & _ & Ec' & Ecd' & x' & Es' & Ew' & Hini & Hcl).
  assert (h' = h) as -> by congruence. exists t'. split; [done|]. split; [done|]. exists x'. split.
  - split; try done; [congruence|by right|right; congruence|]. apply polite_step_tcp in E. unfold tcp_step in E. rewrite Es in E.
    destruct (_ && _); [|done]. destruct (OnRead _ _ _) as [x1 [h1|]]; by injection E as <-.
  - intros Hne. unfold ready. rewrite Hini, Hcl. destruct (Z.ltb_spec nread 0); [|done].
    destruct data; [done|unfold size in Hd; simpl in Hd; lia].
Qed.

Lemma read_callback_args suggested nread data t t' : tcp_step (TOnRead suggested nread data) t = Some t' →
  nread <= alloc_size suggested ∧ size data = Z.max 0 nread.
Proof.
  unfold tcp_step. destruct (strm t); [|done]. destruct (bool_decide _); [|done].
  destruct (Z.leb_spec nread (alloc_size suggested)); [|done]. by destruct (Z.eqb_spec (size data) (Z.max 0 nread)).
Qed.

Lemma write_starts h x t data uv_result : idle x t → ready x = true →
  takes (TWrite h data uv_result) t (if uv_result =? 0 then [] else [EvWriteFailed h uv_result])
    (λ t', if uv_result =? 0 then writing h data x t' else idle x t').
Proof.
  intros [Es Ec Hst Hcd Hw Hws] Hr. pose proof (ready_connected _ _ Hr Hcd).
  unfold takes, polite_step, polite, tcp_step, Write_await_suspend. rewrite Es, Hr.
  destruct (uv_result =? 0); simpl; (eexists; split; [done|]); (split; [by rewrite ?app_nil_r|]).
  - split; simpl; [done..|]. by rewrite Hws.
  - by split.
Qed.

Lemma write_returns h data x t status : writing h data x t →
  takes (TOnWrite 0 status) t [EvWrite h (OnWrite status (mkWrite h data)).1] (λ t', idle x t').
Proof.
  intros [Es Ec Hr Hcd Hw Hws]. unfold takes, polite_step, polite, tcp_step. rewrite ?Es, Hws. simpl.
  eexists. split; [done|]. split; [done|]. split; simpl; try done; [by apply ready_started|by right].
Qed.

Lemma write_callback_index h data x t i status t' : writing h data x t →
  tcp_step (TOnWrite i status) t = Some t' → i = 0%nat.
Proof. intros [Es _ _ _ _ Hws]. unfold tcp_step. rewrite Hws. by destruct i. Qed.

Lemma close_takes x t : idle x t → takes TClose t [] (λ t', ∃ x', idle x' t').
Proof.
  intros [Es Ec Hst Hcd Hw Hws]. unfold takes, polite_step, polite, tcp_step. rewrite Es, Hw, Ec.
  assert (closed_ x || initialized_ x = true) as -> by (destruct Hst as [->| ->]; [done|apply orb_true_r]). simpl.
  unfold Close. destruct (closed_ x) eqn:Hc; [|simpl; destruct (reading_ x)];
    (eexists; split; [done|]); (split; [by rewrite app_nil_r|]); eexists; (split; simpl; [done|done| | |done|done]); by left.
Qed.

Lemma destroy_takes x t : idle x t → takes TDestroy t [] (λ t', strm t' = None ∧ writes t' = []).
Proof.
  intros [Es Ec Hst Hcd Hw Hws]. unfold takes, polite_step, polite, tcp_step. rewrite Es, Hw, Ec. simpl.
  eexists. split; [done|]. split; [by rewrite app_nil_r|]. done.
Qed.

(** libuv has closed the handle: the object is as before. *)
Lemma closed_takes t t' : tcp_step TOnClose t = Some t' →
  polite_step TOnClose t = Some t' ∧ events t' = events t ∧ strm t' = strm t ∧ connecting t' = connecting t ∧
    connected t' = connected t ∧ writes t' = writes t.
Proof.
  intros Hs. assert (polite TOnClose t = true) as Hp by (unfold polite; by destruct (strm t)).
  unfold polite_step. rewrite Hp. split; [done|].
  unfold tcp_step in Hs. destruct (strm t); destruct (uv t); try done; by injection Hs as <-.
Qed.

(** ** The coroutine keeps the rules *)

Section Laws.
Context {St : Type} `{StreamLaws St}.
Implicit Types (c : client St) (s : St).

Definition owns c : Prop :=
  match where_ c with
  | At s => ∃ x, idle x (stream c) ∧ (usable s = true → ready x = true)
  | InRead k => usable (k []) = false ∧ ∃ x, reading client_handle x (stream c)
  | InWrite k => ∃ data x, writing client_handle data x (stream c)
  | Done => strm (stream c) = None ∧ writes (stream c) = []
  end.

(** What a step leaves: the trace is longer by what the program saw, its reads
    are those of the stream, and the stream moved by the rules or not at all. *)
Record good_step c (os : list obs) c' : Prop := {
  gs_trace : trace c' = trace c ++ os;
  gs_replay : replay os (where_ c) = Some (where_ c');
  gs_reads : reads (events (stream c')) = reads (events (stream c)) ++ gots os;
  gs_moves : stream c' = stream c ∨ ∃ l, polite_step l (stream c) = Some (stream c');
  gs_owns : owns c';
}.

(** A call that is within the rules, with what the program makes of the result. *)
Lemma issue_good l os c evs P p :
  takes l (stream c) evs P → gots os = [] → replay (os ++ resumed evs) (where_ c) = Some p →
  (∀ t, P t → owns (Client t p (trace c ++ os ++ resumed evs))) →
  ∃ c', issue l os c = Some c' ∧ good_step c (os ++ resumed evs) c'.
Proof.
  intros (t & Hs & He & HP) Hg Hr Ho. exists (Client t p (trace c ++ os ++ resumed evs)).
  unfold issue, observe. rewrite (polite_step_tcp _ _ _ Hs). simpl. rewrite He, drop_app_length, Hr. split; [done|].
  split; simpl; [done|done| |by right; exists l|by apply Ho].
  rewrite He, reads_app. f_equal. unfold gots, resumed. rewrite omap_app. fold (gots os). rewrite Hg. simpl.
  clear. unfold reads. induction evs as [|[]]; simpl; by f_equal.
Qed.

Lemma observe_good o c p : gots [o] = [] → see (where_ c) o = Some p → owns (Client (stream c) p (trace c ++ [o])) →
  ∃ c', observe [o] (stream c) c = Some c' ∧ good_step c [o] c'.
Proof.
  intros Hg Hs Ho. exists (Client (stream c) p (trace c ++ [o])). unfold observe. simpl. rewrite Hs. split; [done|].
  split; [done|simpl; by rewrite Hs|by rewrite Hg, app_nil_r|by left|done].
Qed.

Lemma run_good clock ur c s : tcp_inv (stream c) → owns c → where_ c = At s →
  ∃ c' os, client_step (CRun clock ur) c = Some c' ∧ good_step c os c'.
Proof.
  intros Hi Ho Ew. unfold owns in Ho. rewrite Ew in Ho. destruct Ho as (x & Hx & Hu).
  unfold client_step. rewrite Ew. destruct (next s) as [k|k|k|data k|s'|] eqn:En.
  - edestruct (observe_good (OOpen (stream_open c)) c) as (c' & E & G); [done|by rewrite Ew; simpl; rewrite En| |by eexists c', _].
    exists x. split; [done|]. simpl. unfold stream_open. rewrite (idle_stream _ _ Hx).
    destruct (IsOpen x) eqn:Eo; [intros _; apply open_ready; [apply Hx|done]|]. by rewrite (law_open _ _ En).
  - edestruct (observe_good (OClock clock) c) as (c' & E & G); [done|by rewrite Ew; simpl; rewrite En| |by eexists c', _].
    exists x. split; [done|]. simpl. intros Hk. apply Hu. by eapply law_clock.
  - destruct (law_read _ _ En) as [Hus Hk].
    edestruct (issue_good (TRead client_handle 0) [OAsk] c) as (c' & E & G);
      [by apply (read_starts _ x); auto|done|by rewrite Ew; simpl; rewrite En| |by eexists c', _].
    by intros t Ht.
  - pose proof (law_write _ _ _ En) as Hus.
    pose proof (write_starts client_handle x _ data ur Hx (Hu Hus)) as Ht. destruct (ur =? 0).
    + edestruct (issue_good (TWrite client_handle data ur) [OPut data] c) as (c' & E & G);
        [exact Ht|done|by rewrite Ew; simpl; rewrite En, bool_decide_true| |by eexists c', _].
      intros t Hw. by exists data, x.
    + edestruct (issue_good (TWrite client_handle data ur) [OPut data] c) as (c' & E & G);
        [exact Ht|done|by rewrite Ew; simpl; rewrite En, bool_decide_true| |by eexists c', _].
      intros t Hw. exists x. auto.
  - edestruct (issue_good TClose [OClose] c) as (c' & E & G);
      [by eapply close_takes|done|by rewrite Ew; simpl; rewrite En| |by eexists c', _].
    intros t [x' Hx']. exists x'. split; [done|]. by rewrite (law_close _ _ En).
  - edestruct (issue_good TDestroy [OEnd] c) as (c' & E & G);
      [by eapply destroy_takes|done|by rewrite Ew; simpl; rewrite En|done|by eexists c', _].
Qed.

Lemma on_read_good sug nread data c k : tcp_inv (stream c) → owns c → where_ c = InRead k →
  nread <= alloc_size sug → size data = Z.max 0 nread →
  ∃ c', client_step (COnRead sug nread data) c = Some c' ∧ good_step c [OGot data] c'.
Proof.
  intros Hi Ho Ew Hn Hd. unfold owns in Ho. rewrite Ew in Ho. destruct Ho as (Hk & x & Hx).
  unfold client_step. rewrite Ew. eapply (issue_good _ [] c [EvRead client_handle data]); [by eapply read_returns|done|by rewrite Ew|].
  intros t (x' & Hx' & Hr). exists x'. split; [done|]. destruct data; [by rewrite Hk|]. intros _. by apply Hr.
Qed.

Lemma on_write_good status c k : owns c → where_ c = InWrite k →
  ∃ c' r, client_step (COnWrite 0 status) c = Some c' ∧ good_step c [OWrote r] c'.
Proof.
  intros Ho Ew. unfold owns in Ho. rewrite Ew in Ho. destruct Ho as (data & x & Hx).
  unfold client_step. rewrite Ew.
  edestruct (issue_good (TOnWrite 0 status) [] c) as (c' & E & G);
    [by eapply write_returns|done|by rewrite Ew| |by eexists c', _].
  intros t Ht. exists x. split; [done|]. intros _. apply Hx.
Qed.

(** Only the callbacks that libuv makes are possible. *)
Lemma step_good l c c' : tcp_inv (stream c) → owns c → client_step l c = Some c' → ∃ os, good_step c os c'.
Proof.
  intros Hi Ho Hs. destruct l as [clock ur|sug nread data|i status|].
  - destruct (where_ c) as [s|k|k|] eqn:Ew; [|by simpl in Hs; rewrite Ew in Hs..].
    destruct (run_good clock ur c s Hi Ho Ew) as (c2 & os & E & G). exists os. congruence.
  - destruct (where_ c) as [s|k|k|] eqn:Ew; [by simpl in Hs; rewrite Ew in Hs| |by simpl in Hs; rewrite Ew in Hs..].
    assert (nread <= alloc_size sug ∧ size data = Z.max 0 nread) as [Hn Hd].
    { simpl in Hs. rewrite Ew in Hs. unfold issue in Hs. destruct (tcp_step _ _) eqn:E; [|done]. by eapply read_callback_args. }
    destruct (on_read_good sug nread data c k Hi Ho Ew Hn Hd) as (c2 & E & G). eexists. assert (c2 = c') as <- by congruence. exact G.
  - destruct (where_ c) as [s|k|k|] eqn:Ew; [by simpl in Hs; rewrite Ew in Hs..| |by simpl in Hs; rewrite Ew in Hs].
    assert (i = 0%nat) as ->.
    { pose proof Ho as Ho'. unfold owns in Ho'. rewrite Ew in Ho'. destruct Ho' as (data & x & Hx).
      simpl in Hs. rewrite Ew in Hs. unfold issue in Hs. destruct (tcp_step _ _) eqn:E; [|done]. by eapply write_callback_index. }
    destruct (on_write_good status c k Ho Ew) as (c2 & r & E & G). eexists. assert (c2 = c') as <- by congruence. exact G.
  - assert (issue TOnClose [] c = Some c' ∧ ∀ s, where_ c ≠ At s) as [Hs' Hne].
    { simpl in Hs. by destruct (where_ c). }
    unfold issue in Hs'. destruct (tcp_step TOnClose (stream c)) as [t|] eqn:Et; [|done].
    destruct (closed_takes _ _ Et) as (Hp & He & Es & Ec & Ecd & Ews). simpl in Hs'.
    rewrite He, drop_all in Hs'. simpl in Hs'. injection Hs' as <-. exists []. split; simpl.
    + done.
    + done.
    + by rewrite He, app_nil_r.
    + right. by exists TOnClose.
    + unfold owns in *. simpl. destruct (where_ c) as [s|k|k|]; [by destruct (Hne s)|..].
      * destruct Ho as (Hk & x & [? ? ? ? ? ?]). split; [done|]. exists x. split; congruence.
      * destruct Ho as (data & x & [? ? ? ? ? ?]). exists data, x. split; congruence.
      * by rewrite Es, Ews.
Qed.

Record client_inv c : Prop := {
  ci_tcp : reachable polite_step tinit (stream c);
  ci_owns : owns c;
  ci_replay : replay (trace c) (At start) = Some (where_ c);
  ci_reads : reads (events (stream c)) = gots (trace c);
}.

Lemma client_inv_init r c : client_init r = Some c → client_inv c.
Proof.
  unfold client_init. destruct (polite_step (TAccepted r) tinit) as [t|] eqn:E; [|done]. intros [= <-].
  assert (reachable polite_step tinit t) as Hr by (eapply reach_step; [apply reach_refl|done]).
  split; simpl; [done| |done|].
  - unfold polite_step, tcp_step in E. simpl in E. unfold InitFromAccept in E. simpl in E. unfold owns; simpl.
    rewrite law_start. destruct (r =? 0); simpl in E; injection E as <-; eexists; (split; [|done]);
      (split; simpl; [done|done|auto|auto|done|done]).
  - unfold polite_step, tcp_step in E. simpl in E. destruct (InitFromAccept r new_tcp). by injection E as <-.
Qed.

Lemma client_keeps_inv l c c' : client_inv c → client_step l c = Some c' → client_inv c'.
Proof.
  intros [Ht Ho Hr Hg] Hs. destruct (step_good _ _ _ (tcp_reachable_inv _ Ht) Ho Hs) as [os [Et Ep Erd Em Ho']].
  split; [|done| |].
  - destruct Em as [-> |[l' Hl]]; [done|by eapply reach_step].
  - by rewrite Et, replay_app, Hr.
  - rewrite Erd, Et, Hg. unfold gots. by rewrite omap_app.
Qed.

Lemma client_reachable_inv r c0 c : client_init r = Some c0 → reachable client_step c0 c → client_inv c.
Proof. intros Hi. apply reachable_inv; [by eapply client_inv_init|apply client_keeps_inv]. Qed.

(** A coroutine that obeys the laws and owns an accepted stream is safe on
    it and always served: what it did and saw is a path of its program; the bytes
    its reads returned are, concatenated, the bytes libuv delivered; libuv never
    sees the handle in the wrong state.  It is never stuck: between two
    suspensions it can run, whatever the clock and uv_write say; suspended in
    Read, libuv is reading and every read callback resumes it with its data;
    suspended in Write, the callback of its request resumes it.  Once it is done
    the stream object is gone, and its handle is being closed or is freed, unless
    the stream had ended. *)
Theorem stream_client_safe r c0 c : client_init r = Some c0 → reachable client_step c0 c →
  replay (trace c) (At start) = Some (where_ c) ∧
  received (stream c) = concat (gots (trace c)) ∧
  uv (stream c) ≠ Fault ∧
  match where_ c with
  | At _ => ∀ clock uv_result, is_Some (client_step (CRun clock uv_result) c)
  | InRead k => ∀ suggested nread data, nread <= alloc_size suggested → size data = Z.max 0 nread →
      ∃ c', client_step (COnRead suggested nread data) c = Some c' ∧ where_ c' = At (k data) ∧ trace c' = trace c ++ [OGot data]
  | InWrite k => ∀ status, ∃ c' result,
      client_step (COnWrite 0 status) c = Some c' ∧ where_ c' = At (k result) ∧ trace c' = trace c ++ [OWrote result]
  | Done => strm (stream c) = None ∧ (ended (stream c) = false → gone (uv (stream c)))
  end.
Proof.
  intros Hi Hr. destruct (client_reachable_inv _ _ _ Hi Hr) as [Ht Ho Hp Hg].
  pose proof (tcp_reachable_inv _ Ht) as Hti. split; [done|]. split; [by rewrite (inv_reads _ Hti), Hg|].
  split; [by apply tcp_handle_safe|]. destruct (where_ c) as [s|k|k|] eqn:Ew.
  - intros clock ur. destruct (run_good clock ur c s Hti Ho Ew) as (c' & os & -> & _). done.
  - intros sug nread data Hn Hd. destruct (on_read_good sug nread data c k Hti Ho Ew Hn Hd) as (c' & E & [Et Ep _ _ _]).
    exists c'. rewrite Ew in Ep. by injection Ep.
  - intros status. destruct (on_write_good status c k Ho Ew) as (c' & result & E & [Et Ep _ _ _]).
    exists c', result. rewrite Ew in Ep. by injection Ep.
  - unfold owns in Ho. rewrite Ew in Ho. destruct Ho as [Es _]. split; [done|].
    pose proof (inv_stream _ Hti) as Hx. rewrite Es in Hx. apply Hx.
Qed.
End Laws.
