(* ===== verification/Threads.v ===== *)
(** * Thread configuration and the check's line numbers ([io/thread_utils.hpp],
      [src/io/thread_utils.cpp], [core/check.hpp])

    What the library computes before it calls pthread_setaffinity_np,
    pthread_setname_np and setpriority, which are arguments, and how the thread
    pool configures its workers; and UintToStr, with which CheckFail prints a
    line number without allocating. *)
From Stdlib Require Import Ascii String.
From stdpp Require Import pretty.
From S2P Require Import Prelude Kernel.
Local Open Scope Z_scope.

(** ** CpuAffinity *)

Record CpuAffinity := mkAffinity { cpus : list Z }.
Definition NoAffinity : CpuAffinity := mkAffinity [].
Definition SingleCore (cpu : Z) : CpuAffinity := mkAffinity [cpu].
(** The loop runs [end - start + 1] times, if that is positive. *)
Fixpoint Range_loop (n : nat) (i : Z) (acc : list Z) : list Z :=
  match n with O => acc | S n => Range_loop n (i + 1) (acc ++ [i]) end.
Definition Range (start end_ : Z) : CpuAffinity := mkAffinity (Range_loop (Z.to_nat (end_ - start + 1)) start []).
Definition Cores (cores : list Z) : CpuAffinity := mkAffinity cores.
Definition IsSet (a : CpuAffinity) : bool := negb (bool_decide (cpus a = [])).

Definition CPU_SETSIZE : Z := 1024.
(** The set that goes to pthread_setaffinity_np. *)
Definition cpuset (a : CpuAffinity) : gset Z :=
  foldl (λ s cpu, if (0 <=? cpu) && (cpu <? CPU_SETSIZE) then s ∪ {[ cpu ]} else s) ∅ (cpus a).
Definition SetThreadAffinity (setaffinity : gset Z → Z) (a : CpuAffinity) : bool :=
  if negb (IsSet a) then true else setaffinity (cpuset a) =? 0.

(** [substr(0, 15)], and [c_str()], which ends at the first zero byte. *)
Fixpoint until_nul (b : bytes) : bytes :=
  match b with
  | [] => []
  | c :: b => if decide (c = Ascii.zero) then [] else c :: until_nul b
  end.
Definition SetThreadName (setname : bytes → Z) (name : bytes) : bool := setname (until_nul (take 15 name)) =? 0.

Definition clamp_nice (nice_value : Z) : Z := Z.max (-20) (Z.min 19 nice_value).
Definition SetThreadNice (setpriority : Z → Z) (nice_value : Z) : bool := setpriority (clamp_nice nice_value) =? 0.

(** The start of a pool worker: its one core, its name, its niceness. *)
Record pool_options := mkOptions { cpu_affinity : CpuAffinity; thread_name_prefix : bytes; nice_value : Z }.
Definition worker_affinity (o : pool_options) (worker_index : nat) : option CpuAffinity :=
  if IsSet (cpu_affinity o)
  then SingleCore <$> cpus (cpu_affinity o) !! (worker_index mod length (cpus (cpu_affinity o)))%nat
  else None.
Definition worker_name (o : pool_options) (worker_index : nat) : option bytes :=
  if bool_decide (thread_name_prefix o = []) then None
  else Some (thread_name_prefix o ++ ["-"%char] ++ list_ascii_of_string (pretty worker_index)).
Definition worker_nice (o : pool_options) : option Z := if nice_value o =? 0 then None else Some (clamp_nice (nice_value o)).

(** ** UintToStr *)

(** One iteration writes one digit in front of [acc]; [None]: out of fuel, that
    is, of room in front of [buf_end]. *)
Definition digit (d : Z) : ascii := ascii_of_nat (Z.to_nat (48 + d)).
Fixpoint UintToStr_loop (room : nat) (value : Z) (acc : bytes) : option bytes :=
  match room with
  | O => None
  | S room =>
      let acc := digit (value mod 10) :: acc in
      let value := value / 10 in
      if negb (value =? 0) then UintToStr_loop room value acc else Some acc
  end.
Definition UintToStr (value : Z) (room : nat) : option bytes := UintToStr_loop room value [].
(** [line_buf] of CheckFail. *)
Definition line_buf_size : nat := 12.

(** ** Theorems *)

Lemma Range_loop_spec n : ∀ i acc, Range_loop n i acc = acc ++ ((λ k, i + Z.of_nat k) <$> seq 0 n).
Proof.
  induction n as [|n IH]; intros i acc; simpl; [by rewrite app_nil_r|].
  rewrite IH, <- app_assoc. simpl. f_equal. f_equal; [lia|].
  rewrite <- fmap_S_seq, <- list_fmap_compose. apply list_fmap_ext. intros k x _. simpl. lia.
Qed.

Lemma cpuset_elem a cpu : cpu ∈ cpuset a ↔ cpu ∈ cpus a ∧ 0 <= cpu < CPU_SETSIZE.
Proof.
  unfold cpuset. destruct a as [l]; simpl.
  assert (∀ s : gset Z, cpu ∈ foldl (λ s cpu, if (0 <=? cpu) && (cpu <? CPU_SETSIZE) then s ∪ {[cpu]} else s) s l ↔
    cpu ∈ s ∨ (cpu ∈ l ∧ 0 <= cpu < CPU_SETSIZE)) as H; [|rewrite H; set_solver].
  induction l as [|c l IH]; intros s; simpl; [set_solver|]. rewrite IH.
  destruct (Z.leb_spec 0 c), (Z.ltb_spec c CPU_SETSIZE); simpl; set_solver by lia.
Qed.

Lemma until_nul_spec b : until_nul b `prefix_of` b ∧ Ascii.zero ∉ until_nul b.
Proof.
  induction b as [|c b [IHp IHz]]; simpl; [split; [done|set_solver]|].
  destruct (decide (c = Ascii.zero)); [split; [apply prefix_nil|set_solver]|].
  split; [by apply prefix_cons|set_solver].
Qed.

(** What reaches the system is valid, and is what was asked for where that
    is valid: the affinity set holds exactly the requested cores between 0 and
    CPU_SETSIZE; Range is the interval; the name is a prefix of at most 15
    characters without a zero byte; the niceness lies in [-20, 19] and is
    unchanged when it already did; and every worker of a pool with an affinity
    is bound to one of its cores, worker [i] and worker [i + n] to the same. *)
Theorem thread_config_valid a name n start end_ cpu o i :
  (cpu ∈ cpuset a ↔ cpu ∈ cpus a ∧ 0 <= cpu < CPU_SETSIZE) ∧
  (cpu ∈ cpus (Range start end_) ↔ start <= cpu <= end_) ∧
  (until_nul (take 15 name) `prefix_of` name ∧ size (until_nul (take 15 name)) <= 15 ∧
    Ascii.zero ∉ until_nul (take 15 name)) ∧
  (-20 <= clamp_nice n <= 19 ∧ (-20 <= n <= 19 → clamp_nice n = n)) ∧
  (IsSet (cpu_affinity o) = true → ∃ c, c ∈ cpus (cpu_affinity o) ∧
     worker_affinity o i = Some (SingleCore c) ∧
     worker_affinity o (i + length (cpus (cpu_affinity o))) = Some (SingleCore c)).
Proof.
  split; [apply cpuset_elem|]. split.
  { unfold Range; simpl. rewrite Range_loop_spec. simpl. rewrite list_elem_of_fmap. split.
    - intros (k & -> & Hk). apply elem_of_seq in Hk. lia.
    - intros H. exists (Z.to_nat (cpu - start)). split; [lia|]. apply elem_of_seq. lia. }
  split.
  { destruct (until_nul_spec (take 15 name)) as [Hp Hz]. split_and!; [| |done].
    - etrans; [exact Hp|]. apply prefix_take.
    - apply prefix_length in Hp. unfold size. rewrite length_take in Hp. lia. }
  split; [unfold clamp_nice; lia|].
  intros Hs. unfold worker_affinity. rewrite Hs. unfold IsSet in Hs. apply negb_true_iff, bool_decide_eq_false in Hs.
  set (l := cpus (cpu_affinity o)) in *. assert (length l ≠ 0%nat) as Hl by (by destruct l).
  destruct (lookup_lt_is_Some_2 l (i mod length l)%nat) as [c Hc]; [by apply Nat.mod_upper_bound|].
  exists c. split; [by eapply list_elem_of_lookup_2|].
  replace (i + length l)%nat with (i + 1 * length l)%nat by lia. by rewrite Nat.Div0.mod_add, Hc.
Qed.

Lemma thread_config_valid_witness :
  IsSet (SingleCore 3) = true ∧
  ∃ c, c ∈ [3] ∧ worker_affinity (mkOptions (SingleCore 3) [] 0) 5 = Some (SingleCore c) ∧
    worker_affinity (mkOptions (SingleCore 3) [] 0) 6 = Some (SingleCore c).
Proof.
  split; [reflexivity|].
  apply (thread_config_valid (SingleCore 3) [] 0 0 0 0 (mkOptions (SingleCore 3) [] 0) 5). reflexivity.
Defined.

(** The value a string of digits denotes. *)
Definition value_of (s : bytes) : Z := foldl (λ v c, 10 * v + (Z.of_nat (nat_of_ascii c) - 48)) 0 s.

Lemma digit_value d : 0 <= d < 10 → Z.of_nat (nat_of_ascii (digit d)) - 48 = d.
Proof. intros. unfold digit. rewrite nat_ascii_embedding; lia. Qed.

Lemma value_of_snoc s c : value_of (s ++ [c]) = 10 * value_of s + (Z.of_nat (nat_of_ascii c) - 48).
Proof. unfold value_of. by rewrite foldl_app. Qed.

Lemma value_of_app s t : value_of (s ++ t) = value_of s * 10 ^ size t + value_of t.
Proof.
  induction t as [|c t IH] using rev_ind; [rewrite app_nil_r, size_nil; unfold value_of at 3; simpl; lia|].
  rewrite app_assoc, !value_of_snoc, IH, size_app, Z.pow_add_r by (unfold size; lia). change (size [c]) with 1. lia.
Qed.

Lemma UintToStr_loop_spec : ∀ room value acc, 0 <= value < 10 ^ Z.of_nat (S room) →
  ∃ c s, UintToStr_loop (S room) value acc = Some (c :: s ++ acc) ∧ value_of (c :: s) = value ∧
    (c = "0"%char → s = []) ∧ (∀ m, 0 <= m → value < 10 ^ (m + 1) → size s <= m).
Proof.
  induction room as [|room IH]; intros value acc Hv; cbn [UintToStr_loop];
    assert (0 <= value mod 10 < 10) by (by apply Z.mod_pos_bound);
    pose proof (Z.div_mod value 10 ltac:(lia)) as Hdm; destruct (Z.eqb_spec (value / 10) 0) as [E|E]; simpl negb.
  1, 3: exists (digit (value mod 10)), []; split_and!; [done| |done|by intros];
    unfold value_of; simpl; rewrite digit_value by done; lia.
  - exfalso. apply E. apply Z.div_small. simpl in Hv. lia.
  - destruct (IH (value / 10) (digit (value mod 10) :: acc)) as (c & s & Es & Hval & Hc & Hm).
    { split; [apply Z.div_pos; lia|]. apply Z.div_lt_upper_bound; [lia|]. rewrite <- Z.pow_succ_r by lia.
      replace (Z.succ (Z.of_nat (S room))) with (Z.of_nat (S (S room))) by lia. apply Hv. }
    exists c, (s ++ [digit (value mod 10)]). split_and!.
    + cbn [UintToStr_loop] in Es. rewrite Es. by rewrite <- app_assoc.
    + rewrite app_comm_cons, value_of_app, Hval. unfold value_of, size; simpl. rewrite digit_value by done. lia.
    + intros ->. rewrite Hc in Hval by done. change (value_of _) with 0 in Hval. lia.
    + intros m Hm0 Hlt. rewrite size_app. change (size [_]) with 1.
      destruct (decide (m = 0)) as [->|]; [rewrite Z.div_small in E by lia; lia|].
      enough (size s <= m - 1) by lia. apply Hm; [lia|]. replace (m - 1 + 1) with m by lia.
      apply Z.div_lt_upper_bound; [lia|]. rewrite <- Z.pow_succ_r by lia. done.
Qed.

(** Printing a 32-bit number needs at most 10 characters, so the 12-byte
    buffer of CheckFail is enough; the digits read back as the number, and there
    is no leading zero. *)
Theorem uint_to_str_roundtrip value : 0 <= value < 2 ^ 32 →
  ∃ s, UintToStr value line_buf_size = Some s ∧ size s <= 10 ∧ value_of s = value ∧
    (value ≠ 0 → head s ≠ Some "0"%char).
Proof.
  intros Hv. assert (0 <= value < 10 ^ Z.of_nat 12) as Hv12 by (simpl; lia).
  destruct (UintToStr_loop_spec 11 value [] Hv12) as (c & s & Es & Hval & Hc & Hm).
  exists (c :: s). rewrite app_nil_r in Es. split_and!; [done| |done|].
  - assert (size s <= 9) by (apply Hm; lia). unfold size in *. simpl. lia.
  - intros Hne [= ->]. rewrite Hc in Hval by done. change (value_of _) with 0 in Hval. lia.
Qed.

Lemma uint_to_str_roundtrip_witness :
  0 <= 4294967295 < 2 ^ 32 ∧ UintToStr 4294967295 line_buf_size = Some (list_ascii_of_string "4294967295") ∧
  ∃ s, UintToStr 4294967295 line_buf_size = Some s ∧ size s <= 10 ∧ value_of s = 4294967295 ∧
    (4294967295 ≠ 0 → head s ≠ Some "0"%char).
Proof.
  assert (0 <= 4294967295 < 2 ^ 32) as Hv by lia. split; [exact Hv|]. split; [reflexivity|].
  exact (uint_to_str_roundtrip 4294967295 Hv).
Defined.

(** The workers of a pool whose prefix has 14 characters or more share one
    name: the index is cut off. *)
Example worker_names_truncated :
  let o := mkOptions NoAffinity (list_ascii_of_string "database-worker") 0 in
  (λ b, until_nul (take 15 b)) <$> worker_name o 1 = (λ b, until_nul (take 15 b)) <$> worker_name o 2.
Proof. reflexivity. Qed.

(** ** CheckFail *)

Definition lit : string → bytes := list_ascii_of_string.
Definition newline : bytes := ["010"%char].
Record source_location := mkLocation { line : Z; function_name : bytes; file_name : bytes }.

(** What it writes to stderr, before it aborts; [None]: the number overran its
    buffer. *)
Definition CheckFail (cond_str msg : bytes) (loc : source_location) : option bytes :=
  line_str ← UintToStr (line loc) line_buf_size;
  Some (lit "HOTCOCO_CHECK(" ++ cond_str ++ lit ") failed: " ++ msg ++ newline ++ lit "  in " ++ function_name loc ++
        lit " (" ++ file_name loc ++ lit ":" ++ line_str ++ lit ")" ++ newline).
Inductive checked := Passed | Aborted (written : option bytes).
Definition HOTCOCO_CHECK (cond : bool) (cond_str msg : bytes) (loc : source_location) : checked :=
  if negb cond then Aborted (CheckFail cond_str msg loc) else Passed.

(** A check that fails aborts, with its message and its line in decimal; the
    buffer is never overrun. *)
Lemma check_fail_reports cond cond_str msg loc : 0 <= line loc < 2 ^ 32 →
  HOTCOCO_CHECK true cond_str msg loc = Passed ∧
  (cond = false → ∃ before line_str after, HOTCOCO_CHECK cond cond_str msg loc = Aborted (Some (before ++ line_str ++ after)) ∧
     value_of line_str = line loc ∧ after = lit ")" ++ newline).
Proof.
  intros Hl. split; [done|]. intros ->. unfold HOTCOCO_CHECK, CheckFail. simpl.
  assert (0 <= line loc < 10 ^ Z.of_nat 12) as Hv by (simpl; lia).
  destruct (UintToStr_loop_spec 11 (line loc) [] Hv) as (c & s & Es & Hval & _). rewrite app_nil_r in Es.
  unfold UintToStr, line_buf_size. rewrite Es. simpl.
  exists (lit "HOTCOCO_CHECK(" ++ cond_str ++ lit ") failed: " ++ msg ++ newline ++ lit "  in " ++ function_name loc ++
          lit " (" ++ file_name loc ++ lit ":"), (c :: s), (lit ")" ++ newline).
  split_and!; [|done|done]. rewrite <- !app_assoc. done.
Qed.
