(* ===== verification/Execution.v ===== *)
(** * The std::execution bridge ([execution/scheduler.hpp], [execution/sender.hpp],
      [execution/as_awaitable.hpp], [execution/stop_token_adapter.hpp])

    stdexec is a third-party library; what is modelled are the adapters: the
    operation states they define, the receivers they pass, and what their
    callbacks do.  stdexec's contract is what the labels allow: an operation is
    started at most once, and a started operation signals its receiver at most
    once. *)
From S2P Require Import Prelude Cancellation.

(** ** ScheduleOperation: an executor as a scheduler *)

Inductive completion := SetValue | SetStopped.
#[export] Instance completion_eq_dec : EqDecision completion.
Proof. solve_decision. Defined.

(** The receiver's stop token: whether its type can never be stopped, and
    whether a stop was requested. *)
Record ScheduleOperation := mkOp { executor_ : nat; unstoppable : bool; stop_requested : bool; started_ : bool }.

(** A scheduler and a sender are an executor's address. *)
Record HotcocoScheduler := mkScheduler { s_executor_ : nat }.
Definition AsScheduler (exec : nat) : HotcocoScheduler := mkScheduler exec.
Definition scheduler_eq (a b : HotcocoScheduler) : bool := bool_decide (s_executor_ a = s_executor_ b).
Definition schedule (s : HotcocoScheduler) : nat := s_executor_ s.
Definition connect (sender : nat) (unst : bool) : ScheduleOperation := mkOp sender unst false false.

(** The callback that [start] posts. *)
Definition complete (o : ScheduleOperation) : completion :=
  if unstoppable o then SetValue else if stop_requested o then SetStopped else SetValue.

(** [posted]: the callback queues of the executors, by address; [starts] and
    [completed]: in order. *)
Record schedule_sys := SSys {
  ops : gmap nat ScheduleOperation;
  posted : gmap nat (list nat);
  starts : list (nat * nat);
  completed : list (nat * nat * completion)
}.
Inductive slabel :=
  | SConnect (op : nat) (s : HotcocoScheduler) (unst : bool)
  | SRequestStop (op : nat)
  | SStart (op : nat)
  | SRun (executor : nat).                       (* runs the next posted callback *)

Definition queue_of (x : nat) (s : schedule_sys) : list nat := default [] (posted s !! x).
Definition schedule_step (l : slabel) (s : schedule_sys) : option schedule_sys :=
  match l with
  | SConnect op sch unst =>
      match ops s !! op with
      | Some _ => None
      | None => Some (SSys (<[op := connect (schedule sch) unst]> (ops s)) (posted s) (starts s) (completed s))
      end
  | SRequestStop op =>
      match ops s !! op with
      | Some o => Some (SSys (<[op := mkOp (executor_ o) (unstoppable o) true (started_ o)]> (ops s)) (posted s) (starts s) (completed s))
      | None => None
      end
  | SStart op =>
      match ops s !! op with
      | Some o =>
          if started_ o then None else
          let x := executor_ o in
          Some (SSys (<[op := mkOp x (unstoppable o) (stop_requested o) true]> (ops s))
                  (<[x := queue_of x s ++ [op]]> (posted s)) (starts s ++ [(x, op)]) (completed s))
      | None => None
      end
  | SRun x =>
      match queue_of x s with
      | op :: rest =>
          match ops s !! op with
          | Some o => Some (SSys (ops s) (<[x := rest]> (posted s)) (starts s) (completed s ++ [(x, op, complete o)]))
          | None => None
          end
      | [] => None
      end
  end.
Definition schedule_init : schedule_sys := SSys ∅ ∅ [] [].

(** What was started on executor [x], and what completed there. *)
Definition starts_on (x : nat) (s : schedule_sys) : list nat := (filter (λ p, p.1 = x) (starts s)).*2.
Definition completed_on (x : nat) (s : schedule_sys) : list nat := (filter (λ p, p.1 = x) (completed s).*1).*2.

Record schedule_inv (s : schedule_sys) : Prop := {
  si_order x : starts_on x s = completed_on x s ++ queue_of x s;
  si_started op : op ∈ (starts s).*2 ↔ ∃ o, ops s !! op = Some o ∧ started_ o = true;
  si_once : NoDup (starts s).*2;
  si_at x op : (x, op) ∈ starts s → executor_ <$> ops s !! op = Some x;
  si_stopped x op : (x, op, SetStopped) ∈ completed s →
    ∃ o, ops s !! op = Some o ∧ unstoppable o = false ∧ stop_requested o = true
}.

Lemma queue_of_insert x y q s o p c : queue_of x (SSys o (<[y := q]> (posted s)) p c) = if decide (x = y) then q else queue_of x s.
Proof.
  unfold queue_of; simpl. destruct (decide (x = y)) as [->|]; [by rewrite lookup_insert_eq|by rewrite lookup_insert_ne].
Qed.

Lemma schedule_inv_connect op sch unst s s' : schedule_inv s → schedule_step (SConnect op sch unst) s = Some s' → schedule_inv s'.
Proof.
  intros [Ho Hs Hn Ha Hst] E. simpl in E.
  destruct (ops s !! op) eqn:Eo; [done|]. injection E as <-. split; simpl; [done| |done| |].
  + intros op'. rewrite Hs. destruct (decide (op = op')) as [<-|].
    * rewrite lookup_insert_eq, Eo. split; [by intros (? & [=] & _)|by intros (? & [= <-] & [=])].
    * by rewrite lookup_insert_ne.
  + intros y op' Hin. specialize (Ha _ _ Hin). destruct (decide (op = op')) as [<-|]; [by rewrite Eo in Ha|by rewrite lookup_insert_ne].
  + intros y op' Hin. destruct (Hst _ _ Hin) as (o & E & ?). exists o. by rewrite lookup_insert_ne by congruence.
Qed.

Lemma schedule_inv_stop op s s' : schedule_inv s → schedule_step (SRequestStop op) s = Some s' → schedule_inv s'.
Proof.
  intros [Ho Hs Hn Ha Hst] E. simpl in E.
  destruct (ops s !! op) as [o|] eqn:Eo; [|done]. injection E as <-. split; simpl; [done| |done| |].
  + intros op'. rewrite Hs. destruct (decide (op = op')) as [<-|]; [|by rewrite lookup_insert_ne].
    rewrite lookup_insert_eq, Eo. split; intros (o' & [= <-] & E); eexists; by split.
  + intros y op' Hin. specialize (Ha _ _ Hin). destruct (decide (op = op')) as [<-|]; [|by rewrite lookup_insert_ne].
    rewrite lookup_insert_eq. by rewrite Eo in Ha.
  + intros y op' Hin. destruct (Hst _ _ Hin) as (o' & E & Hu & Hr). destruct (decide (op = op')) as [<-|].
    * rewrite lookup_insert_eq. eexists. split; [done|]. rewrite Eo in E. by injection E as <-.
    * exists o'. by rewrite lookup_insert_ne.
Qed.

Lemma schedule_inv_start op s s' : schedule_inv s → schedule_step (SStart op) s = Some s' → schedule_inv s'.
Proof.
  intros [Ho Hs Hn Ha Hst] E. simpl in E.
  destruct (ops s !! op) as [o|] eqn:Eo; [|done]. destruct (started_ o) eqn:Est; [done|]. injection E as <-.
  assert (op ∉ (starts s).*2) as Hnew.
  { rewrite Hs. intros (o' & E & Est'). congruence. }
  split; simpl.
  + intros x. rewrite queue_of_insert. unfold starts_on, completed_on in *; simpl.
    rewrite filter_app, fmap_app, Ho. rewrite filter_cons, filter_nil. simpl.
    destruct (decide (executor_ o = x)) as [<-|]; destruct (decide (_ = _)); try congruence; simpl.
    * by rewrite app_assoc.
    * by rewrite app_nil_r.
  + intros op'. rewrite fmap_app, elem_of_app, Hs. simpl. destruct (decide (op = op')) as [<-|].
    * rewrite lookup_insert_eq. split; [intros _; by eexists|intros _; right; set_solver].
    * rewrite lookup_insert_ne by done. split; [intros [?|?]; [done|set_solver]|by left].
  + rewrite fmap_app. simpl. apply NoDup_app. split_and!; [done|set_solver|apply NoDup_singleton].
  + intros y op' [Hin|Hin]%elem_of_app.
    * specialize (Ha _ _ Hin). destruct (decide (op = op')) as [<-|]; [|by rewrite lookup_insert_ne].
      rewrite lookup_insert_eq. by rewrite Eo in Ha.
    * apply list_elem_of_singleton in Hin. injection Hin as -> ->. by rewrite lookup_insert_eq.
  + intros y op' Hin. destruct (Hst _ _ Hin) as (o' & E & Hu & Hr). destruct (decide (op = op')) as [<-|].
    * rewrite lookup_insert_eq. rewrite Eo in E. injection E as <-. by eexists.
    * exists o'. by rewrite lookup_insert_ne.
Qed.

Lemma schedule_inv_run x s s' : schedule_inv s → schedule_step (SRun x) s = Some s' → schedule_inv s'.
Proof.
  intros [Ho Hs Hn Ha Hst] E. simpl in E.
  destruct (queue_of x s) as [|op rest] eqn:Eq; [done|]. destruct (ops s !! op) as [o|] eqn:Eo; [|done].
  injection E as <-. split; simpl; [|done|done|done|].
  + intros y. rewrite queue_of_insert. specialize (Ho y). unfold starts_on, completed_on in *; simpl. rewrite Ho.
    rewrite !fmap_app, filter_app, fmap_app. simpl. rewrite filter_cons, filter_nil. simpl.
    destruct (decide (x = y)) as [<-|]; destruct (decide (_ = _)); try congruence; simpl.
    * by rewrite Eq, <- app_assoc.
    * by rewrite app_nil_r.
  + intros y op' [Hin|Hin]%elem_of_app; [by apply (Hst y)|]. apply list_elem_of_singleton in Hin.
    injection Hin as -> -> Hc. exists o. split; [done|]. unfold complete in Hc.
    destruct (unstoppable o); [done|]. by destruct (stop_requested o).
Qed.

Lemma schedule_inv_step l s s' : schedule_inv s → schedule_step l s = Some s' → schedule_inv s'.
Proof.
  destruct l; [apply schedule_inv_connect|apply schedule_inv_stop|apply schedule_inv_start|apply schedule_inv_run].
Qed.

(** An executor used as a scheduler completes every operation started on it
    exactly once and in the order of the starts: what was started on it is what
    has completed followed by what is still posted, without repetition.  An
    operation is stopped only if its receiver can be stopped and a stop was
    requested. *)
Theorem schedule_completes_once s : reachable schedule_step schedule_init s →
  (∀ x, starts_on x s = completed_on x s ++ queue_of x s) ∧ NoDup (starts s).*2 ∧
  (∀ x op, (x, op, SetStopped) ∈ completed s →
     ∃ o, ops s !! op = Some o ∧ unstoppable o = false ∧ stop_requested o = true).
Proof.
  intros Hr. assert (schedule_inv s) as [Ho _ Hn _ Hst]; [|done].
  refine (reachable_inv schedule_step schedule_inv _ s _ schedule_inv_step Hr).
  split; simpl; [done| |constructor|by intros ?? ?%elem_of_nil|by intros ?? ?%elem_of_nil].
  intros op. rewrite lookup_empty. split; [by intros ?%elem_of_nil|by intros (? & [=] & _)].
Qed.

Definition schedule_demo : list slabel :=
  [SConnect 1 (AsScheduler 7) false; SConnect 2 (AsScheduler 7) true; SStart 2; SStart 1; SRequestStop 1;
   SRequestStop 2; SRun 7; SRun 7].
Lemma schedule_completes_once_witness :
  ∃ s, run schedule_step schedule_demo schedule_init = Some s ∧
    completed s = [(7, 2, SetValue); (7, 1, SetStopped)] ∧ NoDup (starts s).*2.
Proof.
  eexists. split; [vm_compute; reflexivity|]. split; [reflexivity|].
  refine (proj1 (proj2 (schedule_completes_once _ _))). apply reachable_run. exists schedule_demo. reflexivity.
Defined.

(** ** SenderAwaitable: a sender as an awaitable *)

Section Awaitable.
Context {T : Type}.

(** What the sender sends to BridgeReceiver. *)
Inductive signal := SigValue (v : T) | SigStopped | SigError.

Record SenderAwaitable := mkAwaitable {
  result : option T;
  continuation : option handle;
  stopped : bool;
  has_op_ : bool
}.
Definition AsAwaitable : SenderAwaitable := mkAwaitable None None false false.
Definition await_ready (a : SenderAwaitable) : bool := false.
(** The connect in place, then the start. *)
Definition await_suspend (cont : handle) (a : SenderAwaitable) : SenderAwaitable :=
  mkAwaitable (result a) (Some cont) (stopped a) true.
(** The receiver's methods: the state and the handle to resume, or the abort. *)
Definition receive (sig : signal) (a : SenderAwaitable) : option (SenderAwaitable * option handle) :=
  match sig with
  | SigValue v => Some (mkAwaitable (Some v) (continuation a) (stopped a) (has_op_ a), continuation a)
  | SigStopped => Some (mkAwaitable (result a) (continuation a) true (has_op_ a), continuation a)
  | SigError => None
  end.
(** [None]: the check fails and the process aborts (or the optional is empty). *)
Definition await_resume (a : SenderAwaitable) : option T := if stopped a then None else result a.
Definition destroys_op (a : SenderAwaitable) : bool := has_op_ a.

(** The co_await of a sender that sends [sig]: what the coroutine gets, [None]
    when the process aborts. *)
Definition co_await_sender (cont : handle) (sig : signal) : option (handle * T) :=
  let a := await_suspend cont AsAwaitable in
  match receive sig a with
  | Some (a', Some h) => match await_resume a' with Some v => Some (h, v) | None => None end
  | _ => None
  end.

(** TaskSender: [start] moves the task and the receiver into the bridge
    coroutine, which awaits the task and then completes the receiver. *)
Record TaskSenderOperation (R : Type) := mkTaskOp { task_ : option nat; receiver_ : option R }.
Arguments mkTaskOp {R}.
Arguments task_ {R}.
Arguments receiver_ {R}.
Definition task_connect {R} (task : nat) (rcvr : R) : TaskSenderOperation R := mkTaskOp (Some task) (Some rcvr).
Definition task_start {R} (o : TaskSenderOperation R) : (option nat * option R) * TaskSenderOperation R :=
  ((task_ o, receiver_ o), mkTaskOp None None).
(** [run_bridge], given the value its task completes with. *)
Definition run_bridge {R} (value : nat → T) (frame : option nat * option R) : option (R * signal) :=
  match frame with
  | (Some t, Some rcvr) => Some (rcvr, SigValue (value t))
  | _ => None
  end.

(** A sender that sends a value gives that value to the coroutine that awaits
    it; awaiting a task through the sender and the awaitable is awaiting the
    task; a stopped or failed sender aborts.  The operation state is destroyed
    exactly when it was constructed. *)
Lemma sender_await_value cont v (value : nat → T) task :
  co_await_sender cont (SigValue v) = Some (cont, v) ∧
  co_await_sender cont SigStopped = None ∧ co_await_sender cont SigError = None ∧
  (let (frame, o') := task_start (task_connect task cont) in
   (x ← run_bridge value frame; co_await_sender x.1 x.2) = Some (cont, value task) ∧
   run_bridge value (task_start o').1 = None) ∧
  destroys_op AsAwaitable = false ∧ destroys_op (await_suspend cont AsAwaitable) = true.
Proof. done. Qed.
End Awaitable.

(** A sender without a value: the state has a flag in place of the result, which
    nothing reads, as await_resume returns nothing. *)
Section AwaitableVoid.
Inductive void_signal := VoidValue | VoidStopped | VoidError.
Record VoidAwaitable := mkVoidAwaitable { v_continuation : option handle; completed_ : bool; v_stopped : bool; v_has_op : bool }.
Definition AsAwaitable_void : VoidAwaitable := mkVoidAwaitable None false false false.
Definition await_suspend_void (cont : handle) (a : VoidAwaitable) : VoidAwaitable :=
  mkVoidAwaitable (Some cont) (completed_ a) (v_stopped a) true.
Definition receive_void (sig : void_signal) (a : VoidAwaitable) : option (VoidAwaitable * option handle) :=
  match sig with
  | VoidValue => Some (mkVoidAwaitable (v_continuation a) true (v_stopped a) (v_has_op a), v_continuation a)
  | VoidStopped => Some (mkVoidAwaitable (v_continuation a) (completed_ a) true (v_has_op a), v_continuation a)
  | VoidError => None
  end.
(** [None]: the check fails and the process aborts. *)
Definition await_resume_void (a : VoidAwaitable) : option unit := if v_stopped a then None else Some tt.
Definition co_await_void (cont : handle) (sig : void_signal) : option handle :=
  match receive_void sig (await_suspend_void cont AsAwaitable_void) with
  | Some (a', Some h) => match await_resume_void a' with Some tt => Some h | None => None end
  | _ => None
  end.

(** The void awaitable is the other one at the unit type. *)
Definition void_state (a : VoidAwaitable) : SenderAwaitable (T := unit) :=
  mkAwaitable (if completed_ a then Some tt else None) (v_continuation a) (v_stopped a) (v_has_op a).
Definition void_sig (sig : void_signal) : signal (T := unit) :=
  match sig with VoidValue => SigValue tt | VoidStopped => SigStopped | VoidError => SigError end.

Lemma void_awaitable_unit cont sig a :
  void_state AsAwaitable_void = AsAwaitable ∧
  void_state (await_suspend_void cont a) = await_suspend cont (void_state a) ∧
  receive (void_sig sig) (void_state a) = prod_map void_state id <$> receive_void sig a ∧
  (completed_ a = true → await_resume (void_state a) = await_resume_void a) ∧
  co_await_sender cont (void_sig sig) = (λ h, (h, tt)) <$> co_await_void cont sig.
Proof.
  destruct sig; split_and!; try done; unfold await_resume, await_resume_void; simpl; by intros ->; destruct (v_stopped a).
Qed.
End AwaitableVoid.

(** ** Stop tokens *)

(** A std::stop_source with the callbacks registered on it, here the bridges
    that listen; a StopTokenBridge with the cancellation state of its source.
    request_stop runs the callbacks on the calling thread, once; a callback
    constructed after the request runs at once. *)
Record StopTokenBridge := mkBridge { source_ : CancellationState; listening : bool }.
Definition cancel (c : CancellationState) : CancellationState := (Cancel_take (Cancel_exchange c).2).2.
Definition bridge_ctor (stop_possible stop_requested : bool) : StopTokenBridge :=
  if stop_possible
  then mkBridge (if stop_requested then cancel new_cstate else new_cstate) true
  else mkBridge new_cstate false.
Definition on_stop (b : StopTokenBridge) : StopTokenBridge :=
  if listening b then mkBridge (cancel (source_ b)) true else b.

(** [bridges]: the live ones by address; [tokens]: the state each token handed
    out shares, which outlives the bridge. *)
Record stop_sys := StopSys { requested : bool; possible : bool; bridges : gmap nat StopTokenBridge }.
Inductive stop_label := FromStopToken (x : nat) | RequestStop.
Definition stop_step (l : stop_label) (s : stop_sys) : option stop_sys :=
  match l with
  | FromStopToken x =>
      match bridges s !! x with
      | Some _ => None
      | None => Some (StopSys (requested s) (possible s) (<[x := bridge_ctor (possible s) (requested s)]> (bridges s)))
      end
  | RequestStop =>
      if negb (possible s) then None
      else if requested s then Some s else Some (StopSys true (possible s) (on_stop <$> bridges s))
  end.

(** The token of a live bridge is cancelled exactly when the stop was
    requested. *)
Lemma stop_bridge_iff p s : reachable stop_step (StopSys false p ∅) s →
  ∀ x b, bridges s !! x = Some b → IsCancelled (source_ b) = requested s ∧ listening b = possible s.
Proof.
  intros Hr. assert ((requested s = true → possible s = true) ∧ ∀ x b, bridges s !! x = Some b →
    IsCancelled (source_ b) = requested s ∧ listening b = possible s) as [_ H]; [|done].
  refine (reachable_inv stop_step (λ s, (requested s = true → possible s = true) ∧ ∀ x b, bridges s !! x = Some b →
    IsCancelled (source_ b) = requested s ∧ listening b = possible s) _ s _ _ Hr).
  { split; [done|]. intros x b. simpl. by rewrite lookup_empty. }
  intros l s1 s2 [Hp Hi] E. destruct l as [x|]; simpl in E.
  - destruct (bridges s1 !! x) eqn:Ex; [done|]. injection E as <-. split; [done|]. simpl. intros y b.
    destruct (decide (x = y)) as [<-|]; [|rewrite lookup_insert_ne by done; apply Hi].
    rewrite lookup_insert_eq. intros [= <-]. unfold bridge_ctor. destruct (possible s1) eqn:Ep; [by destruct (requested s1)|].
    destruct (requested s1); [|done]. by specialize (Hp eq_refl).
  - destruct (possible s1) eqn:Ep; [|done]. simpl in E. destruct (requested s1) eqn:Er; injection E as <-.
    { split; [done|]. rewrite Er, Ep. done. }
    split; [done|]. simpl. intros y b. rewrite lookup_fmap. destruct (bridges s1 !! y) as [b0|] eqn:Eb; [|done].
    simpl. intros [= <-]. destruct (Hi _ _ Eb) as [_ Hl]. unfold on_stop. by rewrite Hl.
Qed.

(** CancellationLink: OnCancel with the request_stop of its stop source, whose
    handle the destructor unregisters. *)
Record CancellationLink := mkLink { token_ : option CancellationState; handle_ : Z }.
Definition LinkCancellation (request_stop : nat) (token : option CancellationState) : CancellationLink * bool :=
  match Token_OnCancel request_stop token with
  | (Some h, token) => (mkLink token h, false)
  | (None, token) => (mkLink token 0, true)       (* already cancelled: called at once *)
  end.
Definition link_dtor (l : CancellationLink) : option CancellationState := Token_Unregister (handle_ l) (token_ l).

(** A link calls request_stop at once when the token is cancelled; otherwise it
    is among the callbacks a Cancel takes, and no more once it is destroyed. *)
Lemma link_registers cb c : next_handle_ c ≠ 0%Z →
  next_handle_ c ∉ callback_handles_ c → length (callbacks_ c) = length (callback_handles_ c) →
  let '(l, now) := LinkCancellation cb (Some c) in
  now = cancelled_ c ∧
  (cancelled_ c = false → callbacks_ <$> token_ l = Some (callbacks_ c ++ [cb]) ∧
     callbacks_ <$> link_dtor l = Some (callbacks_ c)).
Proof.
  intros Hnz Hnew Hlen. unfold LinkCancellation, Token_OnCancel, RegisterCallback, link_dtor.
  destruct (cancelled_ c) eqn:Ec; [done|]. split; [done|]. intros _. split; [done|]. simpl.
  unfold UnregisterCallback, find_handle; simpl. destruct (Z.eqb_spec (next_handle_ c) 0); [done|].
  assert (list_find (λ h, h = next_handle_ c) (callback_handles_ c ++ [next_handle_ c]) =
    Some (length (callback_handles_ c), next_handle_ c)) as ->.
  { apply list_find_Some. split_and!; [by rewrite list_lookup_middle|done|].
    intros j y Hj Hlt ->. apply Hnew. rewrite lookup_app_l in Hj by done. by eapply list_elem_of_lookup_2. }
  simpl. f_equal. rewrite <- Hlen, delete_middle. by rewrite app_nil_r.
Qed.
