(* ===== verification/EventLoop.v ===== *)
(** * Coroutines on several executors

    What an executor promises to the coroutines it is given, as an interface:
    [EventLoop] is an executor with its threads, its kernel and its other callers
    as one machine, and [EventLoopLaws] says that a step of it resumes only
    coroutines that it was given and had not resumed, and forgets none.  Against
    that interface, any number of coroutines that sleep, yield, move between
    executors ([Executor]'s awaitables) and wait for operations: each is resumed
    only while it is suspended, and a suspended one is in the hands of exactly
    one executor.  [el_defined] tells the states of an executor that are reached
    without undefined behaviour, for which alone the laws speak. *)
From S2P Require Import Prelude Executor.

Section EventLoop.
Context (S L Op : Type).

(** [el_schedule], [el_after]: Schedule and ScheduleAfter of a handle;
    [el_io]: the [await_suspend] of an awaitable of the executor's own, which may
    not suspend.  [el_step]: everything else that happens.  [el_guarded]: in that
    step coroutines are resumed by a thread whose current executor this one is. *)
Class EventLoop := {
  el_schedule : handle → S → S;
  el_after : Z → handle → S → S;
  el_io : Op → handle → S → bool * S;
  el_step : L → S → option S;
  el_guarded : L → bool;
  el_given : S → list handle;        (* the handles it was given, so far *)
  el_resumed : S → list handle;      (* those it has resumed, in order *)
  el_waiting : S → list handle;      (* those in its queues, timers and threads *)
  el_inv : S → Prop;
  el_defined : S → bool;             (* nothing undefined has happened in it *)
}.

(** An operation that gives [hs] and resumes nobody. *)
Definition gives `{EventLoop} (hs : list handle) (s s' : S) : Prop :=
  el_inv s' ∧ el_given s' ≡ₚ hs ++ el_given s ∧ el_resumed s' = el_resumed s.

Class EventLoopLaws `{EventLoop} := {
  el_account s : el_inv s → el_given s ≡ₚ el_resumed s ++ el_waiting s;
  el_schedule_gives h s : el_inv s → gives [h] s (el_schedule h s);
  el_after_gives d h s : el_inv s → gives [h] s (el_after d h s);
  el_io_gives o h s : el_inv s → gives (if (el_io o h s).1 then [h] else []) s (el_io o h s).2;
  el_step_inv l s s' : el_inv s → el_step l s = Some s' → el_defined s' = true → el_inv s';
  el_step_given l s s' : el_inv s → el_step l s = Some s' → el_given s' ≡ₚ el_given s;
  el_step_resumed l s s' : el_inv s → el_step l s = Some s' → ∃ hs, el_resumed s' = el_resumed s ++ hs;
  el_defined_schedule h s : el_defined (el_schedule h s) = el_defined s;
  el_defined_after d h s : el_defined (el_after d h s) = el_defined s;
  el_defined_io o h s : el_defined (el_io o h s).2 = el_defined s;
  el_defined_step l s s' : el_step l s = Some s' → el_defined s' = true → el_defined s = true;
}.
End EventLoop.
Arguments el_schedule {S L Op _} h s.
Arguments el_after {S L Op _} d h s.
Arguments el_io {S L Op _} o h s.
Arguments el_step {S L Op _} l s.
Arguments el_guarded {S L Op _} l.
Arguments el_given {S L Op _} s.
Arguments el_resumed {S L Op _} s.
Arguments el_waiting {S L Op _} s.
Arguments el_inv {S L Op _} s.
Arguments el_defined {S L Op _} s.
Arguments gives {S L Op _} hs s s'.
Arguments el_account {S L Op _ _} s.
Arguments el_schedule_gives {S L Op _ _} h s.
Arguments el_after_gives {S L Op _ _} d h s.
Arguments el_io_gives {S L Op _ _} o h s.
Arguments el_step_inv {S L Op _ _} l s s'.
Arguments el_step_given {S L Op _ _} l s s'.
Arguments el_step_resumed {S L Op _ _} l s s'.
Arguments el_defined_schedule {S L Op _ _} h s.
Arguments el_defined_after {S L Op _ _} d h s.
Arguments el_defined_io {S L Op _ _} o h s.
Arguments el_defined_step {S L Op _ _} l s s'.

(** Executors of two kinds. *)
#[export] Instance sum_loop S1 L1 O1 S2 L2 O2 `{EventLoop S1 L1 O1} `{EventLoop S2 L2 O2} :
    EventLoop (S1 + S2) (L1 + L2) (O1 + O2) := {
  el_schedule h s := match s with inl s => inl (el_schedule h s) | inr s => inr (el_schedule h s) end;
  el_after d h s := match s with inl s => inl (el_after d h s) | inr s => inr (el_after d h s) end;
  el_io o h s :=
    match o, s with
    | inl o, inl s => let (b, s) := el_io o h s in (b, inl s)
    | inr o, inr s => let (b, s) := el_io o h s in (b, inr s)
    | _, _ => (false, s)             (* the executor is not of the kind that the awaitable casts to *)
    end;
  el_step l s :=
    match l, s with
    | inl l, inl s => inl <$> el_step l s
    | inr l, inr s => inr <$> el_step l s
    | _, _ => None
    end;
  el_guarded l := match l with inl l => el_guarded l | inr l => el_guarded l end;
  el_given s := match s with inl s => el_given s | inr s => el_given s end;
  el_resumed s := match s with inl s => el_resumed s | inr s => el_resumed s end;
  el_waiting s := match s with inl s => el_waiting s | inr s => el_waiting s end;
  el_inv s := match s with inl s => el_inv s | inr s => el_inv s end;
  el_defined s := match s with inl s => el_defined s | inr s => el_defined s end;
}.

#[export] Instance sum_loop_laws S1 L1 O1 S2 L2 O2 `{EventLoopLaws S1 L1 O1} `{EventLoopLaws S2 L2 O2} :
  EventLoopLaws (S1 + S2) (L1 + L2) (O1 + O2).
Proof.
  split.
  - intros [s|s]; exact (el_account s).
  - intros h [s|s]; exact (el_schedule_gives h s).
  - intros d h [s|s]; exact (el_after_gives d h s).
  - intros [o|o] h [s|s] Hs; simpl in *.
    2-3: by split_and!.
    all: pose proof (el_io_gives o h s Hs) as Hg; destruct (el_io o h s); exact Hg.
  - intros [l|l] [s|s] s' Hs E; try done; apply fmap_Some in E as (t & E & ->); exact (el_step_inv l s t Hs E).
  - intros [l|l] [s|s] s' Hs E; try done; apply fmap_Some in E as (t & E & ->); exact (el_step_given l s t Hs E).
  - intros [l|l] [s|s] s' Hs E; try done; apply fmap_Some in E as (t & E & ->); exact (el_step_resumed l s t Hs E).
  - intros h [s|s]; exact (el_defined_schedule h s).
  - intros d h [s|s]; exact (el_defined_after d h s).
  - intros [o|o] h [s|s]; simpl; try done; pose proof (el_defined_io o h s) as E; by destruct (el_io o h s).
  - intros [l|l] [s|s] s' E; try done; apply fmap_Some in E as (t & E & ->); exact (el_defined_step l s t E).
Qed.

Section World.
Context {S L Op : Type} `{EventLoopLaws S L Op}.

(** The awaitables see the machine through [Executor]'s interface. *)
#[local] Instance loop_executor : Executor S := {
  ex_schedule := el_schedule;
  ex_schedule_after _ := el_after;
  ex_queued := el_waiting;
  ex_timers _ := [];
  ex_time _ _ d := d;
}.

(** What follows from the laws for the coroutines that wait. *)
Lemma waiting_gives hs s s' : el_inv s → gives hs s s' → el_waiting s' ≡ₚ hs ++ el_waiting s.
Proof.
  intros Hs (Hs' & Hg & Hr). apply (Permutation_app_inv_l (el_resumed s)).
  rewrite <- Hr at 1. rewrite <- (el_account s' Hs'), Hg, (el_account s Hs). solve_Permutation.
Qed.

Lemma waiting_step l s s' : el_inv s → el_step l s = Some s' → el_defined s' = true →
  el_waiting s ≡ₚ drop (length (el_resumed s)) (el_resumed s') ++ el_waiting s'.
Proof.
  intros Hs Hst Hd. pose proof (el_step_inv _ _ _ Hs Hst Hd) as Hs'.
  destruct (el_step_resumed _ _ _ Hs Hst) as [hs Hr]. rewrite Hr, drop_app_length.
  apply (Permutation_app_inv_l (el_resumed s)).
  rewrite <- (el_account s Hs), <- (el_step_given _ _ _ Hs Hst), (el_account s' Hs'), Hr.
  by rewrite <- app_assoc.
Qed.

(** ** Coroutines *)

(** A running coroutine knows the current executor of its thread. *)
Inductive phase := Running (cur : tls) | Suspended | Finished.

(** [bad]: a coroutine was resumed that was running, had finished, or was never
    started. *)
Record world := World { execs : gmap executor_id S; coroutines : gmap handle phase; bad : bool }.

Inductive awaitable :=
  | DoSleep (now d : Z)                   (* co_await AsyncSleep(d) *)
  | DoYield                               (* co_await Yield() *)
  | DoScheduleOn (target : executor_id)   (* co_await ScheduleOn(target) *)
  | DoIo (o : Op).                        (* an operation of the current executor *)

(** What [co_await] does on the thread of the coroutine [h]: whether it
    suspended.  The target of a ScheduleOn is alive. *)
Definition await (a : awaitable) (h : handle) (cur : tls) (es : gmap executor_id S) : option (bool * gmap executor_id S) :=
  match a with
  | DoSleep now d => Some (AsyncSleep_await_suspend now d h cur es)
  | DoYield => Some (Yield_await_suspend h cur es)
  | DoScheduleOn y => match es !! y with Some _ => Some (ScheduleOn_await_suspend y h es) | None => None end
  | DoIo o =>
      Some (match x ← cur; s ← es !! x; Some (x, s) with
            | Some (x, s) => let (b, s') := el_io o h s in (b, <[x := s']> es)
            | None => (false, es)
            end)
  end.

Definition resume (cur : tls) (m : gmap handle phase * bool) (h : handle) : gmap handle phase * bool :=
  match m.1 !! h with
  | Some Suspended => (<[h := Running cur]> m.1, m.2)
  | _ => (m.1, true)
  end.

Definition alive (cur : tls) (es : gmap executor_id S) : bool :=
  match cur with Some x => bool_decide (is_Some (es !! x)) | None => true end.

Inductive wlabel :=
  | WSpawn (target : executor_id) (h : handle)  (* a new coroutine, given to an executor, as Spawn does *)
  | WStart (h : handle) (cur : tls)             (* a new coroutine, resumed on some thread *)
  | WAwait (h : handle) (a : awaitable)
  | WReturn (h : handle)
  | WExec (x : executor_id) (l : L) (cur : tls).  (* [cur]: of the thread that takes the step, when not guarded *)

Definition wstep (l : wlabel) (w : world) : option world :=
  match l with
  | WSpawn y h =>
      match coroutines w !! h, execs w !! y with
      | None, Some s => Some (World (<[y := ex_schedule h s]> (execs w)) (<[h := Suspended]> (coroutines w)) (bad w))
      | _, _ => None
      end
  | WStart h cur =>
      match coroutines w !! h, alive cur (execs w) with
      | None, true => Some (World (execs w) (<[h := Running cur]> (coroutines w)) (bad w))
      | _, _ => None
      end
  | WAwait h a =>
      match coroutines w !! h with
      | Some (Running cur) =>
          '(b, es) ← await a h cur (execs w);
          Some (World es (if b : bool then <[h := Suspended]> (coroutines w) else coroutines w) (bad w))
      | _ => None
      end
  | WReturn h =>
      match coroutines w !! h with
      | Some (Running _) => Some (World (execs w) (<[h := Finished]> (coroutines w)) (bad w))
      | _ => None
      end
  | WExec x l cur =>
      s ← execs w !! x;
      s' ← el_step l s;
      if alive cur (execs w) then
        let hs := drop (length (el_resumed s)) (el_resumed s') in
        let m := foldl (resume (if el_guarded l then Some x else cur)) (coroutines w, bad w) hs in
        Some (World (<[x := s']> (execs w)) m.1 m.2)
      else None
  end.
Definition winit (es : gmap executor_id S) : world := World es ∅ false.

(** ** Where a suspended coroutine is

    In the list of exactly one executor, once; and nobody else is there. *)
Record placed (W : gmap executor_id (list handle)) (m : gmap handle phase) : Prop := {
  pl_once x l : W !! x = Some l → NoDup l;
  pl_one x y l l' h : W !! x = Some l → W !! y = Some l' → h ∈ l → h ∈ l' → x = y;
  pl_suspended h : m !! h = Some Suspended ↔ ∃ x l, W !! x = Some l ∧ h ∈ l;
}.

Lemma placed_update W m x l l' m' :
  placed W m → W !! x = Some l → NoDup l' →
  (∀ h, h ∈ l' → h ∈ l ∨ m !! h ≠ Some Suspended) →
  (∀ h, m' !! h = Some Suspended ↔ h ∈ l' ∨ m !! h = Some Suspended ∧ h ∉ l) →
  placed (<[x := l']> W) m'.
Proof.
  intros [Ho H1 Hs] Hx Hn Hl Hm. split.
  - intros y k [[<- <-]|[_ E]]%lookup_insert_Some; [done|]. by eapply Ho.
  - assert (∀ y k h, W !! y = Some k → h ∈ k → h ∈ l' → x = y) as Hcross.
    { intros y k h E Hk Hin. destruct (Hl h Hin) as [Hin'|Hns]; [by eapply H1|]. destruct Hns. apply Hs. by exists y, k. }
    intros y z k k' h [[<- <-]|[Hy E]]%lookup_insert_Some [[<- <-]|[Hz E']]%lookup_insert_Some Hk Hk'; [done|..].
    + by eapply Hcross.
    + symmetry. by eapply Hcross.
    + by eapply H1.
  - intros h. rewrite Hm. split.
    + intros [Hin|[E Hni]]; [exists x, l'; by rewrite lookup_insert_eq|].
      apply Hs in E as (y & k & E & Hk). exists y, k. rewrite lookup_insert_ne; [done|congruence].
    + intros (y & k & [[<- <-]|[Hne E]]%lookup_insert_Some & Hk); [by left|]. right. split; [apply Hs; by exists y, k|].
      intros Hin. by destruct (H1 x y l k h Hx E Hin Hk).
Qed.

Lemma placed_perm W m x l l' : placed W m → W !! x = Some l → l ≡ₚ l' → placed (<[x := l']> W) m.
Proof.
  intros Hp Hx El. eapply placed_update; try done.
  - rewrite <- El. by eapply pl_once.
  - intros h Hin. left. by rewrite El.
  - intros h. rewrite <- El. rewrite (pl_suspended _ _ Hp h). split; [|by intros [?|[? _]]; [exists x, l|]].
    intros Hh. destruct (decide (h ∈ l)); [by left|by right].
Qed.

Lemma placed_give W m x l h : placed W m → W !! x = Some l → m !! h ≠ Some Suspended →
  placed (<[x := h :: l]> W) (<[h := Suspended]> m).
Proof.
  intros Hp Hx Hh. assert (h ∉ l) as Hn by (intros ?; apply Hh, (pl_suspended _ _ Hp); by exists x, l).
  eapply placed_update; try done.
  - constructor; [done|]. by eapply pl_once.
  - intros h' [->|?]%elem_of_cons; [by right|by left].
  - intros h'. rewrite elem_of_cons. destruct (decide (h' = h)) as [->|Hne].
    + rewrite lookup_insert_eq. split; [by left; left|done].
    + rewrite lookup_insert_ne by done. split.
      * intros E. destruct (decide (h' ∈ l)); [by left; right|by right].
      * intros [[?|Hin]|[? _]]; [done| |done]. apply (pl_suspended _ _ Hp). by exists x, l.
Qed.

Lemma placed_take W m x l h p : placed W m → W !! x = Some (h :: l) → p ≠ Suspended →
  m !! h = Some Suspended ∧ placed (<[x := l]> W) (<[h := p]> m).
Proof.
  intros Hp Hx Hne. split; [apply (pl_suspended _ _ Hp); exists x, (h :: l); split; [done|set_solver]|].
  pose proof (pl_once _ _ Hp _ _ Hx) as [Hn Hd]%NoDup_cons. eapply placed_update; try done.
  - intros h' Hin. left. set_solver.
  - intros h'. destruct (decide (h' = h)) as [->|Hd'].
    + rewrite lookup_insert_eq. split; [by intros [= ->]|]. intros [?|[_ Hni]]; [done|set_solver].
    + rewrite lookup_insert_ne by done. rewrite elem_of_cons, (pl_suspended _ _ Hp h'). split.
      * intros E. destruct (decide (h' ∈ l)); [by left|right]. naive_solver.
      * intros [Hin|[E _]]; [exists x, (h :: l); set_solver|done].
Qed.

(** A coroutine that is not suspended changes its phase. *)
Lemma placed_phase W m h p : placed W m → m !! h ≠ Some Suspended → p ≠ Suspended → placed W (<[h := p]> m).
Proof.
  intros [Ho H1 Hs] Hh Hp. split; [done..|]. intros h'. destruct (decide (h' = h)) as [->|Hne].
  - rewrite lookup_insert_eq. rewrite <- Hs. split; [by intros [=]|done].
  - by rewrite lookup_insert_ne.
Qed.

(** The executor [x] resumes [hs]. *)
Lemma placed_resume cur x hs l : ∀ W m, placed W m → W !! x = Some (hs ++ l) →
  (foldl (resume cur) (m, false) hs).2 = false ∧ placed (<[x := l]> W) (foldl (resume cur) (m, false) hs).1 ∧
  (∀ h p, (foldl (resume cur) (m, false) hs).1 !! h = Some p → p = Running cur ∨ m !! h = Some p).
Proof.
  induction hs as [|h hs IH]; intros W m Hp Hx; simpl.
  - split_and!; [done| |by right]. by rewrite insert_id.
  - destruct (placed_take _ _ _ _ _ (Running cur) Hp Hx ltac:(done)) as [Hh Hp'].
    unfold resume at 2 4 6. simpl. rewrite Hh.
    destruct (IH _ _ Hp' (lookup_insert_eq _ _ _)) as (Hb & Hp2 & Hc). rewrite insert_insert_eq in Hp2.
    split_and!; [done|done|]. intros h' p E. destruct (Hc h' p E) as [?|E']; [by left|].
    apply lookup_insert_Some in E' as [[_ <-]|[_ E']]; [by left|by right].
Qed.

Record world_inv (w : world) : Prop := {
  wo_execs x s : execs w !! x = Some s → el_inv s;
  wo_placed : placed (el_waiting <$> execs w) (coroutines w);
  wo_alive h cur : coroutines w !! h = Some (Running cur) → alive cur (execs w) = true;
  wo_bad : bad w = false;
}.

(** The executor [x] changes its state, and perhaps some coroutines theirs. *)
Lemma world_inv_exec w x s s' m b :
  world_inv w → execs w !! x = Some s → el_inv s' → placed (<[x := el_waiting s']> (el_waiting <$> execs w)) m →
  (∀ h cur, m !! h = Some (Running cur) → alive cur (execs w) = true) → b = false →
  world_inv (World (<[x := s']> (execs w)) m b).
Proof.
  intros [Hi Hp Ha Hb] Hx Hs' Hpl Hm ->. split; simpl; [| |intros h cur E|done].
  - intros y t [[<- <-]|[_ E]]%lookup_insert_Some; [done|by eapply Hi].
  - by rewrite fmap_insert.
  - specialize (Hm h cur E). destruct cur as [y|]; [|done]. simpl in *. apply bool_decide_eq_true in Hm.
    apply bool_decide_eq_true. destruct (decide (x = y)) as [<-|]; [by rewrite lookup_insert_eq; eexists|by rewrite lookup_insert_ne].
Qed.

(** What an await does: nothing, or one executor is given [h], or not. *)
Lemma await_spec a h cur es b es' : await a h cur es = Some (b, es') → (∀ x s, es !! x = Some s → el_inv s) →
  alive cur es = true →
  (b = false ∧ es' = es) ∨ ∃ x s s', es !! x = Some s ∧ es' = <[x := s']> es ∧ gives (if b then [h] else []) s s'.
Proof.
  intros E Hi Ha. destruct a as [now d| |y|o]; simpl in E.
  - destruct cur as [x|]; [|injection E as <- <-; by left]. simpl in *. injection E as <- <-.
    apply bool_decide_eq_true in Ha as [s Hs]. right. exists x, s, (el_after d h s).
    rewrite (alter_at _ _ _ _ Hs). split_and!; [done|done|]. by eapply el_after_gives, Hi.
  - destruct cur as [x|]; [|injection E as <- <-; by left]. simpl in *. injection E as <- <-.
    apply bool_decide_eq_true in Ha as [s Hs]. right. exists x, s, (el_schedule h s).
    rewrite (alter_at _ _ _ _ Hs). split_and!; [done|done|]. by eapply el_schedule_gives, Hi.
  - destruct (es !! y) as [s|] eqn:Hs; [|done]. injection E as <- <-. right. exists y, s, (el_schedule h s).
    rewrite (alter_at _ _ _ _ Hs). split_and!; [done|done|]. by eapply el_schedule_gives, Hi.
  - destruct cur as [x|]; simpl in *; [|injection E as <- <-; by left].
    apply bool_decide_eq_true in Ha as [s Hs]. rewrite Hs in E. simpl in E.
    pose proof (el_io_gives o h s (Hi _ _ Hs)) as Hg. destruct (el_io o h s) as [b' s']. injection E as <- <-.
    right. by exists x, s, s'.
Qed.

(** The executor [x] is given [h], or nobody. *)
Lemma world_inv_give w x s s' h (b : bool) :
  world_inv w → execs w !! x = Some s → coroutines w !! h ≠ Some Suspended →
  gives (if b then [h] else []) s s' →
  world_inv (World (<[x := s']> (execs w)) (if b then <[h := Suspended]> (coroutines w) else coroutines w) (bad w)).
Proof.
  intros Hw Hs Hh Hg. pose proof Hw as [Hi Hp Ha Hb].
  pose proof (waiting_gives _ _ _ (Hi _ _ Hs) Hg) as Hwt. destruct Hg as (Hs' & _).
  assert ((el_waiting <$> execs w) !! x = Some (el_waiting s)) as Hx by by rewrite lookup_fmap, Hs.
  eapply world_inv_exec; try done.
  - destruct b; simpl in Hwt; [|by eapply placed_perm].
    rewrite <- (insert_insert_eq (el_waiting <$> execs w) x (el_waiting s') (h :: el_waiting s)).
    eapply placed_perm; [by eapply placed_give|apply lookup_insert_eq|done].
  - intros h' cur' E. destruct b; [|by eapply Ha]. apply lookup_insert_Some in E as [[_ ?]|[_ E]]; [done|by eapply Ha].
Qed.

(** Every executor is in a state that the code defines. *)
Definition defined (w : world) : Prop := ∀ x s, execs w !! x = Some s → el_defined s = true.
Lemma defined_alter (es : gmap executor_id S) x (f : S → S) : (∀ s, el_defined (f s) = el_defined s) →
  (∀ y s, alter f x es !! y = Some s → el_defined s = true) → ∀ y s, es !! y = Some s → el_defined s = true.
Proof.
  intros Hf Hes y s Hs. destruct (decide (x = y)) as [<-|Hne].
  - rewrite <- Hf. apply (Hes x). by rewrite lookup_alter_eq, Hs.
  - apply (Hes y). by rewrite lookup_alter_ne.
Qed.
Lemma defined_insert (es : gmap executor_id S) x s s' : es !! x = Some s → (el_defined s' = true → el_defined s = true) →
  (∀ y t, <[x := s']> es !! y = Some t → el_defined t = true) → ∀ y t, es !! y = Some t → el_defined t = true.
Proof.
  intros Hs Hd Hes y t Ht. destruct (decide (x = y)) as [<-|Hne].
  - rewrite Hs in Ht. injection Ht as <-. apply Hd, (Hes x). by rewrite lookup_insert_eq.
  - apply (Hes y). by rewrite lookup_insert_ne.
Qed.
Lemma defined_await a h cur es b es' : await a h cur es = Some (b, es') →
  (∀ y s, es' !! y = Some s → el_defined s = true) → ∀ y s, es !! y = Some s → el_defined s = true.
Proof.
  intros E. destruct a as [now d| |z|o]; simpl in E.
  - destruct cur as [x|]; injection E as <- <-; [|done]. apply defined_alter. intros s. apply el_defined_after.
  - destruct cur as [x|]; injection E as <- <-; [|done]. apply defined_alter. intros s. apply el_defined_schedule.
  - case_match; [|done]. injection E as <- <-. apply defined_alter. intros t. apply el_defined_schedule.
  - destruct cur as [x|]; simpl in E; [|by injection E as <- <-].
    destruct (es !! x) as [s|] eqn:Hs; simpl in E; [|by injection E as <- <-].
    pose proof (el_defined_io o h s) as Hd. destruct (el_io o h s) as [b' s']. injection E as <- <-.
    simpl in Hd. eapply defined_insert; [done|]. by rewrite Hd.
Qed.
Lemma defined_step l w w' : wstep l w = Some w' → defined w' → defined w.
Proof.
  unfold defined. intros Hst. destruct l as [y h|h cur|h a|h|x l cur]; simpl in Hst.
  - destruct (coroutines w !! h), (execs w !! y) as [s|] eqn:Hs; try done. injection Hst as <-.
    eapply defined_insert; [done|]. by rewrite el_defined_schedule.
  - repeat case_match; try done. by injection Hst as <-.
  - destruct (coroutines w !! h) as [[cur| |]|]; try done.
    destruct (await a h cur (execs w)) as [[b es]|] eqn:Ea; [|done]. injection Hst as <-. by eapply defined_await.
  - repeat case_match; try done. by injection Hst as <-.
  - destruct (execs w !! x) as [s|] eqn:Hs; [|done]. simpl in Hst. destruct (el_step l s) as [s'|] eqn:El; [|done].
    simpl in Hst. case_match; [|done]. injection Hst as <-. eapply defined_insert; [done|]. by eapply el_defined_step.
Qed.

Lemma world_inv_step l w w' : world_inv w → wstep l w = Some w' → defined w' → world_inv w'.
Proof.
  intros Hw Hst Hd. pose proof Hw as [Hi Hp Ha Hb]. destruct l as [y h|h cur|h a|h|x l cur]; simpl in Hst.
  - destruct (coroutines w !! h) eqn:Hh; [done|]. destruct (execs w !! y) as [s|] eqn:Hs; [|done]. injection Hst as <-.
    eapply (world_inv_give w y s _ h true); [done|done|by rewrite Hh|]. by eapply el_schedule_gives, Hi.
  - destruct (coroutines w !! h) eqn:Hh; [done|]. destruct (alive cur (execs w)) eqn:Hc; [|done]. injection Hst as <-.
    split; simpl; [done|apply placed_phase; [done|by rewrite Hh|done]| |done].
    intros h' cur' [[_ [= <-]]|[_ E]]%lookup_insert_Some; [done|by eapply Ha].
  - destruct (coroutines w !! h) as [[cur| |]|] eqn:Hh; try done.
    destruct (await a h cur (execs w)) as [[b es]|] eqn:Ea; [|done]. injection Hst as <-.
    destruct (await_spec _ _ _ _ _ _ Ea Hi (Ha h cur Hh)) as [[-> ->]|(x & s & s' & Hs & -> & Hg)]; [by destruct w|].
    eapply world_inv_give; [done|done|by rewrite Hh|done].
  - destruct (coroutines w !! h) as [[cur| |]|] eqn:Hh; try done. injection Hst as <-.
    split; simpl; [done|apply placed_phase; [done|by rewrite Hh|done]| |done].
    intros h' cur' [[_ [=]]|[_ E]]%lookup_insert_Some. by eapply Ha.
  - destruct (execs w !! x) as [s|] eqn:Hs; [|done]. simpl in Hst. destruct (el_step l s) as [s'|] eqn:El; [|done].
    simpl in Hst. destruct (alive cur (execs w)) eqn:Hc; [|done]. injection Hst as <-.
    assert (el_defined s' = true) as Hs' by apply (Hd x s'), lookup_insert_eq.
    pose proof (waiting_step _ _ _ (Hi _ _ Hs) El Hs') as Hwt. rewrite Hb.
    set (hs := drop _ _) in *. set (c := if el_guarded l then Some x else cur).
    assert (alive c (execs w) = true) as Hc' by (subst c; destruct (el_guarded l); [by apply bool_decide_eq_true; eexists|done]).
    assert (placed (<[x := hs ++ el_waiting s']> (el_waiting <$> execs w)) (coroutines w)) as Hp'.
    { eapply placed_perm; [done|by rewrite lookup_fmap, Hs|done]. }
    destruct (placed_resume c x hs _ _ _ Hp' (lookup_insert_eq _ _ _)) as (Hb' & Hp2 & Hc2). rewrite insert_insert_eq in Hp2.
    eapply world_inv_exec; try done; [by eapply el_step_inv; [eapply Hi|..]|].
    intros h' cur' E. destruct (Hc2 h' _ E) as [[= ->]|E']; [done|by eapply Ha].
Qed.

Lemma world_inv_init es : (∀ x s, es !! x = Some s → el_inv s ∧ el_waiting s = []) → world_inv (winit es).
Proof.
  intros Hes. split; simpl; [by intros x s E; apply Hes in E as [? _]|..|done|done].
  split.
  - intros x l E. rewrite lookup_fmap in E. apply fmap_Some in E as (s & E & ->). destruct (Hes x s E) as [_ ->]. constructor.
  - intros x y l l' h E _ Hin _. rewrite lookup_fmap in E. apply fmap_Some in E as (s & E & ->).
    destruct (Hes x s E) as [_ Ew]. rewrite Ew in Hin. by apply not_elem_of_nil in Hin.
  - intros h. rewrite lookup_empty. split; [done|]. intros (x & l & E & Hin). rewrite lookup_fmap in E.
    apply fmap_Some in E as (s & E & ->). destruct (Hes x s E) as [_ Ew]. rewrite Ew in Hin. by apply not_elem_of_nil in Hin.
Qed.

(** From executors that hold nothing, and as long as nothing undefined happens in
    them: no coroutine is ever resumed while it
    runs, or after its end; every suspended one is in the hands of one executor,
    once, and of no other; and nobody else is. *)
Lemma world_safe es w :
  (∀ x s, es !! x = Some s → el_inv s ∧ el_waiting s = []) → reachable wstep (winit es) w → defined w →
  bad w = false ∧ placed (el_waiting <$> execs w) (coroutines w).
Proof.
  intros Hes Hr. revert Hr. intros Hr Hd. assert (world_inv w) as [_ ? _ ?]; [|done].
  revert Hd. refine (reachable_inv wstep (λ w, defined w → world_inv w) _ w _ _ Hr).
  - intros _. exact (world_inv_init es Hes).
  - intros l w1 w2 IH Hst Hd. eapply world_inv_step; [|done..]. by eapply IH, defined_step.
Qed.
End World.
