(* ===== verification/Executors.v ===== *)
(** * The four executors behind one interface

    [PollingExecutor], [ThreadPool], [Libuv] and [IoUring] each discharge
    [ExecutorLaws]; with the sum of two executors being one, a program's
    executors may be of all four kinds, and what [Executor] proves of AsyncSleep,
    Yield and ScheduleOn, and [Spawn] of spawned tasks, holds between them.
    Their machines, with their threads, kernels and other callers, discharge
    [EventLoopLaws], so that coroutines that live on executors of all four kinds
    are never resumed twice or lost, as long as no thread pool has read a stale
    reference ([ThreadPool.pool_timer_dangling]). *)
From S2P Require Import Prelude Executor EventLoop PollingExecutor ThreadPool Libuv IoUring.
Local Open Scope Z_scope.

Definition any_executor : Type := PollingExecutor + (pool_sys + (LibuvExecutor + usys)).

(** One executor of each kind, at the addresses 1 to 4. *)
Definition four : gmap executor_id any_executor :=
  {[ 1%nat := inl (new_polling Spin); 2%nat := inr (inl (pool_init 2)); 3%nat := inr (inr (inl new_libuv));
     4%nat := inr (inr (inr (USys (new_uring 8) UOut 0 0 [] [] 0 [] [] [] []))) ]}.

Lemma awaitables_schedule_once_witness :
  ∃ es1 es2, ScheduleOn_await_suspend 3%nat 9%nat four = (true, es1) ∧ ex_queued <$> es1 !! 3%nat = Some [9%nat] ∧
    AsyncSleep_await_suspend 100 5 9%nat (Some 3%nat) es1 = (true, es2) ∧
    ∃ e, es1 !! 3%nat = Some e ∧ timed_on 3%nat (ex_time e 100 5) 9%nat es1 es2.
Proof.
  pose (es1 := (ScheduleOn_await_suspend 3%nat 9%nat four).2).
  assert (∃ e, es1 !! 3%nat = Some e ∧ ex_queued <$> es1 !! 3%nat = Some [9%nat]) as (e & He & Hq).
  { eexists. split; vm_compute; reflexivity. }
  destruct (awaitables_schedule_once 100 5 9%nat 3%nat es1 e He) as [(es2 & Es & Ht) _].
  exists es1, es2. split_and!; [reflexivity|exact Hq|exact Es|]. by exists e.
Defined.

(** A history that grew, perhaps by nothing. *)
Ltac grown :=
  match goal with
  | |- ∃ evs, ?l = ?l ++ evs ∧ _ => exists []; split; [by rewrite app_nil_r|]
  | |- ∃ evs, _ = _ ++ evs ∧ _ => eexists; split; [reflexivity|]
  | |- ∃ evs, ?l = ?l ++ evs => exists []; by rewrite app_nil_r
  | |- ∃ evs, _ = _ ++ evs => first [by eexists|rewrite <- app_assoc; by eexists]
  end; simpl; try done.

(** ** PollingExecutor, with its completion source

    The user's source holds the coroutines that wait for it; Poll returns some
    of them, each once.  Handles given to the executor are neither null nor done
    when they are taken up. *)
Record polling_loop := PollingLoop { pl_machine : lsys; pl_source : list handle; pl_requested : list handle }.

Definition polling_handle (ev : PollingExecutor.event * bool) : option handle :=
  match ev.1 with
  | PollingExecutor.EvCompletion h | PollingExecutor.EvResume h => Some h
  | PollingExecutor.EvTimer t _ => Some (timer_handle t)
  | PollingExecutor.EvCall _ => None
  end.
Definition completions (l : list (PollingExecutor.event * bool)) : list handle :=
  omap (λ ev, match ev.1 with PollingExecutor.EvCompletion h => Some h | _ => None end) l.
Definition polled (a : loop) : list handle := match a with LPolled _ _ hs => hs | _ => [] end.

(** What the source holds after Poll has returned [hs]. *)
Fixpoint Poll_returns (hs src : list handle) : option (list handle) :=
  match hs with
  | [] => Some src
  | h :: hs' => match list_find (h =.) src with Some (i, _) => Poll_returns hs' (delete i src) | None => None end
  end.

Definition polling_step (l : llabel) (s : polling_loop) : option polling_loop :=
  let step l := (λ m, PollingLoop m (pl_source s) (pl_requested s)) <$> lstep l (pl_machine s) in
  match l with
  | XSchedule _ | XAfter _ _ | XStep (_ :: _) => None
  | XPoll hs =>
      src ← Poll_returns (omap id hs) (pl_source s);
      m ← lstep l (pl_machine s);
      Some (PollingLoop m src (pl_requested s))
  | _ => step l
  end.

#[export] Instance polling_loop_event_loop : EventLoop polling_loop llabel unit := {
  el_schedule h s := PollingLoop (default (pl_machine s) (lstep (XSchedule h) (pl_machine s))) (pl_source s) (pl_requested s);
  el_after d h s := PollingLoop (default (pl_machine s) (lstep (XAfter d h) (pl_machine s))) (pl_source s) (pl_requested s);
  el_io _ h s := (true, PollingLoop (pl_machine s) (pl_source s ++ [h]) (pl_requested s ++ [h]));
  el_step := polling_step;
  el_guarded _ := true;
  el_given s := PollingExecutor.scheduled (pl_machine s) ++ (timer_handle <$> PollingExecutor.armed (pl_machine s)) ++ pl_requested s;
  el_resumed s := omap polling_handle (PollingExecutor.log (pl_machine s));
  el_waiting s := let m := pl_machine s in
    (local_ready (PollingExecutor.at_ m) ++ PollingExecutor.ready_queue_ (exe m)) ++
    (timer_handle <$> local_timers (PollingExecutor.at_ m) ++ timer_heap_ (exe m)) ++
    polled (PollingExecutor.at_ m) ++ pl_source s;
  el_inv s := linv (pl_machine s) ∧
    pl_requested s ≡ₚ completions (PollingExecutor.log (pl_machine s)) ++ polled (PollingExecutor.at_ (pl_machine s)) ++ pl_source s;
  el_defined _ := true;
}.

Lemma Poll_returns_perm hs : ∀ src src', Poll_returns hs src = Some src' → hs ++ src' ≡ₚ src.
Proof.
  induction hs as [|h hs IH]; intros src src' E; simplify_eq/=; [done|].
  destruct (list_find _ src) as [[i h']|] eqn:Ef; [|done]. apply list_find_Some in Ef as (Hi & <- & _).
  rewrite (delete_Permutation _ _ _ Hi). constructor. by apply IH.
Qed.

Lemma polling_handles l :
  omap polling_handle l ≡ₚ PollingExecutor.resumes l ++ (timer_handle <$> PollingExecutor.fired l) ++ completions l.
Proof.
  induction l as [|[ev b] l IH]; [done|]. unfold PollingExecutor.resumes, PollingExecutor.fired, completions in *.
  destruct ev; simpl; rewrite IH; solve_Permutation.
Qed.

Lemma dropped_no_completions now d : completions ((λ t, (PollingExecutor.EvTimer t now, false)) <$> d) = [].
Proof. by induction d. Qed.

(** A step of the loop thread, or of a caller that schedules nothing. *)
Lemma polling_loop_facts s s' : PollingExecutor.loop_step [] s = Some s' →
  PollingExecutor.scheduled s' = PollingExecutor.scheduled s ∧ PollingExecutor.armed s' = PollingExecutor.armed s ∧
  ∃ evs, PollingExecutor.log s' = PollingExecutor.log s ++ evs ∧
    completions evs ++ polled (PollingExecutor.at_ s') = polled (PollingExecutor.at_ s).
Proof.
  intros Hst. unfold PollingExecutor.loop_step in Hst.
  destruct (PollingExecutor.at_ s) as [|[]|once n [|h hs]|once n|once n [|t ts]|once n|once n [|h hs] [|cb cbs]|once n|n|] eqn:Ha;
    simpl in Hst; repeat case_match; simplify_eq/=; split_and!; try done;
    first [by eexists; split; [reflexivity|]; rewrite dropped_no_completions|grown].
Qed.

Lemma polling_step_machine l s s' : polling_step l s = Some s' → lstep l (pl_machine s) = Some (pl_machine s').
Proof.
  unfold polling_step. intros Hst. destruct l as [| | | | | | |hs|[]]; try done;
    try (apply fmap_Some in Hst as (m & E & ->); exact E).
  apply bind_Some in Hst as (src & _ & Hst). by apply bind_Some in Hst as (m & E & [= <-]).
Qed.

Lemma polling_step_facts l s s' : polling_step l s = Some s' →
  PollingExecutor.scheduled (pl_machine s') = PollingExecutor.scheduled (pl_machine s) ∧
  PollingExecutor.armed (pl_machine s') = PollingExecutor.armed (pl_machine s) ∧ pl_requested s' = pl_requested s ∧
  ∃ evs, PollingExecutor.log (pl_machine s') = PollingExecutor.log (pl_machine s) ++ evs ∧
    completions evs ++ polled (PollingExecutor.at_ (pl_machine s')) ++ pl_source s' ≡ₚ
    polled (PollingExecutor.at_ (pl_machine s)) ++ pl_source s.
Proof.
  destruct s as [m src rq]. simpl.
  destruct l as [h|cb|d h| |d| | |hs|[]]; simpl; intros Hst; simplify_eq/=;
    try (split_and!; try done; by grown).
  - destruct (PollingExecutor.at_ m) eqn:Ha; simplify_eq/=. split_and!; try done; by grown.
  - destruct (PollingExecutor.at_ m) eqn:Ha; simplify_eq/=. split_and!; try done; by grown.
  - destruct (Poll_returns _ _) as [src'|] eqn:Er; [|done]. simpl in Hst.
    destruct (PollingExecutor.at_ m) eqn:Ha; simplify_eq/=. case_match; simplify_eq/=. split_and!; try done.
    exists []. rewrite app_nil_r. split; [done|]. simpl. by apply Poll_returns_perm.
  - destruct (PollingExecutor.loop_step [] m) as [m'|] eqn:El; [|done]. simplify_eq/=.
    destruct (polling_loop_facts _ _ El) as (H1 & H2 & evs & H3 & H4). split_and!; try done.
    exists evs. split; [done|]. by rewrite app_assoc, H4.
Qed.

#[export] Instance polling_event_loop_laws : EventLoopLaws polling_loop llabel unit.
Proof.
  split; simpl.
  - intros [m src rq] [[Hh _ Ht _ _] Hq]. simpl in *. rewrite polling_handles, Hh, Ht, Hq, fmap_app. solve_Permutation.
  - intros h [m src rq] [Hm Hq]. simpl in *. split_and!; [split; [|done]|simpl; solve_Permutation|done].
    by apply (linv_step (XSchedule h) m).
  - intros d h [m src rq] [Hm Hq]. simpl in *.
    split_and!; [split; [|done]|simpl; rewrite fmap_app; solve_Permutation|done]. by apply (linv_step (XAfter d h) m).
  - intros o h [m src rq] [Hm Hq]. simpl in *. split_and!; [split; [done|]|simpl; solve_Permutation|done].
    simpl. rewrite Hq. solve_Permutation.
  - intros l s s' [Hm Hq] Hst _. pose proof (polling_step_facts _ _ _ Hst) as (_ & _ & Hr & evs & Hl & Hc). split.
    + by eapply linv_step, polling_step_machine.
    + rewrite Hr, Hq, Hl. unfold completions. rewrite omap_app, <- app_assoc. fold (completions evs). by rewrite Hc.
  - intros l s s' _ Hst. pose proof (polling_step_facts _ _ _ Hst) as (-> & -> & -> & _). done.
  - intros l s s' _ Hst. pose proof (polling_step_facts _ _ _ Hst) as (_ & _ & _ & evs & -> & _).
    exists (omap polling_handle evs). by rewrite omap_app.
  - done.
  - done.
  - done.
  - done.
Qed.

(** ** LibuvExecutor *)

Definition uv_handle (ev : uv_event) : option handle :=
  match ev with
  | UvResume h => h
  | UvTimer t _ => Libuv.request_handle (Libuv.request t)
  | UvNow r => Libuv.request_handle r
  | UvCallback _ | UvTimerInit _ _ => None
  end.
Definition uv_loop_step (l : uv_label) (s : uv_sys) : option uv_sys :=
  match l with VSchedule _ | VAfter _ _ => None | _ => uv_step l s end.

#[export] Instance libuv_event_loop : EventLoop uv_sys uv_label Empty_set := {
  el_schedule h s := default s (uv_step (VSchedule (Some h)) s);
  el_after d h s := default s (uv_step (VAfter d (Some h)) s);
  el_io o _ _ := match o with end;
  el_step := uv_loop_step;
  el_guarded _ := true;
  el_given s := omap id (Libuv.scheduled s) ++ omap Libuv.request_handle (Libuv.armed s);
  el_resumed s := omap uv_handle (Libuv.log s);
  el_waiting s :=
    omap id (Libuv.local_handles (Libuv.at_ s) ++ Libuv.ready_queue_ (lv s)) ++
    omap Libuv.request_handle ((Libuv.request <$> timers s) ++ Libuv.local_requests (Libuv.at_ s) ++ Libuv.timer_queue_ (lv s));
  el_inv := uv_inv;
  el_defined _ := true;
}.

Lemma uv_handles l :
  omap uv_handle l ≡ₚ omap id (Libuv.resumes l) ++ omap Libuv.request_handle ((Libuv.request <$> Libuv.fired l) ++ immediate l).
Proof.
  rewrite omap_app. induction l as [|ev l IH]; [done|]. unfold Libuv.resumes, Libuv.fired, immediate in *.
  destruct ev as [h|cb|t now|r z|r]; simpl; [destruct h| |destruct (Libuv.request_handle _)| |destruct (Libuv.request_handle _)];
    simpl; rewrite IH; solve_Permutation.
Qed.

Lemma uv_loop_facts l s s' : uv_loop_step l s = Some s' →
  Libuv.scheduled s' = Libuv.scheduled s ∧ Libuv.armed s' = Libuv.armed s ∧
  ∃ evs, Libuv.log s' = Libuv.log s ++ evs.
Proof.
  intros Hst. destruct l as [h|cb|d h| |d| | | | | |ok|i|i]; simpl in Hst;
    unfold callback_step in Hst; repeat case_match; simplify_eq/=; split_and!; rewrite ?app_nil_r; try done; grown.
Qed.

#[export] Instance libuv_event_loop_laws : EventLoopLaws uv_sys uv_label Empty_set.
Proof.
  split; simpl.
  - intros s [H1 _ H3 _ _ _ _ _]. rewrite uv_handles, H1, H3, !omap_app, !fmap_app, !omap_app. solve_Permutation.
  - intros h s Hs. split_and!; [by apply (uv_inv_step (VSchedule (Some h)) s)| |done].
    simpl. rewrite app_nil_r, omap_app. simpl. solve_Permutation.
  - intros d h s Hs. split_and!; [by apply (uv_inv_step (VAfter d (Some h)) s)| |done].
    simpl. rewrite app_nil_r, omap_app. simpl. solve_Permutation.
  - done.
  - intros l s s' Hs Hst _. eapply (uv_inv_step l); [done|]. by destruct l.
  - intros l s s' _ Hst. by destruct (uv_loop_facts _ _ _ Hst) as (-> & -> & _).
  - intros l s s' _ Hst. destruct (uv_loop_facts _ _ _ Hst) as (_ & _ & evs & ->). rewrite omap_app. by eexists.
  - done.
  - done.
  - done.
  - done.
Qed.

(** ** IoUringExecutor *)

Definition uring_handle (ev : IoUring.event) : option handle :=
  match ev with
  | EvTimeout _ r _ | EvNow _ r => IoUring.request_handle r
  | EvIO _ h _ _ => Some h
  | IoUring.EvResume h => h
  | IoUring.EvCall _ => None
  end.
Definition uring_loop_step (l : ulabel) (s : usys) : option usys :=
  match l with USchedule _ | UAfter _ _ | UIo _ _ _ _ => None | _ => ustep l s end.

(** An awaitable of I/O: its request, whether it submits at once, its context. *)
Definition uring_io (o : IoUring.request * bool * nat) (h : handle) (s : usys) : bool * usys :=
  let '(x, now, ctx) := o in
  match await_suspend_io x now ctx h (Some (ex s)) with
  | (IoUring.Suspended, _) => (true, default s (ustep (UIo x now ctx h) s))
  | (Immediate _, _) => (false, default s (ustep (UIo x now ctx h) s))
  end.

#[export] Instance uring_event_loop : EventLoop usys ulabel (IoUring.request * bool * nat) := {
  el_schedule h := IoUring.Schedule (Some h);
  el_after d h := IoUring.ScheduleAfter d (Some h);
  el_io := uring_io;
  el_step := uring_loop_step;
  el_guarded _ := true;
  el_given s := omap id (IoUring.scheduled s) ++ omap IoUring.request_handle (IoUring.armed s) ++ (started s).*2;
  el_resumed s := omap uring_handle (IoUring.log s);
  el_waiting s :=
    omap id (IoUring.local_handles (IoUring.at_ s) ++ IoUring.ready_queue_ (ex s)) ++
    omap IoUring.request_handle (requests (outstanding s) ++ IoUring.local_requests (IoUring.at_ s) ++ IoUring.timer_queue_ (ex s)) ++
    (operations (outstanding s)).*2;
  el_inv := uinv;
  el_defined _ := true;
}.

Lemma uring_handles l :
  omap uring_handle l ≡ₚ omap id (IoUring.resumes l) ++ omap IoUring.request_handle (IoUring.fired l) ++ (IoUring.completed l).*2.
Proof.
  induction l as [|ev l IH]; [done|]. unfold IoUring.resumes, IoUring.fired, IoUring.completed in *.
  destruct ev as [c r z|c r|c h z f|h|cb]; simpl;
    [destruct (IoUring.request_handle _)|destruct (IoUring.request_handle _)| |destruct h|];
    simpl; rewrite IH; solve_Permutation.
Qed.

Lemma uring_loop_facts l s s' : uring_loop_step l s = Some s' →
  IoUring.scheduled s' = IoUring.scheduled s ∧ IoUring.armed s' = IoUring.armed s ∧ started s' = started s ∧
  ∃ evs, IoUring.log s' = IoUring.log s ++ evs.
Proof.
  intros Hst. destruct l as [h|cb|d h| | |i r f| | | | | |x now ctx h]; simpl in Hst;
    unfold IoUring.loop_step, process_completion, process_timer in Hst; repeat case_match; simplify_eq/=; split_and!;
    rewrite ?app_nil_r; try done; grown.
Qed.

Lemma uring_io_spec o h s : ∃ e, (uring_io o h s).2 = note_start (if (uring_io o h s).1 then [(o.2, h)] else []) (with_ex e s).
Proof.
  destruct o as [[x now] ctx]. unfold uring_io. simpl.
  destruct (get_sqe _ (ex s)) as [e|]; simpl; [by eexists|]. exists (ex s). unfold note_start. simpl. rewrite app_nil_r. by destruct s.
Qed.

#[export] Instance uring_event_loop_laws : EventLoopLaws usys ulabel (IoUring.request * bool * nat).
Proof.
  split; simpl.
  - intros s [[_ _ H3 H4 _ H6 _] _ _ _]. rewrite uring_handles, H6, H3, H4, !omap_app, !fmap_app. solve_Permutation.
  - intros h s Hs. split_and!; [by apply (uinv_step (USchedule (Some h)) s)| |done].
    simpl. rewrite app_nil_r, omap_app. simpl. solve_Permutation.
  - intros d h s Hs. split_and!; [by apply (uinv_step (UAfter d (Some h)) s)| |done].
    simpl. rewrite app_nil_r, omap_app. simpl. solve_Permutation.
  - intros [[x now] ctx] h s Hs. destruct (uring_io_spec (x, now, ctx) h s) as [e He]. split_and!.
    + eapply (uinv_step (UIo x now ctx h)); [done|]. unfold uring_io, ustep, await_suspend_io.
      by destruct (get_sqe _ (ex s)).
    + rewrite He. destruct (uring_io _ _ _).1; simpl; rewrite ?app_nil_r, ?fmap_app; simpl; [solve_Permutation|done].
    + by rewrite He.
  - intros l s s' Hs Hst _. eapply (uinv_step l); [done|]. by destruct l.
  - intros l s s' _ Hst. by destruct (uring_loop_facts _ _ _ Hst) as (-> & -> & -> & _).
  - intros l s s' _ Hst. destruct (uring_loop_facts _ _ _ Hst) as (_ & _ & _ & evs & ->). rewrite omap_app. by eexists.
  - done.
  - done.
  - done.
  - done.
Qed.

(** ** ThreadPoolExecutor

    RunOnce runs an item on the thread that calls it, whose current executor is
    another one, or none.  What the pool does is defined until its timer thread
    reads a reference into a vector that has moved. *)
Definition pool_loop_step (l : pool_label) (s : pool_sys) : option pool_sys :=
  match l with PSchedule _ | PAfter _ _ => None | _ => pool_step l s end.

#[export] Instance pool_event_loop : EventLoop pool_sys pool_label Empty_set := {
  el_schedule h := ThreadPool.Schedule (Some h);
  el_after d h := ThreadPool.ScheduleAfter d (Some h);
  el_io o _ _ := match o with end;
  el_step := pool_loop_step;
  el_guarded l := match l with PCall _ _ => false | _ => true end;
  el_given s := omap item_handle (ThreadPool.posted s) ++ (delayed_handle <$> ThreadPool.armed s);
  el_resumed s := omap item_handle (ran s);
  el_waiting s :=
    omap item_handle (in_hand s ++ work_queue_ (pool s) ++ pushing s) ++
    (delayed_handle <$> vitems (delayed_queue_ (pool s)));
  el_inv := pool_inv;
  el_defined s := negb (dangling s);
}.

Lemma fired_handles (l : list DelayedWork) : omap item_handle (fired_item <$> l) = delayed_handle <$> l.
Proof. induction l as [|d l IH]; [done|]. rewrite !fmap_cons, <- IH. done. Qed.

Lemma pool_loop_facts l s s' : pool_loop_step l s = Some s' →
  omap item_handle (ThreadPool.posted s') = omap item_handle (ThreadPool.posted s) ∧ ThreadPool.armed s' = ThreadPool.armed s ∧
  ∃ ws, ran s' = ran s ++ ws.
Proof.
  intros Hst. destruct l as [h|[cb|]|d h| | | | |d|i| |j who|stale|who]; simpl in Hst;
    unfold worker_step, run_step, call_step, timer_step, timer_fire, notify_one in Hst; repeat case_match; simplify_eq/=; split_and!;
    rewrite ?app_nil_r, ?omap_app; simpl; rewrite ?app_nil_r; try done; grown.
Qed.

#[export] Instance pool_event_loop_laws : EventLoopLaws pool_sys pool_label Empty_set.
Proof.
  split; simpl.
  - intros s [H1 H2 H3 H4 _ _ _ _]. rewrite H2, H3 in H1.
    assert (omap item_handle (ThreadPool.posted s) ++ (delayed_handle <$> ThreadPool.fired s) ≡ₚ
      omap item_handle (ran s) ++ omap item_handle (in_hand s ++ work_queue_ (pool s) ++ pushing s)) as E.
    { rewrite <- fired_handles, <- !omap_app, H1. f_equiv. solve_Permutation. }
    rewrite H4, fmap_app, app_assoc, E. by rewrite <- app_assoc.
  - intros h s Hs. split_and!; [by apply pool_inv_new_call| |simpl; by rewrite app_nil_r].
    simpl. rewrite omap_app. simpl. solve_Permutation.
  - intros d h s Hs. split_and!; [by apply pool_inv_after| |done].
    simpl. rewrite fmap_app. simpl. solve_Permutation.
  - done.
  - intros l s s' Hs Hst Hd%negb_true_iff. eapply (pool_inv_step l); [done| |done]. by destruct l.
  - intros l s s' _ Hst. by destruct (pool_loop_facts _ _ _ Hst) as (-> & -> & _).
  - intros l s s' _ Hst. destruct (pool_loop_facts _ _ _ Hst) as (_ & _ & ws & ->). rewrite omap_app. by eexists.
  - done.
  - done.
  - done.
  - intros l s s' Hst Hd%negb_true_iff. apply negb_true_iff. eapply (pool_dangling_step l); [|done]. by destruct l.
Qed.

(** ** Coroutines on executors of all four kinds *)

Definition any_loop : Type := polling_loop + (pool_sys + (uv_sys + usys)).
Definition any_label : Type := llabel + (pool_label + (uv_label + ulabel)).
Definition any_io : Type := unit + (Empty_set + (Empty_set + (IoUring.request * bool * nat))).

(** As their constructors leave them. *)
Definition new_loop (s : any_loop) : Prop :=
  (∃ strategy, s = inl (PollingLoop (lsys_init strategy) [] [])) ∨
  (∃ n, s = inr (inl (pool_init n))) ∨
  s = inr (inr (inl uv_init)) ∨
  (∃ depth, (0 < depth)%nat ∧ s = inr (inr (inr (uinit depth)))).

Lemma new_loop_empty s : new_loop s → el_inv s ∧ el_waiting s = [].
Proof.
  intros [[st ->]|[[n ->]|[->|(d & Hd & ->)]]]; simpl.
  - split; [split; [by split|done]|done].
  - split; [apply pool_inv_init|]. unfold in_hand, pushing. simpl. rewrite !app_nil_r.
    generalize (num_threads n) as k. by induction k.
  - split; [apply uv_inv_init|done].
  - split; [by apply uinv_init|]. unfold outstanding, unprocessed, new_uring, SubmitWakeupRead, get_sqe. simpl.
    by destruct d.
Qed.

(** No pool has read a stale reference, as a test. *)
Definition pools_intact (es : gmap executor_id any_loop) : bool :=
  forallb (λ kv, match kv.2 with inr (inl p) => negb (dangling p) | _ => true end) (map_to_list es).
Lemma pools_intact_spec es : pools_intact es = true → ∀ x p, es !! x = Some (inr (inl p)) → dangling p = false.
Proof.
  intros Hes x p E%elem_of_map_to_list%list_elem_of_In. eapply forallb_forall in Hes; [|exact E].
  by apply negb_true_iff.
Qed.

(** C8. Any number of coroutines on any number of executors of the four kinds,
    spawned there or started by hand, awaiting AsyncSleep, Yield, ScheduleOn and
    I/O, with the executors' threads, the kernel and other callers in between, as
    long as no thread pool has read the top of its timers through a reference
    into a vector that moved ([ThreadPool.pool_timer_dangling]): no coroutine is
    ever resumed while it runs, after it has finished, or twice for one await; a
    coroutine is suspended exactly while some executor has it; that executor has
    it once, and no other has it.  None is lost, and none is in two places,
    however it moved from one executor to another. *)
Theorem coroutines_resumed_once (es : gmap executor_id any_loop) (w : world (S := any_loop)) :
  (∀ x s, es !! x = Some s → new_loop s) →
  reachable (wstep (L := any_label) (Op := any_io)) (winit es) w →
  (∀ x p, execs w !! x = Some (inr (inl p)) → dangling p = false) →
  bad w = false ∧
  (∀ h, coroutines w !! h = Some EventLoop.Suspended ↔ ∃ x s, execs w !! x = Some s ∧ h ∈ el_waiting s) ∧
  (∀ x s, execs w !! x = Some s → NoDup (el_waiting s)) ∧
  (∀ x y s t h, execs w !! x = Some s → execs w !! y = Some t → h ∈ el_waiting s → h ∈ el_waiting t → x = y).
Proof.
  intros Hes Hr Hd. destruct (world_safe es w) as [Hb [Ho H1 Hs]]; [|done|..].
  { intros x s E. by eapply new_loop_empty, Hes. }
  { intros x [s|[p|[s|s]]] E; simpl; try done. by rewrite (Hd x p E). }
  assert (∀ x s, execs w !! x = Some s → (el_waiting <$> execs w) !! x = Some (el_waiting s)) as Hx.
  { intros x s E. by rewrite lookup_fmap, E. }
  split_and!; [done| |by eauto|by eauto]. intros h. rewrite Hs. split.
  - intros (x & l & E & Hin). rewrite lookup_fmap in E. apply fmap_Some in E as (s & E & ->). by exists x, s.
  - intros (x & s & E & Hin). exists x, (el_waiting s). auto.
Qed.

(** One executor of each kind, and a coroutine that goes from one to the next,
    and receives on the last. *)
Definition four_loops : gmap executor_id any_loop :=
  {[ 1%nat := inl (PollingLoop (lsys_init Spin) [] []); 2%nat := inr (inl (pool_init 1));
     3%nat := inr (inr (inl uv_init)); 4%nat := inr (inr (inr (uinit 8))) ]}.
Definition any_step : Type := wlabel (L := any_label) (Op := any_io).
Definition go (x : executor_id) (l : any_label) : any_step := WExec x l None.
Definition tour : list any_step :=
  [WSpawn 1%nat 10%nat] ++
  (go 1%nat ∘ inl <$> [XRun; XPoll []; XStep []; XStep []; XStep []; XStep []; XStep []]) ++
  [WAwait 10%nat (DoScheduleOn 2%nat)] ++
  (go 2%nat ∘ inr ∘ inl <$> [PCall 0 NoWaiter; PCall 0 NoWaiter; PWorker 0; PWorker 0; PWorker 0]) ++
  [WAwait 10%nat (DoScheduleOn 3%nat)] ++
  (go 3%nat ∘ inr ∘ inr ∘ inl <$> [VSend; VAsync; VIdle; VStep 0]) ++
  (go 4%nat ∘ inr ∘ inr ∘ inr <$> [URun; ULoop]) ++
  [WAwait 10%nat (DoScheduleOn 4%nat)] ++
  (go 4%nat ∘ inr ∘ inr ∘ inr <$> [UWrite; UKernel 0 8 0; ULoop; ULoop; ULoop; ULoop; ULoop]) ++
  [WAwait 10%nat (DoIo (inr (inr (inr (PrepRecv 3 100 64 0 None, true, 7%nat)))))].

Lemma coroutines_resumed_once_witness :
  ∃ w, run wstep tour (winit four_loops) = Some w ∧ coroutines w !! 10%nat = Some EventLoop.Suspended ∧
    bad w = false ∧ ∃ x s, execs w !! x = Some s ∧ 10%nat ∈ el_waiting s.
Proof.
  eexists. split; [vm_compute; reflexivity|].
  match goal with |- coroutines ?w !! _ = _ ∧ _ =>
    destruct (coroutines_resumed_once four_loops w) as (Hb & Hs & _) end.
  - intros x s E. unfold four_loops in E.
    repeat (apply lookup_insert_Some in E as [[_ <-]|[_ E]]); unfold new_loop; try by eauto.
    apply lookup_singleton_Some in E as [_ <-]. right; right; right. exists 8%nat. split; [lia|done].
  - apply reachable_run. exists tour. vm_compute. reflexivity.
  - apply pools_intact_spec. vm_compute. reflexivity.
  - split; [vm_compute; reflexivity|]. split; [exact Hb|]. apply Hs. vm_compute. reflexivity.
Defined.

(** RunOnce of the thread pool runs the coroutine on a thread that has no current
    executor: the coroutine that has just moved to the pool sees none, and its
    Yield does not suspend.  On a worker it does. *)
Definition moved (ls : list pool_label) : list any_step :=
  [WStart 10%nat None; WAwait 10%nat (DoScheduleOn 2%nat)] ++ (go 2%nat ∘ inr ∘ inl <$> ls).
Definition seen_by (ls : list pool_label) (after : list any_step) : option EventLoop.phase :=
  w ← run wstep (moved ls ++ after) (winit four_loops); coroutines w !! 10%nat.
Example pool_run_once_no_executor :
  let once := [PCall 0 NoWaiter; PCall 0 NoWaiter; POnce; PCall 1 NoWaiter; PCall 1 NoWaiter; PCall 1 NoWaiter] in
  let worker := [PCall 0 NoWaiter; PCall 0 NoWaiter; PWorker 0; PWorker 0; PWorker 0] in
  seen_by once [] = Some (EventLoop.Running None) ∧
  seen_by once [WAwait 10%nat DoYield] = Some (EventLoop.Running None) ∧
  seen_by worker [] = Some (EventLoop.Running (Some 2%nat)) ∧
  seen_by worker [WAwait 10%nat DoYield] = Some EventLoop.Suspended.
Proof. split_and!; vm_compute; reflexivity. Qed.
