(* ===== verification/HttpServer.v ===== *)
(** * HttpServer over the sockets ([http/http.hpp], [src/http/http.cpp],
      composed with [io/tcp.hpp])

    [Http] gives HandleConnection as a function of what its reads return and of
    the clock.  Here the same coroutine is a program over the stream
    ([StreamClient]): its machine refines the function, and it keeps the rules
    under which a stream is safe.  Run is the accept loop over the listener of
    [Tcp]. *)
From Stdlib Require Import Ascii.
From S2P Require Import Prelude Kernel Tcp StreamClient Http.
Local Open Scope Z_scope.

(** ** HttpServer::Run *)

Inductive run_state := RNotStarted | RAccepting | RExited (code : Z).

(** [spawned_]: the streams given to Spawn(HandleConnection), in order. *)
Record server := Server {
  listener : TcpListener;
  running_ : bool;
  at_ : run_state;
  arrived_ : list TcpStream;
  spawned_ : list TcpStream
}.
Definition new_server : server := Server new_tcp_listener true RNotStarted [] [].
Definition run_handle : Prelude.handle := 1%nat.

Definition spawn_handler (x : option TcpStream) (l : TcpListener) (s : server) : server :=
  Server l (running_ s) (at_ s) (arrived_ s) (spawned_ s ++ option_list x).

(** The loop from its head; the fuel is the number of pending connections. *)
Fixpoint serve (fuel : nat) (s : server) : server :=
  if negb (running_ s) then Server (listener s) false (RExited 0) (arrived_ s) (spawned_ s)
  else if Accept_await_ready (listener s) then
    match fuel with
    | O => s
    | S fuel => let (x, l) := Accept_await_resume (listener s) in serve fuel (spawn_handler x l s)
    end
  else Server (Accept_await_suspend run_handle (listener s)) true RAccepting (arrived_ s) (spawned_ s).

Inductive server_label :=
  | HRun (addr_result bind_result listen_result : Z)
  | HConnection (status accept_result : Z)
  | HStop.

Definition server_step (l : server_label) (s : server) : option server :=
  match l, at_ s with
  | HRun ar br lr, RNotStarted =>
      let (result, l) := Bind ar br (listener s) in
      let s := Server l (running_ s) RNotStarted (arrived_ s) (spawned_ s) in
      Some (if negb (result =? 0) then Server l (running_ s) (RExited result) (arrived_ s) (spawned_ s)
            else if negb (lr =? 0) then Server l (running_ s) (RExited lr) (arrived_ s) (spawned_ s)
            else serve (length (pending_connections_ l)) s)
  | HConnection status r, RAccepting =>
      let (l, w) := OnConnection status r (listener s) in
      let s := Server l (running_ s) (at_ s)
                 (if status <? 0 then arrived_ s else arrived_ s ++ [(InitFromAccept r new_tcp).1]) (spawned_ s) in
      Some (match w with
            | Some _ => let (x, l) := Accept_await_resume l in serve (length (pending_connections_ l)) (spawn_handler x l s)
            | None => s
            end)
  | HStop, _ => Some (Server (listener s) false (at_ s) (arrived_ s) (spawned_ s))
  | _, _ => None
  end.

Definition server_inv (s : server) : Prop :=
  arrived_ s = spawned_ s ∧ pending_connections_ (listener s) = [] ∧
  (at_ s = RAccepting ↔ accept_waiter_ (listener s) = Some run_handle) ∧
  (at_ s = RNotStarted → accept_waiter_ (listener s) = None) ∧
  (running_ s = true → ∀ code, at_ s = RExited code → code ≠ 0).

(** From the loop head with nothing pending: out, or waiting. *)
Lemma serve_inv fuel l b a ar : pending_connections_ l = [] → accept_waiter_ l = None →
  server_inv (serve fuel (Server l b a ar ar)) ∧
  (b = true → at_ (serve fuel (Server l b a ar ar)) = RAccepting).
Proof.
  intros Hp Hw. assert (serve fuel (Server l b a ar ar) =
    if b then Server (Accept_await_suspend run_handle l) true RAccepting ar ar else Server l false (RExited 0) ar ar) as ->.
  { destruct fuel, b; simpl; try done; unfold Accept_await_ready; by rewrite Hp. }
  destruct b; unfold server_inv; simpl; [by split_and!|].
  rewrite Hw. by split_and!.
Qed.

Lemma server_inv_step l s s' : server_inv s → server_step l s = Some s' → server_inv s'.
Proof.
  intros (Ha & Hp & Hw & Hn & Hc). destruct s as [[pe aw lc bd] rn at_ ar sp]. simpl in *. subst pe ar.
  destruct l as [adr br lr|status r|], at_; simpl; try done.
  - specialize (Hn eq_refl). subst aw. unfold Bind; simpl. destruct bd; simpl.
    { intros [= <-]. unfold server_inv; simpl. split_and!; try done. by intros _ c [= <-]. }
    destruct (Z.eqb_spec adr 0) as [->|Hadr]; simpl.
    + destruct (Z.eqb_spec br 0) as [->|Hbr]; simpl.
      * destruct (Z.eqb_spec lr 0); simpl; intros [= <-];
          [by apply (serve_inv 0 (mkTcpListener [] None lc true) rn RNotStarted sp)|].
        unfold server_inv; simpl. split_and!; try done. by intros _ c [= <-].
      * intros [= <-]. unfold server_inv; simpl. split_and!; try done. by intros _ c [= <-].
    + intros [= <-]. rewrite (proj2 (Z.eqb_neq adr 0)) by done. unfold server_inv; simpl.
      split_and!; try done. by intros _ c [= <-].
  - assert (aw = Some run_handle) as -> by by apply Hw. unfold OnConnection; simpl.
    destruct (status <? 0); intros [= <-]; [done|].
    by apply (serve_inv 0 (mkTcpListener [] None lc bd) rn RAccepting (sp ++ [(InitFromAccept r new_tcp).1])).
  - intros [= <-]. done.
  - intros [= <-]. done.
  - intros [= <-]. unfold server_inv; simpl. by split_and!.
Qed.

Section Connection.
Context {llhttp : Type} (llhttp_execute : llhttp → str → llhttp * list callback * Z).
Context (errno_name : Z → str) (reset : llhttp → llhttp).
Context (method : llhttp → HttpMethod) (version : llhttp → Z * Z).
Context (handler_ : option (HttpRequest → HttpResponse)) (read_timeout_ : Z).
Context (parser_ : llhttp).

(** ** HandleConnection as a coroutine *)

(** What follows a write: the end of the loop, or the next iteration, with the
    parser reset. *)
Inductive after_write := KExit | KLoop (q : llhttp * HttpParser).

(** Between two actions.  [now_]: the clock at the deadline check. *)
Inductive conn_at :=
  | CStart
  | CLoop (deadline : Z) (q : llhttp * HttpParser)
  | CCheck (deadline : Z) (q : llhttp * HttpParser)
  | CRead (now_ deadline : Z) (q : llhttp * HttpParser)
  | CWrite (out : str) (k : after_write)
  | CDeadline (q : llhttp * HttpParser)
  | CClose
  | CEnd.

(** After a read: parse, and answer or go on. *)
Definition after_read (data : str) (deadline : Z) (q : llhttp * HttpParser) : conn_at :=
  match data with
  | [] => CClose
  | _ =>
      let '(complete, q') := Parse llhttp_execute errno_name data q in
      if error_ q'.2 then CWrite (Serialize (BadRequest (error_message_ q'.2))) KExit
      else if complete then
        let v := version q'.1 in
        let request := GetRequest (method q'.1) v.1 v.2 q'.2 in
        CWrite (Serialize (handle handler_ request))
          (if negb (ShouldKeepAlive request) then KExit else KLoop (reset q'.1, Reset q'.2))
      else CLoop deadline q'
  end.

Definition after_reply (k : after_write) : conn_at := match k with KExit => CClose | KLoop q => CDeadline q end.

Definition conn_next (s : conn_at) : action conn_at :=
  match s with
  | CStart => AClock (λ now_, CLoop (now_ + read_timeout_) (parser_, new_parser))
  | CLoop d q => AIsOpen (λ b, if b then CCheck d q else CClose)
  | CCheck d q =>
      AClock (λ now_, if d <=? now_ then CWrite (Serialize (BadRequest (lit "Request timeout"))) KExit else CRead now_ d q)
  | CRead _ d q => ARead (λ data, after_read data d q)
  | CWrite out k => AWrite out (λ _, after_reply k)
  | CDeadline q => AClock (λ now_, CLoop (now_ + read_timeout_) q)
  | CClose => AClose CEnd
  | CEnd => AEnd
  end.

Definition conn_usable (s : conn_at) : bool :=
  match s with CCheck _ _ | CRead _ _ _ | CWrite _ _ => true | _ => false end.

#[local] Instance conn_program : StreamProgram conn_at :=
  { start := CStart; next := conn_next; usable := conn_usable }.

#[local] Instance conn_laws : StreamLaws conn_at.
Proof.
  split; simpl; [done|..]; intros []; intros; simplify_eq/=; try done.
Qed.

Definition conn_step : client_label → client conn_at → option (client conn_at) := client_step.
Definition conn_init : Z → option (client conn_at) := client_init.

(** ** Refinement of [HandleConnection] *)

Abbreviation spec := (HandleConnection_loop llhttp_execute errno_name reset method version handler_ read_timeout_).

(** The buffers that the loop parses. *)
Definition buffers (ins : list input) : list bytes := nonempty (data <$> ins).

Lemma buffers_snoc ins i : buffers (ins ++ [i]) = buffers ins ++ nonempty [data i].
Proof. unfold buffers. by rewrite fmap_app, nonempty_app. Qed.

(** [outs] have been written for the buffers [bs], and the loop goes on from
    deadline [d] and parser [q]: whatever comes next, the specification writes
    [outs] first. *)
Definition goes_on (d0 : Z) (outs : list str) (bs : list bytes) (d : Z) (q : llhttp * HttpParser) : Prop :=
  ∃ ins, buffers ins = bs ∧ ∀ rest, spec (ins ++ rest) d0 (parser_, new_parser) = (outs ++ (spec rest d q).1, (spec rest d q).2).
Definition ends (d0 : Z) (outs : list str) (bs : list bytes) : Prop :=
  ∃ ins x, buffers ins = bs ∧ spec ins d0 (parser_, new_parser) = (outs, x) ∧ x ≠ XOutOfInput.
Definition answers (d0 : Z) (outs : list str) (bs : list bytes) (k : after_write) : Prop :=
  match k with
  | KExit => ends d0 outs bs
  | KLoop q => ∀ now_, goes_on d0 outs bs (now_ + read_timeout_) q
  end.

Definition refines (d0 : Z) (s : conn_at) (outs : list str) (bs : list bytes) : Prop :=
  match s with
  | CStart => True
  | CLoop d q | CCheck d q => goes_on d0 outs bs d q
  | CRead n d q => goes_on d0 outs bs d q ∧ n < d
  | CWrite out k => answers d0 (outs ++ [out]) bs k
  | CDeadline q => ∀ now_, goes_on d0 outs bs (now_ + read_timeout_) q
  | CClose | CEnd => ends d0 outs bs
  end.

(** One more input ends the loop, writing [o]. *)
Lemma goes_on_ends d0 outs bs d q i o x : goes_on d0 outs bs d q → spec [i] d q = (o, x) → x ≠ XOutOfInput →
  ends d0 (outs ++ o) (bs ++ nonempty [data i]).
Proof.
  intros [ins [Hb Hi]] E Hx. exists (ins ++ [i]), x. split; [by rewrite buffers_snoc, Hb|]. by rewrite Hi, E.
Qed.

(** One more input takes the loop to [d'] and [q'], writing [o]. *)
Lemma goes_on_more d0 outs bs d q i o d' q' : goes_on d0 outs bs d q →
  (∀ rest, spec (i :: rest) d q = (o ++ (spec rest d' q').1, (spec rest d' q').2)) →
  goes_on d0 (outs ++ o) (bs ++ nonempty [data i]) d' q'.
Proof.
  intros [ins [Hb Hi]] E. exists (ins ++ [i]). split; [by rewrite buffers_snoc, Hb|]. intros rest. rewrite <- app_assoc, Hi.
  change ([i] ++ rest) with (i :: rest). rewrite E. cbn [fst snd]. by rewrite app_assoc.
Qed.

(** An end without a buffer. *)
Lemma goes_on_stops d0 outs bs d q i o x : goes_on d0 outs bs d q → data i = [] → spec [i] d q = (o, x) → x ≠ XOutOfInput →
  ends d0 (outs ++ o) bs.
Proof. intros Hg Hd E Hx. pose proof (goes_on_ends _ _ _ _ _ _ _ _ Hg E Hx) as He. rewrite Hd, app_nil_r in He. done. Qed.

Lemma after_read_refines d0 outs bs n b d q : goes_on d0 outs bs d q → n < d →
  refines d0 (after_read b d q) outs (bs ++ nonempty [b]).
Proof.
  intros Hg Hn. assert ((d <=? n) = false) as En by (by apply Z.leb_gt). unfold after_read.
  destruct b as [|ch b].
  { rewrite app_nil_r. simpl. rewrite <- (app_nil_r outs). eapply (goes_on_stops _ _ _ _ _ (mkInput true n [] 0)); [done|done| |].
    - simpl. by rewrite En.
    - done. }
  destruct (Parse llhttp_execute errno_name (ch :: b) q) as [complete q'] eqn:Ep.
  destruct (error_ q'.2) eqn:Ee; [|destruct complete]; simpl.
  - eapply (goes_on_ends _ _ _ _ _ (mkInput true n (ch :: b) 0)); [done| |].
    + simpl. by rewrite En, Ep, Ee.
    + done.
  - destruct (ShouldKeepAlive _) eqn:Ek; simpl.
    + intros now_. eapply (goes_on_more _ _ _ _ _ (mkInput true n (ch :: b) now_)); [done|].
      intros rest. simpl. rewrite En, Ep, Ee. simpl. rewrite Ek. simpl. by destruct (spec rest _ _).
    + eapply (goes_on_ends _ _ _ _ _ (mkInput true n (ch :: b) 0)); [done| |].
      * simpl. rewrite En, Ep, Ee. simpl. by rewrite Ek.
      * done.
  - rewrite <- (app_nil_r outs). eapply (goes_on_more _ _ _ _ _ (mkInput true n (ch :: b) 0)); [done|].
    intros rest. simpl. rewrite En, Ep, Ee. simpl. by destruct (spec rest _ _).
Qed.

(** The clock at the start, which the first deadline counts from. *)
Definition started_at (os : list obs) : Z := match os with OClock z :: _ => z | _ => 0 end.

Lemma started_at_snoc os o : os ≠ [] → started_at (os ++ [o]) = started_at os.
Proof. by destruct os. Qed.
Definition conn_inv (p : pc conn_at) (os : list obs) : Prop :=
  let d0 := started_at os + read_timeout_ in let outs := puts os in let bs := nonempty (gots os) in
  (os = [] ↔ p = At CStart) ∧
  match p with
  | At s => refines d0 s outs bs
  | InRead k => ∃ n d q, k = (λ b, after_read b d q) ∧ goes_on d0 outs bs d q ∧ n < d
  | InWrite k => ∃ w, k = (λ _, after_reply w) ∧ answers d0 outs bs w
  | Done => ends d0 outs bs
  end.

Lemma after_reply_refines d0 outs bs k : answers d0 outs bs k → refines d0 (after_reply k) outs bs.
Proof. by destruct k. Qed.

Lemma after_read_later b d q : after_read b d q ≠ CStart.
Proof. unfold after_read. destruct b; [done|]. destruct (Parse _ _ _ _) as [[] q']; by destruct (error_ q'.2). Qed.

Lemma conn_inv_see p o p' os : conn_inv p os → see p o = Some p' → conn_inv p' (os ++ [o]).
Proof.
  intros [Hne Hr] Hs. assert (p = At CStart ∨ os ≠ []) as [->|Hos] by (destruct os; [left; by apply Hne|by right]).
  { rewrite (proj2 Hne eq_refl). destruct o; simplify_eq/=. split; [done|]. simpl.
    exists []. split; [done|]. intros rest. simpl. by destruct (spec rest _ _). }
  assert (p ≠ At CStart) as Hp by by intros ->; apply Hos, Hne.
  assert (p' ≠ At CStart → os ++ [o] = [] ↔ p' = At CStart) as Hc by by destruct os.
  unfold conn_inv. rewrite started_at_snoc, puts_snoc, gots_snoc, nonempty_app by done.
  destruct p as [s|k|k|]; [destruct s; simpl in Hr|..|done].
  all: destruct o; try done; cbn [see] in Hs; unfold next, conn_program, conn_next in Hs; simplify_eq; rewrite ?app_nil_r.
  - split; [apply Hc; by destruct b|]. destruct b; simpl; [done|].
    rewrite <- (app_nil_r (puts os)). by eapply (goes_on_stops _ _ _ _ _ (mkInput false 0 [] 0)).
  - split; [apply Hc; by destruct (_ <=? _)|]. destruct (Z.leb_spec deadline z) as [Hd|Hd]; simpl; [|done].
    eapply (goes_on_stops _ _ _ _ _ (mkInput true z [] 0)); [done|done| |].
    + simpl. by rewrite (proj2 (Z.leb_le _ _) Hd).
    + done.
  - split; [by apply Hc|]. by exists now_, deadline, q.
  - case_bool_decide; simplify_eq. split; [by apply Hc|]. by exists k.
  - split; [by apply Hc|]. apply Hr.
  - split; [by apply Hc|]. done.
  - split; [by apply Hc|]. done.
  - destruct Hr as (n & d & q & -> & Hg & Hn).
    split; [apply Hc; intros [= E]; by apply after_read_later in E|]. by apply (after_read_refines _ _ _ n).
  - destruct Hr as (w & -> & Ha). split; [apply Hc; by destruct w|]. by apply after_reply_refines.
Qed.

Lemma conn_reachable_inv r c0 c : conn_init r = Some c0 → reachable conn_step c0 c → conn_inv (where_ c) (trace c).
Proof.
  intros Hi Hr. destruct (stream_client_safe _ _ _ Hi Hr) as [Hp _].
  revert Hp. apply (replay_inv conn_inv); [|intros p o p' os; apply conn_inv_see].
  by split.
Qed.

(** What the specification writes, it writes for these buffers. *)
Lemma goes_on_prefix d0 outs bs d q : goes_on d0 outs bs d q →
  ∃ ins, buffers ins = bs ∧ outs `prefix_of` (spec ins d0 (parser_, new_parser)).1.
Proof. intros [ins [Hb Hi]]. exists ins. split; [done|]. rewrite <- (app_nil_r ins), Hi. simpl. by apply prefix_app_r. Qed.

Lemma ends_prefix d0 outs bs : ends d0 outs bs →
  ∃ ins, buffers ins = bs ∧ outs `prefix_of` (spec ins d0 (parser_, new_parser)).1.
Proof. intros (ins & x & Hb & E & _). exists ins. by rewrite E. Qed.

Lemma answers_prefix d0 outs bs k : answers d0 outs bs k →
  ∃ ins, buffers ins = bs ∧ outs `prefix_of` (spec ins d0 (parser_, new_parser)).1.
Proof. destruct k; [apply ends_prefix|]. intros H. by apply (goes_on_prefix _ _ _ _ _ (H 0)). Qed.

Lemma conn_inv_prefix p os : conn_inv p os →
  ∃ ins, buffers ins = nonempty (gots os) ∧
    puts os `prefix_of` (spec ins (started_at os + read_timeout_) (parser_, new_parser)).1.
Proof.
  intros [Hne Hr]. destruct p as [s|k|k|].
  - destruct s; simpl in Hr; try by eapply goes_on_prefix; apply (Hr 0) || apply Hr.
    + rewrite (proj2 Hne eq_refl). by exists [].
    + destruct (answers_prefix _ _ _ _ Hr) as (ins & Hb & Hp). exists ins. split; [done|]. by etrans; [apply prefix_app_r|].
    + by apply ends_prefix.
    + by apply ends_prefix.
  - destruct Hr as (n & d & q & _ & Hg & _). by eapply goes_on_prefix.
  - destruct Hr as (w & _ & Ha). by eapply answers_prefix.
  - by apply ends_prefix.
Qed.

(** A connection that does what HandleConnection says, safely. *)
Definition conn_serves (c : client conn_at) : Prop :=
  let bs := nonempty (gots (trace c)) in
  let HandleConnection := HandleConnection llhttp_execute errno_name reset method version handler_ read_timeout_
    parser_ (started_at (trace c)) in
  (∃ ins, buffers ins = bs ∧ puts (trace c) `prefix_of` (HandleConnection ins).1) ∧
  (where_ c = Done → ∃ ins x, buffers ins = bs ∧ x ≠ XOutOfInput ∧ HandleConnection ins = (puts (trace c), x)) ∧
  concat bs = received (stream c) ∧
  uv (stream c) ≠ Fault ∧
  (where_ c = Done → strm (stream c) = None ∧ (ended (stream c) = false → gone (uv (stream c)))) ∧
  (∀ s, where_ c = At s → ∀ clock uv_result, is_Some (conn_step (CRun clock uv_result) c)).

Lemma conn_reachable_serves r c0 c : conn_init r = Some c0 → reachable conn_step c0 c → conn_serves c.
Proof.
  intros Hi Hr. unfold conn_serves. pose proof (conn_reachable_inv _ _ _ Hi Hr) as Hc.
  destruct (stream_client_safe _ _ _ Hi Hr) as (_ & Hrec & Huv & Hw).
  split; [by apply (conn_inv_prefix _ _ Hc)|]. split.
  { intros E. rewrite E in Hc. destruct Hc as [_ (ins & x & Hb & E' & Hx)]. by exists ins, x. }
  split; [by rewrite Hrec, concat_nonempty|]. split; [done|]. split.
  - intros E. by rewrite E in Hw.
  - intros s E. by rewrite E in Hw.
Qed.

(** ** The server and its connections *)

(** A connection whose handler Spawn has just been given. *)
Definition spawned_conn (x : TcpStream) : client conn_at :=
  Client (TSys (Some x) (if closed_ x then Closing else Active false) false (negb (closed_ x)) [] [] [] false []) (At CStart) [].

Record http_system := Sys { srv : server; conns : list (client conn_at) }.
Inductive http_label := LServer (l : server_label) | LConn (i : nat) (l : client_label).

Definition http_step (l : http_label) (s : http_system) : option http_system :=
  match l with
  | LServer l =>
      v ← server_step l (srv s);
      Some (Sys v (conns s ++ (spawned_conn <$> drop (length (spawned_ (srv s))) (spawned_ v))))
  | LConn i l => c ← conns s !! i; c' ← conn_step l c; Some (Sys (srv s) (<[i := c']> (conns s)))
  end.

Lemma spawned_conn_init r : conn_init r = Some (spawned_conn (InitFromAccept r new_tcp).1).
Proof.
  unfold conn_init, client_init, polite_step, tcp_step, InitFromAccept. simpl. by destruct (r =? 0).
Qed.

(** Each handler has the stream of its connection, and runs as a connection. *)
Definition handler_of (x : TcpStream) (c : client conn_at) : Prop :=
  (∃ r, x = (InitFromAccept r new_tcp).1) ∧ reachable conn_step (spawned_conn x) c.

Record http_inv (s : http_system) : Prop := {
  hi_srv : server_inv (srv s);
  hi_conns : Forall2 handler_of (spawned_ (srv s)) (conns s);
}.

Lemma handler_serves x c : handler_of x c → conn_serves c.
Proof. intros [[r ->] Hr]. by eapply conn_reachable_serves; [apply spawned_conn_init|]. Qed.
Lemma serve_arrived fuel v : arrived_ (serve fuel v) = arrived_ v.
Proof.
  revert v. induction fuel as [|fuel IH]; intros v; simpl; destruct (negb (running_ v)); try done;
    destruct (Accept_await_ready (listener v)); try done.
  destruct (Accept_await_resume (listener v)). by rewrite IH.
Qed.

(** What a step of Run spawns is what arrived meanwhile. *)
Lemma server_step_spawns l v v' : server_inv v → server_step l v = Some v' →
  ∃ xs, spawned_ v' = spawned_ v ++ xs ∧ Forall (λ x, ∃ r, x = (InitFromAccept r new_tcp).1) xs.
Proof.
  intros Hv Hs. pose proof (server_inv_step _ _ _ Hv Hs) as [<- _]. destruct Hv as [<- _]. unfold server_step in Hs.
  destruct l as [ar br lr|status r|], (at_ v); try done.
  - destruct (Bind ar br (listener v)) as [result l]. injection Hs as <-. exists []. rewrite app_nil_r. split; [|done].
    destruct (negb (result =? 0)); [done|]. destruct (negb (lr =? 0)); [done|]. by rewrite serve_arrived.
  - destruct (OnConnection status r (listener v)) as [l w]. injection Hs as <-.
    exists (if status <? 0 then [] else [(InitFromAccept r new_tcp).1]).
    split; [|destruct (status <? 0); [done|]; constructor; [by exists r|done]].
    destruct w; [destruct (Accept_await_resume l); rewrite serve_arrived|]; simpl; destruct (status <? 0); by rewrite ?app_nil_r.
  - injection Hs as <-. exists []. by rewrite app_nil_r.
  - injection Hs as <-. exists []. by rewrite app_nil_r.
  - injection Hs as <-. exists []. by rewrite app_nil_r.
Qed.

Lemma http_inv_step l s s' : http_inv s → http_step l s = Some s' → http_inv s'.
Proof.
  intros [Hv Hc] Hs. destruct l as [l|i l]; simpl in Hs.
  - destruct (server_step l (srv s)) as [v|] eqn:E; [|done]. injection Hs as <-. split; [by eapply server_inv_step|].
    destruct (server_step_spawns _ _ _ Hv E) as (xs & Ev & Hx). simpl. rewrite Ev, drop_app_length. apply Forall2_app; [done|].
    clear -Hx. induction Hx as [|x xs Hx _ IH]; simpl; [done|]. constructor; [|done]. split; [done|apply reach_refl].
  - destruct (conns s !! i) as [c|] eqn:Ei; [|done]. simpl in Hs. destruct (conn_step l c) as [c'|] eqn:E; [|done].
    injection Hs as <-. split; [done|]. simpl. destruct (Forall2_lookup_r _ _ _ _ _ Hc Ei) as (x & Ex & Hx & Hr).
    rewrite <- (list_insert_id _ _ _ Ex). apply Forall2_insert; [done|]. split; [done|]. by eapply reach_step.
Qed.

End Connection.

(** Two requests on one connection, the first in two reads, then the end of the
    stream: the handle leaks, as [Tcp.tcp_eof_leaks_handle] says. *)
Abbreviation toy_step := (conn_step toy_execute (λ _, []) (λ u, u) (λ _, GET) (λ _, (1, 1)) None 30000 tt).
Definition conn_demo : list client_label :=
  CRun 0 0 :: (* the deadline *)
  [CRun 0 0; CRun 1 0; CRun 1 0; COnRead 0 2 (lit "/a"); CRun 1 0; COnWrite 0 0; CRun 2 0;
   CRun 3 0; CRun 3 0; CRun 3 0; COnRead 0 2 (lit "/b"); CRun 3 (-32); CRun 3 0;
   CRun 40000 0; CRun 40000 0; CRun 40000 0; COnWrite 0 0; CRun 40001 0; CRun 40001 0; COnClose].


(** Two connections, one request on the first, Stop, and the connection that
    ends the wait. *)
Abbreviation toy_http := (http_step toy_execute (λ _, []) (λ u, u) (λ _, GET) (λ _, (1, 1)) None 30000 tt).
Definition http_demo : list http_label :=
  [LServer (HRun 0 0 0); LServer (HConnection 0 0); LServer (HConnection (-1) 0); LServer (HConnection 0 0);
   LConn 0 (CRun 0 0); LConn 1 (CRun 0 0); LConn 0 (CRun 0 0); LConn 0 (CRun 1 0); LConn 0 (CRun 1 0);
   LConn 0 (COnRead 0 2 (lit "/a")); LServer HStop; LConn 0 (CRun 1 0); LServer (HConnection 0 0)].


(** Stop does not wake Run: it keeps waiting in Accept, and the connection that
    ends the wait is still handled. *)
Example server_stop_waits :
  at_ <$> run server_step [HRun 0 0 0; HStop] new_server = Some RAccepting ∧
  (λ s, (at_ s, length (spawned_ s))) <$> run server_step [HRun 0 0 0; HStop; HConnection 0 0] new_server =
    Some (RExited 0, 1%nat).
Proof. done. Qed.

(** ** HttpMethodFromLlhttp *)

(** Over llhttp's constants for the seven methods. *)
Record llhttp_methods := mkMethods {
  HTTP_GET : Z; HTTP_POST : Z; HTTP_PUT : Z; HTTP_DELETE : Z; HTTP_PATCH : Z; HTTP_HEAD : Z; HTTP_OPTIONS : Z }.
Definition HttpMethodFromLlhttp (c : llhttp_methods) (method : Z) : HttpMethod :=
  if method =? HTTP_GET c then GET
  else if method =? HTTP_POST c then POST
  else if method =? HTTP_PUT c then PUT
  else if method =? HTTP_DELETE c then DELETE
  else if method =? HTTP_PATCH c then PATCH
  else if method =? HTTP_HEAD c then HEAD
  else if method =? HTTP_OPTIONS c then OPTIONS
  else UNKNOWN.
