(* ===== verification/EchoServer.v ===== *)
(** * The echo servers ([examples/04_tcp_echo_server.cpp],
      [examples/06_iouring_echo_server.cpp])

    Clients of the library.  The handler of example 04 is a program over the
    libuv stream ([StreamClient]); that of example 06 a loop over the io_uring
    stream ([UringTcp]).  The accept loops of the two differ in one line: 06
    gives the handler's task to Spawn, 04 schedules its handle and lets the task
    go out of scope. *)
From Stdlib Require Import Ascii String.
From S2P Require Import Prelude Kernel Trace Tcp StreamClient SyncTcp IoUring UringTcp Task.
Local Open Scope Z_scope.

Definition echo (message : bytes) : bytes := list_ascii_of_string "Echo: " ++ message.

(** ** HandleClient over libuv *)

Inductive echo_at := ELoop | ERead | EWrite (message : bytes) | EClose | EEnd.

Definition HandleClient_next (s : echo_at) : action echo_at :=
  match s with
  | ELoop => AIsOpen (λ b, if b then ERead else EClose)
  | ERead => ARead (λ data, match data with [] => EClose | _ => EWrite data end)
  | EWrite message => AWrite (echo message) (λ _, ELoop)
  | EClose => AClose EEnd
  | EEnd => AEnd
  end.

#[export] Instance echo_program : StreamProgram echo_at :=
  { start := ELoop; next := HandleClient_next; usable s := match s with ERead | EWrite _ => true | _ => false end }.

#[export] Instance echo_laws : StreamLaws echo_at.
Proof. split; simpl; [done|..]; intros []; intros; simplify_eq/=; done. Qed.

(** What was written is the echo of what was read, but for one message that is
    about to be written. *)
Definition echo_inv (p : pc echo_at) (os : list obs) : Prop :=
  let answered := puts os = echo <$> nonempty (gots os) in
  match p with
  | At (EWrite m) => puts os ++ [echo m] = echo <$> nonempty (gots os)
  | InRead k => answered ∧ k = (λ data, match data with [] => EClose | _ => EWrite data end)
  | InWrite k => answered ∧ k = (λ _, ELoop)
  | _ => answered
  end.

Lemma echo_inv_see p o p' os : echo_inv p os → see p o = Some p' → echo_inv p' (os ++ [o]).
Proof.
  intros Hi Hs. destruct p as [s|k|k|]; [destruct s|..|done].
  all: destruct o; try done; cbn [see] in Hs; unfold next, echo_program, HandleClient_next in Hs; simplify_eq.
  all: unfold echo_inv in *; try case_bool_decide; simplify_eq; rewrite ?puts_snoc, ?gots_snoc, ?nonempty_app; simpl.
  - destruct b; by rewrite !app_nil_r.
  - by rewrite !app_nil_r.
  - by rewrite app_nil_r.
  - by rewrite !app_nil_r.
  - by rewrite !app_nil_r.
  - destruct Hi as [Hi ->]. destruct b; rewrite ?app_nil_r; [done|]. by rewrite Hi, fmap_app.
  - destruct Hi as [Hi ->]. by rewrite !app_nil_r.
Qed.

Lemma echo_reachable_inv r c0 c : client_init r = Some c0 → reachable client_step c0 c → echo_inv (where_ c) (trace c).
Proof.
  intros Hi Hr. destruct (stream_client_safe _ _ _ Hi Hr) as [Hp _]. revert Hp.
  by apply (replay_inv echo_inv); [|intros p o p' os; apply echo_inv_see].
Qed.

(** An accepted connection is echoed.  At any moment what the handler has
    written is the echo of the messages it has read, in order, and no more than
    one is missing, none when it waits for the next one or is done; the messages
    are, concatenated, the bytes libuv delivered; and whenever it waits for a
    message, any that arrives is echoed at the handler's next step.  libuv never
    sees the handle in the wrong state, and when the handler is done the stream
    object is gone, and its handle is being closed or freed, unless the stream
    had ended. *)
Theorem echo_client_echoes r c0 c :
  client_init r = Some c0 → reachable client_step c0 c →
  let messages := nonempty (gots (trace c)) in
  (∃ missing, echo <$> messages = puts (trace c) ++ missing ∧ (length missing ≤ 1)%nat ∧
     ((∀ s, where_ c ≠ At s) → missing = [])) ∧
  concat messages = received (stream c) ∧
  (∀ k suggested nread data clock uv_result, where_ c = InRead k → 0 < nread <= alloc_size suggested → size data = nread →
     ∃ c', run client_step [COnRead suggested nread data; CRun clock uv_result] c = Some c' ∧
       puts (trace c') = puts (trace c) ++ [echo data]) ∧
  uv (stream c) ≠ Fault ∧
  (where_ c = Done → strm (stream c) = None ∧ (ended (stream c) = false → gone (uv (stream c)))).
Proof.
  intros Hi Hr messages. pose proof (echo_reachable_inv _ _ _ Hi Hr) as He.
  destruct (stream_client_safe _ _ _ Hi Hr) as (_ & Hrec & Huv & Hw). split; [|split; [|split]].
  - assert (puts (trace c) = echo <$> messages ∨ ∃ m, where_ c = At (EWrite m) ∧ puts (trace c) ++ [echo m] = echo <$> messages)
      as [E|(m & Ew & E)].
    { unfold echo_inv in He. destruct (where_ c) as [[| |m| |]|k|k|]; try (by left); try (left; by destruct He).
      right. by exists m. }
    + exists []. rewrite app_nil_r. split_and!; [done|simpl; lia|done].
    + exists [echo m]. split_and!; [done|done|]. intros Hn. by destruct (Hn (EWrite m)).
  - unfold messages. by rewrite Hrec, concat_nonempty.
  - intros k sug nread data clock ur Ew Hn Hd. rewrite Ew in Hw, He. destruct He as [_ ->].
    destruct (Hw sug nread data) as (c1 & E1 & Ew1 & Et); [lia|lia|].
    destruct data as [|ch data]; [rewrite size_nil in Hd; lia|].
    assert (reachable client_step c0 c1) as Hr1 by by eapply reach_step.
    destruct (stream_client_safe _ _ _ Hi Hr1) as (_ & _ & _ & Hw1). rewrite Ew1 in Hw1.
    destruct (Hw1 clock ur) as [c2 E2]. exists c2. split; [cbn [run]; rewrite E1; cbn [mbind option_bind]; cbn [run]; by rewrite E2|].
    assert (next (EWrite (ch :: data)) = AWrite (echo (ch :: data)) (λ _, ELoop)) as En by done.
    rewrite (write_step_puts _ _ _ _ _ _ _ Ew1 En E2), Et. unfold puts. rewrite omap_app. simpl. by rewrite app_nil_r.
  - split; [done|]. intros E. by rewrite E in Hw.
Qed.

Definition echo_demo : list client_label :=
  [CRun 0 0; CRun 0 0; COnRead 0 2 (list_ascii_of_string "hi"); CRun 0 0; COnWrite 0 0; CRun 0 0; CRun 0 0;
   COnRead 0 (-4095) []; CRun 0 0; CRun 0 0].

Lemma echo_client_echoes_witness :
  ∃ c0 c, client_init (St := echo_at) 0 = Some c0 ∧ run client_step echo_demo c0 = Some c ∧
    puts (trace c) = [list_ascii_of_string "Echo: hi"] ∧ where_ c = Done ∧
    concat (nonempty (gots (trace c))) = received (stream c).
Proof.
  eexists _, _. split; [vm_compute; reflexivity|]. split; [vm_compute; reflexivity|].
  split; [vm_compute; reflexivity|]. split; [vm_compute; reflexivity|].
  refine (proj1 (proj2 (echo_client_echoes 0 _ _ _ _))); [vm_compute; reflexivity|].
  apply reachable_run. exists echo_demo. vm_compute. reflexivity.
Defined.

(** ** HandleClient over io_uring *)

Section Uring.
Context {K : Type} `{Ring K}.

(** [None]: out of fuel, one unit per message. *)
Fixpoint HandleClient_loop (fuel : nat) (client : IoUringTcpStream) : io K (option IoUringTcpStream) :=
  if UringTcp.IsOpen client then
    match fuel with
    | O => ret None
    | S fuel =>
        let* (data, client) := Read 4096 client in
        match data with
        | [] => ret (Some client)
        | _ => let* _ := Write (echo data) client in HandleClient_loop fuel client
        end
    end
  else ret (Some client).

(** The frame's end destroys the stream. *)
Definition HandleClient (fuel : nat) (client : IoUringTcpStream) : io K (option IoUringTcpStream) :=
  let* r := HandleClient_loop fuel client in
  match r with
  | None => ret None
  | Some client => let* client := UringTcp.Close client in let* client := stream_dtor client in ret (Some client)
  end.
End Uring.

(** What was sent for each message: how many of the echoes are cut short. *)
Definition cut_short (messages sent : list bytes) : nat :=
  length (filter (λ mw, mw.2 ≠ echo mw.1) (zip messages sent)).

Section UringTheory.
Context {K : Type} `{RingLaws K}.
Implicit Types (k : traced K).

(** The messages taken from a descriptor, and what was sent for each: its echo,
    or less of it, once per send that failed. *)
Record echoed (fd : Z) (messages sent : list bytes) k k' : Prop := {
  echoed_handed : handed fd k' = handed fd k ++ concat messages;
  echoed_accepted : Kernel.accepted fd k' = Kernel.accepted fd k ++ concat sent;
  echoed_sent : Forall2 prefix sent (echo <$> messages);
  echoed_sizes : Forall (λ m, 0 < size m <= 4096) messages;
  echoed_failed : sends_failed (cut_short messages sent) k k';
  echoed_log : fd_log k' = fd_log k;
}.

Lemma take_z_prefix n (b : bytes) : take_z n b `prefix_of` b.
Proof. unfold take_z. exists (drop (Z.to_nat n) b). by rewrite take_drop. Qed.
Lemma take_z_short n (b : bytes) : 0 < size b → n <= size b →
  (if (n =? size b)%Z then 0 else 1)%nat = length (filter (λ mw : bytes * bytes, mw.2 ≠ mw.1) [(b, take_z n b)]).
Proof.
  intros Hb Hn. rewrite filter_cons. simpl. destruct (Z.eqb_spec n (size b)) as [->|Hne]; case_decide as Hd; try done.
  - destruct Hd. by apply take_z_all.
  - apply (f_equal size) in Hd. unfold size, take_z in *. rewrite length_take in Hd. lia.
Qed.
Lemma cut_short_cons m n ms ws : n <= size (echo m) →
  cut_short (m :: ms) (take_z n (echo m) :: ws) = ((if (n =? size (echo m))%Z then 0 else 1) + cut_short ms ws)%nat.
Proof.
  intros Hn. rewrite take_z_short by (done || unfold echo, size; rewrite length_app; simpl; lia). unfold cut_short. simpl. rewrite !filter_cons. simpl. by case_decide.
Qed.

(** One round of the loop, followed by the rest. *)
Lemma echoed_cons fd m n ms ws k k1 k2 k3 : 0 < size m <= 4096 → n <= size (echo m) →
  only_handed fd k k1 → handed fd k1 = handed fd k ++ m → sends_failed 0 k k1 →
  only_accepted fd k1 k2 → Kernel.accepted fd k2 = Kernel.accepted fd k1 ++ take_z n (echo m) →
  sends_failed (if (n =? size (echo m))%Z then 0 else 1)%nat k1 k2 →
  echoed fd ms ws k2 k3 → echoed fd (m :: ms) (take_z n (echo m) :: ws) k k3.
Proof.
  intros Hm Hn (El & Ea & _) Eh Ef (El2 & Eh2 & _) Ea2 Ef2 [Eh3 Ea3 Hs Hz Ef3 El3].
  split; cbn [concat]; rewrite ?fmap_cons.
  - by rewrite Eh3, Eh2, Eh, app_assoc.
  - by rewrite Ea3, Ea2, Ea, app_assoc.
  - constructor; [apply take_z_prefix|done].
  - by constructor.
  - rewrite cut_short_cons by done. apply (sends_failed_trans 0 _ _ k1); [done|]. by eapply sends_failed_trans.
  - by rewrite El3, El2, El.
Qed.

Lemma echoed_nil fd k k' : only_handed fd k k' → handed fd k' = handed fd k → sends_failed 0 k k' → echoed fd [] [] k k'.
Proof. intros (El & Ea & _) Eh Ef. split; cbn [concat]; rewrite ?app_nil_r; auto. Qed.

Lemma HandleClient_loop_spec client : UringTcp.IsOpen client = true → ∀ fuel k,
  wp (HandleClient_loop fuel client) (λ r k', ∃ messages sent, echoed (fd_ client) messages sent k k' ∧
    (length messages ≤ fuel)%nat ∧ (r = None → length messages = fuel) ∧
    (∀ c, r = Some c → c = client ∨ c = mkStream (fd_ client) true)) k.
Proof.
  intros Ho. induction fuel as [|fuel IH]; intros k; cbn [HandleClient_loop]; rewrite Ho.
  { apply wp_ret. exists [], []. split; [apply echoed_nil; [done..|apply sends_failed_refl]|]. done. }
  apply wp_bind. eapply wp_mono; [|apply wp_and; [exact (uring_read_exact 4096 client k ltac:(lia))|apply Read_no_send]].
  intros [m c1] k1 [(Ho1 & Eh & Hsz & Hc) Ef]. cbn [fst snd] in *.
  destruct m as [|ch m].
  { apply wp_ret. exists [], []. split; [apply echoed_nil; [done|by rewrite Eh, app_nil_r|done]|].
    split_and!; [simpl; lia|done|]. intros c [= <-]. destruct Hc as [->|(_ & _ & ->)]; auto. }
  assert (c1 = client) as -> by (destruct Hc as [|[? _]]; done).
  assert (size (ch :: m) > 0) as Hpos by (unfold size; simpl; lia).
  assert (size (echo (ch :: m)) < size_mod) as Hfit by (unfold echo, size_mod, size in *; rewrite length_app; simpl in *; lia).
  apply wp_bind. eapply wp_mono; [|apply wp_and; [exact (uring_write_reports _ client k1 Hfit)|by apply Write_fails]].
  intros r k2 [[Ho2 [[E _]|(_ & n & Er & Hn & Ea2)]] (n2 & Er2 & Ef2)]; [congruence|].
  assert (n2 = n) as -> by congruence.
  eapply wp_mono; [|apply IH]. intros r2 k3 (ms & ws & He & Hl & Hne & Hs).
  exists ((ch :: m) :: ms), (take_z n (echo (ch :: m)) :: ws). split.
  { eapply echoed_cons; [lia|done..]. }
  split_and!; [simpl; lia|intros E; simpl; by rewrite Hne|done].
Qed.

(** The messages of the peer bound the rounds of the loop. *)
Lemma echoed_length fd ms ws k k' : echoed fd ms ws k k' → Z.of_nat (length ms) <= size (handed fd k') - size (handed fd k).
Proof.
  intros [Eh _ _ Hz _ _]. rewrite Eh. unfold size. rewrite length_app.
  assert (length ms ≤ length (concat ms))%nat; [|lia]. clear Eh. induction Hz as [|m ms Hm _ IH]; simpl; [lia|].
  rewrite length_app. unfold size in Hm. lia.
Qed.

(** C26. The io_uring handler echoes.  From an open stream it takes messages of at
    most 4096 bytes, and sends for each of them, in order, its whole echo, unless
    a send fails on the way, when it sends the part before: exactly as many of
    the echoes are cut short as sends have failed, none if none did.  It returns
    as soon as a read gives nothing, so at the latest after as many rounds as the
    peer sends bytes.  It then leaves the descriptor closed, or, at the end of
    the stream, open and lost ([UringTcp.uring_eof_leaks_fd]). *)
Theorem uring_client_echoes fuel client k : UringTcp.IsOpen client = true →
  wp (HandleClient fuel client) (λ r k', ∃ messages sent cs,
    handed (fd_ client) k' = handed (fd_ client) k ++ concat messages ∧
    Kernel.accepted (fd_ client) k' = Kernel.accepted (fd_ client) k ++ concat sent ∧
    Forall2 prefix sent (echo <$> messages) ∧ made cs k k' ∧ length (omap failed_send cs) = cut_short messages sent ∧
    Forall (λ m, 0 < size m <= 4096) messages ∧
    (size (handed (fd_ client) k') - size (handed (fd_ client) k) < Z.of_nat fuel → r ≠ None) ∧
    (∀ c, r = Some c →
       (fd_ c < 0 ∧ fd_log k' = fd_log k ++ [Closed (fd_ client)]) ∨
       (c = mkStream (fd_ client) true ∧ fd_log k' = fd_log k))) k.
Proof.
  intros Ho. wp_apply (HandleClient_loop_spec client Ho fuel k). intros r k1 (ms & ws & He & Hl & Hn & Hc).
  pose proof (echoed_length _ _ _ _ _ He) as Hlen. destruct He as [Eh Ea Hs Hz (cs & Hm & Hf) El].
  destruct r as [c|]; [|apply wp_ret; exists ms, ws, cs; split_and!; try done; intros; rewrite Hn in Hlen by done; lia].
  pose proof Ho as Ho'. unfold UringTcp.IsOpen in Ho'. apply andb_prop in Ho' as [Hfd Hcl].
  destruct (Hc c eq_refl) as [->| ->]; unfold stream_dtor, UringTcp.Close.
  - rewrite Hfd, Hcl. cbn [andb]. apply wp_bind. wp_traced close_law (λ _ : unit, CClose). intros _ k2 [(El2 & Eh2 & Ea2) Hm2].
    apply wp_ret, wp_bind, wp_ret, wp_ret. exists ms, ws, (cs ++ [CClose]). rewrite Eh2, Ea2.
    split_and!; try done; [by eapply made_trans|by rewrite omap_app, app_nil_r|].
    intros c [= <-]. left. by rewrite El2, El.
  - apply wp_bind, wp_ret, wp_bind, wp_ret, wp_ret. exists ms, ws, cs. split_and!; try done. intros c [= <-]. by right.
Qed.
End UringTheory.

(** A peer that sends five bytes; a call transfers at most four. *)
Definition echo_peer : traced loopback := Traced (mkLoop [] 5 [] (list_ascii_of_string "hello") 4 false []) [].

Lemma uring_client_echoes_witness :
  let x := HandleClient 6 (mkStream 4 false) echo_peer in
  UringTcp.IsOpen (mkStream 4 false) = true ∧ x.1 = Some (mkStream 4 true) ∧
  SyncTcp.answers (Trace.system x.2) = list_ascii_of_string "Echo: hellEcho: o" ∧
  calls_made x.2 = [URecv 4; USend 4; USend 4; USend 2; URecv 1; USend 4; USend 3; URecv 0] ∧
  ∃ messages sent cs, handed 4 x.2 = concat messages ∧ Kernel.accepted 4 x.2 = concat sent ∧ made cs echo_peer x.2 ∧
    length (omap failed_send cs) = cut_short messages sent.
Proof.
  split; [reflexivity|]. split; [vm_compute; reflexivity|]. split; [vm_compute; reflexivity|]. split; [vm_compute; reflexivity|].
  destruct (uring_client_echoes 6 (mkStream 4 false) echo_peer eq_refl) as (ms & ws & cs & Eh & Ea & _ & Hm & Hf & _).
  exists ms, ws, cs. split; [exact Eh|]. split; [exact Ea|]. split; [exact Hm|exact Hf].
Defined.

(** ** RunServer *)

Definition MAX_CONNECTIONS : Z := 3.

Inductive run_at := Starting | Accepting | Returned.

(** [frames]: the handlers' coroutine frames that exist; [queue]: the handles
    given to the executor; [running]: the handlers that it has resumed and that
    have not ended.  [ub]: a destroyed frame was resumed. *)
Record echo_server := mkServer {
  at_ : run_at;
  client_id : Z;
  g_connection_count : Z;
  stopped : bool;
  fresh : handle;
  frames : list handle;
  queue : list handle;
  running : list handle;
  ub : bool;
}.
Definition new_server : echo_server := mkServer Starting 0 0 false 0%nat [] [] [] false.

Inductive server_label :=
  | EStart (bind_result listen_result : Z)
  | EAccepted (client : bool)                    (* false: Accept gave a null pointer *)
  | ETurn                                        (* the executor resumes the next handle *)
  | EFinish (h : handle).                        (* a handler gets to its end *)

Section RunServer.
(** The frames destroyed when the body of the loop, where the task was created,
    ends. *)
Context (body_end : handle → list handle).

Definition remove (hs : list handle) (l : list handle) : list handle := filter (λ h, h ∉ hs) l.

(** The head of the loop. *)
Definition run_loop (s : echo_server) : echo_server :=
  mkServer (if g_connection_count s <? MAX_CONNECTIONS then Accepting else Returned) (client_id s) (g_connection_count s)
    (stopped s) (fresh s) (frames s) (queue s) (running s) (ub s).

Definition spawn_client (s : echo_server) : echo_server :=
  let h := fresh s in
  mkServer (at_ s) (client_id s + 1) (g_connection_count s) (stopped s) (S h)
    (remove (body_end h) (h :: frames s)) (queue s ++ [h]) (running s) (ub s).

(** What HandleClient does after its Close. *)
Definition count_client (h : handle) (s : echo_server) : echo_server :=
  let n := g_connection_count s + 1 in
  mkServer (at_ s) (client_id s) n (stopped s || (MAX_CONNECTIONS <=? n)) (fresh s)
    (remove [h] (frames s)) (queue s) (remove [h] (running s)) (ub s).

Definition server_step (l : server_label) (s : echo_server) : option echo_server :=
  if ub s then None else
  match l with
  | EStart br lr =>
      match at_ s with
      | Starting =>
          Some (if negb (br =? 0) || negb (lr =? 0)
                then mkServer Returned (client_id s) (g_connection_count s) true (fresh s) (frames s) (queue s) (running s) (ub s)
                else run_loop s)
      | _ => None
      end
  | EAccepted client =>
      match at_ s with
      | Accepting => Some (run_loop (if client then spawn_client s else s))
      | _ => None
      end
  | ETurn =>
      match queue s with
      | h :: rest =>
          Some (if bool_decide (h ∈ frames s)
                then mkServer (at_ s) (client_id s) (g_connection_count s) (stopped s) (fresh s) (frames s) rest (running s ++ [h]) false
                else mkServer (at_ s) (client_id s) (g_connection_count s) (stopped s) (fresh s) (frames s) rest (running s) true)
      | [] => None
      end
  | EFinish h => if bool_decide (h ∈ running s) then Some (count_client h s) else None
  end.
End RunServer.

(** [Spawn(executor, HandleClient(...))]: the frame is the detached task's. *)
Definition spawned (h : handle) : list handle := [].
(** [auto handler = HandleClient(...)]: [~Task] destroys the frame. *)
Definition scheduled (h : handle) : list handle := Task_dtor (Task_ctor h).

Record spawned_inv (s : echo_server) : Prop := {
  si_ub : ub s = false;
  si_frames : frames s ≡ₚ queue s ++ running s;
  si_nodup : NoDup (queue s ++ running s);
  si_fresh : Forall (λ h, h < fresh s)%nat (queue s ++ running s);
  si_count : client_id s = g_connection_count s + Z.of_nat (length (queue s ++ running s));
  si_nonneg : 0 <= g_connection_count s;
  si_stop : MAX_CONNECTIONS <= g_connection_count s → stopped s = true;
  si_stopped : stopped s = true → MAX_CONNECTIONS <= g_connection_count s ∨ (at_ s = Returned ∧ client_id s = 0);
  si_start : at_ s = Starting → client_id s = 0;
}.

Lemma remove_nil l : remove [] l = l.
Proof. unfold remove. induction l as [|h l IH]; [done|]. rewrite filter_cons_True by set_solver. by f_equal. Qed.

Lemma remove_absent h l : h ∉ l → remove [h] l = l.
Proof.
  unfold remove. induction l as [|x l IH]; intros Hn; [done|].
  rewrite filter_cons_True by set_solver. f_equal. apply IH. set_solver.
Qed.

#[local] Instance remove_proper hs : Proper (Permutation ==> Permutation) (remove hs).
Proof. intros l l' E. unfold remove. by rewrite E. Qed.

Lemma remove_head h l : h ∉ l → remove [h] (h :: l) = l.
Proof. intros Hn. rewrite <- (remove_absent h l Hn) at 2. unfold remove. by rewrite filter_cons_False by set_solver. Qed.

Lemma run_loop_inv s : spawned_inv s → at_ s ≠ Returned ∨ client_id s ≠ 0 → spawned_inv (run_loop s).
Proof.
  intros [] Hat. split; simpl; try done.
  - intros Hs. destruct (si_stopped0 Hs) as [|[E1 E2]]; [by left|]. destruct Hat; congruence.
  - by destruct (_ <? _).
Qed.

Lemma spawn_client_inv s : spawned_inv s → at_ s = Accepting → spawned_inv (spawn_client spawned s).
Proof.
  intros [] Ha. assert (fresh s ∉ queue s ++ running s) as Hf.
  { intros Hin. rewrite Forall_forall in si_fresh0. specialize (si_fresh0 _ Hin). lia. }
  assert ((queue s ++ [fresh s]) ++ running s ≡ₚ fresh s :: queue s ++ running s) as E.
  { rewrite <- app_assoc. simpl. by rewrite Permutation_middle. }
  split; simpl; rewrite ?remove_nil, ?E; simpl; try done.
  - by rewrite si_frames0.
  - by constructor.
  - constructor; [lia|]. eapply Forall_impl; [exact si_fresh0|]. simpl. lia.
  - lia.
  - intros Hs. destruct (si_stopped0 Hs) as [|[E1 _]]; [by left|congruence].
  - congruence.
Qed.

Lemma count_client_inv h s : spawned_inv s → h ∈ running s → spawned_inv (count_client h s).
Proof.
  intros [] Hin. apply elem_of_Permutation in Hin as [rest Er].
  assert (queue s ++ running s ≡ₚ h :: queue s ++ rest) as E by (rewrite Er; by rewrite <- Permutation_middle).
  rewrite E in si_nodup0, si_frames0, si_count0, si_fresh0. apply NoDup_cons in si_nodup0 as [Hn Hnd].
  assert (remove [h] (running s) ≡ₚ rest) as E2 by (rewrite Er, remove_head; set_solver).
  assert (MAX_CONNECTIONS <= g_connection_count s + 1 → (MAX_CONNECTIONS <=? g_connection_count s + 1) = true) as Hm
    by apply Z.leb_le.
  split; simpl; rewrite ?E2; try done.
  - by rewrite si_frames0, remove_head.
  - by inversion si_fresh0.
  - simpl in si_count0. lia.
  - lia.
  - intros H. by rewrite Hm, orb_true_r.
  - intros [Hs|Hs]%orb_prop; [|left; by apply Z.leb_le]. destruct (si_stopped0 Hs) as [|[_ E1]]; [left; lia|].
    simpl in si_count0. lia.
Qed.

Lemma spawned_inv_step l s s' : spawned_inv s → server_step spawned l s = Some s' → spawned_inv s'.
Proof.
  intros Hi Hs. unfold server_step in Hs. rewrite (si_ub _ Hi) in Hs. destruct l as [br lr|client| |h].
  - destruct (at_ s) eqn:Ea; try done. destruct (_ || _); injection Hs as <-; [|by apply run_loop_inv; [|left; congruence]].
    destruct Hi. split; simpl; try done. intros _. right. auto.
  - destruct (at_ s) eqn:Ea; try done. injection Hs as <-. destruct client; (apply run_loop_inv; [|left; simpl; congruence]); [|done].
    by apply spawn_client_inv.
  - destruct Hi. destruct (queue s) as [|h rest] eqn:Eq; [done|].
    assert (rest ++ running s ++ [h] ≡ₚ (h :: rest) ++ running s) as E.
    { rewrite app_assoc, <- Permutation_cons_append. done. }
    rewrite bool_decide_true in Hs by (rewrite si_frames0; set_solver). injection Hs as <-.
    split; simpl; rewrite ?E; done.
  - case_bool_decide; [|done]. injection Hs as <-. by apply count_client_inv.
Qed.

(** The server of example 06 handles its connections.  Whatever comes, binding
    that fails, null clients, handlers that end in any order, no destroyed frame
    is ever resumed; every accepted client is counted once, as waiting to be
    resumed, running, or ended; the next handle given to the executor is that of
    a live frame, which it resumes; and the executor is stopped exactly when
    three clients have ended, or nothing was ever accepted. *)
Theorem run_server_spawns s : reachable (server_step spawned) new_server s →
  ub s = false ∧
  client_id s = g_connection_count s + Z.of_nat (length (queue s ++ running s)) ∧ NoDup (queue s ++ running s) ∧
  (∀ h rest, queue s = h :: rest → ∃ s', server_step spawned ETurn s = Some s' ∧ queue s' = rest ∧ running s' = running s ++ [h]) ∧
  (∀ h, h ∈ running s → ∃ s', server_step spawned (EFinish h) s = Some s' ∧ g_connection_count s' = g_connection_count s + 1) ∧
  (MAX_CONNECTIONS <= g_connection_count s → stopped s = true) ∧
  (stopped s = true → MAX_CONNECTIONS <= g_connection_count s ∨ client_id s = 0).
Proof.
  intros Hr. assert (spawned_inv s) as [].
  { refine (reachable_inv (server_step spawned) spawned_inv _ s _ spawned_inv_step Hr). by split; simpl; try constructor. }
  split_and!; try done.
  - intros h rest Eq. unfold server_step. rewrite si_ub0, Eq, bool_decide_true by (rewrite si_frames0, Eq; set_solver).
    by eexists.
  - intros h Hin. unfold server_step. rewrite si_ub0, bool_decide_true by done. by eexists.
  - intros Hs. destruct (si_stopped0 Hs) as [|[_ ?]]; auto.
Qed.

Definition server_demo : list server_label :=
  [EStart 0 0; EAccepted true; EAccepted true; ETurn; EAccepted false; EFinish 0%nat; ETurn; EAccepted true; EFinish 1%nat; ETurn; EFinish 2%nat].

Lemma run_server_spawns_witness :
  ∃ s, run (server_step spawned) server_demo new_server = Some s ∧ g_connection_count s = 3 ∧ stopped s = true ∧
    client_id s = g_connection_count s + Z.of_nat (length (queue s ++ running s)).
Proof.
  eexists. split; [vm_compute; reflexivity|]. split; [reflexivity|]. split; [reflexivity|].
  refine (proj1 (proj2 (run_server_spawns _ _))). apply reachable_run. exists server_demo. vm_compute. reflexivity.
Defined.

(** The server of example 04 handles none: the frame of a handler is destroyed
    when the loop's body ends, before the executor resumes its handle. *)
Theorem run_server_dangles s : reachable (server_step scheduled) new_server s → ub s = false →
  running s = [] ∧ g_connection_count s = 0 ∧
  ∀ h rest, queue s = h :: rest → ∃ s', server_step scheduled ETurn s = Some s' ∧ ub s' = true.
Proof.
  intros Hr. assert (ub s = false → frames s = [] ∧ running s = [] ∧ g_connection_count s = 0) as Hi.
  { revert Hr. apply (reachable_inv (server_step scheduled) (λ s, ub s = false → frames s = [] ∧ running s = [] ∧ g_connection_count s = 0)); [done|].
    clear s. intros l s s' Hi Hs Hu'. unfold server_step in Hs. destruct (ub s) eqn:Eu; [done|].
    destruct (Hi eq_refl) as (Hf & Hrn & Hc). destruct l as [br lr|client| |h].
    - destruct (at_ s); try done. destruct (_ || _); by injection Hs as <-.
    - destruct (at_ s); try done. injection Hs as <-. destruct client; simpl; [|done].
      rewrite Hf. split; [|done]. change (scheduled (fresh s)) with [fresh s]. by rewrite remove_head by set_solver.
    - destruct (queue s) as [|h rest]; [done|]. rewrite Hf, bool_decide_false in Hs by set_solver. by injection Hs as <-.
    - rewrite Hrn, bool_decide_false in Hs by set_solver. done. }
  intros Hu. destruct (Hi Hu) as (Hf & Hrn & Hc). split_and!; [done|done|]. intros h rest Eq.
  unfold server_step. rewrite Hu, Eq, Hf, bool_decide_false by set_solver. by eexists.
Qed.

Lemma run_server_dangles_witness :
  ∃ s, run (server_step scheduled) [EStart 0 0; EAccepted true] new_server = Some s ∧ ub s = false ∧ g_connection_count s = 0.
Proof.
  eexists. split; [vm_compute; reflexivity|]. split; [reflexivity|].
  refine (proj1 (proj2 (run_server_dangles _ _ _))); [|reflexivity].
  apply reachable_run. exists [EStart 0 0; EAccepted true]. vm_compute. reflexivity.
Defined.
