(* ===== verification/Examples.v ===== *)
(** * The example programs ([examples/01_basic_task.cpp],
      [examples/02_generator.cpp], [examples/05_http_server.cpp],
      [examples/07_stdexec_bridge.cpp])

    Clients of the library, proved on its models: the coroutines of example 01 on
    the machine of [Task], the generators of example 02 on that of [Generator],
    the request handler of example 05 on the requests and responses of [Http],
    the coroutines and the cancellation of example 07 on the adapters of
    [Execution].  What they print is left out. *)
From Stdlib Require Import Ascii String.
From S2P Require Import Prelude Cancellation Execution Task Generator Http.
Local Open Scope Z_scope.

(** ** 01: tasks *)

Module BasicTask.
(** The tasks return [int], [std::string] or nothing. *)
Inductive value := VInt (z : Z) | VString (s : string) | VVoid.
#[export] Instance value_void : VoidValue value := VVoid.
Definition task : Type := code (V := value) (Op := Empty_set).

Definition ComputeAnswer : task := CoReturn (VInt 42).
Definition DoubleTheAnswer : task :=
  CoAwait TaskT ComputeAnswer (λ answer, CoReturn match answer with VInt n => VInt (n * 2) | v => v end).
Definition PrintMessage (msg : string) : task := CoReturn void.
Definition lambda_task : task := CoReturn (VString "Lambda coroutines work too!").

(** They run to their end without suspending, and leave their own frame only,
    with the result that SyncWait takes in its promise. *)
Definition ends (kd : kind) (t : task) (n : nat) : option (gmap Prelude.handle _ * option Prelude.handle) :=
  (λ s, (Task.frames s, current s)) <$> steps n (start kd t []).
Definition result (v : value) : promise_type := PromiseT (Task.mkPromise (Some v) None false).

Example answers :
  steps 3 (start TaskT ComputeAnswer []) = None ∧
  ends TaskT ComputeAnswer 2 = Some ({[ root := Task.mkFrame Final (result (VInt 42)) ]}, None) ∧
  ends TaskT DoubleTheAnswer 6 = Some ({[ root := Task.mkFrame Final (result (VInt 84)) ]}, None) ∧
  ends TaskVoid (PrintMessage "Hello from hotcoco!") 2 =
    Some ({[ root := Task.mkFrame Final (PromiseVoid new_void_promise) ]}, None) ∧
  ends TaskT lambda_task 2 =
    Some ({[ root := Task.mkFrame Final (result (VString "Lambda coroutines work too!")) ]}, None).
Proof. split_and!; vm_compute; reflexivity. Qed.
End BasicTask.

(** ** 02: generators *)

Module Generators.
(** [int] and [long long]. *)
Definition fits (w : Z) (z : Z) : Prop := - 2 ^ (w - 1) <= z < 2 ^ (w - 1).

(** The body of Range: before its loop, or suspended in the loop at [i]. *)
Inductive range_at := RStart | RYield (i : Z).
Definition Range (start end_ : Z) (l : range_at) : body_step (L := range_at) (V := Z) :=
  let i := match l with RStart => start | RYield i => i + 1 end in
  if i <? end_ then YieldRef (RYield i) else Return.
Definition range_variable (l : range_at) : Z := match l with RYield i => i | RStart => 0 end.

(** The body of Fibonacci: [a] and [b], where it is suspended at [co_yield a]. *)
Inductive fib_at := FStart | FYield (a b : Z).
Definition Fibonacci (l : fib_at) : body_step (L := fib_at) (V := Z) :=
  YieldRef (match l with FStart => FYield 0 1 | FYield a b => FYield b (a + b) end).
Definition fib_variable (l : fib_at) : Z := match l with FYield a _ => a | FStart => 0 end.

Inductive squares_at := SStart | SYield (i : Z).
Definition Squares (n : Z) (l : squares_at) : body_step (L := squares_at) (V := Z) :=
  let i := match l with SStart => 1 | SYield i => i + 1 end in
  if i <=? n then YieldValue (i * i) (SYield i) else Return.

(** Where a counting loop goes on: from its start, or from the next number. *)
Definition range_next (start : Z) (l : range_at) : Z := match l with RStart => start | RYield i => i + 1 end.
Definition squares_next (l : squares_at) : Z := match l with SStart => 1 | SYield i => i + 1 end.

Lemma range_yields start end_ : ∀ k l n, range_next start l = end_ - Z.of_nat k → (k <= n)%nat →
  yields (Range start end_) range_variable n l = (seqZ (end_ - Z.of_nat k) (Z.of_nat k), true).
Proof.
  induction k as [|k IH]; intros l n Hl Hn.
  - apply yields_return. unfold Range. fold (range_next start l). rewrite Hl. by destruct (Z.ltb_spec (end_ - Z.of_nat 0) end_); [lia|].
  - destruct n as [|n]; [lia|]. rewrite (yields_ref _ _ _ _ (RYield (end_ - Z.of_nat (S k)))).
    + rewrite IH by (simpl; lia). rewrite (seqZ_cons (end_ - Z.of_nat (S k))) by lia. simpl. repeat f_equal; lia.
    + unfold Range. fold (range_next start l). rewrite Hl. by destruct (Z.ltb_spec (end_ - Z.of_nat (S k)) end_); [|lia].
Qed.

Lemma squares_yields m : ∀ k l n, squares_next l = m + 1 - Z.of_nat k → (k <= n)%nat →
  yields (Squares m) (λ _, 0) n l = ((λ i, i * i) <$> seqZ (m + 1 - Z.of_nat k) (Z.of_nat k), true).
Proof.
  induction k as [|k IH]; intros l n Hl Hn.
  - apply yields_return. unfold Squares. fold (squares_next l). rewrite Hl. by destruct (Z.leb_spec (m + 1 - Z.of_nat 0) m); [lia|].
  - destruct n as [|n]; [lia|].
    rewrite (yields_value _ _ _ _ ((m + 1 - Z.of_nat (S k)) * (m + 1 - Z.of_nat (S k))) (SYield (m + 1 - Z.of_nat (S k)))).
    + rewrite IH by (simpl; lia). rewrite (seqZ_cons (m + 1 - Z.of_nat (S k))) by lia. simpl. repeat f_equal; lia.
    + unfold Squares. fold (squares_next l). rewrite Hl. by destruct (Z.leb_spec (m + 1 - Z.of_nat (S k)) m); [|lia].
Qed.

(** The reference. *)
Fixpoint fib (n : nat) : Z := match n with O => 0 | S m => match m with O => 1 | S p => fib p + fib m end end.

Lemma fib_step k : fib (S (S k)) = fib k + fib (S k).
Proof. done. Qed.

Lemma fib_yields : ∀ n k, yields Fibonacci fib_variable n (FYield (fib k) (fib (S k))) = (fib <$> seq (S k) n, false).
Proof.
  induction n as [|n IH]; intros k; [done|]. by rewrite (yields_ref _ _ _ _ (FYield (fib (S k)) (fib (S (S k))))), IH.
Qed.

Lemma fib_mono k : 0 <= fib k <= fib (S k).
Proof.
  assert (0 <= fib k <= fib (S k) ∧ 0 <= fib (S k)) as [? _]; [|done].
  induction k as [|k [H1 H2]]; [done|]. rewrite (fib_step k). lia.
Qed.

Lemma fib_le k m : (k <= m)%nat → fib k <= fib m.
Proof. induction 1 as [|m _ IH]; [lia|]. pose proof (fib_mono m). lia. Qed.

Lemma fib_iterate k : (fib k, fib (S k)) = Nat.iter k (λ ab, (ab.2, ab.1 + ab.2)) (0, 1).
Proof. induction k as [|k IH]; [done|]. rewrite (fib_step k). simpl Nat.iter. by rewrite <- IH. Qed.

Lemma fib_92 : fib 92 = 7540113804746346429 ∧ fib 93 = 12200160415121876738.
Proof.
  apply pair_equal_spec. rewrite (fib_iterate 92). vm_compute. reflexivity.
Qed.

(** The generators of example 02 yield what they say: a range-for over
    Range(start, end) sees the integers from [start] up to [end], and then ends,
    and over Squares(n) the squares of 1 to [n]; [n] increments of the iterator
    of Fibonacci see the first [n] Fibonacci numbers, and the generator never
    ends.  No [int] overflows while the squares fit, and no [long long] in the
    first 92 Fibonacci numbers; but computing the next one overflows. *)
Theorem generators_yield :
  (∀ start end_ n, (Z.to_nat (end_ - start) <= n)%nat →
     for_each (Range start end_) range_variable n RStart = Some (seqZ start (end_ - start), true)) ∧
  (∀ m n, (Z.to_nat m <= n)%nat →
     for_each (Squares m) (λ _, 0) n SStart = Some ((λ i, i * i) <$> seqZ 1 m, true)) ∧
  (∀ n, for_each Fibonacci fib_variable n FStart = Some (fib <$> seq 0 n, false)) ∧
  (∀ m i, m <= 46340 → i ∈ seqZ 1 m → fits 32 (i * i)) ∧
  (∀ k, (k <= 92)%nat → fits 64 (fib k)) ∧ ~ fits 64 (fib 93).
Proof.
  split_and!.
  - intros start end_ n Hn. rewrite for_each_yields. f_equal. destruct (Z.le_gt_cases start end_).
    + rewrite (range_yields _ _ (Z.to_nat (end_ - start))) by (simpl; lia). repeat f_equal; lia.
    + rewrite seqZ_nil by lia. apply yields_return. unfold Range. by destruct (Z.ltb_spec start end_); [lia|].
  - intros m n Hn. rewrite for_each_yields. f_equal. destruct (Z.le_gt_cases 0 m).
    + rewrite (squares_yields m (Z.to_nat m)) by (simpl; lia). repeat f_equal; lia.
    + rewrite seqZ_nil by lia. apply yields_return. unfold Squares. by destruct (Z.leb_spec 1 m); [lia|].
  - intros [|n]; rewrite for_each_yields; [done|]. f_equal.
    by rewrite (yields_ref _ _ _ _ (FYield (fib 0) (fib 1))), fib_yields.
  - intros m i Hm [Hi1 Hi2]%elem_of_seqZ. unfold fits. simpl. nia.
  - intros k Hk. pose proof (fib_le _ _ Hk). pose proof (fib_mono k). unfold fits. destruct fib_92 as [E _]. simpl. lia.
  - unfold fits. destruct fib_92 as [_ ->]. simpl. lia.
Qed.
End Generators.

(** ** 05: the request handler *)

Module HttpRoutes.
(** A literal, with backquotes for its double quotes. *)
Definition quoted (s : string) : str := (λ c, if Ascii.eqb c "`" then ascii_of_nat 34 else c) <$> lit s.

Definition index_head : str := quoted "<!DOCTYPE html>
<html>
<head>
    <title>Hotcoco HTTP Server</title>
    <style>
        body {
            font-family: -apple-system, BlinkMacSystemFont, 'Segoe UI', Roboto, Arial, sans-serif;
            max-width: 800px;
            margin: 50px auto;
            padding: 20px;
            background: linear-gradient(135deg, #667eea 0%, #764ba2 100%);
            min-height: 100vh;
        }
        .container {
            background: white;
            border-radius: 10px;
            padding: 30px;
            box-shadow: 0 10px 40px rgba(0,0,0,0.2);
        }
        h1 {
            color: #667eea;
            margin-bottom: 10px;
        }
        .subtitle {
            color: #666;
            margin-bottom: 30px;
        }
        .endpoint {
            background: #f5f5f5;
            border-radius: 5px;
            padding: 15px;
            margin: 10px 0;
            font-family: monospace;
        }
        .method {
            background: #667eea;
            color: white;
            padding: 3px 8px;
            border-radius: 3px;
            font-size: 12px;
        }
        .stats {
            margin-top: 30px;
            padding-top: 20px;
            border-top: 1px solid #eee;
            color: #666;
        }
    </style>
</head>
<body>
    <div class=`container`>
        <h1>🥥 Hotcoco HTTP Server</h1>
        <p class=`subtitle`>A C++20 coroutine-based HTTP server</p>
        
        <h3>Available Endpoints</h3>
        <div class=`endpoint`>
            <span class=`method`>GET</span> /
            <br><small>This page</small>
        </div>
        <div class=`endpoint`>
            <span class=`method`>GET</span> /api/hello
            <br><small>Returns a greeting in JSON</small>
        </div>
        <div class=`endpoint`>
            <span class=`method`>GET</span> /api/time
            <br><small>Returns current server time</small>
        </div>
        <div class=`endpoint`>
            <span class=`method`>GET</span> /api/stats
            <br><small>Returns request statistics</small>
        </div>
        
        <div class=`stats`>
            <strong>Server Time:</strong> ".
Definition index_middle : str := quoted "
            <br>
            <strong>Requests Served:</strong> ".
Definition index_tail : str := quoted "
        </div>
    </div>
</body>
</html>
".

(** [time]: what GetCurrentTime returns. *)
Definition GetIndexHtml (time : str) (g_request_count : Z) : str :=
  index_head ++ time ++ index_middle ++ to_string g_request_count ++ index_tail.

Definition time_json (time : str) : str := quoted "{`time`: `" ++ time ++ quoted "`, `timezone`: `server`}".
Definition stats_json (g_request_count : Z) : str :=
  quoted "{`requests`: " ++ to_string g_request_count ++ quoted ", `uptime`: `running`}".

(** The response, and the counter after it. *)
Definition HandleRequest (time : str) (g_request_count : Z) (req : HttpRequest) : HttpResponse * Z :=
  let n := g_request_count + 1 in
  (if bool_decide (path req = lit "/") || bool_decide (path req = lit "/index.html") then Html (GetIndexHtml time n)
   else if bool_decide (path req = lit "/api/hello") then
     Json (quoted "{`message`: `Hello from hotcoco!`, `status`: `ok`}")
   else if bool_decide (path req = lit "/api/time") then Json (time_json time)
   else if bool_decide (path req = lit "/api/stats") then Json (stats_json n)
   else NotFound (lit "404 - Page not found: " ++ path req), n).

(** Requests one after the other, each with the time it comes. *)
Fixpoint HandleRequests (g_request_count : Z) (reqs : list (str * HttpRequest)) : list HttpResponse :=
  match reqs with
  | [] => []
  | (time, req) :: reqs =>
      let (res, n) := HandleRequest time g_request_count req in res :: HandleRequests n reqs
  end.

Definition routes : list str := [lit "/"; lit "/index.html"; lit "/api/hello"; lit "/api/time"; lit "/api/stats"].

Lemma response_length code text content_type b :
  find (lit "Content-Length") (res_headers (response code text content_type b)) = Some (to_string (len b)).
Proof. reflexivity. Qed.

(** Every request is answered: 200 on the routes and 404, naming the path, on
    all other paths; the Content-Length is that of the body. *)
Theorem requests_routed time n req : let res := (HandleRequest time n req).1 in
  status_code res = (if bool_decide (path req ∈ routes) then 200 else 404) ∧
  (path req ∉ routes → res_body res = lit "404 - Page not found: " ++ path req) ∧
  find (lit "Content-Length") (res_headers res) = Some (to_string (len (res_body res))).
Proof.
  unfold HandleRequest. cbn [fst].
  destruct (bool_decide_reflect (path req ∈ routes)) as [Hin|Hout].
  - assert (∃ html, (HandleRequest time n req).1 = Html html ∨ (HandleRequest time n req).1 = Json html) as (b & E).
    { unfold HandleRequest. cbn [fst]. unfold routes in Hin. set_unfold. destruct_or!; rewrite Hin; eexists; by auto. }
    unfold HandleRequest in E. cbn [fst] in E. destruct E as [-> | ->]; (split_and!; [done|done|apply response_length]).
  - rewrite !bool_decide_false by (unfold routes in Hout; set_solver). cbn [orb].
    split_and!; [done|done|apply response_length].
Qed.

(** The statistics count the requests: the [i]-th request of a server, if it
    asks for them, is told that it is number [i + 1]. *)
Theorem requests_counted n reqs i time req : reqs !! i = Some (time, req) → path req = lit "/api/stats" →
  HandleRequests n reqs !! i = Some (Json (stats_json (n + Z.of_nat i + 1))).
Proof.
  revert n i. induction reqs as [|[t r] reqs IH]; intros n [|i] Hi Hp; simplify_eq/=.
  - rewrite Hp. simpl. by rewrite Z.add_0_r.
  - rewrite (IH _ _ Hi Hp). do 3 f_equal. lia.
Qed.
End HttpRoutes.

(** ** 07: the std::execution bridge

    The pipelines are built by stdexec: what a sender sends to its receiver is a
    parameter, with the documented behaviour of [just] and [then]. *)
Module StdexecBridge.
#[local] Instance int_void : VoidValue Z := 0.

(** A coroutine that awaits one sender, then returns. *)
Inductive sender_op := AwaitSender (sent : signal (T := Z)).
Definition task : Type := code (V := Z) (Op := sender_op).
Definition ComputeAsync : task := CoReturn 42.
Definition FetchA : task := CoReturn 10.
Definition FetchB : task := CoReturn 20.

Section Pipelines.
Context (just_then : Z → (Z → Z) → signal (T := Z)) (schedule_then : Z → signal (T := Z)).
Hypothesis just_then_sends : ∀ x f, just_then x f = SigValue (f x).
Hypothesis schedule_then_sends : ∀ x, schedule_then x = SigValue x.

Definition HybridCoroutine : task :=
  CoAwaitOp (AwaitSender (just_then 21 (λ x, x * 2))) (λ from_sender, CoReturn from_sender).
Definition make_task : task := CoAwaitOp (AwaitSender (schedule_then 7)) (λ base, CoReturn (base * 6)).

(** What a SenderAwaitable answers: the value, or the process aborts. *)
Definition answer (cont : Prelude.handle) (op : sender_op) : option Z :=
  match op with AwaitSender sent => snd <$> co_await_sender cont sent end.
(** A task whose operations are answered so. *)
Fixpoint result_of (fuel : nat) (t : computation (V := Z) (Op := sender_op)) : option Z :=
  match fuel, t with
  | _, Ret v => Some v
  | O, Vis _ _ => None
  | S fuel, Vis op k => v ← answer 1%nat op; result_of fuel (k v)
  end.

(** The coroutines of the demos give 42, 10 and 20. *)
Lemma bridge_results :
  result_of 0 (denote ComputeAsync) = Some 42 ∧ result_of 1 (denote HybridCoroutine) = Some 42 ∧
  result_of 1 (denote make_task) = Some 42 ∧
  result_of 0 (denote FetchA) = Some 10 ∧ result_of 0 (denote FetchB) = Some 20.
Proof. unfold HybridCoroutine, make_task. rewrite just_then_sends, schedule_then_sends. done. Qed.
End Pipelines.

(** What the cancellation demo prints: each direction before and after. *)
Definition token_cancelled (ls : list stop_label) : option bool :=
  s ← run stop_step ls (StopSys false true ∅); (λ b, IsCancelled (source_ b)) <$> bridges s !! 0%nat.
(** The stop is requested by the callback of the link, if Cancel calls it. *)
Definition linked_stop (request_stop : nat) (cancelled : bool) : bool :=
  let '(link, now) := LinkCancellation request_stop (Source_GetToken Source_ctor) in
  let '(called, _) := if cancelled then Source_Cancel (token_ link) else ([], token_ link) in
  now || bool_decide (request_stop ∈ called).
Definition demo_cancellation_bridge : list (option bool) :=
  [token_cancelled [FromStopToken 0]; token_cancelled [FromStopToken 0; RequestStop];
   Some (linked_stop 5 false); Some (linked_stop 5 true)].
Example cancellation_demo : demo_cancellation_bridge = [Some false; Some true; Some false; Some true].
Proof. vm_compute. reflexivity. Qed.
End StdexecBridge.
